(* ===== verification/_CoqProject ===== *)
-Q . S2P
Prelude.v
GoNum.v
OS.v
Snappy.v
Segment.v
SegmentRep.v
SegmentRead.v
SegmentWrite.v
SegmentOpen.v
SegmentProps.v
Log.v
LogRep.v
LogView.v
LogWrite.v
LogOpen.v
LogRetention.v
LogCompact.v
LogMessages.v
LogProps.v
RaftFSM.v
RaftSpec.v
RaftProps.v
ConsumerGroup.v
ConsumerGroupProps.v
Path.v
GoNet.v
Frame.v
LogFrame.v
Broker.v
BrokerRep.v
BrokerRun.v
BrokerSpec.v
BrokerPublish.v
BrokerProps.v
BrokerConc.v
BrokerConfig.v
BrokerLife.v
BrokerAPI.v
BrokerAPIRun.v
BrokerHTTP.v
BrokerMetrics.v
BrokerWorkers.v
BrokerClose.v
TLS.v
StreamLayer.v
BrokerStart.v
BrokerMain.v
CLI.v
GoFlag.v
CLIMain.v
APIProps.v
