(* ===== verification/Prelude.v ===== *)
(** * A verification development for distributed-event-log

    distributed-event-log is a replicated event log in Go.  A broker keeps
    topics of three partitions; a partition is a commit log on disk, made of
    segments, each a [.log] and an [.index] file.  Messages are published on the
    leader of a Raft cluster: the broker encodes a command, Raft commits it, and
    the state machine of every broker appends it to its own partition.
    Consumers read by offset, and consumer groups commit offsets to a BoltDB
    file with a map in front of it.  The interfaces are gRPC and HTTP; a command
    line client publishes, reads, and follows a partition for a group.

    ** Conventions

    The model is a shallow embedding.  Go code is a value of the monad [GoM S A]
    of this file: from a state [S] it returns a value, returns an error, or
    panics, and the state it leaves is kept in all three cases.  Integers are
    [Z] with their wrap-around written out ([u64], [i64], [u32], ... of GoNum.v),
    bytes and strings are lists of bytes, a Go map is a [gmap] whose iteration
    order is an arbitrary permutation ([MapRange]), errors are values of
    [goerr], a format and its arguments.  A method that holds its receiver's
    mutex for its whole body is one atomic step.  [wp m Q E s] is the weakest
    precondition by which most theorems are stated: from [s], [m] does not panic,
    [Q] holds if it returns a value and [E] if it returns an error.

    ** Parts

    Prelude, GoNum, GoNet, Path: lists, errors, the monad, maps; integers,
    big-endian encodings, the conversion to float64 that the lag gauge makes,
    strconv; hash/fnv and package net; path/filepath.

    OS: package os.  A [world] has directories, contents of files by inode, and
    a supply of faults; every system call takes the next one, which may make it
    fail, or make a write short.  A theorem for every world holds for every
    pattern of I/O errors; [reliable] is a world without faults.

    Snappy: the interface of the compression library, with its round trip as its
    law; the run-length coder at its end is an instance for the examples.

    Segment (internal/log/segment.go): the record [Segment], NewSegment, Append,
    AppendBatch, Read, findMessageBounds, findPosition, findEndPosition,
    NewestTimestamp, Close, Delete, writeAll.  SegmentRep says which entries a
    segment holds, SegmentRead, SegmentWrite and SegmentOpen what each operation
    does to them, SegmentProps has the theorems: the index look-up is a linear
    search, an append is read back, a batch is a sequence of appends and is
    stored entirely or not at all, reopening gives the segment back, and a torn
    record damages the last message.

    Log (internal/log/log.go): the record [Log], NewLog, Append, AppendBatch,
    Read, ReadBatch, LatestOffset, Compact, EnforceRetention, Close.  LogRep and
    LogView relate a log to a base offset and a list of messages ([Readable],
    [Writable]); LogWrite, LogOpen, LogRetention, LogCompact and LogMessages
    carry the operations over; LogProps has the theorems, each a refinement of an
    operation on that list, with what a failing device can do.

    RaftFSM (internal/raft/fsm.go): the frames of the commands and the state
    machine, for any [LogProvider].  RaftSpec is a grammar of frames, RaftProps
    has the theorems: Apply is the grammar's parser, encoding is undone by it,
    torn frames are refused, no input makes it panic.

    ConsumerGroup (internal/broker/consumer_group.go): the store, over the
    interface [Bolt], whose laws [BoltLaws] are BoltDB's documented transactions.
    ConsumerGroupProps: commits, restarts, and concurrent commits as interleaved
    steps.

    Frame, LogFrame: the logs of different directories do not interfere.

    Broker, BrokerAPI (internal/broker/broker.go): Broker has the state
    ([Broker]: the topics, a heap of logs, since a log pointer is shared; the
    configurations; the round-robin counters) and the operations on topics,
    partitions, publishing and reading; BrokerAPI has the gRPC methods, the HTTP
    handlers, joinPeer, grpcAddress and what Close does once its workers have
    returned.  Raft is the interface [Raft]: a
    proposal gives the committed entries that reach this node's state machine
    before its future completes, among them entries of other clients; its law
    is that a future without an error is that of the last entry.  The broker is
    the [LogProvider] of its state machine ([broker_logs]).

    BrokerRep relates a broker to its [contents], the messages of every topic
    and partition, whether the topic is open or only on disk; BrokerRun,
    BrokerSpec, BrokerPublish and BrokerAPIRun give the runs of the operations
    on contents; BrokerProps and APIProps have the theorems: publishing returns
    the offset of its message and it is read back, replicas that apply the same
    commands agree up to timestamps, a restart loses nothing but a replay of the
    Raft log stores everything twice, a following consumer group prints every
    message once and in order.

    BrokerConc: calls of GetPartition that interleave at their two critical
    sections, as a step relation; no schedule opens a topic twice.  BrokerConfig:
    SetTopicConfig, and what a change of compression does to stored messages.
    BrokerLife: any sequence of operations on topics, partitions, publishing,
    configuration and retention; an offset names the same message for ever.

    BrokerHTTP: the request multiplexer.  Every answer has the type of its
    endpoint; the answers are those of the gRPC methods, but for an empty group
    and a bad partition, which HTTP refuses; and the admin pages show the
    messages and commits that are there.
    BrokerMetrics: over any sequence of requests on any path the counters are the
    sums of what the clients were answered, and only commits change the lag, the
    groups and their database; the collectors are registered once.

    BrokerWorkers: the goroutines of the lag, compaction and retention workers
    and the part of Close that stops them, as a step relation: when Close can
    still return, and that nothing runs after it.  BrokerClose: all of Close as
    steps among the workers of the three groups; when it returns, what it has
    closed, its error, and that a broker that starts on the same files has every
    message.

    BrokerStart: NewBroker over an interface of the calls that open, start, stop
    and close.  Other goroutines act between the calls ([drifted]): a server may
    end, the state machine of Raft may open topics.  Code moves the set of open
    resources from one interval to another ([stage]); the theorem says what is
    open when NewBroker returns or fails, and when it does not return.
    BrokerMain (cmd/broker/main.go): the process around it.

    TLS (internal/tls/tls.go), StreamLayer: the TLS configurations and the
    connections of the Raft transport, over interfaces for crypto/tls and net.

    GoFlag, CLI, CLIMain (cmd/cli/main.go): package flag with the number literals
    of strconv; the three commands of the client; main, which a command line
    reaches with the values it gives to the flags ([setting], a description of
    the flags that is written apart from the code's flag sets) and the documented
    defaults.

    ** Fuel

    A function that takes fuel panics when it runs out, and the theorems say
    that it does not: write_loop has a unit for each byte (a short write writes
    at least one), the binary searches one for each entry (a round drops at least
    one from the range), read_run one for each message that is still wanted,
    read_segments one for each segment and one more (every round but the last
    moves to a later segment), retention_loop one for each segment, compact_loop
    one for each index entry.  [consume_rounds] is the client's endless loop cut
    after any number of rounds.

    ** Hypotheses

    The theorems on the broker are for a reliable device ([broker_ok] asks for
    it); those on segments, logs and the consumer-group store are for every
    device.  Topic names are [plain], one path element: other names make topics
    share directories (Path.partitionDir_dotdot) and overwrite each other's messages
    (BrokerConfig.aliased_topics_collide).  [entries_ok] bounds what is
    stored by the widths of the length fields and of offsets.

    ** Not modelled

    When the tickers tick.  JSON text and Go-quoted text: a
    request is its decoded body, a response the value given to the encoder, an
    error its format and arguments.  The generated gRPC code, third-party
    libraries, benchmarks, scripts and deployment files.  Concurrency beyond
    CommitOffset (ConsumerGroupProps), GetPartition (BrokerConc), the workers
    and Close (BrokerWorkers, BrokerClose): the other calls run alone, with
    entries of other clients committed among their own. *)

From Stdlib Require Export Strings.Byte.
From Stdlib Require Import Strings.String.
From stdpp Require Export base tactics numbers list gmap strings sorting.

#[global] Open Scope Z_scope.

(** ** Bytes

    A Go [byte] is an [Init.Byte.byte]; a Go [[]byte] and a Go [string] (which
    is an immutable byte sequence) are both lists of bytes. *)

Abbreviation byte := Byte.byte.
Abbreviation bytes := (list Byte.byte).

(** Length of a slice as a Go [int]. *)
Abbreviation zlen l := (Z.of_nat (length l)).

#[global] Instance byte_eq_dec : EqDecision byte := Byte.byte_eq_dec.

#[global] Program Instance byte_countable : Countable byte :=
  inj_countable Byte.to_N Byte.of_N _.
Next Obligation. intros b. apply Byte.of_to_N. Qed.

#[global] Instance byte_inhabited : Inhabited byte := populate Byte.x00.

(** A Go string literal. *)
Definition str (s : string) : bytes := String.list_byte_of_string s.

(** ** Errors

    A Go [error] value.  The first group are the errors of the operating
    system interface and of package [io]; [EMsg] is [errors.New] and
    [fmt.Errorf] with its format and arguments; [EWrap] is [fmt.Errorf] with a
    [%w] verb. *)

Inductive earg : Type :=
| AInt (z : Z)
| AStr (b : bytes).

Inductive goerr : Type :=
| ErrInvalid            (* os.ErrInvalid: a method of a nil *os.File *)
| ErrNotExist           (* os.ErrNotExist *)
| ErrExist              (* os.ErrExist *)
| ErrIsDir              (* syscall.EISDIR *)
| ErrNegativeOffset     (* ReadAt with a negative offset *)
| EOF                   (* io.EOF *)
| ErrShortWrite         (* io.ErrShortWrite *)
| EIO (errno : Z)       (* a failed system call *)
| EMsg (fmt : string) (args : list earg)
| EWrap (fmt : string) (args : list earg) (err : goerr).

#[global] Instance earg_eq_dec : EqDecision earg.
Proof. solve_decision. Defined.

#[global] Instance goerr_eq_dec : EqDecision goerr.
Proof.
  intros x y; unfold Decision.
  revert y; induction x as [| | | | | | |n|f a|f a e IH]; intros []; try (right; discriminate);
    try (left; reflexivity).
  - destruct (decide (n = errno)) as [->|]; [by left | right; congruence].
  - destruct (decide (f = fmt)) as [->|]; [|right; congruence].
    destruct (decide (a = args)) as [->|]; [by left | right; congruence].
  - destruct (decide (f = fmt)) as [->|]; [|right; congruence].
    destruct (decide (a = args)) as [->|]; [|right; congruence].
    destruct (IH err) as [->|]; [by left | right; congruence].
Defined.

(** ** The monad of Go code

    A piece of Go code that works on a state [S] returns a value, returns an
    error, or panics; the state it leaves behind is kept in every case, as a
    failed method does not undo what it did before it failed. *)

Inductive outcome (A : Type) : Type :=
| Ok (a : A)
| Err (e : goerr)
| Panic.
Arguments Ok {A} a.
Arguments Err {A} e.
Arguments Panic {A}.

Definition GoM (S A : Type) : Type := S → outcome A * S.

#[global] Instance gom_ret {S} : MRet (GoM S) := λ A a s, (Ok a, s).

#[global] Instance gom_bind {S} : MBind (GoM S) := λ A B f m s,
  match m s with
  | (Ok a, s') => f a s'
  | (Err e, s') => (Err e, s')
  | (Panic, s') => (Panic, s')
  end.

(** [return ..., err] *)
Definition throw {S A} (e : goerr) : GoM S A := λ s, (Err e, s).

Definition panic {S A} : GoM S A := λ s, (Panic, s).

(** Reads and writes of the state. *)
Definition get_st {S} : GoM S S := λ s, (Ok s, s).
Definition put_st {S} (s' : S) : GoM S unit := λ _, (Ok tt, s').
Definition modify_st {S} (f : S → S) : GoM S unit := λ s, (Ok tt, f s).

(** [v, err := m], with the error as a value the code goes on to inspect. *)
Definition attempt {S A} (m : GoM S A) : GoM S (A + goerr) := λ s,
  match m s with
  | (Ok a, s') => (Ok (inl a), s')
  | (Err e, s') => (Ok (inr e), s')
  | (Panic, s') => (Panic, s')
  end.

(** [_ = m]: the result and the error are dropped. *)
Definition ignore {S A} (m : GoM S A) : GoM S unit :=
  _ ← attempt m; mret tt.

(** [if err := m; err != nil { handler; return err }] *)
Definition on_error {S A} (m : GoM S A) (handler : GoM S unit) : GoM S A :=
  r ← attempt m;
  match r with
  | inl a => mret a
  | inr e => handler;; throw e
  end.

(** [if err := m; err != nil { return fmt.Errorf("...: %w", err) }] *)
Definition wrap_error {S A} (f : goerr → goerr) (m : GoM S A) : GoM S A := λ s,
  match m s with
  | (Ok a, s') => (Ok a, s')
  | (Err e, s') => (Err (f e), s')
  | (Panic, s') => (Panic, s')
  end.

(** Code on a part of the state, as code on the whole state. *)
Definition zoom {S T A} (get : S → T) (set : T → S → S) (m : GoM T A) : GoM S A := λ s,
  let '(r, t) := m (get s) in (r, set t s).

(** Code on the second component of the state (the operating system, for the
    methods whose receiver is the first). *)
Definition lift_snd {S T A} (m : GoM T A) : GoM (S * T) A := λ '(s, t),
  let '(r, t') := m t in (r, (s, t')).

(** ** Weakest preconditions

    [wp m Q E s]: run from [s], [m] does not panic; if it returns a value [a]
    in state [s'] then [Q a s'], if it returns an error [e] in [s'] then
    [E e s']. *)

Definition wp {S A} (m : GoM S A) (Q : A → S → Prop) (E : goerr → S → Prop) (s : S) : Prop :=
  match m s with
  | (Ok a, s') => Q a s'
  | (Err e, s') => E e s'
  | (Panic, _) => False
  end.

Section wp.
Context {S : Type}.

Lemma wp_mono {A} (m : GoM S A) Q Q' E E' s :
  wp m Q E s → (∀ a s', Q a s' → Q' a s') → (∀ e s', E e s' → E' e s') → wp m Q' E' s.
Proof. unfold wp. destruct (m s) as [[] ?]; naive_solver. Qed.

Lemma wp_ret {A} (a : A) Q E (s : S) : Q a s → wp (mret a) Q E s.
Proof. done. Qed.

Lemma wp_throw {A} e (Q : A → S → Prop) (E : goerr → S → Prop) s : E e s → wp (throw e) Q E s.
Proof. done. Qed.

Lemma wp_bind {A B} (m : GoM S A) (f : A → GoM S B) Q E s :
  wp m (λ a s', wp (f a) Q E s') E s → wp (m ≫= f) Q E s.
Proof. unfold wp, mbind, gom_bind. destruct (m s) as [[] ?]; done. Qed.

Lemma wp_get (Q : S → S → Prop) E s : Q s s → wp get_st Q E s.
Proof. done. Qed.

Lemma wp_put s' (Q : unit → S → Prop) E s : Q tt s' → wp (put_st s') Q E s.
Proof. done. Qed.

Lemma wp_modify f (Q : unit → S → Prop) E s : Q tt (f s) → wp (modify_st f) Q E s.
Proof. done. Qed.

Lemma wp_attempt {A} (m : GoM S A) Q E s :
  wp m (λ a, Q (inl a)) (λ e, Q (inr e)) s → wp (attempt m) Q E s.
Proof. unfold wp, attempt. destruct (m s) as [[] ?]; done. Qed.

Lemma wp_ignore {A} (m : GoM S A) (Q : unit → S → Prop) E s :
  wp m (λ _, Q tt) (λ _, Q tt) s → wp (ignore m) Q E s.
Proof. unfold wp, ignore, mbind, gom_bind, attempt. destruct (m s) as [[] ?]; done. Qed.

Lemma wp_on_error {A} (m : GoM S A) h Q E s :
  wp m Q (λ e s', wp h (λ _ s'', E e s'') (λ e' s'', E e' s'') s') s → wp (on_error m h) Q E s.
Proof.
  unfold wp, on_error, mbind, gom_bind, attempt, throw.
  destruct (m s) as [[|e|] s']; try done. by destruct (h s') as [[] ?].
Qed.

Lemma wp_wrap_error {A} f (m : GoM S A) Q E s :
  wp m Q (λ e, E (f e)) s → wp (wrap_error f m) Q E s.
Proof. unfold wp, wrap_error. destruct (m s) as [[] ?]; done. Qed.

Lemma wp_zoom {T A} get set (m : GoM T A) Q E (s : S) :
  wp m (λ a t, Q a (set t s)) (λ e t, E e (set t s)) (get s) → wp (zoom get set m) Q E s.
Proof. unfold wp, zoom. by destruct (m (get s)) as [[] ?]. Qed.

Lemma wp_lift_snd {T A} (m : GoM T A) Q E (s : S) t :
  wp m (λ a t', Q a (s, t')) (λ e t', E e (s, t')) t → wp (lift_snd m) Q E (s, t).
Proof. unfold wp, lift_snd. by destruct (m t) as [[] ?]. Qed.

(** A run that is known exactly, in both directions. *)
Lemma wp_run {A} (m : GoM S A) a s s' Q E : m s = (Ok a, s') → Q a s' → wp m Q E s.
Proof. unfold wp. by intros ->. Qed.

Lemma wp_run_err {A} (m : GoM S A) e s s' (Q : A → S → Prop) (E : goerr → S → Prop) :
  m s = (Err e, s') → E e s' → wp m Q E s.
Proof. unfold wp. by intros ->. Qed.

Lemma run_wp {A} (m : GoM S A) a s s' :
  wp m (λ b t, b = a ∧ t = s') (λ _ _, False) s → m s = (Ok a, s').
Proof. unfold wp. destruct (m s) as [[] ?]; naive_solver. Qed.

Lemma run_wp_err {A} (m : GoM S A) e s s' :
  wp m (λ _ _, False) (λ f t, f = e ∧ t = s') s → m s = (Err e, s').
Proof. unfold wp. destruct (m s) as [[] ?]; naive_solver. Qed.

Lemma run_bind {A B} (m : GoM S A) (f : A → GoM S B) a s s' :
  m s = (Ok a, s') → (m ≫= f) s = f a s'.
Proof. unfold mbind, gom_bind. by intros ->. Qed.

(** The postconditions may use what the run gives. *)
Lemma wp_outcome {A} (m : GoM S A) Q E s :
  wp m (λ a s', m s = (Ok a, s') → Q a s') (λ e s', m s = (Err e, s') → E e s') s → wp m Q E s.
Proof. unfold wp. destruct (m s) as [[a|e|] s']; auto. Qed.

(** A run that is known to satisfy a weakest precondition. *)
Lemma wp_inv {A} (m : GoM S A) Q E s :
  wp m Q E s → ∃ s', (∃ a, m s = (Ok a, s') ∧ Q a s') ∨ (∃ e, m s = (Err e, s') ∧ E e s').
Proof. unfold wp. destruct (m s) as [[a|e|] s']; [|eauto 10..|done]. eauto 10. Qed.

Lemma run_bind_err {A B} (m : GoM S A) (f : A → GoM S B) e s s' :
  m s = (Err e, s') → (m ≫= f) s = (Err e, s').
Proof. unfold mbind, gom_bind. by intros ->. Qed.
End wp.

(** One structural step of a weakest precondition. *)
Ltac wp_step :=
  lazymatch goal with
  | |- wp (mret _) _ _ _ => apply wp_ret
  | |- wp (throw _) _ _ _ => apply wp_throw
  | |- wp (_ ≫= _) _ _ _ => apply wp_bind
  | |- wp get_st _ _ _ => apply wp_get
  | |- wp (put_st _) _ _ _ => apply wp_put
  | |- wp (modify_st _) _ _ _ => apply wp_modify
  | |- wp (attempt _) _ _ _ => apply wp_attempt
  | |- wp (ignore _) _ _ _ => apply wp_ignore
  | |- wp (on_error _ _) _ _ _ => apply wp_on_error
  | |- wp (wrap_error _ _) _ _ _ => apply wp_wrap_error
  | |- wp (zoom _ _ _) _ _ _ => apply wp_zoom
  | |- wp (lift_snd _) _ _ (_, _) => apply wp_lift_snd
  end.

Ltac wp_steps := repeat (wp_step; cbn beta iota).

(** ** Lists *)

Create HintDb len.
#[export] Hint Rewrite @length_app @length_nil @length_cons @length_take @length_drop
  @length_fmap @Nat2Z.inj_add : len.

(** Length goals. *)
Ltac len := autorewrite with len in *; simpl length in *; try lia.

Section lists.
Context {A : Type}.
Implicit Types l k : list A.

(** [l[lo:hi]] of a Go slice, for [0 <= lo <= hi <= len(l)]. *)
Definition zsub (lo hi : Z) l : list A :=
  take (Z.to_nat (hi - lo)) (drop (Z.to_nat lo) l).

Definition zdrop (lo : Z) l : list A := drop (Z.to_nat lo) l.

Lemma zsub_app_exact l1 l2 l3 lo hi :
  zlen l1 = lo → zlen l2 = hi - lo → zsub lo hi (l1 ++ l2 ++ l3) = l2.
Proof.
  intros H1 H2. unfold zsub. rewrite drop_app_length'; [|lia].
  rewrite take_app_length'; [done|lia].
Qed.

Lemma zlen_zsub lo hi l : 0 ≤ lo ≤ hi → hi ≤ zlen l → zlen (zsub lo hi l) = hi - lo.
Proof. intros. unfold zsub. rewrite length_take, length_drop. lia. Qed.

Lemma zdrop_app_exact l1 l2 lo : zlen l1 = lo → zdrop lo (l1 ++ l2) = l2.
Proof. intros H1. unfold zdrop. rewrite drop_app_length'; [done|lia]. Qed.

End lists.

(** [l[i]] of a Go slice as a total function, [None] where Go panics. *)
Definition zlookup {A} (l : list A) (i : Z) : option A :=
  if decide (0 ≤ i) then l !! Z.to_nat i else None.

(** ** Maps

    [for k, v := range m] visits the entries of a map in an order that the
    language leaves open. *)

Class MapRange : Type := {
  map_range : ∀ {A}, gmap bytes A → list (bytes * A);
  map_range_perm : ∀ {A} (m : gmap bytes A), map_range m ≡ₚ map_to_list m
}.

(** One such order, for the examples. *)
Definition key_order : MapRange := {| map_range := λ _ m, map_to_list m; map_range_perm := λ _ _, Permutation_refl _ |}.

Lemma elem_of_map_range `{MapRange} {A} (m : gmap bytes A) k v : (k, v) ∈ map_range m ↔ m !! k = Some v.
Proof. by rewrite map_range_perm, elem_of_map_to_list. Qed.

(** ** Buffers *)

(** [copy(buf[off:off+len(data)], data)]: panics when the range is not inside
    the buffer. *)
Definition put_at {S} (off : Z) (data buf : bytes) : GoM S bytes :=
  if (0 <=? off) && (off + zlen data <=? zlen buf)
  then mret (take (Z.to_nat off) buf ++ data ++ drop (Z.to_nat off + length data) buf)
  else panic.

(** [s[lo:hi]]: panics unless [0 <= lo <= hi <= len(s)]. *)
Definition go_slice {S} (lo hi : Z) (s : bytes) : GoM S bytes :=
  if (0 <=? lo) && (lo <=? hi) && (hi <=? zlen s) then mret (zsub lo hi s) else panic.

(** Filling a zeroed buffer from left to right. *)
Lemma put_at_fill {S} done_ data rest off (s : S) :
  zlen done_ = off → zlen data ≤ rest →
  put_at off data (done_ ++ replicate (Z.to_nat rest) Byte.x00) s =
  (Ok ((done_ ++ data) ++ replicate (Z.to_nat (rest - zlen data)) Byte.x00), s).
Proof.
  intros Hoff Hrest. unfold put_at.
  rewrite length_app, length_replicate.
  destruct (Z.leb_spec 0 off); [|lia].
  destruct (Z.leb_spec (off + zlen data) (Z.of_nat (length done_ + Z.to_nat rest))); [|lia].
  simpl. unfold mret, gom_ret. do 2 f_equal.
  rewrite take_app_length' by lia. rewrite drop_app_ge by lia.
  rewrite drop_replicate, <-app_assoc. do 3 f_equal. lia.
Qed.

Lemma put_next {S B} done_ data rest off (f : bytes → GoM S B) (st : S) :
  off = zlen done_ → zlen data ≤ rest →
  (put_at off data (done_ ++ replicate (Z.to_nat rest) Byte.x00) ≫= f) st =
  f ((done_ ++ data) ++ replicate (Z.to_nat (rest - zlen data)) Byte.x00) st.
Proof. intros. by erewrite run_bind by (apply put_at_fill; done). Qed.

Lemma go_slice_ok {S} lo hi l (s : S) :
  0 ≤ lo ≤ hi → hi ≤ zlen l → go_slice lo hi l s = (Ok (zsub lo hi l), s).
Proof.
  intros. unfold go_slice. destruct (Z.leb_spec 0 lo); [|lia].
  destruct (Z.leb_spec lo hi); [|lia]. by destruct (Z.leb_spec hi (zlen l)); [|lia].
Qed.

(** A slice of [n] bytes of what is left after [pre]. *)
Lemma go_slice_at {S} pre l n off (s : S) :
  off = zlen pre → 0 ≤ n ≤ zlen l →
  go_slice off (off + n) (pre ++ l) s = (Ok (take (Z.to_nat n) l), s).
Proof.
  intros -> Hn. rewrite go_slice_ok by (rewrite ?length_app; lia). unfold zsub. do 2 f_equal.
  rewrite drop_app_length' by lia. f_equal. lia.
Qed.
