(* ===== verification/GoNum.v ===== *)
(** * Machine integers, big-endian encodings and decimal strings

    The parts of Go's integer types and of packages [encoding/binary] and
    [strconv] that the program uses. *)

From S2P Require Import Prelude.

(** ** Fixed-width integers

    A value of a Go integer type is the integer it stands for; each
    conversion, and each operation that can leave the range, wraps. *)

Definition u16 (z : Z) : Z := z `mod` 2 ^ 16.
Definition u32 (z : Z) : Z := z `mod` 2 ^ 32.
Definition u64 (z : Z) : Z := z `mod` 2 ^ 64.
Definition i32 (z : Z) : Z := (z + 2 ^ 31) `mod` 2 ^ 32 - 2 ^ 31.
Definition i64 (z : Z) : Z := (z + 2 ^ 63) `mod` 2 ^ 64 - 2 ^ 63.

Definition is_u16 (z : Z) : Prop := 0 ≤ z < 2 ^ 16.
Definition is_u32 (z : Z) : Prop := 0 ≤ z < 2 ^ 32.
Definition is_u64 (z : Z) : Prop := 0 ≤ z < 2 ^ 64.
Definition is_i32 (z : Z) : Prop := -2 ^ 31 ≤ z < 2 ^ 31.
Definition is_i64 (z : Z) : Prop := -2 ^ 63 ≤ z < 2 ^ 63.

(** [^uint32(0)] *)
Definition max_u32 : Z := 4294967295.

Lemma u16_id z : is_u16 z → u16 z = z.
Proof. apply Z.mod_small. Qed.
Lemma u32_id z : is_u32 z → u32 z = z.
Proof. apply Z.mod_small. Qed.
Lemma u64_id z : is_u64 z → u64 z = z.
Proof. apply Z.mod_small. Qed.
Lemma i32_id z : is_i32 z → i32 z = z.
Proof. unfold is_i32, i32. intros. rewrite Z.mod_small; lia. Qed.
Lemma i64_id z : is_i64 z → i64 z = z.
Proof. unfold is_i64, i64. intros. rewrite Z.mod_small; lia. Qed.

Lemma u32_range z : is_u32 (u32 z).
Proof. apply Z.mod_pos_bound. lia. Qed.
Lemma u64_range z : is_u64 (u64 z).
Proof. apply Z.mod_pos_bound. lia. Qed.
Lemma i32_range z : is_i32 (i32 z).
Proof. unfold is_i32, i32. pose proof (Z.mod_pos_bound (z + 2 ^ 31) (2 ^ 32)). lia. Qed.
Lemma i64_range z : is_i64 (i64 z).
Proof. unfold is_i64, i64. pose proof (Z.mod_pos_bound (z + 2 ^ 63) (2 ^ 64)). lia. Qed.

(** A conversion to the unsigned type and back. *)
Lemma i64_u64 z : is_i64 z → i64 (u64 z) = z.
Proof.
  unfold is_i64, i64, u64. intros Hz.
  rewrite Zplus_mod_idemp_l. by apply (i64_id z).
Qed.

Lemma i32_u32 z : is_i32 z → i32 (u32 z) = z.
Proof.
  unfold is_i32, i32, u32. intros Hz.
  rewrite Zplus_mod_idemp_l. by apply (i32_id z).
Qed.

Lemma i64_add_l a b : i64 (i64 a + b) = i64 (a + b).
Proof.
  unfold i64. f_equal. replace ((a + 2 ^ 63) `mod` 2 ^ 64 - 2 ^ 63 + b + 2 ^ 63)
    with ((a + 2 ^ 63) `mod` 2 ^ 64 + b) by lia.
  rewrite Zplus_mod_idemp_l. f_equal. lia.
Qed.

(** ** Bytes as integers *)

Definition byte_of_Z (z : Z) : byte := default Byte.x00 (Byte.of_N (Z.to_N (z `mod` 256))).
Definition Z_of_byte (b : byte) : Z := Z.of_N (Byte.to_N b).

Lemma Z_of_byte_range b : 0 ≤ Z_of_byte b < 256.
Proof. unfold Z_of_byte. pose proof (Byte.to_N_bounded b). lia. Qed.

Lemma Z_of_byte_of_Z z : Z_of_byte (byte_of_Z z) = z `mod` 256.
Proof.
  unfold byte_of_Z, Z_of_byte. pose proof (Z.mod_pos_bound z 256).
  destruct (Byte.of_N (Z.to_N (z `mod` 256))) as [b|] eqn:Hb; simpl.
  - apply Byte.to_of_N in Hb. rewrite Hb. lia.
  - apply Byte.of_N_None_iff in Hb. lia.
Qed.

Lemma byte_of_Z_of_byte b : byte_of_Z (Z_of_byte b) = b.
Proof.
  unfold byte_of_Z. pose proof (Z_of_byte_range b).
  rewrite Z.mod_small by lia. unfold Z_of_byte. rewrite N2Z.id.
  by rewrite Byte.of_to_N.
Qed.

#[global] Instance Z_of_byte_inj : Inj (=) (=) Z_of_byte.
Proof. intros b1 b2 H. by rewrite <-(byte_of_Z_of_byte b1), H, byte_of_Z_of_byte. Qed.

(** ** Package encoding/binary, [binary.BigEndian]

    [be_put n z] are the [n] bytes [PutUintN] stores for [z], [be_get] is what
    [UintN] reads from them. *)

Fixpoint be_put (n : nat) (z : Z) : bytes :=
  match n with
  | O => []
  | S n' => be_put n' (z / 256) ++ [byte_of_Z z]
  end.

Definition be_get (l : bytes) : Z := foldl (λ acc b, acc * 256 + Z_of_byte b) 0 l.

Definition PutUint16 (z : Z) : bytes := be_put 2 z.
Definition PutUint32 (z : Z) : bytes := be_put 4 z.
Definition PutUint64 (z : Z) : bytes := be_put 8 z.

Lemma length_be_put n z : length (be_put n z) = n.
Proof. revert z. induction n as [|n IH]; intros z; [done|]. simpl. rewrite length_app, IH. simpl. lia. Qed.

Lemma be_get_snoc l b : be_get (l ++ [b]) = be_get l * 256 + Z_of_byte b.
Proof. unfold be_get. by rewrite foldl_app. Qed.

Lemma be_get_one b : be_get [b] = Z_of_byte b.
Proof. done. Qed.

Lemma be_get_put n z : be_get (be_put n z) = z `mod` 256 ^ Z.of_nat n.
Proof.
  revert z. induction n as [|n IH]; intros z.
  { simpl. by rewrite Z.mod_1_r. }
  simpl be_put. rewrite be_get_snoc, IH, Z_of_byte_of_Z.
  rewrite Nat2Z.inj_succ, Z.pow_succ_r, Z.rem_mul_r by lia. lia.
Qed.

Lemma be_get_range l : 0 ≤ be_get l < 256 ^ zlen l.
Proof.
  induction l as [|b l IH] using rev_ind; [done|].
  rewrite be_get_snoc, length_app. simpl.
  rewrite Nat2Z.inj_add, Z.pow_add_r by lia. pose proof (Z_of_byte_range b). lia.
Qed.

Lemma be_put_get l : be_put (length l) (be_get l) = l.
Proof.
  induction l as [|b l IH] using rev_ind; [done|].
  rewrite be_get_snoc, length_app, Nat.add_comm. simpl.
  pose proof (Z_of_byte_range b).
  rewrite Z.div_add_l, Z.div_small, Z.add_0_r, IH by lia. f_equal. f_equal.
  rewrite <-(byte_of_Z_of_byte b) at 2. unfold byte_of_Z.
  rewrite Z.add_comm, Z_mod_plus_full. done.
Qed.

Lemma be_get_put_u16 z : is_u16 z → be_get (PutUint16 z) = z.
Proof. intros. unfold PutUint16. rewrite be_get_put. by apply Z.mod_small. Qed.
Lemma be_get_put_u32 z : is_u32 z → be_get (PutUint32 z) = z.
Proof. intros. unfold PutUint32. rewrite be_get_put. by apply Z.mod_small. Qed.
Lemma be_get_put_u64 z : is_u64 z → be_get (PutUint64 z) = z.
Proof. intros. unfold PutUint64. rewrite be_get_put. by apply Z.mod_small. Qed.

Lemma be_put_inj n z1 z2 :
  0 ≤ z1 < 256 ^ Z.of_nat n → 0 ≤ z2 < 256 ^ Z.of_nat n →
  be_put n z1 = be_put n z2 → z1 = z2.
Proof.
  intros H1 H2 H. apply (f_equal be_get) in H.
  rewrite !be_get_put, !Z.mod_small in H by lia. done.
Qed.

#[export] Hint Rewrite length_be_put : len.
#[global] Opaque be_put be_get.

(** ** Package strconv, base 10

    [FormatUint(z, 10)] for a [uint64] (at most 20 digits), [Itoa], and
    [ParseUint(s, 10, 64)], whose two errors (syntax and range) are both
    [None]: no caller tells them apart. *)

Definition digit (d : Z) : byte := byte_of_Z (48 + d).

Definition digit_val (c : byte) : option Z :=
  let d := Z_of_byte c - 48 in
  if decide (0 ≤ d < 10) then Some d else None.

Fixpoint digits (fuel : nat) (z : Z) : bytes :=
  match fuel with
  | O => []
  | S f => (if z <? 10 then [] else digits f (z / 10)) ++ [digit (z `mod` 10)]
  end.

Definition FormatUint (z : Z) : bytes := digits 20 z.

Definition Itoa (z : Z) : bytes :=
  if z <? 0 then str "-" ++ FormatUint (- z) else FormatUint z.

Fixpoint parse_digits (acc : Z) (s : bytes) : option Z :=
  match s with
  | [] => Some acc
  | c :: s' =>
      match digit_val c with
      | Some d => if acc * 10 + d <? 2 ^ 64 then parse_digits (acc * 10 + d) s' else None
      | None => None
      end
  end.

Definition ParseUint (s : bytes) : option Z :=
  match s with
  | [] => None
  | _ => parse_digits 0 s
  end.

Lemma digit_val_digit d : 0 ≤ d < 10 → digit_val (digit d) = Some d.
Proof.
  intros. unfold digit_val, digit. rewrite Z_of_byte_of_Z, Z.mod_small by lia.
  rewrite decide_True by lia. f_equal. lia.
Qed.

Lemma parse_digits_digits f z s :
  0 ≤ z < 10 ^ Z.of_nat f → z < 2 ^ 64 → parse_digits 0 (digits f z ++ s) = parse_digits z s.
Proof.
  revert z s. induction f as [|f IH]; intros z s Hz H64.
  { simpl in Hz. replace z with 0 by lia. done. }
  rewrite Nat2Z.inj_succ, Z.pow_succ_r in Hz by lia.
  pose proof (Z.div_mod z 10). pose proof (Z.mod_pos_bound z 10).
  assert (Hstep : parse_digits (z / 10) (digit (z `mod` 10) :: s) = parse_digits z s).
  { simpl. rewrite digit_val_digit by lia.
    destruct (Z.ltb_spec (z / 10 * 10 + z `mod` 10) (2 ^ 64)); [|lia]. f_equal. lia. }
  simpl digits. destruct (Z.ltb_spec z 10).
  - rewrite Z.div_small in Hstep by lia. done.
  - rewrite <-app_assoc, IH; [done| |lia].
    split; [apply Z.div_pos; lia | apply Z.div_lt_upper_bound; lia].
Qed.

Lemma FormatUint_nonempty z : FormatUint z ≠ [].
Proof. unfold FormatUint. simpl. by destruct (if z <? 10 then _ else _). Qed.

Lemma ParseUint_FormatUint z : is_u64 z → ParseUint (FormatUint z) = Some z.
Proof.
  intros Hz. pose proof (FormatUint_nonempty z).
  transitivity (parse_digits 0 (FormatUint z ++ [])).
  - rewrite app_nil_r. unfold ParseUint. by destruct (FormatUint z).
  - unfold is_u64 in Hz. unfold FormatUint. rewrite parse_digits_digits; [done| |lia].
    change (Z.of_nat 20) with 20. lia.
Qed.

(** A decimal digit. *)
Definition is_digit (c : byte) : Prop := 48 ≤ Z_of_byte c ≤ 57.

Lemma digits_are_digits f z : Forall is_digit (digits f z).
Proof.
  revert z. induction f as [|f IH]; intros z; simpl; [by apply Forall_nil|]. apply Forall_app. split.
  - destruct (z <? 10); [by apply Forall_nil|apply IH].
  - apply Forall_singleton. unfold is_digit, digit. pose proof (Z.mod_pos_bound z 10).
    rewrite Z_of_byte_of_Z, Z.mod_small by lia. lia.
Qed.

Lemma FormatUint_digits z : Forall is_digit (FormatUint z).
Proof. apply digits_are_digits. Qed.

(** The first digit of a positive number is not 0. *)
Lemma digits_head f z c s : 0 < z < 10 ^ Z.of_nat f → digits f z = c :: s → c ≠ Byte.x30.
Proof.
  revert z s. induction f as [|f IH]; intros z s Hz H; [simpl in Hz; lia|].
  rewrite Nat2Z.inj_succ, Z.pow_succ_r in Hz by lia. simpl in H. destruct (Z.ltb_spec z 10).
  - rewrite Z.mod_small in H by lia. simpl in H. injection H as <- _. unfold digit. intros He.
    apply (f_equal Z_of_byte) in He. rewrite Z_of_byte_of_Z, Z.mod_small in He by lia.
    change (Z_of_byte Byte.x30) with 48 in He. lia.
  - assert (0 < z / 10 < 10 ^ Z.of_nat f) as Hq.
    { split; [apply Z.div_str_pos; lia|apply Z.div_lt_upper_bound; lia]. }
    destruct (digits f (z / 10)) as [|c' s'] eqn:E.
    + destruct f as [|f]; [simpl in Hq; lia|]. simpl in E. by apply app_nil in E as [_ E].
    + simpl in H. injection H as -> _. by eapply IH.
Qed.

Lemma FormatUint_head z c s : 0 < z < 2 ^ 64 → FormatUint z = c :: s → c ≠ Byte.x30.
Proof. intros Hz. apply digits_head. lia. Qed.

Lemma FormatUint_0 : FormatUint 0 = str "0".
Proof. done. Qed.

#[global] Opaque FormatUint.

Lemma FormatUint_inj z1 z2 : is_u64 z1 → is_u64 z2 → FormatUint z1 = FormatUint z2 → z1 = z2.
Proof.
  intros H1 H2 H. apply (f_equal ParseUint) in H.
  rewrite !ParseUint_FormatUint in H by done. by simplify_eq.
Qed.

(** ** Package strings *)

Definition HasSuffix (s suffix : bytes) : bool :=
  bool_decide (suffix = drop (length s - length suffix) s).

Definition TrimSuffix (s suffix : bytes) : bytes :=
  if HasSuffix s suffix then take (length s - length suffix) s else s.

Lemma HasSuffix_app s suffix : HasSuffix (s ++ suffix) suffix = true.
Proof.
  apply bool_decide_eq_true. rewrite length_app.
  replace (length s + length suffix - length suffix)%nat with (length s) by lia.
  by rewrite drop_app_length.
Qed.

Lemma TrimSuffix_app s suffix : TrimSuffix (s ++ suffix) suffix = s.
Proof.
  unfold TrimSuffix. rewrite HasSuffix_app, length_app.
  replace (length s + length suffix - length suffix)%nat with (length s) by lia.
  by rewrite take_app_length.
Qed.

Lemma HasSuffix_inv s suffix : HasSuffix s suffix = true → ∃ p, s = p ++ suffix.
Proof.
  intros H%bool_decide_eq_true. exists (take (length s - length suffix) s).
  rewrite H at 2. by rewrite take_drop.
Qed.

(** Byte-wise lexicographic order of strings ([os.ReadDir] sorts by it). *)
Fixpoint bytes_leb (a b : bytes) : bool :=
  match a, b with
  | [], _ => true
  | _ :: _, [] => false
  | x :: a', y :: b' =>
      (Z_of_byte x <? Z_of_byte y) || ((Z_of_byte x =? Z_of_byte y) && bytes_leb a' b')
  end.

(** [strings.IndexByte(s, c)], -1 when there is none. *)
Fixpoint index_byte_from (i : Z) (s : bytes) (c : byte) : Z :=
  match s with
  | [] => -1
  | x :: s' => if decide (x = c) then i else index_byte_from (i + 1) s' c
  end.

Definition IndexByte (s : bytes) (c : byte) : Z := index_byte_from 0 s c.

Lemma index_byte_from_None i s c : 0 ≤ i → c ∉ s → index_byte_from i s c = -1.
Proof.
  revert i. induction s as [|x s IH]; intros i Hi Hc; [done|]. simpl.
  rewrite not_elem_of_cons in Hc. rewrite decide_False by naive_solver. apply IH; [lia|naive_solver].
Qed.

Lemma index_byte_from_app i s1 s2 c :
  0 ≤ i → c ∉ s1 → index_byte_from i (s1 ++ c :: s2) c = i + zlen s1.
Proof.
  revert i. induction s1 as [|x s1 IH]; intros i Hi Hc; simpl.
  - rewrite decide_True by done. lia.
  - rewrite not_elem_of_cons in Hc. rewrite decide_False by naive_solver.
    rewrite IH by (try lia; naive_solver). lia.
Qed.

Lemma index_byte_from_inv i s c k :
  0 ≤ i → index_byte_from i s c = k → 0 ≤ k →
  ∃ s1 s2, s = s1 ++ c :: s2 ∧ c ∉ s1 ∧ k = i + zlen s1.
Proof.
  revert i. induction s as [|x s IH]; intros i Hi Hk H0; simpl in Hk; [lia|].
  case_decide as Hx.
  - subst x. exists [], s. split; [done|]. split; [set_solver|]. simpl. lia.
  - destruct (IH (i + 1)) as (s1 & s2 & -> & Hn & ->); [lia|done|done|].
    exists (x :: s1), s2. split; [done|]. split; [set_solver|]. simpl. lia.
Qed.

Lemma IndexByte_app s1 s2 c : c ∉ s1 → IndexByte (s1 ++ c :: s2) c = zlen s1.
Proof. intros. unfold IndexByte. by rewrite index_byte_from_app. Qed.

Lemma IndexByte_None s c : c ∉ s → IndexByte s c = -1.
Proof. intros. unfold IndexByte. by apply index_byte_from_None. Qed.

Lemma IndexByte_inv s c : 0 ≤ IndexByte s c →
  ∃ s1 s2, s = s1 ++ c :: s2 ∧ c ∉ s1 ∧ IndexByte s c = zlen s1.
Proof. intros H. destruct (index_byte_from_inv 0 s c _ ltac:(lia) eq_refl H) as (s1&s2&?&?&?). naive_solver. Qed.

(** ** Floating point

    [float64(z)] of an unsigned integer: the nearest number of 53 significant
    bits, on a tie the even one. *)
Definition float64 (z : Z) : Z :=
  let ulp := 2 ^ Z.max 0 (Z.log2 z - 52) in
  let q := z / ulp in
  let r := z mod ulp in
  let up := (ulp <? 2 * r) || (ulp =? 2 * r) && Z.odd q in
  (if up then q + 1 else q) * ulp.

Example float64_ex : float64 5 = 5 ∧ float64 (2 ^ 53 + 1) = 2 ^ 53 ∧ float64 (2 ^ 53 + 3) = 2 ^ 53 + 4 ∧
  float64 (2 ^ 64 - 1) = 2 ^ 64.
Proof. vm_compute. done. Qed.

(** [v] is a number shown for [z] with an error of at most 1 in [2 ^ 53]. *)
Definition shown_as (z v : Z) : Prop := (z ≤ 2 ^ 53 → v = z) ∧ 2 ^ 53 * Z.abs (v - z) ≤ z.

Lemma float64_shown z : 0 ≤ z → shown_as z (float64 z).
Proof.
  intros Hz. unfold float64. set (e := Z.max 0 (Z.log2 z - 52)). set (ulp := 2 ^ e). cbv zeta.
  assert (0 < ulp) as Hulp by (apply Z.pow_pos_nonneg; lia).
  pose proof (Z.div_mod z ulp ltac:(lia)) as Hdm. pose proof (Z.mod_pos_bound z ulp Hulp) as Hr.
  set (q := z / ulp) in *. set (r := z mod ulp) in *.
  set (up := (ulp <? 2 * r) || (ulp =? 2 * r) && Z.odd q).
  assert (2 * Z.abs ((if up then q + 1 else q) * ulp - z) ≤ ulp) as Herr.
  { unfold up. destruct (Z.ltb_spec ulp (2 * r)); simpl; [lia|].
    destruct (Z.eqb_spec ulp (2 * r)); simpl; [destruct (Z.odd q)|]; lia. }
  assert (ulp = 1 → (if up then q + 1 else q) * ulp = z) as Hone.
  { intros H1. unfold up. rewrite H1 in *. assert (r = 0) as -> by lia. simpl. lia. }
  destruct (Z.le_gt_cases (Z.log2 z) 52) as [Hl|Hl].
  - assert (ulp = 1) as H1 by (unfold ulp, e; by rewrite Z.max_l by lia). rewrite Hone by done. unfold shown_as. lia.
  - assert (2 ^ 53 * ulp = 2 * 2 ^ Z.log2 z) as Hlog.
    { unfold ulp, e. rewrite Z.max_r, <-Z.pow_add_r, <-Z.pow_succ_r by lia. f_equal. lia. }
    pose proof (Z.log2_spec z ltac:(destruct (Z.eq_dec z 0) as [->|]; [simpl in Hl|]; lia)) as [Hlo _].
    split; [|lia]. intros Hz53. destruct (Z.eq_dec z (2 ^ 53)) as [->|Hne]; [by vm_compute|].
    assert (Z.log2 z < 53) by (apply Z.log2_lt_pow2; lia). lia.
Qed.
