(* ===== verification/OS.v ===== *)
(** * The operating system interface: package os

    A world holds the directories, the file contents by inode, and a supply of
    faults.  A handle names an inode, so it stays usable after its file was
    renamed or removed; [nil] is [None].  Every system call takes the next
    fault of the supply: with an empty supply every call succeeds, and a
    statement about every supply is one about every pattern of I/O errors and
    short writes.

    A directory is named by its path as the program writes it; the program
    obtains these from [filepath.Join], so they are clean.  A file is named by
    its directory and its base name. *)

From S2P Require Import Prelude GoNum.

(** ** State *)

Inductive dirent : Type :=
| EFile (ino : nat)
| EDir.

#[global] Instance dirent_eq_dec : EqDecision dirent.
Proof. solve_decision. Defined.

(** [FErr n e]: the call fails with [e] (a write after [n] bytes);
    [FShort n]: a write stops after [n] bytes and reports no error. *)
Inductive fault : Type :=
| FOk
| FErr (n : nat) (e : Z)
| FShort (n : nat).

Record world : Type := World {
  w_dirs : gmap bytes (gmap bytes dirent);
  w_data : gmap nat bytes;
  w_next : nat;
  w_rand : Z;
  w_faults : list fault
}.

(** An open [*os.File]. *)
Record file : Type := File { f_ino : nat }.

Definition set_dirs (d : gmap bytes (gmap bytes dirent)) (w : world) : world :=
  World d (w_data w) (w_next w) (w_rand w) (w_faults w).
Definition set_data (d : gmap nat bytes) (w : world) : world :=
  World (w_dirs w) d (w_next w) (w_rand w) (w_faults w).
Definition set_next (n : nat) (w : world) : world :=
  World (w_dirs w) (w_data w) n (w_rand w) (w_faults w).
Definition set_rand (r : Z) (w : world) : world :=
  World (w_dirs w) (w_data w) (w_next w) r (w_faults w).
Definition set_faults (l : list fault) (w : world) : world :=
  World (w_dirs w) (w_data w) (w_next w) (w_rand w) l.

Definition empty_world : world := World ∅ ∅ 0 0 [].

(** The contents of an inode. *)
Definition content (w : world) (i : nat) : bytes := default [] (w_data w !! i).

(** [data] written at the end of an inode. *)
Definition append_data (i : nat) (data : bytes) (w : world) : world :=
  set_data (<[i := content w i ++ data]> (w_data w)) w.

(** The entries of a directory. *)
Definition entries (w : world) (dir : bytes) : gmap bytes dirent := default ∅ (w_dirs w !! dir).

Definition set_entry (dir name : bytes) (e : dirent) (w : world) : world :=
  set_dirs (<[dir := <[name := e]> (entries w dir)]> (w_dirs w)) w.
Definition del_entry (dir name : bytes) (w : world) : world :=
  set_dirs (<[dir := delete name (entries w dir)]> (w_dirs w)) w.

(** ** System calls *)

Definition next_fault : GoM world fault := λ w,
  match w_faults w with
  | [] => (Ok FOk, w)
  | f :: l => (Ok f, set_faults l w)
  end.

(** A call that fails as a whole or not at all. *)
Definition sys {A} (m : GoM world A) : GoM world A :=
  f ← next_fault;
  match f with
  | FErr _ e => throw (EIO e)
  | _ => m
  end.

Definition os_MkdirAll (dir : bytes) : GoM world unit :=
  sys (modify_st (λ w,
    match w_dirs w !! dir with
    | Some _ => w
    | None => set_dirs (<[dir := ∅]> (w_dirs w)) w
    end)).

(** A new empty file under a name. *)
Definition create_file (dir name : bytes) (w : world) : world :=
  set_next (S (w_next w)) (set_entry dir name (EFile (w_next w))
    (set_data (<[w_next w := []]> (w_data w)) w)).

(** [os.OpenFile(dir/name, O_APPEND|O_CREATE|O_WRONLY, 0644)] *)
Definition os_OpenAppend (dir name : bytes) : GoM world file :=
  sys (λ w,
    match w_dirs w !! dir with
    | None => (Err ErrNotExist, w)
    | Some ents =>
        match ents !! name with
        | Some (EFile i) => (Ok (File i), w)
        | Some EDir => (Err ErrIsDir, w)
        | None => (Ok (File (w_next w)), create_file dir name w)
        end
    end).

(** [os.Open(dir/name)].  Opening a directory is reported here and not at the
    first read. *)
Definition os_Open (dir name : bytes) : GoM world file :=
  sys (λ w,
    match entries w dir !! name with
    | Some (EFile i) => (Ok (File i), w)
    | Some EDir => (Err ErrIsDir, w)
    | None => (Err ErrNotExist, w)
    end).

(** [os.Stat(dir/name)], for its error only. *)
Definition os_Stat (dir name : bytes) : GoM world unit :=
  sys (λ w,
    match entries w dir !! name with
    | Some _ => (Ok tt, w)
    | None => (Err ErrNotExist, w)
    end).

(** [os.Remove(dir/name)] of a file.  The inode stays for open handles. *)
Definition os_Remove (dir name : bytes) : GoM world unit :=
  sys (λ w,
    match entries w dir !! name with
    | Some (EFile _) => (Ok tt, del_entry dir name w)
    | Some EDir => (Err ErrIsDir, w)
    | None => (Err ErrNotExist, w)
    end).

(** [os.Rename(dir/old, dir/new)] of a file. *)
Definition os_Rename (dir old new : bytes) : GoM world unit :=
  sys (λ w,
    match entries w dir !! old with
    | Some (EFile i) =>
        match entries w dir !! new with
        | Some EDir => (Err ErrExist, w)
        | _ => (Ok tt, set_entry dir new (EFile i) (del_entry dir old w))
        end
    | Some EDir => (Err ErrIsDir, w)
    | None => (Err ErrNotExist, w)
    end).

(** [os.CreateTemp(dir, prefix*suffix)]: names built from successive random
    numbers until one is free, at most 10000 of them.  The random number
    generator is a counter. *)
Fixpoint create_temp (fuel : nat) (dir prefix suffix : bytes) : GoM world (bytes * file) := λ w,
  let name := prefix ++ FormatUint (w_rand w) ++ suffix in
  let w := set_rand (w_rand w + 1) w in
  match fuel with
  | O => (Err ErrExist, w)
  | S fuel' =>
      match w_dirs w !! dir with
      | None => (Err ErrNotExist, w)
      | Some ents =>
          match ents !! name with
          | Some _ => create_temp fuel' dir prefix suffix w
          | None => (Ok (name, File (w_next w)), create_file dir name w)
          end
      end
  end.

Definition os_CreateTemp (dir prefix suffix : bytes) : GoM world (bytes * file) :=
  sys (create_temp (Z.to_nat 10000) dir prefix suffix).

(** [os.ReadDir(dir)]: the entries sorted by name. *)
Definition name_le (a b : bytes * dirent) : Prop := bytes_leb a.1 b.1 = true.

#[global] Instance name_le_dec a b : Decision (name_le a b).
Proof. unfold name_le. apply _. Defined.

Definition os_ReadDir (dir : bytes) : GoM world (list (bytes * dirent)) :=
  sys (λ w,
    match w_dirs w !! dir with
    | None => (Err ErrNotExist, w)
    | Some ents => (Ok (merge_sort name_le (map_to_list ents)), w)
    end).

(** ** Methods of *os.File *)

(** The receiver of a method call: a method of a nil file returns
    [os.ErrInvalid]. *)
Definition check_valid (f : option file) : GoM world nat :=
  match f with
  | None => throw ErrInvalid
  | Some f => mret (f_ino f)
  end.

(** [f.Write(data)] of a file that is only ever written at its end. *)
Definition file_Write (f : option file) (data : bytes) : GoM world Z :=
  i ← check_valid f;
  flt ← next_fault;
  match flt with
  | FOk => modify_st (append_data i data);; mret (zlen data)
  | FErr n e => modify_st (append_data i (take n data));; throw (EIO e)
  | FShort n => modify_st (append_data i (take n data));; mret (zlen (take n data))
  end.

(** [f.ReadAt(buf, off)] with [len(buf) = n]; the buffer on success. *)
Definition file_ReadAt (f : option file) (n off : Z) : GoM world bytes :=
  i ← check_valid f;
  if off <? 0 then throw ErrNegativeOffset
  else if n =? 0 then mret []
  else sys (λ w,
    if off + n <=? zlen (content w i) then (Ok (zsub off (off + n) (content w i)), w)
    else (Err EOF, w)).

(** [f.Stat()], for [info.Size()]. *)
Definition file_Stat (f : option file) : GoM world Z :=
  i ← check_valid f;
  sys (λ w, (Ok (zlen (content w i)), w)).

Definition file_Sync (f : option file) : GoM world unit :=
  _ ← check_valid f;
  sys (mret tt).

Definition file_Close (f : option file) : GoM world unit :=
  _ ← check_valid f;
  sys (mret tt).

(** [make([]byte, n)] panics when [n] bytes exceed the address space; the
    buffer itself is what [ReadAt] fills. *)
Definition max_alloc : Z := 2 ^ 48.
Definition make_slice {S} (n : Z) : GoM S unit :=
  if (0 <=? n) && (n <=? max_alloc) then mret tt else panic.

(** ** What a run leaves behind

    [after w w0 w']: [w'] is [w0] with some of the faults of [w] consumed. *)

Definition reliable (w : world) : Prop := w_faults w = [].

Definition after (w w0 w' : world) : Prop :=
  ∃ k, w' = set_faults (drop k (w_faults w)) w0.

(** Nothing but faults consumed. *)
Definition ro (w w' : world) : Prop := after w w w'.

(** An error that only an unreliable device gives. *)
Definition io_error (w : world) (e : goerr) : Prop :=
  w_faults w ≠ [] ∧ ((∃ n, e = EIO n) ∨ e = ErrShortWrite).

Lemma set_faults_id w : set_faults (w_faults w) w = w.
Proof. by destruct w. Qed.

Lemma after_refl w : after w w w.
Proof. exists 0%nat. rewrite drop_0. by destruct w. Qed.

Lemma ro_refl w : ro w w.
Proof. apply after_refl. Qed.

Lemma ro_trans w1 w2 w3 : ro w1 w2 → ro w2 w3 → ro w1 w3.
Proof.
  intros [k1 ->] [k2 ->]. exists (k1 + k2)%nat. simpl.
  by rewrite drop_drop.
Qed.

#[global] Instance ro_preorder : PreOrder ro.
Proof. split; [exact ro_refl | exact ro_trans]. Qed.

Lemma after_ro w w0 w1 w2 : after w w0 w1 → ro w1 w2 → after w w0 w2.
Proof.
  intros [k1 ->] [k2 ->]. exists (k1 + k2)%nat. simpl.
  by rewrite drop_drop.
Qed.

Lemma ro_after w w' w0 w1 (f : world → world) :
  (∀ l v, f (set_faults l v) = set_faults l (f v)) →
  w0 = f w → ro w w' → after w' (f w') w1 → after w w0 w1.
Proof.
  intros Hf -> [k1 ->] [k2 ->]. exists (k1 + k2)%nat. simpl.
  rewrite Hf, drop_drop. done.
Qed.

Lemma after_reliable w w0 w' : reliable w → reliable w0 → after w w0 w' → w' = w0.
Proof.
  unfold reliable. intros Hw Hw0 [k ->]. rewrite Hw, drop_nil.
  destruct w0; simpl in *. by subst.
Qed.

Lemma ro_reliable w w' : reliable w → ro w w' → w' = w.
Proof. intros H. by apply after_reliable. Qed.

Lemma ro_reliable' w w' : reliable w → ro w w' → reliable w'.
Proof. intros H Hr. by rewrite (ro_reliable w w'). Qed.

Lemma ro_dirs w w' : ro w w' → w_dirs w' = w_dirs w.
Proof. by intros [k ->]. Qed.
Lemma ro_data w w' : ro w w' → w_data w' = w_data w.
Proof. by intros [k ->]. Qed.
Lemma ro_content w w' i : ro w w' → content w' i = content w i.
Proof. by intros [k ->]. Qed.
Lemma ro_entries w w' d : ro w w' → entries w' d = entries w d.
Proof. by intros [k ->]. Qed.

Lemma io_error_ro w w' e : ro w w' → io_error w' e → io_error w e.
Proof.
  intros [k ->] [Hf He]. split; [|done]. simpl in Hf. intros Hn. by rewrite Hn, drop_nil in Hf.
Qed.

Lemma io_error_after w w0 w' e : after w w0 w' → io_error w' e → io_error w e.
Proof.
  intros [k ->] [Hf He]. split; [|done]. simpl in Hf. intros Hn. by rewrite Hn, drop_nil in Hf.
Qed.

Lemma after_faults w w0 w' : after w w0 w' → w_faults w' ≠ [] → w_faults w ≠ [].
Proof. intros [k ->] Hf Hw. apply Hf. simpl. by rewrite Hw, drop_nil. Qed.

Lemma ro_faults w w' : ro w w' → w_faults w' ≠ [] → w_faults w ≠ [].
Proof. apply after_faults. Qed.

Lemma reliable_no_error w e : reliable w → io_error w e → False.
Proof. by intros Hw [? _]. Qed.

Lemma content_set_faults l w i : content (set_faults l w) i = content w i.
Proof. done. Qed.

Lemma content_Some w i d : w_data w !! i = Some d → content w i = d.
Proof. unfold content. by intros ->. Qed.

Lemma append_data_nil i w : is_Some (w_data w !! i) → append_data i [] w = w.
Proof.
  intros [d Hd]. unfold append_data, set_data, content. rewrite Hd. simpl.
  rewrite app_nil_r, insert_id by done. by destruct w.
Qed.

Lemma append_data_app i d1 d2 w : append_data i d2 (append_data i d1 w) = append_data i (d1 ++ d2) w.
Proof.
  unfold append_data, set_data, content. simpl.
  rewrite lookup_insert_eq, insert_insert_eq. simpl. by rewrite app_assoc.
Qed.

Lemma append_data_comm i j d1 d2 w : i ≠ j →
  append_data i d1 (append_data j d2 w) = append_data j d2 (append_data i d1 w).
Proof.
  intros Hij. unfold append_data, set_data, content. simpl.
  rewrite !lookup_insert_ne by done. by rewrite insert_insert_ne.
Qed.

Lemma append_data_faults i d l w : append_data i d (set_faults l w) = set_faults l (append_data i d w).
Proof. done. Qed.

Lemma append_data_lookup i d w c :
  w_data w !! i = Some c → w_data (append_data i d w) !! i = Some (c ++ d).
Proof. intros Hc. unfold append_data, content. simpl. by rewrite lookup_insert_eq, Hc. Qed.

Lemma append_data_lookup_ne i j d w : i ≠ j → w_data (append_data i d w) !! j = w_data w !! j.
Proof. intros. unfold append_data. simpl. by rewrite lookup_insert_ne. Qed.

(** ** Specifications of the calls *)

Lemma wp_next_fault Q E w :
  (∀ w', ro w w' → Q FOk w') →
  (∀ n e w', ro w w' → w_faults w ≠ [] → Q (FErr n e) w') →
  (∀ n w', ro w w' → w_faults w ≠ [] → Q (FShort n) w') →
  wp next_fault Q E w.
Proof.
  intros H1 H2 H3. unfold wp, next_fault. destruct (w_faults w) as [|f l] eqn:Hw.
  { apply H1, ro_refl. }
  assert (Hr : ro w (set_faults l w)) by (exists 1%nat; by rewrite Hw).
  destruct f; eauto.
Qed.

Lemma wp_sys {A} (m : GoM world A) Q E w :
  (∀ w', ro w w' → wp m Q E w') →
  (∀ e w', ro w w' → io_error w e → E e w') →
  wp (sys m) Q E w.
Proof.
  intros Hm He. unfold sys. wp_step. apply wp_next_fault; try (intros; by apply Hm).
  intros n e w' Hr Hf. apply wp_throw, He; [done|]. split; [done|]. left. by eexists.
Qed.

Lemma wp_ReadAt i n off (Q : bytes → world → Prop) (E : goerr → world → Prop) w :
  0 ≤ off → 0 ≤ n → off + n ≤ zlen (content w i) →
  (∀ w', ro w w' → Q (zsub off (off + n) (content w i)) w') →
  (∀ e w', ro w w' → io_error w e → E e w') →
  wp (file_ReadAt (Some (File i)) n off) Q E w.
Proof.
  intros Hoff Hn Hlen HQ HE. unfold file_ReadAt, check_valid. wp_steps.
  destruct (Z.ltb_spec off 0); [lia|]. destruct (Z.eqb_spec n 0) as [->|].
  { apply wp_ret. specialize (HQ w (ro_refl w)). unfold zsub in HQ.
    by replace (Z.to_nat (off + 0 - off)) with 0%nat in HQ by lia. }
  apply wp_sys; [|done]. intros w' Hr. unfold wp. cbn [f_ino].
  rewrite (ro_content w w') by done. destruct (Z.leb_spec (off + n) (zlen (content w i))); [|lia]. by apply HQ.
Qed.

Lemma wp_Stat i (Q : Z → world → Prop) (E : goerr → world → Prop) w :
  (∀ w', ro w w' → Q (zlen (content w i)) w') →
  (∀ e w', ro w w' → io_error w e → E e w') →
  wp (file_Stat (Some (File i))) Q E w.
Proof.
  intros HQ HE. unfold file_Stat, check_valid. wp_steps. apply wp_sys; [|done].
  intros w' Hr. unfold wp. simpl. rewrite (ro_content w w') by done. by apply HQ.
Qed.

Lemma wp_Sync i (Q : unit → world → Prop) (E : goerr → world → Prop) w :
  (∀ w', ro w w' → Q tt w') → (∀ e w', ro w w' → io_error w e → E e w') →
  wp (file_Sync (Some (File i))) Q E w.
Proof.
  intros HQ HE. unfold file_Sync, check_valid. wp_steps. apply wp_sys; [|done].
  intros w' Hr. by apply HQ.
Qed.

Lemma wp_Close i (Q : unit → world → Prop) (E : goerr → world → Prop) w :
  (∀ w', ro w w' → Q tt w') → (∀ e w', ro w w' → io_error w e → E e w') →
  wp (file_Close (Some (File i))) Q E w.
Proof.
  intros HQ HE. unfold file_Close, check_valid. wp_steps. apply wp_sys; [|done].
  intros w' Hr. by apply HQ.
Qed.

(** ** Reading code

    [reads m w r]: started in [w], [m] changes nothing and gives [r], or else
    it stops with an I/O error. *)

Definition reads {A} (m : GoM world A) (w : world) (r : outcome A) : Prop :=
  ∃ r' w', m w = (r', w') ∧ ro w w' ∧ (r' = r ∨ ∃ e, r' = Err e ∧ io_error w e).

Lemma reads_reliable {A} (m : GoM world A) w r : reliable w → reads m w r → m w = (r, w).
Proof.
  intros Hw (r' & w' & Hm & Hr & [->|(e & -> & He)]).
  - by rewrite Hm, (ro_reliable w w').
  - by destruct (reliable_no_error w e).
Qed.

Lemma reads_ret {A} (a : A) w : reads (mret a) w (Ok a).
Proof. exists (Ok a), w. split_and!; [done|apply ro_refl|by left]. Qed.

Lemma reads_throw {A} e w : reads (throw e : GoM world A) w (Err e).
Proof. exists (Err e), w. split_and!; [done|apply ro_refl|by left]. Qed.

Lemma reads_bind {A B} (m : GoM world A) (f : A → GoM world B) w a r :
  reads m w (Ok a) → (∀ w', ro w w' → reads (f a) w' r) → reads (m ≫= f) w r.
Proof.
  intros (r1 & w1 & Hm & Hr1 & Hcase) Hf. unfold reads, mbind, gom_bind. rewrite Hm.
  destruct Hcase as [->|(e & -> & He)]; [|naive_solver].
  destruct (Hf w1 Hr1) as (r2 & w2 & Hm2 & Hr2 & Hcase2).
  exists r2, w2. split_and!; [done|by etrans|].
  destruct Hcase2 as [->|(e & -> & He)]; [by left|]. right. eauto using io_error_ro.
Qed.

Lemma reads_bind_err {A B} (m : GoM world A) (f : A → GoM world B) w e :
  reads m w (Err e) → reads (m ≫= f) w (Err e).
Proof.
  intros (r1 & w1 & Hm & Hr1 & Hcase). unfold reads, mbind, gom_bind. rewrite Hm.
  destruct Hcase as [->|(e' & -> & He)]; naive_solver.
Qed.

Lemma reads_bind_panic {A B} (m : GoM world A) (f : A → GoM world B) w :
  reads m w Panic → reads (m ≫= f) w Panic.
Proof.
  intros (r1 & w1 & Hm & Hr1 & Hcase). unfold reads, mbind, gom_bind. rewrite Hm.
  destruct Hcase as [->|(e' & -> & He)]; naive_solver.
Qed.

Lemma reads_attempt_bind {A B} (m : GoM world A) (f : A + goerr → GoM world B) w a r :
  reads m w (Ok a) →
  (∀ w', ro w w' → reads (f (inl a)) w' r) →
  (∀ e w', ro w w' → reads (f (inr e)) w' r) →
  reads (attempt m ≫= f) w r.
Proof.
  intros (r1 & w1 & Hm & Hr1 & Hcase) Hl Hr. unfold reads, mbind, gom_bind, attempt. rewrite Hm.
  destruct Hcase as [->|(e & -> & He)].
  - destruct (Hl w1 Hr1) as (r2 & w2 & Hm2 & Hr2 & Hcase2). exists r2, w2.
    split_and!; [done|by etrans|]. destruct Hcase2 as [->|(e & -> & He)]; [by left|].
    right. eauto using io_error_ro.
  - destruct (Hr e w1 Hr1) as (r2 & w2 & Hm2 & Hr2 & Hcase2). exists r2, w2.
    split_and!; [done|by etrans|]. destruct Hcase2 as [->|(e' & -> & He')]; [by left|].
    right. eauto using io_error_ro.
Qed.

(** Code that hands the I/O error on. *)
Lemma reads_attempt_rethrow {A B} (m : GoM world A) (f : A + goerr → GoM world B) w a r :
  reads m w (Ok a) →
  (∀ w', ro w w' → reads (f (inl a)) w' r) →
  (∀ e w', io_error w e → f (inr e) w' = (Err e, w')) →
  reads (attempt m ≫= f) w r.
Proof.
  intros (r1 & w1 & Hm & Hr1 & Hcase) Hl He. unfold reads, mbind, gom_bind, attempt. rewrite Hm.
  destruct Hcase as [->|(e & -> & Hio)].
  - destruct (Hl w1 Hr1) as (r2 & w2 & Hm2 & Hr2 & Hcase2). exists r2, w2.
    split_and!; [done|by etrans|]. destruct Hcase2 as [->|(e & -> & Hio)]; [by left|].
    right. eauto using io_error_ro.
  - exists (Err e), w1. rewrite He by done. split_and!; [done|done|]. right. eauto.
Qed.

Lemma reads_wp {A} (m : GoM world A) w a :
  wp m (λ b w', ro w w' ∧ b = a) (λ e w', ro w w' ∧ io_error w e) w → reads m w (Ok a).
Proof.
  unfold wp, reads. destruct (m w) as [[b|e|] w']; [|  |done].
  - intros [? ->]. eauto 10.
  - intros [? ?]. eauto 10.
Qed.

Lemma wp_reads {A} (m : GoM world A) w a Q E :
  reads m w (Ok a) →
  (∀ w', ro w w' → Q a w') → (∀ e w', ro w w' → io_error w e → E e w') → wp m Q E w.
Proof.
  intros (r & w' & Hm & Hr & [->|(e & -> & He)]) HQ HE; unfold wp; rewrite Hm; eauto.
Qed.

Lemma wp_reads_err {A} (m : GoM world A) w e0 Q E :
  reads m w (Err e0) →
  (∀ e w', ro w w' → e = e0 ∨ io_error w e → E e w') → wp m Q E w.
Proof.
  intros (r & w' & Hm & Hr & [->|(e & -> & He)]) HE; unfold wp; rewrite Hm; eauto.
Qed.

Lemma reads_ReadAt i n off w :
  0 ≤ off → 0 ≤ n → off + n ≤ zlen (content w i) →
  reads (file_ReadAt (Some (File i)) n off) w (Ok (zsub off (off + n) (content w i))).
Proof. intros. apply reads_wp, wp_ReadAt; auto. Qed.

Lemma reads_Stat i w : reads (file_Stat (Some (File i))) w (Ok (zlen (content w i))).
Proof. intros. apply reads_wp, wp_Stat; auto. Qed.

(** [make([]byte, n)] and [go_slice] within bounds. *)
Lemma reads_make_slice n w : 0 ≤ n ≤ max_alloc → reads (make_slice n) w (Ok tt).
Proof.
  intros. unfold make_slice. destruct (Z.leb_spec 0 n); [|lia].
  destruct (Z.leb_spec n max_alloc); [|lia]. apply reads_ret.
Qed.

Lemma reads_go_slice lo hi b w : 0 ≤ lo ≤ hi → hi ≤ zlen b → reads (go_slice lo hi b) w (Ok (zsub lo hi b)).
Proof.
  intros. exists (Ok (zsub lo hi b)), w. rewrite go_slice_ok by done.
  split_and!; [done|apply ro_refl|by left].
Qed.

(** ** Calls that only clean up

    [quiet h]: [h] always returns, and changes nothing. *)

Definition quiet (h : GoM world unit) : Prop := ∀ w, ∃ w', h w = (Ok tt, w') ∧ ro w w'.

Lemma quiet_ret : quiet (mret tt).
Proof. intros w. exists w. split; [done|apply ro_refl]. Qed.

Lemma quiet_seq h1 h2 : quiet h1 → quiet h2 → quiet (h1;; h2).
Proof.
  intros H1 H2 w. destruct (H1 w) as (w1 & E1 & R1). destruct (H2 w1) as (w2 & E2 & R2).
  exists w2. split; [|by etrans]. by rewrite (run_bind _ _ _ _ _ E1).
Qed.

Lemma quiet_wp (h : GoM world unit) :
  (∀ w, wp h (λ _ w', ro w w') (λ _ _, False) w) → quiet h.
Proof. intros H w. specialize (H w). unfold wp in H. destruct (h w) as [[[]|e|] w']; eauto; done. Qed.

Lemma quiet_ignore {A} (m : GoM world A) :
  (∀ w, wp m (λ _ w', ro w w') (λ _ w', ro w w') w) → quiet (ignore m).
Proof. intros H. apply quiet_wp. intros w. apply wp_ignore. apply H. Qed.

Lemma quiet_Close f : quiet (ignore (file_Close (Some f))).
Proof.
  apply quiet_ignore. intros w. destruct f as [i]. apply wp_Close; auto.
Qed.

Lemma reads_quiet_bind {A} (h : GoM world unit) (m : GoM world A) w r :
  quiet h → (∀ w', ro w w' → reads m w' r) → reads (h;; m) w r.
Proof.
  intros Hh Hm. destruct (Hh w) as (w1 & E1 & R1).
  eapply reads_bind; [|exact Hm]. exists (Ok tt), w1. eauto.
Qed.

Lemma reads_on_error {A} (m : GoM world A) h w a :
  reads m w (Ok a) → quiet h → reads (on_error m h) w (Ok a).
Proof.
  intros (r & w1 & Hm & Hr & Hcase) Hh. unfold on_error.
  destruct Hcase as [->|(e & -> & He)].
  - exists (Ok a), w1. split_and!; [|done|by left]. unfold mbind, gom_bind, attempt. by rewrite Hm.
  - destruct (Hh w1) as (w2 & E2 & R2). exists (Err e), w2. split_and!; [|by etrans|eauto].
    unfold mbind, gom_bind, attempt. by rewrite Hm, E2.
Qed.

Lemma wp_on_error_quiet {A} (m : GoM world A) h Q E w :
  quiet h → wp m Q (λ e w1, ∀ w2, ro w1 w2 → E e w2) w → wp (on_error m h) Q E w.
Proof.
  intros Hh Hm. apply wp_on_error. eapply wp_mono; [exact Hm|done|].
  intros e w1 He. cbn beta. destruct (Hh w1) as (w2 & E2 & R2). unfold wp. rewrite E2. by apply He.
Qed.

(** Opening an existing file. *)
Lemma reads_sys {A} (m : GoM world A) w r :
  (∀ w', ro w w' → reads m w' r) → reads (sys m) w r.
Proof.
  intros Hm. unfold sys, reads.
  assert (H : wp next_fault (λ f w', ro w w' ∧ (w_faults w ≠ [] ∨ f = FOk)) (λ _ _, False) w).
  { apply wp_next_fault; eauto. }
  unfold wp in H. unfold mbind, gom_bind. destruct (next_fault w) as [[f|e|] w1]; try done.
  destruct H as [Hr Hf]. destruct f as [|n e|n].
  1, 3: destruct (Hm w1 Hr) as (r' & w2 & E2 & R2 & C2); exists r', w2;
    split_and!; [done|by etrans|]; destruct C2 as [->|(e & -> & He)]; [by left|];
    right; eauto using io_error_ro.
  exists (Err (EIO e)), w1. split_and!; [done|done|]. right. eexists. split; [done|].
  split; [naive_solver|]. left. by eexists.
Qed.

Lemma reads_pure {A} (m : GoM world A) w r : m w = (r, w) → reads m w r.
Proof. intros H. exists r, w. split_and!; [done|apply ro_refl|by left]. Qed.

Lemma reads_MkdirAll dir w : is_Some (w_dirs w !! dir) → reads (os_MkdirAll dir) w (Ok tt).
Proof.
  intros [ents He]. apply reads_sys. intros w' Hr. apply reads_pure.
  unfold modify_st. by rewrite (ro_dirs w w'), He.
Qed.

Lemma entries_Some w dir name e :
  entries w dir !! name = Some e → w_dirs w !! dir = Some (entries w dir).
Proof. unfold entries. by destruct (w_dirs w !! dir). Qed.

Lemma reads_OpenAppend dir name i w :
  entries w dir !! name = Some (EFile i) → reads (os_OpenAppend dir name) w (Ok (File i)).
Proof.
  intros He. apply reads_sys. intros w' Hr. apply reads_pure. cbn beta.
  rewrite (ro_dirs w w') by done. rewrite (entries_Some _ _ _ _ He), He. done.
Qed.

Lemma reads_Open dir name i w :
  entries w dir !! name = Some (EFile i) → reads (os_Open dir name) w (Ok (File i)).
Proof.
  intros He. apply reads_sys. intros w' Hr. apply reads_pure. cbn beta.
  by rewrite (ro_entries w w'), He.
Qed.

Lemma reads_os_Stat dir name e w :
  entries w dir !! name = Some e → reads (os_Stat dir name) w (Ok tt).
Proof.
  intros He. apply reads_sys. intros w' Hr. apply reads_pure. cbn beta.
  by rewrite (ro_entries w w'), He.
Qed.

Lemma reads_ReadDir dir ents w :
  w_dirs w !! dir = Some ents →
  reads (os_ReadDir dir) w (Ok (merge_sort name_le (map_to_list ents))).
Proof.
  intros He. apply reads_sys. intros w' Hr. apply reads_pure. cbn beta.
  by rewrite (ro_dirs w w'), He.
Qed.

(** [ro] through a chain of hypotheses. *)
Ltac ro_solve :=
  lazymatch goal with
  | |- ro ?a ?a => apply ro_refl
  | |- ro ?a ?b => match goal with H : ro ?c b |- _ => apply (ro_trans a c b); [ro_solve|exact H] end
  end.
#[export] Hint Extern 1 (ro _ _) => ro_solve : core.
