(* ===== verification/Snappy.v ===== *)
(** * The interface of github.com/golang/snappy

    The compression library is third-party code: the storage engine is written
    against this interface, and its theorems use nothing but [SnappyLaws]. *)

From S2P Require Import Prelude GoNum.

(** [snappy.Encode(nil, p)] ([None]: it panics, the input being too large for
    the format) and [snappy.Decode(nil, q)]. *)
Class Snappy : Type := {
  snappy_Encode : bytes → option bytes;
  snappy_Decode : bytes → bytes + goerr
}.

(** What the package documents: blocks of up to [snappy_max] bytes are encoded
    ([MaxEncodedLen] is not negative for them), an encoded block is at most
    [MaxEncodedLen] long, and decoding an encoded block gives the block back. *)
Definition snappy_max : Z := 2 ^ 31.

Class SnappyLaws `(Snappy) : Prop := {
  snappy_Encode_fits p : zlen p ≤ snappy_max → is_Some (snappy_Encode p);
  snappy_Encode_len p q : snappy_Encode p = Some q → zlen q ≤ 32 + zlen p + zlen p / 6;
  snappy_Decode_Encode p q : snappy_Encode p = Some q → snappy_Decode q = inl p
}.

(** ** A concrete codec

    Used to evaluate the definitions: a run of one byte becomes a tag, its
    length and the byte; everything else is stored behind another tag, so that
    encoding shrinks some inputs and grows others. *)

Definition rle_run (p : bytes) : option byte :=
  match p with
  | [] => None
  | b :: _ => if bool_decide (p = replicate (length p) b ∧ zlen p < 2 ^ 32) then Some b else None
  end.

Definition rle_Encode (p : bytes) : option bytes :=
  match rle_run p with
  | Some b => Some (Byte.x01 :: be_put 4 (zlen p) ++ [b])
  | None => Some (Byte.x00 :: p)
  end.

Definition rle_Decode (q : bytes) : bytes + goerr :=
  match q with
  | t :: q' =>
      if decide (t = Byte.x00) then inl q'
      else if decide (length q' = 5%nat) then
        inl (replicate (Z.to_nat (be_get (take 4 q'))) (default Byte.x00 (q' !! 4%nat)))
      else inr (EMsg "snappy: corrupt input" [])
  | [] => inr (EMsg "snappy: corrupt input" [])
  end.

Definition rle_snappy : Snappy := {| snappy_Encode := rle_Encode; snappy_Decode := rle_Decode |}.

Lemma rle_Decode_Encode p q : rle_Encode p = Some q → rle_Decode q = inl p.
Proof.
  unfold rle_Encode.
  destruct (rle_run p) as [b|] eqn:Hr; intros Hq%(inj Some); subst q; [|done].
  destruct p as [|c p']; [done|]. unfold rle_run in Hr.
  case_bool_decide as Hb; simplify_eq. destruct Hb as [Hp Hlen].
  unfold rle_Decode. rewrite decide_False by done.
  rewrite decide_True by (rewrite length_app, length_be_put; done).
  rewrite take_app_length' by (by rewrite length_be_put).
  rewrite be_get_put, Z.mod_small by (change (256 ^ Z.of_nat 4) with (2 ^ 32); lia).
  rewrite lookup_app_r by (rewrite length_be_put; lia). rewrite length_be_put, Nat2Z.id.
  exact (f_equal inl (eq_sym Hp)).
Qed.

Lemma rle_laws : SnappyLaws rle_snappy.
Proof.
  split; simpl.
  - intros p _. unfold rle_Encode. by destruct (rle_run p).
  - intros p q. unfold rle_Encode. pose proof (Z.div_pos (zlen p) 6).
    destruct (rle_run p); intros Hq%(inj Some); subst q;
      rewrite ?length_cons, ?length_app, ?length_be_put; simpl length; lia.
  - apply rle_Decode_Encode.
Qed.
