(* ===== verification/Segment.v ===== *)
(** * The commit log segment: internal/log/segment.go

    One [.log]/[.index] file pair.  A method that mutates its receiver is code
    on the pair of the [Segment] and the world; one that only reads it takes
    the [Segment] and is code on the world. *)

From S2P Require Import Prelude GoNum OS Snappy.

(** messageHeaderSize and indexEntrySize *)
Definition messageHeaderSize : Z := 24.
Definition indexEntrySize : Z := 16.

Record Message : Type := mkMessage {
  Offset : Z;
  Timestamp : Z;
  Key : bytes;
  Value : bytes
}.

(** Record, the input of a batch append (log.go). *)
Record LogRecord : Type := mkRecord {
  r_Timestamp : Z;
  r_Key : bytes;
  r_Value : bytes
}.

(** A nil [*os.File] is [None]. *)
Record Segment : Type := mkSegment {
  s_dir : bytes;
  s_baseOffset : Z;
  s_nextOffset : Z;
  s_size : Z;
  s_indexEntries : Z;
  s_compressed : bool;
  s_logFile : option file;
  s_logRead : option file;
  s_indexWrite : option file;
  s_indexRead : option file
}.

#[global] Instance file_eq_dec : EqDecision file.
Proof. solve_decision. Defined.
#[global] Instance Message_eq_dec : EqDecision Message.
Proof. solve_decision. Defined.
#[global] Instance Segment_eq_dec : EqDecision Segment.
Proof. solve_decision. Defined.

Definition set_nextOffset (n : Z) (s : Segment) : Segment :=
  mkSegment (s_dir s) (s_baseOffset s) n (s_size s) (s_indexEntries s) (s_compressed s)
    (s_logFile s) (s_logRead s) (s_indexWrite s) (s_indexRead s).

(** [segment.SetCompressed(compressed)] *)
Definition Segment_SetCompressed (c : bool) (s : Segment) : Segment :=
  mkSegment (s_dir s) (s_baseOffset s) (s_nextOffset s) (s_size s) (s_indexEntries s) c
    (s_logFile s) (s_logRead s) (s_indexWrite s) (s_indexRead s).

(** The counters after [n] records of [bytes] log bytes in all. *)
Definition advance (next written n : Z) (s : Segment) : Segment :=
  mkSegment (s_dir s) (s_baseOffset s) next (i64 (s_size s + written))
    (i64 (s_indexEntries s + n)) (s_compressed s)
    (s_logFile s) (s_logRead s) (s_indexWrite s) (s_indexRead s).

Definition set_handles (lf lr iw ir : option file) (s : Segment) : Segment :=
  mkSegment (s_dir s) (s_baseOffset s) (s_nextOffset s) (s_size s) (s_indexEntries s)
    (s_compressed s) lf lr iw ir.

(** A method of a local segment variable, called from code on the world. *)
Definition on_local {S T A} (s : S) (m : GoM (S * T) A) : GoM T A := λ w,
  let '(r, (_, w')) := m (s, w) in (r, w').

(** The error of a call, kept in a list of errors. *)
Definition err_of {S A} (m : GoM S A) : GoM S (option goerr) :=
  r ← attempt m;
  mret (match r with inl _ => None | inr e => Some e end).

(** The first error that is not nil. *)
Fixpoint first_error (errs : list (option goerr)) : option goerr :=
  match errs with
  | [] => None
  | Some e :: _ => Some e
  | None :: errs' => first_error errs'
  end.

Definition logName (base : Z) : bytes := FormatUint base ++ str ".log".
Definition indexName (base : Z) : bytes := FormatUint base ++ str ".index".

(** ** writeAll *)

(** [for len(data) > 0]: each iteration that goes on writes at least a byte, so
    [len(data)] iterations are enough. *)
Fixpoint write_loop (fuel : nat) (f : option file) (data : bytes) : GoM world unit :=
  match data with
  | [] => mret tt
  | _ :: _ =>
      match fuel with
      | O => panic
      | S fuel' =>
          n ← file_Write f data;
          if n =? 0 then throw ErrShortWrite
          else write_loop fuel' f (drop (Z.to_nat n) data)
      end
  end.

Definition writeAll (f : option file) (data : bytes) : GoM world unit :=
  write_loop (length data) f data.

(** ** Reading the index *)

Definition readIndexEntry (s : Segment) (position : Z) : GoM world (Z * Z) :=
  entry ← file_ReadAt (s_indexRead s) indexEntrySize position;
  mret (be_get (zsub 0 8 entry), be_get (zsub 8 16 entry)).

Definition readIndexPosition (s : Segment) (position : Z) : GoM world Z :=
  '(_, logPosition) ← readIndexEntry s position;
  mret logPosition.

Definition readIndexOffset (s : Segment) (position : Z) : GoM world Z :=
  '(offset, _) ← readIndexEntry s position;
  mret offset.

(** ** Close and Delete *)

(** One [if s.f != nil { errs = append(errs, ...); s.f = nil }] of [Close]. *)
Definition close_file (sync : bool) (f : option file) : GoM world (list (option goerr)) :=
  match f with
  | None => mret []
  | Some h =>
      e1 ← (if sync then (e ← err_of (file_Sync (Some h)); mret [e]) else mret []);
      e2 ← err_of (file_Close (Some h));
      mret (e1 ++ [e2])
  end.

Definition Segment_Close : GoM (Segment * world) unit :=
  '(s, _) ← get_st;
  errs1 ← lift_snd (close_file true (s_logFile s));
  errs2 ← lift_snd (close_file true (s_indexWrite s));
  errs3 ← lift_snd (close_file false (s_logRead s));
  errs4 ← lift_snd (close_file false (s_indexRead s));
  modify_st (λ '(s, w), (set_handles None None None None s, w));;
  match first_error (errs1 ++ errs2 ++ errs3 ++ errs4) with
  | Some e => throw e
  | None => mret tt
  end.

(** [if err := os.Remove(path); err != nil && !os.IsNotExist(err) { return err }] *)
Definition remove_if_exists (dir name : bytes) : GoM world unit :=
  r ← attempt (os_Remove dir name);
  match r with
  | inl _ => mret tt
  | inr e => if decide (e = ErrNotExist) then mret tt else throw e
  end.

Definition Segment_Delete : GoM (Segment * world) unit :=
  Segment_Close;;
  '(s, _) ← get_st;
  lift_snd (remove_if_exists (s_dir s) (logName (s_baseOffset s)));;
  lift_snd (remove_if_exists (s_dir s) (indexName (s_baseOffset s))).

Section segment.
Context `{SN : Snappy}.

(** ** Append *)

(** [snappy.Encode(nil, payload)] when the segment is compressed. *)
Definition compress {S} (compressed : bool) (payload : bytes) : GoM S bytes :=
  if compressed then
    match snappy_Encode payload with
    | Some q => mret q
    | None => panic
    end
  else mret payload.

(** The header array of [Append]. *)
Definition header_bytes (offset timestamp keyLen valLen : Z) : bytes :=
  PutUint64 offset ++ PutUint64 (u64 timestamp) ++ PutUint32 (u32 keyLen) ++ PutUint32 (u32 valLen).

Definition index_bytes (offset position : Z) : bytes :=
  PutUint64 offset ++ PutUint64 position.

Definition Segment_Append (timestamp : Z) (key value : bytes) : GoM (Segment * world) (Z * Z) :=
  if max_u32 <? zlen key then throw (EMsg "key is too large" [])
  else if max_u32 <? zlen value then throw (EMsg "value is too large" [])
  else
    '(s, _) ← get_st;
    payload ← compress (s_compressed s) (key ++ value);
    let bytesSaved := if s_compressed s then i64 (zlen (key ++ value) - zlen payload) else 0 in
    let offset := s_nextOffset s in
    let position := u64 (s_size s) in
    lift_snd (writeAll (s_logFile s) (header_bytes offset timestamp (zlen key) (zlen value)));;
    lift_snd (writeAll (s_logFile s) payload);;
    lift_snd (writeAll (s_indexWrite s) (index_bytes offset position));;
    modify_st (λ '(s, w),
      (advance (u64 (s_nextOffset s + 1)) (messageHeaderSize + zlen payload) 1 s, w));;
    mret (offset, if bytesSaved <? 0 then 0 else bytesSaved).

(** ** AppendBatch *)

Record preparedPayload : Type := mkPrepared {
  p_payload : bytes;
  p_keyLen : Z;
  p_valLen : Z;
  p_timestamp : Z;
  p_bytesSaved : Z
}.

(** The first loop: the prepared payloads, [totalSaved] and [totalLogBytes]. *)
Fixpoint prepare_batch {S} (compressed : bool) (records : list LogRecord)
    (totalSaved totalLogBytes : Z) : GoM S (list preparedPayload * Z * Z) :=
  match records with
  | [] => mret ([], totalSaved, totalLogBytes)
  | r :: records' =>
      if max_u32 <? zlen (r_Key r) then throw (EMsg "key is too large" [])
      else if max_u32 <? zlen (r_Value r) then throw (EMsg "value is too large" [])
      else
        p ← compress compressed (r_Key r ++ r_Value r);
        let orig := zlen (r_Key r ++ r_Value r) in
        let saved := if compressed
                     then (if i64 (orig - zlen p) <? 0 then 0 else i64 (orig - zlen p))
                     else 0 in
        '(ps, ts, tl) ← prepare_batch compressed records'
          (i64 (totalSaved + saved)) (totalLogBytes + (messageHeaderSize + zlen p));
        mret (mkPrepared p (zlen (r_Key r)) (zlen (r_Value r)) (r_Timestamp r) saved :: ps, ts, tl)
  end.

(** The second loop: fills the two buffers, and returns them with the offsets
    assigned and the final [currOffset]. *)
Fixpoint fill_batch {S} (prepared : list preparedPayload) (logBuf indexBuf : bytes)
    (logOffset indexOffset currentPos currOffset : Z) : GoM S (bytes * bytes * list Z * Z) :=
  match prepared with
  | [] => mret (logBuf, indexBuf, [], currOffset)
  | p :: ps =>
      logBuf ← put_at logOffset (PutUint64 currOffset) logBuf;
      logBuf ← put_at (logOffset + 8) (PutUint64 (u64 (p_timestamp p))) logBuf;
      logBuf ← put_at (logOffset + 16) (PutUint32 (u32 (p_keyLen p))) logBuf;
      logBuf ← put_at (logOffset + 20) (PutUint32 (u32 (p_valLen p))) logBuf;
      let logOffset := logOffset + messageHeaderSize in
      logBuf ← put_at logOffset (p_payload p) logBuf;
      let logOffset := logOffset + zlen (p_payload p) in
      indexBuf ← put_at indexOffset (PutUint64 currOffset) indexBuf;
      indexBuf ← put_at (indexOffset + 8) (PutUint64 currentPos) indexBuf;
      let indexOffset := indexOffset + indexEntrySize in
      '(lb, ib, offsets, next) ← fill_batch ps logBuf indexBuf logOffset indexOffset
        (u64 (currentPos + u64 (messageHeaderSize + zlen (p_payload p)))) (u64 (currOffset + 1));
      mret (lb, ib, currOffset :: offsets, next)
  end.

Definition Segment_AppendBatch (records : list LogRecord) : GoM (Segment * world) (list Z * Z) :=
  match records with
  | [] => mret ([], 0)
  | _ :: _ =>
      '(s, _) ← get_st;
      '(prepared, totalSaved, totalLogBytes) ← prepare_batch (s_compressed s) records 0 0;
      let totalIndexBytes := zlen records * indexEntrySize in
      '(logBuf, indexBuf, offsets, currOffset) ←
        fill_batch prepared (replicate (Z.to_nat totalLogBytes) Byte.x00)
          (replicate (Z.to_nat totalIndexBytes) Byte.x00) 0 0 (u64 (s_size s)) (s_nextOffset s);
      lift_snd (writeAll (s_logFile s) logBuf);;
      lift_snd (writeAll (s_indexWrite s) indexBuf);;
      modify_st (λ '(s, w), (advance currOffset totalLogBytes (zlen records) s, w));;
      mret (offsets, totalSaved)
  end.

(** ** Read *)

(** The end of the record of index entry [i]: the position of the next entry,
    or the end of the segment. *)
Definition nextPosition (s : Segment) (i entries : Z) : GoM world Z :=
  if i + 1 <? entries then readIndexPosition s ((i + 1) * indexEntrySize)
  else mret (u64 (s_size s)).

(** The binary search of [findMessageBounds], [for low <= high]; the interval
    shrinks at each iteration. *)
Fixpoint search_offset (fuel : nat) (s : Segment) (entries offset low high : Z) : GoM world (Z * Z) :=
  if low <=? high then
    match fuel with
    | O => panic
    | S fuel' =>
        let mid := low + (high - low) / 2 in
        '(entryOffset, position) ← readIndexEntry s (mid * indexEntrySize);
        if entryOffset =? offset then
          nextPos ← nextPosition s mid entries;
          mret (position, nextPos)
        else if entryOffset <? offset then search_offset fuel' s entries offset (mid + 1) high
        else search_offset fuel' s entries offset low (mid - 1)
    end
  else throw (EMsg "offset %d not found in segment index" [AInt offset]).

Definition findMessageBounds (s : Segment) (offset : Z) : GoM world (Z * Z) :=
  let entries := s_indexEntries s in
  if entries =? 0 then throw (EMsg "segment index is empty" [])
  else
    let binary := search_offset (Z.to_nat entries) s entries offset 0 (entries - 1) in
    let directIdx := i64 (u64 (offset - s_baseOffset s)) in
    if (0 <=? directIdx) && (directIdx <? entries) then
      r ← attempt (readIndexEntry s (directIdx * indexEntrySize));
      match r with
      | inl (entryOffset, position) =>
          if entryOffset =? offset then
            nextPos ← nextPosition s directIdx entries;
            mret (position, nextPos)
          else binary
      | inr _ => binary
      end
    else binary.

Definition findPosition (s : Segment) (offset : Z) : GoM world Z :=
  '(pos, _) ← findMessageBounds s offset;
  mret pos.

(** [findEndPosition]: the same search by position. *)
Fixpoint search_position (fuel : nat) (s : Segment) (entries position low high : Z) : GoM world Z :=
  if low <=? high then
    match fuel with
    | O => panic
    | S fuel' =>
        let mid := low + (high - low) / 2 in
        '(_, entryPosition) ← readIndexEntry s (mid * indexEntrySize);
        if entryPosition =? position then nextPosition s mid entries
        else if entryPosition <? position then search_position fuel' s entries position (mid + 1) high
        else search_position fuel' s entries position low (mid - 1)
    end
  else throw (EMsg "log position %d not found in segment index" [AInt position]).

Definition findEndPosition (s : Segment) (position : Z) : GoM world Z :=
  let entries := s_indexEntries s in
  search_position (Z.to_nat entries) s entries position 0 (entries - 1).

(** The end of [Read]: the decoded payload, checked against the header and cut
    into key and value. *)
Definition message_of {S} (compressed : bool) (offset messageOffset timestamp keySize valueSize : Z)
    (payload : bytes) : GoM S Message :=
  let expectedSize := keySize + valueSize in
  payload ← (if compressed then
               match snappy_Decode payload with
               | inl decoded => mret decoded
               | inr err => throw (EWrap "decode compressed payload at offset %d: %w" [AInt offset] err)
               end
             else mret payload);
  if negb (zlen payload =? expectedSize)
  then throw (EMsg "payload size %d does not match key/value sizes %d"
                   [AInt (zlen payload); AInt expectedSize])
  else
    key ← go_slice 0 keySize payload;
    value ← go_slice keySize (zlen payload) payload;
    mret (mkMessage messageOffset timestamp key value).

Definition Segment_Read (s : Segment) (offset : Z) : GoM world Message :=
  if (offset <? s_baseOffset s) || (s_nextOffset s <=? offset)
  then throw (EMsg "offset %d is outside segment" [AInt offset])
  else
    '(position, nextPos) ← findMessageBounds s offset;
    header ← file_ReadAt (s_logRead s) messageHeaderSize (i64 position);
    let messageOffset := be_get (zsub 0 8 header) in
    if negb (messageOffset =? offset)
    then throw (EMsg "index offset %d points to message offset %d" [AInt offset; AInt messageOffset])
    else
      let timestamp := i64 (be_get (zsub 8 16 header)) in
      let keySize := be_get (zsub 16 20 header) in
      let valueSize := be_get (zsub 20 24 header) in
      let payloadSize := u64 (nextPos - position - messageHeaderSize) in
      make_slice payloadSize;;
      payload ← file_ReadAt (s_logRead s) payloadSize (i64 (i64 position + messageHeaderSize));
      message_of (s_compressed s) offset messageOffset timestamp keySize valueSize payload.

Definition NewestTimestamp (s : Segment) : GoM world Z :=
  if s_nextOffset s <=? s_baseOffset s then throw (EMsg "segment is empty" [])
  else
    let entries := s_indexEntries s in
    if entries =? 0 then throw (EMsg "segment index is empty" [])
    else
      position ← readIndexPosition s ((entries - 1) * indexEntrySize);
      header ← file_ReadAt (s_logRead s) messageHeaderSize (i64 position);
      mret (i64 (be_get (zsub 8 16 header))).

End segment.

(** ** Opening a segment *)

(** [_ = f.Close()] *)
Definition drop_file (f : file) : GoM world unit := ignore (file_Close (Some f)).

(** The second half of [NewSegment], once the four files are open. *)
Definition init_segment (dir : bytes) (baseOffset : Z) (logFile logRead indexWrite indexRead : file) :
    GoM world Segment :=
  let close4 := drop_file indexRead;; drop_file indexWrite;; drop_file logRead;; drop_file logFile in
  logSize ← on_error (file_Stat (Some logFile)) close4;
  indexSize ← on_error (file_Stat (Some indexRead)) close4;
  if negb (Z.rem indexSize indexEntrySize =? 0)
  then close4;; throw (EMsg "invalid index file size %d" [AInt indexSize])
  else
    let numEntries := Z.quot indexSize indexEntrySize in
    let segment := mkSegment dir baseOffset baseOffset logSize numEntries false
                     (Some logFile) (Some logRead) (Some indexWrite) (Some indexRead) in
    let close := ignore (on_local segment Segment_Close) in
    segment ← (if 0 <? numEntries then
                 lastOffset ← on_error (readIndexOffset segment ((numEntries - 1) * indexEntrySize)) close;
                 mret (set_nextOffset (u64 (lastOffset + 1)) segment)
               else mret segment);
    if (logSize =? 0) && negb (indexSize =? 0)
    then close;; throw (EMsg "index contains entries but log file is empty" [])
    else if negb (logSize =? 0) && (indexSize =? 0)
    then close;; throw (EMsg "log file contains data but index is empty" [])
    else mret segment.

Definition NewSegment (dir : bytes) (baseOffset : Z) : GoM world Segment :=
  os_MkdirAll dir;;
  let logPath := logName baseOffset in
  let indexPath := indexName baseOffset in
  logFile ← os_OpenAppend dir logPath;
  logRead ← on_error (os_Open dir logPath) (drop_file logFile);
  indexWrite ← on_error (os_OpenAppend dir indexPath) (drop_file logRead;; drop_file logFile);
  indexRead ← on_error (os_Open dir indexPath)
                (drop_file indexWrite;; drop_file logRead;; drop_file logFile);
  init_segment dir baseOffset logFile logRead indexWrite indexRead.

(** [segmentBaseOffset(name)]: the base offset of a [.log] file name. *)
Definition segmentBaseOffset (name : bytes) : option Z :=
  if HasSuffix name (str ".log") then ParseUint (TrimSuffix name (str ".log")) else None.
