(* ===== verification/SegmentRep.v ===== *)
(** * The representation of a segment on disk

    [seg_rep w s li ii es jl ji]: the open segment [s] holds the entries [es];
    its [.log] inode [li] is their encoding followed by junk [jl], its [.index]
    inode [ii] the encoding of their index followed by junk [ji].  The junk is
    what failed writes left behind: it is empty until a write fails.  Offsets
    are increasing and need not be contiguous, so that the representation
    covers compacted segments too. *)

From S2P Require Import Prelude GoNum OS Snappy Segment.

(** A message and its payload as stored. *)
Record entry : Type := mkEntry { e_msg : Message; e_payload : bytes }.

Definition e_off (e : entry) : Z := Offset (e_msg e).

(** The bytes of an entry in the [.log] file. *)
Definition enc (e : entry) : bytes :=
  let m := e_msg e in
  header_bytes (Offset m) (Timestamp m) (zlen (Key m)) (zlen (Value m)) ++ e_payload e.

Definition enc_log (es : list entry) : bytes := concat (enc <$> es).

(** The [.index] file of [es] when the first entry is at byte [pos]. *)
Fixpoint enc_index (pos : Z) (es : list entry) : bytes :=
  match es with
  | [] => []
  | e :: es' => index_bytes (e_off e) pos ++ enc_index (pos + zlen (enc e)) es'
  end.

(** The byte position of entry [i]. *)
Definition pos_of (es : list entry) (i : nat) : Z := zlen (enc_log (take i es)).

Definition entry_ok (e : entry) : Prop :=
  is_u64 (e_off e) ∧ is_i64 (Timestamp (e_msg e)) ∧
  zlen (Key (e_msg e)) ≤ max_u32 ∧ zlen (Value (e_msg e)) ≤ max_u32 ∧
  zlen (e_payload e) ≤ max_alloc.

Record seg_rep (w : world) (s : Segment) (li ii : nat) (es : list entry) (jl ji : bytes) : Prop := {
  sr_logFile : s_logFile s = Some (File li);
  sr_logRead : s_logRead s = Some (File li);
  sr_indexWrite : s_indexWrite s = Some (File ii);
  sr_indexRead : s_indexRead s = Some (File ii);
  sr_ne : li ≠ ii;
  sr_log : w_data w !! li = Some (enc_log es ++ jl);
  sr_index : w_data w !! ii = Some (enc_index 0 es ++ ji);
  sr_size : s_size s = zlen (enc_log es);
  sr_size_ok : s_size s < 2 ^ 63;
  sr_entries : s_indexEntries s = zlen es;
  sr_ok : Forall entry_ok es;
  sr_sorted : StronglySorted (λ a b, e_off a < e_off b) es;
  sr_range : Forall (λ e, s_baseOffset s ≤ e_off e < s_nextOffset s) es;
  sr_base : 0 ≤ s_baseOffset s ≤ s_nextOffset s;
  sr_next : s_nextOffset s < 2 ^ 64
}.


(** ** Lengths *)

Lemma length_header_bytes o t k v : length (header_bytes o t k v) = 24%nat.
Proof. unfold header_bytes, PutUint64, PutUint32. by rewrite !length_app, !length_be_put. Qed.

Lemma length_index_bytes o p : length (index_bytes o p) = 16%nat.
Proof. unfold index_bytes, PutUint64. by rewrite !length_app, !length_be_put. Qed.

(** ** Fields *)

Lemma index_fields o p : is_u64 o → is_u64 p →
  be_get (zsub 0 8 (index_bytes o p)) = o ∧ be_get (zsub 8 16 (index_bytes o p)) = p.
Proof.
  intros Ho Hp. unfold index_bytes. split.
  - pose proof (zsub_app_exact [] (PutUint64 o) (PutUint64 p) 0 8) as H.
    simpl in H. rewrite H by (unfold PutUint64; rewrite ?length_be_put; lia).
    by apply be_get_put_u64.
  - pose proof (zsub_app_exact (PutUint64 o) (PutUint64 p) [] 8 16) as H.
    rewrite app_nil_r in H. rewrite H by (unfold PutUint64; rewrite ?length_be_put; lia).
    by apply be_get_put_u64.
Qed.

Lemma header_fields o t k v : is_u64 o → is_i64 t → is_u32 k → is_u32 v →
  let h := header_bytes o t k v in
  be_get (zsub 0 8 h) = o ∧ i64 (be_get (zsub 8 16 h)) = t ∧
  be_get (zsub 16 20 h) = k ∧ be_get (zsub 20 24 h) = v.
Proof.
  intros Ho Ht Hk Hv. cbv zeta. unfold header_bytes. rewrite (u32_id k), (u32_id v) by done.
  assert (L8 : ∀ z, zlen (PutUint64 z) = 8) by (intros; unfold PutUint64; by rewrite length_be_put).
  assert (L4 : ∀ z, zlen (PutUint32 z) = 4) by (intros; unfold PutUint32; by rewrite length_be_put).
  set (a := PutUint64 o). set (b := PutUint64 (u64 t)). set (c := PutUint32 k). set (d := PutUint32 v).
  pose proof (L8 o). pose proof (L8 (u64 t)). pose proof (L4 k). pose proof (L4 v).
  pose proof (zsub_app_exact [] a (b ++ c ++ d) 0 8) as Ha.
  pose proof (zsub_app_exact a b (c ++ d) 8 16) as Hb.
  pose proof (zsub_app_exact (a ++ b) c d 16 20) as Hc.
  pose proof (zsub_app_exact (a ++ b ++ c) d [] 20 24) as Hd.
  rewrite !length_app, <-!app_assoc in Hc. rewrite !length_app, app_nil_r, <-!app_assoc in Hd.
  simpl in Ha. rewrite Ha, Hb, Hc, Hd by (unfold a, b, c, d; lia).
  unfold a, b, c, d. rewrite !be_get_put_u64, !be_get_put_u32 by auto using u64_range.
  by rewrite i64_u64.
Qed.

Lemma header_bytes_eq o t k v :
  header_bytes o t k v = PutUint64 o ++ PutUint64 (u64 t) ++ PutUint32 (u32 k) ++ PutUint32 (u32 v).
Proof. done. Qed.

Lemma index_bytes_eq o p : index_bytes o p = PutUint64 o ++ PutUint64 p.
Proof. done. Qed.

#[global] Opaque header_bytes index_bytes.

Lemma zlen_enc e : zlen (enc e) = 24 + zlen (e_payload e).
Proof. unfold enc. rewrite length_app, length_header_bytes. lia. Qed.

Lemma enc_log_nil : enc_log [] = [].
Proof. done. Qed.

Definition entry_header (e : entry) : bytes :=
  let m := e_msg e in
  header_bytes (Offset m) (Timestamp m) (zlen (Key m)) (zlen (Value m)).

Lemma enc_split e : enc e = entry_header e ++ e_payload e.
Proof. done. Qed.

Lemma zlen_entry_header e : zlen (entry_header e) = 24.
Proof. unfold entry_header. by rewrite length_header_bytes. Qed.

Lemma entry_header_fields e : entry_ok e →
  let h := entry_header e in
  be_get (zsub 0 8 h) = e_off e ∧ i64 (be_get (zsub 8 16 h)) = Timestamp (e_msg e) ∧
  be_get (zsub 16 20 h) = zlen (Key (e_msg e)) ∧ be_get (zsub 20 24 h) = zlen (Value (e_msg e)).
Proof.
  intros (Ho & Ht & Hk & Hv & _). unfold max_u32 in *.
  apply header_fields; [done|done|unfold is_u32; lia..].
Qed.

#[global] Opaque enc.

Lemma enc_log_cons e es : enc_log (e :: es) = enc e ++ enc_log es.
Proof. done. Qed.

Lemma enc_log_app es1 es2 : enc_log (es1 ++ es2) = enc_log es1 ++ enc_log es2.
Proof. unfold enc_log. by rewrite fmap_app, concat_app. Qed.

Lemma enc_log_one e : enc_log [e] = enc e.
Proof. rewrite enc_log_cons, enc_log_nil. apply app_nil_r. Qed.

Lemma zlen_enc_log_cons e es : zlen (enc_log (e :: es)) = 24 + zlen (e_payload e) + zlen (enc_log es).
Proof. rewrite enc_log_cons, length_app, Nat2Z.inj_add, zlen_enc. lia. Qed.

#[global] Opaque enc_log.

Lemma zlen_enc_log_app es1 es2 :
  zlen (enc_log (es1 ++ es2)) = zlen (enc_log es1) + zlen (enc_log es2).
Proof. rewrite enc_log_app, length_app. lia. Qed.

Lemma enc_index_app pos es1 es2 :
  enc_index pos (es1 ++ es2) = enc_index pos es1 ++ enc_index (pos + zlen (enc_log es1)) es2.
Proof.
  revert pos. induction es1 as [|e es1 IH]; intros pos.
  { rewrite enc_log_nil. simpl. by rewrite Z.add_0_r. }
  simpl. rewrite IH, <-app_assoc. do 3 f_equal. rewrite enc_log_cons, length_app. lia.
Qed.

Lemma zlen_enc_index pos es : zlen (enc_index pos es) = 16 * zlen es.
Proof.
  revert pos. induction es as [|e es IH]; intros pos; [done|].
  simpl. rewrite length_app, length_index_bytes, Nat2Z.inj_add, IH. lia.
Qed.

Lemma zlen_enc_log_lower es : 24 * zlen es ≤ zlen (enc_log es).
Proof.
  induction es as [|e es IH]; [done|]. rewrite enc_log_cons, length_app, Nat2Z.inj_add, zlen_enc.
  simpl length. lia.
Qed.

Lemma enc_log_nil_inv es : zlen (enc_log es) = 0 → es = [].
Proof. intros H. pose proof (zlen_enc_log_lower es). destruct es; [done|]. simpl length in *. lia. Qed.

Lemma pos_of_0 es : pos_of es 0 = 0.
Proof. done. Qed.

Lemma pos_of_length es : pos_of es (length es) = zlen (enc_log es).
Proof. unfold pos_of. by rewrite firstn_all. Qed.

Lemma pos_of_S es i e : es !! i = Some e → pos_of es (S i) = pos_of es i + zlen (enc e).
Proof.
  intros He. unfold pos_of. rewrite (take_S_r _ _ _ He), zlen_enc_log_app, enc_log_one. done.
Qed.

Lemma pos_of_le es i : 0 ≤ pos_of es i ≤ zlen (enc_log es).
Proof.
  unfold pos_of. rewrite <-(take_drop i es) at 3. rewrite zlen_enc_log_app. lia.
Qed.

Lemma pos_of_lt_mono es i j e :
  es !! i = Some e → (i < j)%nat → pos_of es i + 24 ≤ pos_of es j.
Proof.
  intros He Hij. transitivity (pos_of es (S i)).
  - rewrite (pos_of_S _ _ _ He), zlen_enc. lia.
  - unfold pos_of. replace j with (S i + (j - S i))%nat by lia.
    rewrite <-take_take_drop, zlen_enc_log_app. lia.
Qed.

(** ** Entries by their number *)

Lemma entry_split (es : list entry) i e :
  es !! i = Some e → es = take i es ++ e :: drop (S i) es ∧ length (take i es) = i.
Proof.
  intros He. split; [by rewrite take_drop_middle|].
  rewrite length_take. apply lookup_lt_Some in He. lia.
Qed.

Lemma log_at es jl i e : es !! i = Some e →
  ∃ l r, enc_log es ++ jl = l ++ enc e ++ r ∧ zlen l = pos_of es i.
Proof.
  intros He. destruct (entry_split es i e He) as [Hs Hl].
  exists (enc_log (take i es)), (enc_log (drop (S i) es) ++ jl). split; [|done].
  rewrite Hs at 1. by rewrite enc_log_app, enc_log_cons, <-!app_assoc.
Qed.

Lemma header_at es jl i e : es !! i = Some e →
  zsub (pos_of es i) (pos_of es i + 24) (enc_log es ++ jl) = entry_header e.
Proof.
  intros He. destruct (log_at es jl i e He) as (l & r & -> & Hl).
  rewrite enc_split, <-!app_assoc. apply zsub_app_exact; [done|]. rewrite zlen_entry_header. lia.
Qed.

Lemma payload_at es jl i e : es !! i = Some e →
  zsub (pos_of es i + 24) (pos_of es i + 24 + zlen (e_payload e)) (enc_log es ++ jl) = e_payload e.
Proof.
  intros He. destruct (log_at es jl i e He) as (l & r & -> & Hl).
  rewrite enc_split, <-!app_assoc, app_assoc. apply zsub_app_exact; [|lia].
  rewrite length_app, Nat2Z.inj_add, zlen_entry_header. lia.
Qed.

Lemma index_at es ji i e : es !! i = Some e →
  zsub (16 * Z.of_nat i) (16 * Z.of_nat i + 16) (enc_index 0 es ++ ji) =
  index_bytes (e_off e) (pos_of es i).
Proof.
  intros He. destruct (entry_split es i e He) as [Hs Hl].
  rewrite Hs at 1. rewrite enc_index_app. simpl. rewrite <-!app_assoc.
  apply zsub_app_exact.
  - by rewrite zlen_enc_index, Hl.
  - rewrite length_index_bytes. lia.
Qed.

Lemma sorted_lookup es i j a b :
  StronglySorted (λ a b, e_off a < e_off b) es →
  es !! i = Some a → es !! j = Some b → (i < j)%nat → e_off a < e_off b.
Proof.
  intros Hs. revert i j. induction Hs as [|e es Hs IH Hall]; intros i j Hi Hj Hij; [done|].
  destruct j as [|j]; [lia|]. simpl in Hj. destruct i as [|i]; simpl in Hi.
  - simplify_eq. rewrite Forall_forall in Hall. apply Hall. by eapply list_elem_of_lookup_2.
  - eapply IH; eauto. lia.
Qed.

Lemma sorted_offset_inj es i j a b :
  StronglySorted (λ a b, e_off a < e_off b) es →
  es !! i = Some a → es !! j = Some b → e_off a = e_off b → i = j.
Proof.
  intros Hs Hi Hj He. destruct (lt_eq_lt_dec i j) as [[H|H]|H]; [|done|].
  - pose proof (sorted_lookup _ _ _ _ _ Hs Hi Hj H). lia.
  - pose proof (sorted_lookup _ _ _ _ _ Hs Hj Hi H). lia.
Qed.

(** The entry with a given offset. *)
Definition find_entry (es : list entry) (o : Z) : option entry :=
  list_find (λ e, e_off e = o) es ≫= λ '(_, e), Some e.

Lemma find_entry_Some es o e :
  StronglySorted (λ a b, e_off a < e_off b) es →
  find_entry es o = Some e ↔ e_off e = o ∧ ∃ i, es !! i = Some e.
Proof.
  intros Hs. unfold find_entry. split.
  - intros H. destruct (list_find _ es) as [[i e']|] eqn:Hf; simplify_eq/=.
    apply list_find_Some in Hf as (Hi & Ho & _). eauto.
  - intros [Ho [i Hi]]. destruct (list_find (λ e, e_off e = o) es) as [[j e']|] eqn:Hf.
    + apply list_find_Some in Hf as (Hj & Ho' & _). simpl.
      assert (i = j) as -> by (eapply sorted_offset_inj; eauto; congruence). congruence.
    + apply list_find_None in Hf. rewrite Forall_forall in Hf.
      exfalso. apply (Hf e); [|done]. by eapply list_elem_of_lookup_2.
Qed.

Lemma find_entry_None es o : find_entry es o = None ↔ ∀ e, e ∈ es → e_off e ≠ o.
Proof.
  unfold find_entry. split.
  - intros H. destruct (list_find _ es) as [[i e']|] eqn:Hf; [done|].
    apply list_find_None in Hf. by rewrite Forall_forall in Hf.
  - intros H. destruct (list_find (λ e, e_off e = o) es) as [[j e']|] eqn:Hf; [|done].
    apply list_find_Some in Hf as (Hj & Ho' & _). exfalso. apply (H e'); [|done].
    by eapply list_elem_of_lookup_2.
Qed.
