(* ===== verification/SegmentRead.v ===== *)
(** * Reading a segment

    Every read of a represented segment is determined by the entries it holds:
    the index lookup ([findMessageBounds], both its fast path and its binary
    search), [Read], [findEndPosition] and [NewestTimestamp]. *)

From S2P Require Import Prelude GoNum OS Snappy Segment SegmentRep.

Section read.
Context `{SN : Snappy}.
Context (w : world) (s : Segment) (li ii : nat) (es : list entry) (jl ji : bytes).
Context (R : seg_rep w s li ii es jl ji).

Implicit Types (i : nat) (e : entry).

Lemma rep_ro w' : ro w w' → seg_rep w' s li ii es jl ji.
Proof. intros [k ->]. destruct R. by split. Qed.

Lemma set_compressed_rep c : seg_rep w (Segment_SetCompressed c s) li ii es jl ji.
Proof. by destruct R. Qed.

Lemma rep_entry_ok i e : es !! i = Some e → entry_ok e.
Proof. intros He. pose proof (sr_ok _ _ _ _ _ _ _ R) as H. by eapply Forall_lookup_1. Qed.

Lemma rep_entry_range i e : es !! i = Some e → s_baseOffset s ≤ e_off e < s_nextOffset s.
Proof. intros He. pose proof (sr_range _ _ _ _ _ _ _ R) as H. by apply (Forall_lookup_1 _ _ _ _ H He). Qed.

Lemma rep_pos_u64 i : is_u64 (pos_of es i).
Proof.
  pose proof (pos_of_le es i). pose proof (sr_size _ _ _ _ _ _ _ R).
  pose proof (sr_size_ok _ _ _ _ _ _ _ R). unfold is_u64. lia.
Qed.

Lemma rep_size_u64 : u64 (s_size s) = zlen (enc_log es).
Proof.
  rewrite u64_id, (sr_size _ _ _ _ _ _ _ R); [done|].
  pose proof (sr_size _ _ _ _ _ _ _ R). pose proof (sr_size_ok _ _ _ _ _ _ _ R). unfold is_u64. lia.
Qed.

Lemma rep_at i e : es !! i = Some e →
  0 ≤ pos_of es i ∧ pos_of es (S i) = pos_of es i + 24 + zlen (e_payload e) ∧
  pos_of es i + 24 + zlen (e_payload e) ≤ zlen (enc_log es) ∧ zlen (enc_log es) < 2 ^ 63.
Proof.
  intros He. pose proof (pos_of_S es i e He) as HS. rewrite zlen_enc in HS.
  pose proof (pos_of_le es i). pose proof (pos_of_le es (S i)).
  pose proof (sr_size _ _ _ _ _ _ _ R). pose proof (sr_size_ok _ _ _ _ _ _ _ R). lia.
Qed.

Lemma rep_entries_small : zlen es < 2 ^ 60.
Proof.
  pose proof (sr_size _ _ _ _ _ _ _ R). pose proof (sr_size_ok _ _ _ _ _ _ _ R).
  pose proof (zlen_enc_log_lower es). lia.
Qed.
End read.

Section index.
Context `{SN : Snappy}.
Context (s : Segment) (li ii : nat) (es : list entry) (jl ji : bytes).

Lemma reads_readIndexEntry w i e :
  seg_rep w s li ii es jl ji → es !! i = Some e →
  reads (readIndexEntry s (Z.of_nat i * indexEntrySize)) w (Ok (e_off e, pos_of es i)).
Proof.
  intros R He. unfold readIndexEntry. rewrite (sr_indexRead _ _ _ _ _ _ _ R).
  assert (Hc : content w ii = enc_index 0 es ++ ji) by apply content_Some, R.
  assert (Hi : (i < length es)%nat) by by eapply lookup_lt_Some.
  pose proof (rep_entry_ok _ _ _ _ _ _ _ R i e He) as (Hoff & _).
  unfold indexEntrySize. eapply reads_bind.
  - apply reads_ReadAt; [lia|lia|]. rewrite Hc, length_app.
    pose proof (zlen_enc_index 0 es). lia.
  - intros w' Hr. rewrite Hc.
    replace (Z.of_nat i * 16) with (16 * Z.of_nat i) by lia.
    rewrite (index_at es ji i e He).
    destruct (index_fields (e_off e) (pos_of es i)) as [-> ->]; [done| |apply reads_ret].
    by eapply rep_pos_u64.
Qed.

Lemma reads_readIndexPosition w i e :
  seg_rep w s li ii es jl ji → es !! i = Some e →
  reads (readIndexPosition s (Z.of_nat i * indexEntrySize)) w (Ok (pos_of es i)).
Proof.
  intros R He. eapply reads_bind; [by apply reads_readIndexEntry|]. intros. apply reads_ret.
Qed.

Lemma reads_readIndexOffset w i e :
  seg_rep w s li ii es jl ji → es !! i = Some e →
  reads (readIndexOffset s (Z.of_nat i * indexEntrySize)) w (Ok (e_off e)).
Proof.
  intros R He. eapply reads_bind; [by apply reads_readIndexEntry|]. intros. apply reads_ret.
Qed.

Lemma reads_nextPosition w i e :
  seg_rep w s li ii es jl ji → es !! i = Some e →
  reads (nextPosition s (Z.of_nat i) (zlen es)) w (Ok (pos_of es (S i))).
Proof.
  intros R He. unfold nextPosition. destruct (Z.ltb_spec (Z.of_nat i + 1) (zlen es)).
  - destruct (lookup_lt_is_Some_2 es (S i)) as [e' He']; [lia|].
    replace (Z.of_nat i + 1) with (Z.of_nat (S i)) by lia. by eapply reads_readIndexPosition.
  - apply lookup_lt_Some in He. replace (S i) with (length es) by lia.
    rewrite pos_of_length, (rep_size_u64 _ _ _ _ _ _ _ R). apply reads_ret.
Qed.

End index.

(** ** The index lookup

    The reference: a linear search of the entries. *)

Definition not_found (o : Z) : goerr := EMsg "offset %d not found in segment index" [AInt o].

Definition lookup_bounds (es : list entry) (o : Z) : outcome (Z * Z) :=
  match list_find (λ e, e_off e = o) es with
  | Some (i, _) => Ok (pos_of es i, pos_of es (S i))
  | None => Err (not_found o)
  end.

Lemma lookup_bounds_at es o i e :
  StronglySorted (λ a b, e_off a < e_off b) es →
  es !! i = Some e → e_off e = o → lookup_bounds es o = Ok (pos_of es i, pos_of es (S i)).
Proof.
  intros Hs Hi Ho. unfold lookup_bounds.
  destruct (list_find (λ e, e_off e = o) es) as [[j e']|] eqn:Hf.
  - apply list_find_Some in Hf as (Hj & Ho' & _).
    by assert (i = j) as -> by (eapply sorted_offset_inj; eauto; congruence).
  - apply list_find_None in Hf. rewrite Forall_forall in Hf.
    exfalso. apply (Hf e); [|done]. by eapply list_elem_of_lookup_2.
Qed.

Lemma lookup_bounds_none es o :
  (∀ i e, es !! i = Some e → e_off e = o → False) → lookup_bounds es o = Err (not_found o).
Proof.
  intros H. unfold lookup_bounds.
  destruct (list_find (λ e, e_off e = o) es) as [[j e']|] eqn:Hf; [|done].
  apply list_find_Some in Hf as (Hj & Ho' & _). by exfalso; eauto.
Qed.

Section lookup.
Context `{SN : Snappy}.
Context (s : Segment) (li ii : nat) (es : list entry) (jl ji : bytes).

(** The binary search: the entry with offset [o], if there is one, stays in
    the interval. *)
Lemma reads_search_offset fuel w o low high :
  seg_rep w s li ii es jl ji →
  0 ≤ low → high < zlen es → high - low < Z.of_nat fuel →
  (∀ i e, es !! i = Some e → e_off e = o → low ≤ Z.of_nat i ≤ high) →
  reads (search_offset fuel s (zlen es) o low high) w (lookup_bounds es o).
Proof.
  assert (Hnone : ∀ low high, high < low →
    (∀ i e, es !! i = Some e → e_off e = o → low ≤ Z.of_nat i ≤ high) →
    lookup_bounds es o = Err (not_found o)).
  { intros low' high' Hlt Hin. apply lookup_bounds_none. intros i e Hi Ho.
    specialize (Hin i e Hi Ho). lia. }
  revert w low high. induction fuel as [|fuel IH]; intros w low high R Hlow Hhigh Hfuel Hin; simpl;
    destruct (Z.leb_spec low high) as [Hle|Hgt]; try lia.
  1, 3: rewrite (Hnone low high) by done; apply reads_throw.
  set (mid := low + (high - low) / 2).
  assert (Hmid : low ≤ mid ≤ high) by (unfold mid; Z.to_euclidean_division_equations; lia).
  destruct (lookup_lt_is_Some_2 es (Z.to_nat mid)) as [em Hem]; [lia|].
  assert (Hn : Z.of_nat (Z.to_nat mid) = mid) by lia.
  pose proof (sr_sorted _ _ _ _ _ _ _ R) as Hsort.
  eapply reads_bind; [rewrite <-Hn; by eapply reads_readIndexEntry|].
  intros w' Hr. cbn beta iota. assert (R' := rep_ro _ _ _ _ _ _ _ R w' Hr).
  destruct (Z.eqb_spec (e_off em) o) as [Heq|Hne].
  { eapply reads_bind; [rewrite <-Hn; by eapply reads_nextPosition|]. intros w'' _.
    rewrite (lookup_bounds_at es o (Z.to_nat mid) em) by done. apply reads_ret. }
  destruct (Z.ltb_spec (e_off em) o) as [Hlt|Hge]; apply IH; try done; try lia;
    intros i e Hi Ho; specialize (Hin i e Hi Ho).
  - assert (¬ Z.of_nat i ≤ mid); [|lia]. intros Hle'.
    destruct (decide (i = Z.to_nat mid)) as [->|]; [congruence|].
    pose proof (sorted_lookup _ i (Z.to_nat mid) _ _ Hsort Hi Hem). lia.
  - assert (¬ mid ≤ Z.of_nat i); [|lia]. intros Hle'.
    destruct (decide (i = Z.to_nat mid)) as [->|]; [congruence|].
    pose proof (sorted_lookup _ (Z.to_nat mid) i _ _ Hsort Hem Hi). lia.
Qed.

(** [findMessageBounds] is the linear search, whichever path it takes. *)
Lemma reads_findMessageBounds w o :
  seg_rep w s li ii es jl ji →
  reads (findMessageBounds s o) w
    (if decide (es = []) then Err (EMsg "segment index is empty" []) else lookup_bounds es o).
Proof.
  intros R. unfold findMessageBounds. rewrite (sr_entries _ _ _ _ _ _ _ R).
  destruct (decide (es = [])) as [->|Hne]; [apply reads_throw|].
  destruct (Z.eqb_spec (zlen es) 0); [destruct es; done|].
  assert (Hbin : ∀ w', ro w w' → reads
    (search_offset (Z.to_nat (zlen es)) s (zlen es) o 0 (zlen es - 1)) w' (lookup_bounds es o)).
  { intros w' Hr. apply reads_search_offset; try lia; [by eapply rep_ro|].
    intros i e Hi _. apply lookup_lt_Some in Hi. lia. }
  destruct (_ && _) eqn:Hd; [|apply Hbin, ro_refl].
  apply andb_true_iff in Hd as [H1%Z.leb_le H2%Z.ltb_lt].
  set (d := i64 (u64 (o - s_baseOffset s))) in *.
  assert (Hn : Z.of_nat (Z.to_nat d) = d) by lia.
  destruct (lookup_lt_is_Some_2 es (Z.to_nat d)) as [em Hem]; [lia|].
  eapply reads_attempt_bind; [rewrite <-Hn; by eapply reads_readIndexEntry|  |].
  - intros w' Hr. cbn beta iota. destruct (Z.eqb_spec (e_off em) o) as [Heq|]; [|by apply Hbin].
    eapply reads_bind; [rewrite <-Hn; eapply reads_nextPosition; [by eapply rep_ro|done]|].
    intros w'' _. rewrite (lookup_bounds_at es o (Z.to_nat d) em); [apply reads_ret| |done|done].
    apply R.
  - intros e w' Hr. by apply Hbin.
Qed.
End lookup.

(** ** Reading a message *)

Section messages.
Context `{SN : Snappy}.

(** What [Read] makes of a stored entry. *)
Definition read_result (compressed : bool) (e : entry) : outcome Message :=
  let m := e_msg e in
  match (if compressed then snappy_Decode (e_payload e) else inl (e_payload e)) with
  | inr err => Err (EWrap "decode compressed payload at offset %d: %w" [AInt (Offset m)] err)
  | inl d =>
      let expectedSize := zlen (Key m) + zlen (Value m) in
      if zlen d =? expectedSize
      then Ok (mkMessage (Offset m) (Timestamp m) (zsub 0 (zlen (Key m)) d) (zsub (zlen (Key m)) (zlen d) d))
      else Err (EMsg "payload size %d does not match key/value sizes %d" [AInt (zlen d); AInt expectedSize])
  end.

(** The payload of an entry is its key and value, under the given mode. *)
Definition decodes (compressed : bool) (e : entry) : Prop :=
  (if compressed then snappy_Decode (e_payload e) else inl (e_payload e)) =
  inl (Key (e_msg e) ++ Value (e_msg e)).

Lemma read_result_decodes c e : decodes c e → read_result c e = Ok (e_msg e).
Proof.
  unfold decodes, read_result. intros ->. rewrite length_app, Nat2Z.inj_add, Z.eqb_refl.
  pose proof (zsub_app_exact [] (Key (e_msg e)) (Value (e_msg e)) 0 (zlen (Key (e_msg e)))) as H1.
  pose proof (zsub_app_exact (Key (e_msg e)) (Value (e_msg e)) [] (zlen (Key (e_msg e)))
    (zlen (Key (e_msg e)) + zlen (Value (e_msg e)))) as H2.
  simpl in H1. rewrite app_nil_r in H2. rewrite H1, H2 by lia. by destruct e as [[] ?].
Qed.

(** The reference for [Read]: the segment as a finite map from offsets. *)
Definition read_spec (s : Segment) (es : list entry) (o : Z) : outcome Message :=
  if (o <? s_baseOffset s) || (s_nextOffset s <=? o)
  then Err (EMsg "offset %d is outside segment" [AInt o])
  else if decide (es = []) then Err (EMsg "segment index is empty" [])
  else match find_entry es o with
       | Some e => read_result (s_compressed s) e
       | None => Err (not_found o)
       end.

Context (s : Segment) (li ii : nat) (es : list entry) (jl ji : bytes).

Lemma reads_message_of w e :
  let m := e_msg e in
  reads (message_of (s_compressed s) (e_off e) (e_off e) (Timestamp m) (zlen (Key m)) (zlen (Value m))
    (e_payload e)) w (read_result (s_compressed s) e).
Proof.
  cbv zeta. unfold message_of, read_result.
  set (d := if s_compressed s then snappy_Decode (e_payload e) else inl (e_payload e)).
  assert (Hd : (if s_compressed s then
      match snappy_Decode (e_payload e) with
      | inl decoded => mret decoded
      | inr err => throw (EWrap "decode compressed payload at offset %d: %w" [AInt (e_off e)] err)
      end : GoM world bytes
    else mret (e_payload e)) =
    match d with
    | inl p => mret p
    | inr err => throw (EWrap "decode compressed payload at offset %d: %w" [AInt (e_off e)] err)
    end) by (unfold d; by destruct (s_compressed s)).
  rewrite Hd. destruct d as [p|err]; [|apply reads_bind_err, reads_throw].
  eapply reads_bind; [apply reads_ret|]. intros w1 _. cbn beta iota.
  destruct (Z.eqb_spec (zlen p) (zlen (Key (e_msg e)) + zlen (Value (e_msg e)))); cbn [negb];
    [|apply reads_throw].
  eapply reads_bind; [apply reads_go_slice; lia|]. intros w2 _.
  eapply reads_bind; [apply reads_go_slice; lia|]. intros w3 _. apply reads_ret.
Qed.

Lemma reads_header w i e :
  seg_rep w s li ii es jl ji → es !! i = Some e →
  reads (file_ReadAt (s_logRead s) messageHeaderSize (i64 (pos_of es i))) w (Ok (entry_header e)).
Proof.
  intros R He. destruct (rep_at _ _ _ _ _ _ _ R i e He) as (H0 & HS & Hle & Hmax).
  rewrite (sr_logRead _ _ _ _ _ _ _ R), (i64_id (pos_of es i)) by (unfold is_i64; lia).
  rewrite <-(header_at es jl i e He), <-(content_Some _ _ _ (sr_log _ _ _ _ _ _ _ R)).
  unfold messageHeaderSize. apply reads_ReadAt; [lia|lia|].
  rewrite (content_Some _ _ _ (sr_log _ _ _ _ _ _ _ R)), length_app. lia.
Qed.

Lemma reads_payload w i e :
  seg_rep w s li ii es jl ji → es !! i = Some e →
  let n := u64 (pos_of es (S i) - pos_of es i - messageHeaderSize) in
  0 ≤ n ≤ max_alloc ∧
  reads (file_ReadAt (s_logRead s) n (i64 (i64 (pos_of es i) + messageHeaderSize))) w (Ok (e_payload e)).
Proof.
  intros R He. destruct (rep_at _ _ _ _ _ _ _ R i e He) as (H0 & HS & Hle & Hmax).
  destruct (rep_entry_ok _ _ _ _ _ _ _ R i e He) as (_ & _ & _ & _ & Hp).
  unfold messageHeaderSize in *. cbv zeta. rewrite HS, u64_id by (unfold is_u64; lia).
  replace (pos_of es i + 24 + zlen (e_payload e) - pos_of es i - 24) with (zlen (e_payload e)) by lia.
  split; [lia|].
  rewrite (sr_logRead _ _ _ _ _ _ _ R), (i64_id (pos_of es i)), i64_id by (unfold is_i64; lia).
  pose proof (payload_at es jl i e He) as Hpay.
  rewrite <-(content_Some _ _ _ (sr_log _ _ _ _ _ _ _ R)) in Hpay. rewrite <-Hpay at 2.
  apply reads_ReadAt; [lia|lia|].
  rewrite (content_Some _ _ _ (sr_log _ _ _ _ _ _ _ R)), length_app. lia.
Qed.

Lemma reads_Segment_Read_at w i e :
  seg_rep w s li ii es jl ji → es !! i = Some e →
  reads (Segment_Read s (e_off e)) w (read_result (s_compressed s) e).
Proof.
  intros R He.
  pose proof (rep_entry_range _ _ _ _ _ _ _ R i e He) as Hrange.
  unfold Segment_Read.
  destruct (Z.ltb_spec (e_off e) (s_baseOffset s)); [lia|].
  destruct (Z.leb_spec (s_nextOffset s) (e_off e)); [lia|]. cbn [orb].
  pose proof (reads_findMessageBounds s li ii es jl ji w (e_off e) R) as Hf.
  rewrite decide_False in Hf by (intros ->; done).
  rewrite (lookup_bounds_at es (e_off e) i e) in Hf by (done || apply R).
  eapply reads_bind; [exact Hf|]. intros w1 Hr1. cbn beta iota.
  assert (R1 := rep_ro _ _ _ _ _ _ _ R w1 Hr1).
  eapply reads_bind; [by eapply reads_header|]. intros w2 Hr2. cbn beta iota zeta.
  assert (R2 := rep_ro _ _ _ _ _ _ _ R1 w2 Hr2).
  destruct (entry_header_fields e) as (F1 & F2 & F3 & F4); [by eapply rep_entry_ok|].
  rewrite F1, F2, F3, F4, Z.eqb_refl. cbn [negb].
  destruct (reads_payload w2 i e R2 He) as [Hn _].
  eapply reads_bind; [by apply reads_make_slice|]. intros w3 Hr3.
  assert (R3 := rep_ro _ _ _ _ _ _ _ R2 w3 Hr3).
  eapply reads_bind; [by apply (reads_payload w3 i e R3 He)|]. intros w4 _.
  apply reads_message_of.
Qed.

Lemma reads_Segment_Read w o :
  seg_rep w s li ii es jl ji → reads (Segment_Read s o) w (read_spec s es o).
Proof.
  intros R. unfold read_spec.
  destruct (_ || _) eqn:Hout.
  { unfold Segment_Read. rewrite Hout. apply reads_throw. }
  destruct (find_entry es o) as [e|] eqn:Hf.
  - apply find_entry_Some in Hf as [<- [i Hi]]; [|apply R].
    rewrite decide_False by (intros ->; done). by eapply reads_Segment_Read_at.
  - unfold Segment_Read. rewrite Hout.
    pose proof (reads_findMessageBounds s li ii es jl ji w o R) as Hb.
    rewrite lookup_bounds_none in Hb; [case_decide; by apply reads_bind_err|].
    rewrite find_entry_None in Hf. intros i e Hi. apply Hf. by eapply list_elem_of_lookup_2.
Qed.

(** ** The newest timestamp *)

Definition newest_spec : outcome Z :=
  if s_nextOffset s <=? s_baseOffset s then Err (EMsg "segment is empty" [])
  else match last es with
       | None => Err (EMsg "segment index is empty" [])
       | Some e => Ok (Timestamp (e_msg e))
       end.

Lemma reads_NewestTimestamp w :
  seg_rep w s li ii es jl ji → reads (NewestTimestamp s) w newest_spec.
Proof.
  intros R. unfold NewestTimestamp, newest_spec.
  destruct (Z.leb_spec (s_nextOffset s) (s_baseOffset s)); [apply reads_throw|].
  rewrite (sr_entries _ _ _ _ _ _ _ R).
  destruct (last es) as [e|] eqn:Hlast.
  2: { apply last_None in Hlast as ->. apply reads_throw. }
  rewrite last_lookup in Hlast. assert (Hlen := lookup_lt_Some _ _ _ Hlast).
  destruct (Z.eqb_spec (zlen es) 0); [lia|].
  replace (zlen es - 1) with (Z.of_nat (pred (length es))) by lia.
  eapply reads_bind; [by eapply reads_readIndexPosition|]. intros w1 Hr1.
  assert (R1 := rep_ro _ _ _ _ _ _ _ R w1 Hr1).
  eapply reads_bind; [by eapply reads_header|]. intros w2 _.
  destruct (entry_header_fields e) as (_ & F2 & _); [by eapply rep_entry_ok|].
  rewrite F2. apply reads_ret.
Qed.

(** ** The end of a record, by its position *)

Definition lookup_end (p : Z) : outcome Z :=
  match list_find (λ i, pos_of es i = p) (seq 0 (length es)) with
  | Some (i, _) => Ok (pos_of es (S i))
  | None => Err (EMsg "log position %d not found in segment index" [AInt p])
  end.

Lemma pos_of_inj i j a b : es !! i = Some a → es !! j = Some b → pos_of es i = pos_of es j → i = j.
Proof.
  intros Hi Hj Heq. destruct (lt_eq_lt_dec i j) as [[H|H]|H]; [|done|].
  - pose proof (pos_of_lt_mono es i j a Hi H). lia.
  - pose proof (pos_of_lt_mono es j i b Hj H). lia.
Qed.

Lemma lookup_end_at p i e : es !! i = Some e → pos_of es i = p → lookup_end p = Ok (pos_of es (S i)).
Proof.
  intros Hi Hp. unfold lookup_end. assert (Hlen := lookup_lt_Some _ _ _ Hi).
  destruct (list_find _ _) as [[j k]|] eqn:Hf.
  - apply list_find_Some in Hf as (Hj & Hk & _).
    apply lookup_seq in Hj as [-> Hjl]. simpl in Hk.
    destruct (lookup_lt_is_Some_2 es j Hjl) as [b Hb].
    by assert (i = j) as -> by (eapply pos_of_inj; eauto; congruence).
  - apply list_find_None in Hf. rewrite Forall_forall in Hf.
    exfalso. apply (Hf i); [|done]. apply elem_of_seq. lia.
Qed.

Lemma lookup_end_none p :
  (∀ i e, es !! i = Some e → pos_of es i = p → False) →
  lookup_end p = Err (EMsg "log position %d not found in segment index" [AInt p]).
Proof.
  intros H. unfold lookup_end. destruct (list_find _ _) as [[j k]|] eqn:Hf; [|done].
  apply list_find_Some in Hf as (Hj & Hk & _). apply lookup_seq in Hj as [-> Hjl].
  destruct (lookup_lt_is_Some_2 es j Hjl) as [b Hb]. exfalso. eauto.
Qed.

Lemma reads_search_position fuel w p low high :
  seg_rep w s li ii es jl ji →
  0 ≤ low → high < zlen es → high - low < Z.of_nat fuel →
  (∀ i e, es !! i = Some e → pos_of es i = p → low ≤ Z.of_nat i ≤ high) →
  reads (search_position fuel s (zlen es) p low high) w (lookup_end p).
Proof.
  revert w low high. induction fuel as [|fuel IH]; intros w low high R Hlow Hhigh Hfuel Hin; simpl;
    destruct (Z.leb_spec low high) as [Hle|Hgt]; try lia.
  1, 3: rewrite lookup_end_none; [apply reads_throw|]; intros i e Hi Hp; specialize (Hin i e Hi Hp); lia.
  set (mid := low + (high - low) / 2).
  assert (Hmid : low ≤ mid ≤ high) by (unfold mid; Z.to_euclidean_division_equations; lia).
  destruct (lookup_lt_is_Some_2 es (Z.to_nat mid)) as [em Hem]; [lia|].
  assert (Hn : Z.of_nat (Z.to_nat mid) = mid) by lia.
  eapply reads_bind; [rewrite <-Hn; by eapply reads_readIndexEntry|].
  intros w' Hr. cbn beta iota. fold mid. assert (R' := rep_ro _ _ _ _ _ _ _ R w' Hr).
  destruct (Z.eqb_spec (pos_of es (Z.to_nat mid)) p) as [Heq|Hne].
  { rewrite (lookup_end_at p (Z.to_nat mid) em) by done. rewrite <-Hn at 1. by eapply reads_nextPosition. }
  destruct (Z.ltb_spec (pos_of es (Z.to_nat mid)) p) as [Hlt|Hge]; apply IH; try done; try lia;
    intros i e Hi Hp; specialize (Hin i e Hi Hp);
    destruct (lt_eq_lt_dec i (Z.to_nat mid)) as [[H|H]|H]; subst; try done; try lia.
  - pose proof (pos_of_lt_mono es _ _ _ Hi H). lia.
  - pose proof (pos_of_lt_mono es _ _ _ Hem H). lia.
Qed.

Lemma reads_findEndPosition w p :
  seg_rep w s li ii es jl ji → reads (findEndPosition s p) w (lookup_end p).
Proof.
  intros R. unfold findEndPosition. rewrite (sr_entries _ _ _ _ _ _ _ R).
  apply reads_search_position; try done; try lia.
  intros i e Hi _. apply lookup_lt_Some in Hi. lia.
Qed.
End messages.
