(* ===== verification/SegmentWrite.v ===== *)
(** * Writing a segment

    [writeAll] writes everything through any pattern of short writes; [Append]
    and [AppendBatch] extend the represented entries; a write that fails leaves
    the segment and the entries it holds as they were. *)

From S2P Require Import Prelude GoNum OS Snappy Segment SegmentRep SegmentRead.

(** ** writeAll *)

Lemma after_append w w0 w1 w2 i d :
  after w w0 w1 → after w1 (append_data i d w1) w2 → after w (append_data i d w0) w2.
Proof. intros [k1 ->] [k2 ->]. exists (k1 + k2)%nat. simpl. by rewrite drop_drop. Qed.

Lemma after_data w w0 w1 : after w w0 w1 → w_data w1 = w_data w0.
Proof. by intros [k ->]. Qed.
Lemma after_dirs w w0 w1 : after w w0 w1 → w_dirs w1 = w_dirs w0.
Proof. by intros [k ->]. Qed.
Lemma after_next w w0 w1 : after w w0 w1 → w_next w1 = w_next w0.
Proof. by intros [k ->]. Qed.

Lemma wp_Write i data (Q : Z → world → Prop) (E : goerr → world → Prop) w :
  data ≠ [] →
  (∀ n w', after w (append_data i (take n data) w) w' → n = length data ∨ w_faults w ≠ [] →
    Q (zlen (take n data)) w') →
  (∀ e n w', after w (append_data i (take n data) w) w' → io_error w e → E e w') →
  wp (file_Write (Some (File i)) data) Q E w.
Proof.
  intros Hne HQ HE. unfold file_Write, check_valid. wp_step. wp_step. wp_step.
  assert (Haft : ∀ d w', ro w w' → after w (append_data i d w) (append_data i d w')).
  { intros d w' [k ->]. by exists k. }
  apply wp_next_fault; intros; wp_steps.
  - specialize (HQ (length data)). rewrite firstn_all in HQ. apply HQ; [by apply Haft|by left].
  - eapply HE; [by apply Haft|]. split; [done|]. left. by eexists.
  - apply HQ; [by apply Haft|by right].
Qed.

Lemma wp_write_loop fuel i data (Q : unit → world → Prop) (E : goerr → world → Prop) w :
  (length data ≤ fuel)%nat →
  is_Some (w_data w !! i) →
  (∀ w', after w (append_data i data w) w' → Q tt w') →
  (∀ e n w', after w (append_data i (take n data) w) w' → io_error w e → E e w') →
  wp (write_loop fuel (Some (File i)) data) Q E w.
Proof.
  revert data w. induction fuel as [|fuel IH]; intros data w Hlen Hi HQ HE;
    destruct data as [|b data]; simpl in Hlen; try lia.
  1, 2: simpl; apply wp_ret, HQ; rewrite append_data_nil by done; apply after_refl.
  cbn [write_loop]. wp_step. set (d := b :: data) in *. assert (Hd : length d = S (length data)) by done.
  apply wp_Write; [done| |done].
  intros n w' Haft Hn. destruct (Z.eqb_spec (zlen (take n d)) 0) as [Hz|Hz].
  { apply wp_throw, (HE _ n); [done|]. split; [|by right].
    destruct Hn as [->|]; [|done]. rewrite firstn_all in Hz. lia. }
  rewrite length_take, Nat2Z.id in *.
  assert (Hi' : is_Some (w_data w' !! i)).
  { rewrite (after_data _ _ _ Haft). unfold append_data. simpl. rewrite lookup_insert_eq. eauto. }
  assert (Htd : ∀ x, append_data i x (append_data i (take n d) w) = append_data i (take n d ++ x) w)
    by (intros; apply append_data_app).
  apply IH; [rewrite length_drop; lia|done| |].
  - intros w'' H. apply HQ. pose proof (after_append _ _ _ _ _ _ Haft H) as Ha. rewrite Htd in Ha.
    replace (take n d ++ drop (n `min` length d) d) with d in Ha; [done|].
    destruct (Nat.min_spec n (length d)) as [[? ->]|[? ->]]; [by rewrite take_drop|].
    by rewrite take_ge, drop_all, app_nil_r by lia.
  - intros e m w'' H He. apply (HE e (n `min` length d + m)%nat); [|by eapply io_error_after].
    pose proof (after_append _ _ _ _ _ _ Haft H) as Ha. rewrite Htd in Ha.
    replace (take n d ++ take m (drop (n `min` length d) d)) with (take (n `min` length d + m) d) in Ha;
      [done|].
    rewrite <-(take_take_drop d). f_equal. rewrite <-take_take, (take_ge d (length d)) by lia. done.
Qed.

Lemma wp_writeAll i data (Q : unit → world → Prop) (E : goerr → world → Prop) w :
  is_Some (w_data w !! i) →
  (∀ w', after w (append_data i data w) w' → Q tt w') →
  (∀ e n w', after w (append_data i (take n data) w) w' → io_error w e → E e w') →
  wp (writeAll (Some (File i)) data) Q E w.
Proof. intros. by apply wp_write_loop. Qed.

(** ** The effect of a write on the representation *)

(** Nothing but inodes [li] and [ii] changed, and these only grew. *)
Definition grew (li ii : nat) (w w' : world) : Prop :=
  w_dirs w' = w_dirs w ∧ w_next w' = w_next w ∧
  (∃ k, w_faults w' = drop k (w_faults w)) ∧
  (∀ i, i ≠ li → i ≠ ii → w_data w' !! i = w_data w !! i) ∧
  (∀ i, is_Some (w_data w !! i) → is_Some (w_data w' !! i)).

Lemma grew_ro li ii w w' : ro w w' → grew li ii w w'.
Proof. intros [k ->]. split_and!; naive_solver. Qed.

Lemma grew_append li ii i d w w0 w' :
  i = li ∨ i = ii → grew li ii w w0 → after w (append_data i d w0) w' → grew li ii w w'.
Proof.
  intros Hi (H1 & H2 & _ & H4 & H5) [k ->]. split_and!; simpl; [done|done|by exists k| |].
  - intros j Hl Hii. rewrite lookup_insert_ne by naive_solver. by apply H4.
  - intros j Hj. destruct (decide (i = j)) as [->|].
    + rewrite lookup_insert_eq. eauto.
    + rewrite lookup_insert_ne by done. by apply H5.
Qed.

Lemma grew_refl li ii w : grew li ii w w.
Proof. apply grew_ro, ro_refl. Qed.

Lemma rep_junk w w' s li ii es jl ji dl di :
  seg_rep w s li ii es jl ji →
  after w (append_data ii di (append_data li dl w)) w' →
  seg_rep w' s li ii es (jl ++ dl) (ji ++ di).
Proof.
  intros R Haft. pose proof (sr_ne _ _ _ _ _ _ _ R) as Hne.
  pose proof (after_data _ _ _ Haft) as Hd. destruct R. split; try done; rewrite Hd.
  - rewrite append_data_lookup_ne by done.
    rewrite (append_data_lookup _ _ _ _ sr_log), <-app_assoc. done.
  - rewrite (append_data_lookup ii di (append_data li dl w) (enc_index 0 es ++ ji)).
    + by rewrite <-app_assoc.
    + by rewrite append_data_lookup_ne.
Qed.

Lemma rep_junk_log w w' s li ii es jl ji dl :
  seg_rep w s li ii es jl ji → after w (append_data li dl w) w' →
  seg_rep w' s li ii es (jl ++ dl) ji.
Proof.
  intros R Haft. rewrite <-(app_nil_r ji). eapply rep_junk; [done|].
  rewrite append_data_nil; [done|]. rewrite append_data_lookup_ne by apply R.
  eexists. apply R.
Qed.

(** The entries a batch appends: consecutive offsets from [next]. *)
Definition consecutive (next : Z) (es : list entry) : Prop :=
  ∀ k e, es !! k = Some e → e_off e = next + Z.of_nat k.

Lemma consecutive_tail next e es : consecutive next (e :: es) → consecutive (next + 1) es.
Proof. intros H k e' Hk. specialize (H (S k) e' Hk). lia. Qed.

Lemma consecutive_sorted next es : consecutive next es → StronglySorted (λ a b, e_off a < e_off b) es.
Proof.
  revert next. induction es as [|e es IH]; intros next H; constructor.
  - eapply IH, consecutive_tail, H.
  - apply Forall_lookup_2. intros k e' Hk. pose proof (H 0%nat e eq_refl). pose proof (H (S k) e' Hk). lia.
Qed.

Lemma StronglySorted_app_intro {A} (P : relation A) l1 l2 :
  StronglySorted P l1 → StronglySorted P l2 → (∀ a b, a ∈ l1 → b ∈ l2 → P a b) →
  StronglySorted P (l1 ++ l2).
Proof.
  induction 1 as [|x l1 H1 IH Hx]; intros H2 H; simpl; [done|].
  constructor; [apply IH; [done|set_solver]|]. apply Forall_app. split; [done|].
  apply Forall_forall. set_solver.
Qed.

Lemma rep_extend w w' s li ii es es2 :
  seg_rep w s li ii es [] [] →
  after w (append_data ii (enc_index (s_size s) es2) (append_data li (enc_log es2) w)) w' →
  Forall entry_ok es2 → consecutive (s_nextOffset s) es2 →
  s_nextOffset s + zlen es2 < 2 ^ 64 → s_size s + zlen (enc_log es2) < 2 ^ 63 →
  seg_rep w' (advance (s_nextOffset s + zlen es2) (zlen (enc_log es2)) (zlen es2) s)
    li ii (es ++ es2) [] [].
Proof.
  intros R Haft Hok Hcons Hnext Hsize.
  pose proof (rep_junk _ _ _ _ _ _ _ _ _ _ R Haft) as R'.
  pose proof (sr_log _ _ _ _ _ _ _ R') as Hl. pose proof (sr_index _ _ _ _ _ _ _ R') as Hi.
  pose proof (rep_entries_small _ _ _ _ _ _ _ R) as Hsm.
  pose proof (zlen_enc_log_lower es2) as Hlow.
  destruct R. unfold advance. split; simpl; try done.
  - rewrite Hl, !app_nil_r, enc_log_app. done.
  - rewrite Hi, !app_nil_r, enc_index_app, sr_size. done.
  - rewrite i64_id by (unfold is_i64; lia). rewrite zlen_enc_log_app. lia.
  - rewrite i64_id by (unfold is_i64; lia). done.
  - rewrite i64_id, length_app by (unfold is_i64; lia). lia.
  - by apply Forall_app.
  - apply StronglySorted_app_intro; [done|by eapply consecutive_sorted|].
    intros a b Ha [k Hk]%list_elem_of_lookup. rewrite Forall_forall in sr_range.
    specialize (sr_range a Ha). rewrite (Hcons k b Hk). lia.
  - apply Forall_app. split.
    + eapply Forall_impl; [exact sr_range|]. simpl. intros. lia.
    + apply Forall_lookup_2. intros k e Hk. rewrite (Hcons k e Hk). apply lookup_lt_Some in Hk. lia.
  - lia.
Qed.

(** ** Append *)

Section append.
Context `{SN : Snappy}.

(** What is stored for a payload. *)
Definition stored_payload (compressed : bool) (p : bytes) : option bytes :=
  if compressed then snappy_Encode p else Some p.

Definition bytes_saved (compressed : bool) (p q : bytes) : Z :=
  if compressed then Z.max 0 (i64 (zlen p - zlen q)) else 0.

(** The entry an append stores. *)
Definition new_entry (next ts : Z) (key value q : bytes) : entry :=
  mkEntry (mkMessage next ts key value) q.

Lemma compress_run {S} c p (st : S) :
  compress c p st = match stored_payload c p with Some q => (Ok q, st) | None => (Panic, st) end.
Proof. unfold compress, stored_payload. destruct c; [|done]. by destruct (snappy_Encode p). Qed.

End append.

(** ** Partial writes

    [partial w li ii dl di w1]: [dl] was written to the log and [di] to the
    index. *)

Definition partial (w : world) (li ii : nat) (dl di : bytes) (w1 : world) : Prop :=
  after w (append_data ii di (append_data li dl w)) w1.

(** A write that fails keeps the representation, with more junk. *)
Definition write_failed (w : world) (s : Segment) li ii es (e : goerr) (w' : world) : Prop :=
  io_error w e ∧ grew li ii w w' ∧ ∃ jl ji, seg_rep w' s li ii es jl ji.

Section partial.
Context (w : world) (s : Segment) (li ii : nat) (es : list entry) (jl ji : bytes).
Context (R : seg_rep w s li ii es jl ji).

Lemma partial_nil : partial w li ii [] [] w.
Proof.
  unfold partial. rewrite !append_data_nil; [apply after_refl|eexists; apply R|].
  rewrite append_data_lookup_ne by apply R. eexists. apply R.
Qed.

Lemma partial_inodes dl di w1 : partial w li ii dl di w1 →
  is_Some (w_data w1 !! li) ∧ is_Some (w_data w1 !! ii).
Proof. intros H. pose proof (rep_junk _ _ _ _ _ _ _ _ _ _ R H) as R1. split; eexists; apply R1. Qed.

Lemma partial_log dl d w1 w2 : partial w li ii dl [] w1 →
  after w1 (append_data li d w1) w2 → partial w li ii (dl ++ d) [] w2.
Proof.
  unfold partial. pose proof (sr_ne _ _ _ _ _ _ _ R) as Hne. intros H1 H2.
  rewrite <-append_data_app. rewrite append_data_comm by done.
  by eapply after_append.
Qed.

Lemma partial_index dl di d w1 w2 : partial w li ii dl di w1 →
  after w1 (append_data ii d w1) w2 → partial w li ii dl (di ++ d) w2.
Proof. unfold partial. intros H1 H2. rewrite <-append_data_app. by eapply after_append. Qed.

Lemma partial_grew dl di w1 : partial w li ii dl di w1 → grew li ii w w1.
Proof.
  unfold partial. intros H. eapply (grew_append _ _ ii); [by right| |exact H].
  eapply (grew_append _ _ li dl w w); [by left|apply grew_refl|].
  exists 0%nat. by rewrite drop_0, <-(set_faults_id (append_data li dl w)) at 1.
Qed.

Lemma partial_failed dl di w1 e : partial w li ii dl di w1 → io_error w e →
  write_failed w s li ii es e w1.
Proof.
  intros H He. split_and!; [done|by eapply partial_grew|]. do 2 eexists. by eapply rep_junk.
Qed.

Lemma wp_write_log dl d Q E w1 : partial w li ii dl [] w1 →
  (∀ w2, partial w li ii (dl ++ d) [] w2 → Q tt w2) →
  (∀ e w2, write_failed w s li ii es e w2 → E e w2) →
  wp (writeAll (s_logFile s) d) Q E w1.
Proof.
  intros H1 HQ HE. rewrite (sr_logFile _ _ _ _ _ _ _ R).
  apply wp_writeAll; [by eapply partial_inodes| |].
  - intros w2 H2. by eapply HQ, partial_log.
  - intros e n w2 H2 He. eapply HE, partial_failed; [by eapply partial_log|by eapply io_error_after].
Qed.

Lemma wp_write_index dl di d Q E w1 : partial w li ii dl di w1 →
  (∀ w2, partial w li ii dl (di ++ d) w2 → Q tt w2) →
  (∀ e w2, write_failed w s li ii es e w2 → E e w2) →
  wp (writeAll (s_indexWrite s) d) Q E w1.
Proof.
  intros H1 HQ HE. rewrite (sr_indexWrite _ _ _ _ _ _ _ R).
  apply wp_writeAll; [by eapply partial_inodes| |].
  - intros w2 H2. by eapply HQ, partial_index.
  - intros e n w2 H2 He. eapply HE, partial_failed; [by eapply partial_index|by eapply io_error_after].
Qed.
End partial.

Section append_spec.
Context `{SN : Snappy}.

Lemma wp_Segment_Append w s li ii es jl ji ts key value q Q E :
  seg_rep w s li ii es jl ji →
  zlen key ≤ max_u32 → zlen value ≤ max_u32 →
  stored_payload (s_compressed s) (key ++ value) = Some q →
  let e := new_entry (s_nextOffset s) ts key value q in
  (∀ w', partial w li ii (enc_log [e]) (enc_index (s_size s) [e]) w' →
    Q (s_nextOffset s, bytes_saved (s_compressed s) (key ++ value) q)
      (advance (u64 (s_nextOffset s + 1)) (zlen (enc_log [e])) 1 s, w')) →
  (∀ err w', write_failed w s li ii es err w' → E err (s, w')) →
  wp (Segment_Append ts key value) Q E (s, w).
Proof.
  intros R Hk Hv Hq e HQ HE. unfold Segment_Append.
  destruct (Z.ltb_spec max_u32 (zlen key)); [lia|].
  destruct (Z.ltb_spec max_u32 (zlen value)); [lia|].
  wp_steps. unfold wp at 1. rewrite compress_run, Hq. wp_steps.
  eapply wp_write_log; [done|by eapply partial_nil| |auto]. intros w1 H1. wp_steps.
  eapply wp_write_log; [done|exact H1| |auto]. intros w2 H2. wp_steps.
  eapply wp_write_index; [done|exact H2| |auto]. intros w3 H3. wp_steps.
  rewrite enc_log_one, zlen_enc in HQ. simpl enc_index in HQ.
  rewrite app_nil_r in HQ. simpl app in H3.
  assert (Hu : u64 (s_size s) = s_size s).
  { rewrite (rep_size_u64 _ _ _ _ _ _ _ R). symmetry. apply R. }
  rewrite Hu in H3. specialize (HQ w3 H3). unfold bytes_saved in HQ. unfold messageHeaderSize.
  destruct (s_compressed s); [|exact HQ].
  destruct (Z.ltb_spec (i64 (zlen (key ++ value) - zlen q)) 0).
  - by rewrite Z.max_l in HQ by lia.
  - by rewrite Z.max_r in HQ by lia.
Qed.

Lemma stored_payload_size `{!SnappyLaws SN} c p q :
  stored_payload c p = Some q → zlen p ≤ 2 * max_u32 → zlen q ≤ max_alloc.
Proof.
  unfold stored_payload, max_u32, max_alloc. destruct c; intros H Hp.
  - apply snappy_Encode_len in H. assert (zlen p / 6 ≤ zlen p) by (apply Z.div_le_upper_bound; lia). lia.
  - simplify_eq. lia.
Qed.

Lemma stored_decodes `{!SnappyLaws SN} c next ts key value q :
  stored_payload c (key ++ value) = Some q → decodes c (new_entry next ts key value q).
Proof.
  unfold stored_payload, decodes. destruct c; simpl; intros H.
  - by apply snappy_Decode_Encode.
  - by simplify_eq.
Qed.

(** The conditions on a record under which an append succeeds and its entry is
    readable; the sizes are the machine's limits. *)
Definition room (s : Segment) (n bytes : Z) : Prop :=
  s_nextOffset s + n < 2 ^ 64 ∧ s_size s + bytes < 2 ^ 63.

Lemma new_entry_ok `{!SnappyLaws SN} next c ts key value q :
  0 ≤ next < 2 ^ 64 → is_i64 ts → zlen key ≤ max_u32 → zlen value ≤ max_u32 →
  stored_payload c (key ++ value) = Some q → entry_ok (new_entry next ts key value q).
Proof.
  intros. split_and!; simpl; try done.
  eapply stored_payload_size; [done|]. rewrite length_app. lia.
Qed.

Lemma wp_Segment_Append_rep `{!SnappyLaws SN} w s li ii es ts key value q Q E :
  seg_rep w s li ii es [] [] →
  zlen key ≤ max_u32 → zlen value ≤ max_u32 → is_i64 ts →
  stored_payload (s_compressed s) (key ++ value) = Some q →
  let e := new_entry (s_nextOffset s) ts key value q in
  room s 1 (zlen (enc e)) →
  (∀ s' w', s' = advance (s_nextOffset s + 1) (zlen (enc e)) 1 s →
    grew li ii w w' → seg_rep w' s' li ii (es ++ [e]) [] [] →
    Q (s_nextOffset s, bytes_saved (s_compressed s) (key ++ value) q) (s', w')) →
  (∀ err w', write_failed w s li ii es err w' → E err (s, w')) →
  wp (Segment_Append ts key value) Q E (s, w).
Proof.
  intros R Hk Hv Hts Hq e [Hn Hs] HQ HE.
  assert (Hbase : 0 ≤ s_nextOffset s < 2 ^ 64) by (destruct R; lia).
  eapply wp_Segment_Append; try done. fold e. intros w' Hp.
  rewrite enc_log_one, (u64_id (s_nextOffset s + 1)) by (unfold is_u64; lia).
  apply HQ; [done|by eapply partial_grew|].
  rewrite <-(enc_log_one e). apply (rep_extend w w' s li ii es [e]); try done.
  - constructor; [|constructor]. by eapply new_entry_ok.
  - intros [|k] e' Hk'; [|done]. injection Hk' as <-. change (e_off e) with (s_nextOffset s). lia.
  - by rewrite enc_log_one.
Qed.
End append_spec.

(** ** AppendBatch *)

Section batch.
Context `{SN : Snappy}.

Definition record_ok (r : LogRecord) : Prop :=
  zlen (r_Key r) ≤ max_u32 ∧ zlen (r_Value r) ≤ max_u32 ∧ is_i64 (r_Timestamp r).

(** The entries a batch stores, from offset [next] on; [None] when a payload
    is too large for the compressor. *)
Fixpoint batch_entries (compressed : bool) (next : Z) (records : list LogRecord) : option (list entry) :=
  match records with
  | [] => Some []
  | r :: rs =>
      q ← stored_payload compressed (r_Key r ++ r_Value r);
      es ← batch_entries compressed (next + 1) rs;
      Some (new_entry next (r_Timestamp r) (r_Key r) (r_Value r) q :: es)
  end.

Definition entry_saved (c : bool) (e : entry) : Z :=
  bytes_saved c (Key (e_msg e) ++ Value (e_msg e)) (e_payload e).

(** [totalSaved] of a batch. *)
Definition total_saved (c : bool) (start : Z) (es : list entry) : Z :=
  foldl (λ t e, i64 (t + entry_saved c e)) start es.

Definition prepared_of (c : bool) (e : entry) : preparedPayload :=
  mkPrepared (e_payload e) (zlen (Key (e_msg e))) (zlen (Value (e_msg e)))
    (Timestamp (e_msg e)) (entry_saved c e).

Lemma batch_entries_consecutive c next records es :
  batch_entries c next records = Some es → consecutive next es ∧ length es = length records.
Proof.
  revert next es. induction records as [|r rs IH]; intros next es H; simpl in H; simplify_eq.
  { split; [intros k e Hk; done|done]. }
  apply bind_Some in H as (q & Hq & H). apply bind_Some in H as (es' & Hes & [= <-]).
  destruct (IH _ _ Hes) as [Hc Hl]. split; [|simpl; lia].
  intros [|k] e Hk; simpl in Hk; [injection Hk as <-; unfold e_off; simpl; lia|].
  rewrite (Hc k e Hk). lia.
Qed.

Lemma batch_entries_at c next records es k r :
  batch_entries c next records = Some es → records !! k = Some r →
  ∃ q, stored_payload c (r_Key r ++ r_Value r) = Some q ∧
    es !! k = Some (new_entry (next + Z.of_nat k) (r_Timestamp r) (r_Key r) (r_Value r) q).
Proof.
  revert next es k. induction records as [|r0 rs IH]; intros next es k Hb Hk; [done|].
  simpl in Hb. apply bind_Some in Hb as (q & Hq & Hb). apply bind_Some in Hb as (es' & Hes & Hb).
  apply (inj Some) in Hb as <-. destruct k as [|k]; simpl in Hk.
  - apply (inj Some) in Hk as ->. exists q. split; [done|]. simpl. by rewrite Z.add_0_r.
  - destruct (IH _ _ _ Hes Hk) as (q' & Hq' & Hk'). exists q'. split; [done|]. simpl. rewrite Hk'.
    by replace (next + 1 + Z.of_nat k) with (next + Z.of_nat (S k)) by lia.
Qed.

Lemma batch_entries_decodes `{!SnappyLaws SN} c next records es :
  batch_entries c next records = Some es → Forall (decodes c) es.
Proof.
  revert next es. induction records as [|r0 rs IH]; intros next es Hb; simpl in Hb.
  { by apply (inj Some) in Hb as <-. }
  apply bind_Some in Hb as (q & Hq & Hb). apply bind_Some in Hb as (es' & Hes & Hb).
  apply (inj Some) in Hb as <-. constructor; [by apply stored_decodes|by eapply IH].
Qed.

Lemma batch_entries_ok `{!SnappyLaws SN} c next records es :
  batch_entries c next records = Some es → Forall record_ok records →
  0 ≤ next → next + zlen records < 2 ^ 64 → Forall entry_ok es.
Proof.
  revert next es. induction records as [|r rs IH]; intros next es H Hok H0 Hn; simpl in H; simplify_eq; [done|].
  apply bind_Some in H as (q & Hq & H). apply bind_Some in H as (es' & Hes & [= <-]).
  apply Forall_cons in Hok as [(Hk & Hv & Ht) Hok]. simpl length in Hn.
  constructor; [|eapply IH; [done|done|lia|lia]].
  eapply new_entry_ok; [lia|done..].
Qed.

Lemma prepare_batch_run {S} c records es next ts tl (st : S) :
  batch_entries c next records = Some es → Forall record_ok records →
  prepare_batch c records ts tl st =
  (Ok (prepared_of c <$> es, total_saved c ts es, tl + zlen (enc_log es)), st).
Proof.
  revert es next ts tl. induction records as [|r rs IH]; intros es next ts tl H Hok; simpl in H; simplify_eq.
  { simpl. unfold mret, gom_ret. do 3 f_equal. rewrite enc_log_nil. simpl. lia. }
  apply bind_Some in H as (q & Hq & H). apply bind_Some in H as (es' & Hes & [= <-]).
  apply Forall_cons in Hok as [(Hk & Hv & Ht) Hok]. cbn [prepare_batch].
  destruct (Z.ltb_spec max_u32 (zlen (r_Key r))); [lia|].
  destruct (Z.ltb_spec max_u32 (zlen (r_Value r))); [lia|].
  erewrite run_bind by (rewrite compress_run, Hq; done).
  erewrite run_bind by (eapply IH; done). unfold mret, gom_ret.
  rewrite zlen_enc_log_cons. simpl.
  assert (Hsv : (if c then if i64 (zlen (r_Key r ++ r_Value r) - zlen q) <? 0 then 0
      else i64 (zlen (r_Key r ++ r_Value r) - zlen q) else 0) =
    entry_saved c (new_entry next (r_Timestamp r) (r_Key r) (r_Value r) q)).
  { unfold entry_saved, bytes_saved. simpl. destruct c; [|done].
    destruct (Z.ltb_spec (i64 (zlen (r_Key r ++ r_Value r) - zlen q)) 0); lia. }
  rewrite Hsv. unfold messageHeaderSize. do 3 f_equal. lia.
Qed.

(** One step of filling a buffer. *)
Lemma fill_batch_run {S} c es dl di pos next (st : S) :
  Forall entry_ok es → consecutive next es →
  0 ≤ pos → pos + zlen (enc_log es) < 2 ^ 64 → 0 ≤ next → next + zlen es < 2 ^ 64 →
  fill_batch (prepared_of c <$> es)
    (dl ++ replicate (Z.to_nat (zlen (enc_log es))) Byte.x00)
    (di ++ replicate (Z.to_nat (zlen es * indexEntrySize)) Byte.x00)
    (zlen dl) (zlen di) pos next st =
  (Ok (dl ++ enc_log es, di ++ enc_index pos es, e_off <$> es, next + zlen es), st).
Proof.
  revert dl di pos next. induction es as [|e es IH]; intros dl di pos next Hok Hc Hp Hpos Hn Hnext.
  { simpl. rewrite enc_log_nil. simpl. unfold mret, gom_ret. by rewrite !app_nil_r, Z.add_0_r. }
  apply Forall_cons in Hok as [(Ho & Ht & Hk & Hv & Hq) Hok].
  assert (L8 : ∀ z, zlen (PutUint64 z) = 8) by (intros; unfold PutUint64; by rewrite length_be_put).
  assert (L4 : ∀ z, zlen (PutUint32 z) = 4) by (intros; unfold PutUint32; by rewrite length_be_put).
  pose proof (Hc 0%nat e eq_refl) as He. rewrite Z.add_0_r in He.
  rewrite zlen_enc_log_cons in *. simpl length in *.
  cbn [fmap list_fmap fill_batch prepared_of p_payload p_keyLen p_valLen p_timestamp].
  unfold messageHeaderSize, indexEntrySize in *.
  rewrite put_next by (rewrite ?L8; lia).
  rewrite put_next by (rewrite ?length_app, ?Nat2Z.inj_add, ?L8; lia).
  rewrite put_next by (rewrite ?length_app, ?Nat2Z.inj_add, ?L8, ?L4; lia).
  rewrite put_next by (rewrite ?length_app, ?Nat2Z.inj_add, ?L8, ?L4; lia).
  rewrite put_next by (rewrite ?length_app, ?Nat2Z.inj_add, ?L8, ?L4; lia).
  rewrite put_next by (rewrite ?L8; lia).
  rewrite put_next by (rewrite ?length_app, ?Nat2Z.inj_add, ?L8; lia).
  rewrite !L8, !L4, <-!app_assoc.
  assert (Henc : ∀ r, PutUint64 next ++ PutUint64 (u64 (Timestamp (e_msg e))) ++
    PutUint32 (u32 (zlen (Key (e_msg e)))) ++ PutUint32 (u32 (zlen (Value (e_msg e)))) ++
    e_payload e ++ r = enc e ++ r).
  { intros r. rewrite enc_split. unfold entry_header. rewrite header_bytes_eq, <-!app_assoc.
    unfold e_off in He. by rewrite He. }
  rewrite Henc, (app_assoc (PutUint64 next)), <-index_bytes_eq.
  rewrite (u64_id (24 + _)), (u64_id (pos + _)), (u64_id (next + 1)) by (unfold is_u64; lia).
  specialize (IH (dl ++ enc e) (di ++ index_bytes next pos) (pos + (24 + zlen (e_payload e))) (next + 1)
    Hok (consecutive_tail _ _ _ Hc) ltac:(lia) ltac:(lia) ltac:(lia) ltac:(lia)).
  rewrite !length_app, !Nat2Z.inj_add, zlen_enc, length_index_bytes, <-!app_assoc in IH.
  change (Z.of_nat 16) with 16 in IH. rewrite Z.add_assoc in IH.
  replace (24 + zlen (e_payload e) + zlen (enc_log es) - 8 - 8 - 4 - 4 - zlen (e_payload e))
    with (zlen (enc_log es)) by lia.
  replace (Z.of_nat (Datatypes.S (length es)) * 16 - 8 - 8) with (zlen es * 16) by lia.
  rewrite (run_bind _ _ _ _ _ IH).
  unfold mret, gom_ret. rewrite enc_log_cons. simpl enc_index.
  rewrite zlen_enc, He. do 3 f_equal. lia.
Qed.

Lemma wp_Segment_AppendBatch w s li ii es jl ji records es2 Q E :
  seg_rep w s li ii es jl ji → records ≠ [] → Forall record_ok records →
  batch_entries (s_compressed s) (s_nextOffset s) records = Some es2 →
  Forall entry_ok es2 → room s (zlen records) (zlen (enc_log es2)) →
  (∀ w', partial w li ii (enc_log es2) (enc_index (s_size s) es2) w' →
    Q (e_off <$> es2, total_saved (s_compressed s) 0 es2)
      (advance (s_nextOffset s + zlen records) (zlen (enc_log es2)) (zlen records) s, w')) →
  (∀ err w', write_failed w s li ii es err w' → E err (s, w')) →
  wp (Segment_AppendBatch records) Q E (s, w).
Proof.
  intros R Hne Hok Hes Hes2 [Hn Hs] HQ HE. unfold Segment_AppendBatch.
  destruct records as [|r0 rs0]; [done|]. set (records := r0 :: rs0) in *.
  destruct (batch_entries_consecutive _ _ _ _ Hes) as [Hc Hl].
  assert (Hsz : 0 ≤ s_size s) by (rewrite (sr_size _ _ _ _ _ _ _ R); lia).
  pose proof (sr_base _ _ _ _ _ _ _ R) as Hb.
  wp_step. wp_step. cbn beta iota. wp_step. unfold wp at 1. erewrite prepare_batch_run by done.
  cbn beta iota. wp_step. rewrite Z.add_0_l, <-Hl, (rep_size_u64 _ _ _ _ _ _ _ R).
  rewrite <-(sr_size _ _ _ _ _ _ _ R).
  pose proof (fill_batch_run (s_compressed s) es2 [] [] (s_size s) (s_nextOffset s) (s, w)
    Hes2 Hc Hsz ltac:(lia) ltac:(lia) ltac:(lia)) as Hfill.
  simpl app in Hfill. change (zlen []) with 0 in Hfill. eapply wp_run; [exact Hfill|].
  cbn beta iota. wp_steps.
  eapply wp_write_log; [done|by eapply partial_nil| |auto]. intros w1 H1. wp_steps.
  eapply wp_write_index; [done|exact H1| |auto]. intros w2 H2. wp_steps.
  rewrite Hl. by apply HQ.
Qed.

Lemma wp_Segment_AppendBatch_rep `{!SnappyLaws SN} w s li ii es records es2 Q E :
  seg_rep w s li ii es [] [] → records ≠ [] → Forall record_ok records →
  batch_entries (s_compressed s) (s_nextOffset s) records = Some es2 →
  room s (zlen records) (zlen (enc_log es2)) →
  (∀ s' w', s' = advance (s_nextOffset s + zlen records) (zlen (enc_log es2)) (zlen records) s →
    grew li ii w w' → seg_rep w' s' li ii (es ++ es2) [] [] →
    Q (e_off <$> es2, total_saved (s_compressed s) 0 es2) (s', w')) →
  (∀ err w', write_failed w s li ii es err w' → E err (s, w')) →
  wp (Segment_AppendBatch records) Q E (s, w).
Proof.
  intros R Hne Hok Hes Hroom HQ HE.
  destruct (batch_entries_consecutive _ _ _ _ Hes) as [Hc Hl].
  pose proof (sr_base _ _ _ _ _ _ _ R) as Hb.
  assert (Hes2 : Forall entry_ok es2) by (eapply batch_entries_ok; [done|done|lia|apply Hroom]).
  eapply wp_Segment_AppendBatch; try done. intros w' Hp.
  apply HQ; [done|by eapply partial_grew|]. rewrite <-Hl.
  destruct Hroom as [Hn Hs]. eapply rep_extend; try done. lia.
Qed.
End batch.

(** ** One record at a time

    The reference for [AppendBatch]. *)

Section each.
Context `{SN : Snappy} `{!SnappyLaws SN}.

Fixpoint append_each (records : list LogRecord) : GoM (Segment * world) (list Z) :=
  match records with
  | [] => mret []
  | r :: rs =>
      '(o, _) ← Segment_Append (r_Timestamp r) (r_Key r) (r_Value r);
      os ← append_each rs;
      mret (o :: os)
  end.

(** The files and the counters after the entries [es2]. *)
Definition extended (s : Segment) (li ii : nat) (es2 : list entry) (w : world) : Segment * world :=
  (advance (s_nextOffset s + zlen es2) (zlen (enc_log es2)) (zlen es2) s,
   append_data ii (enc_index (s_size s) es2) (append_data li (enc_log es2) w)).

Lemma extended_cons s li ii e es2 w :
  li ≠ ii → 0 ≤ s_size s → s_size s + zlen (enc e) < 2 ^ 63 →
  uncurry (λ s1 w1, extended s1 li ii es2 w1) (extended s li ii [e] w) = extended s li ii (e :: es2) w.
Proof.
  intros Hne H0 Hs. unfold extended. simpl uncurry. rewrite enc_log_one, enc_log_cons.
  assert (Hsz : i64 (s_size s + zlen (enc e)) = s_size s + zlen (enc e))
    by (apply i64_id; unfold is_i64; lia).
  f_equal.
  - unfold advance. simpl. rewrite !i64_add_l, length_app. f_equal; try (f_equal; lia). lia.
  - simpl enc_index. simpl s_size. rewrite Hsz, app_nil_r.
    rewrite (append_data_comm li ii), append_data_app, append_data_app by done. done.
Qed.

Lemma run_Segment_Append w s li ii es ts key value q :
  reliable w → seg_rep w s li ii es [] [] →
  zlen key ≤ max_u32 → zlen value ≤ max_u32 →
  stored_payload (s_compressed s) (key ++ value) = Some q →
  let e := new_entry (s_nextOffset s) ts key value q in
  room s 1 (zlen (enc e)) →
  Segment_Append ts key value (s, w) =
  (Ok (s_nextOffset s, bytes_saved (s_compressed s) (key ++ value) q), extended s li ii [e] w).
Proof.
  intros Hw R Hk Hv Hq e [Hn Hs]. apply run_wp. pose proof (sr_base _ _ _ _ _ _ _ R).
  eapply wp_Segment_Append; try done; fold e.
  - intros w' Hp. split; [done|]. unfold extended.
    rewrite (u64_id (s_nextOffset s + 1)) by (unfold is_u64; lia). f_equal.
    by eapply after_reliable in Hp.
  - intros err w' [He _]. by destruct (reliable_no_error w err).
Qed.

Lemma run_Segment_AppendBatch w s li ii es records es2 :
  reliable w → seg_rep w s li ii es [] [] → records ≠ [] → Forall record_ok records →
  batch_entries (s_compressed s) (s_nextOffset s) records = Some es2 →
  room s (zlen records) (zlen (enc_log es2)) →
  Segment_AppendBatch records (s, w) =
  (Ok (e_off <$> es2, total_saved (s_compressed s) 0 es2), extended s li ii es2 w).
Proof.
  intros Hw R Hne Hok Hes Hroom. apply run_wp. pose proof (sr_base _ _ _ _ _ _ _ R).
  destruct (batch_entries_consecutive _ _ _ _ Hes) as [Hc Hl].
  assert (Hes2 : Forall entry_ok es2) by (eapply batch_entries_ok; [done|done|lia|apply Hroom]).
  eapply wp_Segment_AppendBatch; try done.
  - intros w' Hp. split; [done|]. unfold extended. rewrite Hl. f_equal.
    by eapply after_reliable in Hp.
  - intros err w' [He _]. by destruct (reliable_no_error w err).
Qed.

Lemma extended_rep w s li ii es es2 :
  seg_rep w s li ii es [] [] → Forall entry_ok es2 → consecutive (s_nextOffset s) es2 →
  room s (zlen es2) (zlen (enc_log es2)) →
  seg_rep (extended s li ii es2 w).2 (extended s li ii es2 w).1 li ii (es ++ es2) [] [].
Proof. intros R Hok Hc [Hn Hs]. apply (rep_extend w); try done. exists 0%nat. by destruct w. Qed.

Lemma extended_nil w s li ii es jl ji :
  seg_rep w s li ii es jl ji → extended s li ii [] w = (s, w).
Proof.
  intros R. pose proof (rep_entries_small _ _ _ _ _ _ _ R). unfold extended. f_equal.
  - unfold advance. rewrite enc_log_nil. simpl. rewrite !Z.add_0_r, !i64_id; [by destruct s| |].
    + rewrite (sr_entries _ _ _ _ _ _ _ R). unfold is_i64. lia.
    + pose proof (sr_size _ _ _ _ _ _ _ R). pose proof (sr_size_ok _ _ _ _ _ _ _ R). unfold is_i64. lia.
  - simpl enc_index. rewrite enc_log_nil, !append_data_nil; [done|eexists; apply R|].
    rewrite append_data_nil; eexists; apply R.
Qed.

Lemma run_append_each w s li ii es records es2 :
  reliable w → seg_rep w s li ii es [] [] → Forall record_ok records →
  batch_entries (s_compressed s) (s_nextOffset s) records = Some es2 →
  room s (zlen records) (zlen (enc_log es2)) →
  append_each records (s, w) = (Ok (e_off <$> es2), extended s li ii es2 w).
Proof.
  revert w s es es2. induction records as [|r rs IH]; intros w s es es2 Hw R Hok H [Hn Hs].
  { simpl in H. simplify_eq. by rewrite (extended_nil _ _ _ _ _ _ _ R). }
  pose proof (batch_entries_consecutive _ _ _ _ H) as [Hc Hl].
  pose proof (sr_base _ _ _ _ _ _ _ R). pose proof (sr_size _ _ _ _ _ _ _ R).
  assert (Hes2 : Forall entry_ok es2) by (eapply batch_entries_ok; [done|done|lia|done]).
  simpl in H. apply bind_Some in H as (q & Hq & H). apply bind_Some in H as (es' & Hes & [= <-]).
  set (e := new_entry _ _ _ _ _) in *.
  apply Forall_cons in Hok as [(Hk & Hv & Ht) Hok]. apply Forall_cons in Hes2 as [He _].
  pose proof (zlen_enc e) as Henc. rewrite zlen_enc_log_cons in Hs. simpl length in Hn.
  assert (Hroom1 : room s 1 (zlen (enc e))) by (split; lia).
  cbn [append_each]. erewrite run_bind by (by eapply run_Segment_Append). fold e. cbn beta iota.
  assert (R1 : seg_rep (extended s li ii [e] w).2 (extended s li ii [e] w).1 li ii (es ++ [e]) [] []).
  { apply extended_rep; [done|by constructor| |by rewrite enc_log_one].
    intros [|k] e' Hk'; [|done]. injection Hk' as <-. apply (Hc 0%nat). done. }
  specialize (IH (extended s li ii [e] w).2 _ _ es' Hw R1 Hok). simpl (s_nextOffset _) in IH. simpl (s_compressed _) in IH.
  assert (Hsz : i64 (s_size s + zlen (enc_log [e])) = s_size s + zlen (enc e))
    by (rewrite enc_log_one, i64_id; [done|unfold is_i64; lia]).
  pose proof (extended_cons s li ii e es' w (sr_ne _ _ _ _ _ _ _ R) ltac:(lia) ltac:(lia)) as Hext.
  rewrite (surjective_pairing (extended s li ii [e] w)) in Hext |- *. simpl uncurry in Hext.
  erewrite run_bind; [|apply IH; [done|]].
  - unfold mret, gom_ret. rewrite <-Hext. done.
  - split; simpl; [lia|]. rewrite Hsz. lia.
Qed.
End each.
