(* ===== verification/SegmentOpen.v ===== *)
(** * Opening, closing and deleting a segment

    [NewSegment] on the files of a represented segment gives the segment back;
    on fresh names it creates an empty one; [Close] always leaves the segment
    closed, and a closed segment refuses every read and write. *)

From S2P Require Import Prelude GoNum OS Snappy Segment SegmentRep SegmentRead SegmentWrite.

(** ** Close *)

Definition closed (s : Segment) : Segment := set_handles None None None None s.

(** A closed segment has no file left to work on. *)
Lemma closed_append `{SN : Snappy} s w ts key value q :
  zlen key ≤ max_u32 → zlen value ≤ max_u32 →
  stored_payload (s_compressed s) (key ++ value) = Some q →
  Segment_Append ts key value (closed s, w) = (Err ErrInvalid, (closed s, w)).
Proof.
  intros Hk Hv Hq. unfold Segment_Append.
  destruct (Z.ltb_spec max_u32 (zlen key)); [lia|]. destruct (Z.ltb_spec max_u32 (zlen value)); [lia|].
  erewrite run_bind by done. cbn beta iota.
  erewrite run_bind by (rewrite compress_run; change (s_compressed (closed s)) with (s_compressed s); by rewrite Hq).
  apply run_bind_err. unfold lift_snd.
  set (h := header_bytes _ _ _ _). assert (length h = 24%nat) as Hh by apply length_header_bytes.
  unfold writeAll. rewrite Hh. by destruct h.
Qed.

Lemma closed_readIndexEntry s w p : readIndexEntry (closed s) p w = (Err ErrInvalid, w).
Proof. done. Qed.

Lemma closed_read `{SN : Snappy} w s li ii es jl ji w' e :
  seg_rep w s li ii es jl ji → e ∈ es →
  Segment_Read (closed s) (e_off e) w' = (Err ErrInvalid, w').
Proof.
  intros R [i Hi]%list_elem_of_lookup. pose proof (rep_entry_range _ _ _ _ _ _ _ R i e Hi).
  unfold Segment_Read. change (s_baseOffset (closed s)) with (s_baseOffset s).
  change (s_nextOffset (closed s)) with (s_nextOffset s).
  destruct (Z.ltb_spec (e_off e) (s_baseOffset s)); [lia|].
  destruct (Z.leb_spec (s_nextOffset s) (e_off e)); [lia|]. cbn [orb].
  apply run_bind_err. unfold findMessageBounds.
  change (s_indexEntries (closed s)) with (s_indexEntries s).
  rewrite (sr_entries _ _ _ _ _ _ _ R). apply lookup_lt_Some in Hi.
  destruct (Z.eqb_spec (zlen es) 0); [lia|].
  assert (Hs : search_offset (Z.to_nat (zlen es)) (closed s) (zlen es) (e_off e) 0 (zlen es - 1) w' =
    (Err ErrInvalid, w')).
  { rewrite Nat2Z.id. destruct (length es) eqn:Hl; [lia|]. simpl search_offset.
    destruct (Z.leb_spec 0 (Z.of_nat (S n0) - 1)); [|lia]. done. }
  by destruct (_ && _).
Qed.

Definition io_errs (w : world) (errs : list (option goerr)) : Prop :=
  Forall (λ o, ∀ e, o = Some e → io_error w e) errs.

Lemma io_errs_ro w w' errs : ro w w' → io_errs w' errs → io_errs w errs.
Proof.
  intros Hr H. eapply Forall_impl; [exact H|]. intros o Ho e He. eapply io_error_ro; eauto.
Qed.

Lemma wp_err_of {S A} (m : GoM S A) Q E s :
  wp m (λ _, Q None) (λ e, Q (Some e)) s → wp (err_of m) Q E s.
Proof. intros H. unfold err_of. wp_step. apply wp_attempt. exact H. Qed.

Lemma wp_close_file sync f Q E w :
  (∀ errs w', ro w w' → io_errs w errs → Q errs w') → wp (close_file sync f) Q E w.
Proof.
  intros HQ. unfold close_file. destruct f as [[i]|].
  2: { apply wp_ret, HQ; [apply ro_refl|constructor]. }
  wp_step. apply (wp_mono _ (λ errs w', ro w w' ∧ io_errs w errs) _ (λ _ _, False)); [| |done].
  - destruct sync; wp_steps.
    + apply wp_err_of, wp_Sync; intros; wp_steps; (split; [done|]);
        (constructor; [naive_solver|constructor]).
    + split; [apply ro_refl|constructor].
  - intros e1 w1 [R1 H1]. cbn beta. wp_step. apply wp_err_of, wp_Close; intros; wp_steps; apply HQ.
    1, 3: by etrans.
    all: apply Forall_app; split; [done|]; constructor; [|constructor]; intros; simplify_eq.
    eapply io_error_ro; eauto.
Qed.

Lemma first_error_io w errs e : io_errs w errs → first_error errs = Some e → io_error w e.
Proof.
  induction 1 as [|o errs Ho _ IH]; intros He; [done|]. simpl in He.
  destruct o; [simplify_eq; by apply Ho|auto].
Qed.

Lemma wp_Segment_Close s w Q E :
  (∀ w', ro w w' → Q tt (closed s, w')) →
  (∀ e w', ro w w' → io_error w e → E e (closed s, w')) →
  wp Segment_Close Q E (s, w).
Proof.
  intros HQ HE. unfold Segment_Close. wp_steps.
  apply wp_close_file. intros errs1 w1 R1 H1. wp_steps.
  apply wp_close_file. intros errs2 w2 R2 H2. wp_steps.
  apply wp_close_file. intros errs3 w3 R3 H3. wp_steps.
  apply wp_close_file. intros errs4 w4 R4 H4. wp_steps.
  assert (Hr : ro w w4) by ro_solve.
  destruct (first_error _) as [e|] eqn:He; wp_steps; [|by apply HQ].
  apply HE; [done|]. eapply first_error_io; [|exact He]. unfold io_errs.
  rewrite !Forall_app. split_and!; [done|eapply (io_errs_ro _ w1)..]; try done; [eapply (io_errs_ro _ w2)|eapply (io_errs_ro _ w3)]; try done; ro_solve.
Qed.

Lemma quiet_Segment_Close s : quiet (ignore (on_local s Segment_Close)).
Proof.
  apply quiet_ignore. intros w.
  pose proof (wp_Segment_Close s w (λ _ p, ro w p.2) (λ _ p, ro w p.2)) as H.
  unfold wp, on_local in *. specialize (H ltac:(done) ltac:(done)).
  by destruct (Segment_Close (s, w)) as [[] [s' w']].
Qed.

(** ** Opening existing files *)

(** What [NewSegment] makes of the contents of the two files. *)
Definition open_result (dir : bytes) (base : Z) (li ii : nat) (ldata idata : bytes) : outcome Segment :=
  let n := zlen idata / 16 in
  if negb (zlen idata `mod` 16 =? 0) then Err (EMsg "invalid index file size %d" [AInt (zlen idata)])
  else if (zlen ldata =? 0) && negb (zlen idata =? 0)
  then Err (EMsg "index contains entries but log file is empty" [])
  else if negb (zlen ldata =? 0) && (zlen idata =? 0)
  then Err (EMsg "log file contains data but index is empty" [])
  else
    let lastOffset := be_get (zsub 0 8 (zsub ((n - 1) * 16) ((n - 1) * 16 + 16) idata)) in
    Ok (mkSegment dir base (if 0 <? n then u64 (lastOffset + 1) else base) (zlen ldata) n false
          (Some (File li)) (Some (File li)) (Some (File ii)) (Some (File ii))).

(** The two files of a segment. *)
Definition has_files (w : world) (dir : bytes) (base : Z) (li ii : nat) : Prop :=
  entries w dir !! logName base = Some (EFile li) ∧
  entries w dir !! indexName base = Some (EFile ii).

Lemma has_files_ro w w' dir base li ii : ro w w' → has_files w dir base li ii → has_files w' dir base li ii.
Proof. intros Hr [H1 H2]. split; by rewrite (ro_entries w w'). Qed.

(** The tail of [NewSegment], from the sizes of the files on. *)
Lemma reads_readIndexOffset_raw s ii w n :
  s_indexRead s = Some (File ii) → 0 ≤ n → n + 16 ≤ zlen (content w ii) →
  reads (readIndexOffset s n) w (Ok (be_get (zsub 0 8 (zsub n (n + 16) (content w ii))))).
Proof.
  intros Hs Hn Hl. unfold readIndexOffset, readIndexEntry. rewrite Hs.
  eapply reads_bind; [eapply reads_bind; [by apply reads_ReadAt|]; intros; apply reads_ret|].
  intros. cbn beta iota. apply reads_ret.
Qed.

Lemma Zrem_mod_nonneg a b : 0 ≤ a → 0 < b → Z.rem a b = a `mod` b ∧ Z.quot a b = a / b.
Proof. intros. split; [by apply Z.rem_mod_nonneg|by apply Z.quot_div_nonneg]. Qed.

Lemma reads_init_segment w dir base li ii :
  reads (init_segment dir base (File li) (File li) (File ii) (File ii)) w
    (open_result dir base li ii (content w li) (content w ii)).
Proof.
  unfold init_segment, drop_file. assert (Hq := quiet_Close). assert (Hqs := quiet_seq). cbv zeta.
  eapply reads_bind; [apply reads_on_error; [apply reads_Stat|auto 10]|]. intros w1 R1.
  eapply reads_bind; [apply reads_on_error; [apply reads_Stat|auto 10]|]. intros w2 R2.
  rewrite (ro_content w w1 ii) by done.
  set (ld := content w li). set (id := content w ii).
  destruct (Zrem_mod_nonneg (zlen id) 16) as [Hrem Hquot]; [lia|lia|].
  unfold open_result, indexEntrySize. rewrite Hrem, Hquot.
  destruct (negb (zlen id `mod` 16 =? 0)) eqn:Hmod.
  { apply reads_quiet_bind; [auto 10|]. intros. apply reads_throw. }
  apply negb_false_iff, Z.eqb_eq in Hmod. pose proof (Z.div_mod (zlen id) 16) as Hdiv.
  set (seg := mkSegment _ _ _ _ _ _ _ _ _ _).
  pose proof (quiet_Segment_Close seg) as Hcl.
  set (n := zlen id / 16) in *.
  apply (reads_bind _ _ _ (if 0 <? n then
    set_nextOffset (u64 (be_get (zsub 0 8 (zsub ((n - 1) * 16) ((n - 1) * 16 + 16) id)) + 1)) seg
    else seg)).
  { destruct (Z.ltb_spec 0 n); [|apply reads_ret].
    eapply reads_bind; [apply reads_on_error; [|done]|intros; apply reads_ret].
    unfold id at 1. rewrite <-(ro_content w w2 ii) by ro_solve.
    apply reads_readIndexOffset_raw; [done|lia|]. rewrite (ro_content w w2 ii) by ro_solve. fold id. lia. }
  intros w3 R3.
  destruct ((zlen ld =? 0) && negb (zlen id =? 0)).
  { apply reads_quiet_bind; [done|]. intros. apply reads_throw. }
  destruct (negb (zlen ld =? 0) && (zlen id =? 0)).
  { apply reads_quiet_bind; [done|]. intros. apply reads_throw. }
  destruct (0 <? n); apply reads_ret.
Qed.

Lemma reads_NewSegment w dir base li ii :
  has_files w dir base li ii →
  reads (NewSegment dir base) w (open_result dir base li ii (content w li) (content w ii)).
Proof.
  intros Hf. destruct (Hf) as [Hl Hi]. unfold NewSegment, drop_file.
  assert (Hd : is_Some (w_dirs w !! dir)) by (rewrite (entries_Some _ _ _ _ Hl); eauto).
  assert (Hq := quiet_Close). assert (Hqs := quiet_seq). cbv zeta.
  eapply reads_bind; [by apply reads_MkdirAll|]. intros w1 R1.
  assert (F1 := has_files_ro _ _ _ _ _ _ R1 Hf).
  eapply reads_bind; [apply reads_OpenAppend, F1|]. intros w2 R2.
  assert (F2 := has_files_ro _ _ _ _ _ _ R2 F1).
  eapply reads_bind; [apply reads_on_error; [apply reads_Open, F2|auto]|]. intros w3 R3.
  assert (F3 := has_files_ro _ _ _ _ _ _ R3 F2).
  eapply reads_bind; [apply reads_on_error; [apply reads_OpenAppend, F3|auto]|]. intros w4 R4.
  assert (F4 := has_files_ro _ _ _ _ _ _ R4 F3).
  eapply reads_bind; [apply reads_on_error; [apply reads_Open, F4|auto]|]. intros w5 R5.
  rewrite <-(ro_content w w5 li), <-(ro_content w w5 ii) by ro_solve. apply reads_init_segment.
Qed.

(** The files of [es], both empty or both not, reopen as [es]. *)
Definition next_after (base : Z) (es : list entry) : Z :=
  match last es with Some e => e_off e + 1 | None => base end.

Definition reopened (dir : bytes) (base : Z) (li ii : nat) (es : list entry) : Segment :=
  mkSegment dir base (next_after base es) (zlen (enc_log es)) (zlen es) false
    (Some (File li)) (Some (File li)) (Some (File ii)) (Some (File ii)).

(** Entries that fit a segment based at [base]. *)
Definition fits (base : Z) (es : list entry) : Prop :=
  Forall entry_ok es ∧ StronglySorted (λ a b, e_off a < e_off b) es ∧
  Forall (λ e, base ≤ e_off e < 2 ^ 64 - 1) es ∧ 0 ≤ base < 2 ^ 64 ∧ zlen (enc_log es) < 2 ^ 63.

Lemma fits_small base es : fits base es → zlen es < 2 ^ 60.
Proof. intros (_ & _ & _ & _ & H). pose proof (zlen_enc_log_lower es). lia. Qed.

(** What a batch stores fits. *)
Lemma batch_fits `{SN : Snappy} `{!SnappyLaws SN} c base records es :
  batch_entries c base records = Some es → Forall record_ok records →
  0 ≤ base → base + zlen records < 2 ^ 64 → zlen (enc_log es) < 2 ^ 63 → fits base es.
Proof.
  intros Hb Hr H0 H64 Hsize. destruct (batch_entries_consecutive _ _ _ _ Hb) as [Hcons Hlen].
  split_and!; [by eapply batch_entries_ok|by eapply consecutive_sorted| |done|lia|done].
  apply Forall_lookup_2. intros k e Hk. rewrite (Hcons k e Hk). apply lookup_lt_Some in Hk. lia.
Qed.

Lemma next_after_spec base es : fits base es →
  base ≤ next_after base es < 2 ^ 64 ∧ Forall (λ e, base ≤ e_off e < next_after base es) es.
Proof.
  intros (_ & Hs & Hr & Hb & _). unfold next_after.
  destruct (last es) as [l|] eqn:Hl; [|by apply last_None in Hl as ->; split; [lia|]].
  rewrite last_lookup in Hl. pose proof (Forall_lookup_1 _ _ _ _ Hr Hl) as Hlr. simpl in Hlr.
  split; [lia|]. apply Forall_lookup_2. intros i e He.
  pose proof (Forall_lookup_1 _ _ _ _ Hr He) as Her. simpl in Her.
  pose proof (lookup_lt_Some _ _ _ He).
  destruct (decide (i = pred (length es))) as [->|]; [simplify_eq; lia|].
  pose proof (sorted_lookup es i (pred (length es)) e l Hs He Hl). lia.
Qed.

Lemma open_result_rep dir base li ii es :
  fits base es →
  open_result dir base li ii (enc_log es) (enc_index 0 es) = Ok (reopened dir base li ii es).
Proof.
  intros Hf. pose proof (fits_small _ _ Hf). pose proof (next_after_spec _ _ Hf) as [Hn _].
  unfold open_result. rewrite zlen_enc_index. rewrite (Z.mul_comm 16), Z.mod_mul, Z.div_mul by lia.
  cbn [Z.eqb negb].
  destruct (last es) as [l|] eqn:Hl.
  2: { apply last_None in Hl as ->. rewrite enc_log_nil. done. }
  rewrite last_lookup in Hl. pose proof (lookup_lt_Some _ _ _ Hl).
  pose proof (zlen_enc_log_lower es).
  destruct (Z.eqb_spec (zlen (enc_log es)) 0); [lia|].
  destruct (Z.eqb_spec (zlen es * 16) 0); [lia|]. cbn [negb andb].
  destruct (Z.ltb_spec 0 (zlen es)); [|lia].
  pose proof (index_at es [] _ _ Hl) as Hi. rewrite app_nil_r in Hi.
  replace ((zlen es - 1) * 16) with (16 * Z.of_nat (pred (length es))) by lia. rewrite Hi.
  destruct (index_fields (e_off l) (pos_of es (pred (length es)))) as [-> _].
  { by destruct (Forall_lookup_1 entry_ok es _ _ (proj1 Hf) Hl). }
  { pose proof (pos_of_le es (pred (length es))). destruct Hf as (_&_&_&_&?). unfold is_u64. lia. }
  assert (Hna : next_after base es = e_off l + 1) by (unfold next_after; by rewrite last_lookup, Hl).
  unfold reopened. rewrite Hna in *. destruct Hf as (_ & _ & _ & Hb & _).
  do 2 f_equal. apply u64_id. unfold is_u64. lia.
Qed.

Lemma reopened_rep w dir base li ii es :
  fits base es → li ≠ ii →
  w_data w !! li = Some (enc_log es) → w_data w !! ii = Some (enc_index 0 es) →
  seg_rep w (reopened dir base li ii es) li ii es [] [].
Proof.
  intros Hf Hne Hl Hi. pose proof (next_after_spec _ _ Hf) as [Hn Hr].
  destruct Hf as (Hok & Hs & _ & Hb & Hsz).
  split; simpl; try done; rewrite ?app_nil_r; try done; lia.
Qed.

Lemma rep_fits w s li ii es jl ji : seg_rep w s li ii es jl ji → fits (s_baseOffset s) es.
Proof.
  intros R. split_and!; try apply R.
  - eapply Forall_impl; [exact (sr_range _ _ _ _ _ _ _ R)|]. simpl. intros e He. pose proof (sr_next _ _ _ _ _ _ _ R). lia.
  - pose proof (sr_base _ _ _ _ _ _ _ R). pose proof (sr_next _ _ _ _ _ _ _ R). lia.
  - pose proof (sr_size _ _ _ _ _ _ _ R). pose proof (sr_size_ok _ _ _ _ _ _ _ R). lia.
Qed.

(** ** A torn log file

    Log bytes that no index entry covers, as a crash between the two writes of
    an append leaves them, become part of the last entry's payload. *)

Definition torn (e : entry) (junk : bytes) : entry := mkEntry (e_msg e) (e_payload e ++ junk).

Lemma enc_torn e junk : enc (torn e junk) = enc e ++ junk.
Proof. rewrite !enc_split. simpl. by rewrite app_assoc. Qed.

Lemma enc_log_torn es e junk : enc_log (es ++ [torn e junk]) = enc_log (es ++ [e]) ++ junk.
Proof. by rewrite !enc_log_app, !enc_log_one, enc_torn, app_assoc. Qed.

Lemma enc_index_torn es e junk : enc_index 0 (es ++ [torn e junk]) = enc_index 0 (es ++ [e]).
Proof. by rewrite !enc_index_app. Qed.

Lemma Forall_snoc {A} (P : A → Prop) l x : Forall P (l ++ [x]) ↔ Forall P l ∧ P x.
Proof. rewrite Forall_app, Forall_singleton. done. Qed.

Lemma sorted_torn es e junk :
  StronglySorted (λ a b, e_off a < e_off b) (es ++ [e]) →
  StronglySorted (λ a b, e_off a < e_off b) (es ++ [torn e junk]).
Proof.
  induction es as [|a es IH]; simpl; intros H; [repeat constructor|].
  inversion_clear H as [|? ? Hs Ha]. constructor; [by apply IH|].
  rewrite Forall_snoc in *. done.
Qed.

Lemma fits_torn base es e junk :
  fits base (es ++ [e]) → zlen (e_payload e) + zlen junk ≤ max_alloc →
  zlen (enc_log (es ++ [e])) + zlen junk < 2 ^ 63 → fits base (es ++ [torn e junk]).
Proof.
  intros (Hok & Hs & Hr & Hb & Hsz) Hj Hl. rewrite Forall_snoc in Hok, Hr.
  destruct Hok as [Hok (O1 & O2 & O3 & O4 & _)]. split_and!; try apply Hb.
  - apply Forall_snoc. split; [done|]. split_and!; try done. simpl. rewrite length_app. lia.
  - by apply sorted_torn.
  - by apply Forall_snoc.
  - rewrite enc_log_torn, length_app. lia.
Qed.

(** ** Creating a segment *)

Lemma logName_indexName b1 b2 : logName b1 ≠ indexName b2.
Proof.
  unfold logName, indexName. intros H. apply (f_equal last) in H.
  change (str ".log") with (str ".lo" ++ str "g") in H.
  change (str ".index") with (str ".inde" ++ str "x") in H.
  rewrite !app_assoc, !last_app in H. done.
Qed.

Lemma segmentBaseOffset_logName b : is_u64 b → segmentBaseOffset (logName b) = Some b.
Proof.
  intros Hb. unfold segmentBaseOffset, logName. rewrite HasSuffix_app, TrimSuffix_app.
  by apply ParseUint_FormatUint.
Qed.

Lemma segmentBaseOffset_indexName b : segmentBaseOffset (indexName b) = None.
Proof.
  unfold segmentBaseOffset, indexName. destruct (HasSuffix _ _) eqn:H; [|done].
  apply HasSuffix_inv in H as [p H]. apply (f_equal last) in H.
  change (str ".log") with (str ".lo" ++ str "g") in H.
  change (str ".index") with (str ".inde" ++ str "x") in H.
  rewrite !app_assoc, !last_app in H. done.
Qed.

Lemma logName_inj b1 b2 : is_u64 b1 → is_u64 b2 → logName b1 = logName b2 → b1 = b2.
Proof. unfold logName. intros H1 H2 H%(inj (λ l, l ++ _)). by apply FormatUint_inj. Qed.

Lemma indexName_inj b1 b2 : is_u64 b1 → is_u64 b2 → indexName b1 = indexName b2 → b1 = b2.
Proof. unfold indexName. intros H1 H2 H%(inj (λ l, l ++ _)). by apply FormatUint_inj. Qed.

Definition mkdir (dir : bytes) (w : world) : world :=
  match w_dirs w !! dir with
  | Some _ => w
  | None => set_dirs (<[dir := ∅]> (w_dirs w)) w
  end.

Definition created_segment (dir : bytes) (base : Z) (w : world) : world :=
  create_file dir (indexName base) (create_file dir (logName base) (mkdir dir w)).

(** Existing inodes keep their contents. *)
Definition extends (dir : bytes) (base : Z) (w w' : world) : Prop :=
  (w_next w ≤ w_next w')%nat ∧
  (∀ i, (i < w_next w)%nat → w_data w' !! i = w_data w !! i) ∧
  (∀ d name, d ≠ dir ∨ name ≠ logName base ∧ name ≠ indexName base →
    entries w' d !! name = entries w d !! name).

Lemma extends_trans dir base w1 w2 w3 :
  extends dir base w1 w2 → extends dir base w2 w3 → extends dir base w1 w3.
Proof.
  intros (H1 & H2 & H3) (H4 & H5 & H6). split_and!; [lia| |].
  - intros i Hi. rewrite H5 by lia. by apply H2.
  - intros d name Hd. rewrite H6 by done. by apply H3.
Qed.

Lemma extends_ro dir base w w' : ro w w' → extends dir base w w'.
Proof. by intros [k ->]. Qed.

Lemma extends_after dir base w w0 w' : extends dir base w w0 → after w w0 w' → extends dir base w w'.
Proof. intros H [k ->]. exact H. Qed.

Lemma entries_mkdir dir d w : entries (mkdir dir w) d = entries w d.
Proof.
  unfold mkdir, entries. destruct (w_dirs w !! dir) eqn:H; [done|]. simpl.
  destruct (decide (dir = d)) as [->|]; [by rewrite lookup_insert_eq, H|by rewrite lookup_insert_ne].
Qed.

Lemma extends_mkdir dir base w : extends dir base w (mkdir dir w).
Proof.
  unfold extends. split_and!; [unfold mkdir; by destruct (w_dirs w !! dir)..|].
  intros d name _. by rewrite entries_mkdir.
Qed.

Lemma extends_create dir base name w :
  name = logName base ∨ name = indexName base → extends dir base w (create_file dir name w).
Proof.
  intros Hname. split_and!; simpl; [lia| |].
  - intros i Hi. by rewrite lookup_insert_ne by lia.
  - intros d n Hn. unfold entries at 1. simpl. destruct (decide (dir = d)) as [<-|].
    + rewrite lookup_insert_eq. simpl. apply lookup_insert_ne. naive_solver.
    + by rewrite lookup_insert_ne.
Qed.

Lemma after_step w w0 w1 w2 (f : world → world) :
  (∀ l v, f (set_faults l v) = set_faults l (f v)) →
  after w w0 w1 → after w1 (f w1) w2 → after w (f w0) w2.
Proof.
  intros Hf [k1 ->] [k2 ->]. exists (k1 + k2)%nat. simpl. rewrite Hf, drop_drop. done.
Qed.

Lemma mkdir_faults dir l v : mkdir dir (set_faults l v) = set_faults l (mkdir dir v).
Proof. unfold mkdir. simpl. by destruct (w_dirs v !! dir). Qed.

Lemma wp_MkdirAll dir (Q : unit → world → Prop) (E : goerr → world → Prop) w :
  (∀ w', after w (mkdir dir w) w' → Q tt w') → (∀ e w', ro w w' → io_error w e → E e w') →
  wp (os_MkdirAll dir) Q E w.
Proof.
  intros HQ HE. apply wp_sys; [|done]. intros w' Hr. apply wp_modify, HQ.
  destruct Hr as [k ->]. exists k. apply mkdir_faults.
Qed.

Lemma mkdir_dir dir w : is_Some (w_dirs (mkdir dir w) !! dir).
Proof. unfold mkdir. destruct (w_dirs w !! dir) eqn:H; [by eexists|]. simpl. rewrite lookup_insert_eq. eauto. Qed.

Lemma mkdir_entries dir w : entries (mkdir dir w) dir = entries w dir.
Proof.
  unfold mkdir, entries. destruct (w_dirs w !! dir) eqn:H; [by rewrite H|]. simpl. by rewrite lookup_insert_eq.
Qed.

Lemma wp_OpenAppend_fresh dir name (Q : file → world → Prop) (E : goerr → world → Prop) w :
  is_Some (w_dirs w !! dir) → entries w dir !! name = None →
  (∀ w', after w (create_file dir name w) w' → Q (File (w_next w)) w') →
  (∀ e w', ro w w' → io_error w e → E e w') →
  wp (os_OpenAppend dir name) Q E w.
Proof.
  intros [ents Hd] Hn HQ HE. apply wp_sys; [|done]. intros w' [k ->]. unfold wp. simpl.
  rewrite Hd. unfold entries in Hn. rewrite Hd in Hn. simpl in Hn. rewrite Hn.
  apply HQ. by exists k.
Qed.

Lemma entries_create dir name w :
  entries (create_file dir name w) dir = <[name := EFile (w_next w)]> (entries w dir).
Proof. unfold entries at 1. simpl. by rewrite lookup_insert_eq. Qed.

Lemma entries_create_ne dir dir' name w :
  dir ≠ dir' → entries (create_file dir name w) dir' = entries w dir'.
Proof. intros. unfold entries at 1. simpl. by rewrite lookup_insert_ne. Qed.

Lemma dir_create dir name w : is_Some (w_dirs (create_file dir name w) !! dir).
Proof. simpl. rewrite lookup_insert_eq. eauto. Qed.

Lemma next_create dir name w : w_next (create_file dir name w) = S (w_next w).
Proof. done. Qed.
Lemma data_create dir name w : w_data (create_file dir name w) = <[w_next w := []]> (w_data w).
Proof. done. Qed.
Lemma next_mkdir dir w : w_next (mkdir dir w) = w_next w.
Proof. unfold mkdir. by destruct (w_dirs w !! dir). Qed.
Lemma data_mkdir dir w : w_data (mkdir dir w) = w_data w.
Proof. unfold mkdir. by destruct (w_dirs w !! dir). Qed.

Lemma after_entries w w0 w1 d : after w w0 w1 → entries w1 d = entries w0 d.
Proof. by intros [k ->]. Qed.
Lemma after_content w w0 w1 i : after w w0 w1 → content w1 i = content w0 i.
Proof. by intros [k ->]. Qed.

Lemma created_files dir base w :
  let w0 := created_segment dir base w in
  let n := w_next w in
  has_files w0 dir base n (S n) ∧ w_next w0 = S (S n) ∧
  w_data w0 = <[S n := []]> (<[n := []]> (w_data w)) ∧
  entries w0 dir = <[indexName base := EFile (S n)]> (<[logName base := EFile n]> (entries w dir)).
Proof.
  cbv zeta. set (w0 := created_segment dir base w).
  assert (He : entries w0 dir =
    <[indexName base := EFile (S (w_next w))]> (<[logName base := EFile (w_next w)]> (entries w dir))).
  { unfold w0, created_segment. by rewrite !entries_create, mkdir_entries, next_create, next_mkdir. }
  split_and!; [split| | |done].
  3: unfold w0, created_segment; by rewrite !next_create, next_mkdir.
  3: unfold w0, created_segment; by rewrite !data_create, next_create, next_mkdir, data_mkdir.
  - rewrite He, lookup_insert_ne by (intros H; by eapply logName_indexName). apply lookup_insert_eq.
  - rewrite He. apply lookup_insert_eq.
Qed.

Lemma extends_created dir base w : extends dir base w (created_segment dir base w).
Proof.
  eapply extends_trans; [apply extends_mkdir|].
  eapply extends_trans; apply extends_create; [by left|by right].
Qed.

Lemma wp_NewSegment_fresh dir base (Q : Segment → world → Prop) (E : goerr → world → Prop) w :
  entries w dir !! logName base = None → entries w dir !! indexName base = None →
  (∀ w', after w (created_segment dir base w) w' →
    Q (reopened dir base (w_next w) (S (w_next w)) []) w') →
  (∀ e w', io_error w e → extends dir base w w' → E e w') →
  wp (NewSegment dir base) Q E w.
Proof.
  intros Hl Hi HQ HE. unfold NewSegment, drop_file.
  assert (Hq := quiet_Close). assert (Hqs := quiet_seq).
  destruct (created_files dir base w) as (Hfiles & _ & Hdata & _).
  wp_step. apply wp_MkdirAll; [|intros; apply HE; [done|by apply extends_ro]].
  intros w1 A1. cbv zeta. wp_step. apply wp_OpenAppend_fresh.
  { rewrite (after_dirs _ _ _ A1). apply mkdir_dir. }
  { by rewrite (after_entries _ _ _ _ A1), mkdir_entries. }
  2: { intros e w2 R2 He. apply HE; [by eapply io_error_after|].
       eapply extends_trans; [|by apply extends_ro]. eapply extends_after; [apply extends_mkdir|done]. }
  intros w2 A2'. assert (A2 := after_step w _ w1 w2 (create_file dir (logName base)) ltac:(done) A1 A2').
  assert (Hx2 : extends dir base w (create_file dir (logName base) (mkdir dir w)))
    by (eapply extends_trans; [apply extends_mkdir|apply extends_create; by left]).
  rewrite (after_next _ _ _ A1). clear A2'.
  pose proof (next_mkdir dir w) as Hn. rewrite Hn. wp_step. apply wp_on_error_quiet; [apply Hq|].
  assert (Hl2 : entries w2 dir !! logName base = Some (EFile (w_next w))).
  { by rewrite (after_entries _ _ _ _ A2), entries_create, lookup_insert_eq, Hn. }
  eapply wp_reads; [by apply reads_Open| |].
  2: { intros. apply HE; [by eapply io_error_after|].
       eapply extends_trans; [by eapply extends_after|apply extends_ro; ro_solve]. }
  intros w3 R3. assert (A3 := after_ro _ _ _ _ A2 R3).
  wp_step. apply wp_on_error_quiet; [auto|]. apply wp_OpenAppend_fresh.
  { rewrite (after_dirs _ _ _ A3). apply dir_create. }
  { rewrite (after_entries _ _ _ _ A3), entries_create, lookup_insert_ne, mkdir_entries; [done|].
    apply logName_indexName. }
  2: { intros. apply HE; [by eapply io_error_after|].
       eapply extends_trans; [by eapply extends_after|apply extends_ro; ro_solve]. }
  intros w4 A4'. assert (A4 := after_step w _ w3 w4 (create_file dir (indexName base)) ltac:(done) A3 A4').
  fold (created_segment dir base w) in A4. rewrite (after_next _ _ _ A3). rewrite next_create, Hn. clear A4'.
  assert (Hx4 : extends dir base w w4).
  { eapply extends_after; [|exact A4]. eapply extends_trans; [exact Hx2|apply extends_create; by right]. }
  eapply (wp_reads _ _ (reopened dir base (w_next w) (S (w_next w)) [])).
  2: { intros w5 R5. apply HQ. by eapply after_ro. }
  2: { intros e w5 R5 He. apply HE; [by eapply io_error_after|].
       eapply extends_trans; [exact Hx4|by apply extends_ro]. }
  eapply reads_bind; [apply reads_on_error; [apply reads_Open|auto]|].
  { rewrite (after_entries _ _ _ _ A4). apply Hfiles. }
  intros w5 R5. pose proof (reads_init_segment w5 dir base (w_next w) (S (w_next w))) as Hinit.
  rewrite !(ro_content w4 w5) in Hinit by done. unfold content in Hinit.
  rewrite (after_data _ _ _ A4), Hdata, lookup_insert_eq, lookup_insert_ne, lookup_insert_eq in Hinit by lia.
  exact Hinit.
Qed.
