(* ===== verification/SegmentProps.v ===== *)
(** * Properties of a segment

    The correctness theorems of internal/log/segment.go.  Unless a theorem asks
    for a [reliable] world, it holds for every pattern of I/O errors and short
    writes. *)

From S2P Require Import Prelude GoNum OS Snappy Segment SegmentRep SegmentRead SegmentWrite SegmentOpen.

(** ** A segment to evaluate the theorems at

    A compressed segment with base offset 5 holding two messages, on a world
    whose next call fails. *)

Section example.
Local Existing Instances rle_snappy rle_laws.

Definition ex_dir : bytes := str "topics/orders/0".

Definition ex_empty : Segment := Segment_SetCompressed true (reopened ex_dir 5 0 1 []).

Definition ex_created : world := created_segment ex_dir 5 empty_world.

Definition ex_records : list LogRecord :=
  [mkRecord 1000 (str "k1") (str "aaaaaaaaaaaa"); mkRecord 1001 (str "aaa") (str "aaaaaaaaa")].

Definition ex_entries : list entry :=
  default [] (batch_entries true 5 ex_records).

Definition ex_segment : Segment := (extended ex_empty 0 1 ex_entries ex_created).1.

Definition ex_stored : world := (extended ex_empty 0 1 ex_entries ex_created).2.

(** The same, on a device that fails. *)
Definition ex_faulty : world := set_faults [FShort 3; FErr 2 28; FOk] ex_stored.

Lemma ex_rep_empty : seg_rep ex_created ex_empty 0 1 [] [] [].
Proof. split; try done; try constructor; vm_compute; done. Qed.

Lemma ex_records_ok : Forall record_ok ex_records.
Proof. repeat constructor; vm_compute; done. Qed.

Lemma ex_batch : batch_entries true 5 ex_records = Some ex_entries.
Proof. by vm_compute. Qed.

Lemma ex_rep : seg_rep ex_stored ex_segment 0 1 ex_entries [] [].
Proof.
  apply (extended_rep _ _ _ _ [] _ ex_rep_empty).
  - by apply (batch_entries_ok _ _ _ _ ex_batch ex_records_ok); vm_compute.
  - by apply (batch_entries_consecutive _ _ _ _ ex_batch).
  - split; by vm_compute.
Qed.

Lemma rep_faults l w s li ii es jl ji :
  seg_rep w s li ii es jl ji → seg_rep (set_faults l w) s li ii es jl ji.
Proof. intros R. by destruct R. Qed.

Lemma ex_rep_faulty : seg_rep ex_faulty ex_segment 0 1 ex_entries [] [].
Proof. apply rep_faults, ex_rep. Qed.
End example.

(** ** Appending *)

Section append.
Context `{SN : Snappy} `{!SnappyLaws SN}.

(** A stored message that decodes is what its offset reads back as. *)
Lemma reads_stored w s li ii es jl ji i e :
  seg_rep w s li ii es jl ji → es !! i = Some e → decodes (s_compressed s) e →
  reads (Segment_Read s (e_off e)) w (Ok (e_msg e)).
Proof. intros R Hi Hd. rewrite <-(read_result_decodes _ _ Hd). by eapply reads_Segment_Read_at. Qed.

(** What was stored before reads as it did. *)
Lemma reads_kept w s li ii es es2 jl ji e :
  seg_rep w s li ii (es ++ es2) jl ji → e ∈ es →
  reads (Segment_Read s (e_off e)) w (read_result (s_compressed s) e).
Proof.
  intros R [i Hi]%list_elem_of_lookup. eapply (reads_Segment_Read_at _ _ _ _ _ _ _ i); [exact R|].
  by apply lookup_app_l_Some.
Qed.

Lemma write_failed_kept w s li ii es err w' e :
  write_failed w s li ii es err w' → e ∈ es →
  reads (Segment_Read s (e_off e)) w' (read_result (s_compressed s) e).
Proof. intros (_ & _ & jl & ji & R) He. eapply (reads_kept _ _ _ _ es []); rewrite ?app_nil_r; done. Qed.

(** [Append] then [Read]: an append that succeeds returns the next offset,
    that offset reads back as the message appended, and every message stored
    before still reads as it did; an append that fails leaves the segment's
    counters as they were and every message stored before still readable,
    whatever part of the record reached the disk. *)
Theorem append_then_read w s li ii es ts key value q :
  seg_rep w s li ii es [] [] →
  zlen key ≤ max_u32 → zlen value ≤ max_u32 → is_i64 ts →
  stored_payload (s_compressed s) (key ++ value) = Some q →
  room s 1 (messageHeaderSize + zlen q) →
  wp (Segment_Append ts key value)
    (λ '(o, _) '(s', w'),
      o = s_nextOffset s ∧ s_nextOffset s' = o + 1 ∧
      reads (Segment_Read s' o) w' (Ok (mkMessage o ts key value)) ∧
      ∀ e, e ∈ es → reads (Segment_Read s' (e_off e)) w' (read_result (s_compressed s) e))
    (λ err '(s', w'),
      io_error w err ∧ s' = s ∧
      ∀ e, e ∈ es → reads (Segment_Read s (e_off e)) w' (read_result (s_compressed s) e))
    (s, w).
Proof.
  intros R Hk Hv Ht Hq Hroom.
  eapply wp_Segment_Append_rep; [done..| | |].
  - by rewrite zlen_enc.
  - intros s' w' -> _ R'. split_and!; [done|done| |].
    + refine (reads_stored _ _ _ _ _ _ _ (length es) _ R' _ (stored_decodes _ _ _ _ _ _ Hq)).
      by rewrite lookup_app_r, Nat.sub_diag by lia.
    + intros e He. by eapply reads_kept in R'.
  - intros err w' Hf. split_and!; [apply Hf|done|]. intros e He. by eapply write_failed_kept.
Qed.

(** C30.  [AppendBatch] with its buffers filled in place does what appending the
    records one by one does: same offsets, same counters, same bytes in both
    files. *)
Theorem append_batch_is_sequence w s li ii es records es2 :
  reliable w → seg_rep w s li ii es [] [] → Forall record_ok records →
  batch_entries (s_compressed s) (s_nextOffset s) records = Some es2 →
  room s (zlen records) (zlen (enc_log es2)) →
  ('(offsets, _) ← Segment_AppendBatch records; mret offsets) (s, w) = append_each records (s, w).
Proof.
  intros Hw R Hr Hb Hroom. rewrite (run_append_each _ _ _ _ _ _ _ Hw R Hr Hb Hroom).
  destruct records as [|r rs].
  - apply (inj Some) in Hb as <-. by rewrite (extended_nil _ _ _ _ _ _ _ R).
  - by erewrite run_bind by (by eapply run_Segment_AppendBatch).
Qed.

(** C31.  On an unreliable device a batch is all or nothing for a reader of the
    open segment: when [AppendBatch] succeeds every record of the batch reads
    back, in order, from the offset the segment was at; when it fails no
    counter moved and what was stored before is still readable. *)
Theorem append_batch_all_or_nothing w s li ii es records es2 :
  seg_rep w s li ii es [] [] → records ≠ [] → Forall record_ok records →
  batch_entries (s_compressed s) (s_nextOffset s) records = Some es2 →
  room s (zlen records) (zlen (enc_log es2)) →
  wp (Segment_AppendBatch records)
    (λ '(offsets, _) '(s', w'),
      offsets = (λ k, s_nextOffset s + Z.of_nat k) <$> seq 0 (length records) ∧
      s_nextOffset s' = s_nextOffset s + zlen records ∧
      (∀ k r, records !! k = Some r →
        let o := s_nextOffset s + Z.of_nat k in
        reads (Segment_Read s' o) w' (Ok (mkMessage o (r_Timestamp r) (r_Key r) (r_Value r)))) ∧
      ∀ e, e ∈ es → reads (Segment_Read s' (e_off e)) w' (read_result (s_compressed s) e))
    (λ err '(s', w'),
      io_error w err ∧ s' = s ∧
      ∀ e, e ∈ es → reads (Segment_Read s (e_off e)) w' (read_result (s_compressed s) e))
    (s, w).
Proof.
  intros R Hne Hr Hb Hroom. eapply wp_Segment_AppendBatch_rep; [done..| |].
  - intros s' w' -> _ R'. destruct (batch_entries_consecutive _ _ _ _ Hb) as [Hcons Hlen].
    split_and!; [|done| |].
    + apply list_eq. intros k. rewrite !list_lookup_fmap.
      destruct (es2 !! k) as [e|] eqn:Hk.
      * rewrite lookup_seq_lt by (apply lookup_lt_Some in Hk; lia). simpl. by rewrite (Hcons k e Hk).
      * rewrite lookup_seq_ge by (apply lookup_ge_None in Hk; lia). done.
    + intros k r Hk o. destruct (batch_entries_at _ _ _ _ _ _ Hb Hk) as (q & Hq & He).
      refine (reads_stored _ _ _ _ _ _ _ (length es + k) _ R' _ (stored_decodes _ _ _ _ _ _ Hq)).
      rewrite lookup_app_r by lia. by replace (length es + k - length es)%nat with k by lia.
    + intros e He. by eapply reads_kept in R'.
  - intros err w' Hf. split_and!; [apply Hf|done|]. intros e He. by eapply write_failed_kept.
Qed.
End append.

(** ** Reading *)

Section reading.
Context `{SN : Snappy}.

(** C32.  [findMessageBounds], a direct guess at the index followed by a binary
    search, finds in the on-disk index exactly what a linear search for the
    offset finds: the byte position of the message and the position where the
    next one starts.  It never reads outside the index and never loops for
    ever, whether or not the offsets have gaps. *)
Theorem find_message_bounds_is_linear_search w s li ii es jl ji o :
  seg_rep w s li ii es jl ji → es ≠ [] →
  reads (findMessageBounds s o) w
    match list_find (λ e, e_off e = o) es with
    | Some (i, _) => Ok (pos_of es i, pos_of es (S i))
    | None => Err (EMsg "offset %d not found in segment index" [AInt o])
    end.
Proof.
  intros R Hne. pose proof (reads_findMessageBounds _ _ _ _ _ _ w o R) as H.
  by rewrite decide_False in H.
Qed.

(** [Read] on every branch.  An offset outside [baseOffset, nextOffset) is
    refused, an offset that was compacted away is not found, and the others
    give the stored message; a payload that does not decode, or whose length
    contradicts the header, is an error and never a wrong message. *)
Theorem segment_read_correct w s li ii es jl ji o :
  seg_rep w s li ii es jl ji →
  reads (Segment_Read s o) w
    (if (o <? s_baseOffset s) || (s_nextOffset s <=? o)
     then Err (EMsg "offset %d is outside segment" [AInt o])
     else if decide (es = []) then Err (EMsg "segment index is empty" [])
     else match list_find (λ e, e_off e = o) es with
          | Some (_, e) => read_result (s_compressed s) e
          | None => Err (EMsg "offset %d not found in segment index" [AInt o])
          end).
Proof.
  intros R. pose proof (reads_Segment_Read _ _ _ _ _ _ w o R) as H. unfold read_spec, find_entry in H.
  destruct ((o <? s_baseOffset s) || (s_nextOffset s <=? o)); [done|].
  destruct (decide (es = [])); [done|]. by destruct (list_find _ es) as [[i e]|].
Qed.

(** [findEndPosition] finds the end of the record that starts at a byte
    position, and refuses a position at which no record starts. *)
Theorem find_end_position_correct w s li ii es jl ji p :
  seg_rep w s li ii es jl ji →
  reads (findEndPosition s p) w
    match list_find (λ i, pos_of es i = p) (seq 0 (length es)) with
    | Some (i, _) => Ok (pos_of es (S i))
    | None => Err (EMsg "log position %d not found in segment index" [AInt p])
    end.
Proof. apply reads_findEndPosition. Qed.

(** [NewestTimestamp] is the timestamp of the last stored message. *)
Theorem newest_timestamp_correct w s li ii es e jl ji :
  seg_rep w s li ii (es ++ [e]) jl ji →
  reads (NewestTimestamp s) w (Ok (Timestamp (e_msg e))).
Proof.
  intros R. pose proof (reads_NewestTimestamp _ _ _ _ _ _ w R) as H. unfold newest_spec in H.
  rewrite last_snoc in H. destruct (Z.leb_spec (s_nextOffset s) (s_baseOffset s)); [|done].
  pose proof (rep_entry_range _ _ _ _ _ _ _ R (length es) e) as Hr.
  rewrite lookup_app_r, Nat.sub_diag in Hr by lia. specialize (Hr eq_refl). lia.
Qed.
End reading.

(** ** Writing all of a buffer *)

(** [writeAll] under short writes: if it returns without an error, the file
    grew by exactly [data]; if it fails, by a prefix of [data], and the device
    reported an error or wrote nothing.  It always returns. *)
Theorem write_all_or_prefix w i data :
  is_Some (w_data w !! i) →
  wp (writeAll (Some (File i)) data)
    (λ _ w', w_data w' = <[i := content w i ++ data]> (w_data w))
    (λ e w', io_error w e ∧ ∃ n, w_data w' = <[i := content w i ++ take n data]> (w_data w))
    w.
Proof.
  intros Hi. apply wp_writeAll; [done| |].
  - intros w' Haft. by rewrite (after_data _ _ _ Haft).
  - intros e n w' Haft He. split; [done|]. exists n. by rewrite (after_data _ _ _ Haft).
Qed.

(** ** Closing and reopening *)

Section opening.
Context `{SN : Snappy}.

(** C33.  Closing a segment and opening its files again gives a segment in which
    every stored message is read back, and which goes on at the offset after
    the last one; the stored compression flag is not remembered, so the caller
    restores it. *)
Theorem reopen_keeps_messages w s li ii es :
  seg_rep w s li ii es [] [] → has_files w (s_dir s) (s_baseOffset s) li ii →
  wp (_ ← attempt (on_local s Segment_Close); NewSegment (s_dir s) (s_baseOffset s))
    (λ s' w',
      s_baseOffset s' = s_baseOffset s ∧ s_size s' = s_size s ∧ s_compressed s' = false ∧
      s_nextOffset s' = default (s_baseOffset s) ((λ e, e_off e + 1) <$> last es) ∧
      ∀ e, e ∈ es → reads (Segment_Read (Segment_SetCompressed (s_compressed s) s') (e_off e)) w'
                      (read_result (s_compressed s) e))
    (λ err w', io_error w err) w.
Proof.
  intros R Hf. wp_step.
  destruct (quiet_Segment_Close s w) as (w1 & E1 & R1).
  assert (H1 : wp (attempt (on_local s Segment_Close)) (λ _ w', ro w w') (λ _ _, False) w).
  { unfold ignore, mbind, gom_bind in E1. unfold wp.
    destruct (attempt _ w) as [[r|e|] w2]; try done.
    unfold mret, gom_ret in E1. congruence. }
  eapply wp_mono; [exact H1| |done]. intros r w2 R2. cbn beta in R2.
  pose proof (rep_ro _ _ _ _ _ _ _ R _ R2) as R'.
  pose proof (reads_NewSegment w2 _ _ li ii (has_files_ro _ _ _ _ _ _ R2 Hf)) as Hopen.
  pose proof (sr_log _ _ _ _ _ _ _ R') as Hl. pose proof (sr_index _ _ _ _ _ _ _ R') as Hx.
  rewrite app_nil_r in Hl, Hx.
  rewrite (content_Some _ _ _ Hl), (content_Some _ _ _ Hx) in Hopen.
  rewrite open_result_rep in Hopen by by eapply rep_fits.
  eapply wp_reads; [exact Hopen| |].
  - intros w3 R3. split_and!; [done|symmetry; apply R|done| |].
    + unfold reopened, next_after; simpl. by destruct (last es).
    + intros e [i Hi]%list_elem_of_lookup.
      eapply (reads_Segment_Read_at (Segment_SetCompressed (s_compressed s) _) li ii es [] []); [|done].
      eapply set_compressed_rep, rep_ro; [|exact R3].
      eapply reopened_rep; [by eapply rep_fits|apply R|done|done].
  - intros e w3 R3 He. by eapply io_error_ro.
Qed.

(** C34.  A torn write loses a committed message.  [NewSegment] takes the end of
    the [.log] file for the end of its last message; when a crash or an error
    in the middle of [Append] left bytes of the next record behind, the
    reopened segment counts them as payload of the last committed message,
    which then reads back as an error although its bytes are all there. *)
Theorem torn_append_corrupts_last_message w dir base li ii es e junk :
  fits base (es ++ [e]) → li ≠ ii →
  zlen (e_payload e) + zlen junk ≤ max_alloc → zlen (enc_log (es ++ [e])) + zlen junk < 2 ^ 63 →
  has_files w dir base li ii →
  w_data w !! li = Some (enc_log (es ++ [e]) ++ junk) →
  w_data w !! ii = Some (enc_index 0 (es ++ [e])) →
  junk ≠ [] → decodes false e →
  wp (NewSegment dir base)
    (λ s w', reads (Segment_Read s (e_off e)) w'
      (Err (EMsg "payload size %d does not match key/value sizes %d"
         [AInt (zlen (Key (e_msg e)) + zlen (Value (e_msg e)) + zlen junk);
          AInt (zlen (Key (e_msg e)) + zlen (Value (e_msg e)))])))
    (λ err w', io_error w err) w.
Proof.
  intros Hfits Hne Halloc Hsize Hf Hl Hx Hj Hd.
  pose proof (fits_torn _ _ _ _ Hfits Halloc Hsize) as Hft.
  rewrite <-enc_log_torn in Hl. rewrite <-(enc_index_torn es e junk) in Hx.
  pose proof (reads_NewSegment w _ _ li ii Hf) as Hopen.
  rewrite (content_Some _ _ _ Hl), (content_Some _ _ _ Hx), open_result_rep in Hopen by done.
  eapply wp_reads; [exact Hopen| |done].
  intros w1 R1.
  pose proof (reopened_rep w dir base li ii _ Hft Hne Hl Hx) as R.
  pose proof (reads_Segment_Read_at _ _ _ _ _ _ w1 (length es) (torn e junk)
    (rep_ro _ _ _ _ _ _ _ R _ R1)) as Hr.
  rewrite lookup_app_r, Nat.sub_diag in Hr by lia. specialize (Hr eq_refl).
  change (e_off (torn e junk)) with (e_off e) in Hr. revert Hr.
  unfold read_result, decodes in *. simpl. apply (inj inl) in Hd. rewrite Hd.
  rewrite !length_app, !Nat2Z.inj_add.
  destruct (Z.eqb_spec (zlen (Key (e_msg e)) + zlen (Value (e_msg e)) + zlen junk)
              (zlen (Key (e_msg e)) + zlen (Value (e_msg e)))) as [Heq|]; [|done].
  destruct junk; [done|]. simpl in Heq. lia.
Qed.

(** [NewSegment] on files it did not write: it opens them exactly when the
    index holds whole entries and both files are empty or neither is, and it
    never panics on their contents. *)
Theorem open_validates_files w dir base li ii :
  has_files w dir base li ii →
  let ldata := content w li in
  let idata := content w ii in
  reads (NewSegment dir base) w
    (if negb (zlen idata `mod` 16 =? 0)
     then Err (EMsg "invalid index file size %d" [AInt (zlen idata)])
     else if (zlen ldata =? 0) && negb (zlen idata =? 0)
     then Err (EMsg "index contains entries but log file is empty" [])
     else if negb (zlen ldata =? 0) && (zlen idata =? 0)
     then Err (EMsg "log file contains data but index is empty" [])
     else
       let n := zlen idata / 16 in
       let lastOffset := be_get (take 8 (drop (Z.to_nat ((n - 1) * 16)) idata)) in
       Ok (mkSegment dir base (if 0 <? n then u64 (lastOffset + 1) else base) (zlen ldata) n false
             (Some (File li)) (Some (File li)) (Some (File ii)) (Some (File ii)))).
Proof.
  intros Hf ldata idata. pose proof (reads_NewSegment w dir base li ii Hf) as H.
  unfold open_result in H. fold ldata idata in H.
  replace (zsub 0 8 (zsub ((zlen idata / 16 - 1) * 16) ((zlen idata / 16 - 1) * 16 + 16) idata))
    with (take 8 (drop (Z.to_nat ((zlen idata / 16 - 1) * 16)) idata)) in H; [done|].
  unfold zsub. rewrite drop_0, Z.sub_0_r. rewrite take_take. f_equal. lia.
Qed.

(** After [Close] the four handles are gone whatever the device reported,
    and a closed segment neither appends nor reads: both return
    [os.ErrInvalid] and leave the files alone. *)
Theorem closed_segment_is_unusable w s li ii es ts key value o q e :
  seg_rep w s li ii es [] [] → e ∈ es → o = e_off e →
  zlen key ≤ max_u32 → zlen value ≤ max_u32 →
  stored_payload (s_compressed s) (key ++ value) = Some q →
  let unusable s' w' :=
    w_data w' = w_data w ∧ w_dirs w' = w_dirs w ∧
    Segment_Append ts key value (s', w') = (Err ErrInvalid, (s', w')) ∧
    Segment_Read s' o w' = (Err ErrInvalid, w') in
  wp Segment_Close (λ _ '(s', w'), unusable s' w') (λ err '(s', w'), io_error w err ∧ unusable s' w')
    (s, w).
Proof.
  intros R He -> Hk Hv Hq unusable.
  assert (H : ∀ w', ro w w' → unusable (closed s) w').
  { intros w' Hr. split_and!; [by apply ro_data|by apply ro_dirs| |].
    - by apply closed_append with q.
    - by eapply closed_read. }
  apply wp_Segment_Close; auto.
Qed.
End opening.

(** ** The theorems at concrete inputs *)

Section witnesses.
Local Existing Instances rle_snappy rle_laws.

Lemma append_then_read_witness :
  wp (Segment_Append 7 (str "k") (str "vvv"))
    (λ '(o, _) '(s', w'),
      o = 7 ∧ s_nextOffset s' = o + 1 ∧
      reads (Segment_Read s' o) w' (Ok (mkMessage o 7 (str "k") (str "vvv"))) ∧
      ∀ e, e ∈ ex_entries → reads (Segment_Read s' (e_off e)) w' (read_result true e))
    (λ err '(s', w'),
      io_error ex_faulty err ∧ s' = ex_segment ∧
      ∀ e, e ∈ ex_entries → reads (Segment_Read ex_segment (e_off e)) w' (read_result true e))
    (ex_segment, ex_faulty).
Proof.
  apply (append_then_read ex_faulty ex_segment 0 1 ex_entries 7 (str "k") (str "vvv")
    (default [] (rle_Encode (str "kvvv")))); [exact ex_rep_faulty|vm_compute..].
  all: repeat split; discriminate.
Defined.

Lemma append_batch_is_sequence_witness :
  ('(offsets, _) ← Segment_AppendBatch ex_records; mret offsets) (ex_segment, ex_stored) =
  append_each ex_records (ex_segment, ex_stored).
Proof.
  apply (append_batch_is_sequence ex_stored ex_segment 0 1 ex_entries ex_records
    (default [] (batch_entries true 7 ex_records)));
    [vm_compute; reflexivity|exact ex_rep|exact ex_records_ok|vm_compute; reflexivity|].
  vm_compute. split; reflexivity.
Defined.

Lemma append_batch_all_or_nothing_witness :
  wp (Segment_AppendBatch ex_records)
    (λ '(offsets, _) '(s', w'),
      offsets = (λ k, 7 + Z.of_nat k) <$> seq 0 2 ∧
      s_nextOffset s' = 7 + 2 ∧
      (∀ k r, ex_records !! k = Some r →
        let o := 7 + Z.of_nat k in
        reads (Segment_Read s' o) w' (Ok (mkMessage o (r_Timestamp r) (r_Key r) (r_Value r)))) ∧
      ∀ e, e ∈ ex_entries → reads (Segment_Read s' (e_off e)) w' (read_result true e))
    (λ err '(s', w'),
      io_error ex_faulty err ∧ s' = ex_segment ∧
      ∀ e, e ∈ ex_entries → reads (Segment_Read ex_segment (e_off e)) w' (read_result true e))
    (ex_segment, ex_faulty).
Proof.
  apply (append_batch_all_or_nothing ex_faulty ex_segment 0 1 ex_entries ex_records
    (default [] (batch_entries true 7 ex_records)));
    [exact ex_rep_faulty|discriminate|exact ex_records_ok|vm_compute; reflexivity|].
  vm_compute. split; reflexivity.
Defined.

Lemma find_message_bounds_is_linear_search_witness :
  reads (findMessageBounds ex_segment 6) ex_faulty (Ok (39, 69)).
Proof.
  refine (eq_rect _ (reads _ _)
    (find_message_bounds_is_linear_search ex_faulty ex_segment 0 1 ex_entries [] [] 6 _ _) _ _);
    [exact ex_rep_faulty|discriminate|vm_compute; reflexivity].
Defined.

Lemma segment_read_correct_witness :
  reads (Segment_Read ex_segment 5) ex_faulty (Ok (mkMessage 5 1000 (str "k1") (str "aaaaaaaaaaaa"))).
Proof.
  refine (eq_rect _ (reads _ _) (segment_read_correct ex_faulty ex_segment 0 1 ex_entries [] [] 5 _) _ _);
    [exact ex_rep_faulty|vm_compute; reflexivity].
Defined.

Lemma find_end_position_correct_witness :
  reads (findEndPosition ex_segment 0) ex_faulty (Ok 39).
Proof.
  refine (eq_rect _ (reads _ _) (find_end_position_correct ex_faulty ex_segment 0 1 ex_entries [] [] 0 _) _ _);
    [exact ex_rep_faulty|vm_compute; reflexivity].
Defined.

Lemma newest_timestamp_correct_witness :
  reads (NewestTimestamp ex_segment) ex_faulty (Ok 1001).
Proof.
  apply (newest_timestamp_correct ex_faulty ex_segment 0 1 (take 1 ex_entries)
    (mkEntry (mkMessage 6 1001 (str "aaa") (str "aaaaaaaaa")) (default [] (rle_Encode (str "aaaaaaaaaaaa"))))
    [] []). exact ex_rep_faulty.
Defined.

Lemma write_all_or_prefix_witness :
  wp (writeAll (Some (File 0)) (str "abcdef"))
    (λ _ w', w_data w' = <[0%nat := content ex_faulty 0 ++ str "abcdef"]> (w_data ex_faulty))
    (λ e w', io_error ex_faulty e ∧ ∃ n,
       w_data w' = <[0%nat := content ex_faulty 0 ++ take n (str "abcdef")]> (w_data ex_faulty)) ex_faulty.
Proof. apply (write_all_or_prefix ex_faulty 0 (str "abcdef")). vm_compute. eexists. reflexivity. Defined.

Lemma reopen_keeps_messages_witness :
  wp (_ ← attempt (on_local ex_segment Segment_Close); NewSegment ex_dir 5)
    (λ s' w',
      s_baseOffset s' = 5 ∧ s_size s' = s_size ex_segment ∧ s_compressed s' = false ∧
      s_nextOffset s' = 7 ∧
      ∀ e, e ∈ ex_entries → reads (Segment_Read (Segment_SetCompressed true s') (e_off e)) w'
                              (read_result true e))
    (λ err w', io_error ex_faulty err) ex_faulty.
Proof.
  apply (reopen_keeps_messages ex_faulty ex_segment 0 1 ex_entries); [exact ex_rep_faulty|].
  vm_compute. split; reflexivity.
Defined.

(** A torn record: three of its bytes reached the log. *)
Definition ex_plain : list entry := default [] (batch_entries false 5 ex_records).
Definition ex_torn : world :=
  append_data 1 (enc_index 0 ex_plain) (append_data 0 (enc_log ex_plain ++ str "xyz") ex_created).

Lemma torn_append_corrupts_last_message_witness :
  wp (NewSegment ex_dir 5)
    (λ s w', reads (Segment_Read s 6) w'
      (Err (EMsg "payload size %d does not match key/value sizes %d" [AInt 15; AInt 12])))
    (λ err w', io_error ex_torn err) ex_torn.
Proof.
  apply (torn_append_corrupts_last_message ex_torn ex_dir 5 0 1 (take 1 ex_plain)
    (mkEntry (mkMessage 6 1001 (str "aaa") (str "aaaaaaaaa")) (str "aaaaaaaaaaaa")) (str "xyz")).
  - apply (batch_fits false 5 ex_records); [vm_compute; reflexivity|exact ex_records_ok|..];
      vm_compute; (reflexivity || discriminate).
  - discriminate.
  - vm_compute; discriminate.
  - vm_compute; reflexivity.
  - vm_compute. split; reflexivity.
  - vm_compute; reflexivity.
  - vm_compute; reflexivity.
  - discriminate.
  - vm_compute; reflexivity.
Defined.

Lemma open_validates_files_witness :
  reads (NewSegment ex_dir 5) ex_faulty (Ok (reopened ex_dir 5 0 1 ex_entries)).
Proof.
  refine (eq_rect _ (reads _ _) (open_validates_files ex_faulty ex_dir 5 0 1 _) _ _);
    [vm_compute; split; reflexivity|vm_compute; reflexivity].
Defined.

Lemma closed_segment_is_unusable_witness :
  let unusable s' w' :=
    w_data w' = w_data ex_faulty ∧ w_dirs w' = w_dirs ex_faulty ∧
    Segment_Append 7 (str "k") (str "vvv") (s', w') = (Err ErrInvalid, (s', w')) ∧
    Segment_Read s' 6 w' = (Err ErrInvalid, w') in
  wp Segment_Close (λ _ '(s', w'), unusable s' w')
    (λ err '(s', w'), io_error ex_faulty err ∧ unusable s' w') (ex_segment, ex_faulty).
Proof.
  apply (closed_segment_is_unusable ex_faulty ex_segment 0 1 ex_entries 7 (str "k") (str "vvv") 6
    (default [] (rle_Encode (str "kvvv")))
    (mkEntry (mkMessage 6 1001 (str "aaa") (str "aaaaaaaaa")) (default [] (rle_Encode (str "aaaaaaaaaaaa"))))).
  - exact ex_rep_faulty.
  - right; left.
  - vm_compute; reflexivity.
  - vm_compute; discriminate.
  - vm_compute; discriminate.
  - vm_compute; reflexivity.
Defined.
End witnesses.
