(* ===== verification/Log.v ===== *)
(** * The commit log: internal/log/log.go

    An ordered list of segments.  A method that mutates the log is code on the
    pair of the [Log] and the world, and holds [l.mu] for its whole body, so
    that it is one atomic step; a method under the read lock takes the [Log]
    and is code on the world.  A [*Segment] is named by its index in
    [l.segments]. *)

From S2P Require Import Prelude GoNum OS Snappy Segment.

(** DefaultMaxSegmentSize *)
Definition DefaultMaxSegmentSize : Z := 1024 * 1024 * 1024.

(** [l_observer]: a compression observer is installed; [l_saved] are the
    values it was called with. *)
Record Log : Type := mkLog {
  l_dir : bytes;
  l_maxSegmentSize : Z;
  l_segments : list Segment;
  l_compressed : bool;
  l_observer : bool;
  l_saved : list Z
}.

Definition set_segments (segs : list Segment) (l : Log) : Log :=
  mkLog (l_dir l) (l_maxSegmentSize l) segs (l_compressed l) (l_observer l) (l_saved l).

Definition observe (v : Z) (l : Log) : Log :=
  mkLog (l_dir l) (l_maxSegmentSize l) (l_segments l) (l_compressed l) (l_observer l)
    (l_saved l ++ [v]).

(** A method of [l.segments[i]]. *)
Definition on_segment {A} (i : nat) (m : GoM (Segment * world) A) : GoM (Log * world) A :=
  λ '(l, w),
    match l_segments l !! i with
    | Some s => let '(r, (s', w')) := m (s, w) in (r, (set_segments (<[i := s']> (l_segments l)) l, w'))
    | None => (Panic, (l, w))
    end.

(** [l.segments[i]] *)
Definition segment_at {S} (l : Log) (i : nat) : GoM S Segment :=
  match l_segments l !! i with
  | Some s => mret s
  | None => panic
  end.

(** ** NewLog *)

(** The loop over the directory: the base offset of every [.log] file, each of
    which must have its [.index] file. *)
Fixpoint scan_dir (dir : bytes) (ents : list (bytes * dirent)) : GoM world (list Z) :=
  match ents with
  | [] => mret []
  | (name, EDir) :: ents' => scan_dir dir ents'
  | (name, EFile _) :: ents' =>
      match segmentBaseOffset name with
      | None => scan_dir dir ents'
      | Some offset =>
          r ← attempt (os_Stat dir (indexName offset));
          match r with
          | inl _ => offsets ← scan_dir dir ents'; mret (offset :: offsets)
          | inr e =>
              if decide (e = ErrNotExist)
              then throw (EMsg "missing index file for segment %d" [AInt offset])
              else throw e
          end
      end
  end.

(** [log.Close()] with the errors dropped. *)
Fixpoint close_all (segs : list Segment) : GoM world unit :=
  match segs with
  | [] => mret tt
  | s :: segs' => ignore (on_local s Segment_Close);; close_all segs'
  end.

(** The loop that opens the segments; [acc] are those already open. *)
Fixpoint open_segments (dir : bytes) (compressed : bool) (offsets : list Z) (acc : list Segment) :
    GoM world (list Segment) :=
  match offsets with
  | [] => mret acc
  | offset :: offsets' =>
      segment ← on_error (NewSegment dir offset) (close_all acc);
      open_segments dir compressed offsets' (acc ++ [Segment_SetCompressed compressed segment])
  end.

(** [log.segments[i].nextOffset = log.segments[i+1].baseOffset] *)
Fixpoint link_segments (segs : list Segment) : list Segment :=
  match segs with
  | s :: (s' :: _) as tl => set_nextOffset (s_baseOffset s') s :: link_segments tl
  | _ => segs
  end.

Definition NewLog (dir : bytes) (maxSegmentSize : list Z) : GoM world Log :=
  if 1 <? zlen maxSegmentSize then throw (EMsg "at most one max segment size may be provided" [])
  else
    segmentSize ← match maxSegmentSize with
                  | [m] => if m =? 0 then throw (EMsg "max segment size must be greater than zero" [])
                           else mret m
                  | _ => mret DefaultMaxSegmentSize
                  end;
    os_MkdirAll dir;;
    ents ← os_ReadDir dir;
    offsets ← scan_dir dir ents;
    let offsets := merge_sort Z.le offsets in
    segments ← open_segments dir false offsets [];
    segments ← match segments with
               | [] => segment ← NewSegment dir 0; mret [segment]
               | _ :: _ => mret segments
               end;
    mret (mkLog dir segmentSize (link_segments segments) false false []).

(** ** Configuration *)

Definition Log_SetCompressed (compressed : bool) : GoM (Log * world) unit :=
  modify_st (λ '(l, w),
    (mkLog (l_dir l) (l_maxSegmentSize l) (Segment_SetCompressed compressed <$> l_segments l)
       compressed (l_observer l) (l_saved l), w)).

Definition Log_SetCompressionSavedObserver : GoM (Log * world) unit :=
  modify_st (λ '(l, w),
    (mkLog (l_dir l) (l_maxSegmentSize l) (l_segments l) (l_compressed l) true (l_saved l), w)).

Section log.
Context `{SN : Snappy}.

(** ** Appending *)

(** [if bytesSaved > 0 && observer != nil { observer(uint64(bytesSaved)) }] *)
Definition report_saved (bytesSaved : Z) : GoM (Log * world) unit :=
  modify_st (λ '(l, w),
    (if (0 <? bytesSaved) && l_observer l then observe (u64 bytesSaved) l else l, w)).

(** The roll: a new active segment when the active one is full. *)
Definition roll_if_full (active : nat) (nextBase : Z) : GoM (Log * world) unit :=
  '(l, _) ← get_st;
  s ← segment_at l active;
  if l_maxSegmentSize l <=? u64 (s_size s) then
    nextSegment ← lift_snd (NewSegment (l_dir l) nextBase);
    modify_st (λ '(l, w),
      (set_segments (l_segments l ++ [Segment_SetCompressed (l_compressed l) nextSegment]) l, w))
  else mret tt.

Definition appendLocked (timestamp : Z) (key value : bytes) : GoM (Log * world) Z :=
  '(l, _) ← get_st;
  match length (l_segments l) with
  | O => throw (EMsg "log has no segments" [])
  | S active =>
      '(offset, bytesSaved) ← on_segment active (Segment_Append timestamp key value);
      report_saved bytesSaved;;
      roll_if_full active (u64 (offset + 1));;
      mret offset
  end.

Definition Log_Append (timestamp : Z) (key value : bytes) : GoM (Log * world) Z :=
  appendLocked timestamp key value.

(** The result of [AppendBatch] is a pair: when the roll fails after the batch
    was written, it returns the offsets together with the error. *)
Definition Log_AppendBatch (records : list LogRecord) : GoM (Log * world) (list Z * option goerr) :=
  match records with
  | [] => mret ([], None)
  | _ :: _ =>
      '(l, _) ← get_st;
      match length (l_segments l) with
      | O => throw (EMsg "log has no segments" [])
      | S active =>
          '(offsets, bytesSaved) ← on_segment active (Segment_AppendBatch records);
          report_saved bytesSaved;;
          r ← attempt (roll_if_full active (u64 (default 0 (last offsets) + 1)));
          match r with
          | inl _ => mret (offsets, None)
          | inr e => mret (offsets, Some e)
          end
      end
  end.

(** ** Reading *)

(** The loop of [LatestOffset], from the last segment to the first. *)
Fixpoint latest_of (rev_segments : list Segment) : Z :=
  match rev_segments with
  | [] => 0
  | s :: segs =>
      if s_baseOffset s <? s_nextOffset s then u64 (s_nextOffset s - 1) else latest_of segs
  end.

Definition LatestOffset (l : Log) : Z := latest_of (reverse (l_segments l)).

(** [sort.Search(n, f)]: the binary search of package sort. *)
Fixpoint sort_search_loop (fuel : nat) (f : nat → bool) (i j : nat) : nat :=
  match fuel with
  | O => i
  | S fuel' =>
      if (i <? j)%nat then
        let h := ((i + j) / 2)%nat in
        if f h then sort_search_loop fuel' f i h else sort_search_loop fuel' f (S h) j
      else i
  end.

Definition sort_Search (n : nat) (f : nat → bool) : nat := sort_search_loop n f 0 n.

(** [f(i)] of the searches below: a predicate of [l.segments[i]]. *)
Definition seg_pred (l : Log) (p : Segment → bool) (i : nat) : bool :=
  match l_segments l !! i with Some s => p s | None => false end.

(** The index of the segment that holds [offset]. *)
Definition segmentForOffset (l : Log) (offset : Z) : GoM world nat :=
  match l_segments l with
  | [] => throw (EMsg "log has no segments" [])
  | s0 :: _ =>
      if offset <? s_baseOffset s0
      then throw (EMsg "offset %d is before the beginning of the log" [AInt offset])
      else
        let index := sort_Search (length (l_segments l))
                       (seg_pred l (λ s, offset <? s_baseOffset s)) in
        match index with
        | O => panic
        | S index => mret index
        end
  end.

Definition Log_Read (l : Log) (offset : Z) : GoM world Message :=
  i ← segmentForOffset l offset;
  segment ← segment_at l i;
  Segment_Read segment offset.

(** The inner loop of [ReadBatch].  [inl] are the messages and the offset it
    goes on with, [inr] the messages it returns after a read failed. *)
Fixpoint read_run (fuel : nat) (segment : Segment) (maxCount currentOffset : Z)
    (messages : list Message) : GoM world ((list Message * Z) + list Message) :=
  if (zlen messages <? maxCount) && (currentOffset <? s_nextOffset segment) then
    match fuel with
    | O => panic
    | S fuel' =>
        r ← attempt (Segment_Read segment currentOffset);
        match r with
        | inl msg => read_run fuel' segment maxCount (u64 (currentOffset + 1)) (messages ++ [msg])
        | inr err =>
            match messages with
            | _ :: _ => mret (inr messages)
            | [] => throw err
            end
        end
    end
  else mret (inl (messages, currentOffset)).

(** The outer loop. *)
Fixpoint read_segments (fuel : nat) (l : Log) (maxCount currentOffset : Z)
    (messages : list Message) : GoM world (list Message) :=
  if zlen messages <? maxCount then
    match fuel with
    | O => panic
    | S fuel' =>
        r ← attempt (segmentForOffset l currentOffset);
        match r with
        | inr err =>
            match messages with
            | _ :: _ => mret messages
            | [] => throw err
            end
        | inl i =>
            segment ← segment_at l i;
            r ← read_run (Z.to_nat (maxCount - zlen messages)) segment maxCount currentOffset messages;
            match r with
            | inr messages => mret messages
            | inl (messages, currentOffset) =>
                if (s_nextOffset segment <=? currentOffset) && (i =? pred (length (l_segments l)))%nat
                then mret messages
                else read_segments fuel' l maxCount currentOffset messages
            end
        end
    end
  else mret messages.

(** Each round of the outer loop but the last moves on to a later segment. *)
Definition Log_ReadBatch (l : Log) (offset maxCount : Z) : GoM world (list Message) :=
  if maxCount <=? 0 then mret []
  else read_segments (S (length (l_segments l))) l maxCount offset [].

(** ** Close *)

Fixpoint close_segments (i n : nat) (firstErr : option goerr) : GoM (Log * world) (option goerr) :=
  match n with
  | O => mret firstErr
  | S n' =>
      e ← err_of (on_segment i Segment_Close);
      close_segments (S i) n' (match firstErr with Some e => Some e | None => e end)
  end.

Definition Log_Close : GoM (Log * world) unit :=
  '(l, _) ← get_st;
  e ← close_segments 0 (length (l_segments l)) None;
  match e with Some e => throw e | None => mret tt end.

(** ** Retention *)

(** Times are nanoseconds since the Unix epoch; [time.Time] covers far more
    than the [int64] range of a timestamp.  [time.Millisecond] is 10^6. *)
Definition retention_cutoff (now retentionMs : Z) : Z :=
  now + i64 (i64 (- retentionMs) * 1000000).

(** [totalSize] *)
Definition total_size (segs : list Segment) : Z :=
  foldl (λ t s, i64 (t + s_size s)) 0 segs.

(** Whether the oldest segment is to be removed. *)
Definition should_remove (retentionBytes retentionMs cutoff totalSize : Z) (s : Segment) :
    GoM world bool :=
  let removeForBytes := (0 <? retentionBytes) && (retentionBytes <? totalSize) in
  removeForTime ← (if (0 <? retentionMs) && (0 <? s_size s) then
                     newestTimestamp ← wrap_error
                       (EWrap "read newest timestamp for segment %d: %w" [AInt (s_baseOffset s)])
                       (NewestTimestamp s);
                     mret (newestTimestamp <? cutoff)
                   else mret false);
  mret (removeForBytes || removeForTime).

(** [for len(l.segments) > 1] *)
Fixpoint retention_loop (fuel : nat) (retentionBytes retentionMs cutoff totalSize : Z) :
    GoM (Log * world) unit :=
  '(l, _) ← get_st;
  if (1 <? length (l_segments l))%nat then
    match fuel with
    | O => panic
    | S fuel' =>
        segment ← segment_at l 0;
        remove ← lift_snd (should_remove retentionBytes retentionMs cutoff totalSize segment);
        if negb remove then mret tt
        else
          wrap_error (EWrap "delete segment %d: %w" [AInt (s_baseOffset segment)])
            (on_segment 0 Segment_Delete);;
          modify_st (λ '(l, w), (set_segments (drop 1 (l_segments l)) l, w));;
          retention_loop fuel' retentionBytes retentionMs cutoff (i64 (totalSize - s_size segment))
    end
  else mret tt.

Definition EnforceRetention (retentionBytes retentionMs now : Z) : GoM (Log * world) unit :=
  '(l, _) ← get_st;
  if (length (l_segments l) <=? 1)%nat then mret tt
  else if (retentionBytes <=? 0) && (retentionMs <=? 0) then mret tt
  else
    retention_loop (length (l_segments l)) retentionBytes retentionMs
      (retention_cutoff now retentionMs) (total_size (l_segments l)).

(** ** Compaction *)

(** The loop of [collectLatestOffsets], over index entries [n-1] down to 0. *)
Fixpoint collect_loop (n : nat) (segment : Segment) (latestOffsets : gmap bytes Z) :
    GoM world (gmap bytes Z) :=
  match n with
  | O => mret latestOffsets
  | S i =>
      '(offset, _) ← readIndexEntry segment (Z.of_nat i * indexEntrySize);
      message ← Segment_Read segment offset;
      collect_loop i segment
        (match latestOffsets !! Key message with
         | Some _ => latestOffsets
         | None => <[Key message := i64 (Offset message)]> latestOffsets
         end)
  end.

Definition collectLatestOffsets (segment : Segment) (latestOffsets : gmap bytes Z) :
    GoM world (gmap bytes Z) :=
  info ← file_Stat (s_indexRead segment);
  collect_loop (Z.to_nat (Z.quot info indexEntrySize)) segment latestOffsets.

(** The end of the record of index entry [i]. *)
Definition record_end (segment : Segment) (source : file) (i entries : Z) : GoM world Z :=
  if i + 1 <? entries then
    '(_, nextPos) ← readIndexEntry segment ((i + 1) * indexEntrySize);
    mret nextPos
  else
    size ← file_Stat (Some source);
    mret (u64 size).

(** The body of the copy loop of [compactSegment]. *)
Definition compact_record (segment : Segment) (compressed : bool) (latestOffsets : gmap bytes Z)
    (source tempLog tempIndex : file) (i entries : Z) : GoM world unit :=
  '(offset, position) ← readIndexEntry segment (i * indexEntrySize);
  endPosition ← record_end segment source i entries;
  if (endPosition <? position) || (endPosition - position <? messageHeaderSize)
  then throw (EMsg "invalid record bounds at offset %d" [AInt offset])
  else
    make_slice (endPosition - position);;
    record ← file_ReadAt (Some source) (endPosition - position) (i64 position);
    let keySize := be_get (zsub 16 20 record) in
    let valueSize := be_get (zsub 20 24 record) in
    let payload := zdrop messageHeaderSize record in
    let payload := if compressed then
                     match snappy_Decode payload with inl decoded => decoded | inr _ => payload end
                   else payload in
    let expectedSize := keySize + valueSize in
    if negb (zlen payload =? expectedSize)
    then throw (EMsg "invalid payload size %d for offset %d" [AInt (zlen payload); AInt offset])
    else
      key ← go_slice 0 keySize payload;
      if decide (latestOffsets !! key = Some (i64 offset)) then
        newPosition ← file_Stat (Some tempLog);
        writeAll (Some tempLog) record;;
        writeAll (Some tempIndex) (index_bytes offset (u64 newPosition))
      else mret tt.

Fixpoint compact_loop (n : nat) (segment : Segment) (compressed : bool) (latestOffsets : gmap bytes Z)
    (source tempLog tempIndex : file) (i entries : Z) : GoM world unit :=
  match n with
  | O => mret tt
  | S n' =>
      compact_record segment compressed latestOffsets source tempLog tempIndex i entries;;
      compact_loop n' segment compressed latestOffsets source tempLog tempIndex (i + 1) entries
  end.

(** [segmentIndex(baseOffset)], [None] for -1. *)
Definition segmentIndex (l : Log) (baseOffset : Z) : option nat :=
  let index := sort_Search (length (l_segments l)) (seg_pred l (λ s, baseOffset <=? s_baseOffset s)) in
  match l_segments l !! index with
  | Some s => if s_baseOffset s =? baseOffset then Some index else None
  | None => None
  end.

(** The two new files of a compacted segment, written and renamed over the old
    ones. *)
Definition rewrite_files (segment : Segment) (latestOffsets : gmap bytes Z) (entries : Z) :
    GoM world unit :=
  let dir := s_dir segment in
  let base := FormatUint (s_baseOffset segment) in
  let logPath := logName (s_baseOffset segment) in
  let indexPath := indexName (s_baseOffset segment) in
  source ← os_Open dir logPath;
  '(tempLogPath, tempLog) ← on_error (os_CreateTemp dir (base ++ str ".compact-") (str ".tmp"))
    (drop_file source);
  '(tempIndexPath, tempIndex) ← on_error (os_CreateTemp dir (base ++ str ".index-") (str ".tmp"))
    (drop_file tempLog;; drop_file source;; ignore (os_Remove dir tempLogPath));
  let cleanup := drop_file tempLog;; drop_file tempIndex;; drop_file source;;
                 ignore (os_Remove dir tempLogPath);; ignore (os_Remove dir tempIndexPath) in
  on_error
    (compact_loop (Z.to_nat entries) segment (s_compressed segment) latestOffsets
       source tempLog tempIndex 0 entries;;
     file_Sync (Some tempLog);;
     file_Sync (Some tempIndex))
    cleanup;;
  drop_file tempLog;;
  drop_file tempIndex;;
  drop_file source;;
  on_error (os_Rename dir tempLogPath logPath)
    (ignore (os_Remove dir tempLogPath);; ignore (os_Remove dir tempIndexPath));;
  on_error (os_Rename dir tempIndexPath indexPath) (ignore (os_Remove dir tempIndexPath)).

(** [compactSegment(l.segments[i], latestOffsets)].  The segment's own handles
    are closed, and set to nil, before the copy loop reads its index. *)
Definition compactSegment (i : nat) (latestOffsets : gmap bytes Z) : GoM (Log * world) unit :=
  '(l, _) ← get_st;
  segment ← segment_at l i;
  if s_nextOffset segment <=? s_baseOffset segment then mret tt
  else
    let originalNextOffset := s_nextOffset segment in
    let originalCompressed := s_compressed segment in
    indexSize ← lift_snd (file_Stat (s_indexRead segment));
    let entries := Z.quot indexSize indexEntrySize in
    on_segment i Segment_Close;;
    '(l, _) ← get_st;
    segment ← segment_at l i;
    lift_snd (rewrite_files segment latestOffsets entries);;
    rewrittenSegment ← lift_snd (NewSegment (s_dir segment) (s_baseOffset segment));
    let rewrittenSegment := set_nextOffset originalNextOffset
                              (Segment_SetCompressed originalCompressed rewrittenSegment) in
    match segmentIndex l (s_baseOffset segment) with
    | None =>
        lift_snd (ignore (on_local rewrittenSegment Segment_Close));;
        throw (EMsg "segment %d no longer exists in log" [AInt (s_baseOffset segment)])
    | Some index =>
        modify_st (λ '(l, w), (set_segments (<[index := rewrittenSegment]> (l_segments l)) l, w))
    end.

(** The first loop of [Compact], over [l.segments[n-1]] down to 0. *)
Fixpoint collect_segments (n : nat) (l : Log) (latestOffsets : gmap bytes Z) : GoM world (gmap bytes Z) :=
  match n with
  | O => mret latestOffsets
  | S i =>
      segment ← segment_at l i;
      latestOffsets ← wrap_error
        (EWrap "scan segment %d for compaction: %w" [AInt (s_baseOffset segment)])
        (collectLatestOffsets segment latestOffsets);
      collect_segments i l latestOffsets
  end.

(** The second loop. *)
Fixpoint compact_segments (i n : nat) (latestOffsets : gmap bytes Z) : GoM (Log * world) unit :=
  match n with
  | O => mret tt
  | S n' =>
      '(l, _) ← get_st;
      segment ← segment_at l i;
      wrap_error (EWrap "compact segment %d: %w" [AInt (s_baseOffset segment)])
        (compactSegment i latestOffsets);;
      compact_segments (S i) n' latestOffsets
  end.

Definition Compact : GoM (Log * world) unit :=
  '(l, _) ← get_st;
  if (length (l_segments l) <=? 1)%nat then mret tt
  else
    latestOffsets ← lift_snd (collect_segments (pred (length (l_segments l))) l ∅);
    compact_segments 0 (pred (length (l_segments l))) latestOffsets.

End log.
