(* ===== verification/LogRep.v ===== *)
(** * The representation of a log, and reading it

    [log_rep w l gs]: the segments of [l] hold the entries of [gs], each
    segment starts where the one before it ends, and no two share a file.
    Finding the segment of an offset, [Read], [LatestOffset] and [ReadBatch]
    are determined by the entries. *)

From S2P Require Import Prelude GoNum OS Snappy Segment SegmentRep SegmentRead SegmentWrite SegmentOpen Log.

(** ** sort.Search *)

Lemma sort_search_loop_spec fuel f i j n :
  (j - i ≤ fuel)%nat → (i ≤ j ≤ n)%nat →
  (∀ a b, (a ≤ b)%nat → (b < n)%nat → f a = true → f b = true) →
  (∀ a, (a < i)%nat → f a = false) → (∀ a, (j ≤ a < n)%nat → f a = true) →
  let k := sort_search_loop fuel f i j in
  (k ≤ n)%nat ∧ (∀ a, (a < k)%nat → f a = false) ∧ (∀ a, (k ≤ a < n)%nat → f a = true).
Proof.
  revert i j. induction fuel as [|fuel IH]; intros i j Hfuel Hij Hmono Hlo Hhi; simpl.
  { split_and!; [lia|done|]. intros a Ha. apply Hhi. lia. }
  destruct (Nat.ltb_spec i j) as [Hlt|Hge].
  2: { split_and!; [lia|done|]. intros a Ha. apply Hhi. lia. }
  change (fst (Nat.divmod (i + j) 1 0 1)) with ((i + j) / 2)%nat.
  pose proof (Nat.div_mod_eq (i + j) 2). pose proof (Nat.mod_upper_bound (i + j) 2 ltac:(lia)).
  set (h := ((i + j) / 2)%nat) in *. destruct (f h) eqn:Hf.
  - apply IH; try done; try lia. intros a Ha. apply (Hmono h); try lia. done.
  - apply IH; try done; try lia. intros a Ha. destruct (f a) eqn:Hfa; [|done].
    rewrite (Hmono a h) in Hf; [done|lia|lia|done].
Qed.

Lemma sort_Search_spec n f :
  (∀ a b, (a ≤ b)%nat → (b < n)%nat → f a = true → f b = true) →
  let k := sort_Search n f in
  (k ≤ n)%nat ∧ (∀ a, (a < k)%nat → f a = false) ∧ (∀ a, (k ≤ a < n)%nat → f a = true).
Proof. intros Hmono. apply sort_search_loop_spec; try done; lia. Qed.

(** ** Representation *)

Record seginfo : Type := mkInfo {
  g_log : nat;
  g_index : nat;
  g_es : list entry;
  g_jl : bytes;
  g_ji : bytes
}.

Definition info_rep (w : world) (s : Segment) (g : seginfo) : Prop :=
  seg_rep w s (g_log g) (g_index g) (g_es g) (g_jl g) (g_ji g).

Definition inodes (g : seginfo) : list nat := [g_log g; g_index g].

Definition all_entries (gs : list seginfo) : list entry := concat (g_es <$> gs).

(** Each segment ends where the next begins. *)
Definition linked (segs : list Segment) : Prop :=
  ∀ i s s', segs !! i = Some s → segs !! S i = Some s' → s_nextOffset s = s_baseOffset s'.

Record log_rep (w : world) (l : Log) (gs : list seginfo) : Prop := {
  lr_nonempty : l_segments l ≠ [];
  lr_segs : Forall2 (info_rep w) (l_segments l) gs;
  lr_linked : linked (l_segments l);
  lr_nodup : NoDup (concat (inodes <$> gs));
  lr_inodes : Forall (λ i, (i < w_next w)%nat) (concat (inodes <$> gs));
  lr_dir : Forall (λ s, s_dir s = l_dir l) (l_segments l);
  lr_mode : Forall (λ s, s_compressed s = l_compressed l) (l_segments l)
}.

Lemma log_rep_ro w w' l gs : ro w w' → log_rep w l gs → log_rep w' l gs.
Proof.
  intros Hr R. assert (Hn : w_next w' = w_next w) by (by destruct Hr as [k ->]).
  destruct R. split; try done.
  - eapply Forall2_impl; [done|]. intros s g Hs. by eapply rep_ro.
  - by rewrite Hn.
Qed.

Section facts.
Context (w : world) (l : Log) (gs : list seginfo) (R : log_rep w l gs).

Lemma lr_length : length (l_segments l) = length gs.
Proof. eapply Forall2_length, R. Qed.

Lemma lr_lookup i s : l_segments l !! i = Some s → ∃ g, gs !! i = Some g ∧ info_rep w s g.
Proof. intros Hs. pose proof (lr_segs _ _ _ R) as H. by eapply Forall2_lookup_l in H. Qed.

Lemma lr_lookup_info i g : gs !! i = Some g → ∃ s, l_segments l !! i = Some s ∧ info_rep w s g.
Proof. intros Hg. pose proof (lr_segs _ _ _ R) as H. eapply Forall2_lookup_r in H; naive_solver. Qed.

Lemma lr_both i s g : l_segments l !! i = Some s → gs !! i = Some g → info_rep w s g.
Proof. intros Hs Hg. destruct (lr_lookup i s Hs) as (g' & Hg' & ?). congruence. Qed.

Lemma lr_base_le i s : l_segments l !! i = Some s → 0 ≤ s_baseOffset s ≤ s_nextOffset s.
Proof. intros Hs. destruct (lr_lookup i s Hs) as (g & _ & HR). apply HR. Qed.

(** Base offsets do not decrease. *)
Lemma lr_base_mono i j s s' :
  l_segments l !! i = Some s → l_segments l !! j = Some s' → (i < j)%nat →
  s_nextOffset s ≤ s_baseOffset s'.
Proof.
  revert s'. induction j as [|j IH]; intros s' Hi Hj Hij; [lia|].
  destruct (lookup_lt_is_Some_2 (l_segments l) j) as [sj Hsj].
  { apply lookup_lt_Some in Hj. lia. }
  pose proof (lr_linked _ _ _ R j sj s' Hsj Hj) as Hlink.
  destruct (decide (i = j)) as [->|]; [by simplify_eq; lia|].
  pose proof (IH sj Hi Hsj ltac:(lia)). pose proof (lr_base_le j sj Hsj). lia.
Qed.

Lemma lr_pred_mono (o : Z) (p : Segment → bool) :
  (∀ s s', s_baseOffset s ≤ s_baseOffset s' → p s = true → p s' = true) →
  ∀ a b, (a ≤ b)%nat → (b < length (l_segments l))%nat → seg_pred l p a = true → seg_pred l p b = true.
Proof.
  intros Hp a b Hab Hb. unfold seg_pred.
  destruct (l_segments l !! a) as [sa|] eqn:Ha; [|done].
  destruct (lookup_lt_is_Some_2 _ _ Hb) as [sb Hsb]. rewrite Hsb.
  destruct (decide (a = b)) as [->|]; [by simplify_eq|].
  pose proof (lr_base_mono a b sa sb Ha Hsb ltac:(lia)). pose proof (lr_base_le a sa Ha).
  apply Hp. lia.
Qed.

(** The segment of an offset: the last one based at or below it. *)
Lemma lr_segmentForOffset i s o w' :
  l_segments l !! i = Some s → s_baseOffset s ≤ o →
  (∀ s', l_segments l !! S i = Some s' → o < s_baseOffset s') →
  segmentForOffset l o w' = (Ok i, w').
Proof.
  intros Hi Hbase Hnext. unfold segmentForOffset.
  destruct (l_segments l) as [|s0 segs] eqn:Hsegs; [done|].
  assert (H0 : s_baseOffset s0 ≤ s_baseOffset s).
  { destruct i as [|i]; [by simplify_eq/=|].
    pose proof (lr_base_mono 0 (S i) s0 s) as H. rewrite Hsegs in H.
    pose proof (lr_base_le 0 s0) as H'. rewrite Hsegs in H'.
    specialize (H eq_refl Hi ltac:(lia)). specialize (H' eq_refl). lia. }
  destruct (Z.ltb_spec o (s_baseOffset s0)); [lia|]. rewrite <-Hsegs in *.
  destruct (sort_Search_spec (length (l_segments l)) (seg_pred l (λ s, o <? s_baseOffset s)))
    as (Hk & Hlo & Hhi).
  { apply (lr_pred_mono o). intros s1 s2 Hle H1%Z.ltb_lt. apply Z.ltb_lt. lia. }
  set (k := sort_Search _ _) in *.
  assert (Hi' := lookup_lt_Some _ _ _ Hi).
  assert (k = S i) as ->; [|done].
  assert (¬ (k ≤ i)%nat) as Hki.
  { intros Hki. specialize (Hhi i ltac:(lia)). unfold seg_pred in Hhi. rewrite Hi in Hhi.
    apply Z.ltb_lt in Hhi. lia. }
  destruct (decide (S i < k)%nat) as [Hlt|]; [|lia]. specialize (Hlo (S i) Hlt).
  destruct (lookup_lt_is_Some_2 (l_segments l) (S i)) as [s' Hs']; [lia|].
  unfold seg_pred in Hlo. rewrite Hs' in Hlo. apply Z.ltb_ge in Hlo. specialize (Hnext s' Hs'). lia.
Qed.

Lemma lr_locate i s o w' :
  l_segments l !! i = Some s → s_baseOffset s ≤ o < s_nextOffset s →
  segmentForOffset l o w' = (Ok i, w').
Proof.
  intros Hi Ho. eapply lr_segmentForOffset; [done|lia|].
  intros s' Hs'. rewrite <-(lr_linked _ _ _ R i s s' Hi Hs'). lia.
Qed.

(** The last segment takes every larger offset. *)
Lemma lr_locate_last i s o w' :
  l_segments l !! i = Some s → S i = length (l_segments l) → s_baseOffset s ≤ o →
  segmentForOffset l o w' = (Ok i, w').
Proof.
  intros Hi Hlast Ho. eapply lr_segmentForOffset; [done|lia|].
  intros s' Hs'. apply lookup_lt_Some in Hs'. lia.
Qed.

Lemma segmentForOffset_below o w' s0 :
  l_segments l !! 0%nat = Some s0 → o < s_baseOffset s0 →
  segmentForOffset l o w' = (Err (EMsg "offset %d is before the beginning of the log" [AInt o]), w').
Proof.
  intros H0 Ho. unfold segmentForOffset. destruct (l_segments l) as [|s segs]; [done|]. simplify_eq/=.
  by destruct (Z.ltb_spec o (s_baseOffset s0)); [|lia].
Qed.
End facts.

Lemma elem_of_concat_lookup {A} (ls : list (list A)) x :
  x ∈ concat ls ↔ ∃ i l, ls !! i = Some l ∧ x ∈ l.
Proof.
  induction ls as [|l0 ls IH]; simpl.
  { split; [by intros ?%elem_of_nil|]. intros (i & l & Hi & _). done. }
  rewrite elem_of_app, IH. split.
  - intros [H|(i & l & Hi & Hx)]; [by exists 0%nat, l0|by exists (S i), l].
  - intros ([|i] & l & Hi & Hx); simpl in Hi; [simplify_eq; by left|right; eauto].
Qed.

Lemma NoDup_concat_inj {A} (ls : list (list A)) i j a b x :
  NoDup (concat ls) → ls !! i = Some a → ls !! j = Some b → x ∈ a → x ∈ b → i = j.
Proof.
  revert i j. induction ls as [|l0 ls IH]; intros i j Hn Hi Hj Ha Hb; [done|].
  simpl in Hn. apply NoDup_app in Hn as (_ & Hd & Hn).
  destruct i as [|i], j as [|j]; simpl in *; simplify_eq; [done|..].
  - destruct (Hd x Ha). apply elem_of_concat_lookup. eauto.
  - destruct (Hd x Hb). apply elem_of_concat_lookup. eauto.
  - f_equal. by eapply IH.
Qed.

Lemma elem_of_all_entries gs e :
  e ∈ all_entries gs ↔ ∃ i g k, gs !! i = Some g ∧ g_es g !! k = Some e.
Proof.
  unfold all_entries. rewrite elem_of_concat_lookup. split.
  - intros (i & es & Hi & [k Hk]%list_elem_of_lookup). rewrite list_lookup_fmap in Hi.
    apply fmap_Some in Hi as (g & Hg & ->). eauto.
  - intros (i & g & k & Hg & Hk). exists i, (g_es g). rewrite list_lookup_fmap, Hg. split; [done|].
    by eapply list_elem_of_lookup_2.
Qed.

(** ** Read *)

Section read.
Context `{SN : Snappy}.
Context (w : world) (l : Log) (gs : list seginfo) (R : log_rep w l gs).

Lemma lr_compressed i s : l_segments l !! i = Some s → s_compressed s = l_compressed l.
Proof. intros Hs. pose proof (lr_mode _ _ _ R) as H. by apply (Forall_lookup_1 _ _ _ _ H Hs). Qed.

Lemma reads_segment_at i s w' : l_segments l !! i = Some s → reads (segment_at l i) w' (Ok s).
Proof. intros Hs. unfold segment_at. rewrite Hs. apply reads_ret. Qed.

Lemma reads_located i s o w' :
  l_segments l !! i = Some s → segmentForOffset l o w' = (Ok i, w') →
  reads (segmentForOffset l o) w' (Ok i).
Proof. intros _ H. by apply reads_pure. Qed.

(** Whatever the segment of [o] answers, the log answers. *)
Lemma reads_Log_Read_in i s g o :
  l_segments l !! i = Some s → gs !! i = Some g → (∀ w', segmentForOffset l o w' = (Ok i, w')) →
  reads (Log_Read l o) w (read_spec s (g_es g) o).
Proof.
  intros Hs Hg Hloc. eapply reads_bind; [by apply reads_pure|]. intros w1 R1.
  eapply reads_bind; [by apply reads_segment_at|]. intros w2 R2.
  eapply reads_Segment_Read, rep_ro; [by eapply lr_both|ro_solve].
Qed.

Lemma read_spec_entry s g k e :
  info_rep w s g → g_es g !! k = Some e →
  read_spec s (g_es g) (e_off e) = read_result (s_compressed s) e.
Proof.
  intros HR Hk. pose proof (rep_entry_range _ _ _ _ _ _ _ HR k e Hk). unfold read_spec.
  destruct (Z.ltb_spec (e_off e) (s_baseOffset s)); [lia|].
  destruct (Z.leb_spec (s_nextOffset s) (e_off e)); [lia|]. cbn [orb].
  rewrite decide_False by (intros H'; rewrite H' in Hk; done).
  destruct (find_entry (g_es g) (e_off e)) as [e'|] eqn:Hf.
  - apply find_entry_Some in Hf as [Ho [j Hj]]; [|apply HR].
    assert (k = j) as -> by (eapply sorted_offset_inj; eauto using sr_sorted).
    by simplify_eq.
  - rewrite find_entry_None in Hf. exfalso. apply (Hf e); [|done]. by eapply list_elem_of_lookup_2.
Qed.

Lemma reads_Log_Read_entry e :
  e ∈ all_entries gs → reads (Log_Read l (e_off e)) w (read_result (l_compressed l) e).
Proof.
  intros (i & g & k & Hg & Hk)%elem_of_all_entries.
  destruct (lr_lookup_info _ _ _ R i g Hg) as (s & Hs & HR).
  rewrite <-(lr_compressed i s Hs), <-(read_spec_entry s g k e HR Hk).
  eapply reads_Log_Read_in; [done|done|]. intros w'. eapply lr_locate; [done|done|].
  by eapply rep_entry_range.
Qed.

Lemma reads_Log_Read_above i s o :
  l_segments l !! i = Some s → S i = length (l_segments l) → s_nextOffset s ≤ o →
  reads (Log_Read l o) w (Err (EMsg "offset %d is outside segment" [AInt o])).
Proof.
  intros Hs Hlast Ho. destruct (lr_lookup _ _ _ R i s Hs) as (g & Hg & HR).
  pose proof (lr_base_le _ _ _ R i s Hs).
  pose proof (reads_Log_Read_in i s g o Hs Hg) as Hr. unfold read_spec in Hr.
  destruct (Z.leb_spec (s_nextOffset s) o); [|lia]. rewrite orb_true_r in Hr.
  apply Hr. intros w'. eapply lr_locate_last; [done|done|done|lia].
Qed.

Lemma reads_Log_Read_below s o :
  l_segments l !! 0%nat = Some s → o < s_baseOffset s →
  reads (Log_Read l o) w (Err (EMsg "offset %d is before the beginning of the log" [AInt o])).
Proof.
  intros Hs Ho. apply reads_bind_err. apply reads_pure. by eapply segmentForOffset_below.
Qed.
End read.

(** ** LatestOffset *)

(** The greatest stored offset: the last offset below the end of the last
    segment that is not empty. *)
Lemma latest_of_spec segs :
  latest_of (reverse segs) =
  match last (filter (λ s, s_baseOffset s < s_nextOffset s) segs) with
  | Some s => u64 (s_nextOffset s - 1)
  | None => 0
  end.
Proof.
  induction segs as [|s segs IH] using rev_ind; [done|].
  rewrite reverse_app, filter_app. simpl. rewrite filter_cons, filter_nil.
  destruct (Z.ltb_spec (s_baseOffset s) (s_nextOffset s)).
  - rewrite decide_True by done. by rewrite last_snoc.
  - rewrite decide_False by lia. by rewrite app_nil_r.
Qed.
