(* ===== verification/LogView.v ===== *)
(** * The log as a list of messages

    [Readable w l base msgs]: the messages [msgs], whose offsets are [base],
    [base + 1], ..., can be read from [l].  [Writable w l base msgs]: besides,
    no segment ends in a torn record, the directory holds the files of the
    segments and no others, and the file names of the segments to come are
    free, so that messages can be appended and the log opened again.  This is the abstract
    state of the log; the theorems of LogProps.v say what each operation does
    to it. *)

From S2P Require Import Prelude GoNum OS Snappy Segment SegmentRep SegmentRead SegmentWrite SegmentOpen Log LogRep.

(** No offset of the segment is missing. *)
Definition dense (s : Segment) (g : seginfo) : Prop :=
  consecutive (s_baseOffset s) (g_es g) ∧ s_nextOffset s = s_baseOffset s + zlen (g_es g).

(** No file is named after a base offset above [n]. *)
Definition free_above (w : world) (dir : bytes) (n : Z) : Prop :=
  ∀ b, n < b < 2 ^ 64 →
    entries w dir !! logName b = None ∧ entries w dir !! indexName b = None.

(** No torn record. *)
Definition clean (g : seginfo) : Prop := g_jl g = [] ∧ g_ji g = [].

(** The directory holds the files of the segments, and no other [.log] file. *)
Record dir_holds (w : world) (l : Log) (gs : list seginfo) : Prop := {
  dh_dir : is_Some (w_dirs w !! l_dir l);
  dh_files : Forall2 (λ s g, has_files w (l_dir l) (s_baseOffset s) (g_log g) (g_index g))
               (l_segments l) gs;
  dh_only name i b : entries w (l_dir l) !! name = Some (EFile i) → segmentBaseOffset name = Some b →
    ∃ s, s ∈ l_segments l ∧ name = logName (s_baseOffset s)
}.

(** The base offset of the first segment and the end of the last one. *)
Definition log_base (l : Log) : Z :=
  match l_segments l with s :: _ => s_baseOffset s | [] => 0 end.
Definition log_next (l : Log) : Z :=
  match last (l_segments l) with Some s => s_nextOffset s | None => 0 end.

Section view.
Context `{SN : Snappy}.

Record log_view (w : world) (l : Log) (gs : list seginfo) : Prop := {
  lv_rep : log_rep w l gs;
  lv_dense : Forall2 dense (l_segments l) gs;
  lv_decodes : Forall (decodes (l_compressed l)) (all_entries gs)
}.

Record log_ok (w : world) (l : Log) (gs : list seginfo) : Prop := {
  lo_view : log_view w l gs;
  lo_clean : Forall clean gs;
  lo_dir : dir_holds w l gs;
  lo_free : free_above w (l_dir l) (log_next l)
}.

Definition Readable (w : world) (l : Log) (base : Z) (msgs : list Message) : Prop :=
  ∃ gs, log_view w l gs ∧ base = log_base l ∧ msgs = e_msg <$> all_entries gs.

Definition Writable (w : world) (l : Log) (base : Z) (msgs : list Message) : Prop :=
  ∃ gs, log_ok w l gs ∧ base = log_base l ∧ msgs = e_msg <$> all_entries gs.

Lemma Writable_Readable w l base msgs : Writable w l base msgs → Readable w l base msgs.
Proof. intros (gs & H & ? & ?). exists gs. split_and!; [apply H|done..]. Qed.

Lemma log_view_ro w w' l gs : ro w w' → log_view w l gs → log_view w' l gs.
Proof. intros Hr [H1 H2 H3]. split; [by eapply log_rep_ro|done..]. Qed.

Lemma Readable_ro w w' l base msgs : ro w w' → Readable w l base msgs → Readable w' l base msgs.
Proof. intros Hr (gs & H & ? & ?). exists gs. split_and!; [by eapply log_view_ro|done..]. Qed.

Lemma dir_holds_ro w w' l gs : ro w w' → dir_holds w l gs → dir_holds w' l gs.
Proof.
  intros Hr [D1 D2 D3]. split.
  - by rewrite (ro_dirs _ _ Hr).
  - eapply Forall2_impl; [exact D2|]. intros s g. by apply has_files_ro.
  - rewrite (ro_entries _ _ _ Hr). exact D3.
Qed.

Lemma log_ok_ro w w' l gs : ro w w' → log_ok w l gs → log_ok w' l gs.
Proof.
  intros Hr [V C D F]. split; [by eapply log_view_ro|done|by eapply dir_holds_ro|].
  intros b Hb. rewrite !(ro_entries w w') by done. by apply F.
Qed.

(** ** Offsets *)

Lemma linked_tail s segs : linked (s :: segs) → linked segs.
Proof. intros H i s1 s2 H1 H2. by apply (H (S i)). Qed.

Lemma consecutive_app base es1 es2 :
  consecutive base es1 → consecutive (base + zlen es1) es2 → consecutive base (es1 ++ es2).
Proof.
  intros H1 H2 k e Hk. apply lookup_app_Some in Hk as [Hk|[Hle Hk]]; [by apply H1|].
  rewrite (H2 _ _ Hk). lia.
Qed.

(** The offsets of a chain of dense segments are consecutive. *)
Lemma chain_consecutive segs gs s :
  linked (s :: segs) → Forall2 dense (s :: segs) gs →
  consecutive (s_baseOffset s) (all_entries gs) ∧
  s_baseOffset s + zlen (all_entries gs) = default 0 (s_nextOffset <$> last (s :: segs)).
Proof.
  revert gs s. induction segs as [|s' segs IH]; intros gs s Hl Hd.
  - inversion Hd as [|? g ? gs' [Hc Hn] Hd' E1 E2]; subst.
    inversion Hd'; subst. unfold all_entries. simpl. rewrite app_nil_r. split; [done|lia].
  - inversion Hd as [|? g ? gs' [Hc Hn] Hd' E1 E2]; subst.
    destruct (IH gs' s' (linked_tail _ _ Hl) Hd') as [Hc' Hn'].
    assert (Hs : s_baseOffset s' = s_baseOffset s + zlen (g_es g)).
    { rewrite <-Hn. symmetry. by apply (Hl 0%nat). }
    unfold all_entries in *. rewrite fmap_cons. simpl concat. split.
    + apply consecutive_app; [done|]. by rewrite <-Hs.
    + rewrite last_cons_cons. rewrite length_app. lia.
Qed.

Section facts.
Context (w : world) (l : Log) (gs : list seginfo) (V : log_view w l gs).

Lemma lv_first : ∃ s, l_segments l !! 0%nat = Some s ∧ log_base l = s_baseOffset s.
Proof.
  pose proof (lr_nonempty _ _ _ (lv_rep _ _ _ V)). unfold log_base.
  destruct (l_segments l) as [|s segs]; [done|]. by exists s.
Qed.

Lemma lv_last : ∃ s, last (l_segments l) = Some s ∧ log_next l = s_nextOffset s ∧
  l_segments l !! pred (length (l_segments l)) = Some s ∧
  S (pred (length (l_segments l))) = length (l_segments l).
Proof.
  pose proof (lr_nonempty _ _ _ (lv_rep _ _ _ V)) as Hne. unfold log_next. rewrite last_lookup.
  destruct (lookup_lt_is_Some_2 (l_segments l) (pred (length (l_segments l)))) as [s Hs].
  { destruct (l_segments l); [done|simpl; lia]. }
  exists s. rewrite Hs. split_and!; try done. destruct (l_segments l); [done|simpl; lia].
Qed.

Lemma lv_consecutive : consecutive (log_base l) (all_entries gs).
Proof.
  pose proof (lr_nonempty _ _ _ (lv_rep _ _ _ V)) as Hne. pose proof (lv_dense _ _ _ V) as Hd.
  pose proof (lr_linked _ _ _ (lv_rep _ _ _ V)) as Hl. unfold log_base.
  destruct (l_segments l) as [|s segs]; [done|]. by eapply chain_consecutive.
Qed.

Lemma lv_next : log_next l = log_base l + zlen (all_entries gs).
Proof.
  pose proof (lr_nonempty _ _ _ (lv_rep _ _ _ V)) as Hne. pose proof (lv_dense _ _ _ V) as Hd.
  pose proof (lr_linked _ _ _ (lv_rep _ _ _ V)) as Hl. unfold log_base, log_next.
  destruct (l_segments l) as [|s segs]; [done|].
  destruct (chain_consecutive _ _ _ Hl Hd) as [_ H]. rewrite H. by destruct (last _).
Qed.

Lemma lv_base_range : 0 ≤ log_base l ∧ log_next l < 2 ^ 64.
Proof.
  destruct lv_first as (s & Hs & ->). destruct lv_last as (s' & _ & -> & Hs' & _).
  pose proof (lr_base_le _ _ _ (lv_rep _ _ _ V) 0 s Hs).
  destruct (lr_lookup _ _ _ (lv_rep _ _ _ V) _ _ Hs') as (g & _ & R).
  pose proof (sr_next _ _ _ _ _ _ _ R). lia.
Qed.

(** The messages of a segment, by offset. *)
Lemma lv_segment_read i s o :
  l_segments l !! i = Some s → s_baseOffset s ≤ o < s_nextOffset s →
  log_base l ≤ o ∧
  ∃ e, all_entries gs !! Z.to_nat (o - log_base l) = Some e ∧
    ∀ w', ro w w' → reads (Segment_Read s o) w' (Ok (e_msg e)).
Proof.
  intros Hs Ho. destruct (lr_lookup _ _ _ (lv_rep _ _ _ V) i s Hs) as (g & Hg & R).
  pose proof (lv_dense _ _ _ V) as Hd. pose proof (Forall2_lookup_lr _ _ _ _ _ _ Hd Hs Hg) as [Hc Hn].
  destruct (lookup_lt_is_Some_2 (g_es g) (Z.to_nat (o - s_baseOffset s))) as [e He]; [lia|].
  assert (Heo : e_off e = o) by (rewrite (Hc _ _ He); lia).
  assert (Hin : e ∈ all_entries gs) by (apply elem_of_all_entries; eauto).
  pose proof Hin as [k Hk]%list_elem_of_lookup. pose proof (lv_consecutive _ _ Hk) as Hko.
  split; [lia|]. exists e. split.
  { by replace (Z.to_nat (o - log_base l)) with k by lia. }
  intros w' Hr. rewrite <-Heo.
  pose proof (lv_decodes _ _ _ V) as Hdec. rewrite Forall_forall in Hdec. specialize (Hdec e Hin).
  rewrite <-(lr_compressed w l gs (lv_rep _ _ _ V) i s Hs) in Hdec.
  rewrite <-(read_result_decodes _ _ Hdec). eapply reads_Segment_Read_at; [|exact He].
  by eapply rep_ro.
Qed.

(** No segment reaches past the stored messages. *)
Lemma lv_segment_end i s : l_segments l !! i = Some s → s_nextOffset s ≤ log_base l + zlen (all_entries gs).
Proof.
  intros Hs. rewrite <-(lv_next). destruct lv_last as (s' & _ & -> & Hs' & Hl).
  assert (Hi := lookup_lt_Some _ _ _ Hs).
  destruct (decide (i = pred (length (l_segments l)))) as [->|]; [by simplify_eq|].
  pose proof (lr_base_mono _ _ _ (lv_rep _ _ _ V) i _ s s' Hs Hs' ltac:(lia)).
  pose proof (lr_base_le _ _ _ (lv_rep _ _ _ V) _ s' Hs'). lia.
Qed.

(** Every offset from the base on has a segment. *)
Lemma lv_find o : log_base l ≤ o →
  ∃ i s, l_segments l !! i = Some s ∧ s_baseOffset s ≤ o ∧
    (∀ w', segmentForOffset l o w' = (Ok i, w')) ∧
    (o < s_nextOffset s ∨ S i = length (l_segments l)).
Proof.
  intros Ho. destruct lv_first as (s0 & Hs0 & Hb).
  assert (H : ∀ n, (n < length (l_segments l))%nat →
    ∃ i s, l_segments l !! i = Some s ∧ s_baseOffset s ≤ o ∧
      (∀ s', l_segments l !! S i = Some s' → (S i ≤ n)%nat → o < s_baseOffset s') ∧ (i ≤ n)%nat).
  { induction n as [|n IH]; intros Hn.
    - exists 0%nat, s0. split_and!; [done|lia|lia|lia].
    - destruct (IH ltac:(lia)) as (i & s & Hs & Hle & Hnx & Hin).
      destruct (lookup_lt_is_Some_2 _ _ Hn) as [sn Hsn].
      destruct (decide (s_baseOffset sn ≤ o)).
      + exists (S n), sn. split_and!; [done|done|lia|lia].
      + exists i, s. split_and!; [done|done| |lia]. intros s' Hs' Hi'.
        destruct (decide (S i = S n)) as [Heq|]; [simplify_eq; lia|]. apply Hnx; [done|lia]. }
  destruct lv_last as (sl & _ & _ & Hsl & Hlen).
  destruct (H (pred (length (l_segments l))) ltac:(lia)) as (i & s & Hs & Hle & Hnx & Hin).
  assert (Hnx' : ∀ s', l_segments l !! S i = Some s' → o < s_baseOffset s').
  { intros s' Hs'. apply Hnx; [done|]. apply lookup_lt_Some in Hs'. lia. }
  exists i, s. split_and!; [done|done| |].
  - intros w'. by eapply lr_segmentForOffset; [apply V| | |].
  - destruct (l_segments l !! S i) as [s'|] eqn:Hs'.
    + left. rewrite (lr_linked _ _ _ (lv_rep _ _ _ V) i s s' Hs Hs'). by apply Hnx'.
    + right. apply lookup_ge_None in Hs'. apply lookup_lt_Some in Hs. lia.
Qed.
End facts.

(** ** Read *)

Definition read_at (base : Z) (msgs : list Message) (o : Z) : outcome Message :=
  if o <? base then Err (EMsg "offset %d is before the beginning of the log" [AInt o])
  else match msgs !! Z.to_nat (o - base) with
       | Some m => Ok m
       | None => Err (EMsg "offset %d is outside segment" [AInt o])
       end.

Lemma reads_Log_Read w l base msgs o :
  Readable w l base msgs → reads (Log_Read l o) w (read_at base msgs o).
Proof.
  intros (gs & V & -> & ->). unfold read_at. destruct (lv_first _ _ _ V) as (s0 & Hs0 & Hb).
  destruct (Z.ltb_spec o (log_base l)).
  { eapply reads_Log_Read_below; [done|lia]. }
  destruct (lv_find _ _ _ V o ltac:(done)) as (i & s & Hs & Hle & Hloc & Hor).
  destruct (decide (o < s_nextOffset s)) as [Hlt|Hge].
  - destruct (lv_segment_read _ _ _ V i s o Hs ltac:(done)) as (_ & e & He & Hr).
    rewrite list_lookup_fmap, He. simpl. unfold Log_Read.
    eapply reads_bind; [by apply reads_pure|]. intros w1 R1.
    eapply reads_bind; [by apply reads_segment_at|]. intros w2 R2. apply Hr. ro_solve.
  - destruct Hor as [|Hlast]; [done|].
    rewrite (lookup_ge_None_2 (e_msg <$> _)).
    + eapply reads_Log_Read_above; [apply V|done|done|lia].
    + rewrite length_fmap. destruct (lv_last _ _ _ V) as (s' & _ & Hn & Hs' & Hl').
      pose proof (lv_next _ _ _ V) as Hnext. assert (i = pred (length (l_segments l))) as -> by lia.
      simplify_eq. lia.
Qed.

(** ** LatestOffset *)

Lemma latest_of_dense segs gs :
  Forall2 dense segs gs → Forall (λ s, 0 ≤ s_baseOffset s ∧ s_nextOffset s < 2 ^ 64) segs →
  latest_of (reverse segs) =
  match last (all_entries gs) with Some e => e_off e | None => 0 end.
Proof.
  revert gs. induction segs as [|s segs IH] using rev_ind; intros gs Hd Hr.
  { by inversion Hd. }
  apply Forall2_app_inv_l in Hd as (gs1 & gs2 & Hd1 & Hd2 & ->).
  inversion Hd2 as [|? g ? gs' [Hc Hn] Hd' E1 E2]; subst. inversion Hd'; subst.
  apply Forall_app in Hr as [Hr1 Hr2]. apply Forall_cons_1 in Hr2 as [Hr2 _].
  rewrite reverse_app. simpl. unfold all_entries. rewrite fmap_app, concat_app. simpl.
  rewrite app_nil_r, last_app. destruct (Z.ltb_spec (s_baseOffset s) (s_nextOffset s)) as [Hlt|Hge].
  - destruct (last (g_es g)) as [e|] eqn:Hlast.
    + rewrite last_lookup in Hlast. rewrite (Hc _ _ Hlast). apply lookup_lt_Some in Hlast.
      rewrite u64_id by (unfold is_u64; lia). lia.
    + apply last_None in Hlast. rewrite Hlast in Hn. simpl in Hn. lia.
  - assert (g_es g = []) as ->.
    { destruct (g_es g); [done|]. simpl in Hn. lia. }
    simpl. by apply IH.
Qed.

Lemma LatestOffset_last w l base msgs :
  Readable w l base msgs →
  LatestOffset l = match last msgs with Some m => Offset m | None => 0 end.
Proof.
  intros (gs & V & -> & ->). unfold LatestOffset. rewrite (latest_of_dense _ gs).
  - rewrite fmap_last. by destruct (last _).
  - apply V.
  - apply Forall_lookup_2. intros i s Hs.
    destruct (lr_lookup _ _ _ (lv_rep _ _ _ V) _ _ Hs) as (g & _ & R).
    pose proof (sr_base _ _ _ _ _ _ _ R). pose proof (sr_next _ _ _ _ _ _ _ R). lia.
Qed.

(** ** ReadBatch *)

(** [n] messages from offset [o] on. *)
Definition slice_at (base : Z) (msgs : list Message) (o n : Z) : list Message :=
  take (Z.to_nat n) (drop (Z.to_nat (o - base)) msgs).

Lemma slice_at_snoc base msgs o n m :
  base ≤ o → 0 ≤ n → msgs !! Z.to_nat (o + n - base) = Some m →
  slice_at base msgs o (n + 1) = slice_at base msgs o n ++ [m].
Proof.
  intros Ho Hn Hm. unfold slice_at. replace (Z.to_nat (n + 1)) with (S (Z.to_nat n)) by lia.
  apply take_S_r. rewrite lookup_drop. rewrite <-Hm. f_equal. lia.
Qed.

Lemma zlen_slice_at base msgs o n :
  base ≤ o → 0 ≤ n → o + n ≤ base + zlen msgs → zlen (slice_at base msgs o n) = n.
Proof. intros. unfold slice_at. rewrite length_take, length_drop. lia. Qed.

Lemma slice_at_prefix base msgs o k n : k ≤ n → slice_at base msgs o k `prefix_of` slice_at base msgs o n.
Proof.
  intros Hk. exists (drop (Z.to_nat k) (slice_at base msgs o n)).
  unfold slice_at. rewrite <-(take_drop (Z.to_nat k) (take (Z.to_nat n) _)) at 1.
  rewrite take_take. do 2 f_equal. lia.
Qed.

Section batch.
Context (w : world) (l : Log) (gs : list seginfo) (V : log_view w l gs) (maxCount o : Z).
Let msgs := e_msg <$> all_entries gs.
Let base := log_base l.
Context (Ho : base ≤ o).

(** What a reader that was stopped by the device has. *)
Definition stopped (ms : list Message) : Prop :=
  w_faults w ≠ [] ∧ ms ≠ [] ∧ ms `prefix_of` slice_at base msgs o maxCount.

(** The inner loop, from [n] messages to the end of the segment or of the batch. *)
Lemma wp_read_run fuel i s n w' :
  ro w w' → l_segments l !! i = Some s →
  0 ≤ n ≤ maxCount → maxCount - n ≤ Z.of_nat fuel → s_baseOffset s ≤ o + n ≤ s_nextOffset s →
  wp (read_run fuel s maxCount (o + n) (slice_at base msgs o n))
    (λ r w'', ro w w'' ∧
      match r with
      | inl (ms, cur) => ∃ k, ms = slice_at base msgs o k ∧ cur = o + k ∧ n ≤ k ≤ maxCount ∧
                              cur ≤ s_nextOffset s ∧ (k = maxCount ∨ cur = s_nextOffset s)
      | inr ms => stopped ms
      end)
    (λ e w'', ro w w'' ∧ io_error w e) w'.
Proof.
  intros Hr Hs. revert n w' Hr. induction fuel as [|fuel IH]; intros n w' Hr Hn Hfuel Hcur; simpl.
  all: assert (Hseg : s_nextOffset s ≤ base + zlen msgs)
    by (unfold msgs, base; rewrite length_fmap; by eapply lv_segment_end).
  all: rewrite (zlen_slice_at base msgs o n) by (unfold base in *; lia).
  all: destruct (Z.ltb_spec n maxCount) as [Hlt|Hge]; cbn [andb];
    [destruct (Z.ltb_spec (o + n) (s_nextOffset s)) as [Hin|Hout]; cbn [andb]|].
  all: try (apply wp_ret; split; [done|]; exists n; split_and!; (done || lia)).
  { lia. }
  destruct (lv_segment_read _ _ _ V i s (o + n) Hs ltac:(lia)) as (_ & e & He & Hread).
  wp_steps. eapply wp_reads; [by apply Hread| |].
  - intros w1 R1. cbn beta iota.
    pose proof (lv_base_range _ _ _ V) as [Hb0 Hb64]. pose proof (lv_next _ _ _ V) as Hnx.
    unfold msgs in Hseg. rewrite length_fmap in Hseg.
    rewrite u64_id by (unfold is_u64, base in *; lia).
    rewrite <-(slice_at_snoc base msgs o n (e_msg e)); [|done|lia|by unfold msgs, base; rewrite list_lookup_fmap, He].
    rewrite <-Z.add_assoc. eapply wp_mono; [apply IH; [by etrans|lia..]| |done].
    intros [[ms cur]|ms] w2; [|done]. intros (R2 & k & H1 & H2 & H3 & H4). split; [done|]. exists k.
    split_and!; (done || lia).
  - intros err w1 R1 He1. cbn beta iota.
    assert (io_error w err) as Hio by by eapply io_error_ro.
    destruct (slice_at base msgs o n) as [|m ms] eqn:Hms.
    + apply wp_throw. split; [by etrans|done].
    + apply wp_ret. split; [by etrans|]. split_and!; [apply Hio|done|]. rewrite <-Hms. apply slice_at_prefix. lia.
Qed.

Lemma slice_at_end k n :
  base + zlen msgs ≤ o + k → k ≤ n → slice_at base msgs o k = slice_at base msgs o n.
Proof.
  intros Hk Hn. unfold slice_at. rewrite !take_ge; [done|rewrite length_drop; lia..].
Qed.

Lemma read_segments_full fuel cur ms w' :
  maxCount ≤ zlen ms → read_segments fuel l maxCount cur ms w' = (Ok ms, w').
Proof. intros H. destruct fuel; simpl; by destruct (Z.ltb_spec (zlen ms) maxCount); [lia|]. Qed.

Lemma read_run_stop fuel s cur ms w' :
  s_nextOffset s ≤ cur → read_run fuel s maxCount cur ms w' = (Ok (inl (ms, cur)), w').
Proof.
  intros H. destruct fuel; simpl; destruct (Z.ltb_spec cur (s_nextOffset s)); try lia; by rewrite andb_false_r.
Qed.

(** One round, in segment [i], from the [n] messages that are read already. *)
Lemma wp_read_round i s n w1 :
  ro w w1 → l_segments l !! i = Some s → 0 ≤ n → n < maxCount → s_baseOffset s ≤ o + n →
  (n = 0 ∨ o + n ≤ s_nextOffset s) →
  wp (read_run (Z.to_nat (maxCount - n)) s maxCount (o + n) (slice_at base msgs o n))
    (λ r w'', ro w w'' ∧
      match r with
      | inl (ms, cur) => ∃ k, ms = slice_at base msgs o k ∧ cur = o + k ∧ n ≤ k ≤ maxCount ∧
          (k = 0 ∨ cur ≤ s_nextOffset s) ∧ (k = maxCount ∨ s_nextOffset s ≤ cur)
      | inr ms => stopped ms
      end)
    (λ e w'', ro w w'' ∧ io_error w e) w1.
Proof.
  intros Hr Hs Hn Hlt Hb Hn0. destruct (Z.leb_spec (o + n) (s_nextOffset s)).
  - eapply wp_mono; [apply (wp_read_run _ i); [done|done|lia..]| |done].
    intros [[ms cur]|ms] w2; [|done]. intros (R2 & k & -> & -> & ? & ? & ?). split; [done|].
    exists k. split_and!; (done || lia).
  - eapply wp_run; [apply read_run_stop; lia|]. split; [done|]. exists n.
    split_and!; (done || lia).
Qed.

(** The outer loop, at the segment of the current offset: every further round
    is at a later segment. *)
Lemma wp_read_segments fuel i s n w' :
  ro w w' → 0 ≤ n ≤ maxCount → l_segments l !! i = Some s → s_baseOffset s ≤ o + n →
  (∀ w', segmentForOffset l (o + n) w' = (Ok i, w')) →
  (o + n < s_nextOffset s ∨ S i = length (l_segments l)) →
  (n = 0 ∨ o + n ≤ s_nextOffset s) → (length (l_segments l) - i ≤ fuel)%nat →
  wp (read_segments fuel l maxCount (o + n) (slice_at base msgs o n))
    (λ ms w'', ro w w'' ∧ (ms = slice_at base msgs o maxCount ∨ stopped ms))
    (λ e w'', ro w w'' ∧ io_error w e) w'.
Proof.
  revert i s n w'. induction fuel as [|fuel IH]; intros i s n w' Hr Hn Hs Hb Hloc Hend Hn0 Hfuel.
  { apply lookup_lt_Some in Hs. lia. }
  assert (Hseg : s_nextOffset s ≤ base + zlen msgs)
    by (unfold msgs, base; rewrite length_fmap; by eapply lv_segment_end).
  assert (Hlen : zlen (slice_at base msgs o n) = n).
  { destruct Hn0 as [->|]; [done|]. apply zlen_slice_at; unfold base in *; lia. }
  destruct (Z.leb_spec maxCount n) as [Hfull|Hlt].
  { eapply wp_run; [apply read_segments_full; lia|]. split; [done|left]. f_equal; lia. }
  simpl. rewrite Hlen. destruct (Z.ltb_spec n maxCount); [|lia].
  wp_steps. eapply wp_run; [apply Hloc|]. cbn beta iota. wp_steps.
  eapply wp_reads; [by apply reads_segment_at| |]; [|intros e w1 R1 He; split; [by etrans|by eapply io_error_ro]].
  intros w1 R1. wp_steps.
  eapply wp_mono; [apply (wp_read_round i s n w1); [by etrans|(done || lia)..]| |done].
  intros [[ms cur]|ms] w2; [|by intros [R2 Hst]; apply wp_ret; auto].
  intros (R2 & k & -> & -> & Hk & Hk0 & Hor). cbn beta iota.
  destruct (Z.leb_spec (s_nextOffset s) (o + k)) as [Hout|Hin]; cbn [andb].
  2: { assert (k = maxCount) as -> by lia. eapply wp_run; [|by split; [|left]].
       apply read_segments_full. rewrite zlen_slice_at by (unfold base in *; lia). lia. }
  destruct (Nat.eqb_spec i (pred (length (l_segments l)))) as [Hlast|Hnot]; cbn [andb].
  - apply wp_ret. split; [done|left]. apply slice_at_end; [|lia].
    destruct (lv_last _ _ _ V) as (s' & _ & Hnx & Hs' & _). subst i. simplify_eq.
    pose proof (lv_next _ _ _ V). unfold base, msgs. rewrite length_fmap. lia.
  - assert (Hi := lookup_lt_Some _ _ _ Hs).
    destruct (lv_find _ _ _ V (o + k)) as (j & sj & Hsj & Hbj & Hlocj & Hendj); [unfold base in *; lia|].
    assert (i < j)%nat as Hij.
    { destruct (decide (i < j)%nat) as [|Hge]; [done|]. destruct Hendj as [Hlt'|]; [|lia].
      destruct (decide (i = j)) as [->|]; [simplify_eq; lia|].
      pose proof (lr_base_mono _ _ _ (lv_rep _ _ _ V) j i sj s Hsj Hs ltac:(lia)).
      pose proof (lr_base_le _ _ _ (lv_rep _ _ _ V) _ s Hs). lia. }
    eapply IH; [done|lia|exact Hsj|done|done|done| |lia].
    destruct Hk0 as [|Hk0]; [by left|right].
    pose proof (lr_base_mono _ _ _ (lv_rep _ _ _ V) i j s sj Hs Hsj Hij).
    pose proof (lr_base_le _ _ _ (lv_rep _ _ _ V) _ sj Hsj). lia.
Qed.
End batch.

Lemma wp_Log_ReadBatch w l bs ms o n :
  Readable w l bs ms → bs ≤ o → 0 < n →
  wp (Log_ReadBatch l o n)
    (λ res w', ro w w' ∧
      (res = slice_at bs ms o n ∨
       w_faults w ≠ [] ∧ res ≠ [] ∧ res `prefix_of` slice_at bs ms o n))
    (λ e w', ro w w' ∧ io_error w e) w.
Proof.
  intros (gs & V & -> & ->) Ho Hn. unfold Log_ReadBatch. destruct (Z.leb_spec n 0); [lia|].
  destruct (lv_find _ _ _ V o Ho) as (i & s & Hs & Hb & Hloc & Hend).
  pose proof (wp_read_segments w l gs V n o Ho (S (length (l_segments l))) i s 0 w) as Hw.
  rewrite Z.add_0_r in Hw. apply Hw; try done; try lia.
Qed.

Lemma reads_Log_ReadBatch_below w l bs ms o n :
  Readable w l bs ms → o < bs → 0 < n →
  reads (Log_ReadBatch l o n) w (Err (EMsg "offset %d is before the beginning of the log" [AInt o])).
Proof.
  intros (gs & V & -> & ->) Ho Hn. unfold Log_ReadBatch. destruct (Z.leb_spec n 0); [lia|].
  destruct (lv_first _ _ _ V) as (s0 & Hs0 & Hb). cbn [read_segments length Z.of_nat].
  rewrite (proj2 (Z.ltb_lt (Z.of_nat 0) n)) by lia. apply reads_pure.
  erewrite run_bind; [|unfold attempt; by erewrite segmentForOffset_below by (done || lia)]. done.
Qed.
End view.
