(* ===== verification/LogWrite.v ===== *)
(** * Appending to a log

    [Append] and [AppendBatch] on the representation: what the active segment
    does to itself, carried to the log, and the roll to a new segment. *)

From S2P Require Import Prelude GoNum OS Snappy Segment SegmentRep SegmentRead SegmentWrite SegmentOpen Log LogRep LogView.

Lemma set_segments_segments segs l : l_segments (set_segments segs l) = segs.
Proof. done. Qed.

Lemma wp_on_segment {A} i (m : GoM (Segment * world) A) (Q : A → Log * world → Prop) E l w s :
  l_segments l !! i = Some s →
  wp m (λ a '(s', w'), Q a (set_segments (<[i := s']> (l_segments l)) l, w'))
       (λ e '(s', w'), E e (set_segments (<[i := s']> (l_segments l)) l, w')) (s, w) →
  wp (on_segment i m) Q E (l, w).
Proof. intros Hs. unfold wp, on_segment. rewrite Hs. by destruct (m (s, w)) as [[] [s' w']]. Qed.

(** A segment none of whose files changed. *)
Lemma rep_frame w w' s li ii es jl ji :
  seg_rep w s li ii es jl ji → w_data w' !! li = w_data w !! li → w_data w' !! ii = w_data w !! ii →
  seg_rep w' s li ii es jl ji.
Proof. intros R Hl Hi. destruct R. split; try done; by rewrite ?Hl, ?Hi. Qed.

Lemma Forall2_snoc_inv {A B} (P : A → B → Prop) l x k :
  Forall2 P (l ++ [x]) k → ∃ k0 y, k = k0 ++ [y] ∧ Forall2 P l k0 ∧ P x y.
Proof.
  intros H. apply Forall2_app_inv_l in H as (k0 & k1 & H0 & H1 & ->).
  inversion H1 as [|? y ? ? Hxy Hnil]; subst. inversion Hnil; subst. eauto.
Qed.

Lemma Forall2_snoc {A B} (P : A → B → Prop) l k x y :
  Forall2 P l k → P x y → Forall2 P (l ++ [x]) (k ++ [y]).
Proof. intros H Hxy. apply Forall2_app; [done|]. constructor; [done|constructor]. Qed.

Lemma Forall2_impl_in {A B} (P Q : A → B → Prop) l k :
  Forall2 P l k → (∀ x y, y ∈ k → P x y → Q x y) → Forall2 Q l k.
Proof. induction 1 as [|x y l k Hxy _ IH]; intros H; constructor; [apply H; [left|done]|]. set_solver. Qed.

Lemma Forall2_impl_in_l {A B} (P Q : A → B → Prop) l k :
  Forall2 P l k → (∀ x y, x ∈ l → P x y → Q x y) → Forall2 Q l k.
Proof. induction 1 as [|x y l k Hxy _ IH]; intros H; constructor; [apply H; [left|done]|]. set_solver. Qed.

Lemma all_entries_app gs1 gs2 : all_entries (gs1 ++ gs2) = all_entries gs1 ++ all_entries gs2.
Proof. unfold all_entries. by rewrite fmap_app, concat_app. Qed.

Lemma all_entries_one g : all_entries [g] = g_es g.
Proof. unfold all_entries. simpl. apply app_nil_r. Qed.

Lemma last_snoc_inv {A} (l : list A) x : last l = Some x → ∃ l0, l = l0 ++ [x].
Proof.
  intros H. destruct l as [|y l] using rev_ind; [done|]. rewrite last_snoc in H.
  apply (inj Some) in H as ->. eauto.
Qed.

Lemma lookup_snoc_last {A} (l : list A) x : (l ++ [x]) !! pred (length (l ++ [x])) = Some x.
Proof. rewrite length_app. simpl. rewrite lookup_app_r by lia. by replace (_ - _)%nat with 0%nat by lia. Qed.

Lemma insert_snoc_last {A} (l : list A) x y : <[pred (length (l ++ [x])) := y]> (l ++ [x]) = l ++ [y].
Proof.
  rewrite length_app. simpl. rewrite insert_app_r_alt by lia.
  by replace (_ - _)%nat with 0%nat by lia.
Qed.

Lemma linked_snoc segs s s' :
  linked (segs ++ [s]) → s_baseOffset s' = s_baseOffset s → linked (segs ++ [s']).
Proof.
  intros H Hb i a b Ha Hb'. destruct (decide (S i < length segs)%nat).
  - apply (H i); [rewrite lookup_app_l in * by lia; done..].
  - assert (Hi := lookup_lt_Some _ _ _ Hb'). rewrite length_app in Hi. simpl in Hi.
    rewrite lookup_app_l in Ha by lia. rewrite lookup_app_r in Hb' by lia.
    replace (S i - length segs)%nat with 0%nat in Hb' by lia. apply (inj Some) in Hb' as <-.
    rewrite Hb. apply (H i); [by rewrite lookup_app_l by lia|].
    rewrite lookup_app_r by lia. by replace (S i - length segs)%nat with 0%nat by lia.
Qed.

Lemma linked_push segs s s' :
  linked (segs ++ [s]) → s_nextOffset s = s_baseOffset s' → linked ((segs ++ [s]) ++ [s']).
Proof.
  intros H Hb i a b Ha Hb'. assert (Hi := lookup_lt_Some _ _ _ Hb').
  rewrite !length_app in Hi. simpl in Hi. destruct (decide (S i < length (segs ++ [s]))%nat) as [Hlt|Hge].
  - apply (H i); [rewrite lookup_app_l in * by lia; done..].
  - rewrite length_app in Hge. simpl in Hge. assert (i = length segs) as -> by lia.
    rewrite lookup_app_l in Ha by (rewrite length_app; simpl; lia).
    rewrite lookup_app_r, Nat.sub_diag in Ha by lia.
    rewrite lookup_app_r in Hb' by (rewrite length_app; simpl; lia).
    rewrite length_app in Hb'. simpl in Hb'. replace (_ - _)%nat with 0%nat in Hb' by lia.
    by apply (inj Some) in Ha as <-; apply (inj Some) in Hb' as <-.
Qed.

Section log.
Context `{SN : Snappy}.

Lemma log_view_observe w l gs v : log_view w l gs → log_view w (observe v l) gs.
Proof. intros [[] ? ?]. by split; [split|..]. Qed.

(** The configuration of a log, which appends do not touch. *)
Definition same_config (l l' : Log) : Prop :=
  l_dir l' = l_dir l ∧ l_maxSegmentSize l' = l_maxSegmentSize l ∧
  l_compressed l' = l_compressed l ∧ l_observer l' = l_observer l.

(** The last segment is below the size at which it is rolled. *)
Definition not_full (l : Log) : Prop :=
  ∀ s, last (l_segments l) = Some s → 0 < l_maxSegmentSize l → s_size s < l_maxSegmentSize l.

Section last.
Context (w : world) (l : Log) (segs : list Segment) (s : Segment) (gs : list seginfo) (g : seginfo).
Context (V : log_view w l (gs ++ [g])) (Hsegs : l_segments l = segs ++ [s]).

Lemma lv_snoc : Forall2 (info_rep w) segs gs ∧ info_rep w s g ∧ Forall2 dense segs gs ∧ dense s g.
Proof.
  pose proof (lr_segs _ _ _ (lv_rep _ _ _ V)) as H1. pose proof (lv_dense _ _ _ V) as H2.
  rewrite Hsegs in H1, H2.
  apply Forall2_snoc_inv in H1 as (k1 & y1 & E1 & ? & ?). apply app_inj_tail in E1 as [<- <-].
  apply Forall2_snoc_inv in H2 as (k2 & y2 & E2 & ? & ?). by apply app_inj_tail in E2 as [<- <-].
Qed.

(** The inodes of the earlier segments are not those of the last one. *)
Lemma lv_inodes_ne g0 i : g0 ∈ gs → i ∈ inodes g0 → i ≠ g_log g ∧ i ≠ g_index g ∧ (i < w_next w)%nat.
Proof.
  intros Hg Hi. pose proof (lr_nodup _ _ _ (lv_rep _ _ _ V)) as Hn.
  pose proof (lr_inodes _ _ _ (lv_rep _ _ _ V)) as Hl.
  rewrite fmap_app, concat_app in Hn, Hl. apply NoDup_app in Hn as (_ & Hn & _).
  apply Forall_app in Hl as [Hl _]. rewrite Forall_forall in Hl.
  assert (Hin : i ∈ concat (inodes <$> gs)).
  { apply elem_of_concat_lookup. apply list_elem_of_lookup in Hg as [k Hk].
    exists k, (inodes g0). rewrite list_lookup_fmap, Hk. done. }
  specialize (Hn i Hin). specialize (Hl i Hin). simpl in Hn. set_solver.
Qed.

(** The last segment changed, and only its files. *)
Lemma lv_replace_last w' s' g' :
  grew (g_log g) (g_index g) w w' → info_rep w' s' g' → inodes g' = inodes g →
  dense s' g' → s_baseOffset s' = s_baseOffset s → s_dir s' = s_dir s →
  s_compressed s' = s_compressed s → Forall (decodes (l_compressed l)) (g_es g') →
  log_view w' (set_segments (segs ++ [s']) l) (gs ++ [g']).
Proof.
  intros (_ & Hnext & _ & Hdata & _) HR Hino Hd Hb Hdir Hc Hdec.
  destruct lv_snoc as (HR0 & _ & Hd0 & _). pose proof (lv_rep _ _ _ V) as L.
  pose proof (lr_linked _ _ _ L) as Hlink. pose proof (lr_nodup _ _ _ L) as Hnodup.
  pose proof (lr_inodes _ _ _ L) as Hlt. pose proof (lr_dir _ _ _ L) as Hdirs.
  pose proof (lr_mode _ _ _ L) as Hmode. rewrite Hsegs in *.
  apply Forall_app in Hdirs as [Hdirs Hdirs1]. apply Forall_app in Hmode as [Hmode Hmode1].
  apply Forall_cons_1 in Hdirs1 as [Hdirs1 _]. apply Forall_cons_1 in Hmode1 as [Hmode1 _].
  assert (Hcat : concat (inodes <$> gs ++ [g']) = concat (inodes <$> gs ++ [g])).
  { by rewrite !fmap_app; simpl; rewrite Hino. }
  split; [split| |]; simpl.
  - by destruct segs.
  - apply Forall2_snoc; [|done]. eapply Forall2_impl_in; [exact HR0|]. intros s0 g0 Hg0 R0.
    destruct (lv_inodes_ne g0 (g_log g0) Hg0) as (? & ? & _); [left|].
    destruct (lv_inodes_ne g0 (g_index g0) Hg0) as (? & ? & _); [right; left|].
    eapply rep_frame; [exact R0|by apply Hdata..].
  - by eapply linked_snoc.
  - by rewrite Hcat.
  - by rewrite Hcat, Hnext.
  - apply Forall_app. split; [done|]. repeat constructor. congruence.
  - apply Forall_app. split; [done|]. repeat constructor. congruence.
  - by apply Forall2_snoc.
  - pose proof (lv_decodes _ _ _ V) as Hdec0. rewrite all_entries_app in *.
    apply Forall_app in Hdec0 as [? _]. apply Forall_app. by rewrite all_entries_one.
Qed.
End last.

(** New files do not touch the segments. *)
Lemma lr_extends w w' l gs dir base :
  log_rep w l gs → extends dir base w w' → Forall2 (info_rep w') (l_segments l) gs.
Proof.
  intros L (_ & Hdata & _). eapply Forall2_impl_in; [apply L|]. intros s0 g0 Hg0 R0.
  assert (Hin : ∀ i, i ∈ inodes g0 → (i < w_next w)%nat).
  { intros i Hi. pose proof (lr_inodes _ _ _ L) as Hlt. rewrite Forall_forall in Hlt.
    apply Hlt, elem_of_concat_lookup. apply list_elem_of_lookup in Hg0 as [k Hk].
    exists k, (inodes g0). by rewrite list_lookup_fmap, Hk. }
  eapply rep_frame; [exact R0|apply Hdata, Hin; by repeat constructor..].
Qed.

Lemma lv_extends w w' l gs dir base : log_view w l gs → extends dir base w w' → log_view w' l gs.
Proof.
  intros [L ? ?] Hx. split; [|done..]. pose proof (lr_extends _ _ _ _ _ _ L Hx).
  pose proof (lr_inodes _ _ _ L) as Hlt. destruct L, Hx as [Hnx _]. split; try done.
  eapply Forall_impl; [exact Hlt|]. simpl. lia.
Qed.

(** A new, empty segment at the end. *)
Lemma lv_push w w' l s gs s' li ii base :
  log_view w l gs → last (l_segments l) = Some s → extends (l_dir l) base w w' →
  seg_rep w' s' li ii [] [] [] →
  li = w_next w → ii = S (w_next w) → w_next w' = S (S (w_next w)) →
  s_baseOffset s' = s_nextOffset s → s_nextOffset s' = s_nextOffset s →
  s_dir s' = l_dir l → s_compressed s' = l_compressed l →
  log_view w' (set_segments (l_segments l ++ [s']) l) (gs ++ [mkInfo li ii [] [] []]).
Proof.
  intros V Hlast Hx R -> -> Hnext Hb Hn Hdir Hc.
  apply last_snoc_inv in Hlast as [segs Hsegs]. pose proof (lv_rep _ _ _ V) as L.
  assert (Hall : all_entries (gs ++ [mkInfo (w_next w) (S (w_next w)) [] [] []]) = all_entries gs).
  { rewrite all_entries_app, all_entries_one. apply app_nil_r. }
  pose proof (lr_inodes _ _ _ L) as Hlt.
  split; [split| |]; simpl.
  - by destruct (l_segments l).
  - apply Forall2_snoc; [|exact R]. by eapply lr_extends.
  - rewrite Hsegs. apply linked_push; [|done]. rewrite <-Hsegs. apply L.
  - rewrite fmap_app, concat_app. simpl. apply NoDup_app. split_and!.
    + apply L.
    + intros i Hi. rewrite Forall_forall in Hlt. specialize (Hlt i Hi). set_unfold. lia.
    + apply NoDup_cons. split; [|apply NoDup_singleton]. intros Hi%list_elem_of_singleton. simpl in Hi. lia.
  - rewrite fmap_app, concat_app. apply Forall_app. split.
    + eapply Forall_impl; [exact Hlt|]. simpl. lia.
    + repeat apply Forall_cons_2; simpl; [lia|lia|by apply Forall_nil].
  - apply Forall_app. split; [apply L|]. by repeat constructor.
  - apply Forall_app. split; [apply L|]. by repeat constructor.
  - apply Forall2_snoc; [apply V|]. split; [by intros k e Hk|]. simpl. lia.
  - rewrite Hall. apply V.
Qed.

(** ** The roll *)

Lemma free_above_ro w w' dir n : ro w w' → free_above w dir n → free_above w' dir n.
Proof. intros Hr H b Hb. rewrite !(ro_entries w w') by done. by apply H. Qed.

Lemma free_above_mono w dir n m : n ≤ m → free_above w dir n → free_above w dir m.
Proof. intros Hnm H b Hb. apply H. lia. Qed.

Lemma free_above_extends w w' dir n base :
  0 ≤ base < 2 ^ 64 → base ≤ n → extends dir base w w' → free_above w dir n → free_above w' dir n.
Proof.
  intros Hb Hn (_ & _ & He) H b Hnb. destruct (H b Hnb) as [H1 H2].
  rewrite !He; [done|..]; right; split.
  - intros Heq. symmetry in Heq. by eapply logName_indexName.
  - intros Heq. apply indexName_inj in Heq; unfold is_u64; lia.
  - intros Heq. apply logName_inj in Heq; unfold is_u64; lia.
  - apply logName_indexName.
Qed.

Lemma reopened_fresh dir base w w' c :
  0 ≤ base < 2 ^ 64 → after w (created_segment dir base w) w' →
  seg_rep w' (Segment_SetCompressed c (reopened dir base (w_next w) (S (w_next w)) []))
    (w_next w) (S (w_next w)) [] [] [].
Proof.
  intros Hb Haft. destruct (created_files dir base w) as (_ & _ & Hdata & _).
  apply set_compressed_rep, reopened_rep.
  - split_and!; rewrite ?enc_log_nil; (lia || apply SSorted_nil || apply Forall_nil || done); done.
  - lia.
  - rewrite (after_data _ _ _ Haft), Hdata, lookup_insert_ne, lookup_insert_eq by lia. done.
  - by rewrite (after_data _ _ _ Haft), Hdata, lookup_insert_eq.
Qed.

(** The files of a new segment in the directory. *)
Lemma dh_push w w' l gs s' base :
  dir_holds w l gs → after w (created_segment (l_dir l) base w) w' → 0 ≤ base < 2 ^ 64 →
  s_baseOffset s' = base →
  entries w (l_dir l) !! logName base = None → entries w (l_dir l) !! indexName base = None →
  dir_holds w' (set_segments (l_segments l ++ [s']) l) (gs ++ [mkInfo (w_next w) (S (w_next w)) [] [] []]).
Proof.
  intros [D1 D2 D3] A Hb Hbase Hfl Hfi.
  destruct (created_files (l_dir l) base w) as (Hf & _ & _ & He).
  rewrite <-(after_entries _ _ _ (l_dir l) A) in He. split; simpl.
  - rewrite (after_dirs _ _ _ A). apply dir_create.
  - apply Forall2_snoc.
    + eapply Forall2_impl; [exact D2|]. intros s0 g0 [H1 H2]. unfold has_files. rewrite He.
      rewrite !lookup_insert_ne; [done|..]; try congruence; try apply logName_indexName.
    + rewrite Hbase. unfold has_files. rewrite He, lookup_insert_eq, lookup_insert_ne, lookup_insert_eq; [done|].
      intros Heq. by eapply logName_indexName.
  - rewrite He. intros name i b Hname Hsb. destruct (decide (name = indexName base)) as [->|].
    { by rewrite segmentBaseOffset_indexName in Hsb. }
    rewrite lookup_insert_ne in Hname by done. destruct (decide (name = logName base)) as [->|].
    { exists s'. split; [apply elem_of_app; right; left|]. by rewrite Hbase. }
    rewrite lookup_insert_ne in Hname by done. destruct (D3 _ _ _ Hname Hsb) as (s0 & ? & ?).
    exists s0. split; [by apply elem_of_app; left|done].
Qed.

(** The end of an append: [l] holds its new entries and is to roll if its last
    segment is full.  Names above an earlier end [m] are free. *)
Lemma wp_roll w l gs m Q E :
  log_view w l gs → Forall clean gs → dir_holds w l gs →
  m < log_next l → free_above w (l_dir l) m →
  (∀ l' w' gs', log_ok w' l' gs' → all_entries gs' = all_entries gs → log_base l' = log_base l →
    log_next l' = log_next l → same_config l l' → l_saved l' = l_saved l → not_full l' → Q tt (l', w')) →
  (∀ err w', io_error w err → log_view w' l gs → E err (l, w')) →
  wp (roll_if_full (pred (length (l_segments l))) (log_next l)) Q E (l, w).
Proof.
  intros V Hclean Hdir Hm Hfree HQ HE. destruct (lv_last _ _ _ V) as (s & Hlast & Hn & Hs & _).
  destruct (lv_base_range _ _ _ V) as [Hb0 Hn64]. pose proof (lv_next _ _ _ V) as Hnext.
  unfold roll_if_full. wp_steps. unfold segment_at. rewrite Hs. wp_steps.
  destruct (Z.leb_spec (l_maxSegmentSize l) (u64 (s_size s))) as [Hfull|Hfull].
  - destruct (Hfree (log_next l) ltac:(lia)) as [F1 F2].
    wp_steps. apply wp_NewSegment_fresh; [done|done| |].
    2: { intros e w1 He Hx. apply HE; [done|].
         by eapply lv_extends. }
    intros w1 A1. wp_steps. rewrite Hn in *.
    destruct (created_files (l_dir l) (s_nextOffset s) w) as (_ & Hnx & _ & _).
    assert (Hext : extends (l_dir l) (s_nextOffset s) w w1).
    { eapply extends_after; [apply extends_created|done]. }
    eapply HQ.
    + split.
      * eapply lv_push; [done|done|exact Hext|apply reopened_fresh; [lia|exact A1]|..]; try done.
        by rewrite (after_next _ _ _ A1).
      * apply Forall_app. split; [done|]. apply Forall_cons_2; [done|by apply Forall_nil].
      * eapply dh_push; [done|exact A1|lia|done..].
      * unfold log_next. simpl. rewrite last_snoc. change (free_above w1 (l_dir l) (s_nextOffset s)).
        eapply (free_above_extends w w1 _ _ (s_nextOffset s)); [lia|lia|done|]. eapply free_above_mono; [|done]. lia.
    + rewrite all_entries_app, all_entries_one. apply app_nil_r.
    + unfold log_base. simpl. by destruct (l_segments l).
    + unfold log_next. simpl. rewrite last_snoc. done.
    + by split_and!.
    + done.
    + intros s0 Hs0 Hmax. simpl in Hs0. rewrite last_snoc in Hs0. apply (inj Some) in Hs0 as <-. simpl.
      by rewrite enc_log_nil.
  - wp_steps. eapply HQ; try done.
    2: { intros s0 Hs0 _. simplify_eq. destruct (lr_lookup _ _ _ (lv_rep _ _ _ V) _ _ Hs) as (g & _ & R).
         rewrite (rep_size_u64 _ _ _ _ _ _ _ R) in Hfull. by rewrite (sr_size _ _ _ _ _ _ _ R). }
    split; [done|done|done|]. eapply free_above_mono; [|done]. lia.
Qed.

(** ** Append and AppendBatch *)

(** Enough offsets and file positions are left. *)
Definition log_room (l : Log) (n bytes : Z) : Prop :=
  ∀ s, last (l_segments l) = Some s → room s n bytes.

(** How an append that fails leaves the log, with [es2] stored: nothing when the
    write to the active segment failed, its entries when only the roll did. *)
Definition append_failed (l : Log) (gs : list seginfo) (es2 : list entry) (l' : Log) (w' : world) : Prop :=
  ∃ gs', log_view w' l' gs' ∧ log_base l' = log_base l ∧ same_config l l' ∧
    all_entries gs' = all_entries gs ++ es2.

(** The outcome of an operation on the active segment. *)
Definition on_active {A} (m : GoM (Segment * world) A) (l : Log) (w : world) (o : outcome A) : Prop :=
  ∃ s, last (l_segments l) = Some s ∧ (m (s, w)).1 = o.

(** How one that succeeds does. *)
Definition append_done (l : Log) (gs : list seginfo) (es2 : list entry) (saved : Z) (l' : Log) (w' : world) : Prop :=
  ∃ gs', log_ok w' l' gs' ∧ log_base l' = log_base l ∧ same_config l l' ∧
    all_entries gs' = all_entries gs ++ es2 ∧
    l_saved l' = l_saved l ++ (if (0 <? saved) && l_observer l then [u64 saved] else []) ∧
    not_full l'.

Lemma grew_faults li ii w w' e : grew li ii w w' → io_error w' e → w_faults w ≠ [].
Proof. intros (_ & _ & [k Hk] & _) [He _] Hw. by rewrite Hk, Hw, drop_nil in He. Qed.

Section active.
Context (w : world) (l : Log) (segs : list Segment) (s : Segment) (gs : list seginfo) (g : seginfo).
Context (O : log_ok w l (gs ++ [g])) (Hsegs : l_segments l = segs ++ [s]).

Lemma log_next_snoc : log_next l = s_nextOffset s.
Proof. unfold log_next. by rewrite Hsegs, last_snoc. Qed.

Lemma lo_active : seg_rep w s (g_log g) (g_index g) (g_es g) [] [].
Proof.
  destruct (lv_snoc _ _ _ _ _ _ (lo_view _ _ _ O) Hsegs) as (_ & R & _).
  pose proof (lo_clean _ _ _ O) as H. apply Forall_app in H as [_ H].
  apply Forall_cons_1 in H as [[H1 H2] _]. unfold info_rep in R.
  by rewrite H1, H2 in R.
Qed.

Lemma lo_mode : s_compressed s = l_compressed l.
Proof.
  pose proof (lr_mode _ _ _ (lv_rep _ _ _ (lo_view _ _ _ O))) as H. rewrite Hsegs in H.
  apply Forall_app in H as [_ H]. by apply Forall_cons_1 in H as [H _].
Qed.

(** A write that failed. *)
Lemma active_failed err w' :
  write_failed w s (g_log g) (g_index g) (g_es g) err w' →
  append_failed l (gs ++ [g]) [] (set_segments (segs ++ [s]) l) w'.
Proof.
  intros (_ & Hgrew & jl & ji & R'). pose proof (lo_view _ _ _ O) as V.
  destruct (lv_snoc _ _ _ _ _ _ V Hsegs) as (_ & _ & _ & Hd).
  exists (gs ++ [mkInfo (g_log g) (g_index g) (g_es g) jl ji]). split_and!.
  - eapply lv_replace_last; try done.
    pose proof (lv_decodes _ _ _ V) as Hdec. rewrite all_entries_app, all_entries_one in Hdec.
    by apply Forall_app in Hdec as [_ ?].
  - unfold log_base. simpl. by rewrite Hsegs.
  - by split_and!.
  - by rewrite !all_entries_app, !all_entries_one, app_nil_r.
Qed.

(** A write that succeeded, up to the roll. *)
Lemma active_grown w' s' es2 :
  grew (g_log g) (g_index g) w w' →
  seg_rep w' s' (g_log g) (g_index g) (g_es g ++ es2) [] [] →
  s' = advance (s_nextOffset s + zlen es2) (zlen (enc_log es2)) (zlen es2) s →
  consecutive (s_nextOffset s) es2 → Forall (decodes (l_compressed l)) es2 →
  let gs' := gs ++ [mkInfo (g_log g) (g_index g) (g_es g ++ es2) [] []] in
  log_view w' (set_segments (segs ++ [s']) l) gs' ∧
  all_entries gs' = all_entries (gs ++ [g]) ++ es2.
Proof.
  intros Hgrew R' -> Hcons Hdec gs'. pose proof (lo_view _ _ _ O) as V.
  destruct (lv_snoc _ _ _ _ _ _ V Hsegs) as (_ & _ & _ & [Hc Hn]). split.
  - eapply lv_replace_last; try done.
    + split; simpl.
      * apply consecutive_app; [done|]. by rewrite <-Hn.
      * rewrite length_app. lia.
    + pose proof (lv_decodes _ _ _ V) as Hdec0. rewrite all_entries_app, all_entries_one in Hdec0.
      apply Forall_app in Hdec0 as [_ ?]. by apply Forall_app.
  - unfold gs'. rewrite !all_entries_app, !all_entries_one. simpl. apply app_assoc.
Qed.

(** From there to the end. *)
Lemma wp_finish w' s' es2 saved Q E :
  grew (g_log g) (g_index g) w w' →
  seg_rep w' s' (g_log g) (g_index g) (g_es g ++ es2) [] [] →
  s' = advance (s_nextOffset s + zlen es2) (zlen (enc_log es2)) (zlen es2) s → es2 ≠ [] →
  consecutive (s_nextOffset s) es2 → Forall (decodes (l_compressed l)) es2 →
  (∀ l' w', append_done l (gs ++ [g]) es2 saved l' w' → Q tt (l', w')) →
  (∀ err l2 w2, io_error w' err → append_failed l (gs ++ [g]) es2 l2 w2 → E err (l2, w2)) →
  let l1 := set_segments (segs ++ [s']) l in
  wp (roll_if_full (pred (length (l_segments l))) (s_nextOffset s + zlen es2)) Q E
    (if (0 <? saved) && l_observer l1 then observe (u64 saved) l1 else l1, w').
Proof.
  intros Hgrew R' Hs' Hne Hcons Hdec HQ HE l1.
  destruct (active_grown _ _ _ Hgrew R' Hs' Hcons Hdec) as [V' Hall].
  set (gs' := gs ++ [mkInfo _ _ _ _ _]) in *. fold l1 in V'.
  set (l2 := if (0 <? saved) && l_observer l1 then observe (u64 saved) l1 else l1).
  assert (V2 : log_view w' l2 gs') by (unfold l2; destruct (_ && _); [by apply log_view_observe|done]).
  assert (Hl2 : l_segments l2 = segs ++ [s'] ∧ same_config l l2 ∧
    l_saved l2 = l_saved l ++ (if (0 <? saved) && l_observer l then [u64 saved] else [])).
  { unfold l2, l1, same_config. simpl. destruct (_ && _); split_and!; try done. by rewrite app_nil_r. }
  destruct Hl2 as (Hsegs2 & Hcfg & Hsaved).
  assert (Hb : log_base l2 = log_base l).
  { unfold log_base. rewrite Hsegs2, Hsegs. destruct segs; [|done]. by rewrite Hs'. }
  assert (Hn2 : log_next l2 = s_nextOffset s + zlen es2).
  { unfold log_next. by rewrite Hsegs2, last_snoc, Hs'. }
  rewrite <-Hn2. replace (pred (length (l_segments l))) with (pred (length (l_segments l2)))
    by (by rewrite Hsegs, Hsegs2, !length_app).
  eapply (wp_roll w' l2 gs' (s_nextOffset s)); [done| | | | | |].
  - pose proof (lo_clean _ _ _ O) as H. apply Forall_app in H as [H _].
    apply Forall_app. split; [done|]. apply Forall_cons_2; [done|by apply Forall_nil].
  - destruct Hcfg as [Hdir _]. destruct Hgrew as (Hd & _).
    pose proof (lo_dir _ _ _ O) as [D1 D2 D3]. rewrite Hsegs in D2, D3.
    apply Forall2_snoc_inv in D2 as (k2 & y2 & E2 & D2 & D2'). apply app_inj_tail in E2 as [<- <-].
    unfold has_files, entries in *. split; rewrite ?Hdir, ?Hd, ?Hsegs2; [done| |].
    + unfold has_files, entries. rewrite Hd. apply Forall2_snoc; [done|]. by rewrite Hs'.
    + unfold entries. rewrite Hd. intros name i b Hname Hb'.
      destruct (D3 name i b Hname Hb') as (s0 & Hs0 & ->).
      apply elem_of_app in Hs0 as [?|Heq%list_elem_of_singleton]; [|subst s0].
      * exists s0. split; [by apply elem_of_app; left|done].
      * exists s'. split; [by apply elem_of_app; right; left|by rewrite Hs'].
  - destruct es2; [done|]. rewrite Hn2. simpl. lia.
  - destruct Hcfg as [-> _]. destruct Hgrew as (Hd & _). intros b Hb'. unfold entries. rewrite Hd.
    apply (lo_free _ _ _ O). by rewrite log_next_snoc.
  - intros l' w2 gs2 O2 H2 Hb2 Hn Hc2 Hsv Hnf. apply HQ. exists gs2. split_and!.
    + done.
    + by rewrite Hb2.
    + destruct Hcfg as (?&?&?&?), Hc2 as (?&?&?&?). split_and!; congruence.
    + by rewrite H2.
    + by rewrite Hsv.
    + done.
  - intros err w2 He V3. apply HE; [done|]. exists gs'. by split_and!.
Qed.
End active.

Lemma log_snoc w l gs : log_view w l gs →
  ∃ segs s gs0 g, l_segments l = segs ++ [s] ∧ gs = gs0 ++ [g] ∧ last (l_segments l) = Some s ∧
    log_next l = s_nextOffset s.
Proof.
  intros V. destruct (lv_last _ _ _ V) as (s & Hlast & Hn & _).
  destruct (last_snoc_inv _ _ Hlast) as [segs Hsegs].
  pose proof (lr_segs _ _ _ (lv_rep _ _ _ V)) as H. rewrite Hsegs in H.
  apply Forall2_snoc_inv in H as (gs0 & g & -> & _). exists segs, s, gs0, g. done.
Qed.

Context `{!SnappyLaws SN}.

Lemma wp_Log_Append w l gs ts key value q Q E :
  log_ok w l gs → zlen key ≤ max_u32 → zlen value ≤ max_u32 → is_i64 ts →
  stored_payload (l_compressed l) (key ++ value) = Some q →
  log_room l 1 (messageHeaderSize + zlen q) →
  let e := new_entry (log_next l) ts key value q in
  (∀ l' w', append_done l gs [e] (bytes_saved (l_compressed l) (key ++ value) q) l' w' →
    Q (log_next l) (l', w')) →
  (∀ err l' w', w_faults w ≠ [] →
    (on_active (Segment_Append ts key value) l w (Err err) ∧ append_failed l gs [] l' w' ∨
     (∃ saved, on_active (Segment_Append ts key value) l w (Ok (log_next l, saved))) ∧ append_failed l gs [e] l' w') → E err (l', w')) →
  wp (Log_Append ts key value) Q E (l, w).
Proof.
  intros O Hk Hv Ht Hq Hroom e HQ HE.
  destruct (log_snoc _ _ _ (lo_view _ _ _ O)) as (segs & s & gs0 & g & Hsegs & -> & Hlast & Hn).
  pose proof (lo_active _ _ _ _ _ _ O Hsegs) as R. pose proof (lo_mode _ _ _ _ _ _ O Hsegs) as Hmode.
  assert (Hlen : length (l_segments l) = S (pred (length (l_segments l))))
    by (rewrite Hsegs, length_app; simpl; lia).
  unfold Log_Append, appendLocked. wp_steps. rewrite Hlen. wp_steps.
  eapply wp_on_segment; [rewrite Hsegs; apply lookup_snoc_last|].
  rewrite <-Hmode in Hq. apply wp_outcome.
  eapply wp_Segment_Append_rep; [exact R|done|done|done|exact Hq| | |].
  { rewrite zlen_enc. by apply Hroom. }
  - intros s' w' Hs' Hgrew R' Hrun. rewrite <-Hn in *. cbn beta iota.
    rewrite Hsegs, insert_snoc_last, <-Hsegs. unfold report_saved. wp_steps.
    pose proof (sr_next _ _ _ _ _ _ _ R') as H64. pose proof (sr_base _ _ _ _ _ _ _ R) as H0.
    rewrite Hs' in H64. simpl in H64. rewrite u64_id by (unfold is_u64; lia).
    replace (log_next l + 1) with (s_nextOffset s + zlen [e]) by by rewrite Hn.
    eapply (wp_finish _ _ _ _ _ _ O Hsegs w' s' [e] (bytes_saved (s_compressed s) (key ++ value) q));
      [exact Hgrew|exact R'|..].
    + rewrite Hs'. by rewrite enc_log_one, Hn.
    + done.
    + intros k e' Hk'. destruct k; [|done]. apply (inj Some) in Hk' as <-. rewrite Z.add_0_r. exact Hn.
    + constructor; [|constructor]. rewrite <-Hmode. by apply stored_decodes.
    + intros l' w2 Hd. wp_steps. apply HQ. by rewrite <-Hmode.
    + intros err l' w2 He Hf. apply HE; [by eapply grew_faults|]. right. split; [|done].
      eexists. exists s. by rewrite Hrun, Hn.
  - intros err w' Hf Hrun. rewrite Hsegs, insert_snoc_last. apply HE; [apply Hf|]. left. split; [|by eapply active_failed].
    exists s. by rewrite Hrun.
Qed.

(** The same for a batch.  After a roll that failed [AppendBatch] returns the
    offsets and the error. *)
Lemma wp_Log_AppendBatch w l gs records es2 Q E :
  log_ok w l gs → records ≠ [] → Forall record_ok records →
  batch_entries (l_compressed l) (log_next l) records = Some es2 →
  log_room l (zlen records) (zlen (enc_log es2)) →
  (∀ l' w', append_done l gs es2 (total_saved (l_compressed l) 0 es2) l' w' →
    Q (e_off <$> es2, None) (l', w')) →
  (∀ err l' w', w_faults w ≠ [] → append_failed l gs es2 l' w' → Q (e_off <$> es2, Some err) (l', w')) →
  (∀ err l' w', w_faults w ≠ [] → append_failed l gs [] l' w' → E err (l', w')) →
  wp (Log_AppendBatch records) Q E (l, w).
Proof.
  intros O Hne Hr Hb Hroom HQ HQE HE.
  destruct (log_snoc _ _ _ (lo_view _ _ _ O)) as (segs & s & gs0 & g & Hsegs & -> & Hlast & Hn).
  pose proof (lo_active _ _ _ _ _ _ O Hsegs) as R. pose proof (lo_mode _ _ _ _ _ _ O Hsegs) as Hmode.
  assert (Hlen : length (l_segments l) = S (pred (length (l_segments l))))
    by (rewrite Hsegs, length_app; simpl; lia).
  destruct (batch_entries_consecutive _ _ _ _ Hb) as [Hcons Hl2].
  assert (Hne2 : es2 ≠ []) by (destruct es2, records; done).
  unfold Log_AppendBatch. destruct records as [|r rs] eqn:Hrec; [done|]. rewrite <-Hrec in *. clear r rs Hrec.
  wp_steps. rewrite Hlen. wp_steps.
  eapply wp_on_segment; [rewrite Hsegs; apply lookup_snoc_last|].
  rewrite <-Hmode, Hn in Hb.
  eapply wp_Segment_AppendBatch_rep; [exact R|done|done|exact Hb|by apply Hroom| |].
  - intros s' w' Hs' Hgrew R'. cbn beta iota.
    rewrite Hsegs, insert_snoc_last, <-Hsegs. unfold report_saved. wp_steps.
    pose proof (sr_next _ _ _ _ _ _ _ R') as H64. pose proof (sr_base _ _ _ _ _ _ _ R) as H0.
    rewrite Hs' in H64. simpl in H64.
    assert (Hu : u64 (default 0 (last (e_off <$> es2)) + 1) = s_nextOffset s + zlen es2).
    { rewrite fmap_last, last_lookup.
      destruct (lookup_lt_is_Some_2 es2 (pred (length es2))) as [e He]; [destruct es2; simpl; [done|lia]|].
      rewrite He. simpl. rewrite (Hcons _ _ He), Hn. apply lookup_lt_Some in He.
      rewrite u64_id by (unfold is_u64; lia). lia. }
    rewrite Hu. eapply (wp_finish _ _ _ _ _ _ O Hsegs w' s' es2); try done.
    + by rewrite Hs', Hl2.
    + by rewrite <-Hn.
    + rewrite <-Hmode. by eapply batch_entries_decodes.
    + intros l' w2 Hd. cbn beta iota. wp_steps. apply HQ. by rewrite <-Hmode.
    + intros err l' w2 He Hf. cbn beta iota. wp_steps. apply HQE; [|done]. by eapply grew_faults.
  - intros err w' Hf. rewrite Hsegs, insert_snoc_last. apply HE; [apply Hf|].
    by eapply active_failed.
Qed.
End log.
