(* ===== verification/LogOpen.v ===== *)
(** * Opening a log

    [NewLog] on a directory that a log left behind: the scan finds the base
    offsets of the segments whatever the order of the directory, the segments
    are opened in offset order and linked, and the log that comes out holds the
    same messages.  On an empty directory it makes an empty log. *)

From S2P Require Import Prelude GoNum OS Snappy Segment SegmentRep SegmentRead SegmentWrite SegmentOpen.
From S2P Require Import Log LogRep LogView LogWrite.

(** ** The scan of the directory *)

(** The base offset named by a directory entry. *)
Definition entry_offset (p : bytes * dirent) : option Z :=
  match p.2 with EFile _ => segmentBaseOffset p.1 | EDir => None end.

(** The first segment without an index file stops the scan. *)
Fixpoint scan_result (names : gmap bytes dirent) (ents : list (bytes * dirent)) : outcome (list Z) :=
  match ents with
  | [] => Ok []
  | p :: ents' =>
      match entry_offset p with
      | None => scan_result names ents'
      | Some b =>
          match names !! indexName b with
          | None => Err (EMsg "missing index file for segment %d" [AInt b])
          | Some _ => match scan_result names ents' with Ok l => Ok (b :: l) | r => r end
          end
      end
  end.

Lemma io_error_not_exist w : io_error w ErrNotExist → False.
Proof. intros [_ [[n Hn]|Hn]]; done. Qed.

Lemma reads_stat_missing dir name w :
  entries w dir !! name = None → reads (os_Stat dir name) w (Err ErrNotExist).
Proof.
  intros He. apply reads_sys. intros w' Hr. apply reads_pure. cbn beta. by rewrite (ro_entries w w'), He.
Qed.

Lemma reads_scan_dir dir ents w :
  reads (scan_dir dir ents) w (scan_result (entries w dir) ents).
Proof.
  revert w. induction ents as [|[name [i|]] ents IH]; intros w; [apply reads_ret| |exact (IH w)].
  cbn [scan_dir scan_result]. change (entry_offset (name, EFile i)) with (segmentBaseOffset name).
  destruct (segmentBaseOffset name) as [b|]; [|exact (IH w)].
  destruct (entries w dir !! indexName b) as [e|] eqn:He.
  - eapply reads_attempt_rethrow; [by eapply reads_os_Stat| |].
    + intros w1 R1. specialize (IH w1). rewrite (ro_entries w w1) in IH by done.
      destruct (scan_result (entries w dir) ents) as [l|err|].
      * eapply reads_bind; [exact IH|]. intros. apply reads_ret.
      * by apply reads_bind_err.
      * by apply reads_bind_panic.
    + intros e' w1 Hio. rewrite decide_False; [done|]. intros ->. by eapply io_error_not_exist.
  - destruct (reads_stat_missing dir (indexName b) w He) as (r & w1 & Hm & R1 & Hcase).
    unfold reads, mbind, gom_bind, attempt. rewrite Hm. destruct Hcase as [->|(e & -> & Hio)].
    + rewrite decide_True by done. eexists _, w1. split_and!; [done|done|by left].
    + rewrite decide_False by (intros ->; by eapply io_error_not_exist).
      eexists _, w1. split_and!; [done|done|]. right. eauto.
Qed.

Lemma scan_result_ok names ents :
  (∀ p b, p ∈ ents → entry_offset p = Some b → is_Some (names !! indexName b)) →
  scan_result names ents = Ok (omap entry_offset ents).
Proof.
  induction ents as [|p ents IH]; intros H; [done|]. simpl.
  rewrite IH by (intros p' b Hp; apply H; by right).
  destruct (entry_offset p) as [b|] eqn:Hb; [|done].
  by destruct (H p b ltac:(left) Hb) as [e ->].
Qed.

(** ** Opening the segments *)

Lemma quiet_close_all segs : quiet (close_all segs).
Proof.
  induction segs as [|s segs IH]; [apply quiet_ret|]. apply quiet_seq; [apply quiet_Segment_Close|done].
Qed.

(** The segment that opening the files of [g] gives. *)
Definition reopened_seg (dir : bytes) (s : Segment) (g : seginfo) : Segment :=
  reopened dir (s_baseOffset s) (g_log g) (g_index g) (g_es g).

Definition openable (w : world) (dir : bytes) (s : Segment) (g : seginfo) : Prop :=
  has_files w dir (s_baseOffset s) (g_log g) (g_index g) ∧
  content w (g_log g) = enc_log (g_es g) ∧ content w (g_index g) = enc_index 0 (g_es g) ∧
  fits (s_baseOffset s) (g_es g).

Lemma reads_open_segments dir c segs gs acc w :
  Forall2 (openable w dir) segs gs →
  reads (open_segments dir c (s_baseOffset <$> segs) acc) w
    (Ok (acc ++ (Segment_SetCompressed c <$> zip_with (reopened_seg dir) segs gs))).
Proof.
  revert gs acc w. induction segs as [|s segs IH]; intros gs acc w H.
  { inversion H; subst. simpl. rewrite app_nil_r. apply reads_ret. }
  inversion H as [|? g ? gs' (Hf & Hl & Hi & Hfits) H' E1 E2]; subst. simpl.
  eapply reads_bind.
  - apply reads_on_error; [|apply quiet_close_all].
    pose proof (reads_NewSegment w dir (s_baseOffset s) (g_log g) (g_index g) Hf) as Hopen.
    rewrite Hl, Hi, open_result_rep in Hopen by done. exact Hopen.
  - intros w1 R1. specialize (IH gs' (acc ++ [Segment_SetCompressed c (reopened_seg dir s g)]) w1).
    rewrite <-app_assoc in IH. apply IH.
    eapply Forall2_impl; [exact H'|]. intros s0 g0 (F & L & I & ?).
    split_and!; [by eapply has_files_ro|by rewrite (ro_content w w1)..|done].
Qed.

Lemma link_segments_linked segs : linked segs → link_segments segs = segs.
Proof.
  induction segs as [|s [|s' segs] IH]; intros Hl; [done..|].
  change (set_nextOffset (s_baseOffset s') s :: link_segments (s' :: segs) = s :: s' :: segs).
  rewrite IH by by eapply linked_tail. f_equal. rewrite <-(Hl 0%nat s s'); [|done..]. by destruct s.
Qed.

(** ** The directory of a log *)

Lemma NoDup_omap_inj {A B} (f : A → option B) l :
  NoDup l → (∀ x y b, x ∈ l → y ∈ l → f x = Some b → f y = Some b → x = y) → NoDup (omap f l).
Proof.
  induction 1 as [|x l Hx _ IH]; intros Hinj; [constructor|]. simpl.
  assert (NoDup (omap f l)) by (apply IH; intros y z b Hy Hz; apply Hinj; by right).
  destruct (f x) as [b|] eqn:Hb; [|done]. constructor; [|done].
  intros (y & Hy & Hyb)%list_elem_of_omap. destruct Hx.
  by rewrite (Hinj x y b ltac:(left) ltac:(by right) Hb Hyb).
Qed.

Lemma StronglySorted_lookup_2 {A} (R : relation A) l :
  (∀ i j a b, (i < j)%nat → l !! i = Some a → l !! j = Some b → R a b) → StronglySorted R l.
Proof.
  induction l as [|x l IH]; intros H; constructor.
  - apply IH. intros i j a b Hij. apply (H (S i) (S j)). lia.
  - apply Forall_lookup_2. intros j b Hj. apply (H 0%nat (S j)); [lia|done..].
Qed.

Section open.
Context `{SN : Snappy}.
Context (w : world) (l : Log) (gs : list seginfo) (O : log_ok w l gs).
Let L := lv_rep _ _ _ (lo_view _ _ _ O).
Let D := lo_dir _ _ _ O.

Lemma lo_openable : Forall2 (openable w (l_dir l)) (l_segments l) gs.
Proof.
  apply Forall2_same_length_lookup_2; [by eapply Forall2_length, (lr_segs _ _ _ L)|].
  intros i s g Hs Hg. pose proof (lr_both _ _ _ L i s g Hs Hg) as R.
  pose proof (Forall2_lookup_lr _ _ _ _ _ _ (dh_files _ _ _ D) Hs Hg) as Hf.
  pose proof (lo_clean _ _ _ O) as Hc. rewrite Forall_forall in Hc.
  destruct (Hc g ltac:(by eapply list_elem_of_lookup_2)) as [Hjl Hji].
  pose proof (sr_log _ _ _ _ _ _ _ R) as H1. pose proof (sr_index _ _ _ _ _ _ _ R) as H2.
  rewrite Hjl, app_nil_r in H1. rewrite Hji, app_nil_r in H2.
  split_and!; [done|by apply content_Some..|by eapply rep_fits].
Qed.

Lemma lo_base_u64 i s : l_segments l !! i = Some s → is_u64 (s_baseOffset s).
Proof.
  intros Hs. destruct (lr_lookup _ _ _ L i s Hs) as (g & _ & R).
  pose proof (sr_base _ _ _ _ _ _ _ R). pose proof (sr_next _ _ _ _ _ _ _ R). unfold is_u64. lia.
Qed.

Lemma lo_bases_nodup : NoDup (s_baseOffset <$> l_segments l).
Proof.
  apply NoDup_alt. intros i j b Hi Hj.
  rewrite list_lookup_fmap in Hi, Hj. apply fmap_Some in Hi as (si & Hsi & Hbi).
  apply fmap_Some in Hj as (sj & Hsj & Hbj).
  destruct (lr_lookup _ _ _ L i si Hsi) as (gi & Hgi & _).
  destruct (lr_lookup _ _ _ L j sj Hsj) as (gj & Hgj & _).
  pose proof (Forall2_lookup_lr _ _ _ _ _ _ (dh_files _ _ _ D) Hsi Hgi) as [Hfi _].
  pose proof (Forall2_lookup_lr _ _ _ _ _ _ (dh_files _ _ _ D) Hsj Hgj) as [Hfj _].
  assert (g_log gi = g_log gj) as Heq by congruence.
  eapply (NoDup_concat_inj (inodes <$> gs) i j (inodes gi) (inodes gj) (g_log gi)).
  - apply (lr_nodup _ _ _ L).
  - by rewrite list_lookup_fmap, Hgi.
  - by rewrite list_lookup_fmap, Hgj.
  - left.
  - rewrite Heq. left.
Qed.

Lemma lo_bases_sorted : StronglySorted Z.le (s_baseOffset <$> l_segments l).
Proof.
  apply StronglySorted_lookup_2. intros i j b b' Hij Hi Hj.
  rewrite list_lookup_fmap in Hi, Hj. apply fmap_Some in Hi as (si & Hsi & ->).
  apply fmap_Some in Hj as (sj & Hsj & ->).
  pose proof (lr_base_mono _ _ _ L i j si sj Hsi Hsj Hij). pose proof (lr_base_le _ _ _ L i si Hsi). lia.
Qed.

(** The scan finds the base offsets of the segments. *)
Lemma lo_scan :
  merge_sort Z.le (omap entry_offset (merge_sort name_le (map_to_list (entries w (l_dir l))))) =
  s_baseOffset <$> l_segments l.
Proof.
  set (ents := map_to_list (entries w (l_dir l))).
  apply (StronglySorted_unique Z.le); [apply StronglySorted_merge_sort; apply _|apply lo_bases_sorted|].
  rewrite !merge_sort_Permutation.
  assert (Hof : ∀ p b, p ∈ ents → entry_offset p = Some b →
    b ∈ s_baseOffset <$> l_segments l ∧ ∃ i, p = (logName b, EFile i)).
  { intros [name [i|]] b Hp%elem_of_map_to_list Hb; [|done]. unfold entry_offset in Hb. simpl in Hb.
    destruct (dh_only _ _ _ D name i b Hp Hb) as (s & Hs & ->).
    apply list_elem_of_lookup in Hs as Hs'. destruct Hs' as [k Hk].
    rewrite segmentBaseOffset_logName in Hb by by eapply lo_base_u64. apply (inj Some) in Hb as <-.
    split; [by apply list_elem_of_fmap_2|by exists i]. }
  apply NoDup_Permutation; [|apply lo_bases_nodup|].
  - apply NoDup_omap_inj; [apply NoDup_map_to_list|]. intros x y b Hx Hy Hxb Hyb.
    destruct (Hof x b Hx Hxb) as (_ & i & ->). destruct (Hof y b Hy Hyb) as (_ & j & ->).
    apply elem_of_map_to_list in Hx, Hy. congruence.
  - intros b. rewrite list_elem_of_omap. split.
    + intros (p & Hp & Hb). by eapply Hof.
    + intros (s & -> & [k Hk]%list_elem_of_lookup)%list_elem_of_fmap.
      destruct (lr_lookup _ _ _ L k s Hk) as (g & Hg & _).
      pose proof (Forall2_lookup_lr _ _ _ _ _ _ (dh_files _ _ _ D) Hk Hg) as [Hf _].
      exists (logName (s_baseOffset s), EFile (g_log g)). split.
      * by apply elem_of_map_to_list.
      * unfold entry_offset. simpl. apply segmentBaseOffset_logName. by eapply lo_base_u64.
Qed.

(** The log that opening gives. *)
Definition reopened_log (max : Z) : Log :=
  mkLog (l_dir l) max (zip_with (reopened_seg (l_dir l)) (l_segments l) gs) false false [].

(** The segments differ from those that were closed in their mode only. *)
Lemma lo_reopened_seg i s g :
  l_segments l !! i = Some s → gs !! i = Some g →
  Segment_SetCompressed (s_compressed s) (reopened_seg (l_dir l) s g) = s.
Proof.
  intros Hs Hg. pose proof (lr_both _ _ _ L i s g Hs Hg) as R.
  pose proof (Forall2_lookup_lr _ _ _ _ _ _ (lv_dense _ _ _ (lo_view _ _ _ O)) Hs Hg) as [Hc Hn].
  pose proof (lr_dir _ _ _ L) as Hd. pose proof (Forall_lookup_1 _ _ _ _ Hd Hs) as Hdir. cbn beta in Hdir.
  assert (Hnx : next_after (s_baseOffset s) (g_es g) = s_nextOffset s).
  { unfold next_after. rewrite last_lookup. destruct (g_es g !! _) as [e|] eqn:He.
    - rewrite (Hc _ _ He), Hn. apply lookup_lt_Some in He. lia.
    - apply lookup_ge_None in He. rewrite Hn. lia. }
  unfold reopened_seg, reopened, Segment_SetCompressed. simpl. rewrite Hnx, <-Hdir.
  destruct R. destruct s; simpl in *. congruence.
Qed.

Lemma lo_reopened_segments :
  Segment_SetCompressed (l_compressed l) <$> zip_with (reopened_seg (l_dir l)) (l_segments l) gs =
  l_segments l.
Proof.
  apply list_eq. intros i. rewrite list_lookup_fmap, lookup_zip_with.
  destruct (l_segments l !! i) as [s|] eqn:Hs; [|done]. simpl.
  destruct (lr_lookup _ _ _ L i s Hs) as (g & Hg & _). rewrite Hg. simpl. f_equal.
  rewrite <-(lr_compressed _ _ _ L i s Hs). by eapply lo_reopened_seg.
Qed.

Lemma lo_reopened_linked : linked (zip_with (reopened_seg (l_dir l)) (l_segments l) gs).
Proof.
  intros i a b Ha Hb. apply (f_equal (fmap (Segment_SetCompressed (l_compressed l)))) in Ha, Hb.
  rewrite <-list_lookup_fmap, lo_reopened_segments in Ha, Hb.
  apply (lr_linked _ _ _ L i _ _ Ha Hb).
Qed.

Lemma reads_NewLog sizes max w' :
  ro w w' → sizes = [max] ∧ max ≠ 0 ∨ sizes = [] ∧ max = DefaultMaxSegmentSize →
  reads (NewLog (l_dir l) sizes) w' (Ok (reopened_log max)).
Proof.
  intros Hr Hsizes. unfold NewLog. destruct (Z.ltb_spec 1 (zlen sizes)) as [Hlt|_].
  { destruct Hsizes as [[-> _]|[-> _]]; simpl in Hlt; lia. }
  eapply (reads_bind _ _ _ max).
  { destruct Hsizes as [[-> Hm]|[-> ->]]; [|apply reads_ret].
    destruct (Z.eqb_spec max 0); [done|]. apply reads_ret. }
  intros w1 R1. destruct (dh_dir _ _ _ D) as [ents Hents].
  assert (He : entries w (l_dir l) = ents) by (unfold entries; by rewrite Hents).
  eapply reads_bind; [apply reads_MkdirAll|].
  { exists ents. rewrite (ro_dirs w w1); [done|ro_solve]. }
  intros w2 R2. eapply reads_bind; [apply (reads_ReadDir _ ents)|].
  { rewrite (ro_dirs w w2); [done|ro_solve]. }
  intros w3 R3. pose proof (reads_scan_dir (l_dir l) (merge_sort name_le (map_to_list ents)) w3) as Hscan.
  rewrite (ro_entries w w3), He in Hscan by ro_solve. rewrite scan_result_ok in Hscan.
  2: { intros [name e] b Hp Hb. rewrite merge_sort_Permutation in Hp. apply elem_of_map_to_list in Hp.
       destruct e as [i|]; [|done]. unfold entry_offset in Hb. simpl in Hb. rewrite <-He in Hp |- *.
       destruct (dh_only _ _ _ D name i b Hp Hb) as (s & [k Hk]%list_elem_of_lookup & ->).
       rewrite segmentBaseOffset_logName in Hb by by eapply lo_base_u64. apply (inj Some) in Hb as <-.
       destruct (lr_lookup _ _ _ L k s Hk) as (g & Hg & _).
       pose proof (Forall2_lookup_lr _ _ _ _ _ _ (dh_files _ _ _ D) Hk Hg) as [_ Hf]. by eexists. }
  eapply reads_bind; [exact Hscan|]. intros w4 R4. pose proof lo_scan as Hsort. rewrite He in Hsort.
  cbv zeta. rewrite Hsort.
  eapply reads_bind; [apply (reads_open_segments _ false (l_segments l) gs [])|].
  { eapply Forall2_impl; [apply lo_openable|]. intros s0 g0 (F & F1 & F2 & ?).
    assert (ro w w4) by ro_solve.
    split_and!; [by eapply has_files_ro|by rewrite (ro_content w w4)..|done]. }
  intros w5 R5. assert (Hplain : Segment_SetCompressed false <$>
      zip_with (reopened_seg (l_dir l)) (l_segments l) gs = zip_with (reopened_seg (l_dir l)) (l_segments l) gs).
  { rewrite <-(list_fmap_id (zip_with _ _ _)) at 2. apply list_fmap_ext. intros i s Hs.
    rewrite lookup_zip_with in Hs. apply bind_Some in Hs as (s0 & _ & Hs).
    apply bind_Some in Hs as (g0 & _ & Hs). by apply (inj Some) in Hs as <-. }
  rewrite Hplain. simpl app. pose proof lo_reopened_linked as Hlink. unfold reopened_log.
  destruct (zip_with _ _ _) as [|s0 segs] eqn:Hz.
  - exfalso. pose proof lo_reopened_segments as H. rewrite Hz in H. by destruct (lr_nonempty _ _ _ L).
  - eapply reads_bind; [apply reads_ret|]. intros w6 R6. rewrite link_segments_linked by done.
    apply reads_ret.
Qed.

(** The mode restored, it is the log that was closed. *)
Lemma lo_reopened_ok w' max c obs saved :
  ro w w' → c = l_compressed l →
  log_ok w' (mkLog (l_dir l) max (Segment_SetCompressed c <$> l_segments (reopened_log max)) c obs saved) gs.
Proof.
  intros Hr ->. simpl. rewrite lo_reopened_segments. destruct (log_view_ro _ _ _ _ Hr (lo_view _ _ _ O)) as [V1 V2 V3].
  split; [split| | |]; try done.
  - destruct V1. by split.
  - apply O.
  - destruct D as [D1 D2 D3]. split; simpl.
    + by rewrite (ro_dirs _ _ Hr).
    + eapply Forall2_impl; [exact D2|]. intros s g. by apply has_files_ro.
    + rewrite (ro_entries _ _ _ Hr). exact D3.
  - eapply free_above_ro; [exact Hr|]. apply O.
Qed.
End open.

(** ** Directories no log was closed in *)

Lemma scan_result_orphan names ents p b :
  p ∈ ents → entry_offset p = Some b → names !! indexName b = None →
  ∃ b', scan_result names ents = Err (EMsg "missing index file for segment %d" [AInt b']) ∧
    names !! indexName b' = None.
Proof.
  intros Hp Hb Hn. induction ents as [|p' ents IH]; [by apply elem_of_nil in Hp|]. simpl.
  apply elem_of_cons in Hp as [<-|Hp].
  - rewrite Hb, Hn. eauto.
  - destruct (IH Hp) as (b' & E & Hb'). destruct (entry_offset p') as [b0|]; [|eauto].
    destruct (names !! indexName b0) eqn:H0; [|eauto]. rewrite E. eauto.
Qed.

Lemma reads_NewLog_orphan w dir max name i b :
  max ≠ 0 → entries w dir !! name = Some (EFile i) → segmentBaseOffset name = Some b →
  entries w dir !! indexName b = None →
  ∃ b', reads (NewLog dir [max]) w (Err (EMsg "missing index file for segment %d" [AInt b'])) ∧
    entries w dir !! indexName b' = None.
Proof.
  intros Hm Hname Hb Hn. pose proof (entries_Some _ _ _ _ Hname) as Hd.
  destruct (scan_result_orphan (entries w dir) (merge_sort name_le (map_to_list (entries w dir)))
    (name, EFile i) b) as (b' & Hscan & Hb'); [|done|done|].
  { rewrite merge_sort_Permutation. by apply elem_of_map_to_list. }
  exists b'. split; [|done]. unfold NewLog. simpl. destruct (Z.eqb_spec max 0); [done|].
  eapply reads_bind; [apply reads_ret|]. intros w1 R1.
  eapply reads_bind; [apply reads_MkdirAll; rewrite (ro_dirs w w1), Hd by done; eauto|]. intros w2 R2.
  eapply reads_bind; [eapply reads_ReadDir; rewrite (ro_dirs w w2); [done|ro_solve]|]. intros w3 R3.
  apply reads_bind_err. pose proof (reads_scan_dir dir (merge_sort name_le (map_to_list (entries w dir))) w3) as H.
  rewrite (ro_entries w w3) in H by ro_solve. by rewrite Hscan in H.
Qed.

Lemma fresh_log_ok `{SN : Snappy} w w' dir max c obs saved :
  entries w dir = ∅ → after w (created_segment dir 0 w) w' →
  log_ok w' (mkLog dir max [Segment_SetCompressed c (reopened dir 0 (w_next w) (S (w_next w)) [])] c obs saved)
    [mkInfo (w_next w) (S (w_next w)) [] [] []].
Proof.
  intros He A. destruct (created_files dir 0 w) as (Hf & Hn & Hd & Hent).
  rewrite <-(after_entries _ _ _ _ A), He in Hent.
  assert (R := reopened_fresh dir 0 w w' c ltac:(lia) A).
  assert (Hno : ∀ b, 0 < b < 2 ^ 64 → entries w' dir !! logName b = None ∧ entries w' dir !! indexName b = None).
  { intros b Hb. rewrite Hent, !lookup_insert_ne; [done|..]; intros Heq.
    all: first [ apply logName_inj in Heq; unfold is_u64; lia
               | apply indexName_inj in Heq; unfold is_u64; lia
               | by eapply logName_indexName
               | symmetry in Heq; by eapply logName_indexName ]. }
  split; [split; [split|..]|..]; simpl.
  - done.
  - constructor; [exact R|constructor].
  - intros i s s' _ Hs'. by destruct i.
  - apply NoDup_cons. split; [intros Hi%list_elem_of_singleton; lia|apply NoDup_singleton].
  - rewrite (after_next _ _ _ A), Hn. apply Forall_cons_2; [lia|]. apply Forall_cons_2; [lia|by apply Forall_nil].
  - by repeat constructor.
  - by repeat constructor.
  - constructor; [|constructor]. split; [by intros k e Hk|done].
  - by apply Forall_nil.
  - apply Forall_cons_2; [done|by apply Forall_nil].
  - split; simpl.
    + rewrite (after_dirs _ _ _ A). apply dir_create.
    + constructor; [|constructor]. unfold has_files in *. by rewrite (after_entries _ _ _ _ A).
    + intros name i b Hname Hb. rewrite Hent in Hname. destruct (decide (name = indexName 0)) as [->|].
      { by rewrite segmentBaseOffset_indexName in Hb. }
      rewrite lookup_insert_ne in Hname by done. apply lookup_insert_Some in Hname as [[<- _]|[_ Hname]]; [|done].
      eexists. split; [left|done].
  - intros b Hb. by apply Hno.
Qed.

Lemma wp_NewLog_fresh `{SN : Snappy} w dir max :
  max ≠ 0 → entries w dir = ∅ →
  wp (NewLog dir [max])
    (λ l w', l_dir l = dir ∧ l_maxSegmentSize l = max ∧ Writable w' l 0 [])
    (λ e w', io_error w e) w.
Proof.
  intros Hm He. unfold NewLog. simpl. destruct (Z.eqb_spec max 0); [done|]. wp_steps.
  apply wp_MkdirAll; [|done]. intros w1 A1. wp_steps.
  assert (He1 : entries w1 dir = ∅) by by rewrite (after_entries _ _ _ _ A1), mkdir_entries.
  assert (Hd1 : w_dirs w1 !! dir = Some ∅).
  { destruct (mkdir_dir dir w) as [ents Hents]. rewrite (after_dirs _ _ _ A1). rewrite Hents.
    unfold entries in He1. rewrite (after_dirs _ _ _ A1), Hents in He1. simpl in He1. by rewrite He1. }
  eapply wp_reads; [by apply reads_ReadDir| |intros; by eapply io_error_after].
  intros w2 R2. wp_steps. rewrite map_to_list_empty. cbn [merge_sort]. 
  eapply wp_run; [done|]. wp_steps. cbn. 
  assert (He2 : entries w2 dir = ∅) by by rewrite (ro_entries w1 w2).
  wp_steps. apply wp_NewSegment_fresh.
  - by rewrite He2.
  - by rewrite He2.
  - intros w3 A3. wp_steps. split_and!; [done|done|]. exists [mkInfo (w_next w2) (S (w_next w2)) [] [] []].
    split_and!; [|done|done]. exact (fresh_log_ok w2 w3 dir max false false [] He2 A3).
  - intros e w3 Hio _. eapply io_error_after; [exact A1|]. by eapply io_error_ro.
Qed.

(** ** Close *)

Lemma wp_close_segments i n fe l w (E : goerr → Log * world → Prop) :
  (i + n = length (l_segments l))%nat →
  wp (close_segments i n fe) (λ _ '(_, w'), ro w w') E (l, w).
Proof.
  revert i fe l w. induction n as [|n IH]; intros i fe l w Hlen; [apply wp_ret, ro_refl|].
  cbn [close_segments]. wp_steps. apply wp_err_of.
  destruct (lookup_lt_is_Some_2 (l_segments l) i ltac:(lia)) as [s Hs].
  eapply wp_on_segment; [exact Hs|]. apply wp_Segment_Close; [intros w1 R1|intros e w1 R1 _].
  all: eapply wp_mono; [apply IH; simpl; rewrite length_insert; lia| |done].
  all: intros r [l2 w2] R2; by etrans.
Qed.

Lemma wp_Log_Close l w : wp (attempt (on_local l Log_Close)) (λ _ w', ro w w') (λ _ _, False) w.
Proof.
  assert (H : wp Log_Close (λ _ '(_, w'), ro w w') (λ _ '(_, w'), ro w w') (l, w)).
  { unfold Log_Close. wp_steps. eapply wp_mono; [by apply (wp_close_segments 0 _ None l w (λ _ '(_, w'), ro w w'))| |done].
    intros [e|] [l' w'] R; exact R. }
  revert H. unfold wp, attempt, on_local. destruct (Log_Close (l, w)) as [[a|e|] [l' w']]; done.
Qed.
