(* ===== verification/LogRetention.v ===== *)
(** * Retention

    [EnforceRetention] removes whole segments from the front of the log, and
    only those the policy names; what is left is a log with the messages that
    were not removed. *)

From S2P Require Import Prelude GoNum OS Snappy Segment SegmentRep SegmentRead SegmentWrite SegmentOpen.
From S2P Require Import Log LogRep LogView LogWrite LogOpen.

(** ** Deleting a segment *)

Lemma wp_Remove dir name i (Q : unit → world → Prop) (E : goerr → world → Prop) w :
  entries w dir !! name = Some (EFile i) →
  (∀ w', after w (del_entry dir name w) w' → Q tt w') →
  (∀ e w', ro w w' → io_error w e → E e w') →
  wp (os_Remove dir name) Q E w.
Proof.
  intros He HQ HE. apply wp_sys; [|done]. intros w' Hr. unfold wp.
  rewrite (ro_entries w w'), He by done. apply HQ. destruct Hr as [k ->]. by exists k.
Qed.

Lemma entries_del dir name w : entries (del_entry dir name w) dir = delete name (entries w dir).
Proof. unfold del_entry, entries at 1. simpl. by rewrite lookup_insert_eq. Qed.

(** The directory after the files of a segment are gone. *)
Definition removed_segment (dir : bytes) (base : Z) (w : world) : world :=
  del_entry dir (indexName base) (del_entry dir (logName base) w).

Lemma entries_removed dir base w :
  entries (removed_segment dir base w) dir =
  delete (indexName base) (delete (logName base) (entries w dir)).
Proof. unfold removed_segment. by rewrite !entries_del. Qed.

Lemma wp_remove_if_exists dir name i (Q : unit → world → Prop) (E : goerr → world → Prop) w :
  entries w dir !! name = Some (EFile i) →
  (∀ w', after w (del_entry dir name w) w' → Q tt w') →
  (∀ e w', ro w w' → io_error w e → E e w') →
  wp (remove_if_exists dir name) Q E w.
Proof.
  intros He HQ HE. unfold remove_if_exists. wp_steps. eapply wp_Remove; [done| |].
  - intros w' A. cbn beta iota. by apply wp_ret, HQ.
  - intros e w' R Hio. cbn beta iota. rewrite decide_False; [by apply wp_throw, HE|].
    intros ->. by eapply io_error_not_exist.
Qed.

Lemma wp_Segment_Delete s w li ii (Q : unit → Segment * world → Prop) (E : goerr → Segment * world → Prop) :
  has_files w (s_dir s) (s_baseOffset s) li ii →
  (∀ w', after w (removed_segment (s_dir s) (s_baseOffset s) w) w' → Q tt (closed s, w')) →
  (∀ e w', w_faults w ≠ [] → E e (closed s, w')) →
  wp Segment_Delete Q E (s, w).
Proof.
  intros [Hl Hi] HQ HE. unfold Segment_Delete. wp_steps.
  apply wp_Segment_Close; [|intros e w' _ [Hf _]; by apply HE]. intros w1 R1. cbn beta iota. wp_steps.
  change (s_dir (closed s)) with (s_dir s). change (s_baseOffset (closed s)) with (s_baseOffset s).
  eapply wp_remove_if_exists; [by rewrite (ro_entries w w1)| |].
  2: { intros e w' R [Hf _]. apply HE. destruct R1 as [k ->]. intros Hw. by rewrite Hw in Hf; simpl in Hf; rewrite drop_nil in Hf. }
  intros w2 A2. wp_steps. destruct R1 as [k1 ->], A2 as [k2 ->].
  eapply (wp_remove_if_exists _ _ ii).
  - change (entries (del_entry (s_dir s) (logName (s_baseOffset s)) w) (s_dir s) !! indexName (s_baseOffset s) = Some (EFile ii)).
    rewrite entries_del, lookup_delete_ne; [done|apply logName_indexName].
  - intros w3 [k3 ->]. apply HQ. exists (k1 + (k2 + k3))%nat. simpl. by rewrite !drop_drop.
  - intros e w' R [Hf _]. apply HE. simpl in Hf. intros Hw. by rewrite Hw, !drop_nil in Hf.
Qed.

Section retention.
Context `{SN : Snappy}.

(** A log without its first segment, whose files were removed. *)
(** The directory without the files of a removed segment. *)
Lemma entries_tail w w' dir b :
  after w (removed_segment dir b w) w' →
  entries w' dir = delete (indexName b) (delete (logName b) (entries w dir)).
Proof. intros A. by rewrite (after_entries _ _ _ _ A), entries_removed. Qed.

Lemma dir_holds_tail w w' l s s1 segs g gs :
  log_ok w l (g :: gs) → l_segments l = s :: s1 :: segs →
  after w (removed_segment (l_dir l) (s_baseOffset s) w) w' →
  dir_holds w' (set_segments (s1 :: segs) l) gs.
Proof.
  intros O Hsegs A. pose proof (lo_dir _ _ _ O) as [D1 D2 D3]. pose proof (lo_bases_nodup _ _ _ O) as Hnb.
  pose proof (lo_base_u64 _ _ _ O) as Hu. pose proof (entries_tail _ _ _ _ A) as Hent.
  rewrite Hsegs in *. apply Forall2_cons in D2 as [D2 D2'].
  simpl in Hnb. apply NoDup_cons in Hnb as [Hnin _].
  assert (Hne : ∀ s0, s0 ∈ s1 :: segs → s_baseOffset s0 ≠ s_baseOffset s ∧ is_u64 (s_baseOffset s0) ∧ is_u64 (s_baseOffset s)).
  { intros s0 Hs0. split_and!.
    - intros Heq. apply Hnin. rewrite <-Heq. by apply (list_elem_of_fmap_2 s_baseOffset (s1 :: segs)).
    - apply list_elem_of_lookup in Hs0 as [k Hk]. by apply (Hu (S k) s0).
    - by apply (Hu 0%nat s). }
  split; simpl.
  + rewrite (after_dirs _ _ _ A). unfold removed_segment, del_entry. simpl. rewrite lookup_insert_eq. eauto.
  + eapply Forall2_impl_in_l; [exact D2'|]. intros s0 g0 Hs0 [F1 F2]. destruct (Hne s0 Hs0) as (Hb & U0 & U).
    unfold has_files. rewrite Hent, !lookup_delete_ne; [done|..]; intros Heq.
    all: first [ apply logName_inj in Heq; [congruence|done..]
               | apply indexName_inj in Heq; [congruence|done..]
               | by eapply logName_indexName
               | symmetry in Heq; by eapply logName_indexName ].
  + intros name i b Hname Hb. rewrite Hent in Hname.
    apply lookup_delete_Some in Hname as [_ Hname]. apply lookup_delete_Some in Hname as [Hnl Hname].
    destruct (D3 _ _ _ Hname Hb) as (s0 & Hs0 & ->). exists s0. split; [|done].
    apply elem_of_cons in Hs0 as [->|]; [by destruct Hnl|done].
Qed.

Lemma log_ok_tail w w' l s s1 segs g gs :
  log_ok w l (g :: gs) → l_segments l = s :: s1 :: segs →
  after w (removed_segment (l_dir l) (s_baseOffset s) w) w' →
  log_ok w' (set_segments (s1 :: segs) l) gs.
Proof.
  intros O Hsegs A. pose proof (lo_view _ _ _ O) as V. pose proof (lv_rep _ _ _ V) as L.
  assert (Hdata : w_data w' = w_data w) by exact (after_data _ _ _ A).
  assert (Hnext : w_next w' = w_next w) by exact (after_next _ _ _ A).
  pose proof (entries_tail _ _ _ _ A) as Hent.
  split; [split; [split|..]|..]; simpl.
  - done.
  - pose proof (lr_segs _ _ _ L) as H. rewrite Hsegs in H. apply Forall2_cons in H as [_ H].
    eapply Forall2_impl; [exact H|]. intros s0 g0 R0. eapply rep_frame; [exact R0|by rewrite Hdata..].
  - pose proof (lr_linked _ _ _ L) as H. rewrite Hsegs in H. by eapply linked_tail.
  - pose proof (lr_nodup _ _ _ L) as H. simpl in H. by apply NoDup_cons_1_2, NoDup_cons_1_2 in H.
  - pose proof (lr_inodes _ _ _ L) as H. simpl in H. rewrite Hnext.
    by apply Forall_cons_1 in H as [_ H]; apply Forall_cons_1 in H as [_ H].
  - pose proof (lr_dir _ _ _ L) as H. rewrite Hsegs in H. by apply Forall_cons_1 in H as [_ H].
  - pose proof (lr_mode _ _ _ L) as H. rewrite Hsegs in H. by apply Forall_cons_1 in H as [_ H].
  - pose proof (lv_dense _ _ _ V) as H. rewrite Hsegs in H. by apply Forall2_cons in H as [_ H].
  - pose proof (lv_decodes _ _ _ V) as H. unfold all_entries in H. rewrite fmap_cons in H. simpl in H.
    by apply Forall_app in H as [_ H].
  - pose proof (lo_clean _ _ _ O) as H. by apply Forall_cons_1 in H as [_ H].
  - by eapply dir_holds_tail.
  - intros b Hb. rewrite Hent. destruct (lo_free _ _ _ O b) as [F1 F2].
    + unfold log_next in *. rewrite Hsegs. simpl in *. done.
    + rewrite !lookup_delete_None. auto.
Qed.

(** ** The policy *)

(** The bytes of a list of segments. *)
Fixpoint size_sum (segs : list Segment) : Z :=
  match segs with [] => 0 | s :: segs' => s_size s + size_sum segs' end.

(** The timestamp of the last message of a segment. *)
Definition newest_of (g : seginfo) : Z :=
  match last (g_es g) with Some e => Timestamp (e_msg e) | None => 0 end.

(** Whether the oldest segment goes when [remaining] bytes are left: there are
    too many, or its newest message is older than the cutoff. *)
Definition removable (retentionBytes retentionMs cutoff remaining : Z) (s : Segment) (g : seginfo) : bool :=
  ((0 <? retentionBytes) && (retentionBytes <? remaining)) ||
  ((0 <? retentionMs) && (0 <? s_size s) && (newest_of g <? cutoff)).

(** How many segments go; the last one stays. *)
Fixpoint removed_count (retentionBytes retentionMs cutoff : Z) (segs : list Segment) (gs : list seginfo) : nat :=
  match segs, gs with
  | s :: (_ :: _) as tl, g :: gs' =>
      if removable retentionBytes retentionMs cutoff (size_sum segs) s g
      then S (removed_count retentionBytes retentionMs cutoff tl gs')
      else 0
  | _, _ => 0
  end.

Lemma removed_count_cons bytes ms cutoff s s1 segs g gs :
  removed_count bytes ms cutoff (s :: s1 :: segs) (g :: gs) =
  if removable bytes ms cutoff (size_sum (s :: s1 :: segs)) s g
  then S (removed_count bytes ms cutoff (s1 :: segs) gs) else 0%nat.
Proof. done. Qed.

Lemma total_size_sum segs :
  Forall (λ s, 0 ≤ s_size s) segs → size_sum segs < 2 ^ 63 → total_size segs = size_sum segs.
Proof.
  intros Hpos Hlt. unfold total_size.
  assert (H : ∀ t, 0 ≤ t → t + size_sum segs < 2 ^ 63 →
    foldl (λ t s, i64 (t + s_size s)) t segs = t + size_sum segs).
  { clear Hlt. induction Hpos as [|s segs Hs Hpos IH]; intros t Ht Hlt; simpl in *; [lia|].
    assert (0 ≤ size_sum segs) by (clear -Hpos; induction Hpos; simpl; lia).
    rewrite i64_id by (unfold is_i64; lia). rewrite IH; lia. }
  rewrite H; lia.
Qed.

Lemma lo_size_pos w l gs : log_ok w l gs → Forall (λ s, 0 ≤ s_size s) (l_segments l).
Proof.
  intros O. apply Forall_lookup_2. intros i s Hs.
  destruct (lr_lookup _ _ _ (lv_rep _ _ _ (lo_view _ _ _ O)) i s Hs) as (g & _ & R).
  rewrite (sr_size _ _ _ _ _ _ _ R). lia.
Qed.

Lemma wp_should_remove w s g bytes ms cutoff total (Q : bool → world → Prop) (E : goerr → world → Prop) :
  info_rep w s g → dense s g →
  (∀ w', ro w w' → Q (removable bytes ms cutoff total s g) w') →
  (∀ e w', w_faults w ≠ [] → E e w') →
  wp (should_remove bytes ms cutoff total s) Q E w.
Proof.
  intros R [_ Hn] HQ HE. unfold should_remove, removable in *. wp_steps.
  destruct ((0 <? ms) && (0 <? s_size s)) eqn:Hc; cbn [andb] in *; [|by apply wp_ret, wp_ret, HQ].
  apply andb_prop in Hc as [_ Hsize%Z.ltb_lt].
  wp_steps. eapply (wp_reads _ _ (newest_of g)).
  - pose proof (reads_NewestTimestamp _ _ _ _ _ _ w R) as H. unfold newest_spec, newest_of in *.
    rewrite (sr_size _ _ _ _ _ _ _ R) in Hsize.
    destruct (g_es g) as [|e es] eqn:Hes; [rewrite enc_log_nil in Hsize; simpl in Hsize; lia|].
    rewrite <-Hes in *. destruct (last (g_es g)) as [e'|] eqn:Hl; [|by apply last_None in Hl; rewrite Hes in Hl].
    destruct (Z.leb_spec (s_nextOffset s) (s_baseOffset s)) as [Hle|]; [|exact H].
    rewrite Hn, Hes in Hle. simpl in Hle. lia.
  - intros w' Hr. by apply wp_ret, wp_ret, HQ.
  - intros e w' _ [Hf _]. by apply HE.
Qed.

Lemma set_segments_id l : set_segments (l_segments l) l = l.
Proof. by destruct l. Qed.

Lemma wp_retention_loop fuel bytes ms cutoff w l gs Q E :
  log_ok w l gs → (length (l_segments l) ≤ S fuel)%nat → size_sum (l_segments l) < 2 ^ 63 →
  (let k := removed_count bytes ms cutoff (l_segments l) gs in
   ∀ w', log_ok w' (set_segments (drop k (l_segments l)) l) (drop k gs) →
     Q tt (set_segments (drop k (l_segments l)) l, w')) →
  (∀ e st, w_faults w ≠ [] → E e st) →
  wp (retention_loop fuel bytes ms cutoff (size_sum (l_segments l))) Q E (l, w).
Proof.
  revert w l gs. induction fuel as [|fuel IH]; intros w l gs O Hlen Hsum HQ HE;
    (assert (HQ0 : removed_count bytes ms cutoff (l_segments l) gs = 0%nat → ∀ w', ro w w' → Q tt (l, w'));
     [intros H0 w' Hr; cbv zeta in HQ; specialize (HQ w'); rewrite H0, !drop_0, set_segments_id in HQ;
      by eapply HQ, log_ok_ro|]);
    simpl retention_loop; wp_steps.
  all: destruct (l_segments l) as [|s [|s1 segs]] eqn:Hsegs; simpl in Hlen; try lia; cbn [length Nat.ltb Nat.leb].
  1, 3: by destruct (lr_nonempty _ _ _ (lv_rep _ _ _ (lo_view _ _ _ O))).
  1, 2: by apply wp_ret, HQ0.
  assert (Hgs : ∃ g gs', gs = g :: gs').
  { pose proof (lv_dense _ _ _ (lo_view _ _ _ O)) as H. rewrite Hsegs in H. inversion H; eauto. }
  destruct Hgs as (g & gs' & ->).
  pose proof (lv_dense _ _ _ (lo_view _ _ _ O)) as Hd. rewrite Hsegs in Hd. apply Forall2_cons in Hd as [Hd _].
  pose proof (lr_segs _ _ _ (lv_rep _ _ _ (lo_view _ _ _ O))) as HR. rewrite Hsegs in HR.
  apply Forall2_cons in HR as [HR _].
  wp_steps. unfold segment_at. rewrite Hsegs. cbn [lookup list_lookup]. wp_steps.
  eapply wp_should_remove; [exact HR|exact Hd| |].
  2: { intros. by apply HE. }
  intros w1 R1. cbn [removed_count] in HQ.
  destruct (removable bytes ms cutoff (size_sum (s :: s1 :: segs)) s g) eqn:Hrem; simpl negb; cbn iota.
  2: { apply wp_ret. apply HQ0; [|done]. cbn [removed_count]. by rewrite Hrem. }
  wp_steps. eapply wp_on_segment; [by rewrite Hsegs|].
  pose proof (log_ok_ro _ _ _ _ R1 O) as O1. pose proof (lo_dir _ _ _ O1) as [_ D _].
  rewrite Hsegs in D. apply Forall2_cons in D as [D _].
  assert (Hdir : s_dir s = l_dir l).
  { pose proof (lr_dir _ _ _ (lv_rep _ _ _ (lo_view _ _ _ O))) as H. rewrite Hsegs in H.
    by apply Forall_cons_1 in H as [H _]. }
  eapply wp_Segment_Delete; [by rewrite Hdir| |].
  2: { intros e w2 Hf. apply HE. by eapply ro_faults. }
  intros w2 A2. wp_steps. rewrite Hsegs. simpl list_insert. cbn [l_segments set_segments drop].
  rewrite Hdir in A2. pose proof (log_ok_tail _ _ _ _ _ _ _ _ O1 Hsegs A2) as O2.
  pose proof (lo_size_pos _ _ _ O) as Hpos. rewrite Hsegs in Hpos.
  assert (Hsub : i64 (size_sum (s :: s1 :: segs) - s_size s) = size_sum (s1 :: segs)).
  { simpl in Hsum |- *. apply Forall_cons_1 in Hpos as [Hp Hpos]. apply Forall_cons_1 in Hpos as [Hp1 Hpos].
    assert (0 ≤ size_sum segs) by (clear -Hpos; induction Hpos; simpl; lia).
    rewrite i64_id by (unfold is_i64; lia). lia. }
  rewrite Hsub.
  eapply (IH w2 (set_segments (s1 :: segs) l) gs' O2).
  - simpl. lia.
  - apply Forall_cons_1 in Hpos as [Hp Hpos]. simpl in Hsum |- *. lia.
  - intros k w3 O3. apply HQ. exact O3.
  - intros e st Hf. apply HE. eapply ro_faults; [exact R1|]. by eapply after_faults.
Qed.

Lemma wp_EnforceRetention w l gs bytes ms now Q E :
  log_ok w l gs → size_sum (l_segments l) < 2 ^ 63 →
  (let k := removed_count bytes ms (retention_cutoff now ms) (l_segments l) gs in
   ∀ w', log_ok w' (set_segments (drop k (l_segments l)) l) (drop k gs) →
     Q tt (set_segments (drop k (l_segments l)) l, w')) →
  (∀ e st, w_faults w ≠ [] → E e st) →
  wp (EnforceRetention bytes ms now) Q E (l, w).
Proof.
  intros O Hsum HQ HE. unfold EnforceRetention. wp_steps.
  assert (HQ0 : removed_count bytes ms (retention_cutoff now ms) (l_segments l) gs = 0%nat → Q tt (l, w)).
  { intros H0. cbv zeta in HQ. specialize (HQ w). rewrite H0, !drop_0, set_segments_id in HQ. by apply HQ. }
  destruct (Nat.leb_spec (length (l_segments l)) 1) as [Hlen|Hlen].
  { apply wp_ret, HQ0. by destruct (l_segments l) as [|? [|? ?]]; [..|simpl in Hlen; lia]. }
  destruct (Z.leb_spec bytes 0) as [Hb|Hb]; cbn [andb]; [destruct (Z.leb_spec ms 0) as [Hms|Hms]; cbn iota|].
  { apply wp_ret, HQ0. destruct (l_segments l) as [|? [|? ?]], gs; try done. simpl. unfold removable.
    destruct (Z.ltb_spec 0 bytes); [lia|]. by destruct (Z.ltb_spec 0 ms); [lia|]. }
  all: rewrite total_size_sum by (done || by eapply lo_size_pos); by apply (wp_retention_loop _ _ _ _ _ _ gs); try lia.
Qed.

(** The timestamp of the last message of a segment, among the messages of the log. *)
Definition newest_in (base : Z) (msgs : list Message) (s : Segment) : Z :=
  match msgs !! Z.to_nat (s_nextOffset s - 1 - base) with Some m => Timestamp m | None => 0 end.

(** What the policy keeps of a list of segments. *)
Fixpoint retained (retentionBytes retentionMs cutoff : Z) (newest : Segment → Z) (segs : list Segment) :
    list Segment :=
  match segs with
  | s :: (_ :: _) as tl =>
      if ((0 <? retentionBytes) && (retentionBytes <? size_sum segs)) ||
         ((0 <? retentionMs) && (0 <? s_size s) && (newest s <? cutoff))
      then retained retentionBytes retentionMs cutoff newest tl
      else segs
  | _ => segs
  end.

Lemma newest_in_of w l gs i s g :
  log_view w l gs → l_segments l !! i = Some s → gs !! i = Some g → 0 < s_size s →
  newest_in (log_base l) (e_msg <$> all_entries gs) s = newest_of g.
Proof.
  intros V Hs Hg Hsize. pose proof (lr_both _ _ _ (lv_rep _ _ _ V) i s g Hs Hg) as R.
  pose proof (Forall2_lookup_lr _ _ _ _ _ _ (lv_dense _ _ _ V) Hs Hg) as [Hc Hn].
  unfold newest_in, newest_of. destruct (last (g_es g)) as [e|] eqn:Hl.
  - rewrite last_lookup in Hl. pose proof (Hc _ _ Hl) as Hoff. assert (Hlt := lookup_lt_Some _ _ _ Hl).
    assert (Hin : e ∈ all_entries gs) by (apply elem_of_all_entries; eauto).
    apply list_elem_of_lookup in Hin as [k Hk]. pose proof (lv_consecutive _ _ _ V _ _ Hk) as Hko.
    replace (Z.to_nat (s_nextOffset s - 1 - log_base l)) with k by lia.
    by rewrite list_lookup_fmap, Hk.
  - apply last_None in Hl. rewrite (sr_size _ _ _ _ _ _ _ R), Hl, enc_log_nil in Hsize. simpl in Hsize. lia.
Qed.

Lemma retained_removed bytes ms cutoff newest segs gs :
  length segs = length gs →
  (∀ i s g, segs !! i = Some s → gs !! i = Some g → 0 < s_size s → newest s = newest_of g) →
  drop (removed_count bytes ms cutoff segs gs) segs = retained bytes ms cutoff newest segs ∧
  (segs ≠ [] → removed_count bytes ms cutoff segs gs < length segs)%nat.
Proof.
  revert gs. induction segs as [|s [|s1 segs] IH]; intros gs Hlen Hnew; [done|destruct gs; simpl; auto with lia|].
  destruct gs as [|g gs]; [done|]. destruct (IH gs) as [IH1 IH2].
  { simpl in *. lia. }
  { intros i s0 g0 Hs0 Hg0. by apply (Hnew (S i)). }
  assert (Heq : removable bytes ms cutoff (size_sum (s :: s1 :: segs)) s g =
    ((0 <? bytes) && (bytes <? size_sum (s :: s1 :: segs))) ||
    ((0 <? ms) && (0 <? s_size s) && (newest s <? cutoff))).
  { unfold removable. destruct (Z.ltb_spec 0 (s_size s)); [|by rewrite !andb_false_r].
    by rewrite (Hnew 0%nat s g). }
  rewrite removed_count_cons.
  change (retained bytes ms cutoff newest (s :: s1 :: segs)) with
    (if ((0 <? bytes) && (bytes <? size_sum (s :: s1 :: segs))) ||
        ((0 <? ms) && (0 <? s_size s) && (newest s <? cutoff))
     then retained bytes ms cutoff newest (s1 :: segs) else s :: s1 :: segs).
  rewrite <-Heq. destruct (removable _ _ _ _ _ _).
  - split; [exact IH1|]. intros _. specialize (IH2 ltac:(done)). simpl in IH2 |- *. lia.
  - split; [done|]. intros _. simpl. lia.
Qed.

(** Dropping segments from the front keeps the end of the log. *)
Lemma drop_last w' l gs k :
  log_view w' (set_segments (drop k (l_segments l)) l) (drop k gs) →
  last (drop k (l_segments l)) = last (l_segments l).
Proof.
  intros V'. rewrite !last_lookup, lookup_drop, length_drop.
  pose proof (lr_nonempty _ _ _ (lv_rep _ _ _ V')) as Hne. simpl in Hne.
  destruct (decide (k < length (l_segments l))%nat); [|by rewrite drop_ge in Hne by lia]. f_equal. lia.
Qed.

Lemma drop_next w' l gs k :
  log_view w' (set_segments (drop k (l_segments l)) l) (drop k gs) →
  log_next (set_segments (drop k (l_segments l)) l) = log_next l.
Proof. intros V'. unfold log_next. simpl. by rewrite (drop_last _ _ _ _ V'). Qed.

(** Dropping segments drops the messages below the new base. *)
Lemma drop_messages w w' l gs k :
  log_view w l gs → log_view w' (set_segments (drop k (l_segments l)) l) (drop k gs) →
  let l' := set_segments (drop k (l_segments l)) l in
  e_msg <$> all_entries (drop k gs) =
  drop (Z.to_nat (log_base l' - log_base l)) (e_msg <$> all_entries gs).
Proof.
  intros V V' l'. pose proof (lv_next _ _ _ V) as H1. pose proof (lv_next _ _ _ V') as H2. fold l' in H2.
  pose proof (drop_next _ _ _ _ V') as Hnext. fold l' in Hnext.
  assert (Hall : all_entries gs = all_entries (take k gs) ++ all_entries (drop k gs))
    by by rewrite <-all_entries_app, take_drop.
  rewrite Hall in *. rewrite length_app in H1. rewrite <-fmap_drop. f_equal.
  rewrite drop_app_length'; [done|lia].
Qed.

(** Whatever the policy, some messages go from the front and the end stays. *)
Lemma wp_EnforceRetention_drop w l base msgs bytes ms now :
  Writable w l base msgs → size_sum (l_segments l) < 2 ^ 63 →
  wp (EnforceRetention bytes ms now)
    (λ _ '(l', w'), l_dir l' = l_dir l ∧ l_compressed l' = l_compressed l ∧ l_maxSegmentSize l' = l_maxSegmentSize l ∧
       last (l_segments l') = last (l_segments l) ∧
       ∃ j, (j ≤ length msgs)%nat ∧ Writable w' l' (base + Z.of_nat j) (drop j msgs))
    (λ _ _, w_faults w ≠ []) (l, w).
Proof.
  intros (gs & O & -> & ->) Hsum. pose proof (lo_view _ _ _ O) as V.
  eapply wp_EnforceRetention; [done|done| |done]. intros k w' O'. set (k' := removed_count _ _ _ _ _) in *.
  pose proof (lo_view _ _ _ O') as V'. split_and!; [done..|by eapply drop_last|].
  pose proof (lv_next _ _ _ V) as H1. pose proof (lv_next _ _ _ V') as H2. rewrite (drop_next _ _ _ _ V') in H2.
  assert (Hall : all_entries gs = all_entries (take k gs) ++ all_entries (drop k gs))
    by by rewrite <-all_entries_app, take_drop.
  exists (length (all_entries (take k gs))). rewrite Hall in *. rewrite length_app in H1.
  split; [rewrite length_fmap, length_app; lia|]. exists (drop k gs). split_and!; [done|lia|].
  by rewrite fmap_app, drop_app_length' by by rewrite length_fmap.
Qed.
End retention.
