(* ===== verification/LogCompact.v ===== *)
(** * Compaction

    The scan of [Compact] finds, for every key, the last message of the sealed
    segments that has it.  The rewriting that follows does not get far: the
    segment's handles are closed before its index is read through them. *)

From S2P Require Import Prelude GoNum OS Snappy Segment SegmentRep SegmentRead SegmentWrite SegmentOpen.
From S2P Require Import Log LogRep LogView LogWrite LogOpen LogRetention.

(** ** The scan *)

(** What the scan makes of one entry, the last ones coming first. *)
Definition note_entry (e : entry) (m : gmap bytes Z) : gmap bytes Z :=
  match m !! Key (e_msg e) with
  | Some _ => m
  | None => <[Key (e_msg e) := i64 (e_off e)]> m
  end.

(** The last message with a key. *)
Definition last_with_key (k : bytes) (msgs : list Message) : option Message :=
  last (filter (λ m, Key m = k) msgs).

Lemma note_entries_lookup k es :
  foldr note_entry ∅ es !! k =
  (λ m, i64 (Offset m)) <$> last_with_key k (e_msg <$> es).
Proof.
  unfold last_with_key. induction es as [|e es IH]; [done|]. rewrite fmap_cons, filter_cons. simpl.
  unfold note_entry at 1. set (m := foldr note_entry ∅ es) in *.
  destruct (decide (Key (e_msg e) = k)) as [<-|Hne].
  - rewrite last_cons. rewrite IH. destruct (last (filter _ _)) eqn:Hl; simpl.
    + by rewrite IH.
    + by rewrite lookup_insert_eq.
  - destruct (m !! Key (e_msg e)); [done|]. by rewrite lookup_insert_ne.
Qed.

Section compact.
Context `{SN : Snappy}.

Lemma reads_collect_loop n s li ii es jl ji m w :
  seg_rep w s li ii es jl ji → (n ≤ length es)%nat → Forall (decodes (s_compressed s)) es →
  reads (collect_loop n s m) w (Ok (foldr note_entry m (take n es))).
Proof.
  intros R Hn Hdec. revert m w R Hn. induction n as [|n IH]; intros m w R Hn; [apply reads_ret|].
  destruct (lookup_lt_is_Some_2 es n ltac:(lia)) as [e He]. cbn [collect_loop].
  eapply reads_bind; [by eapply reads_readIndexEntry|]. intros w1 R1. cbn beta iota.
  pose proof (Forall_lookup_1 _ _ _ _ Hdec He) as Hd.
  eapply (reads_bind _ _ _ (e_msg e)).
  { rewrite <-(read_result_decodes _ _ Hd). eapply reads_Segment_Read_at; [|exact He]. by eapply rep_ro. }
  intros w2 R2. rewrite (take_S_r _ _ e) by done. rewrite foldr_app. cbn [foldr].
  apply IH; [|lia]. eapply rep_ro; [exact R|ro_solve].
Qed.

Lemma reads_collectLatestOffsets s li ii es jl m w :
  seg_rep w s li ii es jl [] → Forall (decodes (s_compressed s)) es →
  reads (collectLatestOffsets s m) w (Ok (foldr note_entry m es)).
Proof.
  intros R Hdec. unfold collectLatestOffsets.
  eapply reads_bind; [rewrite (sr_indexRead _ _ _ _ _ _ _ R); apply reads_Stat|]. intros w1 R1.
  pose proof (sr_index _ _ _ _ _ _ _ R) as Hx. rewrite app_nil_r in Hx.
  rewrite (content_Some _ _ _ Hx), zlen_enc_index.
  replace (Z.to_nat (Z.quot (16 * zlen es) indexEntrySize)) with (length es).
  - pose proof (reads_collect_loop (length es) s li ii es jl [] m w1 (rep_ro _ _ _ _ _ _ _ R _ R1)
      ltac:(lia) Hdec) as H. by rewrite firstn_all in H.
  - rewrite Z.mul_comm. unfold indexEntrySize. rewrite Z.quot_mul by lia. lia.
Qed.

Lemma reads_wrap_error {A} f (m : GoM world A) w a :
  reads m w (Ok a) →
  ∃ r w', wrap_error f m w = (r, w') ∧ ro w w' ∧ (r = Ok a ∨ ∃ e, r = Err (f e) ∧ io_error w e).
Proof.
  intros (r & w' & Hm & Hr & Hc). unfold wrap_error. rewrite Hm.
  destruct Hc as [->|(e & -> & He)]; eauto 10.
Qed.

(** The scan of the first [n] segments, or a failure of the device. *)
Lemma wp_collect_segments (n : nat) (w : world) (l : Log) (gs : list seginfo) (m : gmap bytes Z) (Q : gmap bytes Z → world → Prop) (E : goerr → world → Prop) :
  log_ok w l gs → (n ≤ length gs)%nat →
  (∀ w', ro w w' → Q (foldr note_entry m (all_entries (take n gs))) w') →
  (∀ e w', ro w w' → w_faults w ≠ [] → E e w') →
  wp (collect_segments n l m) Q E w.
Proof.
  revert w m. induction n as [|n IH]; intros w m O Hn HQ HE; [apply wp_ret, HQ, ro_refl|].
  destruct (lookup_lt_is_Some_2 gs n ltac:(lia)) as [g Hg].
  pose proof (lo_view _ _ _ O) as V. pose proof (lv_rep _ _ _ V) as L.
  destruct (lr_lookup_info _ _ _ L n g Hg) as (s & Hs & R). cbn [collect_segments]. wp_steps.
  eapply wp_reads; [by apply reads_segment_at| |].
  2: { intros e w' Hr [Hf _]. by apply HE. }
  intros w1 R1. wp_steps.
  pose proof (lo_clean _ _ _ O) as Hc. rewrite Forall_forall in Hc.
  destruct (Hc g ltac:(by eapply list_elem_of_lookup_2)) as [_ Hji].
  assert (Hdec : Forall (decodes (s_compressed s)) (g_es g)).
  { rewrite (lr_compressed _ _ _ L n s Hs). pose proof (lv_decodes _ _ _ V) as H.
    rewrite Forall_forall in H |- *. intros e [k He]%list_elem_of_lookup. apply H, elem_of_all_entries. eauto. }
  unfold info_rep in R. rewrite Hji in R.
  eapply wp_reads; [eapply reads_collectLatestOffsets; [by eapply rep_ro|done]| |].
  - intros w2 R2. apply IH; [by eapply log_ok_ro; [|exact O]; ro_solve|lia| |].
    + intros w3 R3. specialize (HQ w3 ltac:(ro_solve)).
      rewrite (take_S_r _ _ g) in HQ by done. rewrite all_entries_app, all_entries_one, foldr_app in HQ. exact HQ.
    + intros e w3 R3 Hf. apply HE; [ro_solve|]. eapply ro_faults; [exact R1|]. by eapply ro_faults.
  - intros e w2 R2 [Hf _]. apply HE; [ro_solve|]. by eapply ro_faults.
Qed.
Lemma chain_entries segs gs n s0 s :
  linked segs → Forall2 dense segs gs → segs !! 0%nat = Some s0 → segs !! n = Some s →
  zlen (all_entries (take n gs)) = s_baseOffset s - s_baseOffset s0.
Proof.
  revert segs gs s0. induction n as [|n IH]; intros segs gs s0 Hl Hd H0 Hs.
  { simplify_eq. rewrite take_0. simpl. lia. }
  destruct Hd as [|a g segs gs [Hc Hn] Hd]; [done|]. simpl in H0, Hs. simplify_eq.
  destruct segs as [|s1 segs]; [done|]. pose proof (Hl 0%nat s0 s1 eq_refl eq_refl) as Hlink.
  pose proof (IH (s1 :: segs) gs s1 (linked_tail _ _ Hl) Hd eq_refl Hs) as H.
  unfold all_entries in *. cbn [take]. rewrite fmap_cons. simpl concat. rewrite length_app. lia.
Qed.

(** The first [n] segments hold the messages below the base of the next one. *)
Lemma take_entries w l gs n s :
  log_view w l gs → l_segments l !! n = Some s →
  zlen (all_entries (take n gs)) = s_baseOffset s - log_base l.
Proof.
  intros V Hs. destruct (lv_first _ _ _ V) as (s0 & Hs0 & ->).
  by apply (chain_entries (l_segments l)); [apply V|apply V|..].
Qed.
End compact.

(** ** The rewriting *)

(** Nothing that was there is gone: existing files keep their contents and
    their names. *)
Definition kept (w w' : world) : Prop :=
  (w_next w ≤ w_next w')%nat ∧
  (∀ i, (i < w_next w)%nat → w_data w' !! i = w_data w !! i) ∧
  (∀ d name e, entries w d !! name = Some e → entries w' d !! name = Some e).

Lemma kept_refl w : kept w w.
Proof. by split_and!. Qed.

Lemma kept_ro w w1 w2 : kept w w1 → ro w1 w2 → kept w w2.
Proof. intros H [k ->]. exact H. Qed.

Lemma kept_create w w1 dir name : kept w w1 → entries w1 dir !! name = None → kept w (create_file dir name w1).
Proof.
  intros (H1 & H2 & H3) Hn. split_and!; simpl; [lia| |].
  - intros i Hi. rewrite lookup_insert_ne by lia. by apply H2.
  - intros d n e He. apply H3 in He. destruct (decide (d = dir)) as [->|].
    + rewrite entries_create, lookup_insert_ne; [done|]. intros ->. congruence.
    + by rewrite entries_create_ne.
Qed.

Lemma kept_del w w1 dir name : kept w w1 → entries w dir !! name = None → kept w (del_entry dir name w1).
Proof.
  intros (H1 & H2 & H3) Hn. split_and!; [done|done|]. intros d n e He. destruct (decide (d = dir)) as [->|].
  - rewrite entries_del, lookup_delete_ne; [by apply H3|]. intros ->. congruence.
  - unfold del_entry, entries at 1. simpl. rewrite lookup_insert_ne by done. by apply H3.
Qed.

Lemma kept_absent w w1 dir name : kept w w1 → entries w1 dir !! name = None → entries w dir !! name = None.
Proof.
  intros (_ & _ & H) Hn. destruct (entries w dir !! name) as [e|] eqn:He; [|done].
  apply H in He. congruence.
Qed.

Lemma kept_after w w0 w1 w2 : kept w w0 → after w1 w0 w2 → kept w w2.
Proof. intros H [k ->]. exact H. Qed.

Lemma wp_create_temp w fuel dir prefix suffix w1 (Q : bytes * file → world → Prop) E :
  kept w w1 →
  (∀ name f w2, kept w w2 → entries w dir !! name = None → Q (name, f) w2) →
  (∀ e w2, kept w w2 → E e w2) →
  wp (create_temp fuel dir prefix suffix) Q E w1.
Proof.
  intros Hk HQ HE. revert w1 Hk. induction fuel as [|fuel IH]; intros w1 Hk.
  { unfold wp. simpl. by apply HE. }
  unfold wp. cbn [create_temp]. set (w2 := set_rand _ w1). assert (Hk2 : kept w w2) by exact Hk.
  change (w_dirs w2) with (w_dirs w1).
  destruct (w_dirs w1 !! dir) as [ents|] eqn:Hd; [|by apply HE].
  assert (He : entries w2 dir = ents) by (unfold entries, w2; simpl; by rewrite Hd).
  set (name := prefix ++ _). destruct (ents !! name) as [e|] eqn:Hn.
  - apply (IH w2 Hk2).
  - rewrite <-He in Hn. apply HQ; [by apply kept_create|by eapply kept_absent].
Qed.

Lemma wp_CreateTemp w dir prefix suffix w1 (Q : bytes * file → world → Prop) E :
  kept w w1 →
  (∀ name f w2, kept w w2 → entries w dir !! name = None → Q (name, f) w2) →
  (∀ e w2, kept w w2 → E e w2) →
  wp (os_CreateTemp dir prefix suffix) Q E w1.
Proof.
  intros Hk HQ HE. apply wp_sys.
  - intros w2 R2. by eapply wp_create_temp; [eapply kept_ro|..].
  - intros e w2 R2 _. apply HE. by eapply kept_ro.
Qed.

Lemma wp_drop_file w f w1 (Q : unit → world → Prop) E :
  kept w w1 → (∀ w2, kept w w2 → Q tt w2) → wp (drop_file f) Q E w1.
Proof.
  intros Hk HQ. destruct (quiet_Close f w1) as (w2 & H & R). eapply wp_run; [exact H|].
  apply HQ. by eapply kept_ro.
Qed.

Lemma wp_remove_temp w dir name w1 (Q : unit → world → Prop) E :
  kept w w1 → entries w dir !! name = None → (∀ w2, kept w w2 → Q tt w2) →
  wp (ignore (os_Remove dir name)) Q E w1.
Proof.
  intros Hk Hn HQ. apply wp_ignore, wp_sys.
  - intros w2 R2. pose proof (kept_ro _ _ _ Hk R2) as Hk2. unfold wp.
    destruct (entries w2 dir !! name) as [[i|]|]; apply HQ; [by apply kept_del|done..].
  - intros e w2 R2 _. apply HQ. by eapply kept_ro.
Qed.

Section rewrite.
Context `{SN : Snappy}.

Lemma wp_compact_loop_closed n s c m src tl ti entries (Q : unit → world → Prop) (E : goerr → world → Prop) w :
  s_indexRead s = None → E ErrInvalid w → wp (compact_loop (S n) s c m src tl ti 0 entries) Q E w.
Proof.
  intros Hs HE. cbn [compact_loop]. unfold compact_record, readIndexEntry. rewrite Hs.
  wp_steps. exact HE.
Qed.

(** With the handles closed the rewriting fails, and cleans up after itself. *)
Lemma wp_rewrite_closed s m entries w w1 (Q : unit → world → Prop) (E : goerr → world → Prop) :
  kept w w1 → s_indexRead s = None → 0 < entries →
  (∀ e w2, kept w w2 → E e w2) →
  wp (rewrite_files s m entries) Q E w1.
Proof.
  intros Hk Hs Hn HE. unfold rewrite_files. wp_steps. apply wp_sys.
  2: { intros e w2 R2 _. apply HE. by eapply kept_ro. }
  intros w2 R2. pose proof (kept_ro _ _ _ Hk R2) as Hk2. unfold wp at 1.
  destruct (OS.entries w2 _ !! _) as [[i|]|]; [|by apply HE..].
  wp_steps. eapply (wp_CreateTemp w); [done| |].
  2: { intros e w3 Hk3. eapply (wp_drop_file w); [done|]. intros w4 Hk4. by apply HE. }
  intros n1 f1 w3 Hk3 Hn1. cbn beta iota. wp_steps. eapply (wp_CreateTemp w); [done| |].
  2: { intros e w4 Hk4. wp_step. eapply (wp_drop_file w); [done|]. intros w5 Hk5.
       wp_step. eapply (wp_drop_file w); [done|]. intros w6 Hk6.
       eapply (wp_remove_temp w); [done|done|]. intros w7 Hk7. by apply HE. }
  intros n2 f2 w4 Hk4 Hn2. cbn beta iota. wp_steps.
  destruct (Z.to_nat entries) as [|n] eqn:Hen; [lia|].
  apply wp_compact_loop_closed; [done|].
  repeat first [ eapply (wp_drop_file w); [done|]; let v := fresh "v" in let Hv := fresh "Hv" in intros v Hv
               | eapply (wp_remove_temp w); [done|done|]; let v := fresh "v" in let Hv := fresh "Hv" in intros v Hv
               | wp_step; cbn beta iota ].
  by apply HE.
Qed.

(** ** Compact *)

Definition head_closed (l : Log) : Log :=
  set_segments (match l_segments l with s :: segs => closed s :: segs | [] => [] end) l.

Lemma wp_compactSegment_closes w l gs s segs m (Q : unit → Log * world → Prop) (E : goerr → Log * world → Prop) :
  log_ok w l gs → l_segments l = s :: segs → s_baseOffset s < s_nextOffset s →
  (∀ e w', kept w w' → w_faults w ≠ [] → E e (l, w')) →
  (∀ e w', kept w w' → E e (head_closed l, w')) →
  wp (compactSegment 0 m) Q E (l, w).
Proof.
  intros O Hsegs Hlt HE1 HE2. unfold compactSegment. wp_steps.
  unfold segment_at. rewrite Hsegs. cbn [lookup list_lookup]. wp_steps.
  destruct (Z.leb_spec (s_nextOffset s) (s_baseOffset s)); [lia|].
  pose proof (lo_view _ _ _ O) as V. pose proof (lv_rep _ _ _ V) as L.
  destruct (lr_lookup _ _ _ L 0 s) as (g & Hg & R); [by rewrite Hsegs|].
  pose proof (lv_dense _ _ _ V) as Hd. pose proof (Forall2_lookup_lr _ _ _ 0%nat s g Hd ltac:(by rewrite Hsegs) Hg) as [_ Hn].
  wp_steps. rewrite (sr_indexRead _ _ _ _ _ _ _ R). eapply wp_reads; [apply reads_Stat| |].
  2: { intros e w1 R1 [Hf _]. apply HE1; [|done]. by eapply kept_ro; [apply kept_refl|]. }
  intros w1 R1. pose proof (kept_ro _ _ _ (kept_refl w) R1) as Hk1. wp_steps.
  eapply wp_on_segment; [by rewrite Hsegs|]. rewrite Hsegs. cbn [list_insert insert].
  assert (Hc : set_segments (closed s :: segs) l = head_closed l) by (unfold head_closed; by rewrite Hsegs).
  apply wp_Segment_Close.
  2: { intros e w2 R2 _. simpl. rewrite Hc. apply HE2. by eapply kept_ro. }
  intros w2 R2. cbn beta iota. wp_steps. unfold segment_at. cbn [set_segments l_segments lookup list_lookup]. wp_steps.
  simpl list_insert. eapply (wp_rewrite_closed _ _ _ w); [by eapply kept_ro|done| |].
  - pose proof (sr_index _ _ _ _ _ _ _ R) as Hx. rewrite (content_Some _ _ _ Hx), length_app, Nat2Z.inj_add, zlen_enc_index.
    unfold indexEntrySize. apply Z.quot_str_pos. lia.
  - intros e w3 Hk3. change (E e (set_segments (closed s :: segs) l, w3)). rewrite Hc. by apply HE2.
Qed.

Lemma wp_Compact_fails w l gs s s1 segs (E : goerr → Log * world → Prop) :
  log_ok w l gs → l_segments l = s :: s1 :: segs → s_baseOffset s < s_nextOffset s →
  (∀ e w', kept w w' → w_faults w ≠ [] → E e (l, w')) →
  (∀ e w', kept w w' → E e (head_closed l, w')) →
  wp Compact (λ _ _, False) E (l, w).
Proof.
  intros O Hsegs Hlt HE1 HE2. unfold Compact. wp_steps. rewrite Hsegs. cbn [length Nat.leb pred]. wp_steps.
  assert (Hlen : length gs = S (S (length segs))).
  { rewrite <-(lr_length _ _ _ (lv_rep _ _ _ (lo_view _ _ _ O))), Hsegs. done. }
  eapply wp_collect_segments; [done|lia| |].
  2: { intros e w1 R1 Hf. apply HE1; [|done]. by eapply kept_ro; [apply kept_refl|]. }
  intros w1 R1. cbn [compact_segments]. wp_steps. unfold segment_at. rewrite Hsegs. cbn [lookup list_lookup]. wp_steps.
  pose proof (kept_ro _ _ _ (kept_refl w) R1) as Hk1.
  assert (Htr : ∀ w', kept w1 w' → kept w w') by (intros w'; destruct R1 as [k ->]; done).
  eapply wp_compactSegment_closes; [by eapply log_ok_ro|done|done| |].
  - intros e w2 Hk2 Hf. apply HE1; [by apply Htr|by eapply ro_faults].
  - intros e w2 Hk2. apply HE2. by apply Htr.
Qed.
End rewrite.

(** ** The log afterwards *)

Section after.
Context `{SN : Snappy}.

Lemma sort_search_loop_ext fuel f g i j :
  (∀ k, f k = g k) → sort_search_loop fuel f i j = sort_search_loop fuel g i j.
Proof.
  intros H. revert i j. induction fuel as [|fuel IH]; intros i j; [done|]. simpl. rewrite H.
  destruct (i <? j)%nat; [|done]. destruct (g _); apply IH.
Qed.

Lemma head_closed_segmentForOffset l o w :
  segmentForOffset (head_closed l) o w = segmentForOffset l o w.
Proof.
  unfold segmentForOffset, head_closed. destruct (l_segments l) as [|s segs] eqn:Hsegs; simpl; [done|].
  destruct (o <? s_baseOffset s); [done|]. cbn [length]. unfold sort_Search.
  erewrite sort_search_loop_ext; [reflexivity|]. intros [|k]; unfold seg_pred; simpl; by rewrite Hsegs.
Qed.

Lemma head_closed_read w l gs s segs o w' :
  log_ok w l gs → l_segments l = s :: segs → s_baseOffset s ≤ o < s_nextOffset s →
  Log_Read (head_closed l) o w' = (Err ErrInvalid, w').
Proof.
  intros O Hsegs Ho. pose proof (lo_view _ _ _ O) as V. pose proof (lv_rep _ _ _ V) as L.
  destruct (lr_lookup _ _ _ L 0 s) as (g & Hg & R); [by rewrite Hsegs|].
  pose proof (Forall2_lookup_lr _ _ _ 0%nat s g (lv_dense _ _ _ V) ltac:(by rewrite Hsegs) Hg) as [Hc Hn].
  unfold Log_Read. erewrite run_bind.
  2: { rewrite head_closed_segmentForOffset. apply (lr_locate w l gs L 0 s); [by rewrite Hsegs|done]. }
  unfold segment_at, head_closed. rewrite Hsegs. simpl.
  destruct (lookup_lt_is_Some_2 (g_es g) (Z.to_nat (o - s_baseOffset s))) as [e He]; [lia|].
  replace o with (e_off e) by (rewrite (Hc _ _ He); lia).
  unfold mbind, gom_bind. simpl. eapply closed_read; [exact R|]. by eapply list_elem_of_lookup_2.
Qed.
End after.
