(* ===== verification/LogMessages.v ===== *)
(** * Appending, on lists of messages

    The effect of [Log.Append] and [Log.AppendBatch] on the abstract state of a
    log. *)

From S2P Require Import Prelude GoNum OS Snappy Segment SegmentRep SegmentRead SegmentWrite Log LogRep LogView LogWrite.

(** The messages a batch stores from an offset on. *)
Fixpoint messages_from (next : Z) (records : list LogRecord) : list Message :=
  match records with
  | [] => []
  | r :: rs => mkMessage next (r_Timestamp r) (r_Key r) (r_Value r) :: messages_from (next + 1) rs
  end.

Lemma batch_entries_messages `{SN : Snappy} c next records es :
  batch_entries c next records = Some es → e_msg <$> es = messages_from next records.
Proof.
  revert next es. induction records as [|r rs IH]; intros next es Hb; simpl in Hb.
  { by apply (inj Some) in Hb as <-. }
  apply bind_Some in Hb as (q & _ & Hb). apply bind_Some in Hb as (es' & Hes & Hb).
  apply (inj Some) in Hb as <-. by rewrite fmap_cons, (IH _ _ Hes).
Qed.

Section appending.
Context `{SN : Snappy} `{!SnappyLaws SN}.

Lemma append_failed_messages l gs es2 l' w' :
  append_failed l gs es2 l' w' →
  same_config l l' ∧ Readable w' l' (log_base l) ((e_msg <$> all_entries gs) ++ (e_msg <$> es2)).
Proof. intros (gs' & V' & Hb & Hcfg & Hall). split; [done|]. exists gs'. by rewrite Hall, fmap_app. Qed.

Lemma wp_Append_messages w l base msgs ts key value q :
  Writable w l base msgs → zlen key ≤ max_u32 → zlen value ≤ max_u32 → is_i64 ts →
  stored_payload (l_compressed l) (key ++ value) = Some q →
  log_room l 1 (messageHeaderSize + zlen q) →
  let o := base + zlen msgs in
  let msgs' := msgs ++ [mkMessage o ts key value] in
  wp (Log_Append ts key value)
    (λ res '(l', w'), res = o ∧ Writable w' l' base msgs' ∧ same_config l l' ∧ not_full l')
    (λ err '(l', w'), w_faults w ≠ [] ∧ same_config l l' ∧
       (on_active (Segment_Append ts key value) l w (Err err) ∧ Readable w' l' base msgs ∨
        (∃ saved, on_active (Segment_Append ts key value) l w (Ok (o, saved))) ∧ Readable w' l' base msgs'))
    (l, w).
Proof.
  intros (gs & O & -> & ->) Hk Hv Ht Hq Hroom. rewrite length_fmap.
  pose proof (lv_next _ _ _ (lo_view _ _ _ O)) as Hn. cbv zeta. rewrite <-Hn.
  eapply wp_Log_Append; [done..| |].
  - intros l' w' (gs' & O' & Hb & Hcfg & Hall & _ & Hnf). split_and!; [done| |done|done].
    exists gs'. split_and!; [done|done|]. rewrite Hall, fmap_app. done.
  - intros err l' w' Hf [[Ha Hfail]|[Ha Hfail]]; apply append_failed_messages in Hfail as [Hcfg Hr]; (split_and!; [done|done|]).
    + left. by rewrite app_nil_r in Hr.
    + by right.
Qed.

Lemma wp_AppendBatch_messages w l base msgs records es2 :
  Writable w l base msgs → records ≠ [] → Forall record_ok records →
  let o := base + zlen msgs in
  batch_entries (l_compressed l) o records = Some es2 →
  log_room l (zlen records) (zlen (enc_log es2)) →
  let msgs' := msgs ++ messages_from o records in
  wp (Log_AppendBatch records)
    (λ '(offsets, err) '(l', w'),
       offsets = (λ k, o + Z.of_nat k) <$> seq 0 (length records) ∧ same_config l l' ∧
       match err with
       | None => Writable w' l' base msgs' ∧ not_full l'
       | Some _ => w_faults w ≠ [] ∧ Readable w' l' base msgs'
       end)
    (λ _ '(l', w'), w_faults w ≠ [] ∧ same_config l l' ∧ Readable w' l' base msgs)
    (l, w).
Proof.
  intros (gs & O & -> & ->) Hne Hr. rewrite length_fmap. cbv zeta.
  pose proof (lv_next _ _ _ (lo_view _ _ _ O)) as Hn. rewrite <-Hn. intros Hb Hroom.
  assert (Hoffs : e_off <$> es2 = (λ k, log_next l + Z.of_nat k) <$> seq 0 (length records)).
  { destruct (batch_entries_consecutive _ _ _ _ Hb) as [Hcons Hlen]. apply list_eq. intros k.
    rewrite !list_lookup_fmap. destruct (es2 !! k) as [e|] eqn:Hk.
    - rewrite lookup_seq_lt by (apply lookup_lt_Some in Hk; lia). simpl. by rewrite (Hcons k e Hk).
    - rewrite lookup_seq_ge by (apply lookup_ge_None in Hk; lia). done. }
  eapply wp_Log_AppendBatch; [done..| | |].
  - intros l' w' (gs' & O' & Hb' & Hcfg & Hall & _ & Hnf). split_and!; [done|done| |done].
    exists gs'. split_and!; [done|done|]. by rewrite Hall, fmap_app, (batch_entries_messages _ _ _ _ Hb).
  - intros err l' w' Hf [Hcfg Hm]%append_failed_messages. rewrite (batch_entries_messages _ _ _ _ Hb) in Hm. by split_and!.
  - intros err l' w' Hf [Hcfg Hm]%append_failed_messages. rewrite app_nil_r in Hm. by split_and!.
Qed.
End appending.
