(* ===== verification/LogProps.v ===== *)
(** * Properties of the log

    The correctness theorems of internal/log/log.go, against the abstract state
    of LogView.v: a log is a base offset and a list of messages. *)

From S2P Require Import Prelude GoNum OS Snappy Segment SegmentRep SegmentRead SegmentWrite SegmentOpen.
From S2P Require Import Log LogRep LogView LogWrite LogOpen LogRetention LogCompact LogMessages.

(** ** A log to evaluate the theorems at

    A new log whose segments are rolled at 50 bytes, with four messages: two
    sealed segments of two messages each, and an empty active one. *)

Lemma wp_result {S A} (m : GoM S A) Q E s a s' : wp m Q E s → m s = (Ok a, s') → Q a s'.
Proof. unfold wp. by intros H Hm; rewrite Hm in H. Qed.

Section example.
Local Existing Instances rle_snappy rle_laws.

Definition ex_dir : bytes := str "data/orders/0".

Definition ex_log0 : Log :=
  mkLog ex_dir 50 [Segment_SetCompressed false (reopened ex_dir 0 0 1 [])] false false [].
Definition ex_world0 : world := created_segment ex_dir 0 empty_world.

Definition ex_step (ts : Z) (key value : bytes) (st : Log * world) : Log * world :=
  (Log_Append ts key value st).2.

Definition ex1 := ex_step 100 (str "a") (str "first message here") (ex_log0, ex_world0).
Definition ex2 := ex_step 200 (str "b") (str "x") ex1.
Definition ex3 := ex_step 300 (str "a") (str "y") ex2.
Definition ex4 := ex_step 400 (str "c") (str "z") ex3.

Definition ex_msg1 := mkMessage 0 100 (str "a") (str "first message here").
Definition ex_msg2 := mkMessage 1 200 (str "b") (str "x").
Definition ex_msg3 := mkMessage 2 300 (str "a") (str "y").
Definition ex_msg4 := mkMessage 3 400 (str "c") (str "z").

Definition ex_segment0 : Segment := reopened ex_dir 0 0 1 [].

Lemma ex_ok0 : Writable ex_world0 ex_log0 0 [].
Proof.
  exists [mkInfo 0 1 [] [] []]. split_and!; [|done|done].
  apply (fresh_log_ok empty_world); [done|by exists 0%nat].
Qed.

Lemma ex_append w l msgs ts key value o l' w' :
  Writable w l 0 msgs → l_compressed l = false → Log_Append ts key value (l, w) = (Ok o, (l', w')) →
  (zlen key <=? max_u32) && (zlen value <=? max_u32) && (- 2 ^ 63 <=? ts) && (ts <? 2 ^ 63) &&
    match last (l_segments l) with
    | Some s => (s_nextOffset s + 1 <? 2 ^ 64) && (s_size s + (24 + zlen (key ++ value)) <? 2 ^ 63)
    | None => false
    end = true →
  Writable w' l' 0 (msgs ++ [mkMessage (0 + zlen msgs) ts key value]).
Proof.
  intros W Hc Hrun Hb. repeat (apply andb_prop in Hb as [Hb ?]).
  destruct (last (l_segments l)) as [s|] eqn:Hlast; [|done].
  pose proof (wp_Append_messages w l 0 msgs ts key value (key ++ value) W) as H'.
  eapply wp_result in H'; [|by apply Z.leb_le|by apply Z.leb_le| | | |exact Hrun].
  - by destruct H' as (_ & ? & _).
  - unfold is_i64. lia.
  - by rewrite Hc.
  - intros s0 Hs0. simplify_eq. unfold room, messageHeaderSize. lia.
Qed.

Lemma ex_ok1 : Writable ex1.2 ex1.1 0 [ex_msg1].
Proof. by apply (ex_append _ _ [] 100 (str "a") (str "first message here") 0 _ _ ex_ok0); vm_compute. Qed.
Lemma ex_ok2 : Writable ex2.2 ex2.1 0 [ex_msg1; ex_msg2].
Proof. by apply (ex_append _ _ _ 200 (str "b") (str "x") 1 _ _ ex_ok1); vm_compute. Qed.
Lemma ex_ok3 : Writable ex3.2 ex3.1 0 [ex_msg1; ex_msg2; ex_msg3].
Proof. by apply (ex_append _ _ _ 300 (str "a") (str "y") 2 _ _ ex_ok2); vm_compute. Qed.
Lemma ex_ok4 : Writable ex4.2 ex4.1 0 [ex_msg1; ex_msg2; ex_msg3; ex_msg4].
Proof. by apply (ex_append _ _ _ 400 (str "c") (str "z") 3 _ _ ex_ok3); vm_compute. Qed.

Lemma Writable_faults fs w l base msgs : Writable w l base msgs → Writable (set_faults fs w) l base msgs.
Proof.
  intros (gs & [[L HD HX] HC [D1 D2 D3] HF] & ? & ?). exists gs. split_and!; [|done..].
  split; [split| |split|]; try done. pose proof (lr_segs _ _ _ L) as H1. destruct L. split; try done.
  eapply Forall2_impl; [exact H1|]. intros s g R. by eapply rep_frame.
Qed.

(** The same log on a device that fails now and then. *)
Definition ex_log : Log := ex4.1.
Definition ex_msgs : list Message := [ex_msg1; ex_msg2; ex_msg3; ex_msg4].
Definition ex_faulty : world := set_faults [FOk; FShort 3; FOk; FErr 1 5] ex4.2.

Lemma ex_ok : Writable ex_faulty ex_log 0 ex_msgs.
Proof. apply Writable_faults, ex_ok4. Qed.
End example.

(** ** The operations on the abstract state *)

Section properties.
Context `{SN : Snappy} `{!SnappyLaws SN}.

(** C3.  [Log.Append] appends to the list of messages: it returns the offset
    after the last one, and the log then holds the old messages and the new one
    at that offset, in a segment that was rolled if it became full.  When it
    fails, because of the device, no message is lost; if the append to the active
    segment failed, with the same error, the new message is not there; if that
    append worked and only the roll failed, the new message is there, at the
    offset that the segment gave it. *)
Theorem log_append_correct w l base msgs ts key value q :
  Writable w l base msgs → zlen key ≤ max_u32 → zlen value ≤ max_u32 → is_i64 ts →
  stored_payload (l_compressed l) (key ++ value) = Some q →
  log_room l 1 (messageHeaderSize + zlen q) →
  let o := base + zlen msgs in
  let msgs' := msgs ++ [mkMessage o ts key value] in
  wp (Log_Append ts key value)
    (λ res '(l', w'), res = o ∧ Writable w' l' base msgs' ∧ same_config l l' ∧ not_full l')
    (λ err '(l', w'), w_faults w ≠ [] ∧ same_config l l' ∧
       (on_active (Segment_Append ts key value) l w (Err err) ∧ Readable w' l' base msgs ∨
        (∃ saved, on_active (Segment_Append ts key value) l w (Ok (o, saved))) ∧ Readable w' l' base msgs'))
    (l, w).
Proof. apply wp_Append_messages. Qed.

(** C9.  [Log.AppendBatch] appends all records of the batch at consecutive
    offsets; an error beside the offsets means that the roll failed and all
    records are stored, an error alone that none is. *)
Theorem log_append_batch_correct w l base msgs records es2 :
  Writable w l base msgs → records ≠ [] → Forall record_ok records →
  let o := base + zlen msgs in
  batch_entries (l_compressed l) o records = Some es2 →
  log_room l (zlen records) (zlen (enc_log es2)) →
  let msgs' := msgs ++ messages_from o records in
  wp (Log_AppendBatch records)
    (λ '(offsets, err) '(l', w'),
       offsets = (λ k, o + Z.of_nat k) <$> seq 0 (length records) ∧ same_config l l' ∧
       match err with
       | None => Writable w' l' base msgs' ∧ not_full l'
       | Some _ => w_faults w ≠ [] ∧ Readable w' l' base msgs'
       end)
    (λ _ '(l', w'), w_faults w ≠ [] ∧ same_config l l' ∧ Readable w' l' base msgs)
    (l, w).
Proof. apply wp_AppendBatch_messages. Qed.

(** C15.  [Log.Read] on every offset: the message at that offset, whichever
    segment it is in, an error before the base and an error past the end. *)
Theorem log_read_correct w l base msgs o :
  Readable w l base msgs →
  reads (Log_Read l o) w
    (if o <? base then Err (EMsg "offset %d is before the beginning of the log" [AInt o])
     else match msgs !! Z.to_nat (o - base) with
          | Some m => Ok m
          | None => Err (EMsg "offset %d is outside segment" [AInt o])
          end).
Proof. apply reads_Log_Read. Qed.

(** C4.  [Log.ReadBatch] returns the messages from an offset on, at most
    [maxCount] of them, across segment boundaries and empty segments, and
    nothing past the end; it terminates.  When the device fails after the first
    message, the messages read so far are returned and the error is dropped. *)
Theorem log_read_batch_correct w l base msgs o n :
  Readable w l base msgs → base ≤ o → 0 < n →
  let expected := take (Z.to_nat n) (drop (Z.to_nat (o - base)) msgs) in
  wp (Log_ReadBatch l o n)
    (λ res w', ro w w' ∧
      (res = expected ∨ w_faults w ≠ [] ∧ res ≠ [] ∧ res `prefix_of` expected))
    (λ e w', ro w w' ∧ io_error w e) w.
Proof. apply wp_Log_ReadBatch. Qed.

(** [LatestOffset] is the offset of the last message, and 0 on an empty
    log, which a caller cannot tell from a log whose only message has offset
    0. *)
Theorem latest_offset_correct w l base msgs :
  Readable w l base msgs →
  LatestOffset l = match last msgs with Some m => Offset m | None => 0 end.
Proof. apply LatestOffset_last. Qed.

(** C7.  Closing a log and opening its directory again gives a log with the
    same messages, to which one can append; the segments are found and ordered
    by base offset whatever the order of the directory.  The compression mode
    is not stored, so it has to be set again. *)
Theorem log_reopen_correct w l base msgs max :
  Writable w l base msgs → max ≠ 0 →
  wp (_ ← attempt (on_local l Log_Close); NewLog (l_dir l) [max])
    (λ l' w', l_maxSegmentSize l' = max ∧
      let '(r, (l'', w'')) := Log_SetCompressed (l_compressed l) (l', w') in
      r = Ok tt ∧ Writable w'' l'' base msgs)
    (λ e w', io_error w e) w.
Proof.
  intros (gs & O & -> & ->) Hmax. wp_step. eapply wp_mono; [apply wp_Log_Close| |done].
  intros r w1 R1. cbn beta in R1.
  eapply wp_reads; [eapply (reads_NewLog w l gs O [max] max w1); [done|by left]| |].
  - intros w2 R2. split; [done|]. split; [done|]. exists gs. split_and!; [| |done].
    + eapply (lo_reopened_ok w l gs O w2 max _ _ _); [by etrans|done].
    + unfold log_base. simpl. by rewrite (lo_reopened_segments w l gs O).
  - intros e w2 R2 He. by eapply io_error_ro.
Qed.

(** [NewLog] on a directory without files, existing or not, makes an empty
    log that can be appended to; it fails only if the device does. *)
Theorem new_log_empty w dir max :
  max ≠ 0 → entries w dir = ∅ →
  wp (NewLog dir [max])
    (λ l w', l_dir l = dir ∧ l_maxSegmentSize l = max ∧ Writable w' l 0 [])
    (λ e w', io_error w e) w.
Proof. apply wp_NewLog_fresh. Qed.

(** A [.log] file without its [.index] file makes the whole log refuse to
    open, whatever else the directory holds; this is what a crash or an error
    between the two file creations of a roll leaves behind. *)
Theorem orphan_log_file_refuses_open w dir max name i b :
  max ≠ 0 → entries w dir !! name = Some (EFile i) → segmentBaseOffset name = Some b →
  entries w dir !! indexName b = None →
  ∃ b', reads (NewLog dir [max]) w (Err (EMsg "missing index file for segment %d" [AInt b'])) ∧
    entries w dir !! indexName b' = None.
Proof. apply reads_NewLog_orphan. Qed.

(** C11.  [EnforceRetention] removes whole segments from the front, exactly
    those the policy names (too many bytes from there on, or a newest message
    older than the cutoff), never the active one; the messages of the segments
    that are left are untouched and the log can be appended to. *)
Theorem retention_correct w l base msgs bytes ms now :
  Writable w l base msgs → size_sum (l_segments l) < 2 ^ 63 →
  let kept := retained bytes ms (retention_cutoff now ms) (newest_in base msgs) (l_segments l) in
  wp (EnforceRetention bytes ms now)
    (λ _ '(l', w'), l' = set_segments kept l ∧ kept `suffix_of` l_segments l ∧
       last kept = last (l_segments l) ∧
       Writable w' l' (log_base l') (drop (Z.to_nat (log_base l' - base)) msgs))
    (λ _ _, w_faults w ≠ []) (l, w).
Proof.
  intros (gs & O & -> & ->) Hsum kept. pose proof (lo_view _ _ _ O) as V.
  destruct (retained_removed bytes ms (retention_cutoff now ms)
    (newest_in (log_base l) (e_msg <$> all_entries gs)) (l_segments l) gs) as [Hk Hlt].
  { apply (lr_length _ _ _ (lv_rep _ _ _ V)). }
  { intros i s g Hs Hg Hsize. by eapply newest_in_of. }
  fold kept in Hk. specialize (Hlt (lr_nonempty _ _ _ (lv_rep _ _ _ V))).
  eapply wp_EnforceRetention; [done|done| |done]. intros k w' O'. fold k in Hk, Hlt.
  pose proof (drop_messages w w' l gs k V (lo_view _ _ _ O')) as Hmsgs. rewrite Hk in *.
  split_and!; [done| | |].
  - exists (take k (l_segments l)). by rewrite <-Hk, take_drop.
  - rewrite <-Hk, !last_lookup, lookup_drop, length_drop. f_equal. lia.
  - exists (drop k gs). split_and!; [done|done|]. by rewrite Hmsgs.
Qed.

(** C40.  A retention time of [math.MaxInt64] milliseconds, for ever, is taken
    for less than none: the product with [time.Millisecond] wraps around and the
    cutoff is a millisecond after [now], so that every sealed segment of a log
    whose messages are from the past is deleted. *)
Theorem retention_overflow_deletes w l base msgs now :
  Writable w l base msgs → size_sum (l_segments l) < 2 ^ 63 →
  (∀ m, m ∈ msgs → Timestamp m ≤ now) →
  Forall (λ s, 0 < s_size s) (take (pred (length (l_segments l))) (l_segments l)) →
  wp (EnforceRetention 0 (2 ^ 63 - 1) now)
    (λ _ '(l', _), length (l_segments l') = 1%nat)
    (λ _ _, w_faults w ≠ []) (l, w).
Proof.
  intros (gs & O & -> & ->) Hsum Hpast Hfull. pose proof (lo_view _ _ _ O) as V.
  eapply wp_EnforceRetention; [done|done| |done]. intros k w' O'. simpl. rewrite length_drop.
  assert (Hk : k = pred (length (l_segments l))); [|by rewrite Hk; pose proof (lr_nonempty _ _ _ (lv_rep _ _ _ V)); destruct (l_segments l); [done|simpl; lia]].
  unfold k. clear k O'.
  assert (Hnew : Forall (λ g, newest_of g ≤ now ∨ g_es g = []) gs).
  { apply Forall_lookup_2. intros i g Hg. unfold newest_of. destruct (last (g_es g)) as [e|] eqn:Hl.
    - left. apply Hpast, list_elem_of_fmap_2, elem_of_all_entries. rewrite last_lookup in Hl. eauto.
    - right. by apply last_None in Hl. }
  pose proof (lr_segs _ _ _ (lv_rep _ _ _ V)) as HR. clear -Hfull Hnew HR.
  change (retention_cutoff now (2 ^ 63 - 1)) with (now + 1000000).
  revert gs Hnew HR. induction (l_segments l) as [|s [|s1 segs] IH]; intros gs Hnew HR; [done|by destruct gs|].
  inversion HR as [|? g ? gs' R HR' E1 E2]; subst. apply Forall_cons_1 in Hnew as [Hg Hnew].
  simpl in Hfull. apply Forall_cons_1 in Hfull as [Hs Hfull].
  rewrite removed_count_cons. unfold removable.
  destruct (Z.ltb_spec 0 (s_size s)); [|lia].
  destruct Hg as [Hg|Hg]; [|rewrite (sr_size _ _ _ _ _ _ _ R), Hg, enc_log_nil in Hs; simpl in Hs; lia].
  destruct (Z.ltb_spec (newest_of g) (now + 1000000)); [|lia]. simpl orb.
  by rewrite (IH Hfull gs' Hnew HR').
Qed.

(** The scan of [Compact] over the first [n] segments finds for every key
    the offset of the last of their messages that has it, and nothing for a key
    none of them has. *)
Theorem compaction_scan_correct w l base msgs n :
  Writable w l base msgs → (n < length (l_segments l))%nat →
  wp (collect_segments n l ∅)
    (λ latest w', ro w w' ∧
       ∀ k, latest !! k = (λ m, i64 (Offset m)) <$>
         last_with_key k (take (Z.to_nat (default 0 (s_baseOffset <$> l_segments l !! n) - base)) msgs))
    (λ _ _, w_faults w ≠ []) w.
Proof.
  intros (gs & O & -> & ->) Hn. pose proof (lo_view _ _ _ O) as V. pose proof (lv_rep _ _ _ V) as L.
  eapply wp_collect_segments; [exact O|rewrite <-(lr_length _ _ _ L); lia| |done].
  intros w' Hr. split; [done|]. intros k. rewrite note_entries_lookup. do 3 f_equal.
  destruct (lookup_lt_is_Some_2 _ _ Hn) as [s Hs]. rewrite Hs. simpl.
  assert (Hlen : zlen (all_entries (take n gs)) = s_baseOffset s - log_base l) by by eapply take_entries.
  rewrite <-fmap_take. f_equal.
  assert (Hall : all_entries gs = all_entries (take n gs) ++ all_entries (drop n gs))
    by by rewrite <-all_entries_app, take_drop.
  rewrite Hall, take_app_length'; [done|lia].
Qed.

(** C29.  [Compact] of a log whose first segment holds a message never
    succeeds: it closes the segment and then reads the segment's index through
    the closed handle.  No file and no name is lost, but unless the device
    failed before, the first segment stays closed and every read of it fails
    until the log is opened again. *)
Theorem compact_never_succeeds w l base msgs s s1 segs :
  Writable w l base msgs → l_segments l = s :: s1 :: segs → s_baseOffset s < s_nextOffset s →
  wp Compact (λ _ _, False)
    (λ _ '(l', w'), kept w w' ∧
       (l' = l ∧ w_faults w ≠ [] ∨
        ∀ o w'', s_baseOffset s ≤ o < s_nextOffset s → Log_Read l' o w'' = (Err ErrInvalid, w'')))
    (l, w).
Proof.
  intros (gs & O & -> & ->) Hsegs Hlt. eapply wp_Compact_fails; [done|done|done| |].
  - intros e w' Hk Hf. split; [done|]. by left.
  - intros e w' Hk. split; [done|]. right. intros o w'' Ho. by eapply head_closed_read.
Qed.
End properties.

(** ** The theorems at concrete inputs *)

Section witnesses.
Local Existing Instances rle_snappy rle_laws.

(** The last segment of [ex_log] is empty. *)
Lemma ex_room n bytes : n ≤ 1000 → bytes ≤ 1000 → log_room ex_log n bytes.
Proof. intros Hn Hb s Hs. vm_compute in Hs. injection Hs as <-. split; simpl; lia. Qed.

Lemma log_append_correct_witness :
  wp (Log_Append 500 (str "k") (str "v"))
    (λ res '(l', w'), res = 4 ∧ Writable w' l' 0 (ex_msgs ++ [mkMessage 4 500 (str "k") (str "v")]) ∧
       same_config ex_log l' ∧ not_full l')
    (λ err '(l', w'), w_faults ex_faulty ≠ [] ∧ same_config ex_log l' ∧
       (on_active (Segment_Append 500 (str "k") (str "v")) ex_log ex_faulty (Err err) ∧ Readable w' l' 0 ex_msgs ∨
        (∃ saved, on_active (Segment_Append 500 (str "k") (str "v")) ex_log ex_faulty (Ok (4, saved))) ∧
        Readable w' l' 0 (ex_msgs ++ [mkMessage 4 500 (str "k") (str "v")])))
    (ex_log, ex_faulty).
Proof.
  apply (log_append_correct ex_faulty ex_log 0 ex_msgs 500 (str "k") (str "v") (str "kv"));
    [exact ex_ok|discriminate|discriminate|split; [discriminate|reflexivity]|reflexivity|].
  apply ex_room; discriminate.
Defined.

Definition ex_batch : list LogRecord :=
  [mkRecord 500 (str "k") (str "v"); mkRecord 501 (str "") (str "only a value")].

Lemma log_append_batch_correct_witness :
  wp (Log_AppendBatch ex_batch)
    (λ '(offsets, err) '(l', w'),
       offsets = (λ k, 4 + Z.of_nat k) <$> seq 0 2 ∧ same_config ex_log l' ∧
       match err with
       | None => Writable w' l' 0 (ex_msgs ++ messages_from 4 ex_batch) ∧ not_full l'
       | Some _ => w_faults ex_faulty ≠ [] ∧ Readable w' l' 0 (ex_msgs ++ messages_from 4 ex_batch)
       end)
    (λ _ '(l', w'), w_faults ex_faulty ≠ [] ∧ same_config ex_log l' ∧ Readable w' l' 0 ex_msgs)
    (ex_log, ex_faulty).
Proof.
  apply (log_append_batch_correct ex_faulty ex_log 0 ex_msgs ex_batch
    (default [] (batch_entries false 4 ex_batch))); [exact ex_ok|discriminate| |reflexivity|].
  - repeat constructor; vm_compute; discriminate.
  - apply ex_room; vm_compute; discriminate.
Defined.

Lemma log_read_correct_witness :
  reads (Log_Read ex_log 2) ex_faulty (Ok ex_msg3).
Proof. apply (log_read_correct ex_faulty ex_log 0 ex_msgs 2), Writable_Readable, ex_ok. Defined.

Lemma log_read_batch_correct_witness :
  wp (Log_ReadBatch ex_log 1 2)
    (λ res w', ro ex_faulty w' ∧ (res = [ex_msg2; ex_msg3] ∨
       w_faults ex_faulty ≠ [] ∧ res ≠ [] ∧ res `prefix_of` [ex_msg2; ex_msg3]))
    (λ e w', ro ex_faulty w' ∧ io_error ex_faulty e) ex_faulty.
Proof.
  apply (log_read_batch_correct ex_faulty ex_log 0 ex_msgs 1 2);
    [apply Writable_Readable, ex_ok|discriminate|reflexivity].
Defined.

Lemma latest_offset_correct_witness : LatestOffset ex_log = 3.
Proof. apply (latest_offset_correct ex_faulty ex_log 0 ex_msgs), Writable_Readable, ex_ok. Defined.

Lemma log_reopen_correct_witness :
  wp (_ ← attempt (on_local ex_log Log_Close); NewLog ex_dir [100])
    (λ l' w', l_maxSegmentSize l' = 100 ∧
      let '(r, (l'', w'')) := Log_SetCompressed false (l', w') in
      r = Ok tt ∧ Writable w'' l'' 0 ex_msgs)
    (λ e w', io_error ex_faulty e) ex_faulty.
Proof. apply (log_reopen_correct ex_faulty ex_log 0 ex_msgs 100); [exact ex_ok|discriminate]. Defined.

Lemma new_log_empty_witness :
  wp (NewLog ex_dir [50])
    (λ l w', l_dir l = ex_dir ∧ l_maxSegmentSize l = 50 ∧ Writable w' l 0 [])
    (λ e w', io_error (set_faults [FErr 0 28] empty_world) e) (set_faults [FErr 0 28] empty_world).
Proof. apply new_log_empty; [discriminate|reflexivity]. Defined.

Lemma orphan_log_file_refuses_open_witness :
  let w := create_file ex_dir (logName 4) ex4.2 in
  ∃ b', reads (NewLog ex_dir [50]) (del_entry ex_dir (indexName 4) w)
          (Err (EMsg "missing index file for segment %d" [AInt b'])) ∧
    entries (del_entry ex_dir (indexName 4) w) ex_dir !! indexName b' = None.
Proof.
  apply (orphan_log_file_refuses_open _ ex_dir 50 (logName 4) 6 4);
    [discriminate|vm_compute; reflexivity..].
Defined.

Lemma retention_correct_witness :
  wp (EnforceRetention 100 0 0)
    (λ _ '(l', w'), l_segments l' = drop 1 (l_segments ex_log) ∧ Writable w' l' 2 [ex_msg3; ex_msg4])
    (λ _ _, w_faults ex_faulty ≠ []) (ex_log, ex_faulty).
Proof.
  eapply wp_mono; [apply (retention_correct ex_faulty ex_log 0 ex_msgs 100 0 0);
                     [exact ex_ok|vm_compute; reflexivity]| |trivial].
  intros r [l' w'] (-> & _ & _ & W). split; [vm_compute; reflexivity|exact W].
Defined.

Lemma retention_overflow_deletes_witness :
  wp (EnforceRetention 0 (2 ^ 63 - 1) 1000)
    (λ _ '(l', _), length (l_segments l') = 1%nat)
    (λ _ _, w_faults ex_faulty ≠ []) (ex_log, ex_faulty).
Proof.
  apply (retention_overflow_deletes ex_faulty ex_log 0 ex_msgs 1000); [exact ex_ok|vm_compute; reflexivity| |].
  - intros m Hm. repeat (apply elem_of_cons in Hm as [->|Hm]; [discriminate|]). by apply elem_of_nil in Hm.
  - vm_compute. repeat (apply Forall_cons; split; [reflexivity|]). by apply Forall_nil.
Defined.

Lemma compaction_scan_correct_witness :
  wp (collect_segments 2 ex_log ∅)
    (λ latest w', ro ex_faulty w' ∧
       ∀ k, latest !! k = (λ m, i64 (Offset m)) <$> last_with_key k ex_msgs)
    (λ _ _, w_faults ex_faulty ≠ []) ex_faulty.
Proof. apply (compaction_scan_correct ex_faulty ex_log 0 ex_msgs 2); [exact ex_ok|vm_compute; lia]. Defined.

Lemma compact_never_succeeds_witness :
  wp Compact (λ _ _, False)
    (λ _ '(l', w'), kept ex4.2 w' ∧
       (l' = ex_log ∧ w_faults ex4.2 ≠ [] ∨
        ∀ o w'', 0 ≤ o < 2 → Log_Read l' o w'' = (Err ErrInvalid, w'')))
    (ex_log, ex4.2).
Proof.
  pose (s0 := default ex_segment0 (l_segments ex_log !! 0%nat)).
  assert (Hb : s_baseOffset s0 = 0) by (vm_compute; reflexivity).
  assert (Hn : s_nextOffset s0 = 2) by (vm_compute; reflexivity).
  eapply wp_mono; [apply (compact_never_succeeds ex4.2 ex_log 0 ex_msgs s0
    (default ex_segment0 (l_segments ex_log !! 1%nat)) (drop 2 (l_segments ex_log)))|done|].
  - exact ex_ok4.
  - vm_compute; reflexivity.
  - rewrite Hb, Hn. reflexivity.
  - intros e [l' w'] [Hk H]. rewrite Hb, Hn in H. exact (conj Hk H).
Defined.
End witnesses.
