(* ===== verification/RaftFSM.v ===== *)
(** * The replicated state machine: internal/raft/fsm.go

    The binary frames of the Raft commands, and [Apply], which decodes a frame
    and appends to the log of a partition.  The logs are reached through the
    interface [LogProvider], which the broker implements. *)

From S2P Require Import Prelude GoNum OS Segment.

(** CmdTypeSingle and CmdTypeBatch *)
Definition CmdTypeSingle : Z := 1.
Definition CmdTypeBatch : Z := 2.

Record BatchRecord : Type := mkBatchRecord { br_Key : bytes; br_Value : bytes }.

(** ** Encoding *)

Definition EncodeCommand {S} (topic : bytes) (partition : Z) (key value : bytes) : GoM S bytes :=
  let totalLen := 1 + 2 + zlen topic + 4 + 4 + zlen key + 4 + zlen value in
  let buf := replicate (Z.to_nat totalLen) Byte.x00 in
  buf ← put_at 0 [byte_of_Z CmdTypeSingle] buf;
  buf ← put_at 1 (PutUint16 (u16 (zlen topic))) buf;
  buf ← put_at 3 topic buf;
  let offset := 3 + zlen topic in
  buf ← put_at offset (PutUint32 (u32 partition)) buf;
  let offset := offset + 4 in
  buf ← put_at offset (PutUint32 (u32 (zlen key))) buf;
  let offset := offset + 4 in
  buf ← put_at offset key buf;
  let offset := offset + zlen key in
  buf ← put_at offset (PutUint32 (u32 (zlen value))) buf;
  let offset := offset + 4 in
  buf ← put_at offset value buf;
  mret buf.

(** The loop of [EncodeBatchCommand] over the records. *)
Fixpoint encode_records {S} (records : list BatchRecord) (buf : bytes) (offset : Z) : GoM S bytes :=
  match records with
  | [] => mret buf
  | r :: rs =>
      buf ← put_at offset (PutUint32 (u32 (zlen (br_Key r)))) buf;
      let offset := offset + 4 in
      buf ← put_at offset (br_Key r) buf;
      let offset := offset + zlen (br_Key r) in
      buf ← put_at offset (PutUint32 (u32 (zlen (br_Value r)))) buf;
      let offset := offset + 4 in
      buf ← put_at offset (br_Value r) buf;
      let offset := offset + zlen (br_Value r) in
      encode_records rs buf offset
  end.

Definition EncodeBatchCommand {S} (topic : bytes) (partition : Z) (records : list BatchRecord) :
    GoM S bytes :=
  let totalLen := foldl (λ t r, t + (4 + zlen (br_Key r) + 4 + zlen (br_Value r)))
                    (1 + 2 + zlen topic + 4 + 4) records in
  let buf := replicate (Z.to_nat totalLen) Byte.x00 in
  buf ← put_at 0 [byte_of_Z CmdTypeBatch] buf;
  buf ← put_at 1 (PutUint16 (u16 (zlen topic))) buf;
  buf ← put_at 3 topic buf;
  let offset := 3 + zlen topic in
  buf ← put_at offset (PutUint32 (u32 partition)) buf;
  let offset := offset + 4 in
  buf ← put_at offset (PutUint32 (u32 (zlen records))) buf;
  let offset := offset + 4 in
  encode_records records buf offset.

(** ** The logs *)

(** LogProvider, and the methods of the [*log.Log] it returns.  [AppendBatch]
    may return offsets and an error at once. *)
Class LogProvider (S : Type) : Type := {
  lp_log : Type;
  GetPartition : bytes → Z → GoM S lp_log;
  lp_Append : lp_log → Z → bytes → bytes → GoM S Z;
  lp_AppendBatch : lp_log → list LogRecord → GoM S (list Z * option goerr)
}.

(** The [interface{}] that [Apply] returns. *)
Inductive response : Type :=
| RespError (err : goerr)
| RespOffset (offset : Z)
| RespOffsets (offsets : list Z).

(** ** Apply *)

(** [int(binary.BigEndian.Uint32(data[offset : offset+4]))] *)
Definition uint32_at {S} (data : bytes) (offset : Z) : GoM S Z :=
  b ← go_slice offset (offset + 4) data;
  mret (be_get b).

Section fsm.
Context {S : Type} `{LP : LogProvider S}.

(** [case CmdTypeSingle] *)
Definition apply_single (data : bytes) (offset now : Z) (partitionLog : lp_log) : GoM S response :=
  if zlen data <? offset + 4
  then mret (RespError (EMsg "malformed single command: key length truncated" []))
  else
    keyLen ← uint32_at data offset;
    let offset := offset + 4 in
    if zlen data <? offset + keyLen + 4
    then mret (RespError (EMsg "malformed single command: key payload truncated" []))
    else
      key ← go_slice offset (offset + keyLen) data;
      let offset := offset + keyLen in
      valLen ← uint32_at data offset;
      let offset := offset + 4 in
      if zlen data <? offset + valLen
      then mret (RespError (EMsg "malformed single command: value payload truncated" []))
      else
        val ← go_slice offset (offset + valLen) data;
        r ← attempt (lp_Append partitionLog now key val);
        match r with
        | inl appendedOffset => mret (RespOffset appendedOffset)
        | inr err => mret (RespError (EWrap "append to partition: %w" [] err))
        end.

(** The loop over the records of a batch, [n] of which are left. *)
Fixpoint decode_records (n : nat) (data : bytes) (i offset now : Z) : GoM S (list LogRecord + goerr) :=
  match n with
  | O => mret (inl [])
  | Datatypes.S n' =>
      if zlen data <? offset + 4
      then mret (inr (EMsg "malformed batch record %d: key length truncated" [AInt i]))
      else
        keyLen ← uint32_at data offset;
        let offset := offset + 4 in
        if zlen data <? offset + keyLen + 4
        then mret (inr (EMsg "malformed batch record %d: key payload truncated" [AInt i]))
        else
          key ← go_slice offset (offset + keyLen) data;
          let offset := offset + keyLen in
          valLen ← uint32_at data offset;
          let offset := offset + 4 in
          if zlen data <? offset + valLen
          then mret (inr (EMsg "malformed batch record %d: value payload truncated" [AInt i]))
          else
            val ← go_slice offset (offset + valLen) data;
            let offset := offset + valLen in
            r ← decode_records n' data (i + 1) offset now;
            match r with
            | inl records => mret (inl (mkRecord now key val :: records))
            | inr err => mret (inr err)
            end
  end.

(** The size of a [log.Record], the element of the slice [Apply] makes. *)
Definition record_size : Z := 56.

(** [case CmdTypeBatch] *)
Definition apply_batch (data : bytes) (offset now : Z) (partitionLog : lp_log) : GoM S response :=
  if zlen data <? offset + 4
  then mret (RespError (EMsg "malformed batch command: count truncated" []))
  else
    count ← uint32_at data offset;
    let offset := offset + 4 in
    make_slice (count * record_size);;
    r ← decode_records (Z.to_nat count) data 0 offset now;
    match r with
    | inr err => mret (RespError err)
    | inl records =>
        r ← attempt (lp_AppendBatch partitionLog records);
        match r with
        | inl (offsets, None) => mret (RespOffsets offsets)
        | inl (_, Some err) | inr err => mret (RespError (EWrap "append batch to partition: %w" [] err))
        end
    end.

(** [Apply(entry)] with [entry.Data = data] at time [now]. *)
Definition FSM_Apply (data : bytes) (now : Z) : GoM S response :=
  if zlen data <? 7 then mret (RespError (EMsg "malformed raft command: payload too short" []))
  else
    cmdType ← go_slice 0 1 data;
    topicLen ← go_slice 1 3 data;
    let topicLen := be_get topicLen in
    if zlen data <? 3 + topicLen + 4
    then mret (RespError (EMsg "malformed raft command: topic truncated" []))
    else
      topic ← go_slice 3 (3 + topicLen) data;
      let topic := if decide (topic = []) then str "default" else topic in
      let offset := 3 + topicLen in
      partition ← uint32_at data offset;
      let offset := offset + 4 in
      r ← attempt (GetPartition topic partition);
      match r with
      | inr err => mret (RespError (EWrap "get partition log: %w" [] err))
      | inl partitionLog =>
          let cmdType := be_get cmdType in
          if cmdType =? CmdTypeSingle then apply_single data offset now partitionLog
          else if cmdType =? CmdTypeBatch then apply_batch data offset now partitionLog
          else mret (RespError (EMsg "unknown raft command type: %d" [AInt cmdType]))
      end.

(** ** Snapshots

    A snapshot holds no state, and restoring it does nothing. *)

Inductive noopSnapshot : Type := NoopSnapshot.

Definition FSM_Snapshot : GoM S noopSnapshot := mret NoopSnapshot.

(** [Persist(sink)], [sink] being a [hraft.SnapshotSink]; nothing is written. *)
Definition noopSnapshot_Persist (sink_Close : GoM S unit) (s : noopSnapshot) : GoM S unit := sink_Close.

Definition noopSnapshot_Release (s : noopSnapshot) : GoM S unit := mret tt.

Definition FSM_Restore (snapshot : bytes) : GoM S unit := mret tt.

End fsm.
