(* ===== verification/RaftSpec.v ===== *)
(** * The command format

    A parser of the frames, written on what is left of the input instead of on
    indices into it, and the proof that [Apply] parses, then appends. *)

From S2P Require Import Prelude GoNum OS Segment RaftFSM.

(** ** Frames *)

Definition frame_head (cmdType : Z) (topic : bytes) (partition : Z) : bytes :=
  [byte_of_Z cmdType] ++ PutUint16 (u16 (zlen topic)) ++ topic ++ PutUint32 (u32 partition).

Definition frame_kv (key value : bytes) : bytes :=
  PutUint32 (u32 (zlen key)) ++ key ++ PutUint32 (u32 (zlen value)) ++ value.

Definition frame_records (records : list BatchRecord) : bytes :=
  concat ((λ r, frame_kv (br_Key r) (br_Value r)) <$> records).

Definition single_frame (topic : bytes) (partition : Z) (key value : bytes) : bytes :=
  frame_head CmdTypeSingle topic partition ++ frame_kv key value.

Definition batch_frame (topic : bytes) (partition : Z) (records : list BatchRecord) : bytes :=
  frame_head CmdTypeBatch topic partition ++ PutUint32 (u32 (zlen records)) ++ frame_records records.

Lemma zlen_PutUint16 z : zlen (PutUint16 z) = 2.
Proof. unfold PutUint16. by rewrite length_be_put. Qed.
Lemma zlen_PutUint32 z : zlen (PutUint32 z) = 4.
Proof. unfold PutUint32. by rewrite length_be_put. Qed.

(** Length goals about frames. *)
Ltac flen := rewrite ?length_app, ?Nat2Z.inj_add, ?zlen_PutUint16, ?zlen_PutUint32; cbn [length]; try lia.

(** ** The encoders write the frames *)

(** A write that fills the rest of the buffer. *)
Lemma put_last {S B} done_ data rest off (f : bytes → GoM S B) (s : S) :
  off = zlen done_ → rest = zlen data →
  (put_at off data (done_ ++ replicate (Z.to_nat rest) Byte.x00) ≫= f) s = f (done_ ++ data) s.
Proof.
  intros -> ->. rewrite put_next by lia. rewrite Z.sub_diag. simpl. by rewrite app_nil_r.
Qed.

Lemma EncodeCommand_frame {S} topic partition key value (s : S) :
  EncodeCommand topic partition key value s = (Ok (single_frame topic partition key value), s).
Proof.
  unfold EncodeCommand. cbv zeta. rewrite <-(app_nil_l (replicate _ _)).
  do 7 (rewrite put_next by flen). rewrite put_last by flen.
  unfold single_frame, frame_head, frame_kv. by rewrite app_nil_l, <-!app_assoc.
Qed.

Lemma zlen_frame_kv key value : zlen (frame_kv key value) = 4 + zlen key + 4 + zlen value.
Proof. unfold frame_kv. flen. Qed.

Lemma frame_records_cons r rs :
  frame_records (r :: rs) = frame_kv (br_Key r) (br_Value r) ++ frame_records rs.
Proof. done. Qed.

Lemma encode_records_frame {S} records done_ off (s : S) :
  off = zlen done_ →
  encode_records records (done_ ++ replicate (Z.to_nat (zlen (frame_records records))) Byte.x00) off s =
  (Ok (done_ ++ frame_records records), s).
Proof.
  revert done_ off. induction records as [|r rs IH]; intros done_ off ->; [done|].
  cbn [encode_records]. rewrite frame_records_cons.
  pose proof (zlen_frame_kv (br_Key r) (br_Value r)) as Hkv.
  do 4 (rewrite put_next by flen).
  replace (zlen (frame_kv (br_Key r) (br_Value r) ++ frame_records rs) -
    zlen (PutUint32 (u32 (zlen (br_Key r)))) - zlen (br_Key r) -
    zlen (PutUint32 (u32 (zlen (br_Value r)))) - zlen (br_Value r)) with (zlen (frame_records rs)) by flen.
  rewrite IH by flen. unfold frame_kv. by rewrite <-!app_assoc.
Qed.

Lemma batch_total records t :
  foldl (λ t r, t + (4 + zlen (br_Key r) + 4 + zlen (br_Value r))) t records = t + zlen (frame_records records).
Proof.
  revert t. induction records as [|r rs IH]; intros t; simpl; [lia|].
  rewrite IH, frame_records_cons. pose proof (zlen_frame_kv (br_Key r) (br_Value r)). flen.
Qed.

Lemma EncodeBatchCommand_frame {S} topic partition records (s : S) :
  EncodeBatchCommand topic partition records s = (Ok (batch_frame topic partition records), s).
Proof.
  unfold EncodeBatchCommand. cbv zeta. rewrite batch_total, <-(app_nil_l (replicate _ _)).
  do 5 (rewrite put_next by flen).
  match goal with |- context [replicate (Z.to_nat ?n) _] =>
    replace n with (zlen (frame_records records)) by flen end.
  rewrite encode_records_frame by flen.
  unfold batch_frame, frame_head. by rewrite app_nil_l, <-!app_assoc.
Qed.

(** ** The parser *)

Definition take_u32 (d : bytes) : option (Z * bytes) :=
  if 4 <=? zlen d then Some (be_get (take 4 d), drop 4 d) else None.

Definition take_bytes (n : Z) (d : bytes) : option (bytes * bytes) :=
  if n <=? zlen d then Some (take (Z.to_nat n) d, drop (Z.to_nat n) d) else None.

(** A length-prefixed key and value. *)
Definition parse_kv (err : string → goerr) (d : bytes) : (bytes * bytes * bytes) + goerr :=
  match take_u32 d with
  | None => inr (err "key length truncated")
  | Some (keyLen, d) =>
      match take_bytes keyLen d with
      | None => inr (err "key payload truncated")
      | Some (key, d) =>
          match take_u32 d with
          | None => inr (err "key payload truncated")
          | Some (valLen, d) =>
              match take_bytes valLen d with
              | None => inr (err "value payload truncated")
              | Some (value, d) => inl (key, value, d)
              end
          end
      end
  end.

Fixpoint parse_records (n : nat) (i now : Z) (d : bytes) : list LogRecord + goerr :=
  match n with
  | O => inl []
  | Datatypes.S n' =>
      match parse_kv (λ what, EMsg ("malformed batch record %d: " ++ what) [AInt i]) d with
      | inr err => inr err
      | inl (key, value, d) =>
          match parse_records n' (i + 1) now d with
          | inr err => inr err
          | inl rs => inl (mkRecord now key value :: rs)
          end
      end
  end.

(** What a command asks for. *)
Inductive command : Type :=
| Single (key value : bytes)
| Batch (records : list LogRecord).

Definition parse_body (cmdType now : Z) (d : bytes) : command + goerr :=
  if cmdType =? CmdTypeSingle then
    match parse_kv (λ what, EMsg ("malformed single command: " ++ what) []) d with
    | inr err => inr err
    | inl (key, value, _) => inl (Single key value)
    end
  else if cmdType =? CmdTypeBatch then
    match take_u32 d with
    | None => inr (EMsg "malformed batch command: count truncated" [])
    | Some (count, d) =>
        match parse_records (Z.to_nat count) 0 now d with
        | inr err => inr err
        | inl rs => inl (Batch rs)
        end
    end
  else inr (EMsg "unknown raft command type: %d" [AInt cmdType]).

(** The topic, the partition, the type and the body. *)
Definition parse_head (d : bytes) : (bytes * Z * Z * bytes) + goerr :=
  if zlen d <? 7 then inr (EMsg "malformed raft command: payload too short" [])
  else
    let topicLen := be_get (take 2 (drop 1 d)) in
    match take_bytes topicLen (drop 3 d) with
    | None => inr (EMsg "malformed raft command: topic truncated" [])
    | Some (topic, d') =>
        match take_u32 d' with
        | None => inr (EMsg "malformed raft command: topic truncated" [])
        | Some (partition, d') =>
            inl (if decide (topic = []) then str "default" else topic, partition, be_get (take 1 d), d')
        end
    end.

Section apply.
Context {S : Type} `{LP : LogProvider S}.

Definition run_command (now : Z) (partitionLog : lp_log) (c : command) : GoM S response :=
  match c with
  | Single key value =>
      r ← attempt (lp_Append partitionLog now key value);
      mret (match r with
            | inl offset => RespOffset offset
            | inr err => RespError (EWrap "append to partition: %w" [] err)
            end)
  | Batch records =>
      r ← attempt (lp_AppendBatch partitionLog records);
      mret (match r with
            | inl (offsets, None) => RespOffsets offsets
            | inl (_, Some err) | inr err => RespError (EWrap "append batch to partition: %w" [] err)
            end)
  end.

(** Parse, find the log, append. *)
Definition apply_spec (data : bytes) (now : Z) : GoM S response :=
  match parse_head data with
  | inr err => mret (RespError err)
  | inl (topic, partition, cmdType, body) =>
      r ← attempt (GetPartition topic partition);
      match r with
      | inr err => mret (RespError (EWrap "get partition log: %w" [] err))
      | inl partitionLog =>
          match parse_body cmdType now body with
          | inr err => mret (RespError err)
          | inl c => run_command now partitionLog c
          end
      end
  end.

Lemma go_slice_sub (data : bytes) off n (s : S) :
  0 ≤ off → 0 ≤ n → off + n <= zlen data →
  go_slice off (off + n) data s = (Ok (take (Z.to_nat n) (drop (Z.to_nat off) data)), s).
Proof. intros. rewrite go_slice_ok by lia. unfold zsub. do 4 f_equal. lia. Qed.

Lemma uint32_at_run pre d off (s : S) :
  off = zlen pre → 4 ≤ zlen d →
  uint32_at (pre ++ d) off s = (Ok (be_get (take 4 d)), s).
Proof. intros Hoff Hd. unfold uint32_at. by erewrite run_bind by (apply go_slice_at; lia). Qed.

(** One step of the decoder: [d] is split at [n], which is [k] further on. *)
Lemma split_at (n : Z) (pre d : bytes) :
  0 ≤ n ≤ zlen d →
  pre ++ d = (pre ++ take (Z.to_nat n) d) ++ drop (Z.to_nat n) d ∧
  zlen (pre ++ take (Z.to_nat n) d) = zlen pre + n ∧ zlen (drop (Z.to_nat n) d) = zlen d - n.
Proof. intros Hn. split_and!; [by rewrite <-app_assoc, take_drop|rewrite length_app, length_take; lia|rewrite length_drop; lia]. Qed.

(** The decoding of a key and a value, common to the two commands. *)
Lemma kv_run {B} (err : string → goerr) (fail : goerr → GoM S B) (k : bytes → bytes → Z → GoM S B)
    pre d data off (s : S) :
  data = pre ++ d → off = zlen pre →
  (if zlen data <? off + 4 then fail (err "key length truncated")
   else
     keyLen ← uint32_at data off;
     let offset := off + 4 in
     if zlen data <? offset + keyLen + 4 then fail (err "key payload truncated")
     else
       key ← go_slice offset (offset + keyLen) data;
       let offset := offset + keyLen in
       valLen ← uint32_at data offset;
       let offset := offset + 4 in
       if zlen data <? offset + valLen then fail (err "value payload truncated")
       else
         val ← go_slice offset (offset + valLen) data;
         k key val (offset + valLen)) s =
  match parse_kv err d with
  | inr e => fail e s
  | inl (key, val, d') => k key val (zlen data - zlen d') s
  end.
Proof.
  intros -> ->. assert (Hlen : zlen (pre ++ d) = zlen pre + zlen d) by flen. rewrite Hlen.
  unfold parse_kv, take_u32, take_bytes.
  destruct (Z.ltb_spec (zlen pre + zlen d) (zlen pre + 4)), (Z.leb_spec 4 (zlen d)); try lia; [done|].
  rewrite (run_bind _ _ _ _ _ (uint32_at_run pre d _ s eq_refl ltac:(done))). cbv zeta.
  set (kl := be_get (take 4 d)). assert (Hkl : 0 ≤ kl) by (pose proof (be_get_range (take 4 d)); unfold kl; lia).
  destruct (split_at 4 pre d ltac:(lia)) as (E1 & L1 & D1). change (Z.to_nat 4) with 4%nat in *.
  set (p1 := pre ++ take 4 d) in *. set (d1 := drop 4 d) in *. rewrite E1, D1, <-L1.
  destruct (Z.ltb_spec (zlen pre + zlen d) (zlen p1 + kl + 4)) as [H1|H1].
  { destruct (Z.leb_spec kl (zlen d - 4)); [|done].
    destruct (Z.leb_spec 4 (zlen (drop (Z.to_nat kl) d1))) as [Hx|]; [|done].
    rewrite length_drop in Hx. lia. }
  destruct (Z.leb_spec kl (zlen d - 4)); [|lia].
  erewrite run_bind by (apply go_slice_at; lia).
  destruct (split_at kl p1 d1 ltac:(lia)) as (E2 & L2 & D2).
  set (key := take (Z.to_nat kl) d1) in *. set (p2 := p1 ++ key) in *. set (d2 := drop (Z.to_nat kl) d1) in *.
  destruct (Z.leb_spec 4 (zlen d2)); [|lia]. rewrite E2, <-L2.
  rewrite (run_bind _ _ _ _ _ (uint32_at_run p2 d2 _ s eq_refl ltac:(done))). cbv zeta.
  set (vl := be_get (take 4 d2)). assert (Hvl : 0 ≤ vl) by (pose proof (be_get_range (take 4 d2)); unfold vl; lia).
  destruct (split_at 4 p2 d2 ltac:(lia)) as (E3 & L3 & D3). change (Z.to_nat 4) with 4%nat in *.
  set (p3 := p2 ++ take 4 d2) in *. set (d3 := drop 4 d2) in *. rewrite E3, <-L3.
  destruct (Z.ltb_spec (zlen pre + zlen d) (zlen p3 + vl)), (Z.leb_spec vl (zlen d3)); try lia; [done|].
  erewrite run_bind by (apply go_slice_at; lia). f_equal. rewrite length_drop. lia.
Qed.

(** What is parsed is a prefix of the input. *)
Lemma parse_kv_suffix err d key value d' :
  parse_kv err d = inl (key, value, d') →
  ∃ mid, d = mid ++ d' ∧ zlen mid = 8 + zlen key + zlen value.
Proof.
  unfold parse_kv, take_u32, take_bytes. intros H.
  destruct (Z.leb_spec 4 (zlen d)) as [Hx0|]; [|done].
  pose proof (be_get_range (take 4 d)). set (kl := be_get (take 4 d)) in *.
  destruct (Z.leb_spec kl (zlen (drop 4 d))) as [Hx1|]; [|done].
  set (d1 := drop 4 d) in *. set (d2 := drop (Z.to_nat kl) d1) in *.
  destruct (Z.leb_spec 4 (zlen d2)) as [Hx2|]; [|done].
  pose proof (be_get_range (take 4 d2)). set (vl := be_get (take 4 d2)) in *.
  destruct (Z.leb_spec vl (zlen (drop 4 d2))) as [Hx3|]; [|done].
  simplify_eq. exists (take (length d - length (drop (Z.to_nat vl) (drop 4 d2))) d).
  assert (Hdd : drop (Z.to_nat vl) (drop 4 d2) = drop (4 + Z.to_nat kl + 4 + Z.to_nat vl) d).
  { unfold d2, d1. rewrite !drop_drop. f_equal. lia. }
  rewrite Hdd, length_drop. unfold d2, d1 in *. rewrite !length_drop in *.
  replace (length d - (length d - (4 + Z.to_nat kl + 4 + Z.to_nat vl)))%nat
    with (4 + Z.to_nat kl + 4 + Z.to_nat vl)%nat by lia.
  rewrite take_drop. split; [done|]. rewrite !length_take, ?length_drop. lia.
Qed.

Lemma apply_single_run pre d data off now h (s : S) :
  data = pre ++ d → off = zlen pre →
  apply_single data off now h s =
  match parse_kv (λ what, EMsg ("malformed single command: " ++ what) []) d with
  | inr e => (Ok (RespError e), s)
  | inl (key, value, _) => run_command now h (Single key value) s
  end.
Proof.
  intros Hd Hoff. unfold apply_single.
  etrans; [exact (kv_run (λ what, EMsg ("malformed single command: " ++ what) []) (λ e, mret (RespError e))
    (λ key val _, r ← attempt (lp_Append h now key val);
       match r with
       | inl appendedOffset => mret (RespOffset appendedOffset)
       | inr err => mret (RespError (EWrap "append to partition: %w" [] err))
       end) pre d data off s Hd Hoff)|].
  destruct (parse_kv _ d) as [[[key value] d']|e]; [|done].
  unfold run_command, mbind, gom_bind. by destruct (attempt _ s) as [[[]| |] ?].
Qed.

Lemma decode_records_run n pre d data i off now (s : S) :
  data = pre ++ d → off = zlen pre →
  decode_records n data i off now s = (Ok (parse_records n i now d), s).
Proof.
  revert pre d i off. induction n as [|n IH]; intros pre d i off Hd Hoff; [done|].
  cbn [decode_records parse_records].
  etrans; [exact (kv_run (λ what, EMsg ("malformed batch record %d: " ++ what) [AInt i]) (λ e, mret (inr e))
    (λ key val off', r ← decode_records n data (i + 1) off' now;
       match r with
       | inl records => mret (inl (mkRecord now key val :: records))
       | inr err => mret (inr err)
       end) pre d data off s Hd Hoff)|].
  destruct (parse_kv _ d) as [[[key value] d']|e] eqn:Hp; [|done].
  destruct (parse_kv_suffix _ _ _ _ _ Hp) as (mid & -> & _).
  erewrite run_bind; [|apply (IH (pre ++ mid) d'); subst; [by rewrite <-app_assoc|flen]].
  by destruct (parse_records n (i + 1) now d').
Qed.

Lemma apply_batch_run pre d data off now h (s : S) :
  data = pre ++ d → off = zlen pre →
  apply_batch data off now h s =
  match parse_body CmdTypeBatch now d with
  | inr e => (Ok (RespError e), s)
  | inl c => run_command now h c s
  end.
Proof.
  intros Hd Hoff. unfold apply_batch, parse_body. change (CmdTypeBatch =? CmdTypeSingle) with false. change (CmdTypeBatch =? CmdTypeBatch) with true. cbn iota. unfold take_u32.
  assert (Hlen : zlen data = zlen pre + zlen d) by (subst; flen). rewrite Hlen, Hoff.
  destruct (Z.ltb_spec (zlen pre + zlen d) (zlen pre + 4)), (Z.leb_spec 4 (zlen d)); try lia; [done|].
  rewrite Hd, (run_bind _ _ _ _ _ (uint32_at_run pre d _ s eq_refl ltac:(done))). cbv zeta.
  pose proof (be_get_range (take 4 d)) as Hc. rewrite length_take, Nat.min_l in Hc by lia.
  change (256 ^ Z.of_nat 4) with (2 ^ 32) in Hc. set (count := be_get (take 4 d)) in *.
  assert (Hm : make_slice (count * record_size) s = (Ok tt, s)).
  { unfold make_slice, record_size, max_alloc. destruct (Z.leb_spec 0 (count * 56)); [|lia].
    destruct (Z.leb_spec (count * 56) (2 ^ 48)); [done|lia]. }
  rewrite (run_bind _ _ _ _ _ Hm).
  destruct (split_at 4 pre d ltac:(lia)) as (E1 & L1 & D1). change (Z.to_nat 4) with 4%nat in *.
  erewrite run_bind; [|by apply (decode_records_run _ (pre ++ take 4 d) (drop 4 d))].
  destruct (parse_records _ _ _ _) as [rs|e]; [|done].
  unfold run_command, mbind, gom_bind. by destruct (attempt _ s) as [[[[? []]|]| |] ?].
Qed.

Theorem FSM_Apply_spec data now (s : S) : FSM_Apply data now s = apply_spec data now s.
Proof.
  unfold FSM_Apply, apply_spec, parse_head. destruct (Z.ltb_spec (zlen data) 7) as [|H7]; [done|].
  rewrite (run_bind _ _ _ _ _ (go_slice_sub data 0 1 s ltac:(lia) ltac:(lia) ltac:(lia))).
  rewrite (run_bind _ _ _ _ _ (go_slice_sub data 1 2 s ltac:(lia) ltac:(lia) ltac:(lia))).
  cbv zeta. change (take (Z.to_nat 1) (drop (Z.to_nat 0) data)) with (take 1 data).
  change (take (Z.to_nat 2) (drop (Z.to_nat 1) data)) with (take 2 (drop 1 data)). set (tl := be_get (take 2 (drop 1 data))).
  assert (Htl : 0 ≤ tl) by (pose proof (be_get_range (take 2 (drop 1 data))); unfold tl; lia).
  destruct (split_at 3 [] data ltac:(lia)) as (E3 & L3 & D3). change (Z.to_nat 3) with 3%nat in *. simpl app in *.
  unfold take_bytes, take_u32.
  set (d3 := drop 3 data) in *. set (p3 := take 3 data) in *.
  destruct (Z.ltb_spec (zlen data) (3 + tl + 4)) as [Ht|Ht].
  { destruct (Z.leb_spec tl (zlen d3)); [|done].
    destruct (Z.leb_spec 4 (zlen (drop (Z.to_nat tl) d3))) as [H4|]; [|done].
    rewrite length_drop in H4. lia. }
  destruct (Z.leb_spec tl (zlen d3)); [|lia].
  rewrite (run_bind _ _ _ _ _ (go_slice_sub data 3 tl s ltac:(lia) ltac:(lia) ltac:(lia))).
  change (drop (Z.to_nat 3) data) with d3.
  destruct (split_at tl p3 d3 ltac:(lia)) as (E4 & L4 & D4).
  set (topic := take (Z.to_nat tl) d3) in *. set (p4 := p3 ++ topic) in *. set (d4 := drop (Z.to_nat tl) d3) in *.
  destruct (Z.leb_spec 4 (zlen d4)); [|lia].
  assert (Hp4 : 3 + tl = zlen p4) by (simpl in L3; lia).
  assert (Hu : uint32_at data (3 + tl) s = (Ok (be_get (take 4 d4)), s)).
  { rewrite E3, E4. by apply uint32_at_run. }
  rewrite (run_bind _ _ _ _ _ Hu).
  destruct (split_at 4 p4 d4 ltac:(lia)) as (E5 & L5 & D5). change (Z.to_nat 4) with 4%nat in *.
  assert (Hdata : data = (p4 ++ take 4 d4) ++ drop 4 d4) by congruence.
  assert (Hoff : 3 + tl + 4 = zlen (p4 ++ take 4 d4)) by lia.
  unfold mbind, gom_bind. destruct (attempt _ s) as [[[h|e]|e|] s']; try done.
  set (ct := be_get (take 1 data)) in *. unfold parse_body at 1.
  destruct (Z.eqb_spec ct CmdTypeSingle) as [->|].
  { rewrite (apply_single_run _ _ _ _ _ _ _ Hdata Hoff). by destruct (parse_kv _ _) as [[[]]|]. }
  destruct (Z.eqb_spec ct CmdTypeBatch) as [Hct|]; [|done].
  rewrite (apply_batch_run _ _ _ _ _ _ _ Hdata Hoff). unfold parse_body. change (CmdTypeBatch =? CmdTypeSingle) with false. change (CmdTypeBatch =? CmdTypeBatch) with true. cbn iota.
  destruct (take_u32 _) as [[count d']|]; [|done]. by destruct (parse_records _ _ _ _).
Qed.
End apply.
