(* ===== verification/RaftProps.v ===== *)
(** * Properties of the replicated state machine

    The correctness theorems of internal/raft/fsm.go, for every implementation
    of [LogProvider]. *)

From S2P Require Import Prelude GoNum OS Segment RaftFSM RaftSpec.

(** ** Parsing what was encoded *)

Lemma take_u32_put z d : is_u32 z → take_u32 (PutUint32 z ++ d) = Some (z, d).
Proof.
  intros Hz. unfold take_u32. rewrite length_app, Nat2Z.inj_add, zlen_PutUint32.
  destruct (Z.leb_spec 4 (4 + zlen d)); [|lia].
  assert (H4 : length (PutUint32 z) = 4%nat) by (unfold PutUint32; apply length_be_put).
  rewrite take_app_length', drop_app_length' by done. by rewrite be_get_put_u32.
Qed.

Lemma take_bytes_app n b d : n = zlen b → take_bytes n (b ++ d) = Some (b, d).
Proof.
  intros ->. unfold take_bytes. rewrite length_app. destruct (Z.leb_spec (zlen b) (Z.of_nat (length b + length d))); [|lia].
  by rewrite take_app_length', drop_app_length' by lia.
Qed.

(** A key and a value whose lengths fit their fields. *)
Definition kv_ok (key value : bytes) : Prop := zlen key < 2 ^ 32 ∧ zlen value < 2 ^ 32.

Lemma parse_kv_frame err key value d :
  kv_ok key value → parse_kv err (frame_kv key value ++ d) = inl (key, value, d).
Proof.
  intros [Hk Hv]. unfold parse_kv, frame_kv. rewrite <-!app_assoc.
  rewrite !u32_id by (unfold is_u32; lia).
  rewrite take_u32_put by (unfold is_u32; lia). rewrite take_bytes_app by done.
  rewrite take_u32_put by (unfold is_u32; lia). by rewrite take_bytes_app.
Qed.

Definition records_at (now : Z) (records : list BatchRecord) : list LogRecord :=
  (λ r, mkRecord now (br_Key r) (br_Value r)) <$> records.

Lemma parse_records_frame records i now d :
  Forall (λ r, kv_ok (br_Key r) (br_Value r)) records →
  parse_records (length records) i now (frame_records records ++ d) = inl (records_at now records).
Proof.
  intros H. revert i. induction H as [|r rs Hr _ IH]; intros i; [done|]. cbn [length parse_records].
  rewrite frame_records_cons, <-app_assoc, parse_kv_frame by done. by rewrite IH.
Qed.

(** Topics and partitions that fit their fields. *)
Definition head_ok (topic : bytes) (partition : Z) : Prop := zlen topic < 2 ^ 16 ∧ is_u32 partition.

Definition topic_or_default (topic : bytes) : bytes := if decide (topic = []) then str "default" else topic.

Lemma parse_head_raw cmdType t1 t2 n d :
  0 ≤ cmdType < 256 → n = zlen t1 → zlen t1 < 2 ^ 16 → 4 ≤ zlen (t2 ++ d) →
  parse_head ([byte_of_Z cmdType] ++ PutUint16 n ++ t1 ++ t2 ++ d) =
  inl (topic_or_default t1, be_get (take 4 (t2 ++ d)), cmdType, drop 4 (t2 ++ d)).
Proof.
  intros Hc -> Ht Hd. unfold parse_head.
  assert (H2 : length (PutUint16 (zlen t1)) = 2%nat) by (unfold PutUint16; apply length_be_put).
  set (data := _ ++ _). assert (Hdata : data = ([byte_of_Z cmdType] ++ PutUint16 (zlen t1)) ++ t1 ++ t2 ++ d)
    by (unfold data; by rewrite <-app_assoc).
  assert (Hlen : zlen data = 3 + zlen t1 + zlen (t2 ++ d)) by (rewrite Hdata, !length_app, H2; simpl; lia).
  destruct (Z.ltb_spec (zlen data) 7); [lia|].
  assert (E3 : drop 3 data = t1 ++ t2 ++ d).
  { rewrite Hdata, drop_app_length'; [done|]. by rewrite length_app, H2. }
  assert (E1 : take 2 (drop 1 data) = PutUint16 (zlen t1)).
  { unfold data. simpl. rewrite drop_0. by rewrite take_app_length'. }
  assert (E0 : be_get (take 1 data) = cmdType).
  { unfold data. simpl. rewrite be_get_one, Z_of_byte_of_Z. by apply Z.mod_small. }
  rewrite E3, E1, E0, be_get_put_u16 by (unfold is_u16; lia). rewrite take_bytes_app by done.
  unfold take_u32. destruct (Z.leb_spec 4 (zlen (t2 ++ d))); [done|lia].
Qed.

Lemma parse_head_frame cmdType topic partition d :
  0 ≤ cmdType < 256 → head_ok topic partition →
  parse_head (frame_head cmdType topic partition ++ d) = inl (topic_or_default topic, partition, cmdType, d).
Proof.
  intros Hc [Ht Hp]. unfold frame_head. rewrite <-!app_assoc. rewrite u16_id by (unfold is_u16; lia). rewrite u32_id by done.
  rewrite (parse_head_raw _ _ _ _ _ Hc eq_refl Ht); [|flen].
  pose proof (take_u32_put partition d Hp) as H. unfold take_u32 in H.
  destruct (Z.leb_spec 4 (zlen (PutUint32 partition ++ d))); [|done]. injection H as H1. by rewrite H1.
Qed.

(** ** Longer inputs *)

Lemma take_u32_ext d x z r : take_u32 d = Some (z, r) → take_u32 (d ++ x) = Some (z, r ++ x).
Proof.
  unfold take_u32. destruct (Z.leb_spec 4 (zlen d)) as [H|]; [|done]. intros [= <- <-].
  rewrite length_app. destruct (Z.leb_spec 4 (Z.of_nat (length d + length x))); [|lia].
  by rewrite take_app_le, drop_app_le by lia.
Qed.

Lemma take_bytes_ext n d x b r : take_bytes n d = Some (b, r) → take_bytes n (d ++ x) = Some (b, r ++ x).
Proof.
  unfold take_bytes. destruct (Z.leb_spec n (zlen d)) as [H|]; [|done]. intros [= <- <-].
  rewrite length_app. destruct (Z.leb_spec n (Z.of_nat (length d + length x))); [|lia].
  by rewrite take_app_le, drop_app_le by lia.
Qed.

Lemma parse_kv_ext err d x k v r :
  parse_kv err d = inl (k, v, r) → parse_kv err (d ++ x) = inl (k, v, r ++ x).
Proof.
  unfold parse_kv. intros H.
  destruct (take_u32 d) as [[kl d1]|] eqn:E1; [|done]. rewrite (take_u32_ext _ _ _ _ E1).
  destruct (take_bytes kl d1) as [[key d2]|] eqn:E2; [|done]. rewrite (take_bytes_ext _ _ _ _ _ E2).
  destruct (take_u32 d2) as [[vl d3]|] eqn:E3; [|done]. rewrite (take_u32_ext _ _ _ _ E3).
  destruct (take_bytes vl d3) as [[val d4]|] eqn:E4; [|done]. rewrite (take_bytes_ext _ _ _ _ _ E4).
  by simplify_eq.
Qed.

(** The rest of the input after the records. *)
Fixpoint records_rest (n : nat) (d : bytes) : option bytes :=
  match n with
  | O => Some d
  | Datatypes.S n' => match parse_kv (λ _, EOF) d with inl (_, _, d') => records_rest n' d' | inr _ => None end
  end.

Lemma parse_kv_err err err' d k v r : parse_kv err d = inl (k, v, r) → parse_kv err' d = inl (k, v, r).
Proof.
  unfold parse_kv. destruct (take_u32 d) as [[kl d1]|]; [|done].
  destruct (take_bytes kl d1) as [[key d2]|]; [|done]. destruct (take_u32 d2) as [[vl d3]|]; [|done].
  by destruct (take_bytes vl d3) as [[val d4]|].
Qed.

Lemma parse_records_rest n i now d rs : parse_records n i now d = inl rs → ∃ r, records_rest n d = Some r.
Proof.
  revert i d rs. induction n as [|n IH]; intros i d rs H; simpl in *; [eauto|].
  destruct (parse_kv _ d) as [[[k v] d']|] eqn:Hk; [|done]. rewrite (parse_kv_err _ (λ _, EOF) _ _ _ _ Hk).
  destruct (parse_records n (i + 1) now d') as [rs'|] eqn:Hr; [|done]. by eapply IH.
Qed.

Lemma records_rest_ext n d x r : records_rest n d = Some r → records_rest n (d ++ x) = Some (r ++ x).
Proof.
  revert d. induction n as [|n IH]; intros d H; simpl in *; [by simplify_eq|].
  destruct (parse_kv _ d) as [[[k v] d']|] eqn:Hk; [|done]. rewrite (parse_kv_ext _ _ _ _ _ _ Hk). by apply IH.
Qed.

Lemma records_rest_frame records d :
  Forall (λ r, kv_ok (br_Key r) (br_Value r)) records →
  records_rest (length records) (frame_records records ++ d) = Some d.
Proof.
  induction 1 as [|r rs Hr _ IH]; [done|]. cbn [length records_rest].
  by rewrite frame_records_cons, <-app_assoc, parse_kv_frame.
Qed.

Lemma parse_head_ext d x t p c r : parse_head d = inl (t, p, c, r) → parse_head (d ++ x) = inl (t, p, c, r ++ x).
Proof.
  unfold parse_head. destruct (Z.ltb_spec (zlen d) 7) as [|H7]; [done|]. intros H.
  rewrite length_app. destruct (Z.ltb_spec (Z.of_nat (length d + length x)) 7); [lia|].
  rewrite !drop_app_le, !take_app_le by (rewrite ?length_drop; lia).
  destruct (take_bytes _ (drop 3 d)) as [[topic d1]|] eqn:E1; [|done]. rewrite (take_bytes_ext _ _ _ _ _ E1).
  destruct (take_u32 d1) as [[partition d2]|] eqn:E2; [|done]. rewrite (take_u32_ext _ _ _ _ E2).
  by simplify_eq.
Qed.

(** ** Malformed commands *)

(** No command can be read from [data]. *)
Definition malformed (data : bytes) (now : Z) : Prop :=
  match parse_head data with
  | inr _ => True
  | inl (_, _, cmdType, body) => is_Some (match parse_body cmdType now body with inl _ => None | inr e => Some e end)
  end.

Lemma decide_malformed data now :
  malformed data now ∨
  ∃ topic partition cmdType body c,
    parse_head data = inl (topic, partition, cmdType, body) ∧ parse_body cmdType now body = inl c.
Proof.
  unfold malformed. destruct (parse_head data) as [[[[topic partition] cmdType] body]|e]; [|by left].
  destruct (parse_body cmdType now body) as [c|e] eqn:Hb; [right; eauto 10|left; by eexists].
Qed.

(** The body of a frame cut short cannot be read: what is read of a prefix is
    read of the whole, and leaves more of it. *)
Lemma parse_single_torn now d x key value :
  kv_ok key value → d ++ x = frame_kv key value → x ≠ [] →
  ∃ e, parse_body CmdTypeSingle now d = inr e.
Proof.
  intros Hkv Hd Hx. unfold parse_body. change (CmdTypeSingle =? CmdTypeSingle) with true. cbn iota.
  destruct (parse_kv _ d) as [[[k v] r]|e] eqn:Hp; [exfalso|by eexists].
  apply (parse_kv_ext _ _ x) in Hp. rewrite Hd, <-(app_nil_r (frame_kv key value)), parse_kv_frame in Hp by done.
  destruct r, x; simplify_eq/=.
Qed.

Lemma parse_batch_torn now d x records :
  Forall (λ r, kv_ok (br_Key r) (br_Value r)) records → zlen records < 2 ^ 32 →
  d ++ x = PutUint32 (u32 (zlen records)) ++ frame_records records → x ≠ [] →
  ∃ e, parse_body CmdTypeBatch now d = inr e.
Proof.
  intros Hrs Hn Hd Hx. unfold parse_body. change (CmdTypeBatch =? CmdTypeSingle) with false.
  change (CmdTypeBatch =? CmdTypeBatch) with true. cbn iota.
  destruct (take_u32 d) as [[n d']|] eqn:Ht; [|by eexists].
  destruct (parse_records _ _ _ d') as [rs|e] eqn:Hp; [exfalso|by eexists].
  apply (take_u32_ext _ x) in Ht. rewrite u32_id in Hd by (unfold is_u32; lia).
  rewrite Hd, take_u32_put in Ht by (unfold is_u32; lia). injection Ht as <- Hrest.
  destruct (parse_records_rest _ _ _ _ _ Hp) as [r Hr]. apply (records_rest_ext _ _ x) in Hr.
  rewrite <-Hrest, <-(app_nil_r (frame_records records)), Nat2Z.id, records_rest_frame in Hr by done.
  destruct r, x; simplify_eq/=.
Qed.

Lemma torn_malformed now d x cmdType topic partition body :
  0 ≤ cmdType < 256 → head_ok topic partition →
  d ++ x = frame_head cmdType topic partition ++ body → x ≠ [] →
  (∀ d' , d' ++ x = body → ∃ e, parse_body cmdType now d' = inr e) →
  malformed d now.
Proof.
  intros Hc Hh Hd Hx Hbody. unfold malformed.
  destruct (parse_head d) as [[[[t p] c] r]|e] eqn:Hp; [|done].
  apply (parse_head_ext _ x) in Hp. rewrite Hd, parse_head_frame in Hp by done.
  simplify_eq. destruct (Hbody r) as [e ->]; [done|]. by eexists.
Qed.

(** ** Properties *)

Section props.
Context {S : Type} `{LP : LogProvider S}.

(** What [Apply] does with a well-formed command. *)
Definition apply_to (topic : bytes) (partition now : Z) (c : command) : GoM S response :=
  r ← attempt (GetPartition (topic_or_default topic) partition);
  match r with
  | inl partitionLog => run_command now partitionLog c
  | inr err => mret (RespError (EWrap "get partition log: %w" [] err))
  end.

(** [Apply] when the frame's head can be read. *)
Lemma apply_head data now topic partition cmdType body (s : S) :
  parse_head data = inl (topic, partition, cmdType, body) →
  FSM_Apply data now s =
  (r ← attempt (GetPartition topic partition);
   match r with
   | inr err => mret (RespError (EWrap "get partition log: %w" [] err))
   | inl partitionLog =>
       match parse_body cmdType now body with
       | inr err => mret (RespError err)
       | inl c => run_command now partitionLog c
       end
   end) s.
Proof. intros H. rewrite FSM_Apply_spec. unfold apply_spec. by rewrite H. Qed.

Lemma apply_frame data now topic partition cmdType body c (s : S) :
  parse_head data = inl (topic_or_default topic, partition, cmdType, body) →
  parse_body cmdType now body = inl c →
  FSM_Apply data now s = apply_to topic partition now c s.
Proof.
  intros Hh Hb. rewrite (apply_head _ _ _ _ _ _ _ Hh), Hb. unfold apply_to, mbind, gom_bind.
  by destruct (attempt _ s) as [[[]| |] ?].
Qed.

(** The body of a frame is read back. *)
Lemma parse_body_single now key value junk :
  kv_ok key value → parse_body CmdTypeSingle now (frame_kv key value ++ junk) = inl (Single key value).
Proof.
  intros Hkv. unfold parse_body. change (CmdTypeSingle =? CmdTypeSingle) with true. cbn iota.
  by rewrite parse_kv_frame.
Qed.

Lemma parse_body_batch now records junk :
  Forall (λ r, kv_ok (br_Key r) (br_Value r)) records → zlen records < 2 ^ 32 →
  parse_body CmdTypeBatch now (PutUint32 (u32 (zlen records)) ++ frame_records records ++ junk) =
  inl (Batch (records_at now records)).
Proof.
  intros Hrs Hn. unfold parse_body. change (CmdTypeBatch =? CmdTypeSingle) with false.
  change (CmdTypeBatch =? CmdTypeBatch) with true. cbn iota.
  rewrite u32_id, take_u32_put, Nat2Z.id by (unfold is_u32; lia). by rewrite parse_records_frame.
Qed.

Lemma apply_single_frame topic partition key value junk now (s : S) :
  head_ok topic partition → kv_ok key value →
  FSM_Apply (single_frame topic partition key value ++ junk) now s =
  apply_to topic partition now (Single key value) s.
Proof.
  intros Hh Hkv. unfold single_frame. rewrite <-app_assoc.
  eapply apply_frame; [by apply parse_head_frame|by apply parse_body_single].
Qed.

Lemma apply_batch_frame topic partition records junk now (s : S) :
  head_ok topic partition → Forall (λ r, kv_ok (br_Key r) (br_Value r)) records → zlen records < 2 ^ 32 →
  FSM_Apply (batch_frame topic partition records ++ junk) now s =
  apply_to topic partition now (Batch (records_at now records)) s.
Proof.
  intros Hh Hrs Hn. unfold batch_frame. rewrite <-!app_assoc.
  eapply apply_frame; [by apply parse_head_frame|by apply parse_body_batch].
Qed.

(** The logs do not panic. *)
Class QuietProvider : Prop := {
  quiet_get t p (s : S) : (GetPartition t p s).1 ≠ Panic;
  quiet_append h now k v (s : S) : (lp_Append h now k v s).1 ≠ Panic;
  quiet_append_batch h rs (s : S) : (lp_AppendBatch h rs s).1 ≠ Panic
}.

Lemma quiet_run_command `{!QuietProvider} now h c (s : S) : ∃ r s', run_command now h c s = (Ok r, s').
Proof.
  destruct c as [key value|rs]; unfold run_command, mbind, gom_bind, attempt.
  - pose proof (quiet_append h now key value s) as Hq.
    destruct (lp_Append h now key value s) as [[] ?]; naive_solver.
  - pose proof (quiet_append_batch h rs s) as Hq.
    destruct (lp_AppendBatch h rs s) as [[[? []]| |] ?]; naive_solver.
Qed.

Lemma torn_malformed_frame d x topic partition key value records now :
  x ≠ [] → head_ok topic partition →
  (d ++ x = single_frame topic partition key value ∧ kv_ok key value ∨
   d ++ x = batch_frame topic partition records ∧
     Forall (λ r, kv_ok (br_Key r) (br_Value r)) records ∧ zlen records < 2 ^ 32) →
  malformed d now.
Proof.
  intros Hx Hh [[Hd Hkv]|(Hd & Hrs & Hn)].
  - apply (torn_malformed _ _ _ CmdTypeSingle _ _ _ ltac:(done) Hh Hd Hx). intros d' Hd'. by eapply parse_single_torn.
  - apply (torn_malformed _ _ _ CmdTypeBatch _ _ _ ltac:(done) Hh Hd Hx). intros d' Hd'. by eapply parse_batch_torn.
Qed.

(** The command is answered with an error and nothing is appended: the state is
    as before, or the log of a partition was opened. *)
Definition rejected (r : response) (s s' : S) : Prop :=
  (∃ e, r = RespError e) ∧ (s' = s ∨ ∃ topic partition, s' = (GetPartition topic partition s).2).

Lemma apply_unread_body `{!QuietProvider} data now topic partition cmdType body e (s : S) :
  parse_head data = inl (topic, partition, cmdType, body) → parse_body cmdType now body = inr e →
  ∃ r s', FSM_Apply data now s = (Ok r, s') ∧ rejected r s s'.
Proof.
  intros Hh Hb. rewrite (apply_head _ _ _ _ _ _ _ Hh), Hb. pose proof (quiet_get topic partition s) as Hq.
  unfold attempt, mbind, gom_bind. destruct (GetPartition topic partition s) as [[h|e'|] s1] eqn:Hg; [| |done];
    (do 2 eexists; split; [done|]; split; [by eexists|]; right; exists topic, partition; by rewrite Hg).
Qed.

Lemma apply_malformed `{!QuietProvider} data now (s : S) :
  malformed data now → ∃ r s', FSM_Apply data now s = (Ok r, s') ∧ rejected r s s'.
Proof.
  unfold malformed. destruct (parse_head data) as [[[[topic partition] cmdType] body]|e] eqn:Hp.
  - destruct (parse_body cmdType now body) as [c|e] eqn:Hb; [by intros []|]. intros _. by eapply apply_unread_body.
  - intros _. rewrite FSM_Apply_spec. unfold apply_spec. rewrite Hp.
    do 2 eexists. split; [done|]. split; [by eexists|by left].
Qed.

(** C8. [FSM.Apply] is the command grammar followed by the append: on every
    input it gives exactly the result and the state of reading the head (type,
    topic, partition), asking for the partition's log, reading the body and
    appending what it holds, with the same error for every way in which the
    input can be cut or wrong. *)
Theorem apply_refines_grammar data now (s : S) : FSM_Apply data now s = apply_spec data now s.
Proof. apply FSM_Apply_spec. Qed.

(** Round trip of a single command: applying what [EncodeCommand] writes,
    with any bytes after it, appends the key and the value to the log of the
    topic and partition that were encoded, the empty topic being "default". *)
Theorem encode_apply_single topic partition key value junk now (s : S) :
  head_ok topic partition → kv_ok key value →
  (data ← EncodeCommand topic partition key value; FSM_Apply (data ++ junk) now) s =
  apply_to topic partition now (Single key value) s.
Proof.
  intros Hh Hkv. rewrite (run_bind _ _ _ _ _ (EncodeCommand_frame topic partition key value s)).
  by apply apply_single_frame.
Qed.

(** Round trip of a batch command: applying what [EncodeBatchCommand]
    writes, with any bytes after it, appends exactly its records, in their
    order, all with the time of the call, in one batch. *)
Theorem encode_apply_batch topic partition records junk now (s : S) :
  head_ok topic partition → Forall (λ r, kv_ok (br_Key r) (br_Value r)) records → zlen records < 2 ^ 32 →
  (data ← EncodeBatchCommand topic partition records; FSM_Apply (data ++ junk) now) s =
  apply_to topic partition now (Batch (records_at now records)) s.
Proof.
  intros Hh Hrs Hn. rewrite (run_bind _ _ _ _ _ (EncodeBatchCommand_frame topic partition records s)).
  by apply apply_batch_frame.
Qed.

(** [Apply] is total and safe on arbitrary input: it never panics (no
    slice expression is out of range) as long as the logs do not, and an input
    from which no command can be read is answered with an error and appends
    nothing: at most, the log of the partition it names was opened. *)
Theorem apply_total `{!QuietProvider} data now (s : S) :
  ∃ r s', FSM_Apply data now s = (Ok r, s') ∧ (malformed data now → rejected r s s').
Proof.
  destruct (decide_malformed data now) as [Hm|(topic & partition & cmdType & body & c & Hp & Hb)].
  { destruct (apply_malformed data now s Hm) as (r & s' & ? & ?). eauto. }
  rewrite (apply_head _ _ _ _ _ _ _ Hp), Hb. pose proof (quiet_get topic partition s) as Hq.
  unfold malformed. rewrite Hp, Hb. unfold mbind, gom_bind, attempt.
  destruct (GetPartition topic partition s) as [[h|e|] s1]; [| |done].
  - destruct (quiet_run_command now h c s1) as (r & s' & ->). do 2 eexists. split; [done|]. by intros [].
  - do 2 eexists. split; [done|]. by intros [].
Qed.

(** A torn command is never applied: for every strict prefix of what
    [EncodeCommand] or [EncodeBatchCommand] returns, [Apply] answers with an
    error and appends nothing. *)
Theorem torn_command_rejected `{!QuietProvider} topic partition key value records data n now (s : S) :
  head_ok topic partition →
  kv_ok key value ∧ EncodeCommand topic partition key value s = (Ok data, s) ∨
  (Forall (λ r, kv_ok (br_Key r) (br_Value r)) records ∧ zlen records < 2 ^ 32) ∧
    EncodeBatchCommand topic partition records s = (Ok data, s) →
  (n < length data)%nat →
  ∃ r s', FSM_Apply (take n data) now s = (Ok r, s') ∧ rejected r s s'.
Proof.
  intros Hh He Hn. apply apply_malformed, (torn_malformed_frame _ (drop n data) topic partition key value records); [|done|].
  { intros Hl%(f_equal length). rewrite length_drop in Hl. simpl in Hl. lia. }
  rewrite take_drop. destruct He as [[Hkv He]|[Hrs He]]; [left|right].
  - rewrite EncodeCommand_frame in He. by simplify_eq.
  - rewrite EncodeBatchCommand_frame in He. by simplify_eq.
Qed.

(** The topic's length is stored in 16 bits: a command encoded for a topic
    of 65536 bytes or more is applied to another topic, the first (length mod
    65536) bytes of it, and to the partition whose number is read from the
    four bytes of the topic that follow. *)
Theorem long_topic_is_misread topic partition key value now (s : S) :
  2 ^ 16 ≤ zlen topic →
  let n := Z.to_nat (zlen topic `mod` 2 ^ 16) in
  let rest := drop 4 (drop n topic) ++ PutUint32 (u32 partition) ++ frame_kv key value in
  (data ← EncodeCommand topic partition key value; FSM_Apply data now) s =
  (r ← attempt (GetPartition (topic_or_default (take n topic)) (be_get (take 4 (drop n topic))));
   match r with
   | inr err => mret (RespError (EWrap "get partition log: %w" [] err))
   | inl partitionLog =>
       match parse_body CmdTypeSingle now rest with
       | inr err => mret (RespError err)
       | inl c => run_command now partitionLog c
       end
   end) s.
Proof.
  intros Ht n rest. pose proof (Z.mod_pos_bound (zlen topic) (2 ^ 16) ltac:(lia)) as Hm.
  pose proof (Z.div_mod (zlen topic) (2 ^ 16) ltac:(lia)) as Hd.
  pose proof (Z.div_le_lower_bound (zlen topic) (2 ^ 16) 1 ltac:(lia) ltac:(lia)) as H1.
  assert (H4 : zlen topic `mod` 2 ^ 16 + 4 ≤ zlen topic) by lia.
  assert (Hnz : Z.of_nat n = zlen topic `mod` 2 ^ 16) by (unfold n; lia).
  rewrite (run_bind _ _ _ _ _ (EncodeCommand_frame topic partition key value s)).
  apply apply_head. unfold single_frame, frame_head, rest. rewrite <-!app_assoc.
  generalize (PutUint32 (u32 partition) ++ frame_kv key value). intros d.
  rewrite <-(take_drop n topic) at 2. rewrite <-app_assoc.
  assert (Hn : u16 (zlen topic) = zlen (take n topic)) by (unfold u16; rewrite length_take; lia).
  rewrite parse_head_raw; [|done|done|rewrite length_take; lia|rewrite length_app, length_drop; lia].
  by rewrite take_app_le, drop_app_le by (rewrite length_drop; lia).
Qed.
End props.

(** ** Witnesses: logs in memory *)

(** All messages of all logs, in the order in which they were appended. *)
Definition mem : Type := list (bytes * Z * bytes * bytes).

Definition mem_next (h : bytes * Z) (m : mem) : Z := zlen (filter (λ e : bytes * Z * bytes * bytes, e.1.1 = h) m).

#[global] Instance mem_logs : LogProvider mem := {|
  lp_log := bytes * Z;
  GetPartition topic partition :=
    if (0 <=? partition) && (partition <? 3) then mret (topic, partition)
    else throw (EMsg "invalid partition %d" [AInt partition]);
  lp_Append h _ key value m := (Ok (mem_next h m), m ++ [(h, key, value)]);
  lp_AppendBatch h records m :=
    (Ok ((λ i, mem_next h m + Z.of_nat i) <$> seq 0 (length records), None),
     m ++ ((λ r, (h, r_Key r, r_Value r)) <$> records))
|}.

#[global] Instance mem_quiet : QuietProvider (S := mem).
Proof. split; intros; simpl; [by destruct (_ && _)|done|done]. Qed.

Lemma encode_apply_single_witness :
  (data ← EncodeCommand (str "") 1 (str "k") (str "v"); FSM_Apply (data ++ str "x") 7) ([] : mem) =
  (Ok (RespOffset 0), [(str "default", 1, str "k", str "v")]).
Proof.
  assert (Hh : head_ok (str "") 1) by (split; [reflexivity|split; [discriminate|reflexivity]]).
  assert (Hk : kv_ok (str "k") (str "v")) by (split; reflexivity).
  etransitivity; [exact (encode_apply_single (S := mem) (str "") 1 (str "k") (str "v") (str "x") 7 [] Hh Hk)|].
  vm_compute. reflexivity.
Defined.

Lemma encode_apply_batch_witness :
  (data ← EncodeBatchCommand (str "t") 1 [mkBatchRecord (str "k") (str "v"); mkBatchRecord [] (str "w")];
   FSM_Apply (data ++ str "x") 7) ([] : mem) =
  (Ok (RespOffsets [0; 1]), [(str "t", 1, str "k", str "v"); (str "t", 1, [], str "w")]).
Proof.
  set (rs := [_; _]).
  assert (Hh : head_ok (str "t") 1) by (split; [reflexivity|split; [discriminate|reflexivity]]).
  assert (Hk : Forall (λ r, kv_ok (br_Key r) (br_Value r)) rs).
  { apply Forall_cons_2; [split; reflexivity|]. apply Forall_cons_2; [split; reflexivity|]. apply Forall_nil, I. }
  etransitivity; [exact (encode_apply_batch (S := mem) (str "t") 1 rs (str "x") 7 [] Hh Hk eq_refl)|].
  vm_compute. reflexivity.
Defined.

Lemma apply_total_witness :
  ∃ r s', FSM_Apply (str "garbage") 7 ([] : mem) = (Ok r, s') ∧ rejected r ([] : mem) s'.
Proof.
  destruct (apply_total (S := mem) (str "garbage") 7 []) as (r & s' & Hr & Hj).
  exists r, s'. split; [exact Hr|]. apply Hj. vm_compute. exact I.
Defined.

Lemma torn_command_rejected_witness :
  ∃ data, EncodeCommand (str "t") 1 (str "k") (str "v") ([] : mem) = (Ok data, []) ∧
  ∃ r s', FSM_Apply (take 17 data) 7 ([] : mem) = (Ok r, s') ∧ rejected r ([] : mem) s'.
Proof.
  eexists. split; [vm_compute; reflexivity|].
  apply (torn_command_rejected (S := mem) (str "t") 1 (str "k") (str "v") []).
  - split; [reflexivity|split; [discriminate|reflexivity]].
  - left. split; [split; reflexivity|]. vm_compute. reflexivity.
  - vm_compute. lia.
Defined.

Lemma long_topic_is_misread_witness :
  (data ← EncodeCommand (replicate 65537 Byte.x00) 1 (str "k") (str "v"); FSM_Apply data 7) ([] : mem) =
  (Ok (RespOffset 0), [([Byte.x00], 0, [], [])]).
Proof.
  etransitivity.
  - apply (long_topic_is_misread (S := mem)). vm_compute. discriminate.
  - vm_compute. reflexivity.
Defined.
