(* ===== verification/ConsumerGroup.v ===== *)
(** * Consumer-group offsets: internal/broker/consumer_group.go

    [ConsumerGroupStore] keeps the committed offsets in a BoltDB bucket and in
    a map.  BoltDB is reached through the interface [Bolt], whose documented
    behaviour is [BoltLaws]. *)

From S2P Require Import Prelude GoNum OS.

(** ** BoltDB

    [D] is an open database, [T] a transaction on it.  A transaction works on
    buckets, which map keys to values. *)

Class Bolt (D T : Type) : Type := {
  bolt_Open : bytes → GoM D unit;
  bolt_Close : GoM D unit;
  bolt_Update : ∀ {A}, GoM T A → GoM D A;
  bolt_View : ∀ {A}, GoM T A → GoM D A;
  tx_CreateBucketIfNotExists : bytes → GoM T unit;
  tx_Bucket : bytes → GoM T bool;
  bucket_Put : bytes → bytes → bytes → GoM T unit;
  bucket_ForEach : bytes → GoM T (list (bytes * bytes))
}.

Abbreviation buckets := (gmap bytes (gmap bytes bytes)).

(** The limits of BoltDB on a key and a value. *)
Definition bolt_entry_ok (k v : bytes) : Prop := k ≠ [] ∧ zlen k ≤ 32768 ∧ zlen v ≤ 2 ^ 31 - 2.

(** The data of a database and of a transaction; [bolt_faulty d]: the device can
    fail. *)
Class BoltView (D T : Type) : Type := {
  bolt_data : D → buckets;
  bolt_faulty : D → Prop;
  tx_data : T → buckets
}.

(** The data are the same, and no fault has come. *)
Definition bolt_same {D T} `{BoltView D T} (d d' : D) : Prop :=
  bolt_data d' = bolt_data d ∧ (bolt_faulty d' → bolt_faulty d).

(** A transaction sees the committed data; [Update] commits what its function
    did when the function succeeds, and leaves the data alone when the function
    or the commit fails. *)

Class BoltLaws (D T : Type) `{Bolt D T} `{BoltView D T} : Prop := {
  law_Open p d : wp (bolt_Open p) (λ _ d', bolt_same d d') (λ _ d', bolt_same d d' ∧ bolt_faulty d) d;
  law_Close d : wp bolt_Close (λ _ d', bolt_same d d') (λ _ d', bolt_same d d' ∧ bolt_faulty d) d;
  law_Update A (m : GoM T A) (Q : A → buckets → Prop) (E : goerr → Prop) d :
    (∀ t, tx_data t = bolt_data d → wp m (λ a t', Q a (tx_data t')) (λ e _, E e) t) →
    wp (bolt_Update m) (λ a d', Q a (bolt_data d') ∧ (bolt_faulty d' → bolt_faulty d))
      (λ e d', bolt_same d d' ∧ (E e ∨ bolt_faulty d)) d;
  law_View A (m : GoM T A) (Q : A → Prop) (E : goerr → Prop) d :
    (∀ t, tx_data t = bolt_data d → wp m (λ a _, Q a) (λ e _, E e) t) →
    wp (bolt_View m) (λ a d', Q a ∧ bolt_same d d') (λ e d', bolt_same d d' ∧ (E e ∨ bolt_faulty d)) d;
  law_Create b t :
    wp (tx_CreateBucketIfNotExists b)
      (λ _ t', tx_data t' = <[b := default ∅ (tx_data t !! b)]> (tx_data t)) (λ _ _, b = []) t;
  law_Bucket b t :
    wp (tx_Bucket b) (λ r t', r = bool_decide (is_Some (tx_data t !! b)) ∧ tx_data t' = tx_data t)
      (λ _ _, False) t;
  law_Put b k v t m :
    tx_data t !! b = Some m →
    wp (bucket_Put b k v) (λ _ t', tx_data t' = <[b := <[k := v]> m]> (tx_data t))
      (λ _ _, ¬ bolt_entry_ok k v) t;
  law_ForEach b t m :
    tx_data t !! b = Some m →
    wp (bucket_ForEach b) (λ ps t', ps ≡ₚ map_to_list m ∧ tx_data t' = tx_data t) (λ _ _, False) t
}.

(** ** The store *)

Definition consumerGroupsBucket : bytes := str "consumer-groups".

Record ConsumerGroupOffset : Type := mkCGO {
  cg_GroupID : bytes;
  cg_Topic : bytes;
  cg_Partition : Z;
  cg_Offset : Z
}.

#[global] Instance ConsumerGroupOffset_eq_dec : EqDecision ConsumerGroupOffset.
Proof. solve_decision. Defined.

(** The receiver without its database handle, which is the state [D]. *)
Record ConsumerGroupStore : Type := mkStore { cg_offsets : gmap bytes Z }.

(** [string([]byte)] of a group, a topic and a partition. *)
Definition offsetKey (groupID topic : bytes) (partition : Z) : bytes :=
  groupID ++ [Byte.x00] ++ topic ++ [Byte.x00] ++ PutUint32 (u32 partition).

(** [strings.ContainsRune(s, 0)] *)
Definition ContainsNUL (s : bytes) : bool := bool_decide (Byte.x00 ∈ s).

(** ** Snapshot *)

(** The body of the loop of [Snapshot]; [None] is [continue]. *)
Definition parseKey (key : bytes) (offset : Z) : option ConsumerGroupOffset :=
  let firstSeparator := IndexByte key Byte.x00 in
  if firstSeparator <? 0 then None
  else
    let rest := zdrop (firstSeparator + 1) key in
    let secondSeparator := IndexByte rest Byte.x00 in
    if secondSeparator <? 0 then None
    else
      let secondSeparator := secondSeparator + (firstSeparator + 1) in
      let partitionBytes := zdrop (secondSeparator + 1) key in
      if negb (zlen partitionBytes =? 4) then None
      else
        Some (mkCGO (zsub 0 firstSeparator key) (zsub (firstSeparator + 1) secondSeparator key)
          (i32 (be_get partitionBytes)) offset).

Definition Snapshot `{MapRange} (s : ConsumerGroupStore) : list ConsumerGroupOffset :=
  omap (λ p, parseKey p.1 p.2) (map_range (cg_offsets s)).

Section store.
Context {D T : Type} `{BT : Bolt D T}.

(** ** Opening *)

(** The function given to [bucket.ForEach].  The map that is being filled is
    dropped with the store when an entry is refused. *)
Fixpoint load_pairs {U : Type} (pairs : list (bytes * bytes)) (offsets : gmap bytes Z) : GoM U (gmap bytes Z) :=
  match pairs with
  | [] => mret offsets
  | (k, v) :: pairs =>
      if negb (zlen v =? 8) then throw (EMsg "invalid committed offset for key %q" [AStr k])
      else load_pairs pairs (<[k := be_get v]> offsets)
  end.

Definition load (s : ConsumerGroupStore) : GoM D ConsumerGroupStore :=
  bolt_View (
    found ← tx_Bucket consumerGroupsBucket;
    if negb found then throw (EMsg "consumer-groups bucket does not exist" [])
    else
      pairs ← bucket_ForEach consumerGroupsBucket;
      offsets ← load_pairs pairs (cg_offsets s);
      mret (mkStore offsets)).

Definition NewConsumerGroupStore (path : bytes) : GoM D ConsumerGroupStore :=
  bolt_Open path;;
  let store := mkStore ∅ in
  on_error (bolt_Update (tx_CreateBucketIfNotExists consumerGroupsBucket)) (ignore bolt_Close);;
  on_error (load store) (ignore bolt_Close).

(** ** Commit and fetch *)

(** The database part of [CommitOffset], which holds no lock of the store. *)
Definition commit_db (groupID topic : bytes) (partition offset : Z) : GoM D unit :=
  if ContainsNUL groupID || ContainsNUL topic
  then throw (EMsg "groupID and topic must not contain null bytes" [])
  else
    let key := offsetKey groupID topic partition in
    bolt_Update (
      found ← tx_Bucket consumerGroupsBucket;
      if negb found then throw (EMsg "consumer-groups bucket does not exist" [])
      else bucket_Put consumerGroupsBucket key (PutUint64 offset)).

(** The cache part, under the lock. *)
Definition commit_cache (groupID topic : bytes) (partition offset : Z) (s : ConsumerGroupStore) :
    ConsumerGroupStore :=
  mkStore (<[offsetKey groupID topic partition := offset]> (cg_offsets s)).

Definition store_CommitOffset (groupID topic : bytes) (partition offset : Z) : GoM (ConsumerGroupStore * D) unit :=
  lift_snd (commit_db groupID topic partition offset);;
  modify_st (λ '(s, d), (commit_cache groupID topic partition offset s, d)).

Definition store_FetchOffset (groupID topic : bytes) (partition : Z) (s : ConsumerGroupStore) : Z :=
  default 0 (cg_offsets s !! offsetKey groupID topic partition).

Definition store_Close : GoM D unit := bolt_Close.

End store.
