(* ===== verification/ConsumerGroupProps.v ===== *)
(** * Properties of the consumer-group store

    Keys are unambiguous, the map and the database agree after every
    sequential use, so that a restart loses nothing, and how two concurrent
    commits of one key break that. *)

From S2P Require Import Prelude GoNum OS ConsumerGroup.

(** ** Keys *)

Definition nul_free (s : bytes) : Prop := Byte.x00 ∉ s.

Lemma ContainsNUL_false s : ContainsNUL s = false ↔ nul_free s.
Proof. apply bool_decide_eq_false. Qed.

Lemma nul_split a b r s :
  nul_free a → nul_free b → a ++ Byte.x00 :: r = b ++ Byte.x00 :: s → a = b ∧ r = s.
Proof.
  unfold nul_free. revert b. induction a as [|x a IH]; intros [|y b] Ha Hb H; simpl in H; simplify_eq.
  - done.
  - set_solver.
  - set_solver.
  - rewrite not_elem_of_cons in Ha. rewrite not_elem_of_cons in Hb.
    destruct (IH b) as [-> ->]; naive_solver.
Qed.

Lemma PutUint32_i32_inj p q : is_i32 p → is_i32 q → PutUint32 (u32 p) = PutUint32 (u32 q) → p = q.
Proof.
  intros Hp Hq H. unfold PutUint32 in H.
  apply be_put_inj in H; [|apply u32_range..]. by rewrite <-(i32_u32 p), H, i32_u32.
Qed.

(** The arguments of a commit that can be told from others. *)
Definition key_args (g t : bytes) (p : Z) : Prop := nul_free g ∧ nul_free t ∧ is_i32 p.

Lemma offsetKey_inj g t p g' t' p' :
  key_args g t p → key_args g' t' p' → offsetKey g t p = offsetKey g' t' p' → g = g' ∧ t = t' ∧ p = p'.
Proof.
  intros (Hg & Ht & Hp) (Hg' & Ht' & Hp') H. unfold offsetKey in H.
  apply (nul_split _ _ _ _ Hg Hg') in H as [-> H].
  apply (nul_split _ _ _ _ Ht Ht') in H as [-> H].
  split_and!; [done..|]. by apply PutUint32_i32_inj.
Qed.

Lemma parseKey_offsetKey g t p o :
  key_args g t p → parseKey (offsetKey g t p) o = Some (mkCGO g t p o).
Proof.
  intros (Hg & Ht & Hp). unfold parseKey, offsetKey. simpl app.
  assert (E1 : zdrop (zlen g + 1) (g ++ Byte.x00 :: t ++ Byte.x00 :: PutUint32 (u32 p)) = t ++ Byte.x00 :: PutUint32 (u32 p)).
  { rewrite (cons_middle Byte.x00 g), app_assoc. apply zdrop_app_exact. rewrite length_app. simpl. lia. }
  rewrite (IndexByte_app g) by done. destruct (Z.ltb_spec (zlen g) 0); [lia|].
  rewrite E1, (IndexByte_app t) by done. destruct (Z.ltb_spec (zlen t) 0); [lia|].
  assert (E2 : zdrop (zlen t + (zlen g + 1) + 1) (g ++ Byte.x00 :: t ++ Byte.x00 :: PutUint32 (u32 p)) = PutUint32 (u32 p)).
  { rewrite (cons_middle Byte.x00 g), (cons_middle Byte.x00 t), !app_assoc. apply zdrop_app_exact.
    rewrite !length_app. simpl. lia. }
  rewrite E2. unfold PutUint32 at 1. rewrite length_be_put. simpl negb. cbn iota.
  rewrite be_get_put_u32 by apply u32_range. rewrite i32_u32 by done. do 2 f_equal.
  - apply (zsub_app_exact []); simpl; lia.
  - rewrite (cons_middle Byte.x00 g), app_assoc. apply zsub_app_exact; [|lia]. rewrite length_app. simpl. lia.
Qed.

Lemma parseKey_inv key o c :
  parseKey key o = Some c →
  key = offsetKey (cg_GroupID c) (cg_Topic c) (cg_Partition c) ∧ cg_Offset c = o ∧
  key_args (cg_GroupID c) (cg_Topic c) (cg_Partition c).
Proof.
  unfold parseKey. intros H. destruct (Z.ltb_spec (IndexByte key Byte.x00) 0) as [|H1]; [done|].
  destruct (IndexByte_inv _ _ H1) as (g & r & -> & Hg & E1). rewrite E1 in H.
  assert (D1 : zdrop (zlen g + 1) (g ++ Byte.x00 :: r) = r).
  { rewrite (cons_middle Byte.x00 g), app_assoc. apply zdrop_app_exact. rewrite length_app. simpl. lia. }
  rewrite D1 in H. destruct (Z.ltb_spec (IndexByte r Byte.x00) 0) as [|H2]; [done|].
  destruct (IndexByte_inv _ _ H2) as (t & q & -> & Ht & E2). rewrite E2 in H.
  assert (D2 : zdrop (zlen t + (zlen g + 1) + 1) (g ++ Byte.x00 :: t ++ Byte.x00 :: q) = q).
  { rewrite (cons_middle Byte.x00 g), (cons_middle Byte.x00 t), !app_assoc. apply zdrop_app_exact.
    rewrite !length_app. simpl. lia. }
  rewrite D2 in H. destruct (Z.eqb_spec (zlen q) 4) as [H4|]; [|done].
  assert (D3 : zsub (zlen g + 1) (zlen t + (zlen g + 1)) (g ++ Byte.x00 :: t ++ Byte.x00 :: q) = t).
  { rewrite (cons_middle Byte.x00 g), app_assoc. apply zsub_app_exact; [|lia]. rewrite length_app. simpl. lia. }
  assert (D4 : zsub 0 (zlen g) (g ++ Byte.x00 :: t ++ Byte.x00 :: q) = g) by (apply (zsub_app_exact []); simpl; lia).
  rewrite D3, D4 in H. simplify_eq/=. split; [|split; [done|split_and!; [done..|apply i32_range]]].
  assert (Hq : be_get q = u32 (i32 (be_get q))).
  { pose proof (be_get_range q) as Hr. rewrite H4 in Hr. unfold u32, i32.
    rewrite Zminus_mod_idemp_l, Z.add_simpl_r, Z.mod_small by lia. done. }
  unfold offsetKey. rewrite <-Hq. unfold PutUint32.
  assert (Hl : length q = 4%nat) by lia. by rewrite <-Hl, be_put_get.
Qed.

Lemma list_lookup_insert_Some' {A} (l : list A) i j x y :
  <[i := x]> l !! j = Some y → (i = j ∧ y = x) ∨ (i ≠ j ∧ l !! j = Some y).
Proof. intros H%list_lookup_insert_Some. naive_solver. Qed.

(** ** Agreement of the map and the database *)

Section props.
Context {D T : Type} `{BT : Bolt D T} `{BV : BoltView D T} `{!BoltLaws D T}.

(** The bucket holds the offsets of the map, in 8 bytes each. *)
Definition agrees (s : ConsumerGroupStore) (d : D) : Prop :=
  bolt_data d !! consumerGroupsBucket = Some (PutUint64 <$> cg_offsets s) ∧
  map_Forall (λ _ o, is_u64 o) (cg_offsets s).

(** Why a commit is refused. *)
Definition refusable (g t : bytes) (p o : Z) (d : D) : Prop :=
  ContainsNUL g || ContainsNUL t = true ∨ ¬ bolt_entry_ok (offsetKey g t p) (PutUint64 o) ∨ bolt_faulty d.

Lemma agrees_data s d d' : bolt_data d' = bolt_data d → agrees s d → agrees s d'.
Proof. unfold agrees. by intros ->. Qed.

Lemma wp_commit_db g t p o m d :
  bolt_data d !! consumerGroupsBucket = Some m →
  wp (commit_db g t p o)
    (λ _ d', bolt_data d' !! consumerGroupsBucket = Some (<[offsetKey g t p := PutUint64 o]> m) ∧
       (bolt_faulty d' → bolt_faulty d) ∧ nul_free g ∧ nul_free t)
    (λ _ d', bolt_same d d' ∧ refusable g t p o d) d.
Proof.
  intros Hd. unfold commit_db, refusable, bolt_same.
  destruct (ContainsNUL g || ContainsNUL t) eqn:Hn; [wp_steps; by eauto|].
  apply orb_false_iff in Hn as [Hg%ContainsNUL_false Ht%ContainsNUL_false].
  eapply wp_mono; [apply (law_Update _ _
    (λ _ b, b !! consumerGroupsBucket = Some (<[offsetKey g t p := PutUint64 o]> m))
    (λ _, ¬ bolt_entry_ok (offsetKey g t p) (PutUint64 o)))|intros _ d' [Hd' Hf]; done|unfold bolt_same; naive_solver].
  intros tx Htx. rewrite <-Htx in Hd. wp_steps. eapply wp_mono; [apply law_Bucket| |done].
  intros r tx1 [-> Htx1]. cbn beta. rewrite bool_decide_eq_true_2 by (rewrite Hd; by eexists). simpl negb. cbn iota.
  rewrite <-Htx1 in Hd. eapply wp_mono; [by apply law_Put| |done].
  intros _ tx2 ->. apply lookup_insert_eq.
Qed.

Lemma wp_CommitOffset g t p o s d :
  agrees s d → is_u64 o →
  wp (store_CommitOffset g t p o)
    (λ _ '(s', d'), s' = commit_cache g t p o s ∧ agrees s' d' ∧ nul_free g ∧ nul_free t)
    (λ _ '(s', d'), s' = s ∧ agrees s d' ∧ refusable g t p o d) (s, d).
Proof.
  intros Hsd Ho. unfold store_CommitOffset. wp_steps. eapply wp_mono; [apply wp_commit_db, Hsd|..].
  - intros _ d' (Hd & _ & Hg & Ht). cbn beta. wp_steps. split_and!; [done| |done..]. destruct Hsd as [_ Hall].
    split; simpl; [by rewrite Hd, fmap_insert|]. by apply map_Forall_insert_2.
  - intros e d' [[Hd _] Hr]. cbn beta. split; [done|]. split; [|done]. by eapply agrees_data.
Qed.

Lemma load_pairs_spec {U : Type} (ps : list (bytes * bytes)) m (u : U) :
  load_pairs ps m u =
  match list_find (λ p : bytes * bytes, zlen p.2 ≠ 8) ps with
  | Some (_, p) => (Err (EMsg "invalid committed offset for key %q" [AStr p.1]), u)
  | None => (Ok (foldl (λ m p, <[p.1 := be_get p.2]> m) m ps), u)
  end.
Proof.
  revert m. induction ps as [|[k v] ps IH]; intros m; [done|]. cbn [load_pairs list_find].
  destruct (Z.eqb_spec (zlen v) 8) as [H8|H8]; cbn [negb].
  - rewrite IH. rewrite decide_False by (simpl; lia). by destruct (list_find _ ps) as [[]|].
  - by rewrite decide_True.
Qed.

Lemma foldl_insert_pairs (ps : list (bytes * bytes)) (m : gmap bytes Z) :
  NoDup ps.*1 →
  foldl (λ m p, <[p.1 := be_get p.2]> m) m ps = (be_get <$> list_to_map ps) ∪ m.
Proof.
  revert m. induction ps as [|[k v] ps IH]; intros m Hnd; simpl.
  - by rewrite fmap_empty, left_id_L by apply _.
  - apply NoDup_cons in Hnd as [Hk Hnd]. rewrite IH by done. rewrite fmap_insert.
    rewrite <-insert_union_r; [by rewrite insert_union_l|].
    rewrite lookup_fmap. by rewrite (not_elem_of_list_to_map_1 (M := gmap bytes) ps k).
Qed.

(** The values of a bucket are all 8 bytes long. *)
Definition stored_ok (m : gmap bytes bytes) : Prop := map_Forall (λ _ v, zlen v = 8) m.

Lemma load_pairs_perm {U : Type} (ps : list (bytes * bytes)) (m : gmap bytes bytes) (u : U) :
  ps ≡ₚ map_to_list m →
  wp (load_pairs ps ∅) (λ offsets _, offsets = be_get <$> m ∧ stored_ok m) (λ _ _, ¬ stored_ok m) u.
Proof.
  intros Hps. unfold wp. rewrite load_pairs_spec. destruct (list_find _ ps) as [[i [k v]]|] eqn:Hf; simpl.
  - apply list_find_Some in Hf as (Hi & Hv & _). intros Hok. apply Hv, (Hok k).
    apply elem_of_map_to_list. rewrite <-Hps. by eapply list_elem_of_lookup_2.
  - apply list_find_None in Hf. split.
    + rewrite foldl_insert_pairs by (rewrite Hps; apply NoDup_fst_map_to_list). rewrite right_id_L by apply _.
      f_equal. rewrite <-(list_to_map_to_list m). apply list_to_map_proper; [|done].
      rewrite Hps. apply NoDup_fst_map_to_list.
    + intros k v Hk%elem_of_map_to_list. rewrite <-Hps in Hk. rewrite Forall_forall in Hf.
      specialize (Hf _ Hk). simpl in Hf. lia.
Qed.

Lemma wp_load d m :
  bolt_data d !! consumerGroupsBucket = Some m →
  wp (load (mkStore ∅)) (λ s d', (cg_offsets s = be_get <$> m ∧ stored_ok m) ∧ bolt_same d d')
    (λ _ d', bolt_same d d' ∧ (¬ stored_ok m ∨ bolt_faulty d)) d.
Proof.
  intros Hm. unfold load.
  apply (law_View _ _ (λ s, cg_offsets s = be_get <$> m ∧ stored_ok m) (λ _, ¬ stored_ok m)).
  intros tx Htx. rewrite <-Htx in Hm. wp_steps. eapply wp_mono; [apply law_Bucket| |done].
  intros r tx1 [-> Htx1]. cbn beta. rewrite bool_decide_eq_true_2 by (rewrite Hm; by eexists). simpl negb. cbn iota.
  rewrite <-Htx1 in Hm. wp_steps. eapply wp_mono; [by apply law_ForEach| |done].
  intros ps tx2 [Hps _]. cbn beta. wp_steps. eapply wp_mono; [by apply load_pairs_perm|..]; [|done].
  intros offsets tx3 H. cbn beta. by wp_steps.
Qed.

Lemma wp_NewConsumerGroupStore path d :
  let m := default ∅ (bolt_data d !! consumerGroupsBucket) in
  wp (NewConsumerGroupStore path)
    (λ s d', (cg_offsets s = be_get <$> m ∧ stored_ok m) ∧
       bolt_data d' = <[consumerGroupsBucket := m]> (bolt_data d) ∧ (bolt_faulty d' → bolt_faulty d))
    (λ _ d', (¬ stored_ok m ∨ bolt_faulty d) ∧
       default ∅ (bolt_data d' !! consumerGroupsBucket) = m) d.
Proof.
  intros m. unfold NewConsumerGroupStore, ignore. wp_steps. eapply wp_mono; [apply law_Open|..].
  2: { intros e d1 [[Hd1 _] Hf]. cbn beta. unfold m. rewrite Hd1. by split; [right|]. }
  intros _ d1 [Hd1 Hf1]. cbn beta. wp_steps. eapply wp_mono.
  { apply (law_Update _ _ (λ _ b, b = <[consumerGroupsBucket := m]> (bolt_data d)) (λ _, False)). intros tx Htx.
    eapply wp_mono; [apply law_Create| |done]. intros _ tx1 ->. by rewrite Htx, Hd1. }
  2: { intros e d2 [[Hd2 Hf2] [[]|Hf]]. cbn beta. wp_steps.
       eapply wp_mono; [apply law_Close|..]; intros ? d3 Hd3; cbn beta in *; wp_steps.
       all: split; [tauto|]. 1: destruct Hd3 as [Hd3 _]. 2: destruct Hd3 as [[Hd3 _] _].
       all: by rewrite Hd3, Hd2, Hd1. }
  intros _ d2 [Hd2 Hf2]. cbn beta. wp_steps. eapply wp_mono; [apply (wp_load d2 m)|..].
  - by rewrite Hd2, lookup_insert_eq.
  - intros s d3 [Hs [Hd3 Hf3]]. cbn beta. split; [done|]. rewrite Hd3, Hd2. tauto.
  - intros e d3 [[Hd3 Hf3] Hw]. cbn beta. wp_steps.
    eapply wp_mono; [apply law_Close|..]; intros ? d4 Hd4; cbn beta in *; wp_steps.
    all: split; [tauto|]. 1: destruct Hd4 as [Hd4 _]. 2: destruct Hd4 as [[Hd4 _] _].
    all: by rewrite Hd4, Hd3, Hd2, lookup_insert_eq.
Qed.

Lemma PutUint64_be_get v : zlen v = 8 → PutUint64 (be_get v) = v.
Proof. intros H. unfold PutUint64. replace 8%nat with (length v) by lia. apply be_put_get. Qed.

Lemma stored_agrees s m d :
  cg_offsets s = be_get <$> m → stored_ok m → bolt_data d !! consumerGroupsBucket = Some m → agrees s d.
Proof.
  intros Hs Hok Hd. split.
  - rewrite Hd, Hs, <-map_fmap_compose. f_equal. symmetry. etrans; [|apply map_fmap_id].
    apply map_fmap_ext. intros k v Hk. apply PutUint64_be_get. by eapply Hok.
  - rewrite Hs. intros k o. rewrite lookup_fmap. intros (v & Hv & ->)%fmap_Some_1.
    pose proof (be_get_range v) as Hr. rewrite (Hok _ _ Hv) in Hr. exact Hr.
Qed.

Lemma agrees_stored s d : agrees s d →
  stored_ok (PutUint64 <$> cg_offsets s) ∧ be_get <$> (PutUint64 <$> cg_offsets s) = cg_offsets s.
Proof.
  intros [_ Hall]. split.
  - intros k v. rewrite lookup_fmap. intros (o & _ & ->)%fmap_Some_1. unfold PutUint64. by rewrite length_be_put.
  - rewrite <-map_fmap_compose. etrans; [|apply map_fmap_id]. apply map_fmap_ext. intros k o Hk.
    apply be_get_put_u64. by eapply Hall.
Qed.

(** ** Commits, one after the other *)

Record commit : Type := mkCommit { c_group : bytes; c_topic : bytes; c_partition : Z; c_offset : Z }.

Definition commit_key (c : commit) : bytes := offsetKey (c_group c) (c_topic c) (c_partition c).

Definition run_commit (c : commit) : GoM (ConsumerGroupStore * D) unit :=
  store_CommitOffset (c_group c) (c_topic c) (c_partition c) (c_offset c).

(** Each commit may fail. *)
Definition run_commits (cs : list commit) : GoM (ConsumerGroupStore * D) unit :=
  foldr (λ c k, ignore (run_commit c);; k) (mret tt) cs.

Lemma wp_run_commits cs s d :
  agrees s d → Forall (λ c, is_u64 (c_offset c)) cs →
  wp (run_commits cs) (λ _ '(s', d'), agrees s' d') (λ _ _, False) (s, d).
Proof.
  intros Hsd H. revert s d Hsd. induction H as [|c cs Hc _ IH]; intros s d Hsd; [done|].
  cbn [run_commits foldr]. apply wp_bind. apply wp_ignore. eapply wp_mono; [by apply wp_CommitOffset|..].
  - intros _ [s' d'] (_ & Hsd' & _). by apply IH.
  - intros _ [s' d'] (-> & Hsd' & _). by apply IH.
Qed.

(** ** Concurrent commits

    A commit is two atomic steps, the transaction and the update of the map
    under the lock; the steps of concurrent commits interleave. *)

Inductive pc : Type := Idle | Wrote | Done | Failed.

Abbreviation config := (ConsumerGroupStore * D * list (commit * pc))%type.

Inductive commit_step : config → config → Prop :=
| step_db i c s d d' (ths : list (commit * pc)) :
    ths !! i = Some (c, Idle) → commit_db (c_group c) (c_topic c) (c_partition c) (c_offset c) d = (Ok tt, d') →
    commit_step (s, d, ths) (s, d', <[i := (c, Wrote)]> ths)
| step_db_fails i c s d d' e (ths : list (commit * pc)) :
    ths !! i = Some (c, Idle) → commit_db (c_group c) (c_topic c) (c_partition c) (c_offset c) d = (Err e, d') →
    commit_step (s, d, ths) (s, d', <[i := (c, Failed)]> ths)
| step_cache i c s d (ths : list (commit * pc)) :
    ths !! i = Some (c, Wrote) →
    commit_step (s, d, ths)
      (commit_cache (c_group c) (c_topic c) (c_partition c) (c_offset c) s, d, <[i := (c, Done)]> ths).

Lemma step_db_run i c s d (ths : list (commit * pc)) :
  ths !! i = Some (c, Idle) → (commit_db (c_group c) (c_topic c) (c_partition c) (c_offset c) d).1 = Ok tt →
  commit_step (s, d, ths)
    (s, (commit_db (c_group c) (c_topic c) (c_partition c) (c_offset c) d).2, <[i := (c, Wrote)]> ths).
Proof. intros Hi Hok. eapply step_db; [done|]. by rewrite <-Hok, <-surjective_pairing. Qed.

(** While commits are running, the bucket holds the offset of every commit that
    has not reached the map yet, and agrees with the map on the other keys. *)
Definition commit_inv (cf : config) : Prop :=
  let '(s, d, ths) := cf in
  NoDup (commit_key <$> ths.*1) ∧ Forall (λ th, is_u64 (c_offset th.1)) ths ∧
  map_Forall (λ _ o, is_u64 o) (cg_offsets s) ∧
  ∃ m, bolt_data d !! consumerGroupsBucket = Some m ∧
    (∀ i c, ths !! i = Some (c, Wrote) → m !! commit_key c = Some (PutUint64 (c_offset c))) ∧
    (∀ k, (∀ i c, ths !! i = Some (c, Wrote) → commit_key c ≠ k) → m !! k = PutUint64 <$> cg_offsets s !! k).

Lemma thread_keys_inj (ths : list (commit * pc)) i j c c' q q' :
  NoDup (commit_key <$> ths.*1) → ths !! i = Some (c, q) → ths !! j = Some (c', q') →
  commit_key c = commit_key c' → i = j.
Proof.
  intros Hnd Hi Hj Hk. eapply (NoDup_lookup _ i j (commit_key c) Hnd).
  - by rewrite !list_lookup_fmap, Hi.
  - rewrite !list_lookup_fmap, Hj. simpl. by rewrite Hk.
Qed.

Lemma thread_keys_update (ths : list (commit * pc)) i c q q' :
  ths !! i = Some (c, q) → (<[i := (c, q')]> ths).*1 = ths.*1.
Proof. intros Hi. rewrite list_fmap_insert. apply list_insert_id. by rewrite list_lookup_fmap, Hi. Qed.

Lemma commit_step_inv cf cf' : commit_step cf cf' → commit_inv cf → commit_inv cf'.
Proof.
  intros Hstep. destruct Hstep as [i c s d d' ths Hi Hdb|i c s d d' e ths Hi Hdb|i c s d ths Hi];
    intros (Hnd & Hu & Hall & m & Hm & Hw & Hs); (split; [by erewrite thread_keys_update|]);
    pose proof (Forall_lookup_1 _ _ _ _ Hu Hi) as Hc; simpl in Hc;
    (split; [by apply Forall_insert|]).
  - pose proof (wp_commit_db (c_group c) (c_topic c) (c_partition c) (c_offset c) m d Hm) as H.
    unfold wp in H. rewrite Hdb in H. destruct H as (Hd' & _). split; [done|].
    exists (<[commit_key c := PutUint64 (c_offset c)]> m). split; [done|]. split.
    + intros j c'. destruct (decide (j = i)) as [->|Hne].
      * rewrite list_lookup_insert_eq by (by eapply lookup_lt_Some). intros [= <-]. apply lookup_insert_eq.
      * rewrite list_lookup_insert_ne by done. intros Hj. rewrite lookup_insert_ne; [by eapply Hw|].
        intros Hk. by destruct (thread_keys_inj ths i j c c' _ _ Hnd Hi Hj Hk).
    + intros k Hk. assert (Hck : commit_key c ≠ k).
      { apply (Hk i). by rewrite list_lookup_insert_eq by (by eapply lookup_lt_Some). }
      rewrite lookup_insert_ne by done. apply Hs. intros j c' Hj. apply (Hk j). rewrite list_lookup_insert_ne; [done|].
      intros <-. by simplify_eq.
  - pose proof (wp_commit_db (c_group c) (c_topic c) (c_partition c) (c_offset c) m d Hm) as H.
    unfold wp in H. rewrite Hdb in H. destruct H as [[Hd' _] _]. split; [done|]. exists m. split; [by rewrite Hd'|]. split.
    + intros j c'. intros [[<- [=]]|[_ Hj]]%list_lookup_insert_Some'. by eapply Hw.
    + intros k Hk. apply Hs. intros j c' Hj. apply (Hk j). rewrite list_lookup_insert_ne; [done|]. intros <-. by simplify_eq.
  - split; [by apply map_Forall_insert_2|]. exists m. split; [done|]. split.
    + intros j c'. intros [[<- [=]]|[_ Hj]]%list_lookup_insert_Some'. by eapply Hw.
    + intros k Hk. simpl. fold (commit_key c). destruct (decide (commit_key c = k)) as [<-|Hck].
      * rewrite lookup_insert_eq. by eapply Hw.
      * rewrite lookup_insert_ne by done. apply Hs. intros j c' Hj. destruct (decide (j = i)) as [->|]; [by simplify_eq|].
        apply (Hk j). by rewrite list_lookup_insert_ne.
Qed.

Lemma rtc_commit_inv cf cf' : rtc commit_step cf cf' → commit_inv cf → commit_inv cf'.
Proof. induction 1 as [|? ? ? Hstep _ IH]; [done|]. intros Hinv. by apply IH, (commit_step_inv _ _ Hstep). Qed.

Lemma commit_inv_init s d cs :
  agrees s d → NoDup (commit_key <$> cs) → Forall (λ c, is_u64 (c_offset c)) cs →
  commit_inv (s, d, (λ c, (c, Idle)) <$> cs).
Proof.
  intros [Hd Hall] Hnd Hu. split; [|split; [|split; [done|]]].
  - replace ((λ c, (c, Idle)) <$> cs).*1 with cs; [done|]. clear. induction cs as [|c cs IH]; [done|]. simpl. by f_equal.
  - by apply Forall_fmap.
  - eexists. split; [done|]. split; [|intros k _; apply lookup_fmap].
    intros i c. rewrite list_lookup_fmap. by intros (c' & _ & [=])%fmap_Some_1.
Qed.

(** ** Properties *)

(** A committed offset is what is fetched afterwards, for that group, topic
    and partition and for no other: keys never collide.  The database and the
    map agree before and after, also when the commit is refused (a NUL in a
    name, a key too long for the database, a failed device), which changes
    neither. *)
Theorem commit_then_fetch g t p o s d :
  agrees s d → is_i32 p → is_u64 o →
  wp (store_CommitOffset g t p o)
    (λ _ '(s', d'), agrees s' d' ∧ store_FetchOffset g t p s' = o ∧
       ∀ g' t' p', key_args g' t' p' → (g', t', p') ≠ (g, t, p) →
         store_FetchOffset g' t' p' s' = store_FetchOffset g' t' p' s)
    (λ _ '(s', d'), s' = s ∧ agrees s d' ∧ refusable g t p o d) (s, d).
Proof.
  intros Hsd Hp Ho. eapply wp_mono; [by apply wp_CommitOffset| |done].
  intros _ [s' d'] (-> & Hag & Hg & Ht). split; [done|]. unfold store_FetchOffset, commit_cache. simpl. split.
  - by rewrite lookup_insert_eq.
  - intros g' t' p' Hk Hne. rewrite lookup_insert_ne; [done|]. intros He.
    apply offsetKey_inj in He as (-> & -> & ->); done.
Qed.

(** C12. Restart: after any sequence of commits, some of which may have failed,
    closing the store and opening the database again gives a store with the same
    offsets; the open can fail only if the device does. *)
Theorem reopen_restores_offsets cs path s d :
  agrees s d → Forall (λ c, is_u64 (c_offset c)) cs →
  wp (run_commits cs)
    (λ _ '(s', d'),
      wp (_ ← attempt store_Close; NewConsumerGroupStore path)
        (λ s'' d'', s'' = s' ∧ agrees s'' d'') (λ _ _, bolt_faulty d') d')
    (λ _ _, False) (s, d).
Proof.
  intros Hsd Hcs. eapply wp_mono; [by apply wp_run_commits| |done]. intros _ [s' d'] Hag. wp_steps.
  destruct (agrees_stored _ _ Hag) as [Hok Hget]. unfold store_Close.
  assert (Hopen : ∀ d1, bolt_same d' d1 →
    wp (NewConsumerGroupStore path) (λ s'' d'', s'' = s' ∧ agrees s'' d'') (λ _ _, bolt_faulty d') d1).
  { intros d1 [Hd1 Hf1]. pose proof (wp_NewConsumerGroupStore path d1) as H. cbn zeta in H.
    destruct Hag as [Hd' _]. rewrite Hd1, Hd' in H. simpl in H.
    eapply wp_mono; [exact H|..]; [|by intros e d2 [[Hno|Hf] _]; auto].
    intros [offsets] d2 ((Ho & _) & Hd2 & _). simpl in Ho. rewrite Hget in Ho. subst offsets. destruct s'.
    split; [done|]. eapply stored_agrees; [by rewrite Hget|done|]. simpl. by rewrite Hd2, lookup_insert_eq. }
  eapply wp_mono; [apply law_Close|..]; cbn beta; [auto|]. intros e d1 [Hd1 _]. by apply Hopen.
Qed.

(** [Snapshot] lists exactly the committed offsets, each once, whatever the
    order in which the map is visited: parsing a key gives back the group, the
    topic and the partition it was made of, and keys of another form are left
    out. *)
Theorem snapshot_exact `{MapRange} s :
  NoDup (Snapshot s) ∧
  ∀ c, c ∈ Snapshot s ↔
    key_args (cg_GroupID c) (cg_Topic c) (cg_Partition c) ∧
    cg_offsets s !! offsetKey (cg_GroupID c) (cg_Topic c) (cg_Partition c) = Some (cg_Offset c).
Proof.
  unfold Snapshot. split.
  - assert (Hinj : ∀ p q c, parseKey p.1 p.2 = Some c → parseKey q.1 q.2 = Some c → p = q).
    { intros [k o] [k' o'] c (Hk & Ho & _)%parseKey_inv (Hk' & Ho' & _)%parseKey_inv. simpl in *. congruence. }
    assert (Hnd : NoDup (map_range (cg_offsets s))) by (rewrite map_range_perm; apply NoDup_map_to_list).
    induction Hnd as [|p l Hp _ IH]; [apply NoDup_nil_2|]. simpl.
    destruct (parseKey p.1 p.2) as [c|] eqn:Hc; [|done]. apply NoDup_cons. split; [|done].
    intros (q & Hq & Hqc)%list_elem_of_omap. by rewrite (Hinj p q c) in Hp.
  - intros c. rewrite list_elem_of_omap. split.
    + intros ([k o] & Hk & (Ek & Eo & Hka)%parseKey_inv). simpl in *. subst. by rewrite elem_of_map_range in Hk.
    + intros [Hka Hl]. eexists (_, _). rewrite elem_of_map_range. split; [done|]. simpl.
      destruct c. by apply parseKey_offsetKey.
Qed.

(** C35. Concurrent commits of different keys, interleaved in any way: once all
    of them have returned, the map and the database agree. *)
Theorem concurrent_commits_agree s d cs s' d' ths' :
  agrees s d → NoDup (commit_key <$> cs) → Forall (λ c, is_u64 (c_offset c)) cs →
  rtc commit_step (s, d, (λ c, (c, Idle)) <$> cs) (s', d', ths') →
  Forall (λ th, th.2 = Done ∨ th.2 = Failed) ths' →
  agrees s' d'.
Proof.
  intros Hag Hnd Hu Hrun Hdone. destruct (rtc_commit_inv _ _ Hrun (commit_inv_init _ _ _ Hag Hnd Hu))
    as (_ & _ & Hall & m & Hm & _ & Hs).
  split; [|done]. rewrite Hm. f_equal. apply map_eq. intros k. rewrite lookup_fmap. apply Hs.
  intros i c Hi. pose proof (Forall_lookup_1 _ _ _ _ Hdone Hi) as [|]; done.
Qed.

(** C36. Two concurrent commits of one key can leave the map and the database
    with different offsets: both return without an error, the store answers
    with the first offset, and after a restart with the second. *)
Theorem concurrent_commits_disagree g t p o1 o2 path s d :
  agrees s d → ¬ bolt_faulty d → is_u64 o1 → is_u64 o2 →
  ¬ refusable g t p o1 d → ¬ refusable g t p o2 d →
  ∃ s' d',
    rtc commit_step (s, d, [(mkCommit g t p o1, Idle); (mkCommit g t p o2, Idle)])
      (s', d', [(mkCommit g t p o1, Done); (mkCommit g t p o2, Done)]) ∧
    store_FetchOffset g t p s' = o1 ∧
    wp (NewConsumerGroupStore path) (λ s'' _, store_FetchOffset g t p s'' = o2) (λ _ _, False) d'.
Proof.
  intros Hag Hnf H1 H2 Hr1 Hr2. destruct (agrees_stored _ _ Hag) as [Hok _]. destruct Hag as [Hd _].
  pose proof (wp_commit_db g t p o1 _ d Hd) as W1. unfold wp in W1.
  destruct (commit_db g t p o1 d) as [[[]|e|] d1] eqn:E1; [|tauto|done]. destruct W1 as (Hd1 & Hf1 & _).
  pose proof (wp_commit_db g t p o2 _ d1 Hd1) as W2. unfold wp in W2.
  destruct (commit_db g t p o2 d1) as [[[]|e|] d2] eqn:E2; [|unfold refusable in *; tauto|done].
  destruct W2 as (Hd2 & Hf2 & _).
  exists (commit_cache g t p o1 (commit_cache g t p o2 s)), d2. split_and!.
  - eapply rtc_l; [by eapply (step_db 0%nat)|]. eapply rtc_l; [by eapply (step_db 1%nat)|].
    eapply rtc_l; [by eapply (step_cache 1%nat)|]. eapply rtc_l; [by eapply (step_cache 0%nat)|]. apply rtc_refl.
  - unfold store_FetchOffset. simpl. by rewrite lookup_insert_eq.
  - pose proof (wp_NewConsumerGroupStore path d2) as H. cbn zeta in H. rewrite Hd2 in H. simpl in H.
    assert (Hok2 : stored_ok (<[offsetKey g t p:=PutUint64 o2]> (<[offsetKey g t p:=PutUint64 o1]>
      (PutUint64 <$> cg_offsets s)))).
    { by repeat apply map_Forall_insert_2. }
    eapply wp_mono; [exact H|..]; cbn beta; [|tauto].
    intros [offsets] d3 ((Ho & _) & _). unfold store_FetchOffset. simpl in *. subst offsets.
    rewrite lookup_fmap, lookup_insert_eq. simpl. by apply be_get_put_u64.
Qed.
End props.

(** ** Witnesses: a database in memory *)

#[global] Instance mem_bolt : Bolt buckets buckets := {|
  bolt_Open _ := mret tt;
  bolt_Close := mret tt;
  bolt_Update A m d := match m d with (Ok a, t) => (Ok a, t) | (r, _) => (r, d) end;
  bolt_View A m d := ((m d).1, d);
  tx_CreateBucketIfNotExists b t :=
    if decide (b = []) then (Err (EMsg "bucket name required" []), t)
    else (Ok tt, <[b := default ∅ (t !! b)]> t);
  tx_Bucket b t := (Ok (bool_decide (is_Some (t !! b))), t);
  bucket_Put b k v t :=
    if bool_decide (k = []) || (32768 <? zlen k) || (2 ^ 31 - 2 <? zlen v)
    then (Err (EMsg "key or value refused" []), t)
    else (Ok tt, <[b := <[k := v]> (default ∅ (t !! b))]> t);
  bucket_ForEach b t := (Ok (map_to_list (default ∅ (t !! b))), t)
|}.

#[global] Instance mem_bolt_view : BoltView buckets buckets :=
  {| bolt_data d := d; bolt_faulty _ := False; tx_data t := t |}.

#[global] Instance mem_bolt_laws : BoltLaws buckets buckets.
Proof.
  split; unfold wp, bolt_same; simpl; try done.
  - intros A m Q E d H. specialize (H d eq_refl). destruct (m d) as [[] ?]; naive_solver.
  - intros A m Q E d H. specialize (H d eq_refl). destruct (m d) as [[] ?]; simpl; naive_solver.
  - intros b t. by case_decide.
  - intros b k v t m Hm. unfold bolt_entry_ok.
    destruct (bool_decide_reflect (k = [])); simpl; [tauto|].
    destruct (Z.ltb_spec 32768 (zlen k)); simpl; [lia|].
    destruct (Z.ltb_spec (2 ^ 31 - 2) (zlen v)); [lia|]. by rewrite Hm.
  - intros b t m Hm. by rewrite Hm.
Qed.

Definition ex_group : ConsumerGroupStore := mkStore {[ offsetKey (str "g") (str "t") 1 := 5 ]}.
Definition ex_db : buckets := {[ consumerGroupsBucket := {[ offsetKey (str "g") (str "t") 1 := PutUint64 5 ]} ]}.

Lemma ex_agrees : agrees ex_group ex_db.
Proof.
  split; [vm_compute; reflexivity|]. apply map_Forall_singleton. vm_compute. split; [discriminate|reflexivity].
Qed.

Lemma ex_key_args : key_args (str "g") (str "t") 1.
Proof. split; [|split]; [vm_compute; set_solver..|]. vm_compute. split; [discriminate|reflexivity]. Qed.

Lemma ex_not_refusable o : ¬ refusable (str "g") (str "t") 1 o ex_db.
Proof.
  intros [H|[H|[]]]; [vm_compute in H; discriminate|]. apply H. split; [discriminate|].
  unfold PutUint64. rewrite length_be_put. split; [vm_compute; discriminate|lia].
Qed.

Lemma commit_then_fetch_witness :
  wp (store_CommitOffset (str "g") (str "t") 1 9)
    (λ _ '(s', d'), agrees s' d' ∧ store_FetchOffset (str "g") (str "t") 1 s' = 9 ∧
       ∀ g' t' p', key_args g' t' p' → (g', t', p') ≠ (str "g", str "t", 1) →
         store_FetchOffset g' t' p' s' = store_FetchOffset g' t' p' ex_group)
    (λ _ _, False) (ex_group, ex_db).
Proof.
  eapply wp_mono; [apply (commit_then_fetch (str "g") (str "t") 1 9 ex_group ex_db)|done|].
  - exact ex_agrees.
  - split; [discriminate|reflexivity].
  - split; [discriminate|reflexivity].
  - intros e [s' d'] (_ & _ & H). by apply (ex_not_refusable 9).
Defined.

Lemma reopen_restores_offsets_witness :
  wp (run_commits [mkCommit (str "g") (str "t") 1 9; mkCommit (str "g") [Byte.x00] 1 7; mkCommit (str "h") [] (-1) 2])
    (λ _ '(s', d'),
      wp (_ ← attempt store_Close; NewConsumerGroupStore (str "f")) (λ s'' d'', s'' = s' ∧ agrees s'' d'')
        (λ _ _, False) d')
    (λ _ _, False) (ex_group, ex_db).
Proof.
  apply (reopen_restores_offsets _ (str "f") ex_group ex_db ex_agrees).
  apply Forall_cons_2; [split; [discriminate|reflexivity]|].
  apply Forall_cons_2; [split; [discriminate|reflexivity]|].
  apply Forall_cons_2; [split; [discriminate|reflexivity]|]. apply Forall_nil, I.
Defined.

Lemma concurrent_commits_agree_witness :
  ∃ s' d',
    rtc commit_step (ex_group, ex_db, [(mkCommit (str "g") (str "t") 1 9, Idle); (mkCommit (str "h") [] 0 3, Idle)])
      (s', d', [(mkCommit (str "g") (str "t") 1 9, Done); (mkCommit (str "h") [] 0 3, Done)]) ∧ agrees s' d'.
Proof.
  assert (Hrun : ∃ s' d',
    rtc commit_step (ex_group, ex_db, [(mkCommit (str "g") (str "t") 1 9, Idle); (mkCommit (str "h") [] 0 3, Idle)])
      (s', d', [(mkCommit (str "g") (str "t") 1 9, Done); (mkCommit (str "h") [] 0 3, Done)])).
  { do 2 eexists. eapply rtc_l; [apply (step_db_run 0%nat); [reflexivity|vm_compute; reflexivity]|].
    eapply rtc_l; [apply (step_db_run 1%nat); [reflexivity|vm_compute; reflexivity]|].
    eapply rtc_l; [by eapply (step_cache 1%nat)|]. eapply rtc_l; [by eapply (step_cache 0%nat)|]. apply rtc_refl. }
  destruct Hrun as (s' & d' & Hrun). exists s', d'. split; [exact Hrun|].
  refine (concurrent_commits_agree ex_group ex_db
    [mkCommit (str "g") (str "t") 1 9; mkCommit (str "h") [] 0 3] s' d' _ ex_agrees _ _ Hrun _).
  - apply (bool_decide_unpack _). vm_compute. exact I.
  - apply Forall_cons_2; [split; [discriminate|reflexivity]|].
    apply Forall_cons_2; [split; [discriminate|reflexivity]|]. apply Forall_nil, I.
  - apply Forall_cons_2; [by left|]. apply Forall_cons_2; [by left|]. apply Forall_nil, I.
Defined.

Lemma concurrent_commits_disagree_witness :
  ∃ s' d',
    rtc commit_step (ex_group, ex_db, [(mkCommit (str "g") (str "t") 1 6, Idle); (mkCommit (str "g") (str "t") 1 7, Idle)])
      (s', d', [(mkCommit (str "g") (str "t") 1 6, Done); (mkCommit (str "g") (str "t") 1 7, Done)]) ∧
    store_FetchOffset (str "g") (str "t") 1 s' = 6 ∧
    wp (NewConsumerGroupStore (str "f")) (λ s'' _, store_FetchOffset (str "g") (str "t") 1 s'' = 7) (λ _ _, False) d'.
Proof.
  apply (concurrent_commits_disagree (str "g") (str "t") 1 6 7 (str "f") ex_group ex_db ex_agrees).
  - intros [].
  - split; [discriminate|reflexivity].
  - split; [discriminate|reflexivity].
  - apply ex_not_refusable.
  - apply ex_not_refusable.
Defined.
