(* ===== verification/Path.v ===== *)
(** * Paths and file names

    Package path/filepath on Unix, as far as the broker uses it, and the
    directory of a topic partition. *)

From S2P Require Import Prelude GoNum.

(** ** filepath.Clean and filepath.Join *)

Definition slash : byte := Byte.x2f.

(** The elements of a path between slashes; there is at least one. *)
Fixpoint split_slash (s : bytes) : list bytes :=
  match s with
  | [] => [[]]
  | c :: s' =>
      if decide (c = slash) then [] :: split_slash s'
      else match split_slash s' with
           | x :: l => (c :: x) :: l
           | [] => [[c]]
           end
  end.

(** [strings.Join(elems, "/")] *)
Fixpoint join_slash (l : list bytes) : bytes :=
  match l with
  | [] => []
  | [x] => x
  | x :: l' => x ++ [slash] ++ join_slash l'
  end.

(** One element on the reversed list of those kept. *)
Definition clean_step (rooted : bool) (stack : list bytes) (x : bytes) : list bytes :=
  if decide (x = [] ∨ x = str ".") then stack
  else if decide (x = str "..") then
    match stack with
    | [] => if rooted then [] else [x]
    | y :: stack' => if decide (y = str "..") then x :: stack else stack'
    end
  else x :: stack.

Definition render (rooted : bool) (stack : list bytes) : bytes :=
  let p := (if rooted then [slash] else []) ++ join_slash (reverse stack) in
  if decide (p = []) then str "." else p.

Definition is_rooted (path : bytes) : bool := bool_decide (head path = Some slash).

Definition Clean (path : bytes) : bytes :=
  let rooted := is_rooted path in
  render rooted (foldl (clean_step rooted) [] (split_slash path)).

Fixpoint Join (elems : list bytes) : bytes :=
  match elems with
  | [] => []
  | [] :: elems' => Join elems'
  | _ => Clean (join_slash elems)
  end.

(** ** The directory of a partition

    [filepath.Join(b.dataDir, "topics", topic, "partitions", strconv.Itoa(i))] *)
Definition partitionDir (dataDir topic : bytes) (i : Z) : bytes :=
  Join [dataDir; str "topics"; topic; str "partitions"; Itoa i].

Example partitionDir_ex : partitionDir (str "data//n1/.") (str "a/../b") 2 = str "data/n1/topics/b/partitions/2".
Proof. reflexivity. Qed.

(** ** Laws *)

(** A name that is one element of a path. *)
Definition plain (x : bytes) : Prop := x ≠ [] ∧ x ≠ str "." ∧ x ≠ str ".." ∧ slash ∉ x.

#[global] Instance plain_dec x : Decision (plain x).
Proof. unfold plain. apply _. Defined.

Lemma split_slash_free x : slash ∉ x → split_slash x = [x].
Proof.
  induction x as [|c x IH]; intros Hx; [done|]. rewrite not_elem_of_cons in Hx. simpl.
  rewrite decide_False by naive_solver. by rewrite IH by tauto.
Qed.

Lemma split_slash_ne a : split_slash a ≠ [].
Proof. induction a as [|c a IH]; [done|]. simpl. case_decide; [done|]. by destruct (split_slash a). Qed.

Lemma split_slash_app a b : split_slash (a ++ slash :: b) = split_slash a ++ split_slash b.
Proof.
  induction a as [|c a IH]; [done|]. cbn [app split_slash]. rewrite IH.
  case_decide; [done|]. pose proof (split_slash_ne a). by destruct (split_slash a).
Qed.

Lemma clean_step_plain rooted stack x : plain x → clean_step rooted stack x = x :: stack.
Proof.
  intros (H1 & H2 & H3 & _). unfold clean_step. by rewrite decide_False, decide_False by naive_solver.
Qed.

Lemma clean_step_dotdot rooted stack x : plain x → clean_step rooted (x :: stack) (str "..") = stack.
Proof. intros (_ & _ & H & _). unfold clean_step. by rewrite decide_False, decide_True, decide_False by naive_solver. Qed.

Lemma join_slash_snoc l x : l ≠ [] → join_slash (l ++ [x]) = join_slash l ++ slash :: x.
Proof.
  induction l as [|y l IH]; [done|]. intros _. destruct l as [|z l]; [done|].
  cbn [app join_slash] in *. rewrite IH by done. by rewrite <-!app_assoc.
Qed.

Lemma join_slash_cons x l : l ≠ [] → join_slash (x :: l) = x ++ slash :: join_slash l.
Proof. by destruct l. Qed.

Lemma plain_topics : plain (str "topics") ∧ plain (str "partitions").
Proof. split; apply (bool_decide_unpack _); vm_compute; exact I. Qed.

(** ** Decimal names are plain *)

Lemma digit_not_slash d : 0 ≤ d < 10 → digit d ≠ slash ∧ digit d ≠ Byte.x2e.
Proof.
  intros Hd. split; intros H; apply (f_equal Z_of_byte) in H; unfold digit in H;
    rewrite Z_of_byte_of_Z, Z.mod_small in H by lia;
    [change (Z_of_byte slash) with 47 in H|change (Z_of_byte Byte.x2e) with 46 in H]; lia.
Qed.

Lemma plain_Itoa i : 0 ≤ i < 10 → plain (Itoa i).
Proof.
  intros Hi. destruct (digit_not_slash i Hi) as [H1 H2].
  assert (E : Itoa i = [digit i]).
  { unfold Itoa. destruct (Z.ltb_spec i 0); [lia|].
    assert (Hc : i = 0 ∨ i = 1 ∨ i = 2 ∨ i = 3 ∨ i = 4 ∨ i = 5 ∨ i = 6 ∨ i = 7 ∨ i = 8 ∨ i = 9) by lia.
    by destruct_or! Hc; subst. }
  rewrite E. split_and!; [done| | |].
  - intros H. apply H2. by injection H.
  - done.
  - rewrite list_elem_of_singleton. done.
Qed.

Lemma Itoa_inj i j : 0 ≤ i < 10 → 0 ≤ j < 10 → Itoa i = Itoa j → i = j.
Proof.
  intros Hi Hj. unfold Itoa. destruct (Z.ltb_spec i 0); [lia|]. destruct (Z.ltb_spec j 0); [lia|].
  apply FormatUint_inj; unfold is_u64; lia.
Qed.

(** ** Partition directories *)

(** The elements of the data directory, and whether it is absolute. *)
Definition data_elems (dataDir : bytes) : list bytes :=
  match dataDir with [] => [] | _ => foldl (clean_step (is_rooted dataDir)) [] (split_slash dataDir) end.

Definition data_rooted (dataDir : bytes) : bool := is_rooted dataDir.

(** The directory, for any topic. *)
Lemma partitionDir_clean dataDir topic i :
  0 ≤ i < 10 →
  partitionDir dataDir topic i =
  render (data_rooted dataDir)
    (Itoa i :: clean_step (data_rooted dataDir)
      (foldl (clean_step (data_rooted dataDir)) (str "topics" :: data_elems dataDir) (split_slash topic))
      (str "partitions")).
Proof.
  intros Hi. destruct plain_topics as [Ht Hp]. pose proof (plain_Itoa i Hi) as Hpi.
  assert (Hs : ∀ x, plain x → split_slash x = [x]) by (intros x (_ & _ & _ & Hx); by apply split_slash_free).
  assert (Htail : ∀ rooted st, foldl (clean_step rooted) st
      (split_slash (join_slash [str "topics"; topic; str "partitions"; Itoa i])) =
    Itoa i :: clean_step rooted (foldl (clean_step rooted) (str "topics" :: st) (split_slash topic)) (str "partitions")).
  { intros rooted st. rewrite !join_slash_cons by done. rewrite !split_slash_app, (Hs _ Ht), (Hs _ Hp).
    cbn [join_slash]. rewrite (Hs _ Hpi), !foldl_app. cbn [foldl]. by rewrite (clean_step_plain _ _ _ Ht), (clean_step_plain _ _ _ Hpi). }
  unfold partitionDir, data_rooted. destruct dataDir as [|c dataDir].
  - simpl Join. unfold Clean. rewrite Htail. done.
  - set (d := c :: dataDir). change (Join _) with (Clean (join_slash [d; str "topics"; topic; str "partitions"; Itoa i])).
    rewrite join_slash_cons by done. unfold Clean.
    change (is_rooted (d ++ _)) with (is_rooted d). by rewrite split_slash_app, foldl_app, Htail.
Qed.

Lemma partitionDir_plain dataDir topic i :
  plain topic → 0 ≤ i < 10 →
  partitionDir dataDir topic i =
  render (data_rooted dataDir) (Itoa i :: str "partitions" :: topic :: str "topics" :: data_elems dataDir).
Proof.
  intros Hp Hi. destruct plain_topics as [_ Hpp]. rewrite partitionDir_clean by done. do 2 f_equal.
  rewrite split_slash_free by apply Hp. cbn [foldl]. by rewrite !clean_step_plain.
Qed.

Lemma sep_split c (a b r s : bytes) : c ∉ a → c ∉ b → a ++ c :: r = b ++ c :: s → a = b ∧ r = s.
Proof.
  revert b. induction a as [|x a IH]; intros [|y b] Ha Hb H; simpl in H; simplify_eq; [done|set_solver..|].
  rewrite not_elem_of_cons in Ha. rewrite not_elem_of_cons in Hb. destruct (IH b) as [-> ->]; naive_solver.
Qed.

Lemma render_snoc rooted stack x y z :
  render rooted (x :: y :: z :: str "topics" :: stack) =
  (if rooted then [slash] else []) ++ join_slash (reverse (str "topics" :: stack)) ++
    slash :: z ++ slash :: y ++ slash :: x.
Proof.
  unfold render. rewrite !(reverse_cons _ x), (reverse_cons _ y), (reverse_cons _ z).
  assert (Hne : reverse (str "topics" :: stack) ≠ []) by (rewrite reverse_cons; by destruct (reverse stack)).
  rewrite !join_slash_snoc by (try done; by destruct (reverse (str "topics" :: stack))).
  rewrite <-!app_assoc. rewrite decide_False; [by rewrite <-?app_assoc|].
  intros H. apply (f_equal length) in H. rewrite !length_app in H. simpl in H. lia.
Qed.

Lemma partitionDir_inj dataDir t t' i i' :
  plain t → plain t' → 0 ≤ i < 10 → 0 ≤ i' < 10 →
  partitionDir dataDir t i = partitionDir dataDir t' i' → t = t' ∧ i = i'.
Proof.
  intros Hp Hp' Hi Hi'. rewrite !partitionDir_plain by done. rewrite !render_snoc.
  intros H%app_inv_head%app_inv_head. injection H as H.
  apply sep_split in H as [-> H]; [|apply Hp|apply Hp']. split; [done|].
  injection H as H. by apply Itoa_inj.
Qed.

(** A topic that names its directory through another one. *)
Lemma partitionDir_dotdot dataDir x t i :
  plain x → plain t → 0 ≤ i < 10 →
  partitionDir dataDir (x ++ str "/../" ++ t) i = partitionDir dataDir t i.
Proof.
  intros Hx Ht Hi. rewrite (partitionDir_plain _ t), partitionDir_clean by done. do 2 f_equal.
  change (x ++ str "/../" ++ t) with (x ++ slash :: str ".." ++ slash :: t).
  rewrite !split_slash_app, (split_slash_free x), (split_slash_free (str "..")), (split_slash_free t);
    [|apply Ht|apply (bool_decide_unpack _); vm_compute; exact I|apply Hx].
  cbn [app foldl]. rewrite (clean_step_plain _ _ x Hx), clean_step_dotdot by done.
  destruct plain_topics as [_ Hpp]. by rewrite (clean_step_plain _ _ t Ht), clean_step_plain.
Qed.
