(* ===== verification/GoNet.v ===== *)
(** * Numbers in text, hashes and network addresses

    [strconv.ParseInt] and [Atoi], package hash/fnv and the host and port
    functions of package net. *)

From S2P Require Import Prelude GoNum.

(** [strconv.ParseInt(s, 10, bitSize)]; its errors are [None]. *)
Definition ParseInt (bitSize : Z) (s : bytes) : option Z :=
  match s with
  | [] => None
  | c :: r =>
      let neg := bool_decide (c = Byte.x2d) in
      let s' := if neg || bool_decide (c = Byte.x2b) then r else s in
      match ParseUint s' with
      | None => None
      | Some un =>
          let cutoff := 2 ^ (bitSize - 1) in
          if negb neg && (cutoff <=? un) then None
          else if neg && (cutoff <? un) then None
          else Some (if neg then - un else un)
      end
  end.

(** [strconv.Atoi(s)] *)
Definition Atoi (s : bytes) : option Z := ParseInt 64 s.

(** [hash := fnv.New32a(); hash.Write(data); hash.Sum32()] *)
Definition fnv32a (data : bytes) : Z :=
  foldl (λ h c, u32 (Z.lxor h (Z_of_byte c) * 16777619)) 2166136261 data.

(** FNV-1a of the empty string, of "a" and of "foobar". *)
Example fnv32a_ex : fnv32a [] = 0x811c9dc5 ∧ fnv32a (str "a") = 0xe40c292c ∧ fnv32a (str "foobar") = 0xbf9cf968.
Proof. vm_compute. done. Qed.

Lemma fnv32a_range data : is_u32 (fnv32a data).
Proof.
  unfold fnv32a. destruct data as [|c data] using rev_ind; [simpl; unfold is_u32; lia|].
  rewrite foldl_app. apply u32_range.
Qed.

(** ** Addresses *)

(** [strings.LastIndexByte(s, c)], -1 when there is none. *)
Definition LastIndexByte (s : bytes) (c : byte) : Z :=
  let i := IndexByte (reverse s) c in
  if i <? 0 then -1 else zlen s - 1 - i.

Definition addrErr (hostport : bytes) (why : string) : goerr := EMsg ("address %s: " ++ why) [AStr hostport].

(** [net.SplitHostPort(hostport)] *)
Definition SplitHostPort (hostport : bytes) : (bytes * bytes) + goerr :=
  let i := LastIndexByte hostport Byte.x3a in
  if i <? 0 then inr (addrErr hostport "missing port in address")
  else
    let tail (host : bytes) (j k : Z) :=
      if 0 <=? IndexByte (zdrop j hostport) Byte.x5b then inr (addrErr hostport "unexpected '[' in address")
      else if 0 <=? IndexByte (zdrop k hostport) Byte.x5d then inr (addrErr hostport "unexpected ']' in address")
      else inl (host, zdrop (i + 1) hostport) in
    if decide (head hostport = Some Byte.x5b) then
      let end_ := IndexByte hostport Byte.x5d in
      if end_ <? 0 then inr (addrErr hostport "missing ']' in address")
      else if end_ + 1 =? zlen hostport then inr (addrErr hostport "missing port in address")
      else if end_ + 1 =? i then tail (zsub 1 end_ hostport) 1 (end_ + 1)
      else if decide (zlookup hostport (end_ + 1) = Some Byte.x3a)
      then inr (addrErr hostport "too many colons in address")
      else inr (addrErr hostport "missing port in address")
    else
      let host := zsub 0 i hostport in
      if 0 <=? IndexByte host Byte.x3a then inr (addrErr hostport "too many colons in address")
      else tail host 0 0.

(** [net.JoinHostPort(host, port)] *)
Definition JoinHostPort (host port : bytes) : bytes :=
  if 0 <=? IndexByte host Byte.x3a then str "[" ++ host ++ str "]:" ++ port
  else host ++ str ":" ++ port.

Example SplitHostPort_ex :
  SplitHostPort (str "[::1]:80") = inl (str "::1", str "80") ∧ SplitHostPort (str ":80") = inl ([], str "80") ∧
  SplitHostPort (str "::1:80") = inr (addrErr (str "::1:80") "too many colons in address").
Proof. vm_compute. done. Qed.

(** ** Laws *)

Lemma Itoa_digits z : 0 ≤ z → Forall is_digit (Itoa z).
Proof. intros Hz. unfold Itoa. destruct (Z.ltb_spec z 0); [lia|]. apply FormatUint_digits. Qed.

(** A byte that is not a digit is not in a number. *)
Lemma digits_not_in c s : Forall is_digit s → Z_of_byte c < 48 ∨ 57 < Z_of_byte c → c ∉ s.
Proof. intros Hs Hc Hin. rewrite Forall_forall in Hs. specialize (Hs c Hin). unfold is_digit in Hs. lia. Qed.

Lemma ParseInt_Itoa bits z : 1 ≤ bits ≤ 64 → - 2 ^ (bits - 1) ≤ z < 2 ^ (bits - 1) → ParseInt bits (Itoa z) = Some z.
Proof.
  intros Hb Hz. assert (2 ^ (bits - 1) ≤ 2 ^ 63) by (apply Z.pow_le_mono_r; lia).
  pose proof (Itoa_digits z) as Hd. unfold Itoa in *. destruct (Z.ltb_spec z 0) as [Hneg|Hpos].
  - change (str "-" ++ FormatUint (- z)) with (Byte.x2d :: FormatUint (- z)). unfold ParseInt. rewrite bool_decide_eq_true_2 by done. cbn [orb negb andb].
    rewrite ParseUint_FormatUint by (unfold is_u64; lia). destruct (Z.ltb_spec (2 ^ (bits - 1)) (- z)); [lia|]. f_equal. lia.
  - pose proof (ParseUint_FormatUint z ltac:(unfold is_u64; lia)) as Hp. unfold ParseInt. specialize (Hd Hpos).
    destruct (FormatUint z) as [|c s] eqn:E; [by destruct (FormatUint_nonempty z)|].
    apply Forall_cons in Hd as [Hc _].
    rewrite (bool_decide_eq_false_2 (c = Byte.x2d)) by (intros ->; destruct Hc as [Hc _]; vm_compute in Hc; by apply Hc).
    rewrite (bool_decide_eq_false_2 (c = Byte.x2b)) by (intros ->; destruct Hc as [Hc _]; vm_compute in Hc; by apply Hc).
    cbn [orb negb andb]. rewrite Hp. by destruct (Z.leb_spec (2 ^ (bits - 1)) z); [lia|].
Qed.

Lemma Atoi_Itoa z : is_i64 z → Atoi (Itoa z) = Some z.
Proof. intros Hz. apply ParseInt_Itoa; [lia|]. unfold is_i64 in Hz. simpl. lia. Qed.

Lemma Itoa_nonempty z : Itoa z ≠ [].
Proof. unfold Itoa. destruct (Z.ltb_spec z 0); [done|apply FormatUint_nonempty]. Qed.

Lemma LastIndexByte_app s1 s2 c : c ∉ s2 → LastIndexByte (s1 ++ c :: s2) c = zlen s1.
Proof.
  intros Hc. unfold LastIndexByte. rewrite reverse_app, reverse_cons, <-app_assoc. cbn [app].
  rewrite IndexByte_app by by rewrite elem_of_reverse. rewrite length_reverse.
  destruct (Z.ltb_spec (zlen s2) 0); [lia|]. rewrite length_app, length_cons. lia.
Qed.

Lemma IndexByte_found s1 s2 c : c ∉ s1 → 0 <=? IndexByte (s1 ++ c :: s2) c = true.
Proof. intros. rewrite IndexByte_app by done. apply Z.leb_le. lia. Qed.

Lemma IndexByte_absent s c : c ∉ s → 0 <=? IndexByte s c = false.
Proof. intros. by rewrite IndexByte_None. Qed.

(** A host without brackets, and a port that is a number. *)
Definition host_ok (host : bytes) : Prop := Byte.x5b ∉ host ∧ Byte.x5d ∉ host.

Lemma IndexByte_cases s c : c ∈ s → 0 <=? IndexByte s c = true.
Proof.
  intros (s1 & s2 & -> & Hc)%list_elem_of_split_l. by apply IndexByte_found.
Qed.

Lemma SplitHostPort_JoinHostPort host port :
  host_ok host → Forall is_digit port → SplitHostPort (JoinHostPort host port) = inl (host, port).
Proof.
  intros [Hl Hr] Hp.
  assert (Hpc : Byte.x3a ∉ port) by (apply digits_not_in; [done|right; by vm_compute]).
  assert (Hpl : Byte.x5b ∉ port) by (apply digits_not_in; [done|right; by vm_compute]).
  assert (Hpr : Byte.x5d ∉ port) by (apply digits_not_in; [done|right; by vm_compute]).
  unfold JoinHostPort. destruct (decide (Byte.x3a ∈ host)) as [Hc|Hc].
  - rewrite IndexByte_cases by done. unfold SplitHostPort.
    set (hp := str "[" ++ host ++ str "]:" ++ port).
    assert (E1 : hp = ([Byte.x5b] ++ host ++ [Byte.x5d]) ++ Byte.x3a :: port) by (unfold hp; simpl; by rewrite <-app_assoc).
    assert (E2 : hp = ([Byte.x5b] ++ host) ++ Byte.x5d :: Byte.x3a :: port) by done.
    assert (Hi : LastIndexByte hp Byte.x3a = zlen host + 2) by (rewrite E1, LastIndexByte_app by done; rewrite !length_app; simpl; lia).
    assert (He : IndexByte hp Byte.x5d = zlen host + 1).
    { rewrite E2, IndexByte_app by (apply not_elem_of_app; split; [|done]; by intros ?%list_elem_of_singleton). rewrite length_app. simpl. lia. }
    assert (Hlen : zlen hp = zlen host + 3 + zlen port) by (unfold hp; rewrite !length_app; simpl; lia).
    rewrite Hi, He, Hlen. destruct (Z.ltb_spec (zlen host + 2) 0), (Z.ltb_spec (zlen host + 1) 0); try lia.
    rewrite decide_True by done. destruct (Z.eqb_spec (zlen host + 1 + 1) (zlen host + 3 + zlen port)); [lia|].
    destruct (Z.eqb_spec (zlen host + 1 + 1) (zlen host + 2)); [|lia].
    assert (D1 : zdrop 1 hp = host ++ Byte.x5d :: Byte.x3a :: port) by done.
    assert (D2 : zdrop (zlen host + 1 + 1) hp = Byte.x3a :: port).
    { unfold zdrop. rewrite E1, drop_app_length' by (rewrite !length_app; simpl; lia). done. }
    assert (D3 : zdrop (zlen host + 2 + 1) hp = port).
    { unfold zdrop. replace hp with (([Byte.x5b] ++ host ++ [Byte.x5d; Byte.x3a]) ++ port) by (unfold hp; simpl; by rewrite <-app_assoc).
      by rewrite drop_app_length' by (rewrite !length_app; simpl; lia). }
    rewrite D1, D2, D3, !IndexByte_absent.
    + f_equal. f_equal. unfold hp. apply (zsub_app_exact [Byte.x5b]); simpl; lia.
    + apply not_elem_of_cons. split; [done|done].
    + rewrite not_elem_of_app, !not_elem_of_cons. split_and!; done.
  - rewrite IndexByte_absent by done. unfold SplitHostPort. set (hp := host ++ str ":" ++ port).
    assert (Hi : LastIndexByte hp Byte.x3a = zlen host) by by apply LastIndexByte_app.
    rewrite Hi. destruct (Z.ltb_spec (zlen host) 0); [lia|]. rewrite decide_False.
    2: { unfold hp. destruct host as [|c host]; [done|]. intros [= ->]. by apply Hl, list_elem_of_here. }
    assert (D1 : zsub 0 (zlen host) hp = host) by (apply (zsub_app_exact []); simpl; lia).
    assert (D2 : zdrop (zlen host + 1) hp = port).
    { unfold zdrop, hp. rewrite app_assoc, drop_app_length' by (rewrite length_app; simpl; lia). done. }
    rewrite D1, D2, IndexByte_absent by done. change (zdrop 0 hp) with hp. unfold hp.
    rewrite !IndexByte_absent; [done|..]; rewrite !not_elem_of_app; (split_and!; [done|by intros ?%list_elem_of_singleton|done]).
Qed.
