(* ===== verification/Frame.v ===== *)
(** * What a log leaves alone

    Every operation of a log writes only to files of its own directory and to
    files it creates: the other directories, and the contents of their files,
    are as before.  This is what lets the logs of a broker be reasoned about
    one at a time. *)

From S2P Require Import Prelude GoNum OS Snappy Segment Log.

(** ** Invariants of runs

    [keeps P T R m]: from a state with [P], [m] ends in a state with [P] that is
    related to the first one by [T], and a value it returns satisfies [R]; it
    may also fail or panic. *)

Definition keeps {X A} (P : X → Prop) (T : X → X → Prop) (R : A → Prop) (m : GoM X A) : Prop :=
  ∀ x, P x → P (m x).2 ∧ T x (m x).2 ∧ ∀ a, (m x).1 = Ok a → R a.

Abbreviation any := (λ _, True).

Section keeps.
Context {X : Type} (P : X → Prop) (T : X → X → Prop) `{!PreOrder T}.

Lemma keeps_pure {A} (R : A → Prop) (m : GoM X A) :
  (∀ x, (m x).2 = x) → (∀ x a, P x → (m x).1 = Ok a → R a) → keeps P T R m.
Proof. intros Hm HR x Hx. rewrite Hm. split_and!; [done..|]. intros a. by apply HR. Qed.

Lemma keeps_ret {A} (R : A → Prop) a : R a → keeps P T R (mret a).
Proof. intros Ha. by apply keeps_pure; [|intros x b _ [= <-]]. Qed.

Lemma keeps_throw {A} (R : A → Prop) e : keeps P T R (throw e).
Proof. by apply keeps_pure. Qed.

Lemma keeps_panic {A} (R : A → Prop) : keeps P T R panic.
Proof. by apply keeps_pure. Qed.

Lemma keeps_get (R : X → Prop) : (∀ x, P x → R x) → keeps P T R get_st.
Proof. intros H. apply keeps_pure; [done|]. intros x a Hx [= <-]. auto. Qed.

Lemma keeps_modify (R : unit → Prop) f : (∀ x, P x → P (f x) ∧ T x (f x)) → R tt → keeps P T R (modify_st f).
Proof. intros Hf HR x Hx. destruct (Hf x Hx). split_and!; [done..|]. by intros [] _. Qed.

Lemma keeps_bind {A B} (R1 : A → Prop) (R2 : B → Prop) (m : GoM X A) (f : A → GoM X B) :
  keeps P T R1 m → (∀ a, R1 a → keeps P T R2 (f a)) → keeps P T R2 (m ≫= f).
Proof.
  intros Hm Hf x Hx. destruct (Hm x Hx) as (HP & HT & HR). unfold mbind, gom_bind.
  destruct (m x) as [[a|e|] x1]; simpl in *; [|done..].
  destruct (Hf a (HR a eq_refl) x1 HP) as (HP2 & HT2 & HR2). split_and!; [done| |done]. by etrans.
Qed.

Lemma keeps_attempt {A} (R : A → Prop) (R' : A + goerr → Prop) (m : GoM X A) :
  keeps P T R m → (∀ a, R a → R' (inl a)) → (∀ e, R' (inr e)) → keeps P T R' (attempt m).
Proof.
  intros Hm Hl Hr x Hx. destruct (Hm x Hx) as (HP & HT & HR). unfold attempt.
  destruct (m x) as [[a|e|] x1]; simpl in *; split_and!; try done; intros r [= <-]; auto.
Qed.

Lemma keeps_ignore {A} (R : A → Prop) (R' : unit → Prop) (m : GoM X A) :
  keeps P T R m → R' tt → keeps P T R' (ignore m).
Proof.
  intros Hm HR. unfold ignore. eapply keeps_bind; [by eapply (keeps_attempt _ any)|]. intros _ _. by apply keeps_ret.
Qed.

Lemma keeps_on_error {A} (R : A → Prop) (m : GoM X A) h :
  keeps P T R m → keeps P T any h → keeps P T R (on_error m h).
Proof.
  intros Hm Hh. unfold on_error.
  eapply (keeps_bind (λ r, match r with inl a => R a | inr _ => True end)).
  - by eapply keeps_attempt.
  - intros [a|e] Ha; [by apply keeps_ret|]. eapply keeps_bind; [done|]. intros. apply keeps_throw.
Qed.

Lemma keeps_wrap_error {A} (R : A → Prop) f (m : GoM X A) : keeps P T R m → keeps P T R (wrap_error f m).
Proof. intros Hm x Hx. destruct (Hm x Hx) as (HP & HT & HR). unfold wrap_error. by destruct (m x) as [[] ?]. Qed.

Lemma keeps_weaken {A} (R R' : A → Prop) (m : GoM X A) : (∀ a, R a → R' a) → keeps P T R m → keeps P T R' m.
Proof. intros H Hm x Hx. destruct (Hm x Hx) as (HP & HT & HR). naive_solver. Qed.

Lemma keeps_err_of {A} (R : A → Prop) (m : GoM X A) : keeps P T R m → keeps P T any (err_of m).
Proof. intros Hm. unfold err_of. eapply keeps_bind; [by eapply (keeps_attempt R any)|]. intros. by apply keeps_ret. Qed.
End keeps.

(** The rules, with their instances found. *)
Tactic Notation "k_bind" uconstr(R) := lazymatch goal with |- keeps ?P ?T _ _ => eapply (keeps_bind P T R) end.
Ltac k_bind' := lazymatch goal with |- keeps ?P ?T _ _ => eapply (keeps_bind P T) end.
Ltac k_ret := lazymatch goal with |- keeps ?P ?T _ _ => apply (keeps_ret P T) end.
Ltac k_modify := lazymatch goal with |- keeps ?P ?T _ _ => apply (keeps_modify P T) end.
Ltac k_on_error := lazymatch goal with |- keeps ?P ?T _ _ => apply (keeps_on_error P T) end.
Ltac k_ignore := lazymatch goal with |- keeps ?P ?T _ _ => eapply (keeps_ignore P T any); [|done] end.
Ltac k_pure := lazymatch goal with |- keeps ?P ?T _ _ => apply (keeps_pure P T) end.
Ltac k_end :=
  lazymatch goal with
  | |- keeps ?P ?T _ (mret _) => apply (keeps_ret P T); done
  | |- keeps ?P ?T _ (throw _) => apply (keeps_throw P T)
  | |- keeps ?P ?T _ panic => apply (keeps_panic P T)
  end.

(** ** One directory *)

Section dir.
Context (dir : bytes) (I : nat → Prop).

(** The files of the directory, and those to come, are in [I]. *)
Definition inside (w : world) : Prop :=
  (∀ i, (w_next w ≤ i)%nat → I i) ∧
  (∀ name i, entries w dir !! name = Some (EFile i) → I i ∧ (i < w_next w)%nat).

Definition frames (w w' : world) : Prop :=
  (∀ d, d ≠ dir → w_dirs w' !! d = w_dirs w !! d) ∧
  (∀ i, ¬ I i → w_data w' !! i = w_data w !! i) ∧
  (w_next w ≤ w_next w')%nat ∧ (reliable w → reliable w').

#[global] Instance frames_preorder : PreOrder frames.
Proof.
  split.
  - intros w. by split_and!.
  - intros w1 w2 w3 (D1 & C1 & N1 & F1) (D2 & C2 & N2 & F2). split_and!; [| |lia|auto].
    + intros d Hd. by rewrite D2, D1.
    + intros i Hi. by rewrite C2, C1.
Qed.

Abbreviation fkeeps := (keeps inside frames).

Lemma inside_faults l w : inside w → inside (set_faults l w).
Proof. done. Qed.

Lemma frames_tail l w : w_faults w ≠ [] → frames w (set_faults l w).
Proof. intros Hw. by split_and!. Qed.

Lemma fk_next_fault : fkeeps any next_fault.
Proof.
  intros w Hw. unfold next_fault. destruct (w_faults w) as [|f l] eqn:E; simpl; [done|].
  split_and!; [done| |done]. apply frames_tail. by rewrite E.
Qed.

Lemma fk_sys {A} (R : A → Prop) (m : GoM world A) : fkeeps R m → fkeeps R (sys m).
Proof.
  intros Hm. unfold sys. k_bind'; [apply fk_next_fault|].
  intros [|n e|n] _; [done|k_end|done].
Qed.

(** Directory changes. *)
Lemma entries_set_entry d n e w d' :
  entries (set_entry d n e w) d' = if decide (d' = d) then <[n := e]> (entries w d) else entries w d'.
Proof.
  unfold entries at 1, set_entry. simpl. case_decide as Hd; [subst; by rewrite lookup_insert_eq|].
  by rewrite lookup_insert_ne.
Qed.

Lemma fk_MkdirAll : fkeeps any (os_MkdirAll dir).
Proof.
  apply fk_sys; k_modify; [|done]. intros w [H1 H2].
  destruct (w_dirs w !! dir) eqn:Hd; [split; [done|reflexivity]|]. split.
  - split; [done|]. intros name i. unfold entries. simpl. rewrite lookup_insert_eq. simpl. by rewrite lookup_empty.
  - split_and!; try done. intros d Hne. simpl. by rewrite lookup_insert_ne.
Qed.

Lemma create_inside name w : inside w → inside (create_file dir name w) ∧ frames w (create_file dir name w).
Proof.
  intros [H1 H2]. split.
  - split; simpl; [intros i Hi; apply H1; lia|]. intros n i. unfold entries. simpl. rewrite lookup_insert_eq. simpl.
    intros [[<- [= <-]]|[_ Hn]]%lookup_insert_Some; [split; [apply H1; lia|lia]|].
    change (entries w dir !! n = Some (EFile i)) in Hn. destruct (H2 n i Hn). split; [done|lia].
  - split_and!; simpl; [| |lia|done].
    + intros d Hd. by rewrite lookup_insert_ne.
    + intros i Hi. rewrite lookup_insert_ne; [done|]. intros <-. apply Hi, H1. lia.
Qed.

Definition file_in (f : file) : Prop := I (f_ino f).

Lemma fk_OpenAppend name : fkeeps file_in (os_OpenAppend dir name).
Proof.
  apply fk_sys. intros w Hw. destruct (w_dirs w !! dir) as [ents|] eqn:Hd; [|by split_and!].
  destruct (ents !! name) as [[i|]|] eqn:He; [|by split_and!|].
  - split_and!; [done..|]. intros f [= <-]. apply (proj2 Hw name i). unfold entries. by rewrite Hd.
  - destruct (create_inside name w Hw) as [Hc Hf]. split_and!; [done..|]. intros f [= <-]. apply (proj1 Hw). simpl. lia.
Qed.

(** What only looks. *)
Lemma fk_reader {A} (m : GoM world A) : (∀ w, (m w).2 = w) → fkeeps any (sys m).
Proof. intros H. apply fk_sys. by k_pure. Qed.

Lemma fk_Open name : fkeeps any (os_Open dir name).
Proof. apply fk_reader. intros w. by repeat case_match. Qed.

Lemma fk_Stat name : fkeeps any (os_Stat dir name).
Proof. apply fk_reader. intros w. by repeat case_match. Qed.

Lemma fk_ReadDir : fkeeps any (os_ReadDir dir).
Proof. apply fk_reader. intros w. by repeat case_match. Qed.

Lemma fk_Remove name : fkeeps any (os_Remove dir name).
Proof.
  apply fk_sys. intros w [H1 H2]. destruct (entries w dir !! name) as [[i|]|] eqn:He; [|by split_and!..].
  split_and!; [| |done].
  - split; [done|]. intros n j. unfold del_entry, entries. simpl. rewrite lookup_insert_eq. simpl.
    intros [_ Hn]%lookup_delete_Some. by apply (H2 n).
  - split_and!; try done. intros d Hd. simpl. by rewrite lookup_insert_ne.
Qed.

Lemma fk_check_valid f : fkeeps (λ i, ∃ h, f = Some h ∧ i = f_ino h) (check_valid f).
Proof. destruct f as [h|]; simpl; [|k_end]. k_ret; eauto. Qed.

Lemma append_frames i data w : I i → inside w → inside (append_data i data w) ∧ frames w (append_data i data w).
Proof.
  intros Hi Hw. split; [done|]. split_and!; try done. intros j Hj. simpl. rewrite lookup_insert_ne; [done|].
  by intros <-.
Qed.

Definition handle_in (f : option file) : Prop := ∀ h, f = Some h → I (f_ino h).

Lemma fk_Write f data : handle_in f → fkeeps any (file_Write f data).
Proof.
  intros Hf. unfold file_Write. k_bind'; [apply fk_check_valid|].
  intros i (h & Hh & ->). pose proof (Hf h Hh) as Hi.
  k_bind'; [apply fk_next_fault|]. intros [|n e|n] _.
  all: (k_bind any; [k_modify; [intros w Hw; by apply append_frames|done]|]);
    intros _ _; first [k_end|k_end].
Qed.

Lemma fk_ReadAt f n off : fkeeps any (file_ReadAt f n off).
Proof.
  unfold file_ReadAt. k_bind'; [apply fk_check_valid|]. intros i _.
  repeat case_match; [k_end|k_end|]. apply fk_reader. intros w. by repeat case_match.
Qed.

Lemma fk_handle_op f : fkeeps any (_ ← check_valid f; sys (mret tt)).
Proof. k_bind'; [apply fk_check_valid|]. intros. by apply fk_reader. Qed.

Lemma fk_Size f : fkeeps any (file_Stat f).
Proof. k_bind'; [apply fk_check_valid|]. intros. by apply fk_reader. Qed.

Lemma fk_Close f : fkeeps any (file_Close f).
Proof. apply fk_handle_op. Qed.

Lemma fk_Sync f : fkeeps any (file_Sync f).
Proof. apply fk_handle_op. Qed.
End dir.

#[export] Hint Resolve fk_MkdirAll fk_Open fk_Stat fk_ReadDir fk_Remove fk_ReadAt fk_Size fk_Close fk_Sync : frame.

(** One step into a piece of code whose values do not matter. *)
Ltac fk_step :=
  lazymatch goal with
  | |- keeps _ _ _ (mret _) => k_end
  | |- keeps _ _ _ (throw _) => k_end
  | |- keeps _ _ _ panic => k_end
  | |- keeps _ _ _ (attempt _) => lazymatch goal with |- keeps ?P ?T _ _ => eapply (keeps_attempt P T any); [|done..] end
  | |- keeps _ _ _ (ignore _) => k_ignore
  | |- keeps _ _ _ (on_error _ _) => k_on_error
  | |- keeps _ _ _ (wrap_error _ _) => lazymatch goal with |- keeps ?P ?T _ _ => apply (keeps_wrap_error P T) end
  | |- keeps _ _ _ (err_of _) => lazymatch goal with |- keeps ?P ?T _ _ => eapply (keeps_err_of P T any) end
  | |- keeps _ _ _ (_ ≫= _) => k_bind any; [ |intros ? _]
  | |- keeps _ _ _ (match ?x with _ => _ end) => destruct x
  | |- keeps _ _ _ (let _ := _ in _) => cbv zeta
  end.
Ltac fk := repeat (first [solve [auto with frame] | fk_step]).

Section segment.
Context (dir : bytes) (I : nat → Prop).
Abbreviation fkeeps := (keeps (inside dir I) (frames dir I)).

(** ** Segments *)

(** The segment writes to files in [I]. *)
Definition seg_in (s : Segment) : Prop :=
  s_dir s = dir ∧ handle_in I (s_logFile s) ∧ handle_in I (s_indexWrite s).

Definition seg_inside (x : Segment * world) : Prop := seg_in x.1 ∧ inside dir I x.2.
Definition seg_frames (x y : Segment * world) : Prop := frames dir I x.2 y.2.

#[global] Instance seg_frames_preorder : PreOrder seg_frames.
Proof. split; [intros x; apply frames_preorder|intros x y z; apply frames_preorder]. Qed.

Abbreviation skeeps := (keeps seg_inside seg_frames).

Lemma sk_lift {A} (R : A → Prop) (m : GoM world A) : fkeeps R m → skeeps R (lift_snd m).
Proof.
  intros Hm [s w] [Hs Hw]. destruct (Hm w Hw) as (HP & HT & HR). unfold lift_snd.
  destruct (m w) as [r w']; simpl in *. by split_and!.
Qed.

Lemma sk_get : skeeps seg_inside get_st.
Proof. by apply (keeps_get seg_inside seg_frames). Qed.

Lemma sk_modify (f : Segment → Segment) :
  (∀ s, seg_in s → seg_in (f s)) → skeeps any (modify_st (λ '(s, w), (f s, w))).
Proof. intros Hf. k_modify; [|done]. intros [s w] [Hs Hw]. split; [split; [by apply Hf|done]|]. apply (reflexivity (R := frames dir I)). Qed.

Lemma fk_on_local {A} (R : A → Prop) s (m : GoM (Segment * world) A) : seg_in s → skeeps R m → fkeeps R (on_local s m).
Proof.
  intros Hs Hm w Hw. destruct (Hm (s, w) (conj Hs Hw)) as ([_ HP] & HT & HR). unfold on_local.
  by destruct (m (s, w)) as [r [s' w']].
Qed.

Lemma fk_writeAll f data : handle_in I f → fkeeps any (writeAll f data).
Proof.
  intros Hf. unfold writeAll. generalize (length data) as fuel. intros fuel. revert data.
  induction fuel as [|fuel IH]; intros data; destruct data; simpl; fk.
  by apply fk_Write.
Qed.

Lemma sk_Close : skeeps any Segment_Close.
Proof.
  unfold Segment_Close. k_bind'; [apply sk_get|]. intros [s w] [Hs _].
  assert (Hc : ∀ b f, skeeps any (lift_snd (close_file b f))).
  { intros b f. apply sk_lift. destruct f, b; simpl; fk. }
  do 4 (k_bind any; [apply Hc|]; intros ? _).
  k_bind any; [apply sk_modify|].
  { intros s' (Hd & _). by split_and!. }
  intros _ _. destruct (first_error _); fk.
Qed.

Lemma fk_remove_if_exists name : fkeeps any (remove_if_exists dir name).
Proof. unfold remove_if_exists. fk. Qed.

Lemma sk_Delete : skeeps any Segment_Delete.
Proof.
  unfold Segment_Delete. k_bind any; [apply sk_Close|]. intros _ _.
  k_bind'; [apply sk_get|]. intros [s w] [(Hd & _) _]. simpl in Hd. rewrite Hd.
  k_bind any; [apply sk_lift, fk_remove_if_exists|intros _ _].
  apply sk_lift, fk_remove_if_exists.
Qed.

(** ** Appending to a segment *)

(** Code that does not touch the state. *)
Definition untouched {S A} (m : GoM S A) : Prop := ∀ s, (m s).2 = s.

Lemma untouched_bind {S A B} (m : GoM S A) (f : A → GoM S B) :
  untouched m → (∀ a, untouched (f a)) → untouched (m ≫= f).
Proof.
  intros Hm Hf s. specialize (Hm s). unfold mbind, gom_bind. destruct (m s) as [[a|e|] s1]; simpl in *; subst; [apply Hf|done..].
Qed.

Lemma untouched_put_at {S} off data buf : untouched (put_at (S := S) off data buf).
Proof. intros s. unfold put_at. by case_match. Qed.

Lemma untouched_fill {S} ps lb ib lo io pos off : untouched (fill_batch (S := S) ps lb ib lo io pos off).
Proof.
  revert lb ib lo io pos off. induction ps as [|p ps IH]; intros; [done|]. cbn [fill_batch].
  do 7 (apply untouched_bind; [apply untouched_put_at|intros ?]). apply untouched_bind; [apply IH|]. by intros [[[] ] ].
Qed.

Lemma sk_untouched {A} (m : GoM (Segment * world) A) : untouched m → skeeps any m.
Proof. intros Hm. by k_pure. Qed.

Context `{SN : Snappy}.

Lemma untouched_compress {S} c p : untouched (compress (S := S) c p).
Proof. intros s. unfold compress. by repeat case_match. Qed.

Lemma untouched_prepare {S} c rs ts tl : untouched (prepare_batch (S := S) c rs ts tl).
Proof.
  revert ts tl. induction rs as [|r rs IH]; intros; [done|]. cbn [prepare_batch]. repeat (case_match; [done|]).
  apply untouched_bind; [apply untouched_compress|intros p]. apply untouched_bind; [apply IH|]. by intros [[] ].
Qed.

Lemma sk_write f data : handle_in I f → skeeps any (lift_snd (writeAll f data)).
Proof. intros Hf. by apply sk_lift, fk_writeAll. Qed.

Lemma seg_in_advance n wr k s : seg_in s → seg_in (advance n wr k s).
Proof. done. Qed.

Lemma sk_Append ts key value : skeeps any (Segment_Append ts key value).
Proof.
  unfold Segment_Append. repeat (case_match; [k_end|]).
  k_bind'; [apply sk_get|]. intros [s w] [(Hd & Hl & Hi) _]. simpl in Hl, Hi.
  k_bind any; [apply sk_untouched, untouched_compress|intros payload _].
  do 3 (k_bind any; [by apply sk_write|intros _ _]).
  k_bind any; [by apply sk_modify|]. intros _ _. k_end.
Qed.

Lemma sk_AppendBatch records : skeeps any (Segment_AppendBatch records).
Proof.
  unfold Segment_AppendBatch. case_match; [k_end|].
  k_bind'; [apply sk_get|]. intros [s w] [(Hd & Hl & Hi) _]. simpl in Hl, Hi.
  k_bind any; [apply sk_untouched, untouched_prepare|intros [[ps saved] total] _].
  k_bind any; [apply sk_untouched, untouched_fill|intros [[[lb ib] offs] off] _].
  do 2 (k_bind any; [by apply sk_write|intros _ _]).
  k_bind any; [by apply sk_modify|]. intros _ _. k_end.
Qed.

(** ** Reading *)

Lemma fk_readIndexEntry s pos : fkeeps any (readIndexEntry s pos).
Proof. unfold readIndexEntry. fk. Qed.

Lemma fk_NewestTimestamp s : fkeeps any (NewestTimestamp s).
Proof. unfold NewestTimestamp, readIndexPosition, readIndexEntry. fk. Qed.

(** ** Opening *)

Lemma fk_drop f : fkeeps any (drop_file f).
Proof. unfold drop_file. fk. Qed.

Lemma fk_init base lf lr iw ir :
  file_in I lf → file_in I iw → fkeeps seg_in (init_segment dir base lf lr iw ir).
Proof.
  intros Hlf Hiw. unfold init_segment. pose proof fk_drop.
  assert (Hseg : ∀ n e next, seg_in (set_nextOffset next (mkSegment dir base base n e false (Some lf) (Some lr) (Some iw) (Some ir)))).
  { intros. split_and!; [done| |]; by intros h [= <-]. }
  assert (Hclose : ∀ n e, fkeeps any (ignore (on_local (mkSegment dir base base n e false (Some lf) (Some lr) (Some iw) (Some ir)) Segment_Close))).
  { intros n e. k_ignore. apply fk_on_local, sk_Close. apply (Hseg n e base). }
  k_bind any; [fk|intros n _]. k_bind any; [fk|intros m _].
  case_match; [fk|]. k_bind seg_in; [ |].
  - case_match; [|k_ret; apply (Hseg _ _ base)].
    k_bind any; [ |intros o _; k_ret; apply Hseg].
    k_on_error; [|apply Hclose]. unfold readIndexOffset, readIndexEntry. fk.
  - intros s Hs. repeat case_match; [..|by k_ret].
    all: k_bind any; [apply Hclose|intros; k_end].
Qed.

Lemma fk_NewSegment base : fkeeps seg_in (NewSegment dir base).
Proof.
  unfold NewSegment. pose proof fk_drop.
  k_bind any; [fk|intros _ _].
  k_bind'; [apply fk_OpenAppend|intros lf Hlf].
  k_bind any; [fk|intros lr _].
  k_bind'; [k_on_error; [apply fk_OpenAppend|fk]|intros iw Hiw].
  k_bind any; [fk|intros ir _]. by apply fk_init.
Qed.
End segment.

Section log.
Context (dir : bytes) (I : nat → Prop).
Abbreviation fkeeps := (keeps (inside dir I) (frames dir I)).
Abbreviation skeeps := (keeps (seg_inside dir I) (seg_frames dir I)).

(** ** Logs *)

Definition log_in (l : Log) : Prop := l_dir l = dir ∧ Forall (seg_in dir I) (l_segments l).
Definition log_inside (x : Log * world) : Prop := log_in x.1 ∧ inside dir I x.2.
Definition log_frames (x y : Log * world) : Prop := frames dir I x.2 y.2.

#[global] Instance log_frames_preorder : PreOrder log_frames.
Proof. split; [intros x; apply frames_preorder|intros x y z; apply frames_preorder]. Qed.

Abbreviation lkeeps := (keeps log_inside log_frames).

Lemma lk_lift {A} (R : A → Prop) (m : GoM world A) : fkeeps R m → lkeeps R (lift_snd m).
Proof.
  intros Hm [l w] [Hl Hw]. destruct (Hm w Hw) as (HP & HT & HR). unfold lift_snd.
  destruct (m w) as [r w']; simpl in *. by split_and!.
Qed.

Lemma lk_get : lkeeps log_inside get_st.
Proof. by apply (keeps_get log_inside log_frames). Qed.

Lemma lk_modify (f : Log → Log) :
  (∀ l, log_in l → log_in (f l)) → lkeeps any (modify_st (λ '(l, w), (f l, w))).
Proof.
  intros Hf. k_modify; [|done]. intros [l w] [Hl Hw]. split; [split; [by apply Hf|done]|].
  apply (reflexivity (R := frames dir I)).
Qed.

Lemma lk_on_segment {A} (R : A → Prop) i (m : GoM (Segment * world) A) : skeeps R m → lkeeps R (on_segment i m).
Proof.
  intros Hm [l w] [[Hd Hl] Hw]. unfold on_segment. simpl in *. destruct (l_segments l !! i) as [s|] eqn:Hs.
  - destruct (Hm (s, w)) as ([Hs' HP] & HT & HR); [split; [by eapply Forall_lookup_1|done]|].
    destruct (m (s, w)) as [r [s' w']]; simpl in *. split_and!; [split; [split; simpl; [done|]|done]|done|done].
    by apply Forall_insert.
  - split_and!; [done|apply (reflexivity (R := frames dir I))|done].
Qed.

Lemma lk_segment_at l i : log_in l → lkeeps (seg_in dir I) (segment_at l i).
Proof.
  intros [_ Hl]. unfold segment_at. destruct (l_segments l !! i) as [s|] eqn:Hs; [|k_end].
  k_ret. by eapply Forall_lookup_1.
Qed.

Lemma log_in_set_segments l segs : log_in l → Forall (seg_in dir I) segs → log_in (set_segments segs l).
Proof. intros [Hd _] H. by split. Qed.

Context `{SN : Snappy}.

Lemma lk_roll active next : lkeeps any (roll_if_full active next).
Proof.
  unfold roll_if_full. k_bind'; [apply lk_get|]. intros [l w] [Hl _]. simpl in Hl.
  k_bind'; [by apply lk_segment_at|]. intros s _. case_match; [|k_end].
  k_bind'; [apply lk_lift; rewrite (proj1 Hl); apply fk_NewSegment|]. intros s' Hs'.
  apply lk_modify. intros l1 [Hd1 Hl1]. split; [done|]. simpl. apply Forall_app_2; [done|].
  by apply Forall_singleton.
Qed.

Lemma lk_report saved : lkeeps any (report_saved saved).
Proof. apply lk_modify. intros l Hl. by case_match. Qed.

Lemma lk_Append ts key value : lkeeps any (Log_Append ts key value).
Proof.
  unfold Log_Append, appendLocked. k_bind'; [apply lk_get|]. intros [l w] _. case_match; [k_end|].
  k_bind any; [apply lk_on_segment, sk_Append|intros [offset saved] _].
  k_bind any; [apply lk_report|intros _ _]. k_bind any; [apply lk_roll|intros _ _]. k_end.
Qed.

Lemma lk_AppendBatch records : lkeeps any (Log_AppendBatch records).
Proof.
  unfold Log_AppendBatch. destruct records as [|r0 rs]; [k_end|]. k_bind'; [apply lk_get|]. intros [l w] _. case_match; [k_end|].
  k_bind any; [apply lk_on_segment, sk_AppendBatch|intros [offsets saved] _].
  k_bind any; [apply lk_report|intros _ _]. k_bind any; [fk; apply lk_roll|]. intros r _. case_match; k_end.
Qed.

Lemma lk_close_segments i n e : lkeeps any (close_segments i n e).
Proof.
  revert i e. induction n as [|n IH]; intros i e; simpl; [k_end|].
  k_bind any; [fk; apply lk_on_segment, sk_Close|intros ? _]. apply IH.
Qed.

Lemma lk_Close : lkeeps any Log_Close.
Proof.
  unfold Log_Close. k_bind'; [apply lk_get|]. intros [l w] _.
  k_bind any; [apply lk_close_segments|intros e _]. case_match; k_end.
Qed.

Lemma lk_retention_loop fuel b ms cut total : lkeeps any (retention_loop fuel b ms cut total).
Proof.
  revert total. induction fuel as [|fuel IH]; intros total; simpl; (k_bind'; [apply lk_get|]); intros [l w] [Hl _];
    (case_match; [|k_end]); [k_end|].
  k_bind'; [by apply lk_segment_at|]. intros s _.
  k_bind any; [apply lk_lift; unfold should_remove; fk; apply fk_NewestTimestamp|intros rm _].
  case_match; [k_end|]. k_bind any; [fk; apply lk_on_segment, sk_Delete|intros _ _].
  k_bind any; [apply lk_modify|intros _ _; apply IH].
  intros l1 [Hd1 Hl1]. split; [done|]. by apply Forall_drop.
Qed.

Lemma lk_EnforceRetention b ms now : lkeeps any (EnforceRetention b ms now).
Proof.
  unfold EnforceRetention. k_bind'; [apply lk_get|]. intros [l w] _. do 2 (case_match; [k_end|]).
  apply lk_retention_loop.
Qed.

(** ** Opening a log *)

Lemma fk_scan_dir ents : fkeeps any (scan_dir dir ents).
Proof. induction ents as [|[name [i|]] ents IH]; simpl; fk. Qed.

Lemma fk_close_all segs : Forall (seg_in dir I) segs → fkeeps any (close_all segs).
Proof.
  induction 1 as [|s segs Hs _ IH]; simpl; [k_end|].
  k_bind any; [|by intros _ _]. k_ignore. apply fk_on_local, sk_Close. done.
Qed.

Lemma fk_open_segments c offsets acc :
  Forall (seg_in dir I) acc → fkeeps (Forall (seg_in dir I)) (open_segments dir c offsets acc).
Proof.
  revert acc. induction offsets as [|o offsets IH]; intros acc Hacc; simpl; [by k_ret|].
  k_bind'; [k_on_error; [apply fk_NewSegment|by apply fk_close_all]|]. intros s Hs. apply IH.
  apply Forall_app_2; [done|]. by apply Forall_singleton.
Qed.

Lemma link_in segs : Forall (seg_in dir I) segs → Forall (seg_in dir I) (link_segments segs).
Proof.
  induction 1 as [|s segs Hs Hsegs IH]; [constructor|]. simpl. destruct segs as [|s' segs]; [by apply Forall_singleton|].
  by apply Forall_cons_2.
Qed.

Lemma fk_NewLog max : fkeeps log_in (NewLog dir max).
Proof.
  unfold NewLog. case_match; [k_end|]. k_bind any; [fk|intros size _]. k_bind any; [fk|intros _ _].
  k_bind any; [fk|intros ents _]. k_bind any; [apply fk_scan_dir|intros offsets _].
  k_bind'; [apply (fk_open_segments _ _ []), Forall_nil, Logic.I|]. intros segs Hsegs.
  k_bind (Forall (seg_in dir I)); [destruct segs; [|by k_ret]|].
  - k_bind'; [apply fk_NewSegment|]. intros s Hs. k_ret. by apply Forall_singleton.
  - intros segs' Hsegs'. k_ret. split; [done|]. by apply link_in.
Qed.

(** The result of a method call on a log that is local to the caller. *)
Lemma lk_fk {A} (R : A → Prop) l (m : GoM (Log * world) A) : log_in l → lkeeps R m → fkeeps R (on_local l m).
Proof.
  intros Hl Hm w Hw. destruct (Hm (l, w) (conj Hl Hw)) as ([_ HP] & HT & HR). unfold on_local.
  by destruct (m (l, w)) as [r [l' w']].
Qed.
End log.
