(* ===== verification/LogFrame.v ===== *)
(** * Logs in different directories do not interfere *)

From S2P Require Import Prelude GoNum OS Snappy Segment SegmentRep SegmentRead SegmentOpen Log LogRep LogView Frame.

(** No file has two directories, and inodes are numbered in order. *)
Definition fs_ok (w : world) : Prop :=
  (∀ d n i, entries w d !! n = Some (EFile i) → (i < w_next w)%nat) ∧
  (∀ d d' n n' i, entries w d !! n = Some (EFile i) → entries w d' !! n' = Some (EFile i) → d = d').

(** The files of a directory and those to come. *)
Definition footprint (w : world) (dir : bytes) (i : nat) : Prop :=
  (w_next w ≤ i)%nat ∨ ∃ n, entries w dir !! n = Some (EFile i).

Lemma inside_footprint w dir : fs_ok w → inside dir (footprint w dir) w.
Proof. intros [H1 H2]. split; [by left|]. intros n i Hn. split; [right; eauto|by eapply H1]. Qed.

Lemma frames_entries dir I w w' d : frames dir I w w' → d ≠ dir → entries w' d = entries w d.
Proof. intros (Hd & _) Hne. unfold entries. by rewrite Hd. Qed.

Lemma footprint_other w dir d n i :
  fs_ok w → d ≠ dir → entries w d !! n = Some (EFile i) → ¬ footprint w dir i.
Proof. intros [H1 H2] Hne Hn [Hi|[n' Hn']]; [pose proof (H1 _ _ _ Hn); lia|]. by destruct Hne; eapply H2. Qed.

Lemma fs_ok_frames w w' dir :
  fs_ok w → inside dir (footprint w dir) w' → frames dir (footprint w dir) w w' → fs_ok w'.
Proof.
  intros Hok [I1 I2] F. pose proof F as (Fd & Fc & Fn & _). pose proof Hok as [H1 H2]. split.
  - intros d n i Hn. destruct (decide (d = dir)) as [->|Hne]; [by eapply I2|].
    rewrite (frames_entries _ _ _ _ _ F Hne) in Hn. pose proof (H1 _ _ _ Hn). lia.
  - intros d d' n n' i Hn Hn'. destruct (decide (d = dir)) as [->|Hne], (decide (d' = dir)) as [->|Hne']; [done|..].
    + rewrite (frames_entries _ _ _ _ _ F Hne') in Hn'. destruct (footprint_other _ _ _ _ _ Hok Hne' Hn').
      by apply (I2 n).
    + rewrite (frames_entries _ _ _ _ _ F Hne) in Hn. destruct (footprint_other _ _ _ _ _ Hok Hne Hn).
      by apply (I2 n').
    + rewrite (frames_entries _ _ _ _ _ F Hne) in Hn. rewrite (frames_entries _ _ _ _ _ F Hne') in Hn'. by eapply H2.
Qed.

Section logs.
Context `{SN : Snappy}.

Lemma dh_lookup w l gs i s g :
  dir_holds w l gs → l_segments l !! i = Some s → gs !! i = Some g →
  has_files w (l_dir l) (s_baseOffset s) (g_log g) (g_index g).
Proof. intros H Hs Hg. by eapply (Forall2_lookup_lr _ _ _ i s g (dh_files _ _ _ H)). Qed.

Lemma log_in_ok w l gs : log_ok w l gs → log_in (l_dir l) (footprint w (l_dir l)) l.
Proof.
  intros O. split; [done|]. apply Forall_lookup. intros i s Hs.
  destruct (lr_lookup _ _ _ (lv_rep _ _ _ (lo_view _ _ _ O)) _ _ Hs) as (g & Hg & R).
  destruct (dh_lookup _ _ _ _ _ _ (lo_dir _ _ _ O) Hs Hg) as [H1 H2].
  pose proof (Forall_lookup_1 _ _ _ _ (lr_dir _ _ _ (lv_rep _ _ _ (lo_view _ _ _ O))) Hs) as Hd. simpl in Hd.
  split_and!; [done| |]; intros h Hh.
  - rewrite (sr_logFile _ _ _ _ _ _ _ R) in Hh. injection Hh as <-. right. eauto.
  - rewrite (sr_indexWrite _ _ _ _ _ _ _ R) in Hh. injection Hh as <-. right. eauto.
Qed.

Lemma log_ok_frames w w' l gs dir :
  fs_ok w → log_ok w l gs → l_dir l ≠ dir → frames dir (footprint w dir) w w' → log_ok w' l gs.
Proof.
  intros Hok O Hne F. pose proof (frames_entries _ _ _ _ _ F Hne) as He. destruct F as (Fd & Fc & Fn & _).
  assert (Hdata : ∀ i s g, l_segments l !! i = Some s → gs !! i = Some g →
    w_data w' !! g_log g = w_data w !! g_log g ∧ w_data w' !! g_index g = w_data w !! g_index g).
  { intros i s g Hs Hg. destruct (dh_lookup _ _ _ _ _ _ (lo_dir _ _ _ O) Hs Hg) as [H1 H2].
    split; apply Fc; by eapply footprint_other. }
  destruct O as [V C D Fr]. destruct V as [R Dn Dc]. destruct R as [R1 R2 R3 R4 R5 R6 R7].
  split; [split; [split|..]|..]; try done.
  - apply Forall2_same_length_lookup. apply Forall2_same_length_lookup in R2 as [Hlen R2]. split; [done|].
    intros i s g Hs Hg. destruct (Hdata i s g Hs Hg) as [E1 E2]. specialize (R2 i s g Hs Hg).
    destruct R2. split; try done; by rewrite ?E1, ?E2.
  - eapply Forall_impl; [exact R5|]. simpl. lia.
  - destruct D as [D1 D2 D3]. split.
    + by rewrite Fd.
    + eapply Forall2_impl; [exact D2|]. intros s g. unfold has_files. by rewrite He.
    + intros name i b. rewrite He. apply D3.
  - intros b Hb. rewrite He. by apply Fr.
Qed.
End logs.
