(* ===== verification/Broker.v ===== *)
(** * The broker: internal/broker/broker.go

    The state of a broker, the partitions of its topics, publishing through
    Raft, reading, retention and consumer-group lag.  The API handlers are in
    BrokerAPI.v. *)

From S2P Require Import Prelude GoNum GoNet Path OS Snappy Segment Log RaftFSM ConsumerGroup.

Definition defaultNumPartitions : Z := 3.

(** ** State *)

Record TopicConfig : Type := mkTopicConfig {
  RetentionBytes : Z;
  RetentionMs : Z;
  Compacted : bool;
  Compressed : bool
}.

Definition zeroTopicConfig : TopicConfig := mkTopicConfig 0 0 false false.

(** The Prometheus collectors; the gauge [consumer_group_lag] is indexed by its
    labels.  The counter [compressed_bytes_saved_total] of a topic is the sum of
    the values its logs report, [l_saved]. *)
Record Metrics : Type := mkMetrics {
  messagesProducedTotal : Z;
  messagesConsumedTotal : Z;
  produceErrorsTotal : Z;
  consumeErrorsTotal : Z;
  consumerGroupLag : gmap (bytes * bytes * bytes) Z
}.

(** The fields of [Broker] that hold its topics.  A [*log.Log] is an index into
    the heap [b_heap]; the slices of [b_logs] hold no nil pointer, as
    GetPartition stores them only when they are full.  [b_workers] are the
    topics whose retention goroutine was started. *)
Record Broker : Type := mkBroker {
  b_logs : gmap bytes (list nat);
  b_heap : list Log;
  b_roundRobin : gmap bytes Z;
  b_dataDir : bytes;
  b_topicConfigs : gmap bytes TopicConfig;
  b_retentionStarted : gmap bytes bool;
  b_workers : list bytes
}.

Definition set_logs m b := mkBroker m (b_heap b) (b_roundRobin b) (b_dataDir b) (b_topicConfigs b) (b_retentionStarted b) (b_workers b).
Definition set_heap h b := mkBroker (b_logs b) h (b_roundRobin b) (b_dataDir b) (b_topicConfigs b) (b_retentionStarted b) (b_workers b).
Definition set_roundRobin r b := mkBroker (b_logs b) (b_heap b) r (b_dataDir b) (b_topicConfigs b) (b_retentionStarted b) (b_workers b).
Definition set_topicConfigs c b := mkBroker (b_logs b) (b_heap b) (b_roundRobin b) (b_dataDir b) c (b_retentionStarted b) (b_workers b).
Definition set_started s b := mkBroker (b_logs b) (b_heap b) (b_roundRobin b) (b_dataDir b) (b_topicConfigs b) s (b_workers b).
Definition add_worker t b := mkBroker (b_logs b) (b_heap b) (b_roundRobin b) (b_dataDir b) (b_topicConfigs b) (b_retentionStarted b) (b_workers b ++ [t]).

(** ** Raft

    What the broker uses of hashicorp/raft.  [raft_Apply data] gives the
    committed entries that reach the state machine of this node before the
    future completes, each with the time at which it is applied, and the error
    of the future. *)

Record raft_server : Type := mkServer { srv_ID : bytes; srv_Address : bytes; srv_Voter : bool }.

Class Raft (R : Type) : Type := {
  raft_IsLeader : R → bool;
  raft_State : R → bytes;
  raft_LeaderWithID : R → bytes;
  raft_Apply : bytes → R → R * list (bytes * Z) * option goerr;
  raft_AddVoter : bytes → bytes → R → R * option goerr;
  raft_GetConfiguration : R → list raft_server + goerr;
  raft_Shutdown : R → R * option goerr
}.

(** A future that completes without an error is that of an entry which was
    applied last. *)
Class RaftLaws (R : Type) `{Raft R} : Prop := {
  raft_applied data r r' es :
    raft_Apply data r = (r', es, None) → ∃ before now, es = before ++ [(data, now)]
}.

(** ** The whole node *)

Record node (D R : Type) : Type := mkNode {
  n_broker : Broker;
  n_world : world;
  n_groups : ConsumerGroupStore;
  n_db : D;
  n_raft : option R;
  n_metrics : Metrics
}.
Arguments mkNode {D R}.
Arguments n_broker {D R}.
Arguments n_world {D R}.
Arguments n_groups {D R}.
Arguments n_db {D R}.
Arguments n_raft {D R}.
Arguments n_metrics {D R}.

Definition defaultTopic (topic : bytes) : bytes := if decide (topic = []) then str "default" else topic.

Definition partition_error (partition : Z) : goerr := EMsg "partition %d out of range" [AInt partition].

(** A [[]*pb.Record], whose elements may be nil. *)
Abbreviation pb_records := (list (option (bytes * bytes))).

Section broker.
Context {D R : Type} `{SN : Snappy} `{RF : Raft R}.

Definition with_broker (b : Broker) (n : node D R) : node D R :=
  mkNode b (n_world n) (n_groups n) (n_db n) (n_raft n) (n_metrics n).
Definition with_world (w : world) (n : node D R) : node D R :=
  mkNode (n_broker n) w (n_groups n) (n_db n) (n_raft n) (n_metrics n).
Definition with_groups (g : ConsumerGroupStore * D) (n : node D R) : node D R :=
  mkNode (n_broker n) (n_world n) g.1 g.2 (n_raft n) (n_metrics n).
Definition with_raft (r : option R) (n : node D R) : node D R :=
  mkNode (n_broker n) (n_world n) (n_groups n) (n_db n) r (n_metrics n).
Definition with_metrics (m : Metrics) (n : node D R) : node D R :=
  mkNode (n_broker n) (n_world n) (n_groups n) (n_db n) (n_raft n) m.

Definition get_broker : GoM (node D R) Broker := n ← get_st; mret (n_broker n).
Definition modify_broker (f : Broker → Broker) : GoM (node D R) unit :=
  modify_st (λ n, with_broker (f (n_broker n)) n).

(** System calls, and methods of the consumer-group store. *)
Definition on_world {A} : GoM world A → GoM (node D R) A := zoom n_world with_world.
Definition on_groups {A} : GoM (ConsumerGroupStore * D) A → GoM (node D R) A :=
  zoom (λ n, (n_groups n, n_db n)) with_groups.

(** A method of the log [p] points to. *)
Definition on_log {A} (p : nat) (m : GoM (Log * world) A) : GoM (node D R) A := λ n,
  match b_heap (n_broker n) !! p with
  | Some l =>
      let '(r, (l', w')) := m (l, n_world n) in
      (r, with_world w' (with_broker (set_heap (<[p := l']> (b_heap (n_broker n))) (n_broker n)) n))
  | None => (Panic, n)
  end.

(** A method that only reads the log. *)
Definition reading {A} (f : Log → GoM world A) : GoM (Log * world) A :=
  '(l, _) ← get_st; lift_snd (f l).

(** A new [*log.Log]. *)
Definition alloc_log (l : Log) : GoM (node D R) nat :=
  b ← get_broker;
  modify_broker (set_heap (b_heap b ++ [l]));;
  mret (length (b_heap b)).

(** [b.raft.State() == hraft.Leader]; panics when [b.raft] is nil. *)
Definition the_raft : GoM (node D R) R :=
  n ← get_st; match n_raft n with Some r => mret r | None => panic end.

Definition IsLeader : GoM (node D R) bool := r ← the_raft; mret (raft_IsLeader r).

Definition Leader : GoM (node D R) bytes := r ← the_raft; mret (raft_LeaderWithID r).

(** ** Topics and partitions *)

Definition getTopicConfig (topic : bytes) : GoM (node D R) TopicConfig :=
  let topic := defaultTopic topic in
  b ← get_broker;
  mret (default zeroTopicConfig (b_topicConfigs b !! topic)).

Definition configurePartitionCompression (topic : bytes) (p : nat) : GoM (node D R) unit :=
  config ← getTopicConfig topic;
  on_log p (Log_SetCompressed (Compressed config));;
  on_log p Log_SetCompressionSavedObserver.

(** The goroutine runs [enforceTopicRetention] every minute until the broker is
    closed. *)
Definition startTopicRetentionUpdater (topic : bytes) : GoM (node D R) unit :=
  modify_broker (add_worker topic).

(** [for _, p := range ps { ... }] *)
Fixpoint each {A} (f : A → GoM (node D R) unit) (l : list A) : GoM (node D R) unit :=
  match l with
  | [] => mret tt
  | a :: l => f a;; each f l
  end.

(** The loop that opens partitions [i], ..., [i + k - 1]. *)
Fixpoint open_partitions (topic : bytes) (i : Z) (k : nat) (partitions : list nat) : GoM (node D R) (list nat) :=
  match k with
  | O => mret partitions
  | Datatypes.S k' =>
      b ← get_broker;
      r ← attempt (on_world (NewLog (partitionDir (b_dataDir b) topic i) []));
      match r with
      | inr err => each (λ p, ignore (on_log p Log_Close)) partitions;; throw err
      | inl partitionLog =>
          p ← alloc_log partitionLog;
          open_partitions topic (i + 1) k' (partitions ++ [p])
      end
  end.

(** [partitions[partition]], when [ok && len(partitions) > partition]. *)
Definition lookup_partition (b : Broker) (topic : bytes) (partition : Z) : option nat :=
  match b_logs b !! topic with
  | Some partitions => zlookup partitions partition
  | None => None
  end.

(** The part under the write lock: the partition is looked up again, as another
    goroutine may have opened the topic in between; [inr] gives the partitions
    this call has opened and whether it has to start the retention worker. *)
Definition get_or_open (topic : bytes) (partition : Z) : GoM (node D R) (nat + list nat * bool) :=
  b ← get_broker;
  match lookup_partition b topic partition with
  | Some p => mret (inl p)
  | None =>
      partitions ← open_partitions topic 0 (Z.to_nat defaultNumPartitions) [];
      modify_broker (λ b, set_logs (<[topic := partitions]> (b_logs b)) b);;
      b ← get_broker;
      let shouldStartRetention := negb (default false (b_retentionStarted b !! topic)) in
      (if shouldStartRetention
       then modify_broker (λ b, set_started (<[topic := true]> (b_retentionStarted b)) b)
       else mret tt);;
      mret (inr (partitions, shouldStartRetention))
  end.

(** What follows when this call has opened the topic. *)
Definition finish_open (topic : bytes) (partition : Z) (partitions : list nat) (shouldStartRetention : bool) :
    GoM (node D R) nat :=
  each (configurePartitionCompression topic) partitions;;
  (if shouldStartRetention then startTopicRetentionUpdater topic else mret tt);;
  match zlookup partitions partition with
  | Some p => mret p
  | None => panic
  end.

Definition broker_GetPartition (topic : bytes) (partition : Z) : GoM (node D R) nat :=
  let topic := defaultTopic topic in
  if (partition <? 0) || (defaultNumPartitions <=? partition) then throw (partition_error partition)
  else
    b ← get_broker;
    match lookup_partition b topic partition with
    | Some p => configurePartitionCompression topic p;; mret p
    | None =>
        r ← get_or_open topic partition;
        match r with
        | inl p => configurePartitionCompression topic p;; mret p
        | inr (partitions, shouldStartRetention) => finish_open topic partition partitions shouldStartRetention
        end
    end.

Definition SetTopicConfig (topic : bytes) (config : TopicConfig) : GoM (node D R) unit :=
  let topic := defaultTopic topic in
  if RetentionBytes config <? 0 then throw (EMsg "retention_bytes must be non-negative" [])
  else if RetentionMs config <? 0 then throw (EMsg "retention_ms must be non-negative" [])
  else
    modify_broker (λ b, set_topicConfigs (<[topic := config]> (b_topicConfigs b)) b);;
    b ← get_broker;
    if negb (default false (b_retentionStarted b !! topic))
    then broker_GetPartition topic 0;; mret tt
    else mret tt.

(** Errors are printed. *)
Definition enforceTopicRetention (topic : bytes) (now : Z) : GoM (node D R) unit :=
  n ← get_st;
  if negb (match n_raft n with Some r => raft_IsLeader r | None => false end) then mret tt
  else
    b ← get_broker;
    let config := default zeroTopicConfig (b_topicConfigs b !! topic) in
    let partitions := default [] (b_logs b !! topic) in
    if (RetentionBytes config <=? 0) && (RetentionMs config <=? 0) then mret tt
    else each (λ p, ignore (on_log p (EnforceRetention (RetentionBytes config) (RetentionMs config) now))) partitions.

(** [for topic, config := range b.topicConfigs]: the partitions to compact. *)
Definition topics_to_compact `{MapRange} (b : Broker) : list (list nat) :=
  omap (λ '(topic, config), if Compacted config then b_logs b !! topic else None) (map_range (b_topicConfigs b)).

Fixpoint compact_topics (topics : list (list nat)) : GoM (node D R) unit :=
  match topics with
  | [] => mret tt
  | partitions :: topics =>
      n ← get_st;
      if negb (match n_raft n with Some r => raft_IsLeader r | None => false end) then mret tt
      else
        each (λ p, ignore (on_log p Compact)) partitions;;
        compact_topics topics
  end.

Definition compactConfiguredTopics `{MapRange} : GoM (node D R) unit :=
  n ← get_st;
  if negb (match n_raft n with Some r => raft_IsLeader r | None => false end) then mret tt
  else
    b ← get_broker;
    compact_topics (topics_to_compact b).

(** ** The state machine of the broker *)

#[global] Instance broker_logs : LogProvider (node D R) := {|
  lp_log := nat;
  GetPartition := broker_GetPartition;
  lp_Append p ts key value := on_log p (Log_Append ts key value);
  lp_AppendBatch p records := on_log p (Log_AppendBatch records)
|}.

(** The state machine applies committed entries; the response of the last. *)
Fixpoint apply_entries (es : list (bytes * Z)) (last : option response) : GoM (node D R) (option response) :=
  match es with
  | [] => mret last
  | (data, now) :: es => r ← FSM_Apply data now; apply_entries es (Some r)
  end.

(** [future := b.raft.Apply(data, 5*time.Second)], [future.Error()] and
    [future.Response()]. *)
Definition replicate_command (data : bytes) : GoM (node D R) (option response) :=
  r ← the_raft;
  let '(r', es, err) := raft_Apply data r in
  modify_st (with_raft (Some r'));;
  response ← apply_entries es None;
  match err with
  | Some e => throw e
  | None => mret response
  end.

(** ** Publishing *)

Definition selectPartition (topic key : bytes) (partition : option Z) : GoM (node D R) Z :=
  match partition with
  | Some partition =>
      if (partition <? 0) || (defaultNumPartitions <=? partition) then throw (partition_error partition)
      else mret partition
  | None =>
      if 0 <? zlen key then mret (fnv32a key `mod` defaultNumPartitions)
      else
        b ← get_broker;
        let next := default 0 (b_roundRobin b !! topic) `mod` defaultNumPartitions in
        modify_broker (λ b, set_roundRobin
          (<[topic := (next + 1) `mod` defaultNumPartitions]> (b_roundRobin b)) b);;
        mret next
  end.

Definition unexpected_response : goerr := EMsg "unexpected FSM response type %T" [].

Definition Publish (topic key value : bytes) (partition : option Z) : GoM (node D R) Z :=
  let topic := defaultTopic topic in
  leader ← IsLeader;
  if negb leader then throw (EMsg "broker is not the Raft leader" [])
  else
    selectedPartition ← selectPartition topic key partition;
    broker_GetPartition topic selectedPartition;;
    data ← EncodeCommand topic selectedPartition key value;
    response ← replicate_command data;
    match response with
    | Some (RespOffset v) => mret v
    | Some (RespError err) => throw err
    | _ => throw unexpected_response
    end.

(** The loop that copies the records. *)
Fixpoint command_records (i : Z) (records : pb_records) : GoM (node D R) (list BatchRecord) :=
  match records with
  | [] => mret []
  | None :: _ => throw (EMsg "record %d is nil" [AInt i])
  | Some (key, value) :: records =>
      rs ← command_records (i + 1) records;
      mret (mkBatchRecord key value :: rs)
  end.

(** The loop that converts the offsets to [int64]. *)
Fixpoint offsets_int64 (offsets : list Z) : GoM (node D R) (list Z) :=
  match offsets with
  | [] => mret []
  | offset :: offsets =>
      if 2 ^ 63 - 1 <? offset then throw (EMsg "offset %d exceeds int64 range" [AInt offset])
      else os ← offsets_int64 offsets; mret (i64 offset :: os)
  end.

Definition PublishBatch (topic : bytes) (partition : Z) (records : pb_records) : GoM (node D R) (list Z) :=
  let topic := defaultTopic topic in
  leader ← IsLeader;
  if negb leader then throw (EMsg "broker is not the Raft leader" [])
  else if (partition <? 0) || (defaultNumPartitions <=? partition) then throw (partition_error partition)
  else
    match records with
    | [] => throw (EMsg "records must not be empty" [])
    | _ :: _ =>
        broker_GetPartition topic partition;;
        commandRecords ← command_records 0 records;
        data ← EncodeBatchCommand topic partition commandRecords;
        response ← replicate_command data;
        match response with
        | Some (RespOffsets v) => offsets_int64 v
        | Some (RespError err) => throw err
        | _ => throw unexpected_response
        end
    end.

(** ** Reading *)

Definition Read (topic : bytes) (partition offset : Z) : GoM (node D R) Message :=
  partitionLog ← broker_GetPartition topic partition;
  on_log partitionLog (reading (λ l, Log_Read l offset)).

Definition ReadBatch (topic : bytes) (partition offset maxCount : Z) : GoM (node D R) (list Message) :=
  if offset <? 0 then throw (EMsg "offset must be non-negative" [])
  else if maxCount <=? 0 then throw (EMsg "max_count must be greater than zero" [])
  else
    let maxCount := if 1000 <? maxCount then 1000 else maxCount in
    if (partition <? 0) || (defaultNumPartitions <=? partition) then throw (partition_error partition)
    else
      partitionLog ← broker_GetPartition topic partition;
      on_log partitionLog (reading (λ l, Log_ReadBatch l (u64 offset) maxCount)).

(** ** Consumer-group lag *)

(** [gauge.Set(float64(lag))]; the gauge holds a float, which is an integer here. *)
Definition set_lag (groupID topic : bytes) (partition lag : Z) : GoM (node D R) unit :=
  modify_st (λ n, let m := n_metrics n in
    with_metrics (mkMetrics (messagesProducedTotal m) (messagesConsumedTotal m) (produceErrorsTotal m)
      (consumeErrorsTotal m) (<[(groupID, topic, Itoa partition) := float64 lag]> (consumerGroupLag m))) n).

(** [lag] of the code: latest minus committed, and 0 when it is negative. *)
Definition lag_of (latestOffset committedOffset : Z) : Z :=
  if committedOffset <=? latestOffset then latestOffset - committedOffset else 0.

Definition updateConsumerGroupLagFor (groupID topic : bytes) (partition committedOffset : Z) : GoM (node D R) unit :=
  r ← attempt (broker_GetPartition topic partition);
  match r with
  | inr _ => mret tt
  | inl partitionLog =>
      latestOffset ← on_log partitionLog (reading (λ l, mret (LatestOffset l)));
      set_lag groupID topic partition (lag_of latestOffset committedOffset)
  end.

Definition updateConsumerGroupLag `{MapRange} : GoM (node D R) unit :=
  n ← get_st;
  each (λ c, updateConsumerGroupLagFor (cg_GroupID c) (cg_Topic c) (cg_Partition c) (cg_Offset c))
    (Snapshot (n_groups n)).

(** ** Membership *)

Definition Join (id address : bytes) : GoM (node D R) unit :=
  r ← the_raft;
  let '(r', err) := raft_AddVoter id address r in
  modify_st (with_raft (Some r'));;
  match err with Some e => throw e | None => mret tt end.

End broker.
