(* ===== verification/BrokerRep.v ===== *)
(** * The abstract state of a broker

    [contents] gives, for every topic and partition, the base offset and the
    messages.  [broker_ok b w C]: the partitions of the open topics hold the
    messages [C] gives them, and the directories of the other topics hold, for a
    log that will be opened, those messages too. *)

From S2P Require Import Prelude GoNum GoNet Path OS Snappy Segment SegmentRep SegmentRead SegmentWrite SegmentOpen.
From S2P Require Import Log LogRep LogView LogWrite LogOpen LogMessages Frame LogFrame.
From S2P Require Import RaftFSM ConsumerGroup Broker.

Abbreviation contents := (bytes → Z → Z * list Message).

Definition set_contents (t : bytes) (i : Z) (x : Z * list Message) (C : contents) : contents :=
  λ t' i', if decide (t' = t ∧ i' = i) then x else C t' i'.

(** ** Configuration of a log *)

Definition set_compressed (c : bool) (l : Log) : Log :=
  mkLog (l_dir l) (l_maxSegmentSize l) (Segment_SetCompressed c <$> l_segments l) c (l_observer l) (l_saved l).

Definition set_observed (l : Log) : Log :=
  mkLog (l_dir l) (l_maxSegmentSize l) (l_segments l) (l_compressed l) true (l_saved l).

Lemma set_compressed_twice c c' l : set_compressed c (set_compressed c' l) = set_compressed c l.
Proof. unfold set_compressed. simpl. by rewrite <-list_fmap_compose. Qed.

Lemma set_observed_compressed c l : set_compressed c (set_observed l) = set_observed (set_compressed c l).
Proof. done. Qed.

Lemma log_base_compressed c l : log_base (set_compressed c l) = log_base l.
Proof. unfold log_base. simpl. by destruct (l_segments l). Qed.

(** The log has the size limit of the broker, and its active segment is below
    it, as after every append. *)
Definition sized (l : Log) : Prop := l_maxSegmentSize l = DefaultMaxSegmentSize ∧ not_full l.

Lemma sized_compressed c l : sized (set_compressed c l) ↔ sized l.
Proof.
  unfold sized, not_full. simpl. rewrite fmap_last. split; intros [H1 H2]; (split; [done|]); intros s Hs Hm.
  - rewrite Hs in H2. simpl in H2. exact (H2 _ eq_refl Hm).
  - destruct (last (l_segments l)) as [s'|]; [|done]. simpl in Hs. apply (inj Some) in Hs as <-. exact (H2 s' eq_refl Hm).
Qed.

Section rep.
Context `{SN : Snappy} `{!SnappyLaws SN}.

Lemma log_ok_observed w l gs : log_ok w l gs → log_ok w (set_observed l) gs.
Proof. intros [[[] ? ?] ? [] ?]. by repeat (split; try done). Qed.

Lemma Writable_observed w l base msgs : Writable w l base msgs → Writable w (set_observed l) base msgs.
Proof. intros (gs & O & -> & ->). exists gs. split; [by apply log_ok_observed|done]. Qed.

(** Messages in [dir] that the log of a topic with compression mode [c] would
    find: none, or those of a log that was open there. *)
Definition stored_at (w : world) (dir : bytes) (c : bool) (x : Z * list Message) : Prop :=
  (entries w dir = ∅ ∧ x = (0, [])) ∨
  ∃ l, l_dir l = dir ∧ l_compressed l = c ∧ sized l ∧ Writable w l x.1 x.2.

(** The log at [p] in the heap holds the messages [x], once it is told the
    compression mode [c]. *)
Definition open_at (b : Broker) (w : world) (p : nat) (dir : bytes) (c : bool) (x : Z * list Message) : Prop :=
  ∃ l, b_heap b !! p = Some l ∧ l_dir l = dir ∧ sized l ∧ Writable w (set_compressed c l) x.1 x.2.

(** It has been told. *)
Definition configured (b : Broker) (p : nat) (c : bool) : Prop :=
  ∃ l, b_heap b !! p = Some l ∧ l = set_compressed c l.

Definition topic_mode (b : Broker) (t : bytes) : bool :=
  Compressed (default zeroTopicConfig (b_topicConfigs b !! t)).

Definition topic_dir (b : Broker) (t : bytes) (i : Z) : bytes := partitionDir (b_dataDir b) t i.

Definition partition_id (i : Z) : Prop := 0 ≤ i < 3.

Record broker_ok (b : Broker) (w : world) (C : contents) : Prop := {
  bo_reliable : reliable w;
  bo_fs : fs_ok w;
  bo_topics t ps : b_logs b !! t = Some ps → plain t ∧ length ps = 3%nat;
  bo_open t i p : lookup_partition b t i = Some p → open_at b w p (topic_dir b t i) (topic_mode b t) (C t i);
  bo_stored t i : plain t → partition_id i → b_logs b !! t = None →
    stored_at w (topic_dir b t i) (topic_mode b t) (C t i)
}.

Lemma broker_ok_ext b w C C' : (∀ t i, C' t i = C t i) → broker_ok b w C → broker_ok b w C'.
Proof.
  intros HC [H1 H2 H3 H4 H5]. split; [done..| |].
  - intros t i p. rewrite HC. apply H4.
  - intros t i. rewrite HC. apply H5.
Qed.

#[global] Instance broker_ok_proper b w :
  Proper (pointwise_relation bytes (pointwise_relation Z eq) ==> iff) (broker_ok b w).
Proof. intros C C' HC. split; apply broker_ok_ext; intros t i; by rewrite (HC t i). Qed.

(** ** Steps in one directory *)

(** What an operation on the files of [dir] keeps. *)
Definition stepped (dir : bytes) (w w' : world) : Prop :=
  reliable w' ∧ fs_ok w' ∧ frames dir (footprint w dir) w w'.

Lemma stepped_keeps {A} dir w (R : A → Prop) (m : GoM world A) :
  reliable w → fs_ok w → keeps (inside dir (footprint w dir)) (frames dir (footprint w dir)) R m →
  stepped dir w (m w).2.
Proof.
  intros Hr Hf Hk. destruct (Hk w (inside_footprint w dir Hf)) as (HP & HT & _).
  split; [by apply HT|]. split; [by eapply fs_ok_frames|done].
Qed.

Lemma stepped_log {A} w l gs (R : A → Prop) (m : GoM (Log * world) A) :
  reliable w → fs_ok w → log_ok w l gs →
  keeps (log_inside (l_dir l) (footprint w (l_dir l))) (log_frames (l_dir l) (footprint w (l_dir l))) R m →
  stepped (l_dir l) w (m (l, w)).2.2.
Proof.
  intros Hr Hf O Hk. destruct (Hk (l, w)) as ([_ HP] & HT & _).
  { split; [by eapply log_in_ok|by apply inside_footprint]. }
  split; [by apply HT|]. split; [by eapply fs_ok_frames|done].
Qed.

Lemma Writable_stepped dir w w' l base msgs :
  fs_ok w → stepped dir w w' → l_dir l ≠ dir → Writable w l base msgs → Writable w' l base msgs.
Proof. intros Hf (_ & _ & F) Hne (gs & O & -> & ->). exists gs. split; [by eapply log_ok_frames|done]. Qed.

Lemma stored_stepped dir dir' c x w w' :
  fs_ok w → stepped dir w w' → dir' ≠ dir → stored_at w dir' c x → stored_at w' dir' c x.
Proof.
  intros Hf Hs Hne [[He ->]|(l & Hd & Hc & Hz & W)]; [left|right].
  - destruct Hs as (_ & _ & F). by rewrite (frames_entries _ _ _ _ _ F).
  - exists l. split_and!; [done..|]. eapply Writable_stepped; [done..|by rewrite Hd|done].
Qed.

Lemma stored_compressed w dir c l x :
  l_dir l = dir → sized l → Writable w (set_compressed c l) x.1 x.2 → stored_at w dir c x.
Proof. intros Hd Hz W. right. exists (set_compressed c l). by rewrite sized_compressed. Qed.

(** ** Opening a log *)

Lemma log_rep_set_compressed w l gs c : log_rep w l gs → log_rep w (set_compressed c l) gs.
Proof.
  intros [R1 R2 R3 R4 R5 R6 R7]. split; simpl; try done.
  - intros H%fmap_nil_inv. done.
  - apply Forall2_fmap_l. eapply Forall2_impl; [exact R2|]. intros s g R. by apply set_compressed_rep.
  - intros i s s'. rewrite !list_lookup_fmap. intros (s1 & H1 & ->)%fmap_Some_1 (s2 & H2 & ->)%fmap_Some_1.
    exact (R3 i s1 s2 H1 H2).
  - apply Forall_fmap. exact R6.
  - apply Forall_fmap. by apply Forall_true.
Qed.

Lemma log_ok_set_compressed w l gs c :
  log_ok w l gs → Forall (decodes c) (all_entries gs) → log_ok w (set_compressed c l) gs.
Proof.
  intros [[R Dn Dc] Cl [D1 D2 D3] Fr] Hdec.
  split; [split|..]; simpl; try done.
  - by apply log_rep_set_compressed.
  - apply Forall2_fmap_l. exact Dn.
  - split; simpl; [done| |].
    + apply Forall2_fmap_l. exact D2.
    + intros name i b Hn Hb. destruct (D3 name i b Hn Hb) as (s & Hs & ->).
      exists (Segment_SetCompressed c s). split; [by apply list_elem_of_fmap_2|done].
  - unfold free_above, log_next in *. simpl. rewrite fmap_last. by destruct (last (l_segments l)).
Qed.

Lemma NewLog_default dir : NewLog dir [] = NewLog dir [DefaultMaxSegmentSize].
Proof. reflexivity. Qed.

Lemma empty_sized w l base : Writable w l base [] → l_maxSegmentSize l = DefaultMaxSegmentSize → sized l.
Proof.
  intros (gs & O & _ & Hnil) Hm. split; [done|]. intros s Hs Hpos. rewrite Hm.
  symmetry in Hnil. apply fmap_nil_inv in Hnil.
  destruct (last_snoc_inv _ _ Hs) as [segs Hsegs].
  destruct (lr_lookup _ _ _ (lv_rep _ _ _ (lo_view _ _ _ O)) (length segs) s) as (g & Hg & R).
  { rewrite Hsegs, lookup_app_r, Nat.sub_diag by lia. done. }
  assert (Hes : g_es g = []).
  { rewrite <-(take_drop_middle gs _ g Hg) in Hnil. unfold all_entries in Hnil.
    rewrite fmap_app, fmap_cons, concat_app in Hnil. simpl in Hnil.
    apply app_nil in Hnil as [_ Hnil]. by apply app_nil in Hnil as [? _]. }
  rewrite (sr_size _ _ _ _ _ _ _ R), Hes. done.
Qed.

Lemma NewLog_stored w dir c x :
  reliable w → fs_ok w → stored_at w dir c x →
  ∃ l w', NewLog dir [] w = (Ok l, w') ∧ l_dir l = dir ∧ sized l ∧
    Writable w' (set_compressed c l) x.1 x.2 ∧ stepped dir w w'.
Proof.
  intros Hr Hf Hst.
  assert (Hstep : stepped dir w (NewLog dir [] w).2).
  { eapply stepped_keeps; [done..|]. apply fk_NewLog. }
  destruct Hst as [[He ->]|(l & <- & <- & [Hm Hnf] & gs & O & Hb & Hms)].
  - pose proof (wp_NewLog_fresh w dir DefaultMaxSegmentSize ltac:(done) He) as W. rewrite <-NewLog_default in W.
    unfold wp in W. destruct (NewLog dir [] w) as [[l|e|] w']; [|by apply reliable_no_error in W|done].
    destruct W as (Hd & Hm & W). exists l, w'. split_and!; [done|done|by eapply empty_sized| |exact Hstep].
    destruct W as (gs & O & Hb & Hms). exists gs. split_and!; [|by rewrite log_base_compressed|done]. apply log_ok_set_compressed; [done|].
    symmetry in Hms. apply fmap_nil_inv in Hms. rewrite Hms. by apply Forall_nil.
  - pose proof (reads_NewLog w l gs O [] DefaultMaxSegmentSize w (ro_refl w) (or_intror (conj eq_refl eq_refl))) as Hrun.
    apply (reads_reliable _ _ _ Hr) in Hrun. rewrite Hrun in Hstep.
    exists (reopened_log l gs DefaultMaxSegmentSize), w. split_and!; [done|done| | |done].
    + split; [done|]. intros s Hs Hpos. simpl in *. rewrite <-Hm in *. 
      apply (Hnf (Segment_SetCompressed (l_compressed l) s)); [|done].
      rewrite <-(lo_reopened_segments w l gs O), fmap_last, Hs. done.
    + exists gs. split_and!; [exact (lo_reopened_ok w l gs O w DefaultMaxSegmentSize _ _ _ (ro_refl w) eq_refl)| |done].
      rewrite Hb. unfold log_base. simpl. by rewrite (lo_reopened_segments w l gs O).
Qed.
End rep.
