(* ===== verification/BrokerRun.v ===== *)
(** * Runs of the broker

    What the operations on partitions do to the abstract state of BrokerRep.v. *)

From S2P Require Import Prelude GoNum GoNet Path OS Snappy Segment SegmentRep SegmentRead SegmentWrite SegmentOpen.
From S2P Require Import Log LogRep LogView LogWrite LogOpen LogMessages Frame LogFrame.
From S2P Require Import RaftFSM RaftSpec RaftProps ConsumerGroup Broker BrokerRep.

(** Every log of the table has been told the compression mode of its topic. *)
Definition all_configured (b : Broker) : Prop :=
  ∀ t i p, lookup_partition b t i = Some p → configured b p (topic_mode b t).

(** Two brokers that differ in their open logs only, and the logs of the second
    are configured when those of the first are. *)
Definition same_settings (b b' : Broker) : Prop :=
  b_roundRobin b' = b_roundRobin b ∧ b_dataDir b' = b_dataDir b ∧ b_topicConfigs b' = b_topicConfigs b ∧
  (all_configured b → all_configured b').

#[global] Instance same_settings_preorder : PreOrder same_settings.
Proof.
  split; [done|]. unfold same_settings. intros b1 b2 b3 (? & ? & ? & ?) (? & ? & ? & ?). split_and!; (congruence || auto).
Qed.

Lemma same_settings_mode b b' t : same_settings b b' → topic_mode b' t = topic_mode b t.
Proof. unfold topic_mode. by intros (_ & _ & -> & _). Qed.

Lemma same_settings_dir b b' t i : same_settings b b' → topic_dir b' t i = topic_dir b t i.
Proof. unfold topic_dir. by intros (_ & -> & _). Qed.

Lemma lookup_partition_Some b t i p :
  lookup_partition b t i = Some p ↔ 0 ≤ i ∧ ∃ ps, b_logs b !! t = Some ps ∧ ps !! Z.to_nat i = Some p.
Proof. unfold lookup_partition, zlookup. destruct (b_logs b !! t); [case_decide|]; naive_solver. Qed.

Section run.
Context {D R : Type} `{SN : Snappy} `{!SnappyLaws SN} `{RF : Raft R}.

Definition upd (b : Broker) (w : world) (n : node D R) : node D R := with_world w (with_broker b n).

Lemma upd_upd b w b' w' n : upd b' w' (upd b w n) = upd b' w' n.
Proof. done. Qed.

Lemma upd_id n : upd (n_broker n) (n_world n) n = n.
Proof. by destruct n. Qed.

Lemma on_log_run {A} p (m : GoM (Log * world) A) b w n l r l' w' :
  b_heap b !! p = Some l → m (l, w) = (r, (l', w')) →
  on_log p m (upd b w n) = (r, upd (set_heap (<[p := l']> (b_heap b)) b) w' n).
Proof. intros Hp Hm. unfold on_log. simpl. by rewrite Hp, Hm. Qed.

(** ** A log in the heap is replaced *)

Lemma broker_ok_heap b w C p l l' :
  broker_ok b w C → b_heap b !! p = Some l → l_dir l' = l_dir l → (sized l → sized l') →
  (∀ c x, Writable w (set_compressed c l) x.1 x.2 → Writable w (set_compressed c l') x.1 x.2) →
  broker_ok (set_heap (<[p := l']> (b_heap b)) b) w C.
Proof.
  intros [H1 H2 H3 H4 H5] Hp Hd Hz HW. split; [done..| |done]. intros t i q Hq.
  destruct (H4 t i q Hq) as (lq & Hlq & Hdq & Hzq & Wq). destruct (decide (q = p)) as [->|Hne].
  - simplify_eq. exists l'. simpl. rewrite list_lookup_insert_eq by (by eapply lookup_lt_Some).
    split_and!; [done|by rewrite Hd|auto|]. by apply HW.
  - exists lq. simpl. by rewrite list_lookup_insert_ne.
Qed.

Lemma configured_heap b p l' q c :
  configured b q c → (q = p → l' = set_compressed c l') → configured (set_heap (<[p := l']> (b_heap b)) b) q c.
Proof.
  intros (l & Hl & Hc) Hq. destruct (decide (q = p)) as [->|Hne].
  - exists l'. simpl. rewrite list_lookup_insert_eq by (by eapply lookup_lt_Some). split; [done|]. by apply Hq.
  - exists l. simpl. by rewrite list_lookup_insert_ne.
Qed.

(** ** Configuring a partition *)

Lemma configure_run t p b w n l :
  b_heap b !! p = Some l →
  configurePartitionCompression t p (upd b w n) =
  (Ok tt, upd (set_heap (<[p := set_observed (set_compressed (topic_mode b (defaultTopic t)) l)]> (b_heap b)) b) w n).
Proof.
  intros Hp. unfold configurePartitionCompression. set (c := topic_mode b (defaultTopic t)).
  erewrite run_bind by reflexivity. change (Compressed _) with c.
  erewrite run_bind by (eapply on_log_run; [exact Hp|reflexivity]).
  erewrite on_log_run; [|simpl; apply list_lookup_insert_eq; by eapply lookup_lt_Some|reflexivity].
  simpl. by rewrite list_insert_insert_eq.
Qed.

Lemma set_configured l c : set_observed (set_compressed c l) = set_compressed c (set_observed (set_compressed c l)).
Proof. by rewrite set_observed_compressed, set_compressed_twice. Qed.

(** The step of [configure_run] on the abstract state. *)
Lemma configure_ok t p b w C l :
  broker_ok b w C → b_heap b !! p = Some l →
  let b' := set_heap (<[p := set_observed (set_compressed (topic_mode b t) l)]> (b_heap b)) b in
  broker_ok b' w C ∧ configured b' p (topic_mode b t).
Proof.
  intros B Hp b'. split.
  - eapply broker_ok_heap; [done|exact Hp|done| |].
    + intros [Hm Hnf]%(sized_compressed (topic_mode b t)). by split.
    + intros c x. rewrite set_observed_compressed, set_compressed_twice. apply Writable_observed.
  - eexists. simpl. rewrite list_lookup_insert_eq by (by eapply lookup_lt_Some). split; [done|]. apply set_configured.
Qed.

(** All partitions of a topic. *)
Lemma configure_each t ps b w C n :
  broker_ok b w C → Forall (λ p, is_Some (b_heap b !! p)) ps →
  ∃ h, each (configurePartitionCompression t) ps (upd b w n) = (Ok tt, upd (set_heap h b) w n) ∧
    broker_ok (set_heap h b) w C ∧ length h = length (b_heap b) ∧
    (∀ q, q ∈ ps ∨ configured b q (topic_mode b (defaultTopic t)) →
       configured (set_heap h b) q (topic_mode b (defaultTopic t))) ∧
    (∀ q c, q ∉ ps → configured b q c → configured (set_heap h b) q c).
Proof.
  revert b. induction ps as [|p ps IH]; intros b B Hps.
  { exists (b_heap b). replace (set_heap (b_heap b) b) with b by (by destruct b).
    split_and!; [done..| |done]. intros q [Hq%elem_of_nil|]; done. }
  apply Forall_cons in Hps as [[l Hl] Hps].
  destruct (configure_ok (defaultTopic t) p b w C l B Hl) as [B1 Hc1]. cbv zeta in *.
  set (b1 := set_heap _ b) in *.
  destruct (IH b1 B1) as (h & Hrun & B2 & Hlen & Hc2 & Ho2).
  { eapply Forall_impl; [exact Hps|]. intros q [lq Hq]. simpl.
    apply lookup_lt_is_Some_2. rewrite length_insert. by eapply lookup_lt_Some. }
  exists h. change (set_heap h b1) with (set_heap h b) in *.
  change (topic_mode b1 (defaultTopic t)) with (topic_mode b (defaultTopic t)) in *. split_and!.
  - cbn [each]. by erewrite run_bind by (by apply configure_run).
  - done.
  - rewrite Hlen. simpl. by rewrite length_insert.
  - intros q Hq. apply Hc2. rewrite elem_of_cons in Hq. destruct Hq as [[->|Hq]|Hq]; [by right|by left|right].
    apply configured_heap; [done|]. intros ->. apply set_configured.
  - intros q c [Hqp Hq]%not_elem_of_cons Hc. apply Ho2; [done|]. by apply configured_heap.
Qed.

(** ** Opening the partitions of a topic *)

Lemma open_at_stepped dir b b' w w' p dir' c x :
  fs_ok w → stepped dir w w' → dir' ≠ dir → b_heap b `prefix_of` b_heap b' →
  open_at b w p dir' c x → open_at b' w' p dir' c x.
Proof.
  intros Hf Hs Hne Hpre (l & Hp & Hd & Hz & W). exists l.
  split_and!; [by eapply prefix_lookup_Some|done|done|]. eapply Writable_stepped; [done..|by rewrite <-Hd in Hne|done].
Qed.

Lemma topic_dir_ne b t t' i i' :
  plain t → plain t' → partition_id i → partition_id i' → (t, i) ≠ (t', i') → topic_dir b t i ≠ topic_dir b t' i'.
Proof.
  unfold partition_id. intros Hp Hp' Hi Hi' Hne H.
  destruct (partitionDir_inj (b_dataDir b) t t' i i') as [-> ->]; [done|done|lia|lia|done|done].
Qed.

Lemma lookup_partition_id b w C t i p :
  broker_ok b w C → lookup_partition b t i = Some p → plain t ∧ partition_id i.
Proof.
  intros B (Hi & ps & Hps & Hp)%lookup_partition_Some. destruct (bo_topics _ _ _ B _ _ Hps) as [Hpl Hlen].
  apply lookup_lt_Some in Hp. unfold partition_id. split; [done|lia].
Qed.

(** A log of the table is that of one partition. *)
Lemma lookup_partition_inj b w C t i t' i' p :
  broker_ok b w C → lookup_partition b t i = Some p → lookup_partition b t' i' = Some p → t' = t ∧ i' = i.
Proof.
  intros B Hp Hp'.
  destruct (bo_open _ _ _ B _ _ _ Hp) as (l1 & Hl1 & Hd1 & _).
  destruct (bo_open _ _ _ B _ _ _ Hp') as (l2 & Hl2 & Hd2 & _). simplify_eq.
  destruct (lookup_partition_id _ _ _ _ _ _ B Hp) as [Ht Hi].
  destruct (lookup_partition_id _ _ _ _ _ _ B Hp') as [Ht' Hi'].
  destruct (decide ((t', i') = (t, i))) as [[= -> ->]|Hne]; [done|].
  by destruct (topic_dir_ne b t' t i' i Ht' Ht Hi' Hi Hne); rewrite <-Hd1, <-Hd2.
Qed.

(** Replacing the log of a partition by a configured one. *)
Lemma all_configured_heap b w C t i p l' :
  broker_ok b w C → lookup_partition b t i = Some p → set_compressed (topic_mode b t) l' = l' →
  all_configured b → all_configured (set_heap (<[p := l']> (b_heap b)) b).
Proof.
  intros B Hp Hl' Hall t' i' q Hq. apply configured_heap; [by eapply Hall|]. intros ->.
  by destruct (lookup_partition_inj _ _ _ _ _ _ _ _ B Hp Hq) as [-> _].
Qed.

Lemma open_one b w C t i l w' :
  broker_ok b w C → plain t → b_logs b !! t = None → partition_id i →
  l_dir l = topic_dir b t i → sized l → Writable w' (set_compressed (topic_mode b t) l) (C t i).1 (C t i).2 →
  stepped (topic_dir b t i) w w' →
  broker_ok (set_heap (b_heap b ++ [l]) b) w' C.
Proof.
  intros B Ht Hnone Hi Hd Hz W Hst. pose proof (bo_fs _ _ _ B) as Hf. split.
  - exact (proj1 Hst).
  - exact (proj1 (proj2 Hst)).
  - exact (bo_topics _ _ _ B).
  - intros t' i' q Hq. change (lookup_partition b t' i' = Some q) in Hq.
    destruct (lookup_partition_id _ _ _ _ _ _ B Hq) as [Ht' Hi'].
    assert (Hne : t' ≠ t).
    { intros ->. apply lookup_partition_Some in Hq as (_ & ps & Hps & _). congruence. }
    eapply open_at_stepped; [done|done| | |by apply B].
    + apply (topic_dir_ne b); [done..|]. by intros [= ->].
    + by eexists.
  - intros t' i' Ht' Hi' Hn. destruct (decide ((t', i') = (t, i))) as [[= -> ->]|Hne].
    + by eapply stored_compressed.
    + eapply stored_stepped; [done|done| |by apply B]. by apply (topic_dir_ne b).
Qed.

Lemma open_partitions_run t b w C n k ps :
  broker_ok b w C → plain t → b_logs b !! t = None → (length ps + k = 3)%nat →
  (∀ j p, ps !! j = Some p → open_at b w p (topic_dir b t (Z.of_nat j)) (topic_mode b t) (C t (Z.of_nat j))) →
  ∃ h w' ps', open_partitions t (zlen ps) k ps (upd b w n) = (Ok ps', upd (set_heap h b) w' n) ∧
    broker_ok (set_heap h b) w' C ∧ length ps' = 3%nat ∧ b_heap b `prefix_of` h ∧
    (∀ j p, ps' !! j = Some p →
       open_at (set_heap h b) w' p (topic_dir b t (Z.of_nat j)) (topic_mode b t) (C t (Z.of_nat j))).
Proof.
  intros B Ht. revert b w ps B. induction k as [|k IH]; intros b w ps B Hnone Hlen Hps.
  { exists (b_heap b), w, ps. replace (set_heap (b_heap b) b) with b by (by destruct b).
    split_and!; [done|done|lia|done|done]. }
  assert (Hi : partition_id (zlen ps)) by (unfold partition_id; lia).
  destruct (NewLog_stored w (topic_dir b t (zlen ps)) (topic_mode b t) (C t (zlen ps))) as (l & w1 & Hrun & Hd & Hz & W & Hst);
    [apply B|apply B|by apply B|].
  pose proof (open_one b w C t (zlen ps) l w1 B Ht Hnone Hi Hd Hz W Hst) as B1.
  set (b1 := set_heap (b_heap b ++ [l]) b) in *.
  destruct (IH b1 w1 (ps ++ [length (b_heap b)]) B1 Hnone) as (h & w' & ps' & Hrun' & B' & Hl' & Hpre & Hps').
  - rewrite length_app. simpl. lia.
  - intros j p [Hj|[Hj Hp]]%lookup_app_Some.
    + eapply open_at_stepped; [apply B|exact Hst| | |by apply Hps].
      * apply lookup_lt_Some in Hj. apply (topic_dir_ne b); [done..|unfold partition_id; lia|done|].
        intros [= Hj']. lia.
      * by eexists.
    + apply list_lookup_singleton_Some in Hp as [Hj0 <-]. replace j with (length ps) by lia.
      exists l. split_and!; [|done|done|done]. simpl. by rewrite lookup_app_r, Nat.sub_diag by lia.
  - exists h, w', ps'. change (set_heap h b1) with (set_heap h b) in *. split_and!; [|done|done| |done].
    + cbn [open_partitions]. erewrite run_bind by reflexivity.
      assert (Hnew : attempt (on_world (NewLog (partitionDir (b_dataDir b) t (zlen ps)) [])) (upd b w n) =
        (Ok (inl l), upd b w1 n)).
      { unfold attempt, on_world, zoom. simpl. unfold topic_dir in Hrun. by rewrite Hrun. }
      rewrite (run_bind _ _ _ _ _ Hnew). erewrite run_bind by reflexivity.
      rewrite length_app in Hrun'. simpl in Hrun'. rewrite Nat2Z.inj_add in Hrun'. exact Hrun'.
    + etrans; [|exact Hpre]. by eexists.
Qed.

(** ** GetPartition *)

Lemma defaultTopic_idem t : defaultTopic (defaultTopic t) = defaultTopic t.
Proof. unfold defaultTopic at 2 3. destruct (decide (t = [])); [done|]. unfold defaultTopic. by rewrite decide_False. Qed.

Lemma broker_ok_fields b b' w C :
  b_logs b' = b_logs b → b_heap b' = b_heap b → b_dataDir b' = b_dataDir b → b_topicConfigs b' = b_topicConfigs b →
  broker_ok b w C → broker_ok b' w C.
Proof.
  intros El Eh Ed Ec [H1 H2 H3 H4 H5]. split; [done|done| | |].
  - intros t ps. rewrite El. apply H3.
  - intros t i p. unfold lookup_partition. rewrite El. intros Hp. destruct (H4 t i p Hp) as (l & Hl).
    exists l. unfold topic_dir, topic_mode. by rewrite Eh, Ed, Ec.
  - intros t i Ht Hi. rewrite El. unfold topic_dir, topic_mode. rewrite Ed, Ec. by apply H5.
Qed.

Lemma broker_ok_publish_topic b w C t ps :
  broker_ok b w C → plain t → length ps = 3%nat →
  (∀ j p, ps !! j = Some p → open_at b w p (topic_dir b t (Z.of_nat j)) (topic_mode b t) (C t (Z.of_nat j))) →
  broker_ok (set_logs (<[t := ps]> (b_logs b)) b) w C.
Proof.
  intros [H1 H2 H3 H4 H5] Ht Hlen Hps. split; [done|done| | |].
  - intros t' ps'. simpl. intros [[<- <-]|[_ Hl]]%lookup_insert_Some; [done|by apply H3].
  - intros t' i p (Hi & ps' & Hl & Hp)%lookup_partition_Some. simpl in Hl.
    apply lookup_insert_Some in Hl as [[<- <-]|[Hne Hl]].
    + specialize (Hps _ _ Hp). rewrite Z2Nat.id in Hps by done. exact Hps.
    + apply H4, lookup_partition_Some. eauto.
  - intros t' i Ht' Hi. simpl. intros [Hl _]%lookup_insert_None. by apply H5.
Qed.

(** The broker after [get_or_open] has opened a topic. *)
Definition opened_broker (t : bytes) (ps : list nat) (start : bool) (h : list Log) (b : Broker) : Broker :=
  let b := set_logs (<[t := ps]> (b_logs b)) (set_heap h b) in
  if start then set_started (<[t := true]> (b_retentionStarted b)) b else b.

Lemma get_or_open_run t i b w C n :
  broker_ok b w C → plain t → lookup_partition b t i = None → b_logs b !! t = None →
  ∃ h w' ps start,
    get_or_open t i (upd b w n) = (Ok (inr (ps, start)), upd (opened_broker t ps start h b) w' n) ∧
    broker_ok (opened_broker t ps start h b) w' C ∧ length ps = 3%nat ∧ b_heap b `prefix_of` h ∧
    (∀ j p, ps !! j = Some p →
       open_at (set_heap h b) w' p (topic_dir b t (Z.of_nat j)) (topic_mode b t) (C t (Z.of_nat j))).
Proof.
  intros B Hplain Hp Hnone. unfold get_or_open. erewrite run_bind by reflexivity.
  change (n_broker (upd b w n)) with b. rewrite Hp.
  destruct (open_partitions_run t b w C n 3 [] B Hplain Hnone eq_refl) as (h & w1 & ps & Hrun & B1 & Hlen & Hpre & Hps);
    [by intros j p Hj|].
  pose proof (broker_ok_publish_topic _ _ _ t ps B1 Hplain Hlen Hps) as B2.
  change (Z.to_nat defaultNumPartitions) with 3%nat.
  rewrite (run_bind _ _ _ _ _ Hrun). erewrite run_bind by reflexivity. erewrite run_bind by reflexivity. cbv zeta.
  set (b2 := set_logs _ (set_heap h b)) in *. set (start := negb _).
  assert (Hstart : (if start then modify_broker (λ b, set_started (<[t:=true]> (b_retentionStarted b)) b) else mret tt)
    (upd b2 w1 n) = (Ok tt, upd (opened_broker t ps start h b) w1 n)) by by destruct start.
  rewrite (run_bind _ _ _ _ _ Hstart). exists h, w1, ps, start. split_and!; [done| |done..].
  unfold opened_broker. destruct start; [by apply (broker_ok_fields b2)|done].
Qed.

(** What GetPartition gives. *)
Definition partition_ready (b : Broker) (w : world) (C : contents) (t : bytes) (i : Z) (p : nat)
    (b' : Broker) (w' : world) : Prop :=
  broker_ok b' w' C ∧ same_settings b b' ∧ lookup_partition b' t i = Some p ∧ configured b' p (topic_mode b t) ∧
  (∀ t' i' q, lookup_partition b t' i' = Some q → lookup_partition b' t' i' = Some q).

Section opened.
Context (t : bytes) (ps : list nat) (start : bool) (h : list Log) (b : Broker).
Let b3 := opened_broker t ps start h b.

Lemma opened_logs : b_logs b3 = <[t := ps]> (b_logs b).
Proof. unfold b3, opened_broker. by destruct start. Qed.

Lemma opened_heap : b_heap b3 = h.
Proof. unfold b3, opened_broker. by destruct start. Qed.

Lemma opened_mode t' : topic_mode b3 t' = topic_mode b t'.
Proof. unfold b3, opened_broker. by destruct start. Qed.

Lemma opened_lookup_ne t' i : t ≠ t' → lookup_partition b3 t' i = lookup_partition b t' i.
Proof. intros Hne. unfold lookup_partition. by rewrite opened_logs, lookup_insert_ne. Qed.

Lemma opened_lookup i : lookup_partition b3 t i = zlookup ps i.
Proof. unfold lookup_partition. by rewrite opened_logs, lookup_insert_eq. Qed.

(** Once the partitions of [t] are configured, all are, if they were before. *)
Lemma opened_all_configured w C h' :
  broker_ok b3 w C → b_heap b `prefix_of` h → all_configured b →
  (∀ q, q ∈ ps → configured (set_heap h' b3) q (topic_mode b t)) →
  (∀ q c, q ∉ ps → configured b3 q c → configured (set_heap h' b3) q c) →
  all_configured (set_heap h' b3).
Proof.
  intros B3 Hpre Hall Hps Hother t' i q Hq. change (lookup_partition b3 t' i = Some q) in Hq.
  change (topic_mode (set_heap h' b3) t') with (topic_mode b3 t'). rewrite opened_mode.
  destruct (decide (t = t')) as [<-|Hne].
  - apply Hps. rewrite opened_lookup in Hq. unfold zlookup in Hq. case_decide; [|done]. by eapply list_elem_of_lookup_2.
  - apply Hother.
    + intros [j Hj]%list_elem_of_lookup. destruct Hne.
      symmetry. apply (lookup_partition_inj b3 w C t (Z.of_nat j) t' i q B3); [|done].
      rewrite opened_lookup. unfold zlookup. rewrite decide_True by lia. by rewrite Nat2Z.id.
    + rewrite opened_lookup_ne in Hq by done. destruct (Hall t' i q Hq) as (lq & Hlq & Hcq).
      exists lq. rewrite opened_heap. split; [by eapply prefix_lookup_Some|done].
Qed.
End opened.

(** A topic that is not open is opened. *)
Lemma GetPartition_miss_run t i b w C n :
  broker_ok b w C → plain t → partition_id i → defaultTopic t = t → lookup_partition b t i = None →
  ∃ p b' w', (r ← get_or_open t i;
              match r with
              | inl p => configurePartitionCompression t p;; mret p
              | inr (partitions, shouldStartRetention) => finish_open t i partitions shouldStartRetention
              end) (upd b w n) = (Ok p, upd b' w' n) ∧
    partition_ready b w C t i p b' w'.
Proof.
  intros B Hplain Hi Hidem Hp. unfold partition_id in Hi.
  assert (Hnone : b_logs b !! t = None).
  { unfold lookup_partition in Hp. destruct (b_logs b !! t) as [ps|] eqn:Hps; [|done].
    destruct (bo_topics _ _ _ B _ _ Hps) as [_ Hlen]. unfold zlookup in Hp. rewrite decide_True in Hp by lia.
    apply lookup_ge_None in Hp. lia. }
  destruct (get_or_open_run t i b w C n B Hplain Hp Hnone) as (h & w1 & ps & start & Hrun & B3 & Hlen & Hpre & Hps).
  rewrite (run_bind _ _ _ _ _ Hrun). unfold finish_open.
  destruct (configure_each t ps _ w1 C n B3) as (h' & Hrun3 & B4 & _ & Hc4 & Ho4).
  { apply Forall_lookup. intros j p Hj. destruct (Hps j p Hj) as (l & Hl & _). exists l. by rewrite opened_heap. }
  rewrite (run_bind _ _ _ _ _ Hrun3). rewrite Hidem in Hc4. rewrite opened_mode in Hc4.
  destruct (lookup_lt_is_Some_2 ps (Z.to_nat i)) as [p Hpi]; [lia|].
  set (b4 := set_heap h' _) in *. set (b5 := if start then add_worker t b4 else b4).
  assert (Hw : (if start then startTopicRetentionUpdater t else mret tt) (upd b4 w1 n) = (Ok tt, upd b5 w1 n))
    by (unfold b5; by destruct start).
  rewrite (run_bind _ _ _ _ _ Hw).
  assert (Hz : zlookup ps i = Some p) by (unfold zlookup; by rewrite decide_True by lia). rewrite Hz.
  assert (Hl5 : ∀ t' i', lookup_partition b5 t' i' = lookup_partition (opened_broker t ps start h b) t' i')
    by (unfold b5; by destruct start).
  exists p, b5, w1. split; [done|]. split_and!.
  - unfold b5. destruct start; [by apply (broker_ok_fields b4)|done].
  - split_and!; [by unfold b5, b4, opened_broker; destruct start..|]. intros Hall.
    assert (all_configured b4) as H4 by (eapply opened_all_configured; try done; intros q Hq; apply Hc4; by left).
    unfold b5. by destruct start.
  - by rewrite Hl5, opened_lookup.
  - assert (Hc : configured b4 p (topic_mode b t)) by (apply Hc4; left; by eapply list_elem_of_lookup_2).
    unfold b5. by destruct start.
  - intros t' i' q Hq. rewrite Hl5, opened_lookup_ne; [done|].
    intros <-. apply lookup_partition_Some in Hq as (_ & ps' & Hps' & _). congruence.
Qed.

Lemma GetPartition_run t i b w C n :
  broker_ok b w C → plain (defaultTopic t) → partition_id i →
  ∃ p b' w', broker_GetPartition t i (upd b w n) = (Ok p, upd b' w' n) ∧
    partition_ready b w C (defaultTopic t) i p b' w'.
Proof.
  intros B Hplain Hi. unfold broker_GetPartition. cbv zeta. pose proof Hi as Hi'. unfold partition_id in Hi'.
  destruct (Z.ltb_spec i 0); [lia|]. destruct (Z.leb_spec defaultNumPartitions i); [unfold defaultNumPartitions in *; lia|].
  cbn [orb]. erewrite run_bind by reflexivity. set (dt := defaultTopic t) in *.
  assert (Hidem : defaultTopic dt = dt) by apply defaultTopic_idem.
  change (n_broker (upd b w n)) with b. destruct (lookup_partition b dt i) as [p|] eqn:Hp;
    [|by apply GetPartition_miss_run].
  destruct (bo_open _ _ _ B _ _ _ Hp) as (l & Hl & _).
  destruct (configure_ok dt p b w C l B Hl) as [B' Hc]. cbv zeta in *.
  do 3 eexists. split; [erewrite run_bind by (by apply configure_run); reflexivity|].
  rewrite Hidem. split_and!; [done| |done..]. split_and!; [done..|].
  eapply all_configured_heap; [done..|]. symmetry. apply set_configured.
Qed.

(** ** Appending to a partition *)

Lemma Writable_configured w l base msgs c : Writable w l base msgs → l_compressed l = c → set_compressed c l = l.
Proof.
  intros (gs & O & _) <-. pose proof (lr_mode _ _ _ (lv_rep _ _ _ (lo_view _ _ _ O))) as Hm.
  unfold set_compressed. destruct l as [dir max segs c obs saved]; simpl in *. f_equal.
  rewrite <-(list_fmap_id segs) at 2. apply list_fmap_ext. intros i s Hs.
  pose proof (Forall_lookup_1 _ _ _ _ Hm Hs) as Hc. destruct s. simpl in *. by subst.
Qed.

(** A partition that GetPartition gave. *)
Lemma ready_log b w C t i p :
  broker_ok b w C → lookup_partition b t i = Some p → configured b p (topic_mode b t) →
  ∃ l, b_heap b !! p = Some l ∧ l_dir l = topic_dir b t i ∧ sized l ∧ l_compressed l = topic_mode b t ∧
    Writable w l (C t i).1 (C t i).2.
Proof.
  intros B Hp (l & Hl & Hc). destruct (bo_open _ _ _ B _ _ _ Hp) as (l' & Hl' & Hd & Hz & W). simplify_eq.
  exists l. rewrite <-Hc in W. split_and!; [done..| |done]. by rewrite Hc.
Qed.

Lemma broker_ok_write b w C p t i l' w' x' :
  broker_ok b w C → lookup_partition b t i = Some p →
  l_dir l' = topic_dir b t i → sized l' → Writable w' (set_compressed (topic_mode b t) l') x'.1 x'.2 →
  stepped (topic_dir b t i) w w' →
  broker_ok (set_heap (<[p := l']> (b_heap b)) b) w' (set_contents t i x' C).
Proof.
  intros B Hp Hd Hz W Hst. pose proof (bo_fs _ _ _ B) as Hf.
  destruct (lookup_partition_id _ _ _ _ _ _ B Hp) as [Ht Hi].
  destruct (bo_open _ _ _ B _ _ _ Hp) as (l & Hl & Hdl & _). split.
  - exact (proj1 Hst).
  - exact (proj1 (proj2 Hst)).
  - exact (bo_topics _ _ _ B).
  - intros t' i' q Hq. change (lookup_partition b t' i' = Some q) in Hq. unfold set_contents.
    destruct (lookup_partition_id _ _ _ _ _ _ B Hq) as [Ht' Hi']. case_decide as He.
    + destruct He as [-> ->]. simplify_eq. exists l'. simpl.
      rewrite list_lookup_insert_eq by (by eapply lookup_lt_Some). done.
    + assert (Hne : topic_dir b t' i' ≠ topic_dir b t i) by (apply topic_dir_ne; naive_solver).
      destruct (bo_open _ _ _ B _ _ _ Hq) as (lq & Hlq & Hdq & Hzq & Wq).
      assert (Hpq : p ≠ q) by (intros ->; simplify_eq; congruence).
      exists lq. simpl. rewrite list_lookup_insert_ne by done. split_and!; [done..|].
      eapply Writable_stepped; [done..| |done]. simpl. by rewrite Hdq.
  - intros t' i' Ht' Hi' Hn. unfold set_contents. case_decide as He.
    + destruct He as [-> ->]. apply lookup_partition_Some in Hp as (_ & ps & Hps & _). simpl in Hn. congruence.
    + eapply stored_stepped; [done|exact Hst| |by apply B]. apply (topic_dir_ne b); naive_solver.
Qed.

(** After an append to [p]. *)
Definition appended (b : Broker) (C : contents) (t : bytes) (i : Z) (ms : list Message) (b' : Broker) (w' : world) : Prop :=
  broker_ok b' w' (set_contents t i ((C t i).1, (C t i).2 ++ ms) C) ∧ same_settings b b' ∧
  (∀ t' i', lookup_partition b' t' i' = lookup_partition b t' i') ∧
  (∀ q c, configured b q c → (∃ t' i', lookup_partition b t' i' = Some q ∧ c = topic_mode b t') → configured b' q c).

Lemma sized_room l w base msgs n bytes :
  Writable w l base msgs → sized l → base + zlen msgs + n < 2 ^ 64 → bytes ≤ 2 ^ 62 → log_room l n bytes.
Proof.
  intros (gs & O & -> & ->) [Hm Hnf] Hn Hb s Hs.
  pose proof (lv_next _ _ _ (lo_view _ _ _ O)) as Hnext. unfold log_next in Hnext. rewrite Hs in Hnext.
  rewrite length_fmap in Hn. split; [lia|]. specialize (Hnf s Hs). rewrite Hm in Hnf.
  unfold DefaultMaxSegmentSize in Hnf. lia.
Qed.

Lemma appended_write b w C t i p l ms l' w' :
  broker_ok b w C → lookup_partition b t i = Some p → b_heap b !! p = Some l →
  l_dir l = topic_dir b t i → sized l → l_compressed l = topic_mode b t →
  Writable w' l' (C t i).1 ((C t i).2 ++ ms) → same_config l l' → not_full l' →
  stepped (topic_dir b t i) w w' →
  appended b C t i ms (set_heap (<[p := l']> (b_heap b)) b) w'.
Proof.
  intros B Hp Hl Hd [Hm _] Hmode W (Hd' & Hm' & Hc' & _) Hnf Hst.
  assert (Hset : set_compressed (topic_mode b t) l' = l') by (eapply Writable_configured; [done|congruence]).
  split_and!; [|split_and!; try done|done|].
  - eapply broker_ok_write; [done..|congruence|split; [congruence|done]| |done]. by rewrite Hset.
  - by eapply all_configured_heap.
  - intros q c Hq (t' & i' & Hq' & ->). apply configured_heap; [done|]. intros ->.
    by destruct (lookup_partition_inj _ _ _ _ _ _ _ _ B Hp Hq') as [-> _].
Qed.

Lemma append_run b w C t i p ts key value n :
  broker_ok b w C → lookup_partition b t i = Some p → configured b p (topic_mode b t) →
  zlen key ≤ max_u32 → zlen value ≤ max_u32 → is_i64 ts →
  is_Some (stored_payload (topic_mode b t) (key ++ value)) →
  (C t i).1 + zlen (C t i).2 + 1 < 2 ^ 64 →
  let o := (C t i).1 + zlen (C t i).2 in
  ∃ b' w', on_log p (Log_Append ts key value) (upd b w n) = (Ok o, upd b' w' n) ∧
    appended b C t i [mkMessage o ts key value] b' w'.
Proof.
  intros B Hp Hc Hk Hv Hts [q Hq] Hroom o. destruct (ready_log _ _ _ _ _ _ B Hp Hc) as (l & Hl & Hd & Hz & Hmode & W).
  rewrite <-Hmode in Hq.
  pose proof (wp_Append_messages w l _ _ ts key value q W Hk Hv Hts Hq) as HW. unfold wp in HW.
  assert (Hr : log_room l 1 (messageHeaderSize + zlen q)).
  { eapply sized_room; [done..|]. pose proof (stored_payload_size _ _ _ Hq) as Hs. rewrite length_app in Hs.
    unfold max_u32, max_alloc, messageHeaderSize in *. lia. }
  specialize (HW Hr). pose proof W as (gs & O & _).
  pose proof (stepped_log w l gs any (Log_Append ts key value) (bo_reliable _ _ _ B) (bo_fs _ _ _ B) O
    (lk_Append _ _ ts key value)) as Hst.
  destruct (Log_Append ts key value (l, w)) as [[o'|e|] [l' w']] eqn:Hrun; simpl in Hst; [|by destruct HW; destruct (bo_reliable _ _ _ B)|done].
  destruct HW as (-> & W' & Hcfg & Hnf). do 2 eexists. split; [by eapply on_log_run|].
  rewrite Hd in Hst. by eapply appended_write.
Qed.

Lemma append_batch_run b w C t i p records es n :
  broker_ok b w C → lookup_partition b t i = Some p → configured b p (topic_mode b t) →
  records ≠ [] → Forall record_ok records →
  batch_entries (topic_mode b t) ((C t i).1 + zlen (C t i).2) records = Some es → zlen (enc_log es) ≤ 2 ^ 62 →
  (C t i).1 + zlen (C t i).2 + zlen records < 2 ^ 64 →
  let o := (C t i).1 + zlen (C t i).2 in
  ∃ b' w', on_log p (Log_AppendBatch records) (upd b w n) =
      (Ok ((λ k, o + Z.of_nat k) <$> seq 0 (length records), None), upd b' w' n) ∧
    appended b C t i (messages_from o records) b' w'.
Proof.
  intros B Hp Hc Hne Hrs Hes Hbytes Hroom o. destruct (ready_log _ _ _ _ _ _ B Hp Hc) as (l & Hl & Hd & Hz & Hmode & W).
  rewrite <-Hmode in Hes.
  pose proof (wp_AppendBatch_messages w l _ _ records es W Hne Hrs Hes) as HW. unfold wp in HW.
  assert (Hr : log_room l (zlen records) (zlen (enc_log es))) by (by eapply sized_room).
  specialize (HW Hr). pose proof W as (gs & O & _).
  pose proof (stepped_log w l gs any (Log_AppendBatch records) (bo_reliable _ _ _ B) (bo_fs _ _ _ B) O
    (lk_AppendBatch _ _ records)) as Hst.
  pose proof (bo_reliable _ _ _ B) as Hrel.
  destruct (Log_AppendBatch records (l, w)) as [[[os err]|e|] [l' w']] eqn:Hrun; simpl in Hst; [|by destruct HW|done].
  destruct HW as (-> & Hcfg & Herr). destruct err as [e|]; [by destruct Herr|]. destruct Herr as [W' Hnf].
  do 2 eexists. split; [by eapply on_log_run|]. rewrite Hd in Hst. by eapply appended_write.
Qed.

(** ** Reading a partition *)

Lemma on_log_reading {A} (f : Log → GoM world A) p b w l r n :
  b_heap b !! p = Some l → f l w = (r, w) → on_log p (reading f) (upd b w n) = (r, upd b w n).
Proof.
  intros Hl Hf. erewrite on_log_run; [|exact Hl|unfold reading; erewrite run_bind by reflexivity; simpl; by rewrite Hf].
  f_equal. f_equal. rewrite list_insert_id by done. by destruct b.
Qed.

Lemma read_run_ok b w C t i p o n :
  broker_ok b w C → lookup_partition b t i = Some p → configured b p (topic_mode b t) →
  on_log p (reading (λ l, Log_Read l o)) (upd b w n) = (read_at (C t i).1 (C t i).2 o, upd b w n).
Proof.
  intros B Hp Hc. destruct (ready_log _ _ _ _ _ _ B Hp Hc) as (l & Hl & _ & _ & _ & W).
  eapply on_log_reading; [done|]. apply (reads_reliable _ _ _ (bo_reliable _ _ _ B)).
  by apply reads_Log_Read, Writable_Readable.
Qed.
End run.
