(* ===== verification/BrokerSpec.v ===== *)
(** * Replicated commands, on the abstract state

    [command] messages of the Raft log as data, what each does to the contents
    of a broker, and the proof that the broker's state machine does it. *)

From S2P Require Import Prelude GoNum GoNet Path OS Snappy Segment SegmentRep SegmentRead SegmentWrite SegmentOpen.
From S2P Require Import Log LogRep LogView LogWrite LogOpen LogMessages.
From S2P Require Import RaftFSM RaftSpec RaftProps ConsumerGroup Broker BrokerRep BrokerRun.

Inductive cmd : Type :=
| CmdSingle (topic : bytes) (partition : Z) (key value : bytes)
| CmdBatch (topic : bytes) (partition : Z) (records : list BatchRecord).

Definition cmd_frame (c : cmd) : bytes :=
  match c with
  | CmdSingle t i key value => single_frame t i key value
  | CmdBatch t i records => batch_frame t i records
  end.

Definition cmd_topic (c : cmd) : bytes :=
  match c with CmdSingle t _ _ _ | CmdBatch t _ _ => defaultTopic t end.

Definition cmd_partition (c : cmd) : Z :=
  match c with CmdSingle _ i _ _ | CmdBatch _ i _ => i end.

(** The offset that the next message of a partition gets. *)
Definition next_offset (C : contents) (t : bytes) (i : Z) : Z := (C t i).1 + zlen (C t i).2.

(** The messages a command adds from offset [o] on, at time [now]. *)
Definition cmd_messages (o now : Z) (c : cmd) : list Message :=
  match c with
  | CmdSingle _ _ key value => [mkMessage o now key value]
  | CmdBatch _ _ records => messages_from o (records_at now records)
  end.

Definition apply_cmd (now : Z) (c : cmd) (C : contents) : contents :=
  let t := cmd_topic c in
  let i := cmd_partition c in
  set_contents t i ((C t i).1, (C t i).2 ++ cmd_messages (next_offset C t i) now c) C.

Definition cmd_response (C : contents) (c : cmd) : response :=
  let o := next_offset C (cmd_topic c) (cmd_partition c) in
  match c with
  | CmdSingle _ _ _ _ => RespOffset o
  | CmdBatch _ _ records => RespOffsets ((λ k, o + Z.of_nat k) <$> seq 0 (length records))
  end.

Section spec.
Context `{SN : Snappy} `{!SnappyLaws SN}.

(** The payload of a command can be stored under compression mode [m]: it is
    not too long for its fields, for the compressor and for the log. *)
Definition payload_ok (m : bool) (now o : Z) (c : cmd) : Prop :=
  match c with
  | CmdSingle _ _ key value => kv_ok key value ∧ is_Some (stored_payload m (key ++ value)) ∧ o + 1 < 2 ^ 64
  | CmdBatch _ _ records =>
      Forall (λ r, kv_ok (br_Key r) (br_Value r)) records ∧ zlen records < 2 ^ 32 ∧ o + zlen records < 2 ^ 64 ∧
      ∃ es, batch_entries m o (records_at now records) = Some es ∧ zlen (enc_log es) ≤ 2 ^ 62
  end.

Definition cmd_ok (mode : bytes → bool) (C : contents) (now : Z) (c : cmd) : Prop :=
  plain (cmd_topic c) ∧ (match c with CmdSingle t _ _ _ | CmdBatch t _ _ => zlen t < 2 ^ 16 end) ∧
  partition_id (cmd_partition c) ∧ is_i64 now ∧
  payload_ok (mode (cmd_topic c)) now (next_offset C (cmd_topic c) (cmd_partition c)) c.

(** A sequence of committed entries. *)
Fixpoint apply_cmds (es : list (cmd * Z)) (C : contents) : contents :=
  match es with
  | [] => C
  | (c, now) :: es => apply_cmds es (apply_cmd now c C)
  end.

Fixpoint entries_ok (mode : bytes → bool) (C : contents) (es : list (cmd * Z)) : Prop :=
  match es with
  | [] => True
  | (c, now) :: es => cmd_ok mode C now c ∧ entries_ok mode (apply_cmd now c C) es
  end.

Definition entry_frames (es : list (cmd * Z)) : list (bytes * Z) := (λ e, (cmd_frame e.1, e.2)) <$> es.

(** The response of the last entry. *)
Fixpoint last_response (es : list (cmd * Z)) (C : contents) (last : option response) : option response :=
  match es with
  | [] => last
  | (c, now) :: es => last_response es (apply_cmd now c C) (Some (cmd_response C c))
  end.

Lemma apply_cmds_app es1 es2 C : apply_cmds (es1 ++ es2) C = apply_cmds es2 (apply_cmds es1 C).
Proof. revert C. induction es1 as [|[c now] es1 IH]; intros C; [done|]. apply IH. Qed.

Lemma last_response_snoc es c now C l :
  last_response (es ++ [(c, now)]) C l = Some (cmd_response (apply_cmds es C) c).
Proof. revert C l. induction es as [|[c' now'] es IH]; intros C l; [done|]. apply IH. Qed.

Lemma entries_ok_snoc mode C es c now :
  entries_ok mode C (es ++ [(c, now)]) ↔ entries_ok mode C es ∧ cmd_ok mode (apply_cmds es C) now c.
Proof. revert C. induction es as [|[c' now'] es IH]; intros C; simpl; [tauto|]. rewrite IH. tauto. Qed.

Context {D R : Type} `{RF : Raft R}.

Lemma kv_ok_u32 key value : kv_ok key value → zlen key ≤ max_u32 ∧ zlen value ≤ max_u32.
Proof. unfold kv_ok, max_u32. lia. Qed.

Lemma attempt_Ok {S A} (m : GoM S A) s a s' : m s = (Ok a, s') → attempt m s = (Ok (inl a), s').
Proof. unfold attempt. by intros ->. Qed.

(** The state machine's call of GetPartition; the topic has its default. *)
Lemma attempt_GetPartition t i p b w (n : node D R) :
  broker_GetPartition t i n = (Ok p, upd b w n) →
  attempt (GetPartition (topic_or_default t) i) n = (Ok (inl p), upd b w n).
Proof.
  unfold attempt. simpl. change (topic_or_default t) with (defaultTopic t).
  unfold broker_GetPartition. rewrite (defaultTopic_idem t). by intros ->.
Qed.

Lemma partition_u32 i : partition_id i → is_u32 i.
Proof. unfold partition_id, is_u32. lia. Qed.

Lemma FSM_Apply_single t i key value now b w C (n : node D R) :
  broker_ok b w C → cmd_ok (topic_mode b) C now (CmdSingle t i key value) →
  ∃ b' w', FSM_Apply (single_frame t i key value) now (upd b w n) =
      (Ok (RespOffset (next_offset C (defaultTopic t) i)), upd b' w' n) ∧
    broker_ok b' w' (apply_cmd now (CmdSingle t i key value) C) ∧ same_settings b b'.
Proof.
  intros B (Hp & Ht & Hi & Hnow & Hkv & Hq & Ho). simpl in *.
  destruct (GetPartition_run t i b w C n B Hp Hi) as (p & b1 & w1 & Hg & B1 & Hset & Hlp & Hc & _).
  pose proof (kv_ok_u32 _ _ Hkv) as [Hk Hv].
  rewrite <-(same_settings_mode _ _ (defaultTopic t) Hset) in Hq, Hc.
  destruct (append_run b1 w1 C _ i p now key value n B1 Hlp Hc Hk Hv Hnow Hq Ho) as (b2 & w2 & Ha & B2 & Hset2 & _).
  exists b2, w2. split_and!; [|exact B2|by etrans].
  rewrite <-(app_nil_r (single_frame _ _ _ _)), apply_single_frame; [|split; [done|by apply partition_u32]|done].
  unfold apply_to. rewrite (run_bind _ _ _ _ _ (attempt_GetPartition _ _ _ _ _ _ Hg)). unfold run_command.
  exact (run_bind _ _ _ _ _ (attempt_Ok _ _ _ _ Ha)).
Qed.

Lemma records_at_ok now records :
  is_i64 now → Forall (λ r, kv_ok (br_Key r) (br_Value r)) records → Forall record_ok (records_at now records).
Proof.
  intros Hnow H. unfold records_at. apply Forall_fmap. eapply Forall_impl; [exact H|].
  intros r Hr. destruct (kv_ok_u32 _ _ Hr). by split_and!.
Qed.

Lemma FSM_Apply_batch t i records now b w C (n : node D R) :
  broker_ok b w C → cmd_ok (topic_mode b) C now (CmdBatch t i records) →
  ∃ b' w', FSM_Apply (batch_frame t i records) now (upd b w n) =
      (Ok (cmd_response C (CmdBatch t i records)), upd b' w' n) ∧
    broker_ok b' w' (apply_cmd now (CmdBatch t i records) C) ∧ same_settings b b'.
Proof.
  intros B (Hp & Ht & Hi & Hnow & Hkv & Hn & Ho & es & Hes & Hbytes). simpl in *.
  destruct (GetPartition_run t i b w C n B Hp Hi) as (p & b1 & w1 & Hg & B1 & Hset & Hlp & Hc & _).
  rewrite <-(same_settings_mode _ _ (defaultTopic t) Hset) in Hes, Hc.
  assert (Hframe : ∀ s : node D R, FSM_Apply (batch_frame t i records) now s = apply_to t i now (Batch (records_at now records)) s).
  { intros s. rewrite <-(app_nil_r (batch_frame _ _ _)). apply apply_batch_frame; [|done..].
    split; [done|by apply partition_u32]. }
  rewrite Hframe. unfold apply_to. rewrite (run_bind _ _ _ _ _ (attempt_GetPartition _ _ _ _ _ _ Hg)). unfold run_command.
  destruct (decide (records = [])) as [->|Hne].
  - exists b1, w1. split_and!; [| |done].
    + destruct (ready_log _ _ _ _ _ _ B1 Hlp Hc) as (l & Hl & _).
      assert (Ha : on_log p (Log_AppendBatch []) (upd b1 w1 n) = (Ok ([], None), upd b1 w1 n)).
      { erewrite on_log_run by (done || reflexivity). rewrite list_insert_id by done. by destruct b1. }
      exact (run_bind _ _ _ _ _ (attempt_Ok _ _ _ _ Ha)).
    + eapply broker_ok_ext; [|exact B1]. intros t' i'. unfold apply_cmd, set_contents. simpl.
      case_decide as He; [|done]. destruct He as [-> ->]. rewrite app_nil_r. by destruct (C _ _).
  - assert (Hne' : records_at now records ≠ []) by (by destruct records).
    assert (Hlen : length (records_at now records) = length records) by (unfold records_at; apply length_fmap).
    destruct (append_batch_run b1 w1 C _ i p _ es n B1 Hlp Hc Hne' (records_at_ok _ _ Hnow Hkv) Hes Hbytes)
      as (b2 & w2 & Ha & B2 & Hset2 & _); [by rewrite Hlen|].
    exists b2, w2. split_and!; [|exact B2|by etrans]. simpl cmd_response. rewrite <-Hlen.
    exact (run_bind _ _ _ _ _ (attempt_Ok _ _ _ _ Ha)).
Qed.

(** The state machine on a committed command. *)
Lemma FSM_Apply_cmd c now b w C (n : node D R) :
  broker_ok b w C → cmd_ok (topic_mode b) C now c →
  ∃ b' w', FSM_Apply (cmd_frame c) now (upd b w n) = (Ok (cmd_response C c), upd b' w' n) ∧
    broker_ok b' w' (apply_cmd now c C) ∧ same_settings b b'.
Proof. destruct c; [apply FSM_Apply_single|apply FSM_Apply_batch]. Qed.

Lemma entries_ok_mode mode mode' C es : (∀ t, mode' t = mode t) → entries_ok mode C es → entries_ok mode' C es.
Proof.
  intros Hm. revert C. induction es as [|[c now] es IH]; intros C; simpl; [done|]. unfold cmd_ok. rewrite Hm.
  intros [? ?]. by eauto.
Qed.

Lemma apply_entries_run es last b w C (n : node D R) :
  broker_ok b w C → entries_ok (topic_mode b) C es →
  ∃ b' w', apply_entries (entry_frames es) last (upd b w n) = (Ok (last_response es C last), upd b' w' n) ∧
    broker_ok b' w' (apply_cmds es C) ∧ same_settings b b'.
Proof.
  revert last b w C. induction es as [|[c now] es IH]; intros last b w C B Hok.
  { by exists b, w. }
  destruct Hok as [Hc Hes]. destruct (FSM_Apply_cmd c now b w C n B Hc) as (b1 & w1 & Hrun & B1 & Hset).
  destruct (IH (Some (cmd_response C c)) b1 w1 _ B1) as (b2 & w2 & Hrun2 & B2 & Hset2).
  { eapply entries_ok_mode; [|exact Hes]. intros t. by apply same_settings_mode. }
  exists b2, w2. split_and!; [|exact B2|by etrans]. cbn [entry_frames fmap list_fmap apply_entries fst snd].
  rewrite (run_bind _ _ _ _ _ Hrun). exact Hrun2.
Qed.
End spec.
