(* ===== verification/BrokerPublish.v ===== *)
(** * Publishing and reading, on the abstract state

    Runs of selectPartition, Publish, PublishBatch, Read and ReadBatch. *)

From S2P Require Import Prelude GoNum GoNet Path OS Snappy Segment SegmentRep SegmentRead SegmentWrite SegmentOpen.
From S2P Require Import Log LogRep LogView LogWrite LogOpen LogMessages Frame LogFrame.
From S2P Require Import RaftFSM RaftSpec RaftProps ConsumerGroup Broker BrokerRep BrokerRun BrokerSpec.

(** ** Frames determine commands *)

Lemma frame_head_inj ty t i body ty' t' i' body' :
  0 ≤ ty < 256 → head_ok t i → 0 ≤ ty' < 256 → head_ok t' i' →
  frame_head ty t i ++ body = frame_head ty' t' i' ++ body' →
  ty = ty' ∧ defaultTopic t = defaultTopic t' ∧ i = i' ∧ body = body'.
Proof.
  intros Hty Hh Hty' Hh' E. pose proof (parse_head_frame ty t i body Hty Hh) as P.
  rewrite E, (parse_head_frame ty' t' i' body' Hty' Hh') in P. by simplify_eq.
Qed.

Lemma frame_kv_inj key value key' value' :
  kv_ok key value → kv_ok key' value' → frame_kv key value = frame_kv key' value' → key = key' ∧ value = value'.
Proof.
  intros H H' E. pose proof (parse_kv_frame (λ _, EOF) key value [] H) as P.
  rewrite E, parse_kv_frame in P by done. by simplify_eq.
Qed.

Lemma cmd_frame_single mode C now c t i key value `{SN : Snappy} :
  cmd_ok mode C now c → head_ok t i → kv_ok key value → cmd_frame c = single_frame t i key value →
  ∃ t', c = CmdSingle t' i key value ∧ defaultTopic t' = defaultTopic t.
Proof.
  intros (_ & Ht & Hi & _ & Hpay) Hh Hkv Hf. apply partition_u32 in Hi.
  destruct c as [t' i' k' v'|t' i' rs].
  - apply frame_head_inj in Hf as (_ & Et & Ei & Eb); [|done|by split|done..].
    apply frame_kv_inj in Eb as [-> ->]; [|apply Hpay|done]. rewrite <-Ei. by exists t'.
  - apply frame_head_inj in Hf as (E & _); [done|done|by split|done..].
Qed.

Lemma cmd_frame_batch mode C now c t i records `{SN : Snappy} :
  cmd_ok mode C now c → head_ok t i → Forall (λ r, kv_ok (br_Key r) (br_Value r)) records → zlen records < 2 ^ 32 →
  cmd_frame c = batch_frame t i records →
  ∃ t' rs, c = CmdBatch t' i rs ∧ defaultTopic t' = defaultTopic t ∧
    ∀ now, records_at now rs = records_at now records.
Proof.
  intros (_ & Ht & Hi & _ & Hpay) Hh Hrs Hn Hf. apply partition_u32 in Hi.
  destruct c as [t' i' k' v'|t' i' rs].
  - apply frame_head_inj in Hf as (E & _); [done|done|by split|done..].
  - apply frame_head_inj in Hf as (_ & Et & Ei & Eb); [|done|by split|done..].
    exists t', rs. split_and!; [by rewrite <-Ei|exact Et|]. intros now'. destruct Hpay as (Hrs' & Hn' & _).
    pose proof (parse_body_batch now' rs [] Hrs' Hn') as P. pose proof (parse_body_batch now' records [] Hrs Hn) as P'.
    rewrite !app_nil_r in P, P'. rewrite Eb, P' in P. by simplify_eq.
Qed.

(** ** Choosing a partition *)

(** The partition of a message: the one asked for, the one its key hashes to,
    or the next one in turn. *)
Definition chosen (b : Broker) (t key : bytes) (partition : option Z) : Z :=
  match partition with
  | Some i => i
  | None => if 0 <? zlen key then fnv32a key `mod` 3 else default 0 (b_roundRobin b !! t) `mod` 3
  end.

Definition turn_taken (b : Broker) (t key : bytes) (partition : option Z) : Broker :=
  match partition with
  | Some _ => b
  | None => if 0 <? zlen key then b
            else set_roundRobin (<[t := (chosen b t key None + 1) `mod` 3]> (b_roundRobin b)) b
  end.

Definition valid_choice (partition : option Z) : Prop := ∀ i, partition = Some i → partition_id i.

Lemma chosen_id b t key partition : valid_choice partition → partition_id (chosen b t key partition).
Proof.
  unfold chosen, partition_id. intros Hv. destruct partition as [i|]; [by apply Hv|].
  destruct (0 <? zlen key); [pose proof (Z.mod_pos_bound (fnv32a key) 3); lia|].
  pose proof (Z.mod_pos_bound (default 0 (b_roundRobin b !! t)) 3). lia.
Qed.

Section publish.
Context {D R : Type} `{SN : Snappy} `{!SnappyLaws SN} `{RF : Raft R}.

Definition node_ok (n : node D R) (C : contents) : Prop := broker_ok (n_broker n) (n_world n) C.
Definition node_mode (n : node D R) : bytes → bool := topic_mode (n_broker n).

Lemma select_run t key partition b w (n : node D R) :
  valid_choice partition →
  selectPartition t key partition (upd b w n) =
  (Ok (chosen b t key partition), upd (turn_taken b t key partition) w n).
Proof.
  intros Hv. unfold selectPartition, chosen, turn_taken. destruct partition as [i|].
  - specialize (Hv i eq_refl) as [H0 H3]. destruct (Z.ltb_spec i 0); [lia|].
    unfold defaultNumPartitions. destruct (Z.leb_spec 3 i); [lia|]. done.
  - destruct (Z.ltb_spec 0 (zlen key)); [done|]. cbn [chosen]. destruct (Z.ltb_spec 0 (zlen key)); [lia|]. done.
Qed.

Lemma turn_taken_ok b w C t key partition : broker_ok b w C → broker_ok (turn_taken b t key partition) w C.
Proof.
  unfold turn_taken. intros B. destruct partition; [done|]. destruct (0 <? zlen key); [done|].
  by apply (broker_ok_fields b).
Qed.

Lemma turn_taken_mode b t key partition t' : topic_mode (turn_taken b t key partition) t' = topic_mode b t'.
Proof. unfold turn_taken. destruct partition; [done|]. by destruct (0 <? zlen key). Qed.

Lemma turn_taken_configured b t key partition : all_configured b → all_configured (turn_taken b t key partition).
Proof. unfold turn_taken. by destruct partition, (0 <? zlen key). Qed.

(** ** Replication *)

Lemma replicate_run data r r' es err b w C (n : node D R) :
  broker_ok b w C → n_raft n = Some r → raft_Apply data r = (r', entry_frames es, err) →
  entries_ok (topic_mode b) C es →
  ∃ b' w', replicate_command data (upd b w n) =
      (match err with Some e => Err e | None => Ok (last_response es C None) end, upd b' w' (with_raft (Some r') n)) ∧
    broker_ok b' w' (apply_cmds es C) ∧ same_settings b b'.
Proof.
  intros B Hr Ha Hes. destruct (apply_entries_run es None b w C (with_raft (Some r') n) B Hes) as (b' & w' & Hrun & B' & Hset).
  exists b', w'. split_and!; [|done|done]. unfold replicate_command.
  erewrite run_bind by (unfold the_raft; erewrite run_bind by reflexivity; simpl; rewrite Hr; reflexivity).
  rewrite Ha. erewrite run_bind by reflexivity. change (with_raft (Some r') (upd b w n)) with (upd b w (with_raft (Some r') n)).
  rewrite (run_bind _ _ _ _ _ Hrun). by destruct err.
Qed.

Lemma leader_run r b w (n : node D R) : n_raft n = Some r → IsLeader (upd b w n) = (Ok (raft_IsLeader r), upd b w n).
Proof. intros Hr. unfold IsLeader, the_raft. erewrite run_bind by (erewrite run_bind by reflexivity; simpl; rewrite Hr; reflexivity). done. Qed.

(** The state after a replicated command and its result, in [Publish]. *)
Lemma Publish_run n C r r' es err topic key value partition :
  node_ok n C → n_raft n = Some r → raft_IsLeader r = true →
  let t := defaultTopic topic in
  let i := chosen (n_broker n) t key partition in
  plain t → valid_choice partition →
  raft_Apply (single_frame t i key value) r = (r', entry_frames es, err) →
  entries_ok (node_mode n) C es →
  ∃ n', Publish topic key value partition n =
      (match err with
       | Some e => Err e
       | None =>
           match last_response es C None with
           | Some (RespOffset v) => Ok v
           | Some (RespError e) => Err e
           | _ => Err unexpected_response
           end
       end, n') ∧
    node_ok n' (apply_cmds es C) ∧ n_raft n' = Some r' ∧ n_metrics n' = n_metrics n ∧
    (all_configured (n_broker n) → all_configured (n_broker n')) ∧ (∀ t', node_mode n' t' = node_mode n t').
Proof.
  intros B Hr Hlead t i Ht Hv Ha Hes. unfold Publish. cbv zeta. fold t.
  rewrite <-(upd_id n). rewrite (run_bind _ _ _ _ _ (leader_run r _ _ n Hr)). rewrite Hlead. cbn [negb].
  rewrite (run_bind _ _ _ _ _ (select_run t key partition _ _ n Hv)). fold i.
  assert (Hdt : defaultTopic t = t) by apply defaultTopic_idem.
  destruct (GetPartition_run t i (turn_taken (n_broker n) t key partition) (n_world n) C n) as (p & b1 & w1 & Hg & B1 & Hset & _);
    [by apply turn_taken_ok|by rewrite Hdt|by apply chosen_id|].
  rewrite (run_bind _ _ _ _ _ Hg).
  rewrite (run_bind _ _ _ _ _ (EncodeCommand_frame t i key value _)).
  destruct (replicate_run _ r r' es err b1 w1 C n B1 Hr Ha) as (b2 & w2 & Hrep & B2 & Hset2).
  { eapply entries_ok_mode; [|exact Hes]. intros t'. rewrite (same_settings_mode _ _ _ Hset). apply turn_taken_mode. }
  exists (upd b2 w2 (with_raft (Some r') n)). split_and!; [|exact B2|done|done| |].
  2: { intros Hall. by apply Hset2, Hset, turn_taken_configured. }
  2: { intros t'. unfold node_mode. simpl. rewrite (same_settings_mode _ _ t' Hset2), (same_settings_mode _ _ t' Hset).
       apply turn_taken_mode. }
  destruct err as [e|].
  - by rewrite (run_bind_err _ _ _ _ _ Hrep).
  - rewrite (run_bind _ _ _ _ _ Hrep). by destruct (last_response es C None) as [[]|].
Qed.

(** ** Reading *)

Lemma Read_run topic i o b w C (n : node D R) :
  broker_ok b w C → plain (defaultTopic topic) → partition_id i →
  ∃ b' w', Read topic i o (upd b w n) =
      (read_at (C (defaultTopic topic) i).1 (C (defaultTopic topic) i).2 o, upd b' w' n) ∧
    broker_ok b' w' C ∧ same_settings b b'.
Proof.
  intros B Ht Hi. destruct (GetPartition_run topic i b w C n B Ht Hi) as (p & b1 & w1 & Hg & B1 & Hset & Hp & Hc & _).
  exists b1, w1. split_and!; [|done|done]. unfold Read. rewrite (run_bind _ _ _ _ _ Hg).
  rewrite <-(same_settings_mode _ _ _ Hset) in Hc. by apply read_run_ok.
Qed.

Lemma Read_value topic i o (n : node D R) C :
  node_ok n C → plain (defaultTopic topic) → partition_id i →
  (Read topic i o n).1 = read_at (C (defaultTopic topic) i).1 (C (defaultTopic topic) i).2 o.
Proof.
  intros B Ht Hi. destruct (Read_run topic i o _ _ C n B Ht Hi) as (b' & w' & Hrun & _). rewrite upd_id in Hrun. by rewrite Hrun.
Qed.

(** The result of [ReadBatch] from offset [o] on. *)
Definition read_batch_at (base : Z) (msgs : list Message) (o n : Z) : outcome (list Message) :=
  if o <? base then Err (EMsg "offset %d is before the beginning of the log" [AInt o])
  else Ok (take (Z.to_nat n) (drop (Z.to_nat (o - base)) msgs)).

Lemma read_batch_run b w C t i p o k (n : node D R) :
  broker_ok b w C → lookup_partition b t i = Some p → configured b p (topic_mode b t) → 0 < k →
  on_log p (reading (λ l, Log_ReadBatch l o k)) (upd b w n) = (read_batch_at (C t i).1 (C t i).2 o k, upd b w n).
Proof.
  intros B Hp Hc Hk. destruct (ready_log _ _ _ _ _ _ B Hp Hc) as (l & Hl & _ & _ & _ & W).
  apply Writable_Readable in W. eapply on_log_reading; [done|]. unfold read_batch_at.
  destruct (Z.ltb_spec o (C t i).1).
  - apply (reads_reliable _ _ _ (bo_reliable _ _ _ B)). by eapply reads_Log_ReadBatch_below.
  - pose proof (wp_Log_ReadBatch w l _ _ o k W) as HW. unfold wp in HW.
    pose proof (bo_reliable _ _ _ B) as Hrel.
    destruct (Log_ReadBatch l o k w) as [[ms|e|] w']; [| |by destruct HW].
    + destruct HW as [Hro [->|[Hf _]]]; [done..| |done]. by rewrite (ro_reliable _ _ Hrel Hro).
    + destruct HW as [_ He]; [done..|]. by apply reliable_no_error in He.
Qed.

Lemma ReadBatch_run topic i o k b w C (n : node D R) :
  broker_ok b w C → plain (defaultTopic topic) → partition_id i → 0 ≤ o < 2 ^ 63 → 0 < k →
  ∃ b' w', ReadBatch topic i o k (upd b w n) =
      (read_batch_at (C (defaultTopic topic) i).1 (C (defaultTopic topic) i).2 o (k `min` 1000), upd b' w' n) ∧
    broker_ok b' w' C ∧ same_settings b b'.
Proof.
  intros B Ht Hi Ho Hk. destruct (GetPartition_run topic i b w C n B Ht Hi) as (p & b1 & w1 & Hg & B1 & Hset & Hp & Hc & _).
  exists b1, w1. split_and!; [|done|done]. unfold ReadBatch. unfold partition_id in Hi.
  destruct (Z.ltb_spec o 0); [lia|]. destruct (Z.leb_spec k 0); [lia|]. cbv zeta.
  destruct (Z.ltb_spec i 0); [lia|]. destruct (Z.leb_spec defaultNumPartitions i); [unfold defaultNumPartitions in *; lia|].
  cbn [orb]. rewrite (run_bind _ _ _ _ _ Hg).
  rewrite <-(same_settings_mode _ _ _ Hset) in Hc.
  replace (u64 o) with o by (unfold u64; symmetry; apply Z.mod_small; lia).
  rewrite (read_batch_run _ _ _ _ _ _ _ _ _ B1 Hp Hc) by (destruct (Z.ltb_spec 1000 k); lia).
  replace (if 1000 <? k then 1000 else k) with (k `min` 1000) by (destruct (Z.ltb_spec 1000 k); lia). done.
Qed.

(** ** A published message *)

(** The committed entries end with the command that was proposed. *)
Lemma applied_last `{!RaftLaws R} data r r' es :
  raft_Apply data r = (r', entry_frames es, None) →
  ∃ before c now, es = before ++ [(c, now)] ∧ cmd_frame c = data.
Proof.
  intros (before & now & E)%raft_applied.
  induction es as [|[c now'] es0 _] using rev_ind.
  - by destruct before.
  - unfold entry_frames in E. rewrite fmap_app in E. simpl in E. apply app_inj_tail in E as [_ [= E _]].
    by exists es0, c, now'.
Qed.

Lemma set_contents_eq t i x C : set_contents t i x C t i = x.
Proof. unfold set_contents. by rewrite decide_True. Qed.

Lemma read_at_last base msgs m : read_at base (msgs ++ [m]) (base + zlen msgs) = Ok m.
Proof.
  unfold read_at. destruct (Z.ltb_spec (base + zlen msgs) base); [lia|].
  replace (Z.to_nat (base + zlen msgs - base)) with (length msgs) by lia. by rewrite list_lookup_middle.
Qed.

(** Reading what an entry appended last. *)
Lemma Read_appended topic i (n : node D R) C base msgs m :
  node_ok n C → plain (defaultTopic topic) → partition_id i →
  C (defaultTopic topic) i = (base, msgs ++ [m]) →
  (Read topic i (base + zlen msgs) n).1 = Ok m.
Proof.
  intros B Ht Hi HC. rewrite <-(upd_id n).
  destruct (Read_run topic i (base + zlen msgs) _ _ C n B Ht Hi) as (b' & w' & Hrun & _ & _).
  rewrite Hrun, HC. apply read_at_last.
Qed.

(** Publish on the leader, when its future succeeds. *)
Lemma Publish_stored `{!RaftLaws R} (n : node D R) C r r' es topic key value partition :
  node_ok n C → n_raft n = Some r → raft_IsLeader r = true →
  let t := defaultTopic topic in
  let i := chosen (n_broker n) t key partition in
  plain t → zlen t < 2 ^ 16 → kv_ok key value → valid_choice partition →
  raft_Apply (single_frame t i key value) r = (r', entry_frames es, None) →
  entries_ok (node_mode n) C es →
  ∃ before t' now n', es = before ++ [(CmdSingle t' i key value, now)] ∧ defaultTopic t' = t ∧
    let o := next_offset (apply_cmds before C) t i in
    Publish topic key value partition n = (Ok o, n') ∧
    node_ok n' (apply_cmds es C) ∧
    n_metrics n' = n_metrics n ∧
    (apply_cmds es C t i).2 = (apply_cmds before C t i).2 ++ [mkMessage o now key value] ∧
    (Read topic i o n').1 = Ok (mkMessage o now key value).
Proof.
  intros B Hr Hlead t i Ht Hlen Hkv Hv Ha Hes. destruct (applied_last _ _ _ _ Ha) as (before & c & now & -> & Hf).
  assert (Hi : partition_id i) by by apply chosen_id.
  assert (Hidem : defaultTopic t = t) by apply defaultTopic_idem.
  pose proof Hes as [_ Hc]%entries_ok_snoc.
  destruct (cmd_frame_single _ _ _ _ t i key value Hc) as (t' & -> & Et); [by split; [|apply partition_u32]|done|done|].
  rewrite Hidem in Et.
  destruct (Publish_run n C r r' _ None topic key value partition B Hr Hlead Ht Hv Ha Hes) as (n' & Hpub & B' & _ & Hm & _).
  exists before, t', now, n'. split_and!; [done|done|].
  assert (HC : apply_cmds (before ++ [(CmdSingle t' i key value, now)]) C t i =
    ((apply_cmds before C t i).1,
     (apply_cmds before C t i).2 ++ [mkMessage (next_offset (apply_cmds before C) t i) now key value])).
  { rewrite apply_cmds_app. simpl. unfold apply_cmd. simpl. rewrite Et. apply set_contents_eq. }
  cbv zeta. split_and!; [|exact B'|exact Hm|by rewrite HC|].
  - rewrite Hpub, last_response_snoc. simpl. by rewrite Et.
  - exact (Read_appended topic i n' _ _ _ _ B' Ht Hi HC).
Qed.

(** ** Batches *)

(** The records of a request that has no nil record. *)
Definition some_records (rs : list BatchRecord) : pb_records := (λ r, Some (br_Key r, br_Value r)) <$> rs.

Lemma command_records_run rs i (s : node D R) : command_records i (some_records rs) s = (Ok rs, s).
Proof.
  revert i. induction rs as [|[key value] rs IH]; intros i; [done|]. cbn.
  by rewrite (run_bind _ _ _ _ _ (IH (i + 1))).
Qed.

Lemma command_records_nil rs1 rs2 i (s : node D R) :
  command_records i (some_records rs1 ++ None :: rs2) s = (Err (EMsg "record %d is nil" [AInt (i + zlen rs1)]), s).
Proof.
  revert i. induction rs1 as [|[key value] rs1 IH]; intros i.
  - cbn. by rewrite Z.add_0_r.
  - cbn. rewrite (run_bind_err _ _ _ _ _ (IH (i + 1))). replace (i + 1 + zlen rs1) with (i + Z.of_nat (S (length rs1))) by lia. done.
Qed.

Lemma offsets_int64_run os (s : node D R) :
  Forall (λ o, 0 ≤ o < 2 ^ 63) os → offsets_int64 os s = (Ok os, s).
Proof.
  induction 1 as [|o os Ho _ IH]; [done|]. cbn. destruct (Z.ltb_spec (2 ^ 63 - 1) o); [lia|].
  rewrite (run_bind _ _ _ _ _ IH). by rewrite i64_id by (unfold is_i64; lia).
Qed.

Lemma offsets_int64_pure os (s : node D R) : offsets_int64 os s = ((offsets_int64 os s).1, s).
Proof.
  induction os as [|o os IH]; [done|]. cbn. destruct (Z.ltb_spec (2 ^ 63 - 1) o); [done|].
  unfold mbind, gom_bind. destruct (offsets_int64 os s) as [r s'] eqn:E. simpl in IH. simplify_eq. by destruct r.
Qed.

Lemma PublishBatch_run n C r r' es err topic i records :
  node_ok n C → n_raft n = Some r → raft_IsLeader r = true →
  let t := defaultTopic topic in
  plain t → partition_id i → records ≠ [] →
  raft_Apply (batch_frame t i records) r = (r', entry_frames es, err) →
  entries_ok (node_mode n) C es →
  ∃ n', PublishBatch topic i (some_records records) n =
      (match err with
       | Some e => Err e
       | None =>
           match last_response es C None with
           | Some (RespOffsets v) => (offsets_int64 v n').1
           | Some (RespError e) => Err e
           | _ => Err unexpected_response
           end
       end, n') ∧
    node_ok n' (apply_cmds es C) ∧ n_raft n' = Some r' ∧ (all_configured (n_broker n) → all_configured (n_broker n')).
Proof.
  intros B Hr Hlead t Ht Hi Hne Ha Hes. unfold PublishBatch. cbv zeta. fold t.
  rewrite <-(upd_id n). rewrite (run_bind _ _ _ _ _ (leader_run r _ _ n Hr)). rewrite Hlead. cbn [negb].
  assert (Hrange : (i <? 0) || (defaultNumPartitions <=? i) = false).
  { unfold partition_id, defaultNumPartitions in *. destruct (Z.ltb_spec i 0), (Z.leb_spec 3 i); lia. }
  rewrite Hrange. destruct records as [|rec records]; [done|]. cbn [some_records fmap list_fmap].
  change (Some (br_Key rec, br_Value rec) :: ((λ r, Some (br_Key r, br_Value r)) <$> records)) with (some_records (rec :: records)).
  destruct (GetPartition_run t i (n_broker n) (n_world n) C n) as (p & b1 & w1 & Hg & B1 & Hset & _);
    [done|by unfold t; rewrite defaultTopic_idem|done|].
  rewrite (run_bind _ _ _ _ _ Hg), (run_bind _ _ _ _ _ (command_records_run (rec :: records) 0 _)).
  rewrite (run_bind _ _ _ _ _ (EncodeBatchCommand_frame t i _ _)).
  destruct (replicate_run _ r r' es err b1 w1 C n B1 Hr Ha) as (b2 & w2 & Hrep & B2 & Hset2).
  { eapply entries_ok_mode; [|exact Hes]. intros t'. by rewrite (same_settings_mode _ _ _ Hset). }
  exists (upd b2 w2 (with_raft (Some r') n)). split_and!; [|exact B2|done|].
  2: { intros Hall. by apply Hset2, Hset. }
  destruct err as [e|].
  - by rewrite (run_bind_err _ _ _ _ _ Hrep).
  - rewrite (run_bind _ _ _ _ _ Hrep). destruct (last_response es C None) as [[]|]; try done.
    apply offsets_int64_pure.
Qed.

End publish.
