(* ===== verification/BrokerProps.v ===== *)
(** * Properties of the broker

    Publishing through Raft and reading back, replication, restarts, and the
    choice of a partition. *)

From S2P Require Import Prelude GoNum GoNet Path OS Snappy Segment SegmentRep SegmentRead SegmentWrite SegmentOpen.
From S2P Require Import Log LogRep LogView LogWrite LogOpen LogMessages Frame LogFrame.
From S2P Require Import RaftFSM RaftSpec RaftProps ConsumerGroup Broker BrokerRep BrokerRun BrokerSpec BrokerPublish.

(** ** The data of a partition, without the time of each replica *)

Definition untimed (m : Message) : Z * bytes * bytes := (Offset m, Key m, Value m).

Definition payload (m : Message) : bytes * bytes := (Key m, Value m).

(** Contents that differ in timestamps only. *)
Definition same_data (C C' : contents) : Prop :=
  ∀ t i, (C t i).1 = (C' t i).1 ∧ untimed <$> (C t i).2 = untimed <$> (C' t i).2.

#[global] Instance same_data_equiv : Equivalence same_data.
Proof.
  unfold same_data. split.
  - by intros C t i.
  - intros C C' H t i. by destruct (H t i) as [-> ->].
  - intros C1 C2 C3 H12 H23 t i. destruct (H12 t i) as [-> ->]. apply H23.
Qed.

Lemma same_data_length C C' t i : same_data C C' → zlen (C t i).2 = zlen (C' t i).2.
Proof. intros H. destruct (H t i) as [_ E]. apply (f_equal length) in E. rewrite !length_fmap in E. lia. Qed.

#[global] Instance next_offset_proper : Proper (same_data ==> eq ==> eq ==> eq) next_offset.
Proof.
  intros C C' H t ? <- i ? <-. unfold next_offset. rewrite (same_data_length _ _ t i H). by destruct (H t i) as [-> _].
Qed.

#[global] Instance cmd_response_proper : Proper (same_data ==> eq ==> eq) cmd_response.
Proof. intros C C' H c ? <-. unfold cmd_response. cbv zeta. by rewrite (next_offset_proper C C' H _ _ eq_refl _ _ eq_refl). Qed.

Lemma messages_from_untimed now now' o records :
  untimed <$> messages_from o (records_at now records) = untimed <$> messages_from o (records_at now' records).
Proof. revert o. induction records as [|r rs IH]; intros o; [done|]. cbn. f_equal. apply IH. Qed.

Lemma cmd_messages_untimed o now now' c : untimed <$> cmd_messages o now c = untimed <$> cmd_messages o now' c.
Proof. destruct c; [done|]. apply messages_from_untimed. Qed.

Lemma apply_cmd_same now now' c C C' : same_data C C' → same_data (apply_cmd now c C) (apply_cmd now' c C').
Proof.
  intros H t i. unfold apply_cmd, set_contents. case_decide; [|apply H].
  destruct (H (cmd_topic c) (cmd_partition c)) as [-> E]. simpl. split; [done|].
  rewrite !fmap_app, E, (next_offset_proper C C' H _ _ eq_refl _ _ eq_refl). f_equal. apply cmd_messages_untimed.
Qed.

Lemma apply_cmds_same es es' C C' :
  es.*1 = es'.*1 → same_data C C' → same_data (apply_cmds es C) (apply_cmds es' C').
Proof.
  revert es' C C'. induction es as [|[c now] es IH]; intros [|[c' now'] es'] C C'; try done.
  simpl. intros [= <- E] H. apply IH; [done|]. by apply apply_cmd_same.
Qed.

Lemma last_response_same es es' C C' l :
  es.*1 = es'.*1 → same_data C C' → last_response es C l = last_response es' C' l.
Proof.
  revert es' C C' l. induction es as [|[c now] es IH]; intros [|[c' now'] es'] C C' l; try done.
  simpl. intros [= <- E] H. rewrite (cmd_response_proper C C' H c c eq_refl). apply IH; [done|]. by apply apply_cmd_same.
Qed.

(** The payloads that a sequence of commands adds to a partition. *)
Definition cmd_payloads (c : cmd) : list (bytes * bytes) :=
  match c with
  | CmdSingle _ _ key value => [(key, value)]
  | CmdBatch _ _ records => (λ r, (br_Key r, br_Value r)) <$> records
  end.

Fixpoint payloads_to (t : bytes) (i : Z) (es : list (cmd * Z)) : list (bytes * bytes) :=
  match es with
  | [] => []
  | (c, _) :: es => (if decide (t = cmd_topic c ∧ i = cmd_partition c) then cmd_payloads c else []) ++ payloads_to t i es
  end.

Lemma messages_from_payload o now records :
  payload <$> messages_from o (records_at now records) = (λ r, (br_Key r, br_Value r)) <$> records.
Proof. revert o. induction records as [|r rs IH]; intros o; [done|]. cbn. f_equal. apply IH. Qed.

Lemma cmd_messages_payload o now c : payload <$> cmd_messages o now c = cmd_payloads c.
Proof. destruct c; [done|]. apply messages_from_payload. Qed.

Lemma apply_cmds_payload es C t i :
  (apply_cmds es C t i).1 = (C t i).1 ∧ payload <$> (apply_cmds es C t i).2 = (payload <$> (C t i).2) ++ payloads_to t i es.
Proof.
  revert C. induction es as [|[c now] es IH]; intros C; simpl; [by rewrite app_nil_r|].
  destruct (IH (apply_cmd now c C)) as [-> ->]. unfold apply_cmd, set_contents.
  case_decide as E; [|done]. destruct E as [-> ->]. simpl. split; [done|].
  by rewrite fmap_app, cmd_messages_payload, <-app_assoc.
Qed.

Lemma payloads_to_same t i es es' : es.*1 = es'.*1 → payloads_to t i es = payloads_to t i es'.
Proof.
  revert es'. induction es as [|[c now] es IH]; intros [|[c' now'] es']; try done. simpl. intros [= <- E]. by rewrite (IH es').
Qed.

(** ** Offsets of a batch *)

Lemma offsets_int64_from {D R} o a k (s : node D R) :
  0 ≤ o + Z.of_nat a →
  (offsets_int64 ((λ j, o + Z.of_nat j) <$> seq a k) s).1 =
  if decide (k = 0%nat ∨ o + Z.of_nat a + Z.of_nat k ≤ 2 ^ 63) then Ok ((λ j, o + Z.of_nat j) <$> seq a k)
  else Err (EMsg "offset %d exceeds int64 range" [AInt (Z.max (o + Z.of_nat a) (2 ^ 63))]).
Proof.
  revert a. induction k as [|k IH]; intros a Ha; [done|]. cbn [seq fmap list_fmap offsets_int64].
  destruct (Z.ltb_spec (2 ^ 63 - 1) (o + Z.of_nat a)).
  { rewrite decide_False by lia. by rewrite Z.max_l by lia. }
  specialize (IH (S a) ltac:(lia)). change ((λ j, o + Z.of_nat j) <$> seq (S a) k) with (list_fmap _ _ (λ j, o + Z.of_nat j) (seq (S a) k)) in IH.
  unfold mbind, gom_bind. destruct (offsets_int64 _ s) as [r s'] eqn:E. simpl in IH. subst r.
  destruct (decide (k = 0%nat ∨ o + Z.of_nat (S a) + Z.of_nat k ≤ 2 ^ 63)).
  - rewrite decide_True by lia. simpl. by rewrite i64_id by (unfold is_i64; lia).
  - rewrite decide_False by lia. simpl. do 4 f_equal. lia.
Qed.

(** ** Properties *)

Section props.
Context {D R : Type} `{SN : Snappy} `{!SnappyLaws SN} `{RF : Raft R}.

(** C1.  Publishing on the leader.  The command goes through Raft, and whatever
    entries of other clients reach the state machine with it, Publish returns
    the offset at which its own message was appended: the next offset of the
    partition after the entries that came first.  The messages of all
    partitions are those of the committed entries applied in order, and reading
    the offset gives the key and the value back. *)
Theorem publish_then_read `{!RaftLaws R} (n : node D R) C r r' es topic key value partition :
  node_ok n C → n_raft n = Some r → raft_IsLeader r = true →
  let t := defaultTopic topic in
  let i := chosen (n_broker n) t key partition in
  plain t → zlen t < 2 ^ 16 → kv_ok key value → valid_choice partition →
  raft_Apply (single_frame t i key value) r = (r', entry_frames es, None) →
  entries_ok (node_mode n) C es →
  ∃ before t' now n', es = before ++ [(CmdSingle t' i key value, now)] ∧ defaultTopic t' = t ∧
    let o := next_offset (apply_cmds before C) t i in
    Publish topic key value partition n = (Ok o, n') ∧
    node_ok n' (apply_cmds es C) ∧
    (apply_cmds es C t i).2 = (apply_cmds before C t i).2 ++ [mkMessage o now key value] ∧
    (Read topic i o n').1 = Ok (mkMessage o now key value).
Proof.
  intros B Hr Hlead t i Ht Hlen Hkv Hv Ha Hes.
  destruct (Publish_stored n C r r' es topic key value partition B Hr Hlead Ht Hlen Hkv Hv Ha Hes)
    as (before & t' & now & n' & He & Et & Hpub & B' & _ & HC & Hread).
  exists before, t', now, n'. by split_and!.
Qed.

(** The result of reading a message and the one that was stored after it. *)
Lemma Read_last_two topic i (n : node D R) C base msgs m1 m2 :
  node_ok n C → plain (defaultTopic topic) → partition_id i → C (defaultTopic topic) i = (base, (msgs ++ [m1]) ++ [m2]) →
  (Read topic i (base + zlen msgs) n).1 = Ok m1 ∧ (Read topic i (base + zlen msgs + 1) n).1 = Ok m2.
Proof.
  intros B Ht Hi HC. split.
  - rewrite (Read_value topic i _ n C B Ht Hi), HC. unfold read_at. simpl.
    destruct (Z.ltb_spec (base + zlen msgs) base); [lia|].
    replace (Z.to_nat (base + zlen msgs - base)) with (length msgs) by lia. rewrite <-app_assoc. cbn [app]. by rewrite list_lookup_middle.
  - replace (base + zlen msgs + 1) with (base + zlen (msgs ++ [m1])) by (rewrite length_app; simpl; lia).
    by eapply Read_appended.
Qed.

(** C38.  A Publish that fails after it proposed its command, because leadership
    was lost, has appended nothing itself; but its entry is in the Raft log, and
    the next leader may commit it.  When it reaches the state machine later, the
    message is stored at the next offset, and a client that has published again
    after the error has its message stored twice. *)
Theorem failed_publish_may_be_stored (n : node D R) C r r' es e topic key value partition now :
  node_ok n C → n_raft n = Some r → raft_IsLeader r = true →
  let t := defaultTopic topic in
  let i := chosen (n_broker n) t key partition in
  plain t → valid_choice partition → partition ≠ None ∨ 0 < zlen key →
  raft_Apply (single_frame t i key value) r = (r', entry_frames es, Some e) →
  entries_ok (node_mode n) C es →
  let c := CmdSingle t i key value in
  let C1 := apply_cmds es C in
  let o := next_offset C1 t i in
  cmd_ok (node_mode n) C1 now c →
  ∃ n1, Publish topic key value partition n = (Err e, n1) ∧ node_ok n1 C1 ∧
  ∃ response n2, apply_entries (entry_frames [(c, now)]) None n1 = (Ok response, n2) ∧
    (Read topic i o n2).1 = Ok (mkMessage o now key value) ∧
    ∀ r2 now2, raft_IsLeader r' = true →
      raft_Apply (single_frame t i key value) r' = (r2, entry_frames [(c, now2)], None) →
      cmd_ok (node_mode n) (apply_cmd now c C1) now2 c →
      ∃ n3, Publish topic key value partition n2 = (Ok (o + 1), n3) ∧
        (Read topic i o n3).1 = Ok (mkMessage o now key value) ∧
        (Read topic i (o + 1) n3).1 = Ok (mkMessage (o + 1) now2 key value).
Proof.
  intros B Hr Hlead t i Ht Hv Hkey Ha Hes c C1 o Hc.
  assert (Hi : partition_id i) by by apply chosen_id.
  assert (Hidem : defaultTopic t = t) by apply defaultTopic_idem.
  destruct (Publish_run n C r r' es (Some e) topic key value partition B Hr Hlead Ht Hv Ha Hes)
    as (n1 & Hpub & B1 & Hr1 & _ & _ & Hm1).
  exists n1. split; [exact Hpub|]. split; [exact B1|].
  destruct (apply_entries_run [(c, now)] None _ _ C1 n1 B1) as (b2 & w2 & Hrun & B2 & Hset).
  { eapply entries_ok_mode; [exact Hm1|]. by split. }
  rewrite upd_id in Hrun. set (n2 := upd b2 w2 n1) in *.
  assert (HC2 : apply_cmd now c C1 t i = ((C1 t i).1, (C1 t i).2 ++ [mkMessage o now key value])).
  { unfold apply_cmd. simpl. rewrite Hidem. apply set_contents_eq. }
  eexists _, n2. split; [exact Hrun|]. split; [exact (Read_appended topic i n2 _ _ _ _ B2 Ht Hi HC2)|].
  intros r2 now2 Hlead' Ha' Hc2.
  assert (chosen (n_broker n2) t key partition = i) as Hi2.
  { unfold i, chosen. destruct partition as [j|]; [done|]. destruct Hkey as [|Hkey]; [done|].
    by destruct (Z.ltb_spec 0 (zlen key)); [|lia]. }
  assert (∀ t', node_mode n2 t' = node_mode n t') as Hm2.
  { intros t'. rewrite <-Hm1. exact (same_settings_mode _ _ t' Hset). }
  destruct (Publish_run n2 (apply_cmd now c C1) r' r2 [(c, now2)] None topic key value partition B2 Hr1 Hlead' Ht Hv)
    as (n3 & Hpub3 & B3 & _).
  { fold t. by rewrite Hi2. }
  { eapply entries_ok_mode; [exact Hm2|]. by split. }
  assert (next_offset (apply_cmd now c C1) t i = o + 1) as Ho.
  { unfold next_offset. rewrite HC2. simpl. rewrite length_app. simpl. unfold o, next_offset. lia. }
  assert (HC3 : apply_cmds [(c, now2)] (apply_cmd now c C1) t i =
    ((C1 t i).1, ((C1 t i).2 ++ [mkMessage o now key value]) ++ [mkMessage (o + 1) now2 key value])).
  { simpl. unfold apply_cmd at 1. simpl. rewrite Hidem, Ho, set_contents_eq. by rewrite HC2. }
  exists n3. split; [|exact (Read_last_two topic i n3 _ _ _ _ _ B3 Ht Hi HC3)].
  rewrite Hpub3. f_equal. simpl. unfold cmd_response. simpl. rewrite Hidem. by rewrite Ho.
Qed.

(** C13.  PublishBatch on the leader appends its records in order at consecutive
    offsets, with one time, after the entries that came first, and returns the
    offsets.  The offsets are [int64] on the wire: when one of them does not
    fit, the call fails although all records are stored. *)
Theorem publish_batch_correct `{!RaftLaws R} (n : node D R) C r r' es topic i records :
  node_ok n C → n_raft n = Some r → raft_IsLeader r = true →
  let t := defaultTopic topic in
  plain t → zlen t < 2 ^ 16 → partition_id i → records ≠ [] →
  Forall (λ rec, kv_ok (br_Key rec) (br_Value rec)) records → zlen records < 2 ^ 32 →
  raft_Apply (batch_frame t i records) r = (r', entry_frames es, None) →
  entries_ok (node_mode n) C es → 0 ≤ (C t i).1 →
  ∃ before now n', before = take (pred (length es)) es ∧
    let o := next_offset (apply_cmds before C) t i in
    PublishBatch topic i (some_records records) n =
      (if decide (o + zlen records ≤ 2 ^ 63) then Ok ((λ j, o + Z.of_nat j) <$> seq 0 (length records))
       else Err (EMsg "offset %d exceeds int64 range" [AInt (Z.max o (2 ^ 63))]), n') ∧
    node_ok n' (apply_cmds es C) ∧
    (apply_cmds es C t i).2 = (apply_cmds before C t i).2 ++ messages_from o (records_at now records).
Proof.
  intros B Hr Hlead t Ht Hlen Hi Hne Hrs Hn Ha Hes H0. destruct (applied_last _ _ _ _ Ha) as (before & c & now & -> & Hf).
  assert (Hidem : defaultTopic t = t) by apply defaultTopic_idem.
  pose proof Hes as [_ Hc]%entries_ok_snoc.
  destruct (cmd_frame_batch _ _ _ _ t i records Hc) as (t' & rs & -> & Et & Hrsn); [by split; [|apply partition_u32]|done..|].
  rewrite Hidem in Et.
  assert (Hl : length rs = length records).
  { pose proof (f_equal length (Hrsn now)) as E. unfold records_at in E. by rewrite !length_fmap in E. }
  destruct (PublishBatch_run n C r r' _ None topic i records B Hr Hlead Ht Hi Hne Ha Hes) as (n' & Hpub & B' & _).
  exists before, now, n'. split; [rewrite length_app, Nat.add_1_r; simpl; by rewrite take_app_length|].
  cbv zeta. split_and!; [|exact B'|].
  - rewrite Hpub, last_response_snoc. simpl. rewrite Et, Hl.
    assert (Hbase : 0 ≤ next_offset (apply_cmds before C) t i).
    { unfold next_offset. destruct (apply_cmds_payload before C t i) as [-> _]. lia. }
    rewrite offsets_int64_from by lia. rewrite !Z.add_0_r.
    assert (length records ≠ 0%nat) by (by destruct records).
    destruct (decide (next_offset (apply_cmds before C) t i + zlen records ≤ 2 ^ 63)).
    + by rewrite decide_True by lia.
    + by rewrite decide_False by lia.
  - rewrite apply_cmds_app. simpl. unfold apply_cmd. simpl. rewrite Et, set_contents_eq. simpl. by rewrite Hrsn.
Qed.

(** C6.  Replicas agree.  Two brokers with the same data that apply the same
    commands give the same responses and end with the same offsets, keys and
    values in every partition, whatever the time on each machine, the logs that
    are open, and the compression mode of their topics: only timestamps, which
    each replica takes from its own clock, can differ. *)
Theorem replicas_agree (n1 n2 : node D R) C1 C2 es1 es2 l :
  node_ok n1 C1 → node_ok n2 C2 → same_data C1 C2 → es1.*1 = es2.*1 →
  entries_ok (node_mode n1) C1 es1 → entries_ok (node_mode n2) C2 es2 →
  ∃ n1' n2' C1' C2' response,
    apply_entries (entry_frames es1) l n1 = (Ok response, n1') ∧
    apply_entries (entry_frames es2) l n2 = (Ok response, n2') ∧
    node_ok n1' C1' ∧ node_ok n2' C2' ∧ same_data C1' C2'.
Proof.
  intros B1 B2 HC He H1 H2.
  destruct (apply_entries_run es1 l _ _ _ n1 B1 H1) as (b1 & w1 & Hr1 & B1' & _).
  destruct (apply_entries_run es2 l _ _ _ n2 B2 H2) as (b2 & w2 & Hr2 & B2' & _).
  rewrite upd_id in Hr1, Hr2. rewrite <-(last_response_same _ _ _ _ l He HC) in Hr2.
  exists (upd b1 w1 n1), (upd b2 w2 n2), (apply_cmds es1 C1), (apply_cmds es2 C2), (last_response es1 C1 l).
  split_and!; [done..|]. by apply apply_cmds_same.
Qed.

(** ** Restarting *)

(** A broker that starts on the files of another. *)
Definition restarted (b : Broker) (configs : gmap bytes TopicConfig) : Broker :=
  mkBroker ∅ [] ∅ (b_dataDir b) configs ∅ [].

Lemma restarted_ok b w C configs :
  broker_ok b w C → (∀ t, topic_mode (restarted b configs) t = topic_mode b t) → broker_ok (restarted b configs) w C.
Proof.
  intros B Hm. split; [apply B|apply B|done|done|]. intros t i Ht Hi _. rewrite Hm.
  change (topic_dir (restarted b configs) t i) with (topic_dir b t i).
  destruct (b_logs b !! t) as [ps|] eqn:Hps; [|by apply B].
  destruct (bo_topics _ _ _ B _ _ Hps) as [_ Hlen]. unfold partition_id in Hi.
  destruct (lookup_lt_is_Some_2 ps (Z.to_nat i)) as [p Hp]; [lia|].
  destruct (bo_open _ _ _ B t i p) as (l & _ & Hd & Hz & W); [apply lookup_partition_Some; naive_solver lia|].
  by eapply stored_compressed.
Qed.

Definition restart (configs : gmap bytes TopicConfig) (n : node D R) : node D R :=
  with_broker (restarted (n_broker n) configs) n.

(** C17.  What was stored survives the process: a broker that starts on the
    files another left, with the same compression mode for every topic, gives
    the same answer to every Read. *)
Theorem restart_keeps_messages (n : node D R) C configs topic i o :
  node_ok n C → (∀ t, topic_mode (restarted (n_broker n) configs) t = node_mode n t) →
  plain (defaultTopic topic) → partition_id i →
  (Read topic i o (restart configs n)).1 = (Read topic i o n).1.
Proof.
  intros B Hm Ht Hi. pose proof (restarted_ok _ _ _ configs B Hm) as B'.
  destruct (Read_run topic i o _ _ C n B Ht Hi) as (b1 & w1 & H1 & _). rewrite upd_id in H1.
  destruct (Read_run topic i o _ _ C n B' Ht Hi) as (b2 & w2 & H2 & _).
  change (upd (restarted (n_broker n) configs) (n_world n) n) with (restart configs n) in H2. by rewrite H1, H2.
Qed.

(** C16.  Raft replays its log to a state machine that starts without a
    snapshot, and snapshots are empty; but the partition logs are on disk and
    are not cleared.  So after a restart each replayed command is appended once
    more: every partition ends with its messages twice. *)
Theorem replay_duplicates_messages (n : node D R) C configs es es' l t i :
  node_ok n C → (∀ t, topic_mode (restarted (n_broker n) configs) t = node_mode n t) →
  payload <$> (C t i).2 = payloads_to t i es →
  es'.*1 = es.*1 → entries_ok (node_mode n) C es' →
  ∃ response n' C', apply_entries (entry_frames es') l (restart configs n) = (Ok response, n') ∧ node_ok n' C' ∧
    (C' t i).1 = (C t i).1 ∧ payload <$> (C' t i).2 = (payload <$> (C t i).2) ++ (payload <$> (C t i).2).
Proof.
  intros B Hm HC He Hes. pose proof (restarted_ok _ _ _ configs B Hm) as B'.
  destruct (apply_entries_run es' l _ _ _ n B') as (b' & w' & Hrun & B'' & _).
  { eapply entries_ok_mode; [|exact Hes]. exact Hm. }
  change (upd (restarted (n_broker n) configs) (n_world n) n) with (restart configs n) in Hrun.
  do 2 eexists. exists (apply_cmds es' C). split; [exact Hrun|]. split; [exact B''|].
  destruct (apply_cmds_payload es' C t i) as [-> ->]. split; [done|]. f_equal. rewrite HC. by apply payloads_to_same.
Qed.

(** ** Partitions *)

(** GetPartition opens the three partitions of a topic the first time, with
    what their directories hold, and gives the same log from then on; it
    changes no message of any topic.  A partition out of range is refused
    before anything is touched. *)
Theorem get_partition_correct (n : node D R) C topic i :
  node_ok n C → plain (defaultTopic topic) →
  if decide (partition_id i) then
    ∃ p n' n'', broker_GetPartition topic i n = (Ok p, n') ∧ node_ok n' C ∧
      broker_GetPartition topic i n' = (Ok p, n'') ∧ node_ok n'' C
  else broker_GetPartition topic i n = (Err (partition_error i), n).
Proof.
  intros B Ht. case_decide as Hi.
  - destruct (GetPartition_run topic i _ _ C n B Ht Hi) as (p & b1 & w1 & Hg & B1 & _ & Hp & _). rewrite upd_id in Hg.
    destruct (GetPartition_run topic i b1 w1 C n B1 Ht Hi) as (p' & b2 & w2 & Hg' & B2 & _ & Hp' & _ & Hkeep).
    assert (p' = p) as -> by (specialize (Hkeep _ _ _ Hp); congruence).
    by exists p, (upd b1 w1 n), (upd b2 w2 n).
  - unfold broker_GetPartition. unfold partition_id, defaultNumPartitions in *.
    by destruct (Z.ltb_spec i 0), (Z.leb_spec 3 i); try lia.
Qed.

(** The partitions of [k] messages published one after the other. *)
Fixpoint select_many (t key : bytes) (k : nat) : GoM (node D R) (list Z) :=
  match k with
  | O => mret []
  | S k => i ← selectPartition t key None; rest ← select_many t key k; mret (i :: rest)
  end.

Lemma select_many_turns t k (n : node D R) :
  (select_many t [] k n).1 = Ok ((λ j, (default 0 (b_roundRobin (n_broker n) !! t) + Z.of_nat j) `mod` 3) <$> seq 0 k).
Proof.
  revert n. induction k as [|k IH]; intros n; [done|]. cbn [select_many seq fmap list_fmap].
  set (s := default 0 (b_roundRobin (n_broker n) !! t)).
  set (n1 := with_broker (set_roundRobin (<[t := (s `mod` 3 + 1) `mod` 3]> (b_roundRobin (n_broker n))) (n_broker n)) n).
  assert (Hsel : selectPartition t [] None n = (Ok (s `mod` 3), n1)) by done.
  rewrite (run_bind _ _ _ _ _ Hsel). specialize (IH n1).
  change (b_roundRobin (n_broker n1)) with (<[t := (s `mod` 3 + 1) `mod` 3]> (b_roundRobin (n_broker n))) in IH.
  rewrite lookup_insert_eq in IH. simpl in IH.
  unfold mbind, gom_bind. destruct (select_many t [] k n1) as [r s'] eqn:E. simpl in IH. subst r. simpl.
  rewrite Z.add_0_r. do 2 f_equal. rewrite <-fmap_S_seq, <-list_fmap_compose. apply list_fmap_ext. intros j x _. simpl.
  rewrite Zplus_mod_idemp_l, <-Z.add_assoc, Zplus_mod_idemp_l. f_equal. lia.
Qed.

(** C39.  Messages without a key go to the partitions in turn: the partitions
    selected for [k] messages are [s], [s + 1], ... modulo 3, so any three in a
    row reach all three partitions.  Messages with a key always go to the
    partition the key hashes to. *)
Theorem partitions_in_turn (n : node D R) t key k :
  (select_many t key k n).1 =
  Ok (if 0 <? zlen key then replicate k (fnv32a key `mod` 3)
      else (λ j, (default 0 (b_roundRobin (n_broker n) !! t) + Z.of_nat j) `mod` 3) <$> seq 0 k).
Proof.
  destruct (Z.ltb_spec 0 (zlen key)) as [Hk|Hk].
  - induction k as [|k IH]; [done|]. cbn [select_many replicate].
    assert (Hsel : selectPartition t key None n = (Ok (fnv32a key `mod` 3), n)).
    { unfold selectPartition. by destruct (Z.ltb_spec 0 (zlen key)); [|lia]. }
    rewrite (run_bind _ _ _ _ _ Hsel). unfold mbind, gom_bind.
    destruct (select_many t key k n) as [r s'] eqn:E. simpl in IH. by subst r.
  - destruct key; [|simpl in Hk; lia]. apply select_many_turns.
Qed.
End props.

(** ** Witnesses: a cluster of one node *)

#[local] Existing Instances rle_snappy rle_laws.

(** A leader that applies each command at once, unless it is about to lose its
    leadership; it is elected again. *)
Record solo : Type := mkSolo { solo_clock : Z; solo_deposed : bool }.

#[local] Instance solo_raft : Raft solo := {|
  raft_IsLeader _ := true;
  raft_State _ := str "Leader";
  raft_LeaderWithID _ := str "127.0.0.1:7000";
  raft_Apply data r :=
    if solo_deposed r then (mkSolo (solo_clock r) false, [], Some (EMsg "leadership lost while committing log" []))
    else (mkSolo (solo_clock r + 1) false, [(data, solo_clock r)], None);
  raft_AddVoter _ _ r := (r, None);
  raft_GetConfiguration _ := inl [];
  raft_Shutdown r := (r, None)
|}.

#[local] Instance solo_laws : RaftLaws solo.
Proof. split. intros data [now []] r' es [= <- <-]. by exists [], now. Qed.

Definition ex_broker : Broker := mkBroker ∅ [] ∅ (str "data") ∅ ∅ [].

Definition ex_node_on {D} (g : ConsumerGroupStore) (d : D) (deposed : bool) : node D solo :=
  mkNode ex_broker empty_world g d (Some (mkSolo 5 deposed)) (mkMetrics 0 0 0 0 ∅).

Definition ex_node : bool → node unit solo := ex_node_on (mkStore ∅) tt.

Definition no_messages : contents := λ _ _, (0, []).

Lemma ex_node_on_ok {D} g (d : D) deposed : node_ok (ex_node_on g d deposed) no_messages.
Proof.
  split; [done| |done|done|].
  - by split.
  - intros t i _ _ _. by left.
Qed.

Definition ex_node_ok : ∀ deposed, node_ok (ex_node deposed) no_messages := ex_node_on_ok (mkStore ∅) tt.

Lemma ex_plain : plain (str "default").
Proof. apply (bool_decide_unpack _). vm_compute. exact I. Qed.

Lemma ex_payload key value : zlen key ≤ 10 → zlen value ≤ 10 → is_Some (stored_payload false (key ++ value)).
Proof. by eexists. Qed.

Lemma ex_cmd_ok t i now o key value :
  defaultTopic t = str "default" → zlen t < 2 ^ 16 → partition_id i → zlen key ≤ 10 → zlen value ≤ 10 →
  0 ≤ now ≤ 100 → next_offset o (defaultTopic t) i ≤ 100 →
  cmd_ok (topic_mode ex_broker) o now (CmdSingle t i key value).
Proof.
  intros Ht Hlen Hi Hk Hv Hnow Ho. unfold cmd_ok. simpl. rewrite Ht in *.
  refine (conj ex_plain (conj Hlen (conj Hi (conj _ (conj _ (conj _ _)))))).
  - unfold is_i64. lia.
  - unfold kv_ok. lia.
  - eexists. reflexivity.
  - lia.
Qed.

(** Bounds of concrete numbers. *)
Ltac ex_side := vm_compute; repeat split; (reflexivity || discriminate).

Lemma publish_then_read_witness :
  ∃ o now n', Publish [] (str "k") (str "v") None (ex_node false) = (Ok o, n') ∧
    (Read [] (fnv32a (str "k") `mod` 3) o n').1 = Ok (mkMessage o now (str "k") (str "v")).
Proof.
  destruct (publish_then_read (ex_node false) no_messages (mkSolo 5 false) (mkSolo 6 false)
    [(CmdSingle (str "default") (fnv32a (str "k") `mod` 3) (str "k") (str "v"), 5)] [] (str "k") (str "v") None)
    as (before & t' & now & n' & _ & _ & Hpub & _ & _ & Hread).
  - apply ex_node_ok.
  - reflexivity.
  - reflexivity.
  - exact ex_plain.
  - reflexivity.
  - split; reflexivity.
  - discriminate.
  - reflexivity.
  - split; [|exact I]. apply ex_cmd_ok; ex_side.
  - eauto.
Defined.

Lemma failed_publish_may_be_stored_witness :
  let c := CmdSingle (str "default") 2 (str "k") (str "v") in
  ∃ n1 response n2 n3,
    Publish [] (str "k") (str "v") (Some 2) (ex_node true) = (Err (EMsg "leadership lost while committing log" []), n1) ∧
    apply_entries (entry_frames [(c, 4)]) None n1 = (Ok response, n2) ∧
    Publish [] (str "k") (str "v") (Some 2) n2 = (Ok 1, n3) ∧
    (Read [] 2 0 n3).1 = Ok (mkMessage 0 4 (str "k") (str "v")) ∧
    (Read [] 2 1 n3).1 = Ok (mkMessage 1 5 (str "k") (str "v")).
Proof.
  intros c. destruct (failed_publish_may_be_stored (ex_node true) no_messages (mkSolo 5 true) (mkSolo 5 false) []
    (EMsg "leadership lost while committing log" []) [] (str "k") (str "v") (Some 2) 4)
    as (n1 & Hpub & _ & response & n2 & Hrun & _ & Hretry).
  - apply ex_node_ok.
  - reflexivity.
  - reflexivity.
  - exact ex_plain.
  - intros i [= <-]. ex_side.
  - by left.
  - reflexivity.
  - exact I.
  - apply ex_cmd_ok; ex_side.
  - destruct (Hretry (mkSolo 6 false) 5 eq_refl eq_refl) as (n3 & Hpub3 & Hr0 & Hr1); [apply ex_cmd_ok; ex_side|].
    exists n1, response, n2, n3. by split_and!.
Defined.

Definition ex_records : list BatchRecord := [mkBatchRecord (str "a") (str "1"); mkBatchRecord [] (str "2")].

Lemma ex_batch_ok mode C now :
  mode (str "default") = false → 0 ≤ next_offset C (str "default") 1 ≤ 100 → 0 ≤ now ≤ 100 →
  cmd_ok mode C now (CmdBatch (str "default") 1 ex_records).
Proof.
  intros Hm Ho Hnow. unfold cmd_ok, payload_ok. change (cmd_topic _) with (str "default").
  change (cmd_partition _) with 1. rewrite Hm. generalize dependent (next_offset C (str "default") 1). intros o Ho.
  refine (conj ex_plain (conj eq_refl (conj _ (conj _ (conj _ (conj eq_refl (conj _ _))))))).
  - split; [discriminate|reflexivity].
  - unfold is_i64. lia.
  - repeat apply Forall_cons_2; [split; reflexivity..|apply Forall_nil, I].
  - change (zlen ex_records) with 2. lia.
  - eexists. split; [reflexivity|]. discriminate.
Qed.

Lemma publish_batch_correct_witness :
  ∃ now n', PublishBatch (str "default") 1 (some_records ex_records) (ex_node false) = (Ok [0; 1], n') ∧
    node_ok n' (apply_cmds [(CmdBatch (str "default") 1 ex_records, 5)] no_messages) ∧ now = 5.
Proof.
  destruct (publish_batch_correct (ex_node false) no_messages (mkSolo 5 false) (mkSolo 6 false)
    [(CmdBatch (str "default") 1 ex_records, 5)] (str "default") 1 ex_records) as (before & now & n' & -> & Hpub & B' & _).
  - apply ex_node_ok.
  - reflexivity.
  - reflexivity.
  - exact ex_plain.
  - reflexivity.
  - ex_side.
  - discriminate.
  - repeat apply Forall_cons_2; [split; reflexivity..|apply Forall_nil, I].
  - reflexivity.
  - reflexivity.
  - split; [|exact I]. apply ex_batch_ok; ex_side.
  - discriminate.
  - exists 5, n'. split; [exact Hpub|]. by split.
Defined.

Lemma replicas_agree_witness :
  ∃ n1' n2' C1' C2' response,
    apply_entries (entry_frames [(CmdBatch (str "default") 1 ex_records, 5)]) None (ex_node false) = (Ok response, n1') ∧
    apply_entries (entry_frames [(CmdBatch (str "default") 1 ex_records, 9)]) None (ex_node true) = (Ok response, n2') ∧
    node_ok n1' C1' ∧ node_ok n2' C2' ∧ same_data C1' C2'.
Proof.
  apply (replicas_agree (ex_node false) (ex_node true) no_messages no_messages).
  - apply ex_node_ok.
  - apply ex_node_ok.
  - reflexivity.
  - reflexivity.
  - split; [|exact I]. apply ex_batch_ok; ex_side.
  - split; [|exact I]. apply ex_batch_ok; ex_side.
Defined.

(** A node that has stored two messages. *)
Lemma ex_stored {D} g (d : D) : ∃ n',
  apply_entries (entry_frames [(CmdBatch (str "default") 1 ex_records, 5)]) None (ex_node_on g d false) =
    (Ok (Some (RespOffsets [0; 1])), n') ∧
  node_ok n' (apply_cmds [(CmdBatch (str "default") 1 ex_records, 5)] no_messages) ∧
  (∀ t, node_mode n' t = node_mode (ex_node_on g d false) t) ∧ n_groups n' = g ∧ n_db n' = d.
Proof.
  destruct (apply_entries_run [(CmdBatch (str "default") 1 ex_records, 5)] None _ _ no_messages (ex_node_on g d false) (ex_node_on_ok g d false))
    as (b' & w' & Hrun & B' & Hset).
  { split; [|exact I]. apply ex_batch_ok; ex_side. }
  rewrite upd_id in Hrun. exists (upd b' w' (ex_node_on g d false)). split; [exact Hrun|]. split; [exact B'|].
  split; [|by split]. intros t. exact (same_settings_mode _ _ t Hset).
Qed.

Lemma restart_keeps_messages_witness :
  ∃ n' : node unit solo, (Read [] 1 1 n').1 = Ok (mkMessage 1 5 [] (str "2")) ∧
    (Read [] 1 1 (restart ∅ n')).1 = Ok (mkMessage 1 5 [] (str "2")).
Proof.
  destruct (ex_stored (mkStore ∅) tt) as (n' & _ & B' & Hm & _). exists n'.
  assert (Hread : (Read [] 1 1 n').1 = Ok (mkMessage 1 5 [] (str "2"))).
  { apply (Read_appended [] 1 n' _ 0 [mkMessage 0 5 (str "a") (str "1")] _ B' ex_plain); [ex_side|reflexivity]. }
  split; [exact Hread|]. rewrite <-Hread. eapply restart_keeps_messages; [exact B'| |exact ex_plain|ex_side].
  intros t. rewrite Hm. reflexivity.
Defined.

Lemma replay_duplicates_messages_witness :
  ∃ (n' : node unit solo) response n'' C'',
    apply_entries (entry_frames [(CmdBatch (str "default") 1 ex_records, 9)]) None (restart ∅ n') = (Ok response, n'') ∧
    node_ok n'' C'' ∧
    payload <$> (C'' (str "default") 1).2 = [(str "a", str "1"); ([], str "2"); (str "a", str "1"); ([], str "2")].
Proof.
  destruct (ex_stored (mkStore ∅) tt) as (n' & _ & B' & Hm & _). exists n'.
  destruct (replay_duplicates_messages n' _ ∅ [(CmdBatch (str "default") 1 ex_records, 5)]
    [(CmdBatch (str "default") 1 ex_records, 9)] None (str "default") 1 B') as (response & n'' & C'' & Hrun & B'' & _ & Hp).
  - intros t. rewrite Hm. reflexivity.
  - reflexivity.
  - reflexivity.
  - split; [|exact I]. 
    apply ex_batch_ok; [by rewrite Hm|ex_side..].
  - exists response, n'', C''. split; [exact Hrun|]. split; [exact B''|]. rewrite Hp. reflexivity.
Defined.

Lemma get_partition_correct_witness :
  ∃ p n' n'', broker_GetPartition [] 2 (ex_node false) = (Ok p, n') ∧ node_ok n' no_messages ∧
    broker_GetPartition [] 2 n' = (Ok p, n'') ∧ node_ok n'' no_messages.
Proof. exact (get_partition_correct (ex_node false) no_messages [] 2 (ex_node_ok false) ex_plain). Defined.
