(* ===== verification/BrokerConc.v ===== *)
(** * Concurrent calls of GetPartition

    GetPartition looks a partition up under the read lock, and again under the
    write lock before it opens the topic; it configures the logs and starts the
    retention worker after it has released the lock.  Here the calls of several
    goroutines interleave at those points, together with whatever else the
    broker does to its logs. *)

From S2P Require Import Prelude GoNum GoNet Path OS Snappy Segment SegmentRep SegmentRead SegmentWrite SegmentOpen.
From S2P Require Import Log LogRep LogView LogWrite LogOpen LogMessages Frame LogFrame.
From S2P Require Import RaftFSM ConsumerGroup Broker BrokerRep BrokerRun BrokerSpec BrokerPublish BrokerProps.

(** Where a call is: before the first look-up; before the second; with a log
    that was there, or with the topic it has opened, and no lock; returned. *)
Inductive gp_pc : Type :=
| GStart
| GMissed
| GFound (p : nat)
| GOpened (partitions : list nat) (shouldStartRetention : bool)
| GDone (p : nat)
| GFailed.

(** A call for partition [gp_partition], in range, of topic [gp_topic]. *)
Record gp_call : Type := mkCall { gp_topic : bytes; gp_partition : Z; gp_at : gp_pc }.

Definition at_pc (c : gp_call) (pc : gp_pc) : gp_call := mkCall (gp_topic c) (gp_partition c) pc.

Section conc.
Context {D R : Type} `{SN : Snappy} `{RF : Raft R}.

(** The fields that [b.mu] protects here, and the workers. *)
Definition same_topics (n n' : node D R) : Prop :=
  b_logs (n_broker n') = b_logs (n_broker n) ∧
  b_retentionStarted (n_broker n') = b_retentionStarted (n_broker n) ∧
  b_workers (n_broker n') = b_workers (n_broker n).

Abbreviation config := (node D R * list gp_call)%type.

Inductive gp_step : config → config → Prop :=
| gp_hit i c n p calls :
    calls !! i = Some c → gp_at c = GStart → lookup_partition (n_broker n) (gp_topic c) (gp_partition c) = Some p →
    gp_step (n, calls) (n, <[i := at_pc c (GFound p)]> calls)
| gp_miss i c n calls :
    calls !! i = Some c → gp_at c = GStart → lookup_partition (n_broker n) (gp_topic c) (gp_partition c) = None →
    gp_step (n, calls) (n, <[i := at_pc c GMissed]> calls)
| gp_locked i c n r n' calls :
    calls !! i = Some c → gp_at c = GMissed → get_or_open (gp_topic c) (gp_partition c) n = (Ok r, n') →
    gp_step (n, calls)
      (n', <[i := at_pc c (match r with inl p => GFound p | inr (ps, start) => GOpened ps start end)]> calls)
| gp_failed i c n e n' calls :
    calls !! i = Some c → gp_at c = GMissed → get_or_open (gp_topic c) (gp_partition c) n = (Err e, n') →
    gp_step (n, calls) (n', <[i := at_pc c GFailed]> calls)
| gp_configure i c n p n' calls :
    calls !! i = Some c → gp_at c = GFound p → configurePartitionCompression (gp_topic c) p n = (Ok tt, n') →
    gp_step (n, calls) (n', <[i := at_pc c (GDone p)]> calls)
| gp_finish i c n ps start p n' calls :
    calls !! i = Some c → gp_at c = GOpened ps start → finish_open (gp_topic c) (gp_partition c) ps start n = (Ok p, n') →
    gp_step (n, calls) (n', <[i := at_pc c (GDone p)]> calls)
| gp_other n n' calls :
    same_topics n n' → gp_step (n, calls) (n', calls).

(** ** What does not touch the table of topics *)

#[global] Instance same_topics_preorder : PreOrder same_topics.
Proof. split; [done|]. unfold same_topics. intros n1 n2 n3 (?&?&?) (?&?&?). split_and!; congruence. Qed.

Definition keeps_topics {A} (m : GoM (node D R) A) : Prop := ∀ n, same_topics n (m n).2.

Lemma keeps_topics_bind {A B} (m : GoM (node D R) A) (f : A → GoM (node D R) B) :
  keeps_topics m → (∀ a, keeps_topics (f a)) → keeps_topics (m ≫= f).
Proof.
  intros Hm Hf n. specialize (Hm n). unfold mbind, gom_bind. destruct (m n) as [[a|e|] n']; simpl in *; [|done..].
  etrans; [exact Hm|apply Hf].
Qed.

Lemma keeps_topics_attempt {A} (m : GoM (node D R) A) : keeps_topics m → keeps_topics (attempt m).
Proof. intros Hm n. specialize (Hm n). unfold attempt. by destruct (m n) as [[] ?]. Qed.

Lemma keeps_topics_ignore {A} (m : GoM (node D R) A) : keeps_topics m → keeps_topics (ignore m).
Proof. intros Hm. apply keeps_topics_bind; [by apply keeps_topics_attempt|by intros a n]. Qed.

Lemma keeps_topics_on_log {A} p (m : GoM (Log * world) A) : keeps_topics (on_log p m).
Proof. intros n. unfold on_log. destruct (b_heap (n_broker n) !! p); [|done]. by destruct (m _) as [? []]. Qed.

Lemma keeps_topics_on_world {A} (m : GoM world A) : keeps_topics (on_world m).
Proof. intros n. unfold on_world, zoom. by destruct (m _). Qed.

Lemma keeps_topics_each {A} (f : A → GoM (node D R) unit) l : (∀ a, keeps_topics (f a)) → keeps_topics (each f l).
Proof. intros Hf. induction l as [|a l IH]; [by intros n|]. by apply keeps_topics_bind. Qed.

Lemma keeps_topics_configure t p : keeps_topics (configurePartitionCompression t p : GoM (node D R) unit).
Proof.
  apply keeps_topics_bind; [by intros n|]. intros config.
  apply keeps_topics_bind; [apply keeps_topics_on_log|]. intros []. apply keeps_topics_on_log.
Qed.

Lemma open_partitions_keeps t i k ps : keeps_topics (open_partitions t i k ps : GoM (node D R) (list nat)).
Proof.
  revert i ps. induction k as [|k IH]; intros i ps; [by intros n|]. cbn [open_partitions].
  apply keeps_topics_bind; [by intros n|]. intros b.
  apply keeps_topics_bind; [apply keeps_topics_attempt, keeps_topics_on_world|]. intros [l|e].
  - apply keeps_topics_bind; [by intros n|]. intros p. apply IH.
  - apply keeps_topics_bind; [|by intros []]. apply keeps_topics_each. intros p.
    apply keeps_topics_ignore, keeps_topics_on_log.
Qed.

Lemma open_partitions_length t i k ps (n : node D R) ps' n' :
  open_partitions t i k ps n = (Ok ps', n') → length ps' = (length ps + k)%nat.
Proof.
  revert i ps n. induction k as [|k IH]; intros i ps n; [intros [= <- _]; lia|]. cbn [open_partitions].
  unfold mbind, gom_bind. simpl. destruct (attempt _ n) as [[[l|e]|e|] n1]; [| |done..].
  - simpl. intros H%IH. rewrite length_app in H. simpl in H. lia.
  - destruct (each _ ps n1) as [[]]; done.
Qed.

(** ** The invariant *)

(** Calls that still have to start the worker of a topic. *)
Definition pending (c : gp_call) : list bytes :=
  match gp_at c with GOpened _ true => [gp_topic c] | _ => [] end.

(** A topic has its three partitions, and at most one worker. *)
Definition topics_ok (n : node D R) (starting : list bytes) : Prop :=
  (∀ t ps, b_logs (n_broker n) !! t = Some ps → length ps = 3%nat) ∧
  NoDup (b_workers (n_broker n) ++ starting) ∧
  (∀ t, t ∈ b_workers (n_broker n) ++ starting → b_retentionStarted (n_broker n) !! t = Some true).

Definition call_ok (n : node D R) (c : gp_call) : Prop :=
  partition_id (gp_partition c) ∧
  match gp_at c with
  | GFound p | GDone p => lookup_partition (n_broker n) (gp_topic c) (gp_partition c) = Some p
  | GOpened ps _ => b_logs (n_broker n) !! gp_topic c = Some ps
  | _ => True
  end.

Definition gp_inv (cf : config) : Prop :=
  topics_ok cf.1 (cf.2 ≫= pending) ∧ Forall (call_ok cf.1) cf.2.

Lemma call_ok_same n n' c : same_topics n n' → call_ok n c → call_ok n' c.
Proof. intros (El & _ & _). unfold call_ok, lookup_partition. by rewrite El. Qed.

Lemma topics_ok_same n n' l l' : same_topics n n' → l' ≡ₚ l → topics_ok n l → topics_ok n' l'.
Proof. intros (El & Es & Ew) Hl (H1 & H2 & H3). unfold topics_ok. rewrite El, Es, Ew. split_and!; [done|by rewrite Hl|]. intros t. rewrite Hl. apply H3. Qed.

(** The worker list when a call moves on. *)
Lemma pending_insert calls i c c' :
  calls !! i = Some c → ∃ l, calls ≫= pending ≡ₚ pending c ++ l ∧ <[i := c']> calls ≫= pending ≡ₚ pending c' ++ l.
Proof.
  intros Hi. exists ((take i calls ≫= pending) ++ (drop (S i) calls ≫= pending)). split.
  - rewrite <-(take_drop_middle calls i c Hi) at 1. rewrite bind_app, bind_cons. by rewrite Permutation_app_swap_app.
  - rewrite insert_take_drop by by eapply lookup_lt_Some. rewrite bind_app, bind_cons. by rewrite Permutation_app_swap_app.
Qed.

(** A step that keeps the table and the set of pending workers. *)
Lemma gp_inv_move i c c' n n' calls :
  calls !! i = Some c → same_topics n n' → pending c' = pending c → (call_ok n c → call_ok n' c') →
  gp_inv (n, calls) → gp_inv (n', <[i := c']> calls).
Proof.
  intros Hi Hs Hp Hc [Ht Hall]. split; simpl in *.
  - destruct (pending_insert calls i c c' Hi) as (l & H1 & H2). eapply topics_ok_same; [done| |exact Ht].
    by rewrite H1, H2, Hp.
  - apply Forall_insert.
    + eapply Forall_impl; [exact Hall|]. intros x. by apply call_ok_same.
    + apply Hc. by eapply Forall_lookup_1.
Qed.

Lemma get_or_open_cases t k (n : node D R) r n' :
  get_or_open t k n = (r, n') →
  (∃ p, r = Ok (inl p) ∧ n' = n ∧ lookup_partition (n_broker n) t k = Some p) ∨
  lookup_partition (n_broker n) t k = None ∧
  ((∃ ps start, r = Ok (inr (ps, start)) ∧ length ps = 3%nat ∧
      start = negb (default false (b_retentionStarted (n_broker n) !! t)) ∧
      b_logs (n_broker n') = <[t := ps]> (b_logs (n_broker n)) ∧
      b_retentionStarted (n_broker n') = (if start then <[t := true]> else id) (b_retentionStarted (n_broker n)) ∧
      b_workers (n_broker n') = b_workers (n_broker n)) ∨
   (∀ a, r ≠ Ok a) ∧ same_topics n n').
Proof.
  unfold get_or_open. remember (Z.to_nat defaultNumPartitions) as k3 eqn:Hk3. unfold mbind, gom_bind. simpl.
  destruct (lookup_partition (n_broker n) t k) as [p|] eqn:Hp.
  { intros [= <- <-]. left. by exists p. }
  intros H. right. split; [done|]. pose proof (open_partitions_keeps t 0 k3 [] n) as Hk.
  destruct (open_partitions t 0 k3 [] n) as [[ps|e|] n1] eqn:Ho; simpl in *.
  - left. exists ps, (negb (default false (b_retentionStarted (n_broker n) !! t))).
    destruct Hk as (El & Es & Ew). rewrite Es in H. apply open_partitions_length in Ho. subst k3.
    destruct (negb _); unfold mret, gom_ret in H; simplify_eq/=; split_and!; try done; by rewrite ?El, ?Es.
  - right. simplify_eq. by split.
  - right. simplify_eq. by split.
Qed.

Lemma lookup_None_logs n l t k :
  topics_ok n l → partition_id k → lookup_partition (n_broker n) t k = None → b_logs (n_broker n) !! t = None.
Proof.
  intros (Hlen & _) Hk. unfold lookup_partition. destruct (b_logs (n_broker n) !! t) as [ps|] eqn:E; [|done].
  unfold zlookup, partition_id in *. rewrite decide_True by lia. intros H%lookup_ge_None. rewrite (Hlen _ _ E) in H. lia.
Qed.
(** Opening a topic that was not there. *)
Lemma gp_inv_open i c n n' ps start calls :
  calls !! i = Some c → gp_at c = GMissed → length ps = 3%nat →
  b_logs (n_broker n) !! gp_topic c = None →
  start = negb (default false (b_retentionStarted (n_broker n) !! gp_topic c)) →
  b_logs (n_broker n') = <[gp_topic c := ps]> (b_logs (n_broker n)) →
  b_retentionStarted (n_broker n') = (if start then <[gp_topic c := true]> else id) (b_retentionStarted (n_broker n)) →
  b_workers (n_broker n') = b_workers (n_broker n) →
  gp_inv (n, calls) → gp_inv (n', <[i := at_pc c (GOpened ps start)]> calls).
Proof.
  intros Hi Hc Hlen Hnone Hstart El Es Ew [(H1 & H2 & H3) Hall]. simpl in *.
  destruct (pending_insert calls i c (at_pc c (GOpened ps start)) Hi) as (l & P1 & P2).
  assert (Hpc : pending c = []) by (unfold pending; by rewrite Hc). rewrite Hpc in P1. simpl in P1.
  split; simpl.
  - unfold topics_ok. rewrite El, Es, Ew. split_and!.
    + intros t ps'. intros [[<- <-]|[_ Ht]]%lookup_insert_Some; [done|by eapply H1].
    + rewrite P2. rewrite P1 in H2. unfold pending. simpl. destruct start; [|exact H2]. simpl.
      rewrite <-Permutation_middle. apply NoDup_cons. split; [|exact H2]. intros Hin. rewrite <-P1 in Hin.
      apply H3 in Hin. rewrite Hin in Hstart. done.
    + intros t. rewrite P2. unfold pending. simpl. destruct start; simpl; [|rewrite <-P1; apply H3].
      rewrite <-Permutation_middle, elem_of_cons, <-P1. destruct (decide (t = gp_topic c)) as [->|Hne].
      * intros _. apply lookup_insert_eq.
      * rewrite lookup_insert_ne by done. intros [?|?]; [done|]. by apply H3.
  - apply Forall_insert.
    + eapply Forall_impl; [exact Hall|]. intros x [Hx Hpcx]. split; [done|].
      unfold lookup_partition in *. rewrite El.
      destruct (gp_at x); try done; (destruct (decide (gp_topic x = gp_topic c)) as [E|Hne];
        [rewrite E, Hnone in Hpcx; done|by rewrite lookup_insert_ne]).
    + split; [exact (proj1 (Forall_lookup_1 _ _ _ _ Hall Hi))|]. simpl. rewrite El. apply lookup_insert_eq.
Qed.

Lemma finish_open_cases t k ps start (n : node D R) p n' :
  finish_open t k ps start n = (Ok p, n') →
  zlookup ps k = Some p ∧ b_logs (n_broker n') = b_logs (n_broker n) ∧
  b_retentionStarted (n_broker n') = b_retentionStarted (n_broker n) ∧
  b_workers (n_broker n') = b_workers (n_broker n) ++ (if start then [t] else []).
Proof.
  unfold finish_open, mbind, gom_bind. intros H.
  pose proof (keeps_topics_each (configurePartitionCompression t) ps (keeps_topics_configure t) n) as (El & Es & Ew).
  destruct (each _ ps n) as [[[]|e|] n1]; simpl in *; [|done..]. destruct start; simpl in *.
  - destruct (zlookup ps k) as [q|]; [|done]. unfold mret, gom_ret in H. simplify_eq/=. by rewrite El, Es, Ew.
  - destruct (zlookup ps k) as [q|]; [|done]. unfold mret, gom_ret in H. simplify_eq/=. by rewrite El, Es, Ew, app_nil_r.
Qed.

(** Finishing: a pending worker becomes a running one. *)
Lemma gp_inv_finish i c n n' ps start p calls :
  calls !! i = Some c → gp_at c = GOpened ps start → zlookup ps (gp_partition c) = Some p →
  b_logs (n_broker n') = b_logs (n_broker n) → b_retentionStarted (n_broker n') = b_retentionStarted (n_broker n) →
  b_workers (n_broker n') = b_workers (n_broker n) ++ (if start then [gp_topic c] else []) →
  gp_inv (n, calls) → gp_inv (n', <[i := at_pc c (GDone p)]> calls).
Proof.
  intros Hi Hc Hp El Es Ew [(H1 & H2 & H3) Hall]. simpl in *.
  destruct (pending_insert calls i c (at_pc c (GDone p)) Hi) as (l & P1 & P2).
  assert (Hpc : pending c = if start then [gp_topic c] else []) by (unfold pending; by rewrite Hc).
  assert (Hperm : b_workers (n_broker n') ++ (<[i := at_pc c (GDone p)]> calls ≫= pending) ≡ₚ
    b_workers (n_broker n) ++ (calls ≫= pending)).
  { rewrite P1, P2, Ew, Hpc. simpl. by rewrite <-app_assoc. }
  split; simpl.
  - unfold topics_ok. rewrite El, Es, Hperm. split_and!; [done..|]. intros t. rewrite Hperm. apply H3.
  - apply Forall_insert.
    + eapply Forall_impl; [exact Hall|]. intros x. unfold call_ok, lookup_partition. by rewrite El.
    + pose proof (Forall_lookup_1 _ _ _ _ Hall Hi) as [Hk Hps]. split; [exact Hk|]. rewrite Hc in Hps. simpl.
      unfold lookup_partition. by rewrite El, Hps.
Qed.

Lemma gp_step_inv cf cf' : gp_step cf cf' → gp_inv cf → gp_inv cf'.
Proof.
  intros Hstep I. destruct Hstep as [i c n p calls Hi Hc Hl|i c n calls Hi Hc Hl|i c n r n' calls Hi Hc Hrun|
    i c n e n' calls Hi Hc Hrun|i c n p n' calls Hi Hc Hrun|i c n ps start p n' calls Hi Hc Hrun|n n' calls Hs].
  - eapply gp_inv_move; [done..| | |done]; [unfold pending; by rewrite Hc|]. intros [Hk _]. by split.
  - eapply gp_inv_move; [done..| | |done]; [unfold pending; by rewrite Hc|]. intros [Hk _]. by split.
  - apply get_or_open_cases in Hrun as [(p & [= ->] & -> & Hp)|(Hnone & [(ps & start & [= ->] & Hlen & Hst & El & Es & Ew)|[Hno _]])].
    + eapply gp_inv_move; [done..| | |done]; [unfold pending; by rewrite Hc|]. intros [Hk _]. by split.
    + eapply gp_inv_open; try done. eapply lookup_None_logs; [apply I| |exact Hnone].
      exact (proj1 (Forall_lookup_1 _ _ _ _ (proj2 I) Hi)).
    + by destruct (Hno r).
  - apply get_or_open_cases in Hrun as [(p & [=] & _)|(_ & [(ps & start & [=] & _)|[_ Hs]])].
    eapply gp_inv_move; [done..| | |done]; [unfold pending; by rewrite Hc|]. intros [Hk _]. by split.
  - pose proof (keeps_topics_configure (gp_topic c) p n) as Hs. rewrite Hrun in Hs. simpl in Hs.
    eapply gp_inv_move; [done|done| | |done]; [unfold pending; by rewrite Hc|]. intros [Hk Hp]. rewrite Hc in Hp.
    eapply call_ok_same; [exact Hs|]. by split.
  - apply finish_open_cases in Hrun as (Hp & El & Es & Ew). by eapply gp_inv_finish.
  - destruct I as [Ht Hall]. split; simpl in *; [by eapply topics_ok_same|].
    eapply Forall_impl; [exact Hall|]. intros x. by apply call_ok_same.
Qed.

(** C10.  Concurrent calls of GetPartition agree.  Whatever the interleaving of
    the calls with one another and with the other work of the broker, two calls
    that return for the same partition return the same log, the one the broker
    has for it: no log is opened twice and none is lost.  And a topic never has
    two retention workers. *)
Theorem concurrent_get_partition (n : node D R) calls n' calls' :
  topics_ok n [] → Forall (λ c, gp_at c = GStart ∧ partition_id (gp_partition c)) calls →
  rtc gp_step (n, calls) (n', calls') →
  (∀ c p, c ∈ calls' → gp_at c = GDone p → lookup_partition (n_broker n') (gp_topic c) (gp_partition c) = Some p) ∧
  (∀ c c' p p', c ∈ calls' → c' ∈ calls' → gp_at c = GDone p → gp_at c' = GDone p' →
     gp_topic c = gp_topic c' → gp_partition c = gp_partition c' → p = p') ∧
  NoDup (b_workers (n_broker n')).
Proof.
  intros Ht Hcalls Hrun.
  assert (I0 : gp_inv (n, calls)).
  { split; simpl.
    - replace (calls ≫= pending) with (@nil bytes); [done|]. symmetry. clear -Hcalls.
      induction Hcalls as [|c calls [Hc _] _ IH]; [done|]. rewrite bind_cons, IH. unfold pending. by rewrite Hc.
    - eapply Forall_impl; [exact Hcalls|]. intros c [Hc Hk]. split; [done|]. by rewrite Hc. }
  assert (I : gp_inv (n', calls')).
  { clear -Hrun I0. remember (n, calls) as cf. remember (n', calls') as cf'. clear Heqcf Heqcf'.
    induction Hrun as [|cf cf1 cf2 Hstep _ IH]; [done|]. by eapply IH, gp_step_inv. }
  destruct I as [(_ & Hnd & _) Hall]. simpl in *. rewrite Forall_forall in Hall.
  assert (Hdone : ∀ c p, c ∈ calls' → gp_at c = GDone p →
    lookup_partition (n_broker n') (gp_topic c) (gp_partition c) = Some p).
  { intros c p Hin Hc. specialize (Hall c Hin) as [_ H]. by rewrite Hc in H. }
  split_and!; [done| |exact (proj1 (proj1 (NoDup_app _ _) Hnd))].
  intros c c' p p' Hin Hin' Hc Hc' Et Ek. apply Hdone in Hc, Hc'; [|done..]. rewrite Et, Ek in Hc. congruence.
Qed.
End conc.

(** ** Witness: three calls for one partition of a new topic *)

#[local] Existing Instances rle_snappy rle_laws solo_raft solo_laws.

Definition ex_call (pc : gp_pc) : gp_call := mkCall (str "default") 1 pc.

(** The second call misses too, and finds the topic when it has the lock; the
    third comes when the topic is there. *)
Lemma ex_race : ∃ (n' : node unit solo) ps start p,
  rtc gp_step (ex_node false, [ex_call GStart; ex_call GStart; ex_call GStart])
    (n', [ex_call (GOpened ps start); ex_call (GDone p); ex_call (GDone p)]).
Proof.
  destruct (get_or_open_run (str "default") 1 ex_broker empty_world no_messages (ex_node false) (ex_node_ok false) ex_plain
    eq_refl eq_refl) as (h & w & ps & start & Hrun & B & Hlen & _ & Hps).
  destruct (lookup_lt_is_Some_2 ps 1%nat) as [p Hp]; [lia|]. destruct (Hps 1%nat p Hp) as (l & Hl & _).
  set (b := opened_broker (str "default") ps start h ex_broker) in *.
  assert (Hlp : lookup_partition b (str "default") 1 = Some p).
  { unfold b, opened_broker. destruct start; unfold lookup_partition; simpl; by rewrite lookup_insert_eq. }
  assert (Hfound : get_or_open (str "default") 1 (upd b w (ex_node false)) = (Ok (inl p), upd b w (ex_node false))).
  { unfold get_or_open. erewrite run_bind by reflexivity. change (n_broker (upd b w (ex_node false))) with b. by rewrite Hlp. }
  assert (Hh : b_heap b !! p = Some l) by (unfold b, opened_broker; by destruct start).
  pose proof (configure_run (str "default") p b w (ex_node false) l Hh) as Hconf.
  set (b1 := set_heap _ b) in Hconf.
  assert (Hh1 : ∃ l1, b_heap b1 !! p = Some l1).
  { eexists. simpl. apply list_lookup_insert_eq. by eapply lookup_lt_Some. }
  destruct Hh1 as [l1 Hh1]. pose proof (configure_run (str "default") p b1 w (ex_node false) l1 Hh1) as Hconf1.
  do 4 eexists.
  eapply rtc_l; [apply (gp_miss 0%nat (ex_call GStart)); reflexivity|].
  eapply rtc_l; [apply (gp_miss 1%nat (ex_call GStart)); reflexivity|].
  eapply rtc_l; [apply (gp_locked 0%nat (ex_call GMissed)); [reflexivity|reflexivity|exact Hrun]|].
  eapply rtc_l; [apply (gp_locked 1%nat (ex_call GMissed) _ (inl p)); [reflexivity|reflexivity|exact Hfound]|].
  eapply rtc_l; [apply (gp_hit 2%nat (ex_call GStart) _ p); [reflexivity|reflexivity|exact Hlp]|].
  eapply rtc_l; [apply (gp_configure 1%nat (ex_call (GFound p)) _ p); [reflexivity|reflexivity|exact Hconf]|].
  eapply rtc_l; [apply (gp_configure 2%nat (ex_call (GFound p)) _ p); [reflexivity|reflexivity|exact Hconf1]|].
  apply rtc_refl.
Qed.

Lemma concurrent_get_partition_witness :
  ∃ (n' : node unit solo) ps start p,
    rtc gp_step (ex_node false, [ex_call GStart; ex_call GStart; ex_call GStart])
      (n', [ex_call (GOpened ps start); ex_call (GDone p); ex_call (GDone p)]) ∧
    lookup_partition (n_broker n') (str "default") 1 = Some p ∧ NoDup (b_workers (n_broker n')).
Proof.
  destruct ex_race as (n' & ps & start & p & Hrun). exists n', ps, start, p. split; [exact Hrun|].
  destruct (concurrent_get_partition (ex_node false) [ex_call GStart; ex_call GStart; ex_call GStart] n'
    [ex_call (GOpened ps start); ex_call (GDone p); ex_call (GDone p)]) as (H1 & _ & H3); [| |exact Hrun|].
  - split; [|split].
    + intros t ps' H. discriminate H.
    + apply NoDup_nil_2.
    + intros t Ht. by apply not_elem_of_nil in Ht.
  - repeat apply Forall_cons_2; try apply Forall_nil, I; (split; [reflexivity|split; [discriminate|reflexivity]]).
  - split; [|exact H3]. apply (H1 (ex_call (GDone p))); [|reflexivity]. apply list_elem_of_further, list_elem_of_here.
Defined.
