(* ===== verification/BrokerConfig.v ===== *)
(** * Changing the configuration of a topic

    SetTopicConfig of internal/broker/broker.go stores the configuration in
    memory, and opens the topic if it is not open; GetPartition then tells the
    logs the compression mode, which a segment uses to write and to read. *)

From S2P Require Import Prelude GoNum GoNet Path OS Snappy Segment SegmentRep SegmentRead SegmentWrite SegmentOpen.
From S2P Require Import Log LogRep LogView LogWrite LogOpen LogMessages Frame LogFrame.
From S2P Require Import RaftFSM RaftSpec RaftProps ConsumerGroup Broker BrokerRep BrokerRun BrokerSpec BrokerPublish BrokerProps.

Section config.
Context {D R : Type} `{SN : Snappy} `{!SnappyLaws SN} `{RF : Raft R}.

(** The broker with another configuration of [t]. *)
Definition reconfigured (t : bytes) (config : TopicConfig) (b : Broker) : Broker :=
  set_topicConfigs (<[t := config]> (b_topicConfigs b)) b.

Lemma reconfigured_mode t config b t' :
  topic_mode (reconfigured t config b) t' = if decide (t = t') then Compressed config else topic_mode b t'.
Proof. unfold topic_mode. simpl. rewrite lookup_insert. by case_decide. Qed.

(** The compression of the topic stays, or the topic has no messages. *)
Definition mode_fits (b : Broker) (t : bytes) (config : TopicConfig) (C : contents) : Prop :=
  Compressed config = topic_mode b t ∨ ∀ i, partition_id i → (C t i).2 = [].

(** A log without messages may change its mode. *)
Lemma Writable_empty w l base c : Writable w l base [] → Writable w (set_compressed c l) base [].
Proof.
  intros (gs & O & -> & Hms). symmetry in Hms. apply fmap_nil_inv in Hms. exists gs.
  split_and!; [|by rewrite log_base_compressed|by rewrite Hms].
  apply log_ok_set_compressed; [done|]. rewrite Hms. by apply Forall_nil.
Qed.

Lemma reconfigured_ok b w C t config :
  broker_ok b w C → mode_fits b t config C → broker_ok (reconfigured t config b) w C.
Proof.
  intros B Hfit. pose proof B as [H1 H2 H3 H4 H5]. split; [done..| |].
  - intros t' i p Hp. rewrite reconfigured_mode. case_decide as Ht; [subst t'|by apply H4].
    destruct (H4 t i p Hp) as (l & Hl & Hd & Hz & W). destruct Hfit as [->|Hnil]; [by exists l|].
    assert (partition_id i) as Hi by by eapply lookup_partition_id.
    rewrite (Hnil i Hi) in W. exists l. split_and!; [done..|]. rewrite (Hnil i Hi).
    apply (Writable_empty _ _ _ (Compressed config)) in W. by rewrite set_compressed_twice in W.
  - intros t' i Hp Hi Hlog. rewrite reconfigured_mode. case_decide as Ht; [subst t'|by apply H5].
    destruct Hfit as [->|Hnil]; [by apply H5|].
    destruct (H5 t i Hp Hi Hlog) as [|(l & Hd & Hc & Hz & W)]; [by left|right].
    exists (set_compressed (Compressed config) l). rewrite (Hnil i Hi) in *. split_and!; [done|done|by apply sized_compressed|].
    by apply Writable_empty.
Qed.

(** ** SetTopicConfig *)

Lemma SetTopicConfig_run topic config (n : node D R) C :
  let t := defaultTopic topic in
  node_ok n C → plain t → 0 ≤ RetentionBytes config → 0 ≤ RetentionMs config → mode_fits (n_broker n) t config C →
  ∃ b' w', SetTopicConfig topic config n = (Ok tt, upd b' w' n) ∧ broker_ok b' w' C ∧
    same_settings (reconfigured t config (n_broker n)) b'.
Proof.
  intros t B Ht Hb Hm Hfit. unfold SetTopicConfig. fold t.
  destruct (Z.ltb_spec (RetentionBytes config) 0); [lia|]. destruct (Z.ltb_spec (RetentionMs config) 0); [lia|].
  pose proof (reconfigured_ok _ _ C t config B Hfit) as B1. set (b1 := reconfigured _ _ _) in *.
  rewrite (run_bind _ _ tt n (upd b1 (n_world n) n)) by by destruct n.
  erewrite run_bind by reflexivity. change (n_broker (upd b1 (n_world n) n)) with b1.
  destruct (negb _).
  - assert (plain (defaultTopic t)) as Ht' by (unfold t in *; by rewrite defaultTopic_idem).
    destruct (GetPartition_run t 0 b1 (n_world n) C n B1 Ht' ltac:(done)) as (p & b' & w' & Hrun & B' & Hs & _).
    exists b', w'. rewrite (run_bind _ _ _ _ _ Hrun). done.
  - by exists b1, (n_world n).
Qed.

Lemma SetTopicConfig_cases topic config (n : node D R) C :
  let t := defaultTopic topic in
  node_ok n C → plain t → mode_fits (n_broker n) t config C →
  (∃ e, SetTopicConfig topic config n = (Err e, n)) ∨
  ∃ b' w', SetTopicConfig topic config n = (Ok tt, upd b' w' n) ∧ broker_ok b' w' C ∧
    same_settings (reconfigured t config (n_broker n)) b'.
Proof.
  intros t B Ht Hfit.
  destruct (Z.ltb_spec (RetentionBytes config) 0) as [Hb|Hb].
  { left. unfold SetTopicConfig. rewrite (proj2 (Z.ltb_lt _ _) Hb). by eexists. }
  destruct (Z.ltb_spec (RetentionMs config) 0) as [Hm|Hm]; [|right; by apply SetTopicConfig_run].
  left. unfold SetTopicConfig. destruct (Z.ltb_spec (RetentionBytes config) 0); [lia|].
  rewrite (proj2 (Z.ltb_lt _ _) Hm). by eexists.
Qed.

(** C23. SetTopicConfig refuses a negative size or time and changes nothing
    then.  Otherwise, if it keeps the compression of the topic, or the topic has
    no messages yet, it succeeds: the topic has exactly this configuration,
    those of the other topics and every message of the broker stay. *)
Theorem set_topic_config_correct topic config (n : node D R) C :
  let t := defaultTopic topic in
  node_ok n C → plain t → mode_fits (n_broker n) t config C →
  (RetentionBytes config < 0 ∧ SetTopicConfig topic config n = (Err (EMsg "retention_bytes must be non-negative" []), n)) ∨
  (0 ≤ RetentionBytes config ∧ RetentionMs config < 0 ∧
     SetTopicConfig topic config n = (Err (EMsg "retention_ms must be non-negative" []), n)) ∨
  (0 ≤ RetentionBytes config ∧ 0 ≤ RetentionMs config ∧ ∃ n', SetTopicConfig topic config n = (Ok tt, n') ∧ node_ok n' C ∧
     (∀ topic', (getTopicConfig topic' n').1 =
        if decide (defaultTopic topic' = t) then Ok config else (getTopicConfig topic' n).1)).
Proof.
  intros t B Ht Hfit. destruct (Z.ltb_spec (RetentionBytes config) 0) as [Hb|Hb].
  { left. split; [done|]. unfold SetTopicConfig. by rewrite (proj2 (Z.ltb_lt _ _) Hb). }
  right. destruct (Z.ltb_spec (RetentionMs config) 0) as [Hm|Hm].
  { left. split_and!; [done..|]. unfold SetTopicConfig. destruct (Z.ltb_spec (RetentionBytes config) 0); [lia|].
    by rewrite (proj2 (Z.ltb_lt _ _) Hm). }
  right. destruct (SetTopicConfig_run topic config n C B Ht Hb Hm Hfit) as (b' & w' & Hrun & B' & Hs).
  split_and!; [done..|]. exists (upd b' w' n). split_and!; [done..|].
  intros topic'. unfold getTopicConfig. simpl. destruct Hs as (_ & _ & Hcfg & _). rewrite Hcfg. simpl.
  rewrite lookup_insert. case_decide as H1; case_decide as H2; congruence || done.
Qed.

(** ** A change of compression *)

(** GetPartition on an open topic only configures the partition. *)
Lemma GetPartition_hit topic i p b w l (n : node D R) :
  let t := defaultTopic topic in
  partition_id i → lookup_partition b t i = Some p → b_heap b !! p = Some l →
  broker_GetPartition topic i (upd b w n) =
    (Ok p, upd (set_heap (<[p := set_observed (set_compressed (topic_mode b t) l)]> (b_heap b)) b) w n).
Proof.
  intros t Hi Hp Hl. unfold broker_GetPartition. fold t. unfold partition_id in Hi.
  destruct (Z.ltb_spec i 0); [lia|]. destruct (Z.leb_spec defaultNumPartitions i); [unfold defaultNumPartitions in *; lia|].
  cbn [orb]. erewrite run_bind by reflexivity. change (n_broker (upd b w n)) with b. rewrite Hp.
  erewrite run_bind by (by apply configure_run). unfold t. by rewrite defaultTopic_idem.
Qed.

(** Reading a log in another mode than the one it was written in. *)
Lemma read_in_mode w l base msgs c k m :
  reliable w → Writable w l base msgs → msgs !! k = Some m →
  ∃ q, (if l_compressed l then snappy_Decode q else inl q) = inl (Key m ++ Value m) ∧
    Log_Read (set_observed (set_compressed c l)) (Offset m) w = (read_result c (mkEntry m q), w).
Proof.
  intros Hr (gs & O & -> & ->) Hk. rewrite list_lookup_fmap in Hk. apply fmap_Some in Hk as ([m' q] & He & ->).
  exists q. pose proof (lv_decodes _ _ _ (lo_view _ _ _ O)) as Hdec.
  pose proof (Forall_lookup_1 _ _ _ _ Hdec He) as Hq. split; [exact Hq|].
  apply (reads_reliable _ _ _ Hr).
  refine (reads_Log_Read_entry w (set_observed (set_compressed c l)) gs _ (mkEntry m' q) _); [|by eapply list_elem_of_lookup_2].
  pose proof (log_rep_set_compressed _ _ _ c (lv_rep _ _ _ (lo_view _ _ _ O))) as Rep. by destruct Rep.
Qed.

(** C22. Nothing in a partition says which of its records are compressed: they
    are all read in the mode of the topic's present configuration.  Take an open
    topic with a stored message, and change its configuration.  The message was
    stored as some bytes [q], the compressed or the plain payload; reading it
    now decodes [q] in the new mode.  After a change of compression this is an
    error, or key and value cut out of the wrong bytes: a plain payload that is
    no compressed block gives a decoding error, and a compressed block is served
    as it is when it is as long as its content and is an error otherwise. *)
Theorem compression_change_misreads topic config (n : node D R) C i p k m :
  let t := defaultTopic topic in
  node_ok n C → plain t → partition_id i → lookup_partition (n_broker n) t i = Some p →
  b_retentionStarted (n_broker n) !! t = Some true →
  0 ≤ RetentionBytes config → 0 ≤ RetentionMs config → (C t i).2 !! k = Some m →
  ∃ q n', (if node_mode n t then snappy_Decode q else inl q) = inl (Key m ++ Value m) ∧
    SetTopicConfig topic config n = (Ok tt, n') ∧
    (Read topic i (Offset m) n').1 = read_result (Compressed config) (mkEntry m q).
Proof.
  intros t B Ht Hi Hp Hstart Hb Hm Hk.
  destruct (bo_open _ _ _ B t i p Hp) as (l & Hl & _ & _ & W).
  destruct (read_in_mode _ _ _ _ (Compressed config) k m (bo_reliable _ _ _ B) W Hk) as (q & Hq & Hread).
  set (b1 := reconfigured t config (n_broker n)). exists q, (upd b1 (n_world n) n). split_and!; [exact Hq| |].
  - unfold SetTopicConfig. fold t. destruct (Z.ltb_spec (RetentionBytes config) 0); [lia|].
    destruct (Z.ltb_spec (RetentionMs config) 0); [lia|].
    rewrite (run_bind _ _ tt n (upd b1 (n_world n) n)) by by destruct n.
    erewrite run_bind by reflexivity. change (b_retentionStarted (n_broker (upd b1 (n_world n) n))) with (b_retentionStarted (n_broker n)).
    by rewrite Hstart.
  - unfold Read. rewrite (run_bind _ _ _ _ _ (GetPartition_hit topic i p b1 (n_world n) l n Hi Hp Hl)).
    fold t. assert (topic_mode b1 t = Compressed config) as -> by (unfold b1; by rewrite reconfigured_mode, decide_True).
    rewrite set_compressed_twice in Hread.
    erewrite on_log_reading; [|simpl; apply list_lookup_insert_eq; by eapply lookup_lt_Some|exact Hread]. done.
Qed.
End config.

(** ** Witnesses *)

#[local] Existing Instances rle_snappy rle_laws solo_raft solo_laws.

(** A node that has stored two messages in partition 1 of the default topic. *)
Definition ex_written : node unit solo :=
  (apply_entries (entry_frames [(CmdBatch (str "default") 1 ex_records, 5)]) None (ex_node false)).2.

Lemma ex_written_ok : node_ok ex_written (apply_cmds [(CmdBatch (str "default") 1 ex_records, 5)] no_messages).
Proof.
  destruct (ex_stored (mkStore ∅) tt) as (n' & Hrun & B & _). unfold ex_written.
  change (ex_node false) with (ex_node_on (mkStore ∅) tt false). by rewrite Hrun.
Qed.

Definition ex_config (bytes_limit : Z) (c : bool) : TopicConfig :=
  {| RetentionBytes := bytes_limit; RetentionMs := 0; Compacted := false; Compressed := c |}.

Lemma set_topic_config_correct_witness :
  ∃ n', SetTopicConfig [] (ex_config 10 false) ex_written = (Ok tt, n') ∧
    (getTopicConfig (str "default") n').1 = Ok (ex_config 10 false).
Proof.
  destruct (set_topic_config_correct [] (ex_config 10 false) ex_written _ ex_written_ok ex_plain) as [[H _]|[(_ & H & _)|H]].
  - left. by vm_compute.
  - exfalso. simpl in H. lia.
  - exfalso. simpl in H. lia.
  - destruct H as (_ & _ & n' & Hrun & _ & Hcfg). exists n'. split; [exact Hrun|]. exact (Hcfg (str "default")).
Defined.

(** A plain message is no compressed block: it cannot be read any more. *)
Lemma compression_change_misreads_witness :
  ∃ n' err, SetTopicConfig [] (ex_config 0 true) ex_written = (Ok tt, n') ∧ (Read [] 1 1 n').1 = Err err.
Proof.
  destruct (compression_change_misreads [] (ex_config 0 true) ex_written _ 1 1%nat 1%nat (mkMessage 1 5 [] (str "2"))
    ex_written_ok ex_plain) as (q & n' & Hq & Hrun & Hread); [done|by vm_compute|by vm_compute|done|done|by vm_compute|].
  assert (node_mode ex_written (defaultTopic []) = false) as Hmode by by vm_compute.
  rewrite Hmode in Hq. injection Hq as ->. exists n'. eexists. split; [exact Hrun|]. etrans; [exact Hread|]. by vm_compute.
Defined.

(** ** Topics that share a directory

    Topic names are path elements, and those that are not [plain] are not
    refused.  Three messages are published, the second under another name of the
    default topic's directory: both open logs give offset 1 away, and the message
    that the default topic stored there cannot be read any more. *)
Definition aliased : GoM (node unit solo) (list Z * (Message + goerr) * (Message + goerr)) :=
  o1 ← Publish (str "default") (str "k") (str "v1") (Some 0);
  o2 ← Publish (str "x/../default") (str "k") (str "second") (Some 0);
  o3 ← Publish (str "default") (str "k") (str "v3") (Some 0);
  r1 ← attempt (Read (str "default") 0 1);
  r2 ← attempt (Read (str "x/../default") 0 1);
  mret ([o1; o2; o3], r1, r2).

Lemma aliased_topics_collide :
  ∃ e, (aliased (ex_node false)).1 = Ok ([0; 1; 1], inr e, inl (mkMessage 1 6 (str "k") (str "second"))).
Proof. eexists. vm_compute. reflexivity. Qed.
