(* ===== verification/BrokerLife.v ===== *)
(** * The life of a broker

    Any sequence of publishing, applying entries of other leaders, reading,
    retention and restarts: what a partition holds only grows at its end and
    shrinks at its front, so an offset never gets another message. *)

From S2P Require Import Prelude GoNum GoNet Path OS Snappy Segment SegmentRep SegmentRead SegmentWrite SegmentOpen.
From S2P Require Import Log LogRep LogView LogWrite LogOpen LogRetention LogMessages Frame LogFrame.
From S2P Require Import RaftFSM RaftSpec RaftProps ConsumerGroup Broker BrokerRep BrokerRun BrokerSpec BrokerPublish BrokerProps BrokerConfig.

(** ** How contents evolve *)

(** Messages are added at the end, and some at the front are removed. *)
Definition grown (x x' : Z * list Message) : Prop :=
  ∃ j new, (j ≤ length (x.2 ++ new))%nat ∧ x'.1 = x.1 + Z.of_nat j ∧ x'.2 = drop j (x.2 ++ new).

Definition extends (C C' : contents) : Prop := ∀ t i, grown (C t i) (C' t i).

#[global] Instance grown_preorder : PreOrder grown.
Proof.
  split.
  - intros x. exists 0%nat, []. rewrite app_nil_r. split_and!; [lia|simpl; lia|done].
  - intros x1 x2 x3 (j & new & Hj & E1 & E2) (j' & new' & Hj' & E1' & E2').
    exists (j + j')%nat, (new ++ new'). rewrite E2 in *. rewrite length_app, length_drop in Hj'.
    split_and!.
    + rewrite app_assoc, length_app. lia.
    + rewrite E1', E1. lia.
    + rewrite E2', app_assoc, <-(drop_app_le (x1.2 ++ new) new' j Hj). by rewrite drop_drop.
Qed.

#[global] Instance extends_preorder : PreOrder extends.
Proof. split; [by intros C t i|]. intros C1 C2 C3 H12 H23 t i. etrans; [apply H12|apply H23]. Qed.

Lemma grown_app base ms new : grown (base, ms) (base, ms ++ new).
Proof. exists 0%nat, new. simpl. split_and!; [lia|lia|done]. Qed.

Lemma grown_drop base ms j : (j ≤ length ms)%nat → grown (base, ms) (base + Z.of_nat j, drop j ms).
Proof. intros Hj. exists j, []. simpl. by rewrite app_nil_r. Qed.

Lemma extends_set C t i x : grown (C t i) x → extends C (set_contents t i x C).
Proof. intros H t' i'. unfold set_contents. case_decide as E; [|done]. by destruct E as [-> ->]. Qed.

Lemma apply_cmds_extends es C : extends C (apply_cmds es C).
Proof.
  revert C. induction es as [|[c now] es IH]; intros C; [done|]. simpl. etrans; [|apply IH].
  apply extends_set. destruct (C _ _) as [base ms]. apply grown_app.
Qed.

Lemma grown_read x x' o m :
  grown x x' → read_at x.1 x.2 o = Ok m →
  read_at x'.1 x'.2 o = Ok m ∨ read_at x'.1 x'.2 o = Err (EMsg "offset %d is before the beginning of the log" [AInt o]).
Proof.
  intros (j & new & Hj & E1 & E2) H. unfold read_at in *. rewrite E1, E2.
  destruct (Z.ltb_spec o x.1) as [|Ho]; [done|]. destruct (Z.ltb_spec o (x.1 + Z.of_nat j)); [by right|left].
  destruct (x.2 !! Z.to_nat (o - x.1)) as [m'|] eqn:Hm; [|done]. simplify_eq.
  rewrite lookup_drop. replace (j + Z.to_nat (o - (x.1 + Z.of_nat j)))%nat with (Z.to_nat (o - x.1)) by lia.
  by rewrite (lookup_app_l_Some _ _ _ _ Hm).
Qed.

(** Contents are determined by what can be read. *)
Lemma read_at_inj base ms base' ms' :
  (∀ o, read_at base ms o = read_at base' ms' o) → base = base' ∧ ms = ms'.
Proof.
  intros H.
  assert (Hb : ∀ b1 l1 b2 l2, (∀ o, read_at b1 l1 o = read_at b2 l2 o) → ¬ b1 < b2).
  { intros b1 l1 b2 l2 Hr Hlt. specialize (Hr b1). unfold read_at in Hr.
    destruct (Z.ltb_spec b1 b1), (Z.ltb_spec b1 b2); try lia. by destruct (l1 !! _). }
  assert (base = base') as <-.
  { pose proof (Hb _ _ _ _ H). pose proof (Hb base' ms' base ms). specialize (H1 (λ o, eq_sym (H o))). lia. }
  split; [done|]. apply list_eq. intros k. specialize (H (base + Z.of_nat k)). unfold read_at in H.
  destruct (Z.ltb_spec (base + Z.of_nat k) base); [lia|].
  replace (Z.to_nat (base + Z.of_nat k - base)) with k in H by lia. by destruct (ms !! k), (ms' !! k); simplify_eq.
Qed.

(** Two contents that agree on the partitions there are. *)
Definition agree (C C' : contents) : Prop := ∀ t i, plain t → partition_id i → C t i = C' t i.

Section life.
Context {D R : Type} `{SN : Snappy} `{!SnappyLaws SN} `{RF : Raft R}.

Lemma apply_cmd_agree now c C C' :
  plain (cmd_topic c) → partition_id (cmd_partition c) → agree C C' → agree (apply_cmd now c C) (apply_cmd now c C').
Proof.
  intros Ht Hi H t i Ht' Hi'. unfold apply_cmd, set_contents, next_offset. rewrite (H _ _ Ht Hi).
  case_decide; [done|by apply H].
Qed.

Lemma entries_ok_agree mode C C' es : agree C C' → entries_ok mode C es → entries_ok mode C' es.
Proof.
  revert C C'. induction es as [|[c now] es IH]; intros C C' H; [done|]. intros [Hc Hes].
  pose proof Hc as (Ht & _ & Hi & _). split.
  - unfold cmd_ok, next_offset in *. by rewrite <-(H _ _ Ht Hi).
  - eapply IH; [|exact Hes]. by apply apply_cmd_agree.
Qed.

Lemma contents_unique (n : node D R) C C' : node_ok n C → node_ok n C' → agree C C'.
Proof.
  intros B B' t i Ht Hi.
  assert (Hd : defaultTopic t = t) by (unfold defaultTopic; case_decide as E; [|done]; destruct Ht as [Hne _]; by destruct Hne).
  destruct (read_at_inj (C t i).1 (C t i).2 (C' t i).1 (C' t i).2) as [E1 E2].
  - intros o. pose proof (Read_value t i o n C B) as H1. pose proof (Read_value t i o n C' B') as H2.
    rewrite Hd in H1, H2. rewrite <-H1, <-H2 by done. done.
  - by apply injective_projections.
Qed.

(** ** Retention *)

(** The sizes of a log's segments add up to an [int64]. *)
Definition sizes_fit (b : Broker) (p : nat) : Prop :=
  ∀ l, b_heap b !! p = Some l → size_sum (l_segments l) < 2 ^ 63.

Lemma retention_run b w C t i p bytes ms now (n : node D R) :
  broker_ok b w C → all_configured b → lookup_partition b t i = Some p → sizes_fit b p →
  ∃ l' w' C',
    let b' := set_heap (<[p := l']> (b_heap b)) b in
    ignore (on_log p (EnforceRetention bytes ms now)) (upd b w n) = (Ok tt, upd b' w' n) ∧
    broker_ok b' w' C' ∧ all_configured b' ∧ extends C C'.
Proof.
  intros B Hall Hp Hsize. destruct (ready_log _ _ _ _ _ _ B Hp (Hall _ _ _ Hp)) as (l & Hl & Hd & [Hm Hnf] & Hmode & W).
  pose proof (wp_EnforceRetention_drop w l _ _ bytes ms now W (Hsize l Hl)) as HW. unfold wp in HW.
  pose proof W as (gs & O & _). pose proof (bo_reliable _ _ _ B) as Hrel.
  pose proof (stepped_log w l gs any (EnforceRetention bytes ms now) Hrel (bo_fs _ _ _ B) O (lk_EnforceRetention _ _ bytes ms now)) as Hst.
  destruct (EnforceRetention bytes ms now (l, w)) as [[[]|e|] [l' w']] eqn:Hrun; [|by destruct HW|done].
  destruct HW as (Hd' & Hc' & Hm' & Hlast & j & Hj & W'). simpl in Hst. rewrite Hd in Hst.
  assert (Hset : set_compressed (topic_mode b t) l' = l') by (eapply Writable_configured; [exact W'|congruence]).
  exists l', w', (set_contents t i ((C t i).1 + Z.of_nat j, drop j (C t i).2) C). split_and!.
  - unfold ignore. rewrite (run_bind (attempt _) _ (inl tt) (upd b w n) (upd (set_heap (<[p := l']> (b_heap b)) b) w' n)); [done|].
    apply attempt_Ok. by eapply on_log_run.
  - eapply broker_ok_write; [done..|congruence| |by rewrite Hset|done].
    split; [congruence|]. unfold not_full in *. by rewrite Hlast, Hm'.
  - by eapply all_configured_heap.
  - apply extends_set. destruct (C t i) as [base ms0]. by apply grown_drop.
Qed.

Lemma retention_each bytes ms now t ps j b w C (n : node D R) :
  broker_ok b w C → all_configured b →
  (∀ k p, ps !! k = Some p → lookup_partition b t (j + Z.of_nat k) = Some p ∧ sizes_fit b p) →
  ∃ b' w' C', each (λ p, ignore (on_log p (EnforceRetention bytes ms now))) ps (upd b w n) = (Ok tt, upd b' w' n) ∧
    broker_ok b' w' C' ∧ all_configured b' ∧ extends C C'.
Proof.
  revert j b w C. induction ps as [|p ps IH]; intros j b w C B Hall Hps.
  { by exists b, w, C. }
  destruct (Hps 0%nat p eq_refl) as [Hp Hsize]. rewrite Z.add_0_r in Hp.
  destruct (retention_run b w C t j p bytes ms now n B Hall Hp Hsize) as (l' & w1 & C1 & Hrun & B1 & Hall1 & He1).
  cbv zeta in *. set (b1 := set_heap _ b) in *.
  destruct (IH (j + 1) b1 w1 C1 B1 Hall1) as (b2 & w2 & C2 & Hrun2 & B2 & Hall2 & He2).
  - intros k q Hq. destruct (Hps (S k) q Hq) as [Hlq Hsq]. replace (j + Z.of_nat (S k)) with (j + 1 + Z.of_nat k) in Hlq by lia.
    split; [exact Hlq|]. intros lq. assert (q ≠ p).
    { intros ->. destruct (lookup_partition_inj _ _ _ _ _ _ _ _ B Hp Hlq) as [_ E]. lia. }
    simpl. rewrite list_lookup_insert_ne by done. apply Hsq.
  - exists b2, w2, C2. split_and!; [|done|done|by etrans]. cbn [each]. by rewrite (run_bind _ _ _ _ _ Hrun).
Qed.

(** The open partitions of a topic fit. *)
Definition topic_fits (b : Broker) (t : bytes) : Prop := ∀ i p, lookup_partition b t i = Some p → sizes_fit b p.

Lemma enforceTopicRetention_run t now (n : node D R) C :
  node_ok n C → all_configured (n_broker n) → topic_fits (n_broker n) t →
  ∃ n' C', enforceTopicRetention t now n = (Ok tt, n') ∧ node_ok n' C' ∧ all_configured (n_broker n') ∧ extends C C'.
Proof.
  intros B Hall Hfit. unfold enforceTopicRetention. erewrite run_bind by reflexivity.
  destruct (negb _); [by exists n, C|]. erewrite run_bind by reflexivity. cbv zeta.
  set (config := default zeroTopicConfig _). destruct (_ && _); [by exists n, C|].
  destruct (retention_each (RetentionBytes config) (RetentionMs config) now t (default [] (b_logs (n_broker n) !! t)) 0
    (n_broker n) (n_world n) C n B Hall) as (b' & w' & C' & Hrun & B' & Hall' & He).
  - intros k p Hk. assert (Hp : lookup_partition (n_broker n) t (0 + Z.of_nat k) = Some p).
    { apply lookup_partition_Some. split; [lia|]. rewrite Z.add_0_l, Nat2Z.id.
      destruct (b_logs (n_broker n) !! t) as [ps|]; [by exists ps|done]. }
    split; [done|by eapply Hfit].
  - rewrite upd_id in Hrun. by exists (upd b' w' n), C'.
Qed.
(** ** Steps *)

(** The committed entries can be stored: their topics are one path element,
    their partitions exist, and the lengths and offsets fit their fields. *)
Definition accepts (n : node D R) (es : list (cmd * Z)) : Prop :=
  ∃ C, node_ok n C ∧ entries_ok (node_mode n) C es.

Inductive life_step : node D R → node D R → Prop :=
| life_publish n r r' es err topic key value partition res n' :
    let t := defaultTopic topic in
    n_raft n = Some r → raft_IsLeader r = true → plain t → valid_choice partition →
    raft_Apply (single_frame t (chosen (n_broker n) t key partition) key value) r = (r', entry_frames es, err) →
    accepts n es → Publish topic key value partition n = (res, n') → life_step n n'
| life_publish_batch n r r' es err topic i records res n' :
    let t := defaultTopic topic in
    n_raft n = Some r → raft_IsLeader r = true → plain t → partition_id i → records ≠ [] →
    raft_Apply (batch_frame t i records) r = (r', entry_frames es, err) →
    accepts n es → PublishBatch topic i (some_records records) n = (res, n') → life_step n n'
| life_apply n es last res n' :
    accepts n es → apply_entries (entry_frames es) last n = (res, n') → life_step n n'
| life_get_partition n topic i res n' :
    plain (defaultTopic topic) → partition_id i → broker_GetPartition topic i n = (res, n') → life_step n n'
| life_read n topic i o res n' :
    plain (defaultTopic topic) → partition_id i → Read topic i o n = (res, n') → life_step n n'
| life_read_batch n topic i o k res n' :
    plain (defaultTopic topic) → partition_id i → 0 ≤ o < 2 ^ 63 → 0 < k →
    ReadBatch topic i o k n = (res, n') → life_step n n'
| life_retention n topic now res n' :
    topic_fits (n_broker n) topic → enforceTopicRetention topic now n = (res, n') → life_step n n'
| life_set_config n topic config res n' :
    let t := defaultTopic topic in
    plain t → Compressed config = node_mode n t → SetTopicConfig topic config n = (res, n') → life_step n n'
| life_restart n configs :
    (∀ t, topic_mode (restarted (n_broker n) configs) t = node_mode n t) → life_step n (restart configs n)
| life_other n n' :
    n_broker n' = n_broker n → n_world n' = n_world n → life_step n n'.

Definition life_inv (n : node D R) (C : contents) : Prop := node_ok n C ∧ all_configured (n_broker n).

Lemma accepts_ok n es C : node_ok n C → accepts n es → entries_ok (node_mode n) C es.
Proof. intros B (C0 & B0 & H). eapply entries_ok_agree; [|exact H]. by eapply contents_unique. Qed.

(** A change of configuration that keeps the compression of the topic. *)
Lemma set_config_life topic config (n n' : node D R) C res :
  let t := defaultTopic topic in
  life_inv n C → plain t → Compressed config = node_mode n t → SetTopicConfig topic config n = (res, n') → life_inv n' C.
Proof.
  intros t [B Hall] Ht Hc Hrun.
  destruct (SetTopicConfig_cases topic config n C B Ht (or_introl Hc)) as [(e & Hrun1)|(b' & w' & Hrun1 & B' & Hs)];
    rewrite Hrun1 in Hrun; injection Hrun as _ <-; [by split|].
  split; [done|]. apply Hs. intros t' i p Hp. rewrite reconfigured_mode. simpl.
  case_decide as E; [|by apply (Hall t' i p)]. subst t'. rewrite Hc. by apply (Hall t i p).
Qed.

Lemma life_step_inv n n' C : life_step n n' → life_inv n C → ∃ C', life_inv n' C' ∧ extends C C'.
Proof.
  intros Hstep [B Hall].
  destruct Hstep as [n r r' es err topic key value partition res n' t Hr Hlead Ht Hv Ha Hes Hrun|
    n r r' es err topic i records res n' t Hr Hlead Ht Hi Hne Ha Hes Hrun|n es l res n' Hes Hrun|
    n topic i res n' Ht Hi Hrun|n topic i o res n' Ht Hi Hrun|n topic i o k res n' Ht Hi Ho Hk Hrun|
    n topic now res n' Hfit Hrun|n topic config res n' t Ht Hc Hrun|n configs Hm|n n' Eb Ew].
  - destruct (Publish_run n C r r' es err topic key value partition B Hr Hlead Ht Hv Ha (accepts_ok _ _ _ B Hes))
      as (n1 & Hpub & B1 & _ & _ & Hc & _). assert (n1 = n') as -> by congruence.
    exists (apply_cmds es C). split; [split; [done|by apply Hc]|apply apply_cmds_extends].
  - destruct (PublishBatch_run n C r r' es err topic i records B Hr Hlead Ht Hi Hne Ha (accepts_ok _ _ _ B Hes))
      as (n1 & Hpub & B1 & _ & Hc). assert (n1 = n') as -> by congruence.
    exists (apply_cmds es C). split; [split; [done|by apply Hc]|apply apply_cmds_extends].
  - destruct (apply_entries_run es l _ _ C n B (accepts_ok _ _ _ B Hes)) as (b & w & Hrun1 & B1 & Hset).
    rewrite upd_id in Hrun1. assert (upd b w n = n') as <- by congruence.
    exists (apply_cmds es C). split; [split; [done|by apply Hset]|apply apply_cmds_extends].
  - destruct (GetPartition_run topic i _ _ C n B Ht Hi) as (p & b & w & Hrun1 & B1 & Hset & _).
    rewrite upd_id in Hrun1. assert (upd b w n = n') as <- by congruence.
    exists C. split; [split; [done|by apply Hset]|done].
  - destruct (Read_run topic i o _ _ C n B Ht Hi) as (b & w & Hrun1 & B1 & Hset).
    rewrite upd_id in Hrun1. assert (upd b w n = n') as <- by congruence.
    exists C. split; [split; [done|by apply Hset]|done].
  - destruct (ReadBatch_run topic i o k _ _ C n B Ht Hi Ho Hk) as (b & w & Hrun1 & B1 & Hset).
    rewrite upd_id in Hrun1. assert (upd b w n = n') as <- by congruence.
    exists C. split; [split; [done|by apply Hset]|done].
  - destruct (enforceTopicRetention_run topic now n C B Hall Hfit) as (n1 & C' & Hrun1 & B1 & Hc & He).
    assert (n1 = n') as -> by congruence. by exists C'.
  - exists C. split; [|done]. by eapply (set_config_life topic config n n').
  - exists C. split; [split|done]; [by apply restarted_ok|done].
  - exists C. split; [|done]. unfold life_inv, node_ok. by rewrite Eb, Ew.
Qed.

Lemma life_inv_rtc n n' C : rtc life_step n n' → life_inv n C → ∃ C', life_inv n' C' ∧ extends C C'.
Proof.
  intros Hrun. revert C. induction Hrun as [n|n1 n2 n3 Hstep _ IH]; intros C I; [by exists C|].
  destruct (life_step_inv _ _ _ Hstep I) as (C2 & I2 & E2). destruct (IH C2 I2) as (C3 & I3 & E3).
  exists C3. split; [done|by etrans].
Qed.

(** C2.  An offset keeps its message.  After any sequence of publishing, batches,
    entries applied for other leaders, reads, retention, and changes of
    configuration and restarts that keep the compression of each topic, what was
    read at an offset is read there again, or retention has removed it and the
    read says so: it is never replaced by another message and never lost. *)
Theorem offsets_are_stable (n n' : node D R) C topic i o m :
  life_inv n C → rtc life_step n n' → plain (defaultTopic topic) → partition_id i →
  (Read topic i o n).1 = Ok m →
  (Read topic i o n').1 = Ok m ∨
  (Read topic i o n').1 = Err (EMsg "offset %d is before the beginning of the log" [AInt o]).
Proof.
  intros I Hrun Ht Hi Hread. destruct (life_inv_rtc _ _ _ Hrun I) as (C' & [B' _] & E).
  rewrite (Read_value topic i o n C (proj1 I) Ht Hi) in Hread. rewrite !(Read_value topic i o n' C' B' Ht Hi).
  eapply grown_read; [apply E|exact Hread].
Qed.
End life.

(** ** Witness *)

#[local] Existing Instances rle_snappy rle_laws solo_raft solo_laws.

Lemma ex_configured : life_inv (ex_node false) no_messages.
Proof.
  split; [apply ex_node_ok|]. intros t i p H. discriminate H.
Qed.

(** Two messages are stored, the broker is restarted, and stores two more. *)
Lemma ex_life : ∃ n1 n2 : node unit solo,
  rtc life_step (ex_node false) n1 ∧ (Read [] 1 1 n1).1 = Ok (mkMessage 1 5 [] (str "2")) ∧ rtc life_step n1 n2 ∧
  (Read [] 1 3 n2).1 = Ok (mkMessage 3 9 [] (str "2")).
Proof.
  destruct (ex_stored (mkStore ∅) tt) as (n1 & Hrun1 & B1 & Hm1 & _). exists n1.
  destruct (apply_entries_run [(CmdBatch (str "default") 1 ex_records, 9)] None (restarted (n_broker n1) ∅) (n_world n1)
    (apply_cmds [(CmdBatch (str "default") 1 ex_records, 5)] no_messages) n1) as (b2 & w2 & Hrun2 & B2 & _).
  { apply restarted_ok; [exact B1|]. intros t. change (topic_mode (n_broker n1) t) with (node_mode n1 t). by rewrite Hm1. }
  { split; [|exact I]. apply ex_batch_ok; ex_side. }
  exists (upd b2 w2 n1). split_and!.
  - apply rtc_once. eapply life_apply; [|exact Hrun1]. exists no_messages. split; [apply (ex_node_ok false)|].
    split; [|exact I]. apply ex_batch_ok; ex_side.
  - apply (Read_appended [] 1 n1 _ 0 [mkMessage 0 5 (str "a") (str "1")] _ B1 ex_plain); [ex_side|reflexivity].
  - eapply rtc_l; [apply (life_restart n1 ∅); intros t; by rewrite Hm1|]. apply rtc_once.
    eapply life_apply; [|exact Hrun2].
    exists (apply_cmds [(CmdBatch (str "default") 1 ex_records, 5)] no_messages). split.
    + apply restarted_ok; [exact B1|]. intros t. change (topic_mode (n_broker n1) t) with (node_mode n1 t). by rewrite Hm1.
    + split; [|exact I]. apply ex_batch_ok; ex_side.
  - apply (Read_appended [] 1 (upd b2 w2 n1) _ 0
      [mkMessage 0 5 (str "a") (str "1"); mkMessage 1 5 [] (str "2"); mkMessage 2 9 (str "a") (str "1")] _ B2 ex_plain);
      [ex_side|reflexivity].
Qed.

Lemma offsets_are_stable_witness :
  ∃ n1 n2 : node unit solo, (Read [] 1 1 n1).1 = Ok (mkMessage 1 5 [] (str "2")) ∧ rtc life_step n1 n2 ∧
    (Read [] 1 3 n2).1 = Ok (mkMessage 3 9 [] (str "2")) ∧
    ((Read [] 1 1 n2).1 = Ok (mkMessage 1 5 [] (str "2")) ∨
     (Read [] 1 1 n2).1 = Err (EMsg "offset %d is before the beginning of the log" [AInt 1])).
Proof.
  destruct ex_life as (n1 & n2 & H0 & Hr1 & H12 & Hr2). destruct (life_inv_rtc _ _ _ H0 ex_configured) as (C1 & I1 & _).
  exists n1, n2. split; [exact Hr1|]. split; [exact H12|]. split; [exact Hr2|].
  apply (offsets_are_stable n1 n2 C1 [] 1 1 _ I1 H12 ex_plain); [ex_side|exact Hr1].
Defined.
