(* ===== verification/BrokerAPI.v ===== *)
(** * The interfaces of the broker: internal/broker/broker.go

    The gRPC methods, the HTTP handlers, joining a cluster, the gRPC address
    and closing the broker. *)

From S2P Require Import Prelude GoNum GoNet Path OS Snappy Segment Log RaftFSM ConsumerGroup Broker.

(** ** HTTP

    A request has its method, the parsed query, and what decoding its JSON body
    into the handler's request type gives.  A response has its status and its
    body: the text of [http.Error], or the value given to the JSON encoder.  A
    body whose encoder fails, which the handlers ignore, is not modelled. *)

Record http_request (A : Type) : Type := mkRequest {
  Method : bytes;
  Query : list (bytes * bytes);
  Body : A + goerr
}.
Arguments mkRequest {A}.
Arguments Method {A}.
Arguments Query {A}.
Arguments Body {A}.

Inductive json : Type :=
| JInt (z : Z)
| JStr (s : bytes)
| JArray (l : list json)
| JObject (fields : list (string * json)).

Inductive http_body : Type :=
| NoBody
| TextBody (e : goerr)
| JSONBody (j : json).

Record http_response : Type := mkResponse { StatusCode : Z; ResponseBody : http_body }.

Definition http_Error (msg : goerr) (code : Z) : http_response := mkResponse code (TextBody msg).
Definition http_OK (j : json) : http_response := mkResponse 200 (JSONBody j).

Definition MethodGet : bytes := str "GET".
Definition MethodPost : bytes := str "POST".
Definition method_not_allowed : http_response := http_Error (EMsg "method not allowed" []) 405.

(** [r.URL.Query().Get(key)] *)
Fixpoint query_Get (query : list (bytes * bytes)) (key : bytes) : bytes :=
  match query with
  | [] => []
  | (k, v) :: query => if decide (k = key) then v else query_Get query key
  end.

(** ** Metrics

    [c.Inc()] and [c.Add(n)] on the counters. *)

Definition add_produced (k : Z) (m : Metrics) : Metrics :=
  mkMetrics (messagesProducedTotal m + k) (messagesConsumedTotal m) (produceErrorsTotal m) (consumeErrorsTotal m) (consumerGroupLag m).
Definition add_consumed (k : Z) (m : Metrics) : Metrics :=
  mkMetrics (messagesProducedTotal m) (messagesConsumedTotal m + k) (produceErrorsTotal m) (consumeErrorsTotal m) (consumerGroupLag m).
Definition inc_produceErrors (m : Metrics) : Metrics :=
  mkMetrics (messagesProducedTotal m) (messagesConsumedTotal m) (produceErrorsTotal m + 1) (consumeErrorsTotal m) (consumerGroupLag m).
Definition inc_consumeErrors (m : Metrics) : Metrics :=
  mkMetrics (messagesProducedTotal m) (messagesConsumedTotal m) (produceErrorsTotal m) (consumeErrorsTotal m + 1) (consumerGroupLag m).

(** ** Messages of the gRPC service *)

Record ProduceRequest : Type := mkProduce {
  pr_Topic : bytes; pr_Partition : option Z; pr_Key : bytes; pr_Value : bytes
}.
Record ProduceBatchRequest : Type := mkProduceBatch {
  pb_Topic : bytes; pb_Partition : Z; pb_Records : pb_records
}.
(** An error in the response is its text; the empty text is [None]. *)
Record ProduceBatchResponse : Type := mkProduceBatchResponse { pbr_Offsets : list Z; pbr_Error : option goerr }.
Record ConsumeRequest : Type := mkConsume { cr_Topic : bytes; cr_Partition : option Z; cr_Offset : Z }.
Record ConsumeResponse : Type := mkConsumeResponse { cs_Offset : Z; cs_Key : bytes; cs_Value : bytes }.
Record ConsumeBatchRequest : Type := mkConsumeBatch {
  cb_Topic : bytes; cb_Partition : Z; cb_Offset : Z; cb_MaxCount : Z
}.
Record ConsumedRecord : Type := mkConsumed { co_Offset : Z; co_Key : bytes; co_Value : bytes; co_Timestamp : Z }.
Record CommitOffsetRequest : Type := mkCommitOffset {
  cm_GroupId : bytes; cm_Topic : bytes; cm_Partition : Z; cm_Offset : Z
}.
Record FetchOffsetRequest : Type := mkFetchOffset { fo_GroupId : bytes; fo_Topic : bytes; fo_Partition : Z }.

(** [partitionValue(partition)] *)
Definition partitionValue (partition : option Z) : Z := match partition with Some p => p | None => 0 end.

Definition out_of_range (partition : Z) : bool := (partition <? 0) || (defaultNumPartitions <=? partition).

Section api.
Context {D T R : Type} `{SN : Snappy} `{RF : Raft R} `{BT : Bolt D T}.

Abbreviation M := (GoM (node D R)).

Definition count (f : Metrics → Metrics) : M unit := modify_st (λ n, with_metrics (f (n_metrics n)) n).

(** ** gRPC *)

Definition Produce (req : ProduceRequest) : M Z :=
  r ← attempt (Publish (pr_Topic req) (pr_Key req) (pr_Value req) (pr_Partition req));
  match r with
  | inr err => count inc_produceErrors;; throw err
  | inl offset => count (add_produced 1);; mret offset
  end.

Definition ProduceBatch (req : ProduceBatchRequest) : M ProduceBatchResponse :=
  let topic := defaultTopic (pb_Topic req) in
  let failed (err : goerr) := count inc_produceErrors;; mret (mkProduceBatchResponse [] (Some err)) in
  if out_of_range (pb_Partition req) then failed (partition_error (pb_Partition req))
  else
    match pb_Records req with
    | [] => failed (EMsg "records must not be empty" [])
    | _ :: _ =>
        r ← attempt (PublishBatch topic (pb_Partition req) (pb_Records req));
        match r with
        | inr err => failed err
        | inl offsets => count (add_produced (zlen offsets));; mret (mkProduceBatchResponse offsets None)
        end
    end.

Definition Consume (req : ConsumeRequest) : M ConsumeResponse :=
  let partition := match cr_Partition req with Some p => p | None => 0 end in
  r ← attempt (Read (cr_Topic req) partition (cr_Offset req));
  match r with
  | inr err => count inc_consumeErrors;; throw err
  | inl message => count (add_consumed 1);; mret (mkConsumeResponse (Offset message) (Key message) (Value message))
  end.

Definition consumed_record (m : Message) : ConsumedRecord :=
  mkConsumed (i64 (Offset m)) (Key m) (Value m) (Timestamp m).

Definition ConsumeBatch (req : ConsumeBatchRequest) : M (list ConsumedRecord) :=
  let topic := defaultTopic (cb_Topic req) in
  let failed (err : goerr) := count inc_consumeErrors;; throw err in
  if out_of_range (cb_Partition req) then failed (partition_error (cb_Partition req))
  else if cb_Offset req <? 0 then failed (EMsg "offset must be non-negative" [])
  else if cb_MaxCount req <=? 0 then failed (EMsg "max_count must be greater than zero" [])
  else
    let maxCount := if 1000 <? cb_MaxCount req then 1000 else cb_MaxCount req in
    r ← attempt (ReadBatch topic (cb_Partition req) (cb_Offset req) maxCount);
    match r with
    | inr err => failed err
    | inl messages =>
        count (add_consumed (zlen (consumed_record <$> messages)));;
        mret (consumed_record <$> messages)
    end.

Definition CommitOffset (req : CommitOffsetRequest) : M unit :=
  if decide (cm_GroupId req = []) then throw (EMsg "group_id is required" [])
  else
    let topic := defaultTopic (cm_Topic req) in
    if out_of_range (cm_Partition req) then throw (partition_error (cm_Partition req))
    else
      on_groups (store_CommitOffset (cm_GroupId req) topic (cm_Partition req) (cm_Offset req));;
      updateConsumerGroupLagFor (cm_GroupId req) topic (cm_Partition req) (cm_Offset req).

Definition FetchOffset (req : FetchOffsetRequest) : M Z :=
  if decide (fo_GroupId req = []) then throw (EMsg "group_id is required" [])
  else
    let topic := defaultTopic (fo_Topic req) in
    if out_of_range (fo_Partition req) then throw (partition_error (fo_Partition req))
    else n ← get_st; mret (store_FetchOffset (fo_GroupId req) topic (fo_Partition req) (n_groups n)).

(** ** HTTP handlers

    A handler gives the response it writes; it panics where the Go code does. *)

Record join_request : Type := mkJoinRequest { jr_ID : bytes; jr_Addr : bytes }.

Definition handleJoin (r : http_request join_request) : M http_response :=
  if negb (bool_decide (Method r = MethodPost)) then mret method_not_allowed
  else
    match Body r with
    | inr err => mret (http_Error err 400)
    | inl request =>
        if bool_decide (jr_ID request = []) || bool_decide (jr_Addr request = [])
        then mret (http_Error (EMsg "id and addr are required" []) 400)
        else
          raft ← the_raft;
          match raft_GetConfiguration raft with
          | inr err => mret (http_Error err 500)
          | inl servers =>
              if existsb (λ server, bool_decide (srv_ID server = jr_ID request) && srv_Voter server) servers
              then mret (mkResponse 200 NoBody)
              else
                joined ← attempt (Join (jr_ID request) (jr_Addr request));
                match joined with
                | inr err => mret (http_Error err 500)
                | inl _ => mret (mkResponse 200 NoBody)
                end
          end
    end.

(** The body of /produce has the fields of [ProduceRequest]. *)
Definition handleProduce (r : http_request ProduceRequest) : M http_response :=
  if negb (bool_decide (Method r = MethodPost)) then count inc_produceErrors;; mret method_not_allowed
  else
    match Body r with
    | inr err => count inc_produceErrors;; mret (http_Error err 400)
    | inl request =>
        let topic := defaultTopic (pr_Topic request) in
        published ← attempt (Publish topic (pr_Key request) (pr_Value request) (pr_Partition request));
        match published with
        | inr err => count inc_produceErrors;; mret (http_Error err 500)
        | inl offset =>
            count (add_produced 1);;
            mret (http_OK (JObject [("offset"%string, JInt offset); ("topic"%string, JStr topic);
              ("partition"%string, JInt (partitionValue (pr_Partition request)))]))
        end
    end.

(** [partition := 0; if value := ...; value != ""]; [None] is an invalid one. *)
Definition query_partition (value : bytes) : option Z := if decide (value = []) then Some 0 else Atoi value.

Definition handleConsume (r : http_request unit) : M http_response :=
  let failed (err : goerr) (code : Z) := count inc_consumeErrors;; mret (http_Error err code) in
  if negb (bool_decide (Method r = MethodGet)) then count inc_consumeErrors;; mret method_not_allowed
  else
    let topic := defaultTopic (query_Get (Query r) (str "topic")) in
    match query_partition (query_Get (Query r) (str "partition")) with
    | None => failed (EMsg "invalid partition" []) 400
    | Some partition =>
        let offsetString := query_Get (Query r) (str "offset") in
        if decide (offsetString = []) then failed (EMsg "missing offset" []) 400
        else
          match ParseUint offsetString with
          | None => failed (EMsg "invalid offset" []) 400
          | Some offset =>
              read ← attempt (Read topic partition offset);
              match read with
              | inr err => failed err 404
              | inl message =>
                  count (add_consumed 1);;
                  mret (http_OK (JObject [("offset"%string, JInt (Offset message)); ("topic"%string, JStr topic);
                    ("partition"%string, JInt partition); ("key"%string, JStr (Key message));
                    ("value"%string, JStr (Value message))]))
              end
          end
    end.

(** The body of /commit-offset has the fields of [CommitOffsetRequest]. *)
Definition handleCommitOffset (r : http_request CommitOffsetRequest) : M http_response :=
  if negb (bool_decide (Method r = MethodPost)) then mret method_not_allowed
  else
    match Body r with
    | inr err => mret (http_Error err 400)
    | inl request =>
        if decide (cm_GroupId request = []) then mret (http_Error (EMsg "group_id is required" []) 400)
        else
          let topic := defaultTopic (cm_Topic request) in
          if out_of_range (cm_Partition request) then mret (http_Error (EMsg "invalid partition" []) 400)
          else
            committed ← attempt (on_groups
              (store_CommitOffset (cm_GroupId request) topic (cm_Partition request) (cm_Offset request)));
            match committed with
            | inr err => mret (http_Error err 500)
            | inl _ =>
                updateConsumerGroupLagFor (cm_GroupId request) topic (cm_Partition request) (cm_Offset request);;
                mret (mkResponse 200 NoBody)
            end
    end.

Definition handleFetchOffset (r : http_request unit) : M http_response :=
  if negb (bool_decide (Method r = MethodGet)) then mret method_not_allowed
  else
    let groupID := query_Get (Query r) (str "group_id") in
    if decide (groupID = []) then mret (http_Error (EMsg "missing group_id" []) 400)
    else
      let topic := defaultTopic (query_Get (Query r) (str "topic")) in
      let partitionString := query_Get (Query r) (str "partition") in
      if decide (partitionString = []) then mret (http_Error (EMsg "missing partition" []) 400)
      else
        match ParseInt 32 partitionString with
        | None => mret (http_Error (EMsg "invalid partition" []) 400)
        | Some partition =>
            if out_of_range partition then mret (http_Error (EMsg "invalid partition" []) 400)
            else
              n ← get_st;
              mret (http_OK (JObject [("offset"%string, JInt (store_FetchOffset groupID topic partition (n_groups n)))]))
        end.

(** ** Admin handlers *)

(** [for partitionID, partitionLog := range partitions] *)
Fixpoint partition_infos (partitionID : Z) (partitions : list nat) : M (list json) :=
  match partitions with
  | [] => mret []
  | p :: partitions =>
      latestOffset ← on_log p (reading (λ l, mret (LatestOffset l)));
      infos ← partition_infos (partitionID + 1) partitions;
      mret (JObject [("id"%string, JInt partitionID); ("latest_offset"%string, JInt latestOffset)] :: infos)
  end.

(** [for topic, partitions := range b.logs] *)
Fixpoint topic_infos (topics : list (bytes * list nat)) : M (list json) :=
  match topics with
  | [] => mret []
  | (topic, partitions) :: topics =>
      infos ← partition_infos 0 partitions;
      rest ← topic_infos topics;
      mret (JObject [("topic"%string, JStr topic); ("partitions"%string, JArray infos)] :: rest)
  end.

(** [writeAdminJSON]: the values the handlers give it always encode. *)
Definition writeAdminJSON (j : json) : M http_response := mret (http_OK j).

Definition handleAdminTopics `{MapRange} (r : http_request unit) : M http_response :=
  if negb (bool_decide (Method r = MethodGet)) then mret method_not_allowed
  else
    b ← get_broker;
    result ← topic_infos (map_range (b_logs b));
    writeAdminJSON (JArray result).

(** The latest offset of a partition, 0 when the topic is not open. *)
Definition open_latest_offset (topic : bytes) (partition : Z) : M Z :=
  b ← get_broker;
  match lookup_partition b topic partition with
  | Some p => on_log p (reading (λ l, mret (LatestOffset l)))
  | None => mret 0
  end.

(** The loop that fills [groupMap]. *)
Fixpoint fill_groups (committedOffsets : list ConsumerGroupOffset) (groupMap : gmap bytes (list json)) :
    M (gmap bytes (list json)) :=
  match committedOffsets with
  | [] => mret groupMap
  | committed :: rest =>
      let offsets := default [] (groupMap !! cg_GroupID committed) in
      latestOffset ← open_latest_offset (cg_Topic committed) (cg_Partition committed);
      let info := JObject [("topic"%string, JStr (cg_Topic committed)); ("partition"%string, JInt (cg_Partition committed));
        ("committed"%string, JInt (cg_Offset committed)); ("lag"%string, JInt (lag_of latestOffset (cg_Offset committed)))] in
      fill_groups rest (<[cg_GroupID committed := offsets ++ [info]]> groupMap)
  end.

Definition handleAdminGroups `{MapRange} (r : http_request unit) : M http_response :=
  if negb (bool_decide (Method r = MethodGet)) then mret method_not_allowed
  else
    n ← get_st;
    groupMap ← fill_groups (Snapshot (n_groups n)) ∅;
    writeAdminJSON (JArray ((λ '(groupID, offsets),
      JObject [("group_id"%string, JStr groupID); ("offsets"%string, JArray offsets)]) <$> map_range groupMap)).

Definition handleAdminCluster (r : http_request unit) : M http_response :=
  if negb (bool_decide (Method r = MethodGet)) then mret method_not_allowed
  else
    raft ← the_raft;
    match raft_GetConfiguration raft with
    | inr err => mret (http_Error err 500)
    | inl servers =>
        writeAdminJSON (JObject [("state"%string, JStr (raft_State raft)); ("leader"%string, JStr (raft_LeaderWithID raft));
          ("peers"%string, JArray (JStr ∘ srv_Address <$> servers))])
    end.

(** ** Closing *)

(** [if err := m; err != nil && firstErr == nil { firstErr = err }] *)
Definition keep_first (m : M unit) (firstErr : option goerr) : M (option goerr) :=
  r ← attempt m;
  mret (match firstErr, r with None, inr err => Some err | _, _ => firstErr end).

Fixpoint close_logs (ps : list nat) (firstErr : option goerr) : M (option goerr) :=
  match ps with
  | [] => mret firstErr
  | p :: ps => firstErr ← keep_first (on_log p Log_Close) firstErr; close_logs ps firstErr
  end.

(** Close after it has waited for the background workers, which is in
    BrokerWorkers.v and BrokerClose.v.  [shutdown] is the error of
    [httpServer.Shutdown], if there is a server and it fails. *)
Definition close_rest `{MapRange} (shutdown : option goerr) : M unit :=
  n ← get_st;
  firstErr ← (match n_raft n with
              | Some raft =>
                  let '(raft', err) := raft_Shutdown raft in
                  modify_st (with_raft (Some raft'));;
                  mret (match shutdown with Some _ => shutdown | None => err end)
              | None => mret shutdown
              end);
  b ← get_broker;
  firstErr ← close_logs (mjoin ((map_range (b_logs b)).*2)) firstErr;
  firstErr ← keep_first (on_groups (lift_snd store_Close)) firstErr;
  match firstErr with Some err => throw err | None => mret tt end.
End api.

(** ** Joining a cluster *)

Section join_peer.
(** The network: [http.Post] of a JSON body gives the status of the response. *)
Context {N : Type} (http_Post : bytes → join_request → N → N * ((Z * bytes) + goerr)).

(** The attempts that are left, and the last error. *)
Fixpoint join_attempts (url : bytes) (body : join_request) (k : nat) (lastErr : goerr) : GoM N (unit + goerr) :=
  match k with
  | O => mret (inr lastErr)
  | S k =>
      net ← get_st;
      let '(net', response) := http_Post url body net in
      put_st net';;
      match response with
      | inl (code, status) =>
          if (200 <=? code) && (code <? 300) then mret (inl tt)
          else join_attempts url body k (EMsg "join request returned status %s" [AStr status])
      | inr err => join_attempts url body k err
      end
  end.

Definition joinPeer (id addr peer : bytes) : GoM N unit :=
  let url := str "http://" ++ peer ++ str "/join" in
  r ← join_attempts url (mkJoinRequest id addr) 5 EOF;
  match r with
  | inl _ => mret tt
  | inr lastErr => throw (EWrap "failed to join peer %s after 5 attempts: %w" [AStr peer] lastErr)
  end.
End join_peer.

(** ** The gRPC address *)

(** [strconv.Atoi]'s two errors are both [ErrSyntax]. *)
Definition ErrSyntax (s : bytes) : goerr := EMsg "strconv.Atoi: parsing %q" [AStr s].

Definition grpcAddress (httpAddr : bytes) : bytes + goerr :=
  match SplitHostPort httpAddr with
  | inr err => inr (EWrap "invalid HTTP address %q: %w" [AStr httpAddr] err)
  | inl (host, portString) =>
      match Atoi portString with
      | None => inr (EWrap "invalid HTTP port %q: %w" [AStr portString] (ErrSyntax portString))
      | Some port =>
          if 65535 - 1000 <? port then inr (EMsg "HTTP port %d is too high for gRPC port offset" [AInt port])
          else inl (JoinHostPort host (Itoa (port + 1000)))
      end
  end.
