(* ===== verification/BrokerAPIRun.v ===== *)
(** * Runs of the broker's interfaces

    What the gRPC methods do to the abstract state: the contents of the
    partitions, the offsets of the consumer groups, and the metrics. *)

From S2P Require Import Prelude GoNum GoNet Path OS Snappy Segment SegmentRep SegmentRead SegmentWrite SegmentOpen.
From S2P Require Import Log LogRep LogView LogWrite LogOpen LogMessages Frame LogFrame.
From S2P Require Import RaftFSM RaftSpec RaftProps ConsumerGroup ConsumerGroupProps.
From S2P Require Import Broker BrokerRep BrokerRun BrokerSpec BrokerPublish BrokerAPI.

Section api.
Context {D T R : Type} `{SN : Snappy} `{!SnappyLaws SN} `{RF : Raft R}.
Context `{BT : Bolt D T} `{BV : BoltView D T} `{!BoltLaws D T}.

(** The broker holds the messages [C], its offsets agree with the database, and
    the database device works. *)
Definition node_inv (n : node D R) (C : contents) : Prop :=
  node_ok n C ∧ agrees (n_groups n) (n_db n) ∧ ¬ bolt_faulty (n_db n).

(** What a call that reads leaves alone. *)
Definition same_rest (n n' : node D R) : Prop :=
  n_groups n' = n_groups n ∧ n_db n' = n_db n ∧ n_raft n' = n_raft n ∧ same_settings (n_broker n) (n_broker n').

Lemma node_inv_rest n n' C : node_inv n C → node_ok n' C → same_rest n n' → node_inv n' C.
Proof. intros (_ & Ha & Hf) B (Eg & Ed & _). split; [done|]. by rewrite Eg, Ed. Qed.

(** The response to a message that was read. *)
Definition consume_response (m : Message) : ConsumeResponse := mkConsumeResponse (Offset m) (Key m) (Value m).

Definition outcome_map {A B} (f : A → B) (r : outcome A) : outcome B :=
  match r with Ok a => Ok (f a) | Err e => Err e | Panic => Panic end.

Lemma read_at_cases base msgs o :
  (∃ m, msgs !! Z.to_nat (o - base) = Some m ∧ base ≤ o ∧ read_at base msgs o = Ok m) ∨
  (∃ e, read_at base msgs o = Err e ∧ (o < base ∨ base + zlen msgs ≤ o)).
Proof.
  unfold read_at. destruct (Z.ltb_spec o base); [right; eauto|].
  destruct (msgs !! Z.to_nat (o - base)) as [m|] eqn:Hm; [left; eauto|right].
  apply lookup_ge_None in Hm. eexists. split; [done|]. lia.
Qed.

Lemma Consume_run req (n : node D R) C :
  let t := defaultTopic (cr_Topic req) in
  let i := default 0 (cr_Partition req) in
  node_ok n C → plain t → partition_id i →
  ∃ n', Consume req n = (outcome_map consume_response (read_at (C t i).1 (C t i).2 (cr_Offset req)), n') ∧
    node_ok n' C ∧ same_rest n n' ∧
    n_metrics n' = (if read_at (C t i).1 (C t i).2 (cr_Offset req) is Ok _ then add_consumed 1 (n_metrics n)
                    else inc_consumeErrors (n_metrics n)).
Proof.
  intros t i B Ht Hi. destruct (Read_run (cr_Topic req) i (cr_Offset req) _ _ C n B Ht Hi) as (b & w & Hrun & B' & Hset).
  rewrite upd_id in Hrun. fold t in Hrun. unfold Consume. cbv zeta.
  change (match cr_Partition req with Some p => p | None => 0 end) with i.
  destruct (read_at_cases (C t i).1 (C t i).2 (cr_Offset req)) as [(m & _ & _ & E)|(e & E & _)]; rewrite E in *.
  - exists (with_metrics (add_consumed 1 (n_metrics n)) (upd b w n)).
    rewrite (run_bind _ _ _ _ _ (attempt_Ok _ _ _ _ Hrun)). by split_and!.
  - exists (with_metrics (inc_consumeErrors (n_metrics n)) (upd b w n)).
    rewrite (run_bind (attempt _) _ (inr e) n (upd b w n)) by (unfold attempt; by rewrite Hrun). by split_and!.
Qed.

(** ** Offsets *)

(** The offset of the newest message of a partition, 0 when it has none. *)
Definition latest_in (C : contents) (t : bytes) (i : Z) : Z :=
  match last (C t i).2 with Some m => Offset m | None => 0 end.

Lemma latest_run b w C t i p (n : node D R) :
  broker_ok b w C → lookup_partition b t i = Some p → configured b p (topic_mode b t) →
  on_log p (reading (λ l, mret (LatestOffset l))) (upd b w n) = (Ok (latest_in C t i), upd b w n).
Proof.
  intros B Hp Hc. destruct (ready_log _ _ _ _ _ _ B Hp Hc) as (l & Hl & _ & _ & _ & W).
  eapply on_log_reading; [done|]. by rewrite (LatestOffset_last _ _ _ _ (Writable_Readable _ _ _ _ W)).
Qed.

Definition set_gauge (g t : bytes) (i lag : Z) (m : Metrics) : Metrics :=
  mkMetrics (messagesProducedTotal m) (messagesConsumedTotal m) (produceErrorsTotal m)
    (consumeErrorsTotal m) (<[(g, t, Itoa i) := float64 lag]> (consumerGroupLag m)).

Lemma updateLag_run g t i o (n : node D R) C :
  node_ok n C → plain (defaultTopic t) → partition_id i →
  ∃ n', updateConsumerGroupLagFor g t i o n = (Ok tt, n') ∧ node_ok n' C ∧ same_rest n n' ∧
    n_metrics n' = set_gauge g t i (lag_of (latest_in C (defaultTopic t) i) o) (n_metrics n).
Proof.
  intros B Ht Hi. destruct (GetPartition_run t i _ _ C n B Ht Hi) as (p & b & w & Hg & B' & Hset & Hp & Hc & _).
  rewrite upd_id in Hg. rewrite <-(same_settings_mode _ _ _ Hset) in Hc.
  exists (with_metrics (set_gauge g t i (lag_of (latest_in C (defaultTopic t) i) o) (n_metrics n)) (upd b w n)).
  split; [|by split_and!]. unfold updateConsumerGroupLagFor.
  rewrite (run_bind _ _ _ _ _ (attempt_Ok _ _ _ _ Hg)), (run_bind _ _ _ _ _ (latest_run _ _ _ _ _ _ n B' Hp Hc)). done.
Qed.

(** The lag is never negative. *)
Lemma lag_of_max latest committed : lag_of latest committed = Z.max 0 (latest - committed).
Proof. unfold lag_of. destruct (Z.leb_spec committed latest); lia. Qed.

(** A group, a topic and a partition whose offset BoltDB takes. *)
Definition commit_ok (g t : bytes) (i o : Z) : Prop :=
  g ≠ [] ∧ nul_free g ∧ nul_free t ∧ partition_id i ∧ is_u64 o ∧ zlen g + zlen t + 6 ≤ 32768.

Lemma commit_ok_refusable g t i o (d : D) : commit_ok g t i o → ¬ bolt_faulty d → ¬ refusable g t i o d.
Proof.
  intros (_ & Hg & Ht & _ & _ & Hlen) Hf [Hn|[Hn|Hn]]; [| |done].
  - apply ContainsNUL_false in Hg, Ht. by rewrite Hg, Ht in Hn.
  - apply Hn. unfold bolt_entry_ok, offsetKey, PutUint64, PutUint32. split_and!.
    + by destruct g.
    + rewrite !length_app, length_be_put. simpl. lia.
    + rewrite length_be_put. simpl. lia.
Qed.

Lemma store_commit_run g t i o (n : node D R) :
  agrees (n_groups n) (n_db n) → ¬ bolt_faulty (n_db n) → commit_ok g t i o →
  ∃ d', on_groups (store_CommitOffset g t i o) n = (Ok tt, with_groups (commit_cache g t i o (n_groups n), d') n) ∧
    agrees (commit_cache g t i o (n_groups n)) d' ∧ ¬ bolt_faulty d'.
Proof.
  intros Ha Hf Hc. pose proof (commit_ok_refusable g t i o (n_db n) Hc Hf) as Hr.
  pose proof Hc as (_ & _ & _ & _ & Ho & _).
  pose proof (wp_CommitOffset g t i o _ _ Ha Ho) as W. pose proof (wp_commit_db g t i o _ _ (proj1 Ha)) as W'.
  unfold on_groups, zoom. unfold store_CommitOffset in *. unfold mbind, gom_bind, lift_snd, modify_st, wp in *.
  destruct (commit_db g t i o (n_db n)) as [[[]|e|] d']; [|tauto|done].
  destruct W as (_ & Ha' & _), W' as (_ & Hf' & _). exists d'. split; [done|]. split; [done|tauto].
Qed.

Lemma CommitOffset_run req (n : node D R) C :
  let g := cm_GroupId req in
  let t := defaultTopic (cm_Topic req) in
  let i := cm_Partition req in
  let o := cm_Offset req in
  node_inv n C → plain t → commit_ok g t i o →
  ∃ n', CommitOffset req n = (Ok tt, n') ∧ node_inv n' C ∧
    n_groups n' = commit_cache g t i o (n_groups n) ∧ n_raft n' = n_raft n ∧
    same_settings (n_broker n) (n_broker n') ∧
    n_metrics n' = set_gauge g t i (lag_of (latest_in C t i) o) (n_metrics n).
Proof.
  intros g t i o (B & Ha & Hf) Ht Hc. destruct (store_commit_run g t i o n Ha Hf Hc) as (d' & Hrun & Ha' & Hf').
  pose proof Hc as (Hg & _ & _ & Hi & _). unfold CommitOffset. rewrite decide_False by done. cbv zeta.
  assert (Hr : out_of_range i = false).
  { unfold out_of_range, partition_id, defaultNumPartitions in *. destruct (Z.ltb_spec i 0), (Z.leb_spec 3 i); lia. }
  fold g t i o. rewrite Hr. rewrite (run_bind _ _ _ _ _ Hrun).
  destruct (updateLag_run g t i o (with_groups (commit_cache g t i o (n_groups n), d') n) C) as (n' & Hlag & B' & Hrest & Hm);
    [done|unfold t; by rewrite defaultTopic_idem|done|].
  exists n'. rewrite Hlag. unfold t in Hm at 2. rewrite defaultTopic_idem in Hm. fold t in Hm.
  pose proof Hrest as (Eg & _ & Er & Es). split_and!; [done| |done..].
  apply (node_inv_rest (with_groups (commit_cache g t i o (n_groups n), d') n)); [|done..]. by split_and!.
Qed.

Lemma FetchOffset_run req (n : node D R) :
  fo_GroupId req ≠ [] → partition_id (fo_Partition req) →
  FetchOffset req n = (Ok (store_FetchOffset (fo_GroupId req) (defaultTopic (fo_Topic req)) (fo_Partition req) (n_groups n)), n).
Proof.
  intros Hg Hi. unfold FetchOffset. rewrite decide_False by done. cbv zeta.
  unfold out_of_range, partition_id, defaultNumPartitions in *.
  destruct (Z.ltb_spec (fo_Partition req) 0), (Z.leb_spec 3 (fo_Partition req)); (done || lia).
Qed.
End api.
