(* ===== verification/BrokerHTTP.v ===== *)
(** * The HTTP server

    The request multiplexer that NewBroker of internal/broker/broker.go fills:
    what every endpoint answers, that the answers are those of the gRPC methods,
    and what the admin pages report.  [returns P m]: the code [m] gives a value
    with [P], it does not fail; [ServeHTTP] is the whole server on one request. *)

From S2P Require Import Prelude GoNum GoNet Path OS Snappy Segment SegmentRep Log LogRep LogView LogMessages.
From S2P Require Import RaftFSM RaftSpec RaftProps ConsumerGroup ConsumerGroupProps.
From S2P Require Import Broker BrokerRep BrokerRun BrokerSpec BrokerPublish BrokerProps BrokerAPI BrokerAPIRun.

(** ** The server *)

Inductive endpoint : Type :=
| EJoin | EProduce | EConsume | ECommitOffset | EFetchOffset | EMetrics
| EAdminTopics | EAdminGroups | EAdminCluster.

(** The registrations of [mux]; none of the patterns ends in a slash, so a path
    is served by the pattern it is equal to. *)
Definition mux : list (bytes * endpoint) := [
  (str "/join", EJoin); (str "/produce", EProduce); (str "/consume", EConsume);
  (str "/commit-offset", ECommitOffset); (str "/fetch-offset", EFetchOffset); (str "/metrics", EMetrics);
  (str "/admin/topics", EAdminTopics); (str "/admin/groups", EAdminGroups); (str "/admin/cluster", EAdminCluster)
].

Fixpoint mux_Handler (patterns : list (bytes * endpoint)) (path : bytes) : option endpoint :=
  match patterns with
  | [] => None
  | (pattern, e) :: patterns => if decide (pattern = path) then Some e else mux_Handler patterns path
  end.

(** [http.NotFound] *)
Definition http_NotFound : http_response := http_Error (EMsg "404 page not found" []) 404.

(** A request before its body is decoded.  The path is clean; the mux redirects
    any other to its clean form. *)
Record raw_request : Type := mkRaw { rq_Path : bytes; rq_Method : bytes; rq_Query : list (bytes * bytes); rq_Body : bytes }.

Definition with_body {A} (r : raw_request) (body : A + goerr) : http_request A :=
  mkRequest (rq_Method r) (rq_Query r) body.

(** The JSON decoder at the three request types. *)
Record decoders : Type := mkDecoders {
  decode_join : bytes → join_request + goerr;
  decode_produce : bytes → ProduceRequest + goerr;
  decode_commit : bytes → CommitOffsetRequest + goerr
}.

Section ServeHTTP.
Context {D T R : Type} `{SN : Snappy} `{RF : Raft R} `{BT : Bolt D T} `{MR : MapRange}.
(** [promhttp.Handler()] shows the registered metrics. *)
Context (promhttp : Metrics → http_response) (J : decoders).

Definition handle (e : endpoint) (r : raw_request) : GoM (node D R) http_response :=
  match e with
  | EJoin => handleJoin (with_body r (decode_join J (rq_Body r)))
  | EProduce => handleProduce (with_body r (decode_produce J (rq_Body r)))
  | EConsume => handleConsume (with_body r (inl tt))
  | ECommitOffset => handleCommitOffset (with_body r (decode_commit J (rq_Body r)))
  | EFetchOffset => handleFetchOffset (with_body r (inl tt))
  | EMetrics => n ← get_st; mret (promhttp (n_metrics n))
  | EAdminTopics => handleAdminTopics (with_body r (inl tt))
  | EAdminGroups => handleAdminGroups (with_body r (inl tt))
  | EAdminCluster => handleAdminCluster (with_body r (inl tt))
  end.

Definition ServeHTTP (r : raw_request) : GoM (node D R) http_response :=
  match mux_Handler mux (rq_Path r) with
  | Some e => handle e r
  | None => mret http_NotFound
  end.
End ServeHTTP.

(** ** Types of JSON *)

Inductive jtype : Type :=
| TInt
| TStr
| TArray (t : jtype)
| TObject (fields : list (string * jtype)).

Fixpoint has_type (t : jtype) (j : json) : bool :=
  match t, j with
  | TInt, JInt _ => true
  | TStr, JStr _ => true
  | TArray t, JArray l => forallb (has_type t) l
  | TObject fs, JObject l =>
      (fix go (fs : list (string * jtype)) (l : list (string * json)) : bool :=
         match fs, l with
         | [], [] => true
         | (k, t) :: fs, (k', j) :: l => String.eqb k k' && has_type t j && go fs l
         | _, _ => false
         end) fs l
  | _, _ => false
  end.

(** The method an endpoint takes; /metrics takes any. *)
Definition method_of (e : endpoint) : option bytes :=
  match e with
  | EJoin | EProduce | ECommitOffset => Some MethodPost
  | EConsume | EFetchOffset | EAdminTopics | EAdminGroups | EAdminCluster => Some MethodGet
  | EMetrics => None
  end.

(** The type of the body of an endpoint's 200; [None]: it is empty. *)
Definition schema (e : endpoint) : option jtype :=
  match e with
  | EProduce => Some (TObject [("offset"%string, TInt); ("topic"%string, TStr); ("partition"%string, TInt)])
  | EConsume => Some (TObject [("offset"%string, TInt); ("topic"%string, TStr); ("partition"%string, TInt);
      ("key"%string, TStr); ("value"%string, TStr)])
  | EFetchOffset => Some (TObject [("offset"%string, TInt)])
  | EAdminTopics => Some (TArray (TObject [("topic"%string, TStr);
      ("partitions"%string, TArray (TObject [("id"%string, TInt); ("latest_offset"%string, TInt)]))]))
  | EAdminGroups => Some (TArray (TObject [("group_id"%string, TStr);
      ("offsets"%string, TArray (TObject [("topic"%string, TStr); ("partition"%string, TInt);
        ("committed"%string, TInt); ("lag"%string, TInt)]))]))
  | EAdminCluster => Some (TObject [("state"%string, TStr); ("leader"%string, TStr); ("peers"%string, TArray TStr)])
  | EJoin | ECommitOffset | EMetrics => None
  end.

(** The codes of the errors of an endpoint, the wrong method apart. *)
Definition error_codes (e : endpoint) : list Z :=
  match e with
  | EJoin | EProduce | ECommitOffset => [400; 500]
  | EConsume => [400; 404]
  | EFetchOffset => [400]
  | EAdminTopics | EAdminGroups | EMetrics => []
  | EAdminCluster => [500]
  end.

(** A response an endpoint may give: 200 with a body of its type, or an error
    with one of its codes and a text. *)
Definition typed_response (e : endpoint) (r : http_response) : bool :=
  match ResponseBody r with
  | NoBody => (StatusCode r =? 200) && match schema e with None => true | Some _ => false end
  | JSONBody j => (StatusCode r =? 200) && match schema e with None => false | Some t => has_type t j end
  | TextBody _ => existsb (Z.eqb (StatusCode r)) (error_codes e)
  end.

(** ** Code that does not fail *)

Definition returns {S A} (P : A → Prop) (m : GoM S A) : Prop :=
  ∀ s, match (m s).1 with Ok a => P a | Err _ => False | Panic => True end.

Section returns.
Context {S A : Type}.

Lemma returns_ret (P : A → Prop) a : P a → returns P (mret (M := GoM S) a).
Proof. by intros H s. Qed.

Lemma returns_bind {B} P (Q : A → Prop) (m : GoM S B) k :
  returns P m → (∀ b, P b → returns Q (k b)) → returns Q (m ≫= k).
Proof.
  intros Hm Hk s. specialize (Hm s). unfold mbind, gom_bind. destruct (m s) as [[b|e|] s']; [|done..]. by apply Hk.
Qed.

(** The code goes on whatever it is given. *)
Lemma returns_then {B} (Q : A → Prop) (m : GoM S B) k :
  returns (λ _, True) m → (∀ b, returns Q (k b)) → returns Q (m ≫= k).
Proof. intros Hm Hk. by eapply returns_bind. Qed.

Lemma returns_attempt (m : GoM S A) : returns (λ _, True) (attempt m).
Proof. intros s. unfold attempt. by destruct (m s) as [[] ?]. Qed.

Lemma returns_get : returns (λ _, True) (get_st (S := S)).
Proof. done. Qed.

Lemma returns_modify f : returns (λ _, True) (modify_st (S := S) f).
Proof. done. Qed.
End returns.

Create HintDb returns.
#[export] Hint Resolve returns_attempt returns_get returns_modify : returns.
#[export] Hint Extern 1 (returns _ (mret _)) => apply returns_ret; by vm_compute : returns.

(** Structural steps, with a case analysis of what the code inspects. *)
Ltac returns_solve := cbv zeta; repeat (first
  [ solve [eauto with returns]
  | apply returns_then; [solve [eauto with returns]|intros ?]
  | match goal with |- returns _ (match ?x with _ => _ end) => destruct x end]).

Section http.
Context {D T R : Type} `{SN : Snappy} `{RF : Raft R} `{BT : Bolt D T} `{MR : MapRange}.

Lemma returns_count f : returns (λ _, True) (count (D := D) (R := R) f).
Proof. done. Qed.

Lemma returns_get_broker : returns (λ _, True) (get_broker (D := D) (R := R)).
Proof. done. Qed.

Lemma returns_the_raft : returns (λ _, True) (the_raft (D := D) (R := R)).
Proof. intros n. unfold the_raft, mbind, gom_bind, get_st. by destruct (n_raft n). Qed.

Lemma returns_latest p : returns (λ _, True) (on_log (D := D) (R := R) p (reading (λ l, mret (LatestOffset l)))).
Proof. intros n. unfold on_log, reading. by destruct (b_heap (n_broker n) !! p). Qed.

#[local] Hint Resolve returns_count returns_get_broker returns_the_raft returns_latest : returns.

Lemma returns_set_lag g t i lag : returns (λ _, True) (set_lag (D := D) (R := R) g t i lag).
Proof. done. Qed.

#[local] Hint Resolve returns_set_lag : returns.

Lemma returns_updateLag g t i o : returns (λ _, True) (updateConsumerGroupLagFor (D := D) (R := R) g t i o).
Proof. unfold updateConsumerGroupLagFor. returns_solve. Qed.

#[local] Hint Resolve returns_updateLag : returns.

Lemma returns_partition_infos i ps :
  returns (λ l, forallb (has_type (TObject [("id"%string, TInt); ("latest_offset"%string, TInt)])) l = true)
    (partition_infos (D := D) (R := R) i ps).
Proof.
  revert i. induction ps as [|p ps IH]; intros i; cbn [partition_infos]; [by apply returns_ret|].
  apply returns_then; [apply returns_latest|]. intros o. eapply returns_bind; [apply IH|]. intros l Hl. by apply returns_ret.
Qed.

Lemma returns_topic_infos topics :
  returns (λ l, has_type (default TInt (schema EAdminTopics)) (JArray l) = true) (topic_infos (D := D) (R := R) topics).
Proof.
  induction topics as [|[t ps] topics IH]; cbn [topic_infos]; [by apply returns_ret|].
  eapply returns_bind; [apply returns_partition_infos|]. intros infos Hi.
  eapply returns_bind; [exact IH|]. intros rest Hr. apply returns_ret. simpl in *. by rewrite Hi, Hr.
Qed.

Definition group_offset_type : jtype := TObject [("topic"%string, TStr); ("partition"%string, TInt);
  ("committed"%string, TInt); ("lag"%string, TInt)].

Lemma returns_open_latest t i : returns (λ _, True) (open_latest_offset (D := D) (R := R) t i).
Proof. unfold open_latest_offset. returns_solve. Qed.

Lemma returns_fill_groups cs : ∀ gm,
  map_Forall (λ _ l, forallb (has_type group_offset_type) l = true) gm →
  returns (map_Forall (λ _ l, forallb (has_type group_offset_type) l = true)) (fill_groups (D := D) (R := R) cs gm).
Proof.
  induction cs as [|c cs IH]; intros gm Hgm; cbn [fill_groups]; [by apply returns_ret|].
  apply returns_then; [apply returns_open_latest|]. intros o. apply IH.
  apply map_Forall_insert_2; [|done]. rewrite forallb_app. simpl. rewrite andb_true_r.
  destruct (gm !! cg_GroupID c) as [l|] eqn:Hl; [by eapply (map_Forall_lookup_1 _ _ _ _ Hgm)|done].
Qed.

(** The handlers answer a request with another method in the same way. *)
Lemma wrong_method {A} (m : bytes) (x k : GoM (node D R) A) m' :
  m ≠ m' → (if negb (bool_decide (m = m')) then x else k) = x.
Proof. intros H. by rewrite bool_decide_eq_false_2. Qed.

Lemma right_method {A} (m : bytes) (x k : GoM (node D R) A) : (if negb (bool_decide (m = m)) then x else k) = k.
Proof. by rewrite bool_decide_eq_true_2. Qed.

(** What a request for a path is answered with. *)
Definition http_answered (promhttp : Metrics → http_response) (r : raw_request) (response : http_response) : Prop :=
  match mux_Handler mux (rq_Path r) with
  | None => response = http_NotFound
  | Some e =>
      match method_of e with
      | None => ∃ m, response = promhttp m
      | Some m => if decide (rq_Method r = m) then typed_response e response = true else response = method_not_allowed
      end
  end.

Ltac by_method := intros Hm; unfold with_body; cbn [Method Body Query]; try rewrite Hm, right_method.

Lemma returns_handleJoin r body :
  rq_Method r = MethodPost → returns (λ x, typed_response EJoin x = true) (handleJoin (D := D) (with_body r body)).
Proof. unfold handleJoin. by_method. returns_solve. Qed.

Lemma returns_handleProduce r body :
  rq_Method r = MethodPost → returns (λ x, typed_response EProduce x = true) (handleProduce (D := D) (with_body r body)).
Proof. unfold handleProduce. by_method. returns_solve. Qed.

Lemma returns_handleConsume r :
  rq_Method r = MethodGet → returns (λ x, typed_response EConsume x = true) (handleConsume (D := D) (R := R) (with_body r (inl tt))).
Proof. unfold handleConsume. by_method. returns_solve. Qed.

Lemma returns_handleCommit r body :
  rq_Method r = MethodPost → returns (λ x, typed_response ECommitOffset x = true) (handleCommitOffset (R := R) (with_body r body)).
Proof. unfold handleCommitOffset. by_method. returns_solve. Qed.

Lemma returns_handleFetch r :
  rq_Method r = MethodGet → returns (λ x, typed_response EFetchOffset x = true) (handleFetchOffset (D := D) (R := R) (with_body r (inl tt))).
Proof. unfold handleFetchOffset. by_method. returns_solve. Qed.

Lemma returns_handleTopics r :
  rq_Method r = MethodGet → returns (λ x, typed_response EAdminTopics x = true) (handleAdminTopics (D := D) (R := R) (with_body r (inl tt))).
Proof.
  unfold handleAdminTopics. by_method. apply returns_then; [apply returns_get_broker|]. intros b.
  eapply returns_bind; [apply returns_topic_infos|]. intros l Hl. by apply returns_ret.
Qed.

Lemma returns_handleGroups r :
  rq_Method r = MethodGet → returns (λ x, typed_response EAdminGroups x = true) (handleAdminGroups (D := D) (R := R) (with_body r (inl tt))).
Proof.
  unfold handleAdminGroups. by_method. apply returns_then; [apply returns_get|]. intros n.
  eapply returns_bind; [apply returns_fill_groups, map_Forall_empty|]. intros gm Hgm. apply returns_ret.
  unfold typed_response. cbn [ResponseBody http_OK StatusCode schema has_type andb Z.eqb Pos.eqb]. apply forallb_forall.
  intros j Hj. apply list_elem_of_In, list_elem_of_fmap in Hj as ([g l] & -> & Hin). apply elem_of_map_range in Hin.
  pose proof (map_Forall_lookup_1 _ _ _ _ Hgm Hin) as Hl. cbn beta in Hl.
  change (forallb (has_type group_offset_type) l && true = true). by rewrite Hl.
Qed.

Lemma returns_handleCluster r :
  rq_Method r = MethodGet → returns (λ x, typed_response EAdminCluster x = true) (handleAdminCluster (D := D) (with_body r (inl tt))).
Proof.
  unfold handleAdminCluster. by_method. returns_solve. apply returns_ret. unfold typed_response. simpl.
  rewrite andb_true_r. induction l as [|s l IH]; [done|]. exact IH.
Qed.

Lemma returns_handle promhttp J e r m :
  method_of e = Some m → rq_Method r = m →
  returns (λ x, typed_response e x = true) (handle (D := D) (R := R) promhttp J e r).
Proof.
  intros Hm Hr. unfold handle.
  destruct e; simpl in Hm; try discriminate Hm; injection Hm as <-;
    auto using returns_handleJoin, returns_handleProduce, returns_handleConsume, returns_handleCommit,
      returns_handleFetch, returns_handleTopics, returns_handleGroups, returns_handleCluster.
Qed.

Lemma returns_wrong promhttp J e r m :
  method_of e = Some m → rq_Method r ≠ m →
  returns (λ x, x = method_not_allowed) (handle (D := D) (R := R) promhttp J e r).
Proof.
  intros Hm Hr. unfold handle.
  destruct e; simpl in Hm; try discriminate Hm; injection Hm as <-;
    unfold handleJoin, handleProduce, handleConsume, handleCommitOffset, handleFetchOffset, handleAdminTopics, handleAdminGroups,
      handleAdminCluster, with_body; cbn [Method Body Query]; rewrite wrong_method by done.
  all: first [by apply returns_ret|apply returns_then; [apply returns_count|intros _; by apply returns_ret]].
Qed.

(** C25. Whatever the request, whatever the state of the broker, whatever the
    JSON decoder gives: the server answers with a response of the endpoint's
    type.  Every error becomes a response; an unknown path gives 404, another
    method than the endpoint's 405; otherwise the response is a 200 whose body
    has the endpoint's JSON type, or a text with one of its error codes.  (A
    handler that panics gives no response.) *)
Theorem http_answers_typed promhttp J (r : raw_request) (n : node D R) :
  match (ServeHTTP promhttp J r n).1 with
  | Ok response => http_answered promhttp r response
  | Err _ => False
  | Panic => True
  end.
Proof.
  enough (returns (http_answered promhttp r) (ServeHTTP (D := D) (R := R) promhttp J r)) as H by apply H.
  unfold ServeHTTP, http_answered. destruct (mux_Handler mux (rq_Path r)) as [e|]; [|by apply returns_ret].
  destruct (method_of e) as [m|] eqn:Hm.
  - destruct (decide (rq_Method r = m)) as [Hr|Hr]; [by apply (returns_handle promhttp J e r m)|by eapply returns_wrong].
  - destruct e; try discriminate Hm. apply returns_then; [apply returns_get|]. intros n'. apply returns_ret. by eexists.
Qed.

(** ** HTTP and gRPC *)

(** The outcome of a gRPC method as an HTTP response. *)
Definition rendered {A} (show : A → http_response) (code : Z) (r : outcome A * node D R) : outcome http_response * node D R :=
  (match r.1 with
   | Ok a => Ok (show a)
   | Err e => Ok (http_Error e code)
   | Panic => Panic
   end, r.2).

Lemma Publish_default topic key value p :
  Publish (D := D) (R := R) (defaultTopic topic) key value p = Publish topic key value p.
Proof. unfold Publish. by rewrite defaultTopic_idem. Qed.

Lemma Read_default topic i o : Read (D := D) (R := R) (defaultTopic topic) i o = Read topic i o.
Proof. unfold Read, broker_GetPartition. by rewrite defaultTopic_idem. Qed.

Lemma query_partition_Itoa p : is_i64 p → query_partition (Itoa p) = Some p.
Proof. intros Hp. unfold query_partition. rewrite decide_False by apply Itoa_nonempty. by apply Atoi_Itoa. Qed.

Lemma out_of_range_spec i : out_of_range i = negb (bool_decide (partition_id i)).
Proof.
  unfold out_of_range, partition_id, defaultNumPartitions.
  case_bool_decide; destruct (Z.ltb_spec i 0), (Z.leb_spec 3 i); simpl; (done || lia).
Qed.

Lemma partition_in_range i : partition_id i → out_of_range i = false.
Proof. intros Hi. rewrite out_of_range_spec. by rewrite bool_decide_eq_true_2. Qed.

Definition produced_json (req : ProduceRequest) (o : Z) : http_response :=
  http_OK (JObject [("offset"%string, JInt o); ("topic"%string, JStr (defaultTopic (pr_Topic req)));
    ("partition"%string, JInt (partitionValue (pr_Partition req)))]).

Definition consumed_json (topic : bytes) (partition : Z) (c : ConsumeResponse) : http_response :=
  http_OK (JObject [("offset"%string, JInt (cs_Offset c)); ("topic"%string, JStr (defaultTopic topic));
    ("partition"%string, JInt partition); ("key"%string, JStr (cs_Key c)); ("value"%string, JStr (cs_Value c))]).

Definition fetched_json (o : Z) : http_response := http_OK (JObject [("offset"%string, JInt o)]).

Lemma handleProduce_grpc r req (n : node D R) :
  rq_Method r = MethodPost →
  handleProduce (with_body r (inl req)) n = rendered (produced_json req) 500 (Produce req n).
Proof.
  unfold handleProduce. by_method. cbv zeta. rewrite Publish_default.
  unfold Produce, rendered, attempt, mbind, gom_bind. by destruct (Publish _ _ _ _ n) as [[] n'].
Qed.

Lemma handleConsume_grpc r topic p o (n : node D R) :
  rq_Method r = MethodGet → query_Get (rq_Query r) (str "topic") = topic →
  query_partition (query_Get (rq_Query r) (str "partition")) = Some p →
  query_Get (rq_Query r) (str "offset") ≠ [] → ParseUint (query_Get (rq_Query r) (str "offset")) = Some o →
  handleConsume (with_body r (inl tt)) n = rendered (consumed_json topic p) 404 (Consume (mkConsume topic (Some p) o) n).
Proof.
  unfold handleConsume. by_method. intros Ht Hp Hne Ho. cbv zeta. rewrite Hp, Ht, decide_False, Ho, Read_default by done.
  unfold Consume, rendered, attempt, mbind, gom_bind. cbn [cr_Topic cr_Partition cr_Offset].
  by destruct (Read _ _ _ n) as [[] n'].
Qed.

Lemma handleCommit_grpc r req (n : node D R) :
  rq_Method r = MethodPost → cm_GroupId req ≠ [] → partition_id (cm_Partition req) →
  handleCommitOffset (with_body r (inl req)) n = rendered (λ _, mkResponse 200 NoBody) 500 (CommitOffset req n).
Proof.
  unfold handleCommitOffset, CommitOffset. by_method. intros Hg Hi. cbv zeta.
  rewrite !(decide_False (P := cm_GroupId req = [])), !partition_in_range by done.
  unfold rendered, attempt, mbind, gom_bind. destruct (on_groups _ n) as [[[]|e|] n']; [|done..].
  pose proof (returns_updateLag (cm_GroupId req) (defaultTopic (cm_Topic req)) (cm_Partition req) (cm_Offset req) n') as H.
  by destruct (updateConsumerGroupLagFor _ _ _ _ n') as [[[]|e|] n''].
Qed.

Lemma handleFetch_grpc r g topic i (n : node D R) :
  rq_Method r = MethodGet → query_Get (rq_Query r) (str "group_id") = g → query_Get (rq_Query r) (str "topic") = topic →
  query_Get (rq_Query r) (str "partition") = Itoa i → is_i32 i → g ≠ [] → partition_id i →
  handleFetchOffset (with_body r (inl tt)) n = rendered fetched_json 400 (FetchOffset (mkFetchOffset g topic i) n).
Proof.
  unfold handleFetchOffset, FetchOffset. by_method. intros -> -> -> H32 Hg Hi. cbv zeta.
  cbn [fo_GroupId fo_Topic fo_Partition]. pose proof (Itoa_nonempty i) as Hne.
  rewrite !(decide_False (P := g = [])), (decide_False (P := Itoa i = [])), ParseInt_Itoa, !partition_in_range by (done || lia). done.
Qed.

(** A request that a method refuses, and so does the handler, with the code 400
    and a text of its own: neither does anything. *)
Definition both_refuse {A} (http : outcome http_response * node D R) (grpc : outcome A * node D R) (n : node D R) : Prop :=
  ∃ e e', http = (Ok (http_Error e 400), n) ∧ grpc = (Err e', n).

Lemma handleCommit_refuses r req (n : node D R) :
  rq_Method r = MethodPost → cm_GroupId req = [] ∨ ¬ partition_id (cm_Partition req) →
  both_refuse (handleCommitOffset (with_body r (inl req)) n) (CommitOffset req n) n.
Proof.
  unfold handleCommitOffset, CommitOffset. by_method. intros Hbad. destruct (decide (cm_GroupId req = [])) as [|Hg]; [by eexists _, _|].
  destruct Hbad as [|Hi]; [done|]. cbv zeta. rewrite !out_of_range_spec, bool_decide_eq_false_2 by done. by eexists _, _.
Qed.

Lemma handleFetch_refuses r g topic i (n : node D R) :
  rq_Method r = MethodGet → query_Get (rq_Query r) (str "group_id") = g →
  query_Get (rq_Query r) (str "partition") = Itoa i → is_i32 i → g = [] ∨ ¬ partition_id i →
  both_refuse (handleFetchOffset (with_body r (inl tt)) n) (FetchOffset (mkFetchOffset g topic i) n) n.
Proof.
  unfold handleFetchOffset, FetchOffset. by_method. intros -> -> H32 Hbad. cbn [fo_GroupId fo_Topic fo_Partition]. cbv zeta.
  destruct (decide (g = [])) as [|Hg]; [by eexists _, _|]. destruct Hbad as [|Hi]; [done|].
  rewrite decide_False, ParseInt_Itoa by (apply Itoa_nonempty || done || lia).
  rewrite !out_of_range_spec, bool_decide_eq_false_2 by done. by eexists _, _.
Qed.

End http.

(** ** The admin pages *)

Lemma LatestOffset_set_compressed c l : LatestOffset (set_compressed c l) = LatestOffset l.
Proof.
  unfold LatestOffset, set_compressed. cbn [l_segments]. rewrite <-fmap_reverse.
  induction (reverse (l_segments l)) as [|s segs IH]; [done|]. rewrite fmap_cons. cbn [latest_of]. by rewrite IH.
Qed.

Section admin.
Context {D T R : Type} `{SN : Snappy} `{!SnappyLaws SN} `{RF : Raft R} `{BT : Bolt D T} `{MR : MapRange}.

Definition partition_json (C : contents) (t : bytes) (i : Z) : json :=
  JObject [("id"%string, JInt i); ("latest_offset"%string, JInt (latest_in C t i))].

Definition topic_json (C : contents) (t : bytes) : json :=
  JObject [("topic"%string, JStr t); ("partitions"%string, JArray (partition_json C t <$> [0; 1; 2]))].

(** The offset of the newest message as far as the broker knows: 0 for a topic
    that is not open. *)
Definition known_latest (n : node D R) (C : contents) (t : bytes) (i : Z) : Z :=
  match lookup_partition (n_broker n) t i with Some _ => latest_in C t i | None => 0 end.

Definition committed_json (n : node D R) (C : contents) (c : ConsumerGroupOffset) : json :=
  JObject [("topic"%string, JStr (cg_Topic c)); ("partition"%string, JInt (cg_Partition c));
    ("committed"%string, JInt (cg_Offset c));
    ("lag"%string, JInt (lag_of (known_latest n C (cg_Topic c) (cg_Partition c)) (cg_Offset c)))].

Definition group_json (x : bytes * list json) : json :=
  let '(groupID, offsets) := x in JObject [("group_id"%string, JStr groupID); ("offsets"%string, JArray offsets)].

(** An open log, configured or not, knows its newest offset. *)
Lemma latest_open t i p (n : node D R) C :
  node_ok n C → lookup_partition (n_broker n) t i = Some p →
  on_log p (reading (λ l, mret (LatestOffset l))) n = (Ok (latest_in C t i), n).
Proof.
  intros B Hp. destruct (bo_open _ _ _ B _ _ _ Hp) as (l & Hl & _ & _ & W).
  rewrite <-(upd_id n). eapply on_log_reading; [done|].
  rewrite <-(LatestOffset_set_compressed (topic_mode (n_broker n) t) l).
  by rewrite (LatestOffset_last _ _ _ _ (Writable_Readable _ _ _ _ W)).
Qed.

Lemma partition_infos_run t (n : node D R) C ps : ∀ i,
  node_ok n C → (∀ j p, ps !! j = Some p → lookup_partition (n_broker n) t (i + Z.of_nat j) = Some p) →
  partition_infos i ps n = (Ok (partition_json C t <$> seqZ i (zlen ps)), n).
Proof.
  induction ps as [|p ps IH]; intros i B Hps; [done|]. cbn [partition_infos].
  rewrite (run_bind _ _ _ _ _ (latest_open t i p n C B ltac:(rewrite <-(Hps 0%nat p eq_refl); f_equal; lia))).
  rewrite (run_bind _ _ _ _ _ (IH (i + 1) B ltac:(intros j q Hj; rewrite <-(Hps (S j) q Hj); f_equal; lia))).
  rewrite (seqZ_cons i (zlen (p :: ps))) by (simpl; lia). rewrite length_cons.
  replace (Z.pred (Z.of_nat (S (length ps)))) with (zlen ps) by lia. done.
Qed.

Lemma topic_infos_run (n : node D R) C topics :
  node_ok n C → (∀ t ps, (t, ps) ∈ topics → b_logs (n_broker n) !! t = Some ps) →
  topic_infos topics n = (Ok (topic_json C <$> topics.*1), n).
Proof.
  intros B. induction topics as [|[t ps] topics IH]; intros Hin; [done|]. cbn [topic_infos].
  pose proof (Hin t ps ltac:(apply list_elem_of_here)) as Hps. destruct (bo_topics _ _ _ B _ _ Hps) as [_ Hlen].
  rewrite (run_bind _ _ _ _ _ (partition_infos_run t n C ps 0 B
    ltac:(intros j p Hj; rewrite Z.add_0_l; apply lookup_partition_Some; split; [lia|]; exists ps; by rewrite Nat2Z.id))).
  rewrite (run_bind _ _ _ _ _ (IH ltac:(intros t' ps' H; apply Hin; by apply list_elem_of_further))).
  rewrite Hlen. done.
Qed.

Lemma open_latest_run t i (n : node D R) C :
  node_ok n C → open_latest_offset t i n = (Ok (known_latest n C t i), n).
Proof.
  intros B. unfold open_latest_offset, known_latest. rewrite (run_bind _ _ (n_broker n) n n) by done.
  destruct (lookup_partition (n_broker n) t i) as [p|] eqn:Hp; [by apply latest_open|done].
Qed.

(** The commits of a group, as the page shows them. *)
Definition commits_of (n : node D R) (C : contents) (cs : list ConsumerGroupOffset) (g : bytes) : list json :=
  committed_json n C <$> filter (λ c, cg_GroupID c = g) cs.

Lemma fill_groups_run (n : node D R) C cs : ∀ gm,
  node_ok n C →
  ∃ gm', fill_groups cs gm n = (Ok gm', n) ∧
    ∀ g, gm' !! g = match commits_of n C cs g with [] => gm !! g | infos => Some (default [] (gm !! g) ++ infos) end.
Proof.
  induction cs as [|c cs IH]; intros gm B; cbn [fill_groups]; [by exists gm|].
  rewrite (run_bind _ _ _ _ _ (open_latest_run (cg_Topic c) (cg_Partition c) n C B)). fold (committed_json n C c).
  destruct (IH (<[cg_GroupID c := default [] (gm !! cg_GroupID c) ++ [committed_json n C c]]> gm) B) as (gm' & Hrun & Hgm').
  rewrite Hrun. exists gm'. split; [done|]. intros g. rewrite Hgm'.
  unfold commits_of in *. rewrite filter_cons. destruct (decide (cg_GroupID c = g)) as [<-|Hne].
  - rewrite lookup_insert_eq, fmap_cons. cbn [default]. destruct (committed_json n C <$> _) as [|i is_]; [done|].
    simpl. by rewrite <-app_assoc.
  - by rewrite lookup_insert_ne.
Qed.

(** A committed offset of the database, by group, topic and partition. *)
Definition committed_at (n : node D R) (g t : bytes) (i o : Z) : Prop :=
  key_args g t i ∧ cg_offsets (n_groups n) !! offsetKey g t i = Some o.

(** The offset of the newest message of a partition that is open, and otherwise
    0. *)
Definition open_latest (n : node D R) (C : contents) (t : bytes) (i : Z) : Z :=
  if decide (b_logs (n_broker n) !! t ≠ None ∧ partition_id i) then latest_in C t i else 0.

Definition commit_json (n : node D R) (C : contents) (t : bytes) (i o : Z) : json :=
  JObject [("topic"%string, JStr t); ("partition"%string, JInt i); ("committed"%string, JInt o);
    ("lag"%string, JInt (Z.max 0 (open_latest n C t i - o)))].

Lemma known_latest_open (n : node D R) C t i : node_ok n C → known_latest n C t i = open_latest n C t i.
Proof.
  intros B. unfold known_latest, open_latest. destruct (lookup_partition (n_broker n) t i) as [p|] eqn:Hp; case_decide as Hd; try done.
  - apply lookup_partition_Some in Hp as (H0 & ps & Hps & Hj). destruct Hd. split; [by rewrite Hps|].
    destruct (bo_topics _ _ _ B _ _ Hps) as [_ Hlen]. apply lookup_lt_Some in Hj. unfold partition_id. lia.
  - destruct Hd as [Ht Hi]. destruct (b_logs (n_broker n) !! t) as [ps|] eqn:Hps; [|done].
    destruct (bo_topics _ _ _ B _ _ Hps) as [_ Hlen]. unfold partition_id in Hi.
    destruct (lookup_lt_is_Some_2 ps (Z.to_nat i)) as [p Hj]; [lia|].
    assert (lookup_partition (n_broker n) t i = Some p) as Hp'; [|congruence].
    apply lookup_partition_Some. split; [lia|by exists ps].
Qed.

Lemma committed_json_commit (n : node D R) C c :
  node_ok n C → committed_json n C c = commit_json n C (cg_Topic c) (cg_Partition c) (cg_Offset c).
Proof. intros B. unfold committed_json, commit_json. by rewrite lag_of_max, known_latest_open. Qed.

(** What the page shows of a group is what the database holds of it. *)
Lemma commits_of_exact (n : node D R) C g :
  node_ok n C →
  NoDup (commits_of n C (Snapshot (n_groups n)) g) ∧
  ∀ j, j ∈ commits_of n C (Snapshot (n_groups n)) g ↔ ∃ t i o, committed_at n g t i o ∧ j = commit_json n C t i o.
Proof.
  intros B. destruct (snapshot_exact (n_groups n)) as [Hnd Hin]. unfold commits_of. split.
  - apply NoDup_fmap_2_strong; [|by apply NoDup_filter].
    intros [g1 t1 i1 o1] [g2 t2 i2 o2] [H1 _]%list_elem_of_filter [H2 _]%list_elem_of_filter He. simpl in *.
    injection He as -> -> -> _. by rewrite H1, H2.
  - intros j. rewrite list_elem_of_fmap. split.
    + intros (c & -> & [Hg [Hk Ho]%Hin]%list_elem_of_filter). rewrite committed_json_commit by done. subst g.
      eexists _, _, _. split; [by split|done].
    + intros (t & i & o & [Hk Ho] & ->). exists (mkCGO g t i o). rewrite committed_json_commit by done. split; [done|].
      apply list_elem_of_filter. split; [done|]. by apply Hin.
Qed.

End admin.

(** ** Witness *)

#[local] Existing Instances rle_snappy rle_laws solo_raft key_order.

Definition ex_decoders : decoders := mkDecoders (λ _, inr EOF) (λ _, inr EOF) (λ _, inr EOF).

(** A broker with two messages in partition 1 of the default topic; one group
    has read none of the second and is ahead in partition 2, another has read a
    topic that is not open. *)
Definition ex_commits : ConsumerGroupStore := mkStore (<[offsetKey (str "g") (str "default") 1 := 0]>
  (<[offsetKey (str "g") (str "default") 2 := 7]> {[offsetKey (str "h") (str "other") 0 := 3]})).

