(* ===== verification/BrokerMetrics.v ===== *)
(** * Metrics

    The counters of internal/broker/broker.go against the responses that clients
    get.  [fixes f m]: the code [m] does not change the part [f] of the state,
    whether it returns, fails or panics. *)

From S2P Require Import Prelude GoNum GoNet Path OS Snappy Segment Log RaftFSM ConsumerGroup Broker BrokerProps BrokerAPI BrokerAPIRun BrokerHTTP.

(** ** Code that leaves a part of the state alone *)

Definition fixes {S X A} (f : S → X) (m : GoM S A) : Prop := ∀ s, f (m s).2 = f s.

Create HintDb fixes.

Section fixes.
Context {S X : Type} (f : S → X).

Lemma fixes_ret {A} (a : A) : fixes f (mret a).
Proof. by intros s. Qed.

Lemma fixes_throw {A} e : fixes f (throw (A := A) e).
Proof. by intros s. Qed.

Lemma fixes_panic {A} : fixes f (panic (A := A)).
Proof. by intros s. Qed.

Lemma fixes_get : fixes f get_st.
Proof. by intros s. Qed.

Lemma fixes_bind {A B} (m : GoM S A) (k : A → GoM S B) :
  fixes f m → (∀ a, fixes f (k a)) → fixes f (m ≫= k).
Proof.
  intros Hm Hk s. specialize (Hm s). unfold mbind, gom_bind.
  destruct (m s) as [[a|e|] s']; simpl in *; [|done..]. by rewrite Hk.
Qed.

Lemma fixes_attempt {A} (m : GoM S A) : fixes f m → fixes f (attempt m).
Proof. intros Hm s. specialize (Hm s). unfold attempt. by destruct (m s) as [[] ?]. Qed.

Lemma fixes_ignore {A} (m : GoM S A) : fixes f m → fixes f (ignore m).
Proof. intros Hm. apply fixes_bind; [by apply fixes_attempt|intros; apply fixes_ret]. Qed.

Lemma fixes_go_slice lo hi b : fixes f (go_slice lo hi b).
Proof. unfold go_slice. destruct (_ && _); by intros s. Qed.

Lemma fixes_put_at off data b : fixes f (put_at off data b).
Proof. unfold put_at. destruct (_ && _); by intros s. Qed.
End fixes.

#[export] Hint Resolve fixes_ret fixes_throw fixes_panic fixes_get fixes_bind fixes_attempt fixes_ignore fixes_go_slice fixes_put_at : fixes.

(** Structural steps, with a case analysis of what the code inspects. *)
Ltac fixes_solve := cbv zeta; repeat (first
  [ solve [eauto with fixes]
  | apply fixes_bind; [|intros ?]
  | match goal with
    | |- fixes _ (match ?x with _ => _ end) => destruct x
    | |- fixes _ (let '(_, _) := ?x in _) => destruct x
    end]).

(** ** The state machine *)

Section fsm.
Context {S X : Type} (f : S → X) `{LP : LogProvider S}.
Context (Hget : ∀ t i, fixes f (GetPartition t i)).
Context (Happend : ∀ l ts k v, fixes f (lp_Append l ts k v)).
Context (Hbatch : ∀ l rs, fixes f (lp_AppendBatch l rs)).

Lemma fixes_uint32_at data o : fixes f (uint32_at data o).
Proof. unfold uint32_at. fixes_solve. Qed.

#[local] Hint Resolve fixes_uint32_at : fixes.

Lemma fixes_decode_records n data i o now : fixes f (decode_records n data i o now).
Proof. revert i o. induction n as [|n IH]; intros i o; cbn [decode_records]; fixes_solve. Qed.

#[local] Hint Resolve fixes_decode_records : fixes.

Lemma fixes_make_slice n : fixes f (make_slice n).
Proof. unfold make_slice. fixes_solve. Qed.

#[local] Hint Resolve fixes_make_slice : fixes.

Lemma fixes_FSM_Apply data now : fixes f (FSM_Apply data now).
Proof. unfold FSM_Apply, apply_single, apply_batch. fixes_solve. Qed.

Lemma fixes_encode_records rs b o : fixes f (encode_records rs b o).
Proof. revert b o. induction rs as [|r rs IH]; intros b o; cbn [encode_records]; fixes_solve. Qed.

#[local] Hint Resolve fixes_encode_records : fixes.

Lemma fixes_EncodeCommand t i k v : fixes f (EncodeCommand t i k v).
Proof. unfold EncodeCommand. fixes_solve. Qed.

Lemma fixes_EncodeBatchCommand t i rs : fixes f (EncodeBatchCommand t i rs).
Proof. unfold EncodeBatchCommand. fixes_solve. Qed.
End fsm.

(** ** The broker

    Publishing and reading touch neither the metrics nor the consumer groups. *)

Section broker.
Context {D T R : Type} `{SN : Snappy} `{RF : Raft R} `{BT : Bolt D T} `{MR : MapRange}.

Definition accounts (n : node D R) : Metrics * ConsumerGroupStore * D := (n_metrics n, n_groups n, n_db n).

Lemma fixes_modify_broker g : fixes accounts (modify_broker g).
Proof. by intros n. Qed.

Lemma fixes_get_broker : fixes accounts get_broker.
Proof. by intros n. Qed.

Lemma fixes_on_world {A} (m : GoM world A) : fixes accounts (on_world m).
Proof. intros n. unfold on_world, zoom. by destruct (m _). Qed.

Lemma fixes_on_log {A} p (m : GoM (Log * world) A) : fixes accounts (on_log p m).
Proof. intros n. unfold on_log. destruct (b_heap (n_broker n) !! p); [|done]. by destruct (m _) as [? []]. Qed.

Lemma fixes_with_raft r : fixes accounts (modify_st (with_raft r)).
Proof. by intros n. Qed.

#[local] Hint Resolve fixes_modify_broker fixes_get_broker fixes_on_world fixes_on_log fixes_with_raft : fixes.

Lemma fixes_each {A} (g : A → GoM (node D R) unit) l : (∀ a, fixes accounts (g a)) → fixes accounts (each g l).
Proof. intros Hg. induction l as [|a l IH]; cbn [each]; fixes_solve. Qed.

#[local] Hint Resolve fixes_each : fixes.

Lemma fixes_configure t p : fixes accounts (configurePartitionCompression t p).
Proof. unfold configurePartitionCompression, getTopicConfig. fixes_solve. Qed.

#[local] Hint Resolve fixes_configure : fixes.

Lemma fixes_open_partitions t i k ps : fixes accounts (open_partitions t i k ps).
Proof. revert i ps. induction k as [|k IH]; intros i ps; cbn [open_partitions]; unfold alloc_log; fixes_solve. Qed.

#[local] Hint Resolve fixes_open_partitions : fixes.

Lemma fixes_GetPartition t i : fixes accounts (broker_GetPartition t i).
Proof. unfold broker_GetPartition, get_or_open, finish_open, startTopicRetentionUpdater. fixes_solve. Qed.

#[local] Hint Resolve fixes_GetPartition : fixes.

Lemma fixes_apply_entries es last : fixes accounts (apply_entries es last).
Proof.
  revert last. induction es as [|[data now] es IH]; intros last; cbn [apply_entries]; [fixes_solve|].
  apply fixes_bind; [apply fixes_FSM_Apply; intros; simpl; auto with fixes|intros r; apply IH].
Qed.

#[local] Hint Resolve fixes_apply_entries : fixes.

Lemma fixes_replicate data : fixes accounts (replicate_command data).
Proof. unfold replicate_command, the_raft. fixes_solve. Qed.

#[local] Hint Resolve fixes_replicate fixes_EncodeCommand fixes_EncodeBatchCommand : fixes.

Lemma fixes_Publish t k v i : fixes accounts (Publish t k v i).
Proof. unfold Publish, IsLeader, the_raft, selectPartition. fixes_solve. Qed.

Lemma fixes_command_records i rs : fixes accounts (command_records i rs).
Proof. revert i. induction rs as [|[[k v]|] rs IH]; intros i; cbn [command_records]; fixes_solve. Qed.

Lemma fixes_offsets_int64 os : fixes accounts (offsets_int64 os).
Proof. induction os as [|o os IH]; cbn [offsets_int64]; fixes_solve. Qed.

#[local] Hint Resolve fixes_command_records fixes_offsets_int64 : fixes.

Lemma fixes_PublishBatch t i rs : fixes accounts (PublishBatch t i rs).
Proof. unfold PublishBatch, IsLeader, the_raft. fixes_solve. Qed.

Lemma fixes_Read t i o : fixes accounts (Read t i o).
Proof. unfold Read. fixes_solve. Qed.

Lemma fixes_ReadBatch t i o k : fixes accounts (ReadBatch t i o k).
Proof. unfold ReadBatch. fixes_solve. Qed.

(** The other handlers. *)

Lemma fixes_count_free {A} (m : GoM (node D R) A) (k : A → http_response) :
  fixes accounts m → fixes accounts (a ← m; mret (k a)).
Proof. intros Hm. apply fixes_bind; [done|]. intros a. apply fixes_ret. Qed.

Lemma fixes_Join id addr : fixes accounts (Join id addr).
Proof. unfold Join, the_raft. fixes_solve. Qed.

#[local] Hint Resolve fixes_Join fixes_count_free : fixes.

Lemma fixes_handleJoin r : fixes accounts (handleJoin r).
Proof. unfold handleJoin, the_raft. fixes_solve. Qed.

Lemma fixes_partition_infos i ps : fixes accounts (partition_infos i ps).
Proof. revert i. induction ps as [|p ps IH]; intros i; cbn [partition_infos]; fixes_solve. Qed.

#[local] Hint Resolve fixes_partition_infos : fixes.

Lemma fixes_topic_infos topics : fixes accounts (topic_infos topics).
Proof. induction topics as [|[t ps] topics IH]; cbn [topic_infos]; fixes_solve. Qed.

Lemma fixes_open_latest t i : fixes accounts (open_latest_offset t i).
Proof. unfold open_latest_offset. fixes_solve. Qed.

#[local] Hint Resolve fixes_topic_infos fixes_open_latest : fixes.

Lemma fixes_fill_groups cs gm : fixes accounts (fill_groups cs gm).
Proof. revert gm. induction cs as [|c cs IH]; intros gm; cbn [fill_groups]; fixes_solve. Qed.

#[local] Hint Resolve fixes_fill_groups : fixes.

Lemma fixes_handleAdminTopics r : fixes accounts (handleAdminTopics r).
Proof. unfold handleAdminTopics, writeAdminJSON. fixes_solve. Qed.

Lemma fixes_handleAdminGroups r : fixes accounts (handleAdminGroups r).
Proof. unfold handleAdminGroups, writeAdminJSON. fixes_solve. Qed.

Lemma fixes_handleAdminCluster r : fixes accounts (handleAdminCluster r).
Proof. unfold handleAdminCluster, writeAdminJSON, the_raft. fixes_solve. Qed.

(** Commits: they leave the counters alone. *)

Definition counters (m : Metrics) : Z * Z * Z * Z :=
  (messagesProducedTotal m, messagesConsumedTotal m, produceErrorsTotal m, consumeErrorsTotal m).

Definition node_counters (n : node D R) : Z * Z * Z * Z := counters (n_metrics n).

Lemma fixes_counters {A} (m : GoM (node D R) A) : fixes accounts m → fixes node_counters m.
Proof. intros Hm n. specialize (Hm n). unfold node_counters. injection Hm as -> _ _. done. Qed.

Lemma fixes_on_groups {A} (m : GoM (ConsumerGroupStore * D) A) : fixes node_counters (on_groups m).
Proof. intros n. unfold on_groups, zoom. by destruct (m _). Qed.

Lemma fixes_set_lag g t i lag : fixes node_counters (set_lag g t i lag).
Proof. by intros n. Qed.

#[local] Hint Resolve fixes_on_groups fixes_set_lag : fixes.

Lemma fixes_updateLag g t i o : fixes node_counters (updateConsumerGroupLagFor g t i o).
Proof.
  unfold updateConsumerGroupLagFor.
  apply fixes_bind; [apply fixes_counters, fixes_attempt, fixes_GetPartition|intros [p|e]; [|apply fixes_ret]].
  apply fixes_bind; [apply fixes_counters, fixes_on_log|intros o'; apply fixes_set_lag].
Qed.

#[local] Hint Resolve fixes_updateLag : fixes.

Lemma fixes_CommitOffset req : fixes node_counters (CommitOffset req).
Proof. unfold CommitOffset. fixes_solve. Qed.

Lemma fixes_handleCommitOffset r : fixes node_counters (handleCommitOffset r).
Proof. unfold handleCommitOffset. fixes_solve. Qed.

(** ** Requests and what their clients see *)

Context (promhttp : Metrics → http_response) (J : decoders).

Inductive request : Type :=
| RProduce (req : ProduceRequest)
| RProduceBatch (req : ProduceBatchRequest)
| RConsume (req : ConsumeRequest)
| RConsumeBatch (req : ConsumeBatchRequest)
| RCommitOffset (req : CommitOffsetRequest)
| RFetchOffset (req : FetchOffsetRequest)
| RHTTP (r : raw_request).

(** The client learns that this many messages were stored, or that its produce
    request failed; the same for a consume request; or the request is neither. *)
Inductive answer : Type :=
| Produced (k : Z)
| ProduceFailed
| Consumed (k : Z)
| ConsumeFailed
| Other.

Definition http_ok (r : http_response) : bool := StatusCode r =? 200.

(** What a client makes of an HTTP response to its request for a path. *)
Definition http_answer (path : bytes) (r : http_response) : answer :=
  if decide (path = str "/produce") then if http_ok r then Produced 1 else ProduceFailed
  else if decide (path = str "/consume") then if http_ok r then Consumed 1 else ConsumeFailed
  else Other.

(** The requests that may commit an offset. *)
Definition commits (r : request) : Prop :=
  match r with RCommitOffset _ => True | RHTTP r => rq_Path r = str "/commit-offset" | _ => False end.

#[local] Instance commits_dec r : Decision (commits r).
Proof. destruct r; apply _. Defined.

Definition serve (r : request) : GoM (node D R) answer :=
  match r with
  | RProduce req => r ← attempt (Produce req); mret (match r with inl _ => Produced 1 | inr _ => ProduceFailed end)
  | RProduceBatch req =>
      r ← ProduceBatch req;
      mret (match pbr_Error r with None => Produced (zlen (pbr_Offsets r)) | Some _ => ProduceFailed end)
  | RConsume req => r ← attempt (Consume req); mret (match r with inl _ => Consumed 1 | inr _ => ConsumeFailed end)
  | RConsumeBatch req =>
      r ← attempt (ConsumeBatch req);
      mret (match r with inl records => Consumed (zlen records) | inr _ => ConsumeFailed end)
  | RCommitOffset req => ignore (CommitOffset req);; mret Other
  | RFetchOffset req => ignore (FetchOffset req);; mret Other
  | RHTTP r => response ← ServeHTTP promhttp J r; mret (http_answer (rq_Path r) response)
  end.

Fixpoint serve_all (rs : list request) : GoM (node D R) (list answer) :=
  match rs with
  | [] => mret []
  | r :: rs => a ← serve r; l ← serve_all rs; mret (a :: l)
  end.

(** The sums over the answers. *)
Definition produced (a : answer) : Z := match a with Produced k => k | _ => 0 end.
Definition consumed (a : answer) : Z := match a with Consumed k => k | _ => 0 end.
Definition produce_failed (a : answer) : Z := match a with ProduceFailed => 1 | _ => 0 end.
Definition consume_failed (a : answer) : Z := match a with ConsumeFailed => 1 | _ => 0 end.

Definition total (f : answer → Z) (l : list answer) : Z := foldr (λ a z, f a + z) 0 l.

Lemma total_cons f a l : total f (a :: l) = f a + total f l.
Proof. done. Qed.

Definition counted (l : list answer) (m : Metrics) : Metrics :=
  mkMetrics (messagesProducedTotal m + total produced l) (messagesConsumedTotal m + total consumed l)
    (produceErrorsTotal m + total produce_failed l) (consumeErrorsTotal m + total consume_failed l) (consumerGroupLag m).

(** ** One request *)

Definition answered (n : node D R) (a : answer) (n' : node D R) : Prop :=
  accounts n' = (counted [a] (n_metrics n), n_groups n, n_db n).

Lemma answered_counts g a n n1 :
  accounts n1 = accounts n → (∀ m, g m = counted [a] m) → answered n a (with_metrics (g (n_metrics n1)) n1).
Proof. unfold answered, accounts. simpl. intros [= -> -> ->] Hg. by rewrite Hg. Qed.

Lemma counts_produced k m : add_produced k m = counted [Produced k] m.
Proof. unfold add_produced, counted. simpl. f_equal; lia. Qed.
Lemma counts_consumed k m : add_consumed k m = counted [Consumed k] m.
Proof. unfold add_consumed, counted. simpl. f_equal; lia. Qed.
Lemma counts_produce_failed m : inc_produceErrors m = counted [ProduceFailed] m.
Proof. unfold inc_produceErrors, counted. simpl. f_equal; lia. Qed.
Lemma counts_consume_failed m : inc_consumeErrors m = counted [ConsumeFailed] m.
Proof. unfold inc_consumeErrors, counted. simpl. f_equal; lia. Qed.

#[local] Hint Resolve counts_produced counts_consumed counts_produce_failed counts_consume_failed : fixes.

Lemma answered_same n n' : accounts n' = accounts n → answered n Other n'.
Proof.
  unfold answered, accounts, counted. intros [= -> -> ->]. simpl. rewrite !Z.add_0_r. by destruct (n_metrics n).
Qed.

(** A run that has been evaluated up to the call of [m]. *)
Ltac answer_solve :=
  intros H; first [discriminate H | injection H as <- <-; first [by apply answered_counts; auto with fixes | by apply answered_same]].

Lemma answered_fixes {A} (m : GoM (node D R) A) (k : A → answer) n a n' :
  fixes accounts m → (∀ x, k x = Other) → (x ← m; mret (k x)) n = (Ok a, n') → answered n a n'.
Proof.
  intros Hm Hk. specialize (Hm n). unfold mbind, gom_bind. destruct (m n) as [[x|e|] n1]; simpl; try done.
  intros [= <- <-]. rewrite Hk. by apply answered_same.
Qed.

Lemma handleProduce_answered r n response n' :
  handleProduce r n = (Ok response, n') → answered n (if http_ok response then Produced 1 else ProduceFailed) n'.
Proof.
  unfold handleProduce. destruct (negb _); [simpl; answer_solve|]. destruct (Body r) as [req|e]; [|simpl; answer_solve].
  cbv zeta. unfold mbind, gom_bind, attempt.
  pose proof (fixes_Publish (defaultTopic (pr_Topic req)) (pr_Key req) (pr_Value req) (pr_Partition req) n) as Hf.
  destruct (Publish _ _ _ _ n) as [[o|e|] n1]; simpl; answer_solve.
Qed.

Lemma handleConsume_answered r n response n' :
  handleConsume r n = (Ok response, n') → answered n (if http_ok response then Consumed 1 else ConsumeFailed) n'.
Proof.
  unfold handleConsume. destruct (negb _); [simpl; answer_solve|]. cbv zeta.
  destruct (query_partition _) as [i|]; [|simpl; answer_solve]. destruct (decide _); [simpl; answer_solve|].
  destruct (ParseUint _) as [o|]; [|simpl; answer_solve].
  unfold mbind, gom_bind, attempt.
  pose proof (fixes_Read (defaultTopic (query_Get (Query r) (str "topic"))) i o n) as Hf.
  destruct (Read _ _ _ n) as [[m|e|] n1]; simpl; answer_solve.
Qed.

Lemma fixes_handleFetchOffset r : fixes accounts (handleFetchOffset r).
Proof. unfold handleFetchOffset. fixes_solve. Qed.

Lemma ServeHTTP_answered r n a n' :
  rq_Path r ≠ str "/commit-offset" →
  (response ← ServeHTTP promhttp J r; mret (http_answer (rq_Path r) response)) n = (Ok a, n') → answered n a n'.
Proof.
  intros Hp. unfold ServeHTTP.
  assert (∀ h : GoM (node D R) http_response, fixes accounts h → rq_Path r ≠ str "/produce" → rq_Path r ≠ str "/consume" →
    (response ← h; mret (http_answer (rq_Path r) response)) n = (Ok a, n') → answered n a n') as Hother.
  { intros h Hh H1 H2. apply answered_fixes; [done|]. intros x. unfold http_answer. by rewrite !decide_False. }
  unfold mux. cbn [mux_Handler]. repeat case_decide; try congruence; cbn [handle];
    try match goal with H : str _ = rq_Path r |- _ => rename H into Hpath end.
  - apply Hother; [apply fixes_handleJoin|by rewrite <-Hpath..].
  - unfold mbind, gom_bind. destruct (handleProduce _ n) as [[x|e|] n1] eqn:E; simpl; try done. intros [= <- <-].
    apply handleProduce_answered in E. unfold http_answer. by rewrite decide_True.
  - unfold mbind, gom_bind. destruct (handleConsume _ n) as [[x|e|] n1] eqn:E; simpl; try done. intros [= <- <-].
    apply handleConsume_answered in E. unfold http_answer. rewrite decide_False by by rewrite <-Hpath. by rewrite decide_True.
  - apply Hother; [apply fixes_handleFetchOffset|by rewrite <-Hpath..].
  - apply Hother; [fixes_solve|by rewrite <-Hpath..].
  - apply Hother; [apply fixes_handleAdminTopics|by rewrite <-Hpath..].
  - apply Hother; [apply fixes_handleAdminGroups|by rewrite <-Hpath..].
  - apply Hother; [apply fixes_handleAdminCluster|by rewrite <-Hpath..].
  - apply Hother; [apply fixes_ret|congruence..].
Qed.

Lemma serve_answered r n a n' : ¬ commits r → serve r n = (Ok a, n') → answered n a n'.
Proof.
  destruct r as [req|req|req|req|req|req|r]; unfold serve; intros Hc.
  - unfold Produce, mbind, gom_bind, attempt.
    pose proof (fixes_Publish (pr_Topic req) (pr_Key req) (pr_Value req) (pr_Partition req) n) as Hf.
    destruct (Publish _ _ _ _ n) as [[o|e|] n1]; simpl; answer_solve.
  - unfold ProduceBatch. destruct (out_of_range _); [|destruct (pb_Records req) as [|x rs]]; try (simpl; answer_solve).
    unfold mbind, gom_bind, attempt.
    pose proof (fixes_PublishBatch (defaultTopic (pb_Topic req)) (pb_Partition req) (x :: rs) n) as Hf.
    destruct (PublishBatch _ _ _ n) as [[o|e|] n1]; simpl; answer_solve.
  - unfold Consume, mbind, gom_bind, attempt.
    pose proof (fixes_Read (cr_Topic req) (partitionValue (cr_Partition req)) (cr_Offset req) n) as Hf. unfold partitionValue in Hf.
    destruct (Read _ _ _ n) as [[o|e|] n1]; simpl; answer_solve.
  - unfold ConsumeBatch. destruct (out_of_range _); [|destruct (cb_Offset req <? 0); [|destruct (cb_MaxCount req <=? 0)]];
      try (simpl; answer_solve).
    cbv zeta. unfold mbind, gom_bind, attempt. set (k := if 1000 <? cb_MaxCount req then 1000 else cb_MaxCount req).
    pose proof (fixes_ReadBatch (defaultTopic (cb_Topic req)) (cb_Partition req) (cb_Offset req) k n) as Hf.
    destruct (ReadBatch _ _ _ _ n) as [[o|e|] n1]; simpl; answer_solve.
  - by destruct Hc.
  - unfold FetchOffset. destruct (decide _); [simpl; answer_solve|]. destruct (out_of_range _); simpl; answer_solve.
  - by apply ServeHTTP_answered.
Qed.

(** A commit is neither a produce nor a consume request. *)
Lemma serve_commits r n a n' : commits r → serve r n = (Ok a, n') → a = Other ∧ node_counters n' = node_counters n.
Proof.
  destruct r as [req|req|req|req|req|req|r]; simpl; try done.
  - intros _. pose proof (fixes_ignore node_counters _ (fixes_CommitOffset req) n) as Hf.
    unfold mbind at 1, gom_bind at 1. destruct (ignore (CommitOffset req) n) as [[x|e|] n1]; try done. by intros [= <- <-].
  - intros Hp. unfold ServeHTTP. rewrite Hp. cbn [mux_Handler mux]. rewrite !decide_False, decide_True by done. cbn [handle].
    pose proof (fixes_handleCommitOffset (with_body r (decode_commit J (rq_Body r))) n) as Hf.
    unfold mbind, gom_bind. destruct (handleCommitOffset _ n) as [[x|e|] n1]; try done. intros [= <- <-]. done.
Qed.

(** C28. The metrics are what the clients were told.  Whatever requests a broker
    answers, over gRPC and over HTTP on any path, in any state and whatever the
    device and Raft do: the counter of produced messages grows by the messages of
    the answers that report success, that of consumed messages by the messages
    handed out, and the two error counters by the number of failed requests, each
    counted once.  As long as no request is a commit, the consumer-group lag, the
    committed offsets and their database stay as they were. *)
Theorem metrics_account_for_answers rs (n n' : node D R) l :
  serve_all rs n = (Ok l, n') →
  length l = length rs ∧
  messagesProducedTotal (n_metrics n') = messagesProducedTotal (n_metrics n) + total produced l ∧
  messagesConsumedTotal (n_metrics n') = messagesConsumedTotal (n_metrics n) + total consumed l ∧
  produceErrorsTotal (n_metrics n') = produceErrorsTotal (n_metrics n) + total produce_failed l ∧
  consumeErrorsTotal (n_metrics n') = consumeErrorsTotal (n_metrics n) + total consume_failed l ∧
  ((∀ r, r ∈ rs → ¬ commits r) →
     consumerGroupLag (n_metrics n') = consumerGroupLag (n_metrics n) ∧ n_groups n' = n_groups n ∧ n_db n' = n_db n).
Proof.
  revert n l. induction rs as [|r rs IH]; intros n l; cbn [serve_all].
  - intros [= <- <-]. simpl. rewrite !Z.add_0_r. by split_and!.
  - unfold mbind, gom_bind. destruct (serve r n) as [[a|e|] n1] eqn:E1; [|done..].
    destruct (serve_all rs n1) as [[l1|e|] n2] eqn:E2; [|done..]. intros [= <- <-].
    destruct (IH _ _ E2) as (Hl & Hp & Hc & Hpf & Hcf & Hrest). rewrite Hp, Hc, Hpf, Hcf, !total_cons. cbn [length].
    destruct (decide (commits r)) as [Hr|Hr].
    + apply serve_commits in E1 as [-> H1]; [|done]. unfold node_counters, counters in H1. injection H1 as K1 K2 K3 K4.
      rewrite K1, K2, K3, K4, Hl. split_and!; try (simpl; lia).
      intros Hall. by destruct (Hall r (list_elem_of_here _ _)).
    + apply serve_answered in E1; [|done]. unfold answered, accounts in E1. injection E1 as Em Eg Ed. rewrite Em, Hl. simpl.
      split_and!; try lia. intros Hall. destruct Hrest as (H1 & H2 & H3); [intros r' Hr'; apply Hall; by right|].
      rewrite H1, H2, H3, Em, Eg, Ed. done.
Qed.
End broker.

(** ** Registration

    The collectors are registered with Prometheus when the package is
    initialised.  [Register] is [prometheus.Register] on the registry [P]. *)

Inductive collector : Type :=
| CMessagesProduced | CMessagesConsumed | CProduceErrors | CConsumeErrors | CConsumerGroupLag | CCompressedBytesSaved.

Inductive registration : Type :=
| Registered
| AlreadyRegistered
| RegisterFailed (err : goerr).

Section register.
Context {P : Type} (Register : collector → P → registration * P).

Definition mustRegisterOnce (c : collector) : GoM P unit :=
  p ← get_st;
  let '(err, p') := Register c p in
  put_st p';;
  match err with
  | Registered | AlreadyRegistered => mret tt
  | RegisterFailed _ => panic
  end.

Fixpoint register_all (cs : list collector) : GoM P unit :=
  match cs with
  | [] => mret tt
  | c :: cs => mustRegisterOnce c;; register_all cs
  end.

Definition init : GoM P unit :=
  register_all [CMessagesProduced; CMessagesConsumed; CProduceErrors; CConsumeErrors; CConsumerGroupLag; CCompressedBytesSaved].

(** A registry keeps a set of collectors; it takes a collector that is not there
    or refuses it, and leaves itself alone when it is there. *)
Context (registered : P → list collector).
Context (law_there : ∀ c p, c ∈ registered p → Register c p = (AlreadyRegistered, p)).
Context (law_new : ∀ c p p', Register c p = (Registered, p') → registered p' = c :: registered p).
Context (law_old : ∀ c p p', Register c p = (AlreadyRegistered, p') → c ∈ registered p ∧ p' = p).

Lemma mustRegisterOnce_registers c p p' :
  mustRegisterOnce c p = (Ok tt, p') → c ∈ registered p' ∧ registered p ⊆ registered p'.
Proof.
  unfold mustRegisterOnce, mbind, gom_bind, get_st, put_st. simpl. intros H.
  destruct (Register c p) as [[| |e] p1] eqn:Hr; simpl in H; [| |discriminate H]; injection H as <-.
  - rewrite (law_new _ _ _ Hr). split; [apply list_elem_of_here|]. intros c'. by apply list_elem_of_further.
  - by destruct (law_old _ _ _ Hr) as [Hc ->].
Qed.

Lemma mustRegisterOnce_again c p : c ∈ registered p → mustRegisterOnce c p = (Ok tt, p).
Proof. intros Hc. unfold mustRegisterOnce, mbind, gom_bind, get_st, put_st. by rewrite law_there. Qed.

Lemma register_all_registers cs : ∀ p p',
  register_all cs p = (Ok tt, p') → registered p ⊆ registered p' ∧ ∀ c, c ∈ cs → c ∈ registered p'.
Proof.
  induction cs as [|c cs IH]; intros p p' H; cbn [register_all] in H.
  - injection H as <-. split; [done|]. intros c Hc. by apply not_elem_of_nil in Hc.
  - unfold mbind, gom_bind in H. destruct (mustRegisterOnce c p) as [[[]|e|] p1] eqn:E; [|done..].
    apply mustRegisterOnce_registers in E as [Hc Hsub]. apply IH in H as [Hsub' Hcs]. split; [set_solver|]. set_solver.
Qed.

Lemma register_all_again cs p : (∀ c, c ∈ cs → c ∈ registered p) → register_all cs p = (Ok tt, p).
Proof.
  induction cs as [|c cs IH]; intros Hcs; [done|]. cbn [register_all].
  rewrite (run_bind _ _ _ _ _ (mustRegisterOnce_again c p (Hcs c (list_elem_of_here _ _)))). set_solver.
Qed.

(** After an initialisation that does not panic every collector is registered,
    and another one changes nothing. *)
Lemma init_registers p p' : init p = (Ok tt, p') → (∀ c, c ∈ registered p') ∧ init p' = (Ok tt, p').
Proof.
  intros H. apply register_all_registers in H as [_ Hcs]. split; [|by apply register_all_again].
  intros c. apply Hcs. destruct c; repeat first [apply list_elem_of_here|apply list_elem_of_further].
Qed.
End register.

(** A message is produced and consumed, an offset is committed, and two requests
    fail. *)
#[local] Existing Instances rle_snappy solo_raft key_order.

Definition ex_requests : list request := [
  RProduce (mkProduce [] None (str "k") (str "v"));
  RHTTP (mkRaw (str "/consume") (str "GET") [(str "offset", str "0")] []);
  RCommitOffset (mkCommitOffset (str "g") [] 0 0);
  RHTTP (mkRaw (str "/admin/topics") (str "GET") [] []);
  RConsume (mkConsume [] (Some 0) 9);
  RHTTP (mkRaw (str "/produce") (str "GET") [] [])].

Lemma metrics_account_for_answers_witness :
  let run := serve_all (T := buckets) (λ _, http_NotFound) ex_decoders ex_requests in
  ∃ n' : node buckets solo,
    run (ex_node_on (mkStore ∅) ∅ false) = (Ok [Produced 1; Consumed 1; Other; Other; ConsumeFailed; ProduceFailed], n') ∧
    messagesProducedTotal (n_metrics n') = 1 ∧ messagesConsumedTotal (n_metrics n') = 1 ∧
    produceErrorsTotal (n_metrics n') = 1 ∧ consumeErrorsTotal (n_metrics n') = 1.
Proof.
  intros run. set (n := ex_node_on (mkStore ∅) ∅ false).
  assert (run n = (Ok [Produced 1; Consumed 1; Other; Other; ConsumeFailed; ProduceFailed], (run n).2)) as Hrun.
  { rewrite (surjective_pairing (run n)) at 1. apply (f_equal2 pair); [by vm_compute|done]. }
  eexists. split; [exact Hrun|].
  destruct (metrics_account_for_answers (T := buckets) (λ _, http_NotFound) ex_decoders ex_requests n _ _ Hrun)
    as (_ & H1 & H2 & H3 & H4 & _). by split_and!.
Defined.
