(* ===== verification/BrokerWorkers.v ===== *)
(** * The background workers and Close

    Each worker of internal/broker/broker.go (lag, compaction, retention) is a
    goroutine that loops over a select on its ticker and on the stop channel it
    reads from a field of the broker.  Close closes the channel, sets the field
    to nil, and waits for the goroutines.  The goroutines and Close share the
    field and the channel without a lock: here their steps interleave. *)

From S2P Require Import Prelude GoNum GoNet Path OS Snappy Segment Log RaftFSM ConsumerGroup Broker BrokerAPI.

(** Where a goroutine is: at the head of its loop; in the select, whose channels
    have been evaluated ([listening]: the stop channel was not nil then); in the
    work of a tick; returned. *)
Inductive worker : Type :=
| Looping
| Selecting (listening : bool)
| Working
| Returned.

#[global] Instance worker_eq_dec : EqDecision worker.
Proof. solve_decision. Defined.

(** Where Close is: before [if b.stop != nil]; after [close(b.stop)]; in
    [b.WG.Wait()]; past it. *)
Inductive closer : Type :=
| Closing
| ClosedStop
| Waiting
| Passed.

(** [w_field]: the stop field is not nil; [w_closed]: its channel is closed. *)
Record group (N : Type) : Type := mkGroup {
  w_workers : list worker;
  w_field : bool;
  w_closed : bool;
  w_closer : closer;
  w_node : N
}.
Arguments mkGroup {N}.
Arguments w_workers {N}.
Arguments w_field {N}.
Arguments w_closed {N}.
Arguments w_closer {N}.
Arguments w_node {N}.

(** The counter of the wait group is zero. *)
Definition wg_done (ws : list worker) : bool := forallb (λ w, bool_decide (w = Returned)) ws.

Lemma wg_done_spec ws : wg_done ws = true ↔ ∀ i w, ws !! i = Some w → w = Returned.
Proof.
  unfold wg_done. rewrite forallb_forall. setoid_rewrite bool_decide_eq_true.
  setoid_rewrite <-list_elem_of_In. setoid_rewrite list_elem_of_lookup. naive_solver.
Qed.

Section workers.
(** What worker [i] does in a tick, and whether new workers may start. *)
Context {N : Type} (work : nat → N → N → Prop) (spawns : bool).

Definition at_worker (i : nat) (w : worker) (g : group N) : group N :=
  mkGroup (<[i := w]> (w_workers g)) (w_field g) (w_closed g) (w_closer g) (w_node g).

Definition at_closer (field closed : bool) (c : closer) (g : group N) : group N :=
  mkGroup (w_workers g) field closed c (w_node g).

Definition with_node (n : N) (g : group N) : group N :=
  mkGroup (w_workers g) (w_field g) (w_closed g) (w_closer g) n.

(** The goroutine [for { select { case <-ticker.C: work; case <-b.stop: return } }]. *)
Inductive worker_step (i : nat) : group N → group N → Prop :=
| step_select g : w_workers g !! i = Some Looping → worker_step i g (at_worker i (Selecting (w_field g)) g)
| step_tick g l : w_workers g !! i = Some (Selecting l) → worker_step i g (at_worker i Working g)
| step_work g n : w_workers g !! i = Some Working → work i (w_node g) n → worker_step i g (at_worker i Looping (with_node n g))
| step_stop g : w_workers g !! i = Some (Selecting true) → w_closed g = true → worker_step i g (at_worker i Returned g).

(** [if b.stop != nil { close(b.stop); b.stop = nil; b.WG.Wait() }] *)
Inductive closer_step : group N → group N → Prop :=
| step_skip g : w_closer g = Closing → w_field g = false → closer_step g (at_closer false (w_closed g) Passed g)
| step_close g : w_closer g = Closing → w_field g = true → closer_step g (at_closer true true ClosedStop g)
| step_nil g : w_closer g = ClosedStop → closer_step g (at_closer false (w_closed g) Waiting g)
| step_wait g : w_closer g = Waiting → wg_done (w_workers g) = true → closer_step g (at_closer (w_field g) (w_closed g) Passed g).

(** The other goroutines: they change the broker, and may start a worker. *)
Inductive other_step : group N → group N → Prop :=
| step_other g n : other_step g (with_node n g)
| step_spawn g : spawns = true →
    other_step g (mkGroup (w_workers g ++ [Looping]) (w_field g) (w_closed g) (w_closer g) (w_node g)).

Definition group_step (g g' : group N) : Prop :=
  (∃ i, worker_step i g g') ∨ closer_step g g' ∨ other_step g g'.

(** [k] workers have just started, and Close is about to be called. *)
Definition started_group (k : nat) (n : N) : group N := mkGroup (replicate k Looping) true false Closing n.

(** ** What holds in every state *)

Definition group_inv (g : group N) : Prop :=
  match w_closer g with
  | Closing => w_field g = true
  | ClosedStop => w_closed g = true
  | Waiting => w_closed g = true ∧ w_field g = false
  | Passed => spawns = false → wg_done (w_workers g) = true
  end.

Lemma worker_step_alive i g g' : worker_step i g g' → ∃ w, w_workers g !! i = Some w ∧ w ≠ Returned.
Proof. by destruct 1; eexists. Qed.

Lemma worker_step_shape i g g' : worker_step i g g' →
  w_field g' = w_field g ∧ w_closed g' = w_closed g ∧ w_closer g' = w_closer g ∧
  ∃ w, w_workers g' = <[i := w]> (w_workers g).
Proof. destruct 1; simpl; eauto. Qed.

Lemma group_inv_step g g' : group_step g g' → group_inv g → group_inv g'.
Proof.
  unfold group_inv. intros [[i H]|[H|H]] Hinv.
  - pose proof (worker_step_alive i g g' H) as (w & Hw & Hne).
    apply worker_step_shape in H as (-> & -> & -> & w' & ->).
    destruct (w_closer g); try done. intros Hs. specialize (Hinv Hs).
    destruct Hne. by eapply wg_done_spec.
  - destruct H as [g H1 H2|g H1 H2|g H1|g H1 H2]; rewrite H1 in Hinv; simpl; try congruence; by try split.
  - destruct H; simpl; destruct (w_closer g); try done. congruence.
Qed.

Lemma group_inv_rtc k n g : rtc group_step (started_group k n) g → group_inv g.
Proof.
  intros H. assert (group_inv (started_group k n)) as H0 by done. revert H0.
  induction H as [|g1 g2 g3 H12 _ IH]; [done|]. intros H1. by apply IH, (group_inv_step g1).
Qed.

(** ** Workers that can no longer be stopped *)

(** With the field nil, a worker that is not in a select on the channel never
    will be. *)
Definition lost (w : worker) : bool :=
  match w with Looping | Working | Selecting false => true | _ => false end.

Lemma not_lost w : lost w = false ↔ w = Selecting true ∨ w = Returned.
Proof. destruct w as [|[]| |]; simpl; naive_solver. Qed.

Definition stuck (g : group N) : Prop :=
  w_closer g = Waiting ∧ w_field g = false ∧ ∃ i w, w_workers g !! i = Some w ∧ lost w = true.

Lemma stuck_step g g' : group_step g g' → stuck g → stuck g'.
Proof.
  intros [[j H]|[H|H]] (Hc & Hf & i & w & Hw & Hl).
  - destruct (decide (i = j)) as [->|Hne].
    + assert (∀ w', lost w' = true → stuck (at_worker j w' g)) as Hat.
      { intros w' Hl'. split_and!; [done|done|]. exists j, w'. split; [|done].
        simpl. by apply list_lookup_insert_eq, lookup_lt_is_Some. }
      destruct H as [g H|g l H|g n H _|g H _]; try (by apply Hat).
      * apply Hat. by rewrite Hf.
      * by simplify_eq.
    + apply worker_step_shape in H as (Ef & _ & Ec & w' & Ew).
      split_and!; [congruence|congruence|]. exists i, w. by rewrite Ew, list_lookup_insert_ne.
  - destruct H as [g H1 H2|g H1 H2|g H1|g H1 H2]; try congruence.
    by rewrite (proj1 (wg_done_spec _) H2 _ _ Hw) in Hl.
  - destruct H; [by split_and!; eauto|]. split_and!; [done|done|]. exists i, w.
    split; [by apply lookup_app_l_Some|done].
Qed.

Lemma stuck_rtc g g' : rtc group_step g g' → stuck g → stuck g'.
Proof. induction 1 as [|g1 g2 g3 H _ IH]; [done|]. intros Hs. by apply IH, (stuck_step g1). Qed.

Lemma at_worker_step i g g' : worker_step i g g' → group_step g g'.
Proof. intros H. left. by exists i. Qed.

(** Workers that listen can all take the closed channel. *)
Lemma listening_drain ws2 : ∀ ws1 g,
  w_workers g = ws1 ++ ws2 → wg_done ws1 = true → w_closed g = true →
  Forall (λ w, w = Selecting true ∨ w = Returned) ws2 →
  ∃ g', rtc group_step g g' ∧ wg_done (w_workers g') = true ∧ w_closer g' = w_closer g.
Proof.
  induction ws2 as [|w ws2 IH]; intros ws1 g Hws H1 Hc Hall.
  - exists g. split_and!; [done| |done]. by rewrite Hws, app_nil_r.
  - apply Forall_cons in Hall as [Hw Hall].
    assert (wg_done (ws1 ++ [Returned]) = true) as H1'.
    { unfold wg_done in H1 |- *. by rewrite forallb_app, H1. }
    destruct Hw as [->| ->].
    + destruct (IH (ws1 ++ [Returned]) (at_worker (length ws1) Returned g)) as (g' & Hr & Hd & Hcl); [|done|done|done|].
      { simpl. by rewrite Hws, insert_app_r_alt, Nat.sub_diag, <-app_assoc by done. }
      exists g'. split_and!; [|done|done]. eapply rtc_l; [|exact Hr].
      apply (at_worker_step (length ws1)), step_stop; [|done]. by rewrite Hws, list_lookup_middle.
    + apply (IH (ws1 ++ [Returned])); [|done|done|done]. by rewrite Hws, <-app_assoc.
Qed.

Lemma stuck_or_listening g : w_closer g = Waiting → w_field g = false →
  stuck g ∨ Forall (λ w, w = Selecting true ∨ w = Returned) (w_workers g).
Proof.
  intros Hc Hf. destruct (decide (Exists (λ w, lost w = true) (w_workers g))) as [H|H].
  - left. apply Exists_exists in H as (w & [i Hi]%list_elem_of_lookup & Hl). split_and!; [done..|]. by exists i, w.
  - right. apply not_Exists_Forall in H; [|intros w; apply _]. eapply Forall_impl; [exact H|].
    intros w Hw. by apply not_lost, not_true_iff_false.
Qed.
End workers.

(** ** The work of the three kinds of workers *)

Section jobs.
Context {D T R : Type} `{SN : Snappy} `{RF : Raft R} `{MR : MapRange}.

Inductive job : Type :=
| LagJob
| CompactionJob
| RetentionJob (topic : bytes).

(** One tick, at time [now]. *)
Definition job_run (j : job) (now : Z) : GoM (node D R) unit :=
  match j with
  | LagJob => updateConsumerGroupLag
  | CompactionJob => compactConfiguredTopics
  | RetentionJob topic => enforceTopicRetention topic now
  end.

Definition job_work (jobs : nat → job) (i : nat) (n n' : node D R) : Prop :=
  ∃ now, (job_run (jobs i) now n).1 ≠ Panic ∧ (job_run (jobs i) now n).2 = n'.
End jobs.

(** ** Theorems *)

(** C18. While Close waits for a group of workers, it can still return if and
    only if every worker of the group has returned or is in a select that it
    entered before Close set the field to nil.  A worker in the work of a tick,
    or at the head of its loop, reads the nil field next and never returns, and
    then Close waits for ever. *)
Theorem close_returns_iff_listening {N} (work : nat → N → N → Prop) (spawns : bool) (k : nat) (n : N) (g : group N) :
  rtc (group_step work spawns) (started_group k n) g → w_closer g = Waiting →
  (∃ g', rtc (group_step work spawns) g g' ∧ w_closer g' = Passed) ↔
  Forall (λ w, w = Selecting true ∨ w = Returned) (w_workers g).
Proof.
  intros Hr Hc. pose proof (group_inv_rtc work spawns k n g Hr) as Hinv.
  unfold group_inv in Hinv. rewrite Hc in Hinv. destruct Hinv as [Hcl Hf]. split.
  - intros (g' & Hr' & Hc'). destruct (stuck_or_listening g Hc Hf) as [Hs|]; [|done].
    apply (stuck_rtc work spawns g g' Hr') in Hs as [Hs _]. congruence.
  - intros Hall. destruct (listening_drain work spawns (w_workers g) [] g) as (g' & Hr' & Hd & Hc'); [done..|].
    exists (at_closer (w_field g') (w_closed g') Passed g'). split; [|done].
    eapply rtc_r; [exact Hr'|]. right; left. apply step_wait; congruence.
Qed.

(** C19. After Close has waited for a group to which no worker is added (the lag
    and the compaction worker: one goroutine each, started by NewBroker), its
    workers have returned for good: in no later state does a worker take a
    step. *)
Theorem no_work_after_close {N} (work : nat → N → N → Prop) (k : nat) (n : N) (g g' : group N) :
  rtc (group_step work false) (started_group k n) g → w_closer g = Passed → rtc (group_step work false) g g' →
  w_closer g' = Passed ∧ ∀ i g'', ¬ worker_step work i g' g''.
Proof.
  intros Hr Hc Hr'.
  assert (w_closer g' = Passed) as Hc'.
  { clear Hr. induction Hr' as [|g1 g2 g3 H _ IH]; [done|]. apply IH.
    destruct H as [[i H]|[H|H]]; [|destruct H; congruence|by destruct H].
    by apply worker_step_shape in H as (_ & _ & -> & _). }
  split; [done|]. intros i g'' H.
  assert (rtc (group_step work false) (started_group k n) g') as Hr2 by by etrans.
  apply group_inv_rtc in Hr2. unfold group_inv in Hr2. rewrite Hc' in Hr2.
  destruct (worker_step_alive _ _ _ _ H) as (w & Hw & Hne). destruct Hne.
  by apply (proj1 (wg_done_spec _) (Hr2 eq_refl) i).
Qed.

(** ** Two schedules of one worker that counts its ticks *)

Definition count_work (i : nat) (n n' : nat) : Prop := n' = S n.

(** One step, by name: the one worker is worker 0. *)
Ltac worker_does step := eapply rtc_l; [left; exists 0%nat; by eapply step|cbn].
Ltac closer_does step := eapply rtc_l; [right; left; by eapply step|cbn].

(** Close comes during the second tick. *)
Lemma ex_busy : rtc (group_step count_work false) (started_group 1 0%nat) (mkGroup [Working] false true Waiting 1%nat).
Proof.
  worker_does (step_select (N := nat)). worker_does (step_tick (N := nat)).
  worker_does (step_work (N := nat)). worker_does (step_select (N := nat)). worker_does (step_tick (N := nat)).
  closer_does (step_close (N := nat)). closer_does (step_nil (N := nat)). done.
Qed.

(** Close comes while the worker waits for its second tick. *)
Lemma ex_idle : rtc (group_step count_work false) (started_group 1 0%nat) (mkGroup [Returned] false true Passed 1%nat).
Proof.
  worker_does (step_select (N := nat)). worker_does (step_tick (N := nat)).
  worker_does (step_work (N := nat)). worker_does (step_select (N := nat)).
  closer_does (step_close (N := nat)). closer_does (step_nil (N := nat)).
  worker_does (step_stop (N := nat)). closer_does (step_wait (N := nat)). done.
Qed.

(** Close never returns after the first schedule. *)
Lemma close_returns_iff_listening_witness :
  ¬ ∃ g', rtc (group_step count_work false) (mkGroup [Working] false true Waiting 1%nat) g' ∧ w_closer g' = Passed.
Proof.
  intros H. apply (close_returns_iff_listening count_work false 1 0%nat _ ex_busy eq_refl) in H.
  apply Forall_inv in H. by destruct H.
Defined.

Lemma no_work_after_close_witness :
  ¬ ∃ i g, worker_step count_work i (mkGroup [Returned] false true Passed 1%nat) g.
Proof.
  intros (i & g & H). revert H. apply (no_work_after_close count_work 1 0%nat _ _ ex_idle eq_refl (rtc_refl _ _)).
Defined.
