(* ===== verification/BrokerClose.v ===== *)
(** * Closing a broker

    Close of internal/broker/broker.go, as steps that interleave with the
    workers it stops and with the other goroutines: in which order it waits, what
    it closes then, which error it returns, and that it loses nothing. *)

From stdpp Require Import functions.

From S2P Require Import Prelude GoNum GoNet Path OS Snappy Segment SegmentRep SegmentRead SegmentWrite SegmentOpen.
From S2P Require Import Log LogRep LogView LogWrite LogOpen LogCompact LogMessages Frame LogFrame.
From S2P Require Import RaftFSM RaftSpec RaftProps ConsumerGroup ConsumerGroupProps.
From S2P Require Import Broker BrokerRep BrokerRun BrokerSpec BrokerPublish BrokerProps BrokerConfig BrokerAPI BrokerWorkers.

(** ** Close among the other goroutines *)

Inductive wgroup : Type := GCompaction | GRetention | GLag.

#[global] Instance wgroup_eq_dec : EqDecision wgroup.
Proof. solve_decision. Defined.

Section closing.
Context {D T R : Type} `{SN : Snappy} `{RF : Raft R} `{BT : Bolt D T} `{MR : MapRange}.
(** The jobs of the workers; whether topics are still being opened; the error of
    [httpServer.Shutdown]. *)
Context (jobs : wgroup → nat → job) (opening : bool) (shutdown : option goerr).

(** The three groups of workers, the node that all share, and what Close has
    returned, if it has. *)
Record closing : Type := mkClosing {
  cl_groups : wgroup → group (node D R);
  cl_node : node D R;
  cl_result : option (outcome unit)
}.

(** A group with the node as it is now. *)
Definition view (k : wgroup) (c : closing) : group (node D R) := with_node (cl_node c) (cl_groups c k).

Definition put_view (k : wgroup) (g : group (node D R)) (c : closing) : closing :=
  mkClosing (<[k := g]> (cl_groups c)) (w_node g) (cl_result c).

Definition passed (k : wgroup) (c : closing) : Prop := w_closer (cl_groups c k) = Passed.

(** The group for which Close has waited before it turns to [k]. *)
Definition turn (k : wgroup) (c : closing) : Prop :=
  match k with
  | GCompaction => True
  | GRetention => passed GCompaction c
  | GLag => passed GCompaction c ∧ passed GRetention c
  end.

Definition spawns (k : wgroup) : bool := match k with GRetention => opening | _ => false end.

(** A worker, Close before its servers, any other goroutine, the rest of Close. *)
Inductive closing_step : closing → closing → Prop :=
| cs_worker c k i g : worker_step (job_work (jobs k)) i (view k c) g → closing_step c (put_view k g c)
| cs_wait c k g : turn k c → closer_step (view k c) g → closing_step c (put_view k g c)
| cs_other c k g : other_step (spawns k) (view k c) g → closing_step c (put_view k g c)
| cs_rest c o n' : passed GCompaction c → passed GRetention c → passed GLag c → cl_result c = None →
    close_rest shutdown (cl_node c) = (o, n') → closing_step c (mkClosing (cl_groups c) n' (Some o)).

(** Close is called while [counts k] workers of each group run. *)
Definition closing_start (counts : wgroup → nat) (n : node D R) : closing :=
  mkClosing (λ k, started_group (counts k) n) n None.

(** Seen from one group, the rest is another goroutine. *)
Lemma view_step k c c' : closing_step c c' → group_step (job_work (jobs k)) (spawns k) (view k c) (view k c').
Proof.
  assert (∀ j g, j ≠ k → view k (put_view j g c) = with_node (w_node g) (view k c)) as Hne.
  { intros j g Hjk. unfold view, put_view. simpl. by rewrite fn_lookup_insert_ne by done. }
  assert (∀ g, view k (put_view k g c) = g) as Heq.
  { intros g. unfold view, put_view. simpl. rewrite fn_lookup_insert. by destruct g. }
  intros H. destruct H as [c j i g H|c j g _ H|c j g H|c o n' _ _ _ _ _];
    [destruct (decide (j = k)) as [->|Hjk]; rewrite ?Heq, ?(Hne j) by done..|].
  - left. by exists i.
  - right; right. apply step_other.
  - by right; left.
  - right; right. apply step_other.
  - by right; right.
  - right; right. apply step_other.
  - right; right. unfold view. simpl. apply (step_other _ (with_node (cl_node c) (cl_groups c k)) n').
Qed.

Lemma view_rtc k counts n c :
  rtc closing_step (closing_start counts n) c →
  rtc (group_step (job_work (jobs k)) (spawns k)) (started_group (counts k) n) (view k c).
Proof.
  intros H. change (started_group (counts k) n) with (view k (closing_start counts n)).
  induction H as [|c1 c2 c3 H12 _ IH]; [done|]. eapply rtc_l; [by apply view_step|done].
Qed.

(** When Close has passed a group, its workers have returned for good. *)
Lemma passed_returned k counts n c :
  rtc closing_step (closing_start counts n) c → passed k c → spawns k = false → wg_done (w_workers (cl_groups c k)) = true.
Proof.
  intros H Hp Hs. apply (view_rtc k), group_inv_rtc in H. unfold group_inv in H.
  change (w_closer (view k c)) with (w_closer (cl_groups c k)) in H. rewrite Hp in H. by apply H.
Qed.
End closing.

(** ** A closed log *)

Definition log_closed (l : Log) : Log := set_segments (closed <$> l_segments l) l.

Lemma closed_idem s : closed (closed s) = closed s.
Proof. done. Qed.

Lemma log_closed_idem l : log_closed (log_closed l) = log_closed l.
Proof. unfold log_closed. simpl. by rewrite <-list_fmap_compose. Qed.

Section closed.
Context `{SN : Snappy} `{!SnappyLaws SN}.

Lemma Segment_Close_run s w : reliable w → Segment_Close (s, w) = (Ok tt, (closed s, w)).
Proof.
  intros Hr. apply run_wp. apply wp_Segment_Close.
  - intros w' Hro. by rewrite (ro_reliable w w').
  - intros e w' _ Hio. by destruct (reliable_no_error w e).
Qed.

Lemma close_segments_run n : ∀ i fe l w,
  reliable w → (i + n = length (l_segments l))%nat →
  close_segments i n fe (l, w) =
    (Ok fe, (set_segments (take i (l_segments l) ++ (closed <$> drop i (l_segments l))) l, w)).
Proof.
  induction n as [|n IH]; intros i fe l w Hr Hlen; cbn [close_segments].
  - rewrite take_ge, drop_ge by lia. simpl. rewrite app_nil_r. by destruct l.
  - destruct (lookup_lt_is_Some_2 (l_segments l) i ltac:(lia)) as [s Hs].
    rewrite (run_bind _ _ None (l, w) (set_segments (<[i := closed s]> (l_segments l)) l, w)).
    + destruct fe as [e|]; rewrite IH by (simpl; rewrite ?length_insert; lia || done); simpl.
      all: f_equal; f_equal; unfold set_segments; simpl; f_equal.
      all: rewrite (take_S_r _ i (closed s)) by (apply list_lookup_insert_eq; by eapply lookup_lt_Some).
      all: rewrite take_insert_ge, drop_insert_lt by lia; rewrite (drop_S _ s i Hs), <-app_assoc; done.
    + unfold err_of, on_segment, attempt, mbind, gom_bind. rewrite Hs, Segment_Close_run by done. done.
Qed.

Lemma Log_Close_run l w : reliable w → Log_Close (l, w) = (Ok tt, (log_closed l, w)).
Proof.
  intros Hr. unfold Log_Close. rewrite (run_bind _ _ (l, w) (l, w) (l, w)) by done. cbn beta iota.
  rewrite (run_bind _ _ _ _ _ (close_segments_run _ 0 None l w Hr eq_refl)).
  rewrite take_0, drop_0. done.
Qed.

Lemma closed_segmentForOffset l o w : segmentForOffset (log_closed l) o w = segmentForOffset l o w.
Proof.
  unfold segmentForOffset, log_closed. destruct (l_segments l) as [|s segs] eqn:Hsegs; simpl; [done|].
  destruct (o <? s_baseOffset s); [done|]. cbn [length]. rewrite length_fmap. unfold sort_Search.
  erewrite sort_search_loop_ext; [reflexivity|]. intros k. unfold seg_pred. simpl. rewrite Hsegs.
  destruct k as [|k]; simpl; [done|]. rewrite list_lookup_fmap. by destruct (segs !! k).
Qed.

(** No message of a closed log is read. *)
Lemma closed_log_read w l gs e w' :
  log_rep w l gs → e ∈ all_entries gs → Log_Read (log_closed l) (e_off e) w' = (Err ErrInvalid, w').
Proof.
  intros L He. pose proof He as (i & g & k & Hg & Hk)%elem_of_all_entries.
  destruct (lr_lookup_info _ _ _ L i g Hg) as (s & Hs & HR).
  unfold Log_Read. rewrite (run_bind _ _ i w' w').
  - unfold segment_at. simpl. rewrite list_lookup_fmap, Hs. simpl.
    eapply closed_read; [exact HR|by eapply list_elem_of_lookup_2].
  - rewrite closed_segmentForOffset. eapply lr_locate; [exact L|exact Hs|]. by eapply rep_entry_range.
Qed.
End closed.

Section close.
Context {D T R : Type} `{SN : Snappy} `{!SnappyLaws SN} `{RF : Raft R}.
Context `{BT : Bolt D T} `{BV : BoltView D T} `{!BoltLaws D T} `{MR : MapRange}.

Lemma close_logs_run ps : ∀ fe b w (n : node D R),
  reliable w → Forall (λ p, is_Some (b_heap b !! p)) ps →
  ∃ h, close_logs ps fe (upd b w n) = (Ok fe, upd (set_heap h b) w n) ∧
    ∀ p, h !! p = if decide (p ∈ ps) then log_closed <$> b_heap b !! p else b_heap b !! p.
Proof.
  induction ps as [|p ps IH]; intros fe b w n Hr Hps.
  { exists (b_heap b). split; [by destruct b|]. intros p. by rewrite decide_False by apply not_elem_of_nil. }
  apply Forall_cons in Hps as [[l Hl] Hps]. cbn [close_logs].
  set (b1 := set_heap (<[p := log_closed l]> (b_heap b)) b).
  assert (Hrun : keep_first (on_log p Log_Close) fe (upd b w n) = (Ok fe, upd b1 w n)).
  { unfold keep_first, attempt, mbind, gom_bind.
    rewrite (on_log_run p Log_Close b w n l _ _ _ Hl (Log_Close_run l w Hr)). by destruct fe. }
  rewrite (run_bind _ _ _ _ _ Hrun).
  assert (Hlt := lookup_lt_Some _ _ _ Hl).
  destruct (IH fe b1 w n Hr) as (h & Hrun' & Hh).
  { eapply Forall_impl; [exact Hps|]. intros q Hq. apply lookup_lt_is_Some in Hq. apply lookup_lt_is_Some_2.
    simpl. by rewrite length_insert. }
  exists h. split; [exact Hrun'|]. intros q. rewrite Hh. simpl.
  destruct (decide (q = p)) as [->|Hne].
  - rewrite list_lookup_insert_eq, Hl by done. rewrite (decide_True (P := p ∈ p :: ps)) by apply list_elem_of_here.
    simpl. rewrite log_closed_idem. by case_decide.
  - rewrite list_lookup_insert_ne by done. case_decide as H1; case_decide as H2; try done; set_solver.
Qed.

(** What a closed broker is: every open log closed, the files and the committed
    offsets untouched. *)
Record shut (n n' : node D R) : Prop := {
  sh_world : n_world n' = n_world n;
  sh_dataDir : b_dataDir (n_broker n') = b_dataDir (n_broker n);
  sh_configs : b_topicConfigs (n_broker n') = b_topicConfigs (n_broker n);
  sh_logs : b_logs (n_broker n') = b_logs (n_broker n);
  sh_heap t i p l : lookup_partition (n_broker n) t i = Some p → b_heap (n_broker n) !! p = Some l →
    b_heap (n_broker n') !! p = Some (log_closed l);
  sh_offsets : n_groups n' = n_groups n ∧ bolt_data (n_db n') = bolt_data (n_db n)
}.

(** The first error of the servers. *)
Definition server_error (shutdown : option goerr) (n : node D R) : option goerr :=
  match shutdown with
  | Some _ => shutdown
  | None => match n_raft n with Some r => (raft_Shutdown r).2 | None => None end
  end.

Lemma open_logs_exist (n : node D R) C :
  node_ok n C → Forall (λ p, is_Some (b_heap (n_broker n) !! p)) (mjoin ((map_range (b_logs (n_broker n))).*2)).
Proof.
  intros B. apply Forall_forall. intros p (ps & Hp & Hps)%list_elem_of_join.
  apply list_elem_of_fmap in Hps as ([t ps'] & -> & Hin). apply elem_of_map_range in Hin.
  apply list_elem_of_lookup in Hp as [j Hj]. simpl in Hj.
  destruct (bo_open _ _ _ B t (Z.of_nat j) p) as (l & Hl & _); [|by exists l].
  apply lookup_partition_Some. split; [lia|]. exists ps'. by rewrite Nat2Z.id.
Qed.

Lemma close_rest_run shutdown (n : node D R) C :
  node_ok n C →
  wp (close_rest shutdown) (λ _ n', server_error shutdown n = None ∧ shut n n')
    (λ e n', (server_error shutdown n = Some e ∨ server_error shutdown n = None ∧ bolt_faulty (n_db n)) ∧ shut n n') n.
Proof.
  intros B. unfold close_rest. set (b1 := n_broker n). apply wp_bind, wp_get.
  set (nr := match n_raft n with Some r => with_raft (Some (raft_Shutdown r).1) n | None => n end).
  apply wp_bind. apply (wp_run _ (server_error shutdown n) _ (upd b1 (n_world n) nr)).
  { unfold nr, server_error, b1.
    destruct n as [b w g d [r|] m]; simpl; [destruct (raft_Shutdown r) as [r' err]; by destruct shutdown|by destruct shutdown]. }
  apply wp_bind. apply (wp_run _ b1 _ (upd b1 (n_world n) nr)); [done|].
  destruct (close_logs_run _ (server_error shutdown n) b1 (n_world n) nr (bo_reliable _ _ _ B) (open_logs_exist n C B))
    as (h & Hrun & Hh).
  apply wp_bind. eapply wp_run; [exact Hrun|].
  assert (Hdb : n_db nr = n_db n ∧ n_groups nr = n_groups n) by (unfold nr; by destruct (n_raft n)).
  assert (Hshut : ∀ d', bolt_data d' = bolt_data (n_db n) →
    shut n (with_groups (n_groups n, d') (upd (set_heap h b1) (n_world n) nr))).
  { intros d' Hd. split; try done. intros t i p l Hp Hl. simpl. rewrite Hh, decide_True; [unfold b1; by rewrite Hl|].
    apply lookup_partition_Some in Hp as (_ & ps & Hps & Hj). apply list_elem_of_join. exists ps.
    split; [by eapply list_elem_of_lookup_2|]. apply list_elem_of_fmap. exists (t, ps). split; [done|]. by apply elem_of_map_range. }
  apply wp_bind. unfold keep_first. apply wp_bind, wp_attempt, wp_zoom, wp_lift_snd.
  change (n_db (upd (set_heap h b1) (n_world n) nr)) with (n_db nr). change (n_groups (upd (set_heap h b1) (n_world n) nr)) with (n_groups nr).
  destruct Hdb as [-> ->]. eapply wp_mono; [apply law_Close| |].
  - intros [] d' [Hd _]. apply wp_ret. specialize (Hshut d' Hd).
    destruct (server_error shutdown n) as [e|]; [apply wp_throw; auto|by apply wp_ret].
  - intros e d' [[Hd _] Hf]. apply wp_ret. specialize (Hshut d' Hd).
    destruct (server_error shutdown n) as [e'|]; apply wp_throw; auto.
Qed.

Lemma log_closed_configured c l :
  set_observed (set_compressed c (log_closed l)) = log_closed (set_observed (set_compressed c l)).
Proof. unfold log_closed, set_observed, set_compressed, set_segments. simpl. by rewrite <-!list_fmap_compose. Qed.

(** A read of an open topic fails. *)
Lemma shut_read (n n' : node D R) C topic i k m :
  let t := defaultTopic topic in
  node_ok n C → shut n n' → partition_id i → b_logs (n_broker n) !! t ≠ None → (C t i).2 !! k = Some m →
  (Read topic i (Offset m) n').1 = Err ErrInvalid.
Proof.
  intros t B Hs Hi Hopen Hk. destruct (b_logs (n_broker n) !! t) as [ps|] eqn:Hps; [|done].
  destruct (bo_topics _ _ _ B _ _ Hps) as [_ Hlen]. unfold partition_id in Hi.
  destruct (lookup_lt_is_Some_2 ps (Z.to_nat i)) as [p Hp]; [lia|].
  assert (Hlp : lookup_partition (n_broker n) t i = Some p) by (apply lookup_partition_Some; split; [lia|by exists ps]).
  destruct (bo_open _ _ _ B t i p Hlp) as (l & Hl & _ & _ & gs & O & _ & Hms). rewrite Hms in Hk.
  rewrite list_lookup_fmap in Hk. apply fmap_Some in Hk as (e & He & ->).
  pose proof (sh_heap _ _ Hs t i p l Hlp Hl) as Hl'.
  assert (Hlp' : lookup_partition (n_broker n') t i = Some p) by (unfold lookup_partition; by rewrite (sh_logs _ _ Hs)).
  rewrite <-(upd_id n'). unfold Read.
  rewrite (run_bind _ _ _ _ _ (GetPartition_hit topic i p _ _ _ n' Hi Hlp' Hl')). fold t.
  rewrite log_closed_configured. set (l' := set_observed _).
  assert (log_rep (n_world n') l' gs) as L.
  { rewrite (sh_world _ _ Hs). pose proof (log_rep_set_compressed _ _ _ (topic_mode (n_broker n') t) (lv_rep _ _ _ (lo_view _ _ _ O))) as L.
    rewrite set_compressed_twice in L. by destruct L. }
  erewrite on_log_reading; [done|simpl; apply list_lookup_insert_eq; by eapply lookup_lt_Some|].
  eapply (closed_log_read _ l' gs e); [exact L|by eapply list_elem_of_lookup_2].
Qed.

End close.

(** ** Witness *)

#[local] Existing Instances rle_snappy rle_laws solo_raft key_order.

(** One step of Close. *)
Ltac close_does k :=
  eapply rtc_l; [apply (cs_wait (T := buckets) _ _ _ _ k);
    [by vm_compute|first [by apply step_close|by apply step_nil|by apply step_wait]]|].

(** Close with no workers to wait for. *)
Lemma ex_waits (n : node buckets solo) :
  ∃ c, rtc (closing_step (T := buckets) (λ _ _, LagJob) true (Some EOF)) (closing_start (λ _, 0%nat) n) c ∧
    passed GCompaction c ∧ passed GRetention c ∧ passed GLag c ∧ cl_result c = None ∧ cl_node c = n.
Proof.
  eexists. split.
  - do 3 close_does GCompaction. do 3 close_does GRetention. do 3 close_does GLag. apply rtc_refl.
  - by split_and!.
Qed.

