(* ===== verification/TLS.v ===== *)
(** * TLS configurations: internal/tls/tls.go

    The certificates are values of crypto/tls and crypto/x509, which read them
    from files; the interface [TLSLib] gives the calls the code makes, on a
    state [S] of the machine. *)

From S2P Require Import Prelude.

Class TLSLib (S : Type) : Type := {
  Certificate : Type;
  CertPool : Type;
  tls_LoadX509KeyPair : bytes → bytes → GoM S Certificate;
  tls_ReadFile : bytes → GoM S bytes;
  (** [pool := x509.NewCertPool(); pool.AppendCertsFromPEM(data)]; [None] when it
      gives false. *)
  x509_Pool : bytes → option CertPool
}.

(** The fields of [tls.Config] that the code sets. *)
Record tls_config {S} `{TLSLib S} : Type := mkTLSConfig {
  MinVersion : Z;
  Certificates : list Certificate;
  RootCAs : option CertPool;
  ClientCAs : option CertPool;
  RequireAndVerifyClientCert : bool
}.
Arguments mkTLSConfig {S _}.

Definition VersionTLS13 : Z := 0x304.

Section tls.
Context {S : Type} `{TL : TLSLib S}.

Definition LoadServerTLSConfig (certFile keyFile caFile : bytes) : GoM S tls_config :=
  cert ← wrap_error (EWrap "load server certificate: %w" []) (tls_LoadX509KeyPair certFile keyFile);
  caCert ← wrap_error (EWrap "read CA certificate: %w" []) (tls_ReadFile caFile);
  match x509_Pool caCert with
  | None => throw (EMsg "parse CA certificate" [])
  | Some caPool => mret (mkTLSConfig VersionTLS13 [cert] None (Some caPool) true)
  end.

Definition LoadClientTLSConfig (certFile keyFile caFile : bytes) : GoM S tls_config :=
  cert ← wrap_error (EWrap "load client certificate: %w" []) (tls_LoadX509KeyPair certFile keyFile);
  caCert ← wrap_error (EWrap "read CA certificate: %w" []) (tls_ReadFile caFile);
  match x509_Pool caCert with
  | None => throw (EMsg "parse CA certificate" [])
  | Some caPool => mret (mkTLSConfig VersionTLS13 [cert] (Some caPool) None false)
  end.
End tls.
