(* ===== verification/StreamLayer.v ===== *)
(** * The TLS stream layer of the Raft transport: internal/broker/broker.go

    [tlsStreamLayer] gives Raft its connections.  Packages net and crypto/tls
    are the interface [NetLib], on a state [S] of the machine. *)

From S2P Require Import Prelude GoNum GoNet TLS.

(** [net_Accept] is the wrapped listener's Accept; [tls_DialWithDialer] takes
    the configuration and the server name it verifies. *)
Class NetLib (S : Type) `{TLSLib S} : Type := {
  Conn : Type;
  net_Accept : GoM S Conn;
  net_Dial : Z → bytes → GoM S Conn;
  tls_Server : Conn → tls_config → Conn;
  tls_DialWithDialer : Z → bytes → tls_config → bytes → GoM S Conn
}.

Record tlsStreamLayer {S} `{TLSLib S} : Type := mkStreamLayer {
  ServerTLSConfig : option tls_config;
  ClientTLSConfig : option tls_config
}.

Arguments mkStreamLayer {S _}.

Section layer.
Context {S : Type} `{NL : NetLib S}.

Definition Accept (s : tlsStreamLayer) : GoM S Conn :=
  conn ← net_Accept;
  match ServerTLSConfig s with
  | None => mret conn
  | Some config => mret (tls_Server conn config)
  end.

(** [config.ServerName] *)
Definition server_name (address : bytes) : bytes :=
  match SplitHostPort address with
  | inr _ => address
  | inl (host, _) => host
  end.

Definition Dial (s : tlsStreamLayer) (address : bytes) (timeout : Z) : GoM S Conn :=
  match ClientTLSConfig s with
  | None => net_Dial timeout address
  | Some config => tls_DialWithDialer timeout address config (server_name address)
  end.

(** A connection to a peer is verified against the peer's host name. *)
Lemma dial_verifies_host sc config host port timeout :
  host_ok host → Forall is_digit port →
  Dial (mkStreamLayer sc (Some config)) (JoinHostPort host port) timeout =
  tls_DialWithDialer timeout (JoinHostPort host port) config host.
Proof. intros Hh Hp. unfold Dial, server_name. simpl. by rewrite SplitHostPort_JoinHostPort. Qed.
End layer.
