(* ===== verification/BrokerStart.v ===== *)
(** * Starting a broker: NewBroker in internal/broker/broker.go

    NewBroker opens the consumer-group store, the Raft transport, two BoltDB
    stores and the Raft node, starts the HTTP and gRPC servers, joins a peer and
    starts the background workers; almost every step can fail, and has its own
    clean-up.  The machine [S] is an interface: the calls that open, start, stop
    and close, with the laws of what is open after them.

    Other goroutines run between the calls.  Once the Raft node has started, its
    state machine may open topics of the broker, each with logs and perhaps a
    retention worker; a server may end at any time, with a message and no more,
    for one because its port is taken.  [drifted] is what they do to the set of
    open resources.  A call that never returns has the outcome [Panic]: nothing
    after it runs. *)

From S2P Require Import Prelude GoNum GoNet Path OS Snappy Segment Log RaftFSM ConsumerGroup Broker BrokerAPI TLS.

(** What a broker holds. *)
Inductive resource : Type :=
| Groups           (* the consumer-group database *)
| Transport        (* the Raft transport and its listener *)
| LogStore
| StableStore
| RaftNode
| HTTPServer
| GRPCListener
| GRPCServer
| LagUpdater
| CompactionUpdater
| RetentionUpdaters  (* the retention workers of all topics *)
| TopicLogs.         (* the logs of all topics *)

#[global] Instance resource_eq_dec : EqDecision resource.
Proof. solve_decision. Defined.

Definition resource_code (r : resource) : nat :=
  match r with
  | Groups => 0 | Transport => 1 | LogStore => 2 | StableStore => 3 | RaftNode => 4
  | HTTPServer => 5 | GRPCListener => 6 | GRPCServer => 7 | LagUpdater => 8 | CompactionUpdater => 9
  | RetentionUpdaters => 10 | TopicLogs => 11
  end.

Definition resource_of (k : nat) : resource :=
  match k with
  | 0 => Groups | 1 => Transport | 2 => LogStore | 3 => StableStore | 4 => RaftNode
  | 5 => HTTPServer | 6 => GRPCListener | 7 => GRPCServer | 8 => LagUpdater | 9 => CompactionUpdater
  | 10 => RetentionUpdaters | _ => TopicLogs
  end%nat.

#[global] Instance resource_countable : Countable resource.
Proof. apply (inj_countable' resource_code resource_of). by intros []. Defined.

(** The calls.  [m_new] makes the broker; [m_open r address confs] opens a
    resource at an address or a path, with the TLS configurations it is given;
    [m_go] starts a goroutine; [m_stop] closes the stop channel of a group of
    workers and waits for them; [m_close] closes a resource. *)
Class Machine (S : Type) `{TLSLib S} : Type := {
  m_new : Broker → GoM S unit;
  m_open : resource → bytes → list tls_config → GoM S unit;
  m_go : resource → list tls_config → GoM S unit;
  m_stop : resource → GoM S unit;
  m_close : resource → GoM S unit;
  m_MkdirAll : bytes → GoM S unit;
  m_NewFileSnapshotStore : bytes → Z → GoM S unit;
  m_HasExistingState : GoM S bool;
  m_BootstrapCluster : bytes → bytes → GoM S unit;
  m_Post : bytes → join_request → S → S * ((Z * bytes) + goerr)
}.

(** [&Broker{...}]: no topics. *)
Definition new_broker (dataDir : bytes) : Broker := mkBroker ∅ [] ∅ dataDir ∅ ∅ [].

Section start.
Context {S : Type} `{MC : Machine S}.

(** [_ = x.Close()] of several, in order. *)
Fixpoint close_each (rs : list resource) : GoM S unit :=
  match rs with
  | [] => mret tt
  | r :: rs => ignore (m_close r);; close_each rs
  end.

(** The part of Close that may fail: the first error is kept. *)
Fixpoint close_first (rs : list resource) (firstErr : option goerr) : GoM S (option goerr) :=
  match rs with
  | [] => mret firstErr
  | r :: rs =>
      e ← attempt (m_close r);
      close_first rs (match firstErr, e with None, inr err => Some err | _, _ => firstErr end)
  end.

(** Close, on the machine.  Its stop channels and its HTTP server are there
    whenever it is called; [grpc]: the gRPC server has been made. *)
Definition machine_Close (grpc : bool) : GoM S (option goerr) :=
  m_stop CompactionUpdater;;
  m_stop RetentionUpdaters;;
  m_stop LagUpdater;;
  (if grpc then ignore (m_close GRPCServer) else mret tt);;
  close_first [HTTPServer; RaftNode; TopicLogs; Groups] None.

(** [_ = b.Close()] *)
Definition undo_Close (grpc : bool) : GoM S unit := machine_Close grpc;; mret tt.

(** The Raft transport. *)
Definition open_transport (tlsEnabled : bool) (raftAddr certFile keyFile caFile : bytes) : GoM S unit :=
  if tlsEnabled then
    serverTLSConfig ← on_error (LoadServerTLSConfig certFile keyFile caFile) (close_each [Groups]);
    clientTLSConfig ← on_error (LoadClientTLSConfig certFile keyFile caFile) (close_each [Groups]);
    on_error (m_open Transport raftAddr [serverTLSConfig; clientTLSConfig]) (close_each [Groups])
  else on_error (m_open Transport raftAddr []) (close_each [Groups]).

(** The first node of a cluster bootstraps it. *)
Definition bootstrap (id raftAddr peers : bytes) : GoM S unit :=
  let undo := close_each [RaftNode; StableStore; LogStore; Transport; Groups] in
  if decide (peers = []) then
    r ← attempt m_HasExistingState;
    match r with
    | inr err => undo;; throw (EWrap "failed to check raft state: %w" [] err)
    | inl hasState =>
        if negb hasState then on_error (m_BootstrapCluster id raftAddr) undo else mret tt
    end
  else mret tt.

(** The stores and the Raft node. *)
Definition start_raft (id raftAddr dataDir : bytes) : GoM S unit :=
  let raftDir := Path.Join [dataDir; str "raft"] in
  on_error (m_open LogStore (Path.Join [raftDir; str "raft-log.db"]) []) (close_each [Transport; Groups]);;
  on_error (m_open StableStore (Path.Join [raftDir; str "raft-stable.db"]) []) (close_each [LogStore; Transport; Groups]);;
  on_error (m_NewFileSnapshotStore dataDir 2) (close_each [StableStore; LogStore; Transport; Groups]);;
  on_error (m_open RaftNode id []) (close_each [StableStore; LogStore; Transport; Groups]).

(** The HTTP and gRPC servers. *)
Definition start_servers (httpAddr : bytes) (tlsEnabled : bool) (certFile keyFile caFile : bytes) : GoM S unit :=
  m_go HTTPServer [];;
  match grpcAddress httpAddr with
  | inr err => undo_Close false;; throw err
  | inl grpcAddr =>
      on_error (m_open GRPCListener grpcAddr []) (undo_Close false);;
      grpcOptions ← (if tlsEnabled
                     then c ← on_error (LoadServerTLSConfig certFile keyFile caFile)
                                (close_each [GRPCListener];; undo_Close false);
                          mret [c]
                     else mret []);
      m_go GRPCServer grpcOptions
  end.

Definition NewBroker (id httpAddr raftAddr dataDir peers certFile keyFile caFile : bytes) : GoM S unit :=
  m_new (new_broker dataDir);;
  m_open Groups (Path.Join [dataDir; str "consumer-groups.db"]) [];;
  on_error (m_MkdirAll (Path.Join [dataDir; str "raft"])) (close_each [Groups]);;
  let set (file : bytes) := negb (bool_decide (file = [])) in
  let tlsEnabled := set certFile && set keyFile && set caFile in
  open_transport tlsEnabled raftAddr certFile keyFile caFile;;
  start_raft id raftAddr dataDir;;
  bootstrap id raftAddr peers;;
  start_servers httpAddr tlsEnabled certFile keyFile caFile;;
  (if decide (peers = []) then mret tt
   else on_error (joinPeer m_Post id raftAddr peers) (undo_Close true));;
  m_go LagUpdater [];;
  m_go CompactionUpdater [].
End start.


(** ** Runs that may not return

    [run_in m Q E H s]: the postconditions of a value, of an error, and of a call
    that does not return. *)

Definition run_in {S A} (m : GoM S A) (Q : A → S → Prop) (E : goerr → S → Prop) (H : S → Prop) (s : S) : Prop :=
  match m s with
  | (Ok a, s') => Q a s'
  | (Err e, s') => E e s'
  | (Panic, s') => H s'
  end.

Section runs.
Context {S : Type}.

Lemma run_mono {A} (m : GoM S A) (Q Q' : A → S → Prop) (E E' : goerr → S → Prop) (H H' : S → Prop) s :
  run_in m Q E H s → (∀ a s', Q a s' → Q' a s') → (∀ e s', E e s' → E' e s') → (∀ s', H s' → H' s') → run_in m Q' E' H' s.
Proof. unfold run_in. destruct (m s) as [[a|e|] s']; auto. Qed.

Lemma run_in_bind {A B} (m : GoM S A) (f : A → GoM S B) Q E H s :
  run_in m (λ a s', run_in (f a) Q E H s') E H s → run_in (m ≫= f) Q E H s.
Proof. unfold run_in, mbind, gom_bind. by destruct (m s) as [[a|e|] s']. Qed.

Lemma run_in_attempt {A} (m : GoM S A) Q E H s :
  run_in m (λ a, Q (inl a)) (λ e, Q (inr e)) H s → run_in (attempt m) Q E H s.
Proof. unfold run_in, attempt. by destruct (m s) as [[a|e|] s']. Qed.

Lemma run_in_ignore {A} (m : GoM S A) (Q : unit → S → Prop) E H s :
  run_in m (λ _, Q tt) (λ _, Q tt) H s → run_in (ignore m) Q E H s.
Proof. unfold run_in, ignore, mbind, gom_bind, attempt. by destruct (m s) as [[a|e|] s']. Qed.

Lemma run_in_on_error {A} (m : GoM S A) h Q E H s :
  run_in m Q (λ e s', run_in h (λ _, E e) (λ _ _, False) H s') H s → run_in (on_error m h) Q E H s.
Proof.
  unfold run_in, on_error, mbind, gom_bind, attempt, throw. destruct (m s) as [[a|e|] s']; try done.
  by destruct (h s') as [[?|?|] s''].
Qed.

Lemma run_in_wrap {A} w (m : GoM S A) Q E H s :
  run_in m Q (λ e, E (w e)) H s → run_in (wrap_error w m) Q E H s.
Proof. unfold run_in, wrap_error. by destruct (m s) as [[a|e|] s']. Qed.
End runs.

(** ** Laws of a machine *)

(** The servers, and what the state machine of Raft opens. *)
Definition servers : gset resource := {[ HTTPServer; GRPCListener; GRPCServer ]}.
Definition topics : gset resource := {[ RetentionUpdaters; TopicLogs ]}.

(** What the other goroutines do to what is open. *)
Definition drifted (X Y : gset resource) : Prop :=
  X ∖ servers ⊆ Y ∧ Y ⊆ X ∪ (if decide (RaftNode ∈ X) then topics else ∅).

(** Shutting Raft down closes its transport, and the gRPC server its listener. *)
Definition frees (r : resource) : gset resource :=
  match r with
  | RaftNode => {[ RaftNode; Transport ]}
  | GRPCServer => {[ GRPCServer; GRPCListener ]}
  | _ => {[ r ]}
  end.

Section moves.
Context {S : Type} (opened : S → gset resource) (the_broker : S → Broker).

(** The fields of the broker that nothing but NewBroker sets. *)
Definition settings (s : S) : bytes * gmap bytes TopicConfig :=
  (b_dataDir (the_broker s), b_topicConfigs (the_broker s)).

(** The other goroutines do something, then a call does [f]. *)
Definition moves (f : gset resource → gset resource) (s s' : S) : Prop :=
  settings s' = settings s ∧ ∃ Y, drifted (opened s) Y ∧ opened s' = f Y.

(** A call that opens and closes nothing. *)
Definition neutral {A} (m : GoM S A) : Prop :=
  ∀ s, run_in m (λ _, moves id s) (λ _, moves id s) (λ _, False) s.
End moves.

Lemma drifted_refl X : drifted X X.
Proof. unfold drifted. set_solver. Qed.

Lemma drifted_trans X Y Z : drifted X Y → drifted Y Z → drifted X Z.
Proof.
  intros [H1 H2] [H3 H4]. split; [set_solver|]. assert (RaftNode ∉ topics) by (unfold topics; set_solver).
  repeat case_decide; set_solver.
Qed.

Section neutral.
Context {S : Type} {opened : S → gset resource} {the_broker : S → Broker}.

Lemma moves_id_refl s : moves opened the_broker id s s.
Proof. split; [done|]. eexists. split; [apply drifted_refl|done]. Qed.

Lemma moves_id s1 s2 : moves opened the_broker id s1 s2 ↔
  settings the_broker s2 = settings the_broker s1 ∧ drifted (opened s1) (opened s2).
Proof. unfold moves, id. split; [by intros (H & Y & D & ->)|intros [H D]; split; [done|by eexists]]. Qed.

Lemma moves_id_trans s1 s2 s3 : moves opened the_broker id s1 s2 → moves opened the_broker id s2 s3 → moves opened the_broker id s1 s3.
Proof. rewrite !moves_id. intros [H1 D1] [H2 D2]. split; [congruence|by eapply drifted_trans]. Qed.

Lemma neutral_ret {A} (a : A) : neutral opened the_broker (mret a).
Proof. intros s. apply moves_id_refl. Qed.

Lemma neutral_throw {A} e : neutral opened the_broker (throw (A := A) e).
Proof. intros s. apply moves_id_refl. Qed.

Lemma neutral_bind {A B} (m : GoM S A) (f : A → GoM S B) :
  neutral opened the_broker m → (∀ a, neutral opened the_broker (f a)) → neutral opened the_broker (m ≫= f).
Proof.
  intros Hm Hf s. apply run_in_bind. eapply run_mono; [apply Hm| |done|done]. intros ? s1 H1.
  eapply run_mono; [apply Hf| | |done]; intros ? s2 H2; exact (moves_id_trans _ _ _ H1 H2).
Qed.

Lemma neutral_wrap {A} w (m : GoM S A) : neutral opened the_broker m → neutral opened the_broker (wrap_error w m).
Proof. intros Hm s. apply run_in_wrap, Hm. Qed.
End neutral.

#[export] Hint Resolve neutral_ret neutral_bind neutral_wrap neutral_throw : neutral.

(** [opened s]: what is open; [the_broker s]: the broker.  A call that opens
    fails or opens; a server that is started may have ended already; one that
    closes frees its resource whatever it returns, and only the graceful stop of
    a gRPC server may wait for ever; so may stopping workers, if there are some. *)
Class MachineLaws (S : Type) `{Machine S} : Type := {
  opened : S → gset resource;
  the_broker : S → Broker;
  law_new b s : run_in (m_new b) (λ _ s', the_broker s' = b ∧ opened s' = opened s) (λ _ _, False) (λ _, False) s;
  law_open r a c s :
    run_in (m_open r a c) (λ _, moves opened the_broker (union {[ r ]}) s) (λ _, moves opened the_broker id s) (λ _, False) s;
  law_go r c s :
    run_in (m_go r c)
      (λ _ s', moves opened the_broker (union {[ r ]}) s s' ∨ r ∈ servers ∧ moves opened the_broker id s s')
      (λ _ _, False) (λ _, False) s;
  law_close r s :
    run_in (m_close r)
      (λ _, moves opened the_broker (.∖ frees r) s) (λ _, moves opened the_broker (.∖ frees r) s)
      (λ s', r = GRPCServer ∧ r ∈ opened s') s;
  law_stop r s :
    run_in (m_stop r) (λ _, moves opened the_broker (.∖ {[ r ]}) s) (λ _ _, False)
      (λ s', moves opened the_broker id s s' ∧ r ∈ opened s') s;
  law_MkdirAll d : neutral opened the_broker (m_MkdirAll d);
  law_Snapshots d n : neutral opened the_broker (m_NewFileSnapshotStore d n);
  law_HasState : neutral opened the_broker m_HasExistingState;
  law_Bootstrap i a : neutral opened the_broker (m_BootstrapCluster i a);
  law_Post u b s : moves opened the_broker id s (m_Post u b s).1;
  law_KeyPair c k : neutral opened the_broker (tls_LoadX509KeyPair c k);
  law_ReadFile f : neutral opened the_broker (tls_ReadFile f)
}.

(** ** What is open after each stage

    An interval of sets: everything in the first is open, nothing outside the
    second. *)

Abbreviation interval := (gset resource * gset resource)%type.

Definition down (L : gset resource) : gset resource := L ∖ servers.
Definition up (U : gset resource) : gset resource := U ∪ (if decide (RaftNode ∈ U) then topics else ∅).

(** Other goroutines, then something is opened, started or closed. *)
Definition other (I : interval) : interval := (down I.1, up I.2).
Definition opening (r : resource) (I : interval) : interval := ({[ r ]} ∪ down I.1, {[ r ]} ∪ up I.2).
Definition starting (r : resource) (I : interval) : interval :=
  ((if decide (r ∈ servers) then ∅ else {[ r ]}) ∪ down I.1, {[ r ]} ∪ up I.2).
Definition closing (X : gset resource) (I : interval) : interval := (down I.1 ∖ X, up I.2 ∖ X).
Definition closing_each (rs : list resource) (I : interval) : interval := foldl (λ I r, closing (frees r) I) I rs.

Definition included (I J : interval) : Prop := J.1 ⊆ I.1 ∧ I.2 ⊆ J.2.

#[global] Instance included_dec I J : Decision (included I J).
Proof. unfold included. apply _. Defined.

(** Closed inclusions are computed. *)
Ltac fits :=
  match goal with |- ?G => tryif has_evar G then fail else (apply (bool_decide_unpack _); vm_compute; exact I) end.

Section resources.
Context {S : Type} `{MC : Machine S} {ML : MachineLaws S} (st : bytes * gmap bytes TopicConfig).

Definition within (I : interval) (s : S) : Prop :=
  settings the_broker s = st ∧ I.1 ⊆ opened s ∧ opened s ⊆ I.2.

Lemma within_included I J s : included I J → within I s → within J s.
Proof. intros [H1 H2] (Hst & HL & HU). split; [done|]. set_solver. Qed.

Lemma drifted_within I s Y : within I s → drifted (opened s) Y → (other I).1 ⊆ Y ∧ Y ⊆ (other I).2.
Proof.
  intros (_ & HL & HU) [Hd Hu]. unfold other, down, up in *. simpl. split; [set_solver|].
  repeat case_decide; set_solver.
Qed.

Lemma moves_within f I s s' :
  (∀ X Y : gset resource, X ⊆ Y → f X ⊆ f Y) → within I s → moves opened the_broker f s s' →
  within (f (down I.1), f (up I.2)) s'.
Proof.
  intros Hf HI (Hst & Y & Hd & Ho). pose proof (drifted_within _ _ _ HI Hd) as [H1 H2].
  split; [rewrite Hst; apply HI|]. rewrite Ho. split; by apply Hf.
Qed.

(** From [I], [m] ends in [J], or fails in an interval of [F]; it does not return
    only while something of [W] is open. *)
Definition stage {A} (W : gset resource) (I : interval) (m : GoM S A) (J : interval) (F : interval → Prop) : Prop :=
  ∀ s, within I s →
    run_in m (λ _, within J) (λ _ s', ∃ K, F K ∧ within K s') (λ s', ∃ r, r ∈ W ∧ r ∈ opened s') s.

(** Code that does not fail. *)
Definition no_failure (K : interval) : Prop := False.

Lemma stage_bind {A B} W I J K F (m : GoM S A) (f : A → GoM S B) :
  stage W I m J F → (∀ a, stage W J (f a) K F) → stage W I (m ≫= f) K F.
Proof.
  intros Hm Hf s Hs. apply run_in_bind. eapply run_mono; [by apply Hm| |done|done].
  intros ? s' Hs'. by apply Hf.
Qed.

Lemma stage_ret {A} W I F (a : A) : stage W I (mret a) I F.
Proof. by intros s Hs. Qed.

Lemma stage_weaken {A} W I J J' (F F' : interval → Prop) (m : GoM S A) :
  stage W I m J F → included J J' → (∀ K, F K → F' K) → stage W I m J' F'.
Proof.
  intros Hm HJ HF s Hs. eapply run_mono; [by apply Hm| | |done].
  - intros ? s' Hs'. by eapply within_included.
  - intros ? s' (K & HK & Hs'). eauto.
Qed.

Lemma stage_into {A} W I J J' F (m : GoM S A) : stage W I m J F → included J J' → stage W I m J' F.
Proof. intros Hm HJ. by eapply stage_weaken. Qed.

(** The calls. *)

Lemma neutral_run {A} (m : GoM S A) I s :
  neutral opened the_broker m → within I s → run_in m (λ _, within (other I)) (λ _, within (other I)) (λ _, False) s.
Proof. intros Hm Hs. eapply run_mono; [apply Hm| | |done]; intros ? s' Hs'; by eapply (moves_within id). Qed.

Lemma stage_go W r c I F : stage W I (m_go r c) (starting r I) F.
Proof.
  intros s Hs. eapply run_mono; [apply law_go| |done|done]. intros ? s' [Hm|[Hr Hm]].
  - eapply within_included; [|eapply (moves_within (union {[ r ]})); [set_solver|exact Hs|exact Hm]].
    unfold included, starting. simpl. case_decide; set_solver.
  - eapply within_included; [|eapply (moves_within id); [done|exact Hs|exact Hm]].
    unfold included, starting. simpl. rewrite decide_True by done. set_solver.
Qed.

Lemma stage_stop W r I F : (r ∈ up I.2 → r ∈ W) → stage W I (m_stop r) (closing {[ r ]} I) F.
Proof.
  intros HW s Hs. eapply run_mono; [apply law_stop| |done|].
  - intros ? s' Hm. eapply (moves_within (.∖ {[ r ]})); [set_solver|exact Hs|exact Hm].
  - intros s' [Hm Hr]. exists r. split; [|done]. apply HW.
    apply (moves_within id I s s') in Hm as (_ & _ & HU); [|done|done]. set_solver.
Qed.

Lemma close_run (W : gset resource) r I s : (r = GRPCServer → r ∈ W) → within I s →
  run_in (m_close r) (λ _, within (closing (frees r) I)) (λ _, within (closing (frees r) I)) (λ s', ∃ r, r ∈ W ∧ r ∈ opened s') s.
Proof.
  intros HW Hs. eapply run_mono; [apply law_close| | |].
  1-2: intros ? s' Hm; eapply (moves_within (.∖ frees r)); [set_solver|exact Hs|exact Hm].
  intros s' [Hr Ho]. exists r. auto.
Qed.

Lemma stage_ignore_close W r I F : (r = GRPCServer → r ∈ W) → stage W I (ignore (m_close r)) (closing (frees r) I) F.
Proof. intros HW s Hs. apply run_in_ignore. by eapply run_mono; [apply close_run| | |]. Qed.

Lemma stage_close_each W rs I F : GRPCServer ∉ rs → stage W I (close_each rs) (closing_each rs I) F.
Proof.
  revert I. induction rs as [|r rs IH]; intros I Hg; cbn [close_each]; [apply stage_ret|].
  apply not_elem_of_cons in Hg as [Hr Hg].
  eapply stage_bind; [apply stage_ignore_close; intros ->; done|intros _; by apply IH].
Qed.

Lemma stage_close_first W rs I F e : GRPCServer ∉ rs → stage W I (close_first rs e) (closing_each rs I) F.
Proof.
  revert I e. induction rs as [|r rs IH]; intros I e Hg; cbn [close_first]; [apply stage_ret|].
  apply not_elem_of_cons in Hg as [Hr Hg]. eapply stage_bind; [|intros x; by apply IH].
  intros s Hs. apply run_in_attempt. eapply run_mono; [apply (close_run W r I)| | |]; (done || by intros ->).
Qed.

(** What Close leaves. *)
Definition closed_down (grpc : bool) (I : interval) : interval :=
  let I := closing {[ LagUpdater ]} (closing {[ RetentionUpdaters ]} (closing {[ CompactionUpdater ]} I)) in
  closing_each [HTTPServer; RaftNode; TopicLogs; Groups] (if grpc then closing (frees GRPCServer) I else I).

(** It waits for the workers that may be there. *)
Definition may_wait (W : gset resource) (I : interval) : Prop :=
  {[ GRPCServer; RetentionUpdaters ]} ⊆ W ∧ (CompactionUpdater ∈ I.2 → CompactionUpdater ∈ W) ∧ (LagUpdater ∈ I.2 → LagUpdater ∈ W).

Lemma up_worker r U : r ∉ topics → r ∈ up U → r ∈ U.
Proof. unfold up. case_decide; set_solver. Qed.

Lemma closing_worker r X I : r ∉ topics → r ∈ (closing X I).2 → r ∈ I.2.
Proof.
  intros Ht Hr. unfold closing in Hr. simpl in Hr. apply elem_of_difference in Hr as [Hr _]. by apply up_worker in Hr.
Qed.

Lemma stage_Close W grpc I F : may_wait W I → stage W I (machine_Close grpc) (closed_down grpc I) F.
Proof.
  intros (HW & Hc & Hl). unfold machine_Close, closed_down. cbv zeta.
  eapply stage_bind; [apply stage_stop; intros Hr; apply Hc; apply up_worker in Hr; set_solver|intros _].
  eapply stage_bind; [apply stage_stop; set_solver|intros _].
  eapply stage_bind; [apply stage_stop; intros Hr; apply Hl; apply up_worker in Hr; [|set_solver]; by do 2 (apply closing_worker in Hr; [|set_solver])|intros _].
  eapply stage_bind; [|intros _; apply stage_close_first; set_solver].
  destruct grpc; [apply stage_ignore_close; set_solver|apply stage_ret].
Qed.

Lemma stage_undo_Close W grpc I F : may_wait W I → stage W I (undo_Close grpc) (closed_down grpc I) F.
Proof. intros HW. eapply stage_bind; [by apply stage_Close|intros e; apply stage_ret]. Qed.

(** A call with its clean-up. *)
Lemma stage_undo {A} W I I' J K F (m : GoM S A) (c : GoM S unit) :
  (∀ s, within I s → run_in m (λ _, within J) (λ _, within I') (λ _, False) s) →
  stage W I' c K no_failure → F K → stage W I (on_error m c) J F.
Proof.
  intros Hm Hc HF s Hs. apply run_in_on_error. eapply run_mono; [by apply Hm|done| |done].
  intros ? s' Hs'. eapply run_mono; [by apply Hc|eauto| |done]. by intros ? s'' (K' & [] & _).
Qed.

Lemma stage_neutral {A} W I K F (m : GoM S A) c :
  neutral opened the_broker m → stage W (other I) c K no_failure → F K → stage W I (on_error m c) (other I) F.
Proof. intros Hm. apply stage_undo. intros s Hs. by apply neutral_run. Qed.

Lemma open_run r a c I s :
  within I s → run_in (m_open r a c) (λ _, within (opening r I)) (λ _, within (other I)) (λ _, False) s.
Proof.
  intros Hs. eapply run_mono; [apply law_open| | |done].
  - intros ? s' Hm. eapply (moves_within (union {[ r ]})); [set_solver|exact Hs|exact Hm].
  - intros ? s' Hm. eapply (moves_within id); [done|exact Hs|exact Hm].
Qed.

Lemma stage_open W r a c I K F undo :
  stage W (other I) undo K no_failure → F K → stage W I (on_error (m_open r a c) undo) (opening r I) F.
Proof. apply stage_undo. intros s Hs. by apply open_run. Qed.

(** A failure that is reported after a clean-up. *)
Lemma stage_fail {A} W I J K F (c : GoM S unit) e :
  stage W I c K no_failure → F K → stage (A := A) W I (c;; throw e) J F.
Proof.
  intros Hc HF s Hs. apply run_in_bind. eapply run_mono; [by apply Hc| | |done].
  - intros ? s' Hs'. by exists K.
  - by intros ? s' (K' & [] & _).
Qed.
End resources.

(** ** NewBroker *)

(** The two BoltDB stores of Raft. *)
Definition stores : gset resource := {[ LogStore; StableStore ]}.

(** What a NewBroker that fails may leave open: topics that the state machine
    has opened before Raft was shut down, when it fails before the HTTP server is
    started; the two stores, and retention workers that were started during
    Close, after that. *)
Definition failed_open (K : interval) : Prop :=
  K.2 ⊆ topics ∨ stores ⊆ K.1 ∧ K.2 ⊆ {[ RetentionUpdaters ]} ∪ stores.

#[global] Instance failed_open_dec K : Decision (failed_open K).
Proof. unfold failed_open. apply _. Defined.

(** What NewBroker waits for when it fails. *)
#[global] Instance may_wait_dec (W : gset resource) I : Decision (may_wait W I).
Proof. unfold may_wait. apply _. Defined.

Definition clean_up_waits : gset resource := {[ GRPCServer; RetentionUpdaters ]}.

Definition groups_open : interval := ({[ Groups ]}, {[ Groups ]}).
Definition transport_open : interval := ({[ Transport; Groups ]}, {[ Transport; Groups ]}).
Definition firm : gset resource := {[ RaftNode; StableStore; LogStore; Transport; Groups ]}.
Definition raft_open : interval := (firm, firm ∪ topics).
Definition servers_open : interval := (firm, firm ∪ topics ∪ servers).

(** The clean-ups. *)
Ltac cleans_up := first
  [ apply stage_close_each; set_solver
  | apply stage_undo_Close; fits
  | eapply stage_bind; [cleans_up|intros ?; cleans_up] ].

(** A call with its clean-up. *)
Ltac call_neutral H := eapply stage_neutral; [apply H|cleans_up|fits].
Ltac call_open := eapply stage_open; [cleans_up|fits].

Section new_broker.
Context {S : Type} `{MC : Machine S} {ML : MachineLaws S} (st : bytes * gmap bytes TopicConfig).

Abbreviation ok := (stage st clean_up_waits).

Lemma neutral_server_config a b c : neutral opened the_broker (LoadServerTLSConfig a b c).
Proof.
  unfold LoadServerTLSConfig. apply neutral_bind; [apply neutral_wrap, law_KeyPair|intros cert].
  apply neutral_bind; [apply neutral_wrap, law_ReadFile|intros ca]. destruct (x509_Pool ca); auto with neutral.
Qed.

Lemma neutral_client_config a b c : neutral opened the_broker (LoadClientTLSConfig a b c).
Proof.
  unfold LoadClientTLSConfig. apply neutral_bind; [apply neutral_wrap, law_KeyPair|intros cert].
  apply neutral_bind; [apply neutral_wrap, law_ReadFile|intros ca]. destruct (x509_Pool ca); auto with neutral.
Qed.

Lemma neutral_join_attempts url body k e : neutral opened the_broker (join_attempts m_Post url body k e).
Proof.
  revert e. induction k as [|k IH]; intros e s; cbn [join_attempts]; [apply moves_id_refl|].
  pose proof (law_Post url body s) as Hp. apply run_in_bind. change (run_in get_st ?Q ?E ?H s) with (Q s s). cbn beta.
  destruct (m_Post url body s) as [s' [[code status]|err]]; simpl in Hp;
    [destruct ((200 <=? code) && (code <? 300)); [exact Hp|]|];
    (eapply run_mono; [apply IH| | |done]; intros ? s2 H2; exact (moves_id_trans _ _ _ Hp H2)).
Qed.

Lemma neutral_joinPeer id addr peer : neutral opened the_broker (joinPeer m_Post id addr peer).
Proof. apply neutral_bind; [apply neutral_join_attempts|intros []; auto with neutral]. Qed.

Lemma open_transport_stage t a c k ca : ok groups_open (open_transport t a c k ca) transport_open failed_open.
Proof.
  unfold open_transport. destruct t; eapply stage_into.
  - eapply stage_bind; [call_neutral neutral_server_config|intros sc].
    eapply stage_bind; [call_neutral neutral_client_config|intros cc]. call_open.
  - fits.
  - call_open.
  - fits.
Qed.

Lemma start_raft_stage id a d : ok transport_open (start_raft id a d) raft_open failed_open.
Proof.
  unfold start_raft. cbv zeta. eapply stage_into.
  - eapply stage_bind; [call_open|intros _]. eapply stage_bind; [call_open|intros _].
    eapply stage_bind; [call_neutral law_Snapshots|intros _]. call_open.
  - fits.
Qed.

Lemma bootstrap_stage id a ps : ok raft_open (bootstrap id a ps) raft_open failed_open.
Proof.
  unfold bootstrap. destruct (decide (ps = [])) as [_|_]; [|apply stage_ret].
  eapply stage_bind with (J := other raft_open).
  { intros s Hs. apply run_in_attempt. eapply run_mono; [by apply neutral_run; [apply law_HasState|]|done|done|done]. }
  intros [[]|e]; cbn [negb].
  - eapply stage_into; [apply stage_ret|fits].
  - eapply stage_into; [call_neutral law_Bootstrap|fits].
  - eapply stage_fail; [cleans_up|fits].
Qed.

Lemma start_servers_stage h t c k ca : ok raft_open (start_servers h t c k ca) servers_open failed_open.
Proof.
  unfold start_servers. eapply stage_bind; [apply stage_go|intros _].
  destruct (grpcAddress h) as [a|err]; [|eapply stage_fail; [cleans_up|fits]].
  eapply stage_bind; [call_open|intros _].
  eapply stage_bind with (J := other (opening GRPCListener (starting HTTPServer raft_open)));
    [|intros o; eapply stage_into; [apply stage_go|fits]].
  destruct t; [|eapply stage_into; [apply stage_ret|fits]].
  eapply stage_bind; [call_neutral neutral_server_config|intros sc; apply stage_ret].
Qed.

Lemma stage_join id a ps :
  ok servers_open (if decide (ps = []) then mret tt else on_error (joinPeer m_Post id a ps) (undo_Close true)) servers_open failed_open.
Proof.
  destruct (decide (ps = [])); [apply stage_ret|]. eapply stage_into; [call_neutral neutral_joinPeer|fits].
Qed.
End new_broker.

(** What a broker that was started holds, whatever its servers do. *)
Definition held : gset resource := {[ LagUpdater; CompactionUpdater ]} ∪ firm.

Definition started : interval := (held, held ∪ topics ∪ servers).

Definition everything_failed_open (X : gset resource) : Prop :=
  X ⊆ topics ∨ stores ⊆ X ∧ X ⊆ {[ RetentionUpdaters ]} ∪ stores.

(** The run of NewBroker. *)
Lemma NewBroker_stage {S} `{MC : Machine S} {ML : MachineLaws S}
    (id httpAddr raftAddr dataDir peers certFile keyFile caFile : bytes) (s : S) :
  opened s = ∅ →
  run_in (NewBroker id httpAddr raftAddr dataDir peers certFile keyFile caFile)
    (λ _, within (dataDir, ∅) started)
    (λ _ s', everything_failed_open (opened s')) (λ s', GRPCServer ∈ opened s' ∨ RetentionUpdaters ∈ opened s') s.
Proof.
  intros Hs. unfold NewBroker. apply run_in_bind. eapply run_mono; [apply law_new| |done|done]. intros ? s1 [Hb Ho].
  assert (within (dataDir, ∅) (∅, ∅) s1) as H1.
  { split; [unfold settings; by rewrite Hb|]. rewrite Ho, Hs. set_solver. }
  assert (stage (dataDir, ∅) clean_up_waits (∅, ∅)
    (m_open Groups (Path.Join [dataDir; str "consumer-groups.db"]) []) groups_open failed_open) as Hgroups.
  { intros s2 H2. eapply run_mono; [by apply open_run| | |done].
    - intros ? s3 H3. eapply within_included; [|exact H3]. fits.
    - intros ? s3 H3. eexists. split; [|exact H3]. fits. }
  assert (∀ m : GoM S unit, stage (dataDir, ∅) clean_up_waits (∅, ∅) m started failed_open →
    run_in m (λ _, within (dataDir, ∅) started) (λ _ s', everything_failed_open (opened s'))
      (λ s', GRPCServer ∈ opened s' ∨ RetentionUpdaters ∈ opened s') s1) as Hrun.
  { intros m Hm. eapply run_mono; [by apply Hm|done| |].
    - intros ? s' (K & HK & _ & HL & HU). destruct HK as [HK|[HK1 HK2]]; [left|right]; set_solver.
    - intros s' (r & Hr & Ho'). unfold clean_up_waits in Hr. set_solver. }
  apply Hrun. clear s Hs s1 Hb Ho H1 Hrun. cbv zeta.
  eapply stage_bind; [exact Hgroups|intros _].
  eapply stage_bind with (J := groups_open); [eapply stage_into; [call_neutral law_MkdirAll|fits]|intros _].
  eapply stage_bind; [apply open_transport_stage|intros _].
  eapply stage_bind; [apply start_raft_stage|intros _].
  eapply stage_bind; [apply bootstrap_stage|intros _].
  eapply stage_bind; [apply start_servers_stage|intros _].
  eapply stage_bind; [apply stage_join|intros _].
  eapply stage_bind; [apply stage_go|intros _].
  eapply stage_into; [apply stage_go|fits].
Qed.


(** ** A machine

    Its state is what is open, the broker, and the resources that cannot be
    opened; a server among those ends when it is started. *)

Definition toy : Type := gset resource * Broker * list resource.

Definition toy_update (f : gset resource → gset resource) : GoM toy unit := modify_st (λ '(X, b, bad), (f X, b, bad)).

#[local] Instance toy_tls : TLSLib toy := {|
  Certificate := unit; CertPool := unit;
  tls_LoadX509KeyPair _ _ := mret tt; tls_ReadFile _ := mret []; x509_Pool _ := Some tt
|}.

#[local] Instance toy_machine : Machine toy := {|
  m_new b := modify_st (λ '(X, _, bad), (X, b, bad));
  m_open r address _ := '(_, _, bad) ← get_st; if bool_decide (r ∈ bad) then throw (EMsg "address in use" []) else toy_update (union {[ r ]});
  m_go r _ := '(_, _, bad) ← get_st; if bool_decide (r ∈ bad ∧ r ∈ servers) then mret tt else toy_update (union {[ r ]});
  m_stop r := toy_update (.∖ {[ r ]});
  m_close r := toy_update (.∖ frees r);
  m_MkdirAll _ := mret tt;
  m_NewFileSnapshotStore _ _ := mret tt;
  m_HasExistingState := mret false;
  m_BootstrapCluster _ _ := mret tt;
  m_Post _ _ s := (s, inr EOF)
|}.

#[local] Instance toy_laws : MachineLaws toy.
Proof.
  refine {| opened := λ s, s.1.1; the_broker := λ s, s.1.2 |}; try (intros; (apply neutral_ret || apply moves_id_refl)).
  - by intros b [[X b'] bad].
  - intros r a c [[X b] bad]. unfold run_in. simpl.
    unfold mbind, gom_bind, get_st. case_bool_decide; simpl; [apply moves_id_refl|]. split; [done|]. exists X. split; [apply drifted_refl|done].
  - intros r c [[X b] bad]. unfold run_in. simpl.
    unfold mbind, gom_bind, get_st. case_bool_decide as Hr; simpl; [right; split; [apply Hr|apply moves_id_refl]|].
    left. split; [done|]. exists X. split; [apply drifted_refl|done].
  - intros r [[X b] bad]. split; [done|]. exists X. split; [apply drifted_refl|done].
  - intros r [[X b] bad]. split; [done|]. exists X. split; [apply drifted_refl|done].
Defined.

