(* ===== verification/BrokerMain.v ===== *)
(** * The broker process: cmd/broker/main.go

    It reads its settings from the environment, starts a broker, waits for a
    signal and closes the broker. *)

From S2P Require Import Prelude GoNum GoNet Path OS Snappy Segment Log RaftFSM ConsumerGroup Broker BrokerAPI TLS BrokerStart.

(** How the process ends: by [log.Fatalf], or by returning from main, after it
    has printed the error of Close if there is one. *)
Inductive process_end : Type :=
| Fatal (err : goerr)
| Finished (closeErr : option goerr).

(** The settings that must not be empty. *)
Definition required_names : list bytes :=
  [str "BROKER_ID"; str "BROKER_HTTP_ADDR"; str "BROKER_RAFT_ADDR"; str "BROKER_DATA_DIR"].

(** [running]: what happens until SIGINT or SIGTERM arrives. *)
Section main.
Context {S : Type} `{MC : Machine S} `{MR : MapRange} (os_Getenv : bytes → bytes) (running : S → S).

(** [for name, value := range required { if value == "" { log.Fatalf(...) } }] *)
Definition first_missing : option bytes :=
  fst <$> head (filter (λ '(_, value), value = []) (map_range (list_to_map ((λ name, (name, os_Getenv name)) <$> required_names) : gmap bytes bytes))).

Definition main : GoM S process_end :=
  let getenv (name : string) := os_Getenv (str name) in
  match first_missing with
  | Some name => mret (Fatal (EMsg "%s is required" [AStr name]))
  | None =>
      b ← attempt (NewBroker (getenv "BROKER_ID") (getenv "BROKER_HTTP_ADDR") (getenv "BROKER_RAFT_ADDR")
                     (getenv "BROKER_DATA_DIR") (getenv "BROKER_PEERS")
                     (getenv "BROKER_CERT_FILE") (getenv "BROKER_KEY_FILE") (getenv "BROKER_CA_FILE"));
      match b with
      | inr err => mret (Fatal (EWrap "failed to start broker: %v" [] err))
      | inl _ =>
          modify_st running;;
          closeErr ← machine_Close true;
          mret (Finished closeErr)
      end
  end.

(** ** Laws *)

Lemma required_lookup (l : list bytes) (name value : bytes) :
  (list_to_map ((λ name, (name, os_Getenv name)) <$> l) : gmap bytes bytes) !! name = Some value ↔
  name ∈ l ∧ value = os_Getenv name.
Proof.
  induction l as [|a l IH]; simpl; [rewrite lookup_empty; set_solver|].
  rewrite lookup_insert, elem_of_cons. case_decide; subst; naive_solver.
Qed.

Lemma first_missing_Some name : first_missing = Some name → name ∈ required_names ∧ os_Getenv name = [].
Proof.
  unfold first_missing. intros Hf. apply fmap_Some in Hf as ([name' value] & Hh & ->). simpl.
  assert ((name', value) ∈ filter (λ '(_, value), value = []) (map_range
    (list_to_map ((λ name, (name, os_Getenv name)) <$> required_names) : gmap bytes bytes))) as Hin.
  { apply head_Some_elem_of in Hh. done. }
  apply list_elem_of_filter in Hin as [Hv Hin]. apply elem_of_map_range, required_lookup in Hin as [? ->]. done.
Qed.

Lemma first_missing_None name : first_missing = None → name ∈ required_names → os_Getenv name ≠ [].
Proof.
  unfold first_missing. intros Hf%fmap_None Hn Hv.
  assert ((name, []) ∈ filter (λ '(_, value), value = []) (map_range
    (list_to_map ((λ name, (name, os_Getenv name)) <$> required_names) : gmap bytes bytes))) as Hin.
  { apply list_elem_of_filter. split; [done|]. by apply elem_of_map_range, required_lookup. }
  destruct (filter _ _); [by apply not_elem_of_nil in Hin|done].
Qed.
End main.

(** Close of a broker that was started, whatever happened since. *)
Lemma machine_Close_run {S} `{MC : Machine S} {ML : MachineLaws S} (s : S) :
  held ⊆ opened s → opened s ⊆ held ∪ topics ∪ servers →
  run_in (machine_Close true)
    (λ _ s', stores ⊆ opened s' ∧ opened s' ⊆ {[ RetentionUpdaters ]} ∪ stores) (λ _ _, False)
    (λ s', ∃ r, r ∈ ({[ GRPCServer; RetentionUpdaters; LagUpdater; CompactionUpdater ]} : gset resource) ∧ r ∈ opened s') s.
Proof.
  intros HL HU.
  assert (stage (settings the_broker s) {[ GRPCServer; RetentionUpdaters; LagUpdater; CompactionUpdater ]} started
            (machine_Close true) (closed_down true started) no_failure) as Hc by (apply stage_Close; fits).
  assert (included (closed_down true started) (stores, {[ RetentionUpdaters ]} ∪ stores)) as Hi by fits.
  eapply run_mono; [apply Hc; split; [done|by split]| |by intros ? ? (K & [] & _)|].
  - intros e s' Hs'. by apply (within_included _ _ _ _ Hi) in Hs' as [_ ?].
  - done.
Qed.

(** C21. The broker process.  When a required setting is empty it ends at once,
    naming one of those that are, and touches nothing.  Otherwise it is NewBroker
    with the settings of the environment that decides: its error is the process's,
    and a call of it that does not return is one of the process.  Once started, it
    ends by itself only when Close returns, with the error of Close; the two
    stores that Close does not know are still open then, and at most retention
    workers that were started meanwhile.  Close does not return only while there
    is a server or a worker it waits for. *)
Theorem main_correct {S} `{MC : Machine S} {ML : MachineLaws S} `{MR : MapRange}
    (os_Getenv : bytes → bytes) (running : S → S) (s : S) :
  opened s = ∅ → (∀ s', drifted (opened s') (opened (running s'))) →
  let getenv (name : string) := os_Getenv (str name) in
  (∃ name, name ∈ [str "BROKER_ID"; str "BROKER_HTTP_ADDR"; str "BROKER_RAFT_ADDR"; str "BROKER_DATA_DIR"] ∧
     os_Getenv name = [] ∧ main os_Getenv running s = (Ok (Fatal (EMsg "%s is required" [AStr name])), s)) ∨
  (getenv "BROKER_ID" ≠ [] ∧ getenv "BROKER_HTTP_ADDR" ≠ [] ∧ getenv "BROKER_RAFT_ADDR" ≠ [] ∧ getenv "BROKER_DATA_DIR" ≠ [] ∧
   match NewBroker (getenv "BROKER_ID") (getenv "BROKER_HTTP_ADDR") (getenv "BROKER_RAFT_ADDR") (getenv "BROKER_DATA_DIR")
           (getenv "BROKER_PEERS") (getenv "BROKER_CERT_FILE") (getenv "BROKER_KEY_FILE") (getenv "BROKER_CA_FILE") s with
   | (Err e, s1) => main os_Getenv running s = (Ok (Fatal (EWrap "failed to start broker: %v" [] e)), s1)
   | (Panic, s1) => main os_Getenv running s = (Panic, s1)
   | (Ok _, s1) =>
       match machine_Close true (running s1) with
       | (Ok closeErr, s2) =>
           main os_Getenv running s = (Ok (Finished closeErr), s2) ∧
           {[ LogStore; StableStore ]} ⊆ opened s2 ∧ opened s2 ⊆ {[ LogStore; StableStore; RetentionUpdaters ]}
       | (Err _, _) => False
       | (Panic, s2) =>
           main os_Getenv running s = (Panic, s2) ∧
           ∃ r, r ∈ ({[ GRPCServer; RetentionUpdaters; LagUpdater; CompactionUpdater ]} : gset resource) ∧ r ∈ opened s2
       end
   end).
Proof.
  intros Hs Hrun getenv. unfold main. destruct (first_missing os_Getenv) as [name|] eqn:E.
  { left. exists name. by destruct (first_missing_Some os_Getenv name E). }
  right. assert (∀ name, In name required_names → os_Getenv name ≠ []) as Hn.
  { intros name Hin. by apply (first_missing_None os_Getenv name E), list_elem_of_In. }
  do 4 (split; [apply Hn; simpl; auto 6|]). cbv zeta. fold getenv.
  pose proof (NewBroker_stage (getenv "BROKER_ID") (getenv "BROKER_HTTP_ADDR") (getenv "BROKER_RAFT_ADDR") (getenv "BROKER_DATA_DIR")
    (getenv "BROKER_PEERS") (getenv "BROKER_CERT_FILE") (getenv "BROKER_KEY_FILE") (getenv "BROKER_CA_FILE") s Hs) as Hb.
  unfold run_in in Hb. unfold mbind, gom_bind, attempt. destruct (NewBroker _ _ _ _ _ _ _ _ s) as [[[]|e|] s1]; [|done..].
  destruct Hb as (_ & HL & HU). simpl in HL, HU. destruct (Hrun s1) as [D1 D2].
  assert (run_in (machine_Close true)
    (λ _ s', stores ⊆ opened s' ∧ opened s' ⊆ {[ RetentionUpdaters ]} ∪ stores) (λ _ _, False)
    (λ s', ∃ r, r ∈ ({[ GRPCServer; RetentionUpdaters; LagUpdater; CompactionUpdater ]} : gset resource) ∧ r ∈ opened s') (running s1)) as Hc.
  { apply machine_Close_run.
    - transitivity (held ∖ servers); [by apply (bool_decide_unpack _)|]. etransitivity; [by apply difference_mono_r|exact D1].
    - clear -D2 HU. unfold started in HU. simpl in HU. case_decide; set_solver. }
  unfold run_in in Hc. unfold modify_st. destruct (machine_Close true (running s1)) as [[ce|e|] s2]; [|done..].
  split; [done|]. clear -Hc. unfold stores in Hc. set_solver.
Qed.

#[local] Existing Instances toy_tls toy_machine toy_laws.

(** An HTTP port that leaves none for the gRPC server; and one that does. *)
Definition environment (port : string) (name : bytes) : bytes :=
  if decide (name = str "BROKER_HTTP_ADDR") then str port
  else if decide (name ∈ required_names) then str "x" else [].

Lemma main_correct_witness :
  let nothing : toy := (∅, new_broker [], []) in
  let run port := main (MR := key_order) (environment port) id nothing in
  (∃ err, (run ":65000").1 = Ok (Fatal (EWrap "failed to start broker: %v" [] err))) ∧
  (run ":8080").1 = Ok (Finished None) ∧ {[ LogStore; StableStore ]} ⊆ opened (run ":8080").2.
Proof.
  cbv zeta.
  assert (∀ s', drifted (opened (S := toy) s') (opened (id s'))) as Hid by (intros s'; apply drifted_refl).
  assert (∀ port, str port ≠ [] → ∀ name, name ∈ required_names → environment port name = [] → False) as Hset.
  { intros port Hp name Hn. unfold environment. repeat case_decide; done. }
  assert (opened (S := toy) (∅, new_broker [], []) = ∅) as Hnothing by reflexivity.
  pose proof (main_correct (MR := key_order) (environment ":65000") id (∅, new_broker [], []) Hnothing Hid) as Hfails.
  pose proof (main_correct (MR := key_order) (environment ":8080") id (∅, new_broker [], []) Hnothing Hid) as Hends.
  assert ((main (MR := key_order) (environment ":8080") id (∅, new_broker [], [])).1 = Ok (Finished None)) as Hok
    by (vm_compute; reflexivity).
  split; [|split; [exact Hok|]].
  - destruct Hfails as [(name & H & Hn & _)|(_ & _ & _ & _ & Hm)]; [exfalso; exact (Hset ":65000" ltac:(discriminate) name H Hn)|].
    destruct (NewBroker _ _ _ _ _ _ _ _ _) as [[u|e|] s1] eqn:E; [exfalso|exists e; exact (f_equal fst Hm)|exfalso].
    all: apply (f_equal (λ r, match r.1 with Err _ => true | _ => false end)) in E; vm_compute in E; discriminate E.
  - destruct Hends as [(name & H & Hn & _)|(_ & _ & _ & _ & Hm)]; [exfalso; exact (Hset ":8080" ltac:(discriminate) name H Hn)|].
    destruct (NewBroker _ _ _ _ _ _ _ _ _) as [[u|e|] s1]; [|apply (f_equal fst) in Hm; discriminate (eq_trans (eq_sym Hok) Hm)..].
    destruct (machine_Close true (id s1)) as [[ce|e|] s2]; [|destruct Hm|].
    + destruct Hm as (Hm & HL & _). exact (eq_ind_r (λ r, _ ⊆ opened r.2) HL Hm).
    + destruct Hm as [Hm _]. apply (f_equal fst) in Hm. discriminate (eq_trans (eq_sym Hok) Hm).
Defined.
