(* ===== verification/CLI.v ===== *)
(** * The command line client: cmd/cli/main.go

    The three commands, after package flag has parsed their arguments.  The
    broker is reached through [BrokerClient], the generated gRPC client; its
    state [S] is the rest of the world.  What a command prints is the list of
    lines it adds to the second component of the state. *)

From S2P Require Import Prelude GoNum GoNet Path OS Snappy Segment Log RaftFSM ConsumerGroup Broker BrokerAPI TLS.

Class BrokerClient (S : Type) : Type := {
  rpc_Produce : ProduceRequest → GoM S Z;
  rpc_Consume : ConsumeRequest → GoM S ConsumeResponse;
  rpc_CommitOffset : CommitOffsetRequest → GoM S unit;
  rpc_FetchOffset : FetchOffsetRequest → GoM S Z
}.

(** A client whose calls always reach the broker. *)
#[global] Instance direct_client {D T R} `{SN : Snappy} `{RF : Raft R} `{BT : Bolt D T} : BrokerClient (node D R) := {|
  rpc_Produce := Produce;
  rpc_Consume := Consume;
  rpc_CommitOffset := CommitOffset;
  rpc_FetchOffset := FetchOffset
|}.

(** The flags of the commands. *)
Record cli_flags : Type := mkFlags {
  f_addr : bytes;
  f_topic : bytes;
  f_partition : Z;
  f_msg : bytes;
  f_offset : Z;
  f_group : bytes;
  f_follow : bool;
  f_cert : bytes;
  f_key : bytes;
  f_ca : bytes
}.

Inductive dial_option {S} `{TLSLib S} : Type :=
| Insecure
| WithTLS (config : tls_config).

Section cli.
Context {S : Type} `{BC : BrokerClient S} `{TL : TLSLib S} (grpc_Dial : bytes → dial_option → GoM S unit).

Abbreviation M := (GoM (S * list bytes)).

(** A step of the rest of the world. *)
Definition outside {A} (m : GoM S A) : M A := zoom fst (λ s st, (s, st.2)) m.

Definition print_line (line : bytes) : M unit := modify_st (λ '(s, out), (s, out ++ [line])).

Definition grpcDialOptions (certFile keyFile caFile : bytes) : GoM S dial_option :=
  let unset (file : bytes) := bool_decide (file = []) in
  if unset certFile && unset keyFile && unset caFile then mret Insecure
  else if unset certFile || unset keyFile || unset caFile
  then throw (EMsg "cert, key, and ca must either all be provided or all be omitted" [])
  else config ← LoadClientTLSConfig certFile keyFile caFile; mret (WithTLS config).

(** [grpcDialOptions] and [grpc.Dial]. *)
Definition connect (f : cli_flags) : M unit :=
  dialOptions ← outside (grpcDialOptions (f_cert f) (f_key f) (f_ca f));
  outside (grpc_Dial (f_addr f) dialOptions).

Definition partition_between : goerr := EMsg "partition must be between 0 and 2" [].

Definition produce (f : cli_flags) : M unit :=
  if decide (f_msg f = []) then throw (EMsg "--msg is required" [])
  else if (0 <=? f_partition f) && (3 <=? f_partition f) then throw partition_between
  else
    let partitionPtr := if 0 <=? f_partition f then Some (i32 (f_partition f)) else None in
    connect f;;
    offset ← outside (rpc_Produce (mkProduce (f_topic f) partitionPtr (str "msg") (f_msg f)));
    print_line (FormatUint offset).

Definition print_record (key value : bytes) : M unit :=
  print_line (str "key: " ++ key);;
  print_line (str "value: " ++ value).

Definition consume (f : cli_flags) : M unit :=
  if (f_partition f <? 0) || (3 <=? f_partition f) then throw partition_between
  else
    connect f;;
    response ← outside (rpc_Consume (mkConsume (f_topic f) (Some (i32 (f_partition f))) (f_offset f)));
    print_record (cs_Key response) (cs_Value response).

(** One round of the loop of [consumeGroup]; it gives false when the function
    returns nil. *)
Definition consume_round (f : cli_flags) (p : Z) : M bool :=
  let failed (err : goerr) : M bool := if negb (f_follow f) then throw err else mret true in
  r ← attempt (outside (rpc_FetchOffset (mkFetchOffset (f_group f) (f_topic f) p)));
  match r with
  | inr err => failed err
  | inl offset =>
      r ← attempt (outside (rpc_Consume (mkConsume (f_topic f) (Some p) offset)));
      match r with
      | inr err => failed err
      | inl response =>
          print_record (cs_Key response) (cs_Value response);;
          r ← attempt (outside (rpc_CommitOffset
                (mkCommitOffset (f_group f) (f_topic f) p (u64 (cs_Offset response + 1)))));
          match r with
          | inr err => failed err
          | inl _ => mret (f_follow f)
          end
      end
  end.

(** The first [k] rounds; true when the loop goes on after them. *)
Fixpoint consume_rounds (f : cli_flags) (p : Z) (k : nat) : M bool :=
  match k with
  | O => mret true
  | Datatypes.S k =>
      continue ← consume_round f p;
      if negb continue then mret false else consume_rounds f p k
  end.

(** The command, stopped after [k] rounds if it is still running. *)
Definition consumeGroup (f : cli_flags) (k : nat) : M bool :=
  if decide (f_group f = []) then throw (EMsg "--group is required" [])
  else if (f_partition f <? 0) || (3 <=? f_partition f) then throw partition_between
  else
    connect f;;
    consume_rounds f (i32 (f_partition f)) k.
End cli.
