(* ===== verification/GoFlag.v ===== *)
(** * Package flag, and the literals of package strconv

    [FlagSet.Parse] with the four kinds of flags of the client, and the number
    and truth-value literals that flags are set to. *)

From S2P Require Import Prelude GoNum GoNet.

(** ** strconv with base 0 *)

Definition errParse : goerr := EMsg "parse error" [].
Definition errRange : goerr := EMsg "value out of range" [].

(** [c | ('x' - 'X')] *)
Definition lower (c : byte) : byte := byte_of_Z (Z.lor (Z_of_byte c) 32).

Definition between (lo c hi : byte) : bool := (Z_of_byte lo <=? Z_of_byte c) && (Z_of_byte c <=? Z_of_byte hi).

(** The value of a digit, or of a letter from 10 on. *)
Definition any_digit (c : byte) : option Z :=
  if between Byte.x30 c Byte.x39 then Some (Z_of_byte c - 48)
  else if between Byte.x61 (lower c) Byte.x7a then Some (Z_of_byte (lower c) - 97 + 10)
  else None.

(** The loop of [ParseUint], which skips underscores. *)
Fixpoint parse_base (base n : Z) (s : bytes) : Z + goerr :=
  match s with
  | [] => inl n
  | c :: s =>
      if decide (c = Byte.x5f) then parse_base base n s
      else
        match any_digit c with
        | None => inr errParse
        | Some d =>
            if base <=? d then inr errParse
            else if (2 ^ 64 - 1) / base + 1 <=? n then inr errRange
            else
              let n := u64 (n * base) in
              let n1 := u64 (n + d) in
              if n1 <? n then inr errRange else parse_base base n1 s
        end
  end.

(** The base of a literal and what follows its prefix. *)
Definition base_prefix (s : bytes) : Z * bytes :=
  match s with
  | z :: c :: r =>
      if negb (bool_decide (z = Byte.x30)) then (10, s)
      else
        let long := negb (bool_decide (r = [])) in
        if long && bool_decide (lower c = Byte.x62) then (2, r)
        else if long && bool_decide (lower c = Byte.x6f) then (8, r)
        else if long && bool_decide (lower c = Byte.x78) then (16, r)
        else (8, c :: r)
  | [z] => if bool_decide (z = Byte.x30) then (8, []) else (10, s)
  | [] => (10, [])
  end.

(** [underscoreOK]: the last character was '^' (none), '0' (a digit), an
    underscore, or something else. *)
Inductive last_char : Type := LNone | LDigit | LUnderscore | LOther.

Fixpoint underscores_ok (hex : bool) (i : last_char) (s : bytes) : bool :=
  match s with
  | [] => match i with LUnderscore => false | _ => true end
  | c :: s =>
      if between Byte.x30 c Byte.x39 || (hex && between Byte.x61 (lower c) Byte.x66) then underscores_ok hex LDigit s
      else if bool_decide (c = Byte.x5f) then
        match i with LDigit => underscores_ok hex LUnderscore s | _ => false end
      else match i with LUnderscore => false | _ => underscores_ok hex LOther s end
  end.

Definition underscoreOK (s : bytes) : bool :=
  match s with
  | z :: c :: r =>
      if bool_decide (z = Byte.x30) && bool_decide (lower c ∈ [Byte.x62; Byte.x6f; Byte.x78])
      then underscores_ok (bool_decide (lower c = Byte.x78)) LDigit r
      else underscores_ok false LNone s
  | _ => underscores_ok false LNone s
  end.

(** [strconv.ParseUint(s, 0, 64)] *)
Definition ParseUint0 (s : bytes) : Z + goerr :=
  if decide (s = []) then inr errParse
  else
    let '(base, digits) := base_prefix s in
    match parse_base base 0 digits with
    | inr err => inr err
    | inl n => if bool_decide (Byte.x5f ∈ digits) && negb (underscoreOK s) then inr errParse else inl n
    end.

(** [strconv.ParseInt(s, 0, 64)] *)
Definition ParseInt0 (s : bytes) : Z + goerr :=
  match s with
  | [] => inr errParse
  | c :: r =>
      let neg := bool_decide (c = Byte.x2d) in
      let s' := if neg || bool_decide (c = Byte.x2b) then r else s in
      match ParseUint0 s' with
      | inr err => inr err
      | inl un =>
          if negb neg && (2 ^ 63 <=? un) then inr errRange
          else if neg && (2 ^ 63 <? un) then inr errRange
          else inl (if neg then - un else un)
      end
  end.

(** [strconv.ParseBool(s)] *)
Definition ParseBool (s : bytes) : bool + goerr :=
  if decide (s ∈ (str <$> ["1"; "t"; "T"; "true"; "TRUE"; "True"])) then inl true
  else if decide (s ∈ (str <$> ["0"; "f"; "F"; "false"; "FALSE"; "False"])) then inl false
  else inr errParse.

Example ParseInt0_ex :
  ParseInt0 (str "-1") = inl (-1) ∧ ParseInt0 (str "0x1_F") = inl 31 ∧ ParseInt0 (str "010") = inl 8 ∧
  ParseInt0 (str "1__0") = inr errParse ∧ ParseInt0 (str "9223372036854775808") = inr errRange ∧ ParseInt0 (str "0") = inl 0.
Proof. vm_compute. done. Qed.

(** ** Flag sets *)

Inductive flag_value : Type :=
| VString (s : bytes)
| VInt (i : Z)
| VUint64 (u : Z)
| VBool (b : bool).

(** The flags of a set, with their values. *)
Abbreviation flag_values := (gmap bytes flag_value).

(** [flag.Value.Set(s)] of the kind of [v]. *)
Definition set_value (v : flag_value) (s : bytes) : flag_value + goerr :=
  match v with
  | VString _ => inl (VString s)
  | VInt _ => match ParseInt0 s with inl i => inl (VInt i) | inr err => inr err end
  | VUint64 _ => match ParseUint0 s with inl u => inl (VUint64 u) | inr err => inr err end
  | VBool _ => match ParseBool s with inl b => inl (VBool b) | inr err => inr err end
  end.

Definition is_bool_flag (v : flag_value) : bool := match v with VBool _ => true | _ => false end.

(** What an argument is: not a flag; the end of the flags; malformed; a flag
    with its value if the argument has one. *)
Inductive flag_arg : Type :=
| NotFlag
| EndFlags
| BadSyntax
| FlagArg (name : bytes) (value : option bytes).

Definition split_name (name : bytes) : flag_arg :=
  match name with
  | [] => BadSyntax
  | c :: _ =>
      if decide (c = Byte.x2d ∨ c = Byte.x3d) then BadSyntax
      else
        let i := IndexByte name Byte.x3d in
        if i <? 0 then FlagArg name None
        else FlagArg (take (Z.to_nat i) name) (Some (zdrop (i + 1) name))
  end.

Definition classify (s : bytes) : flag_arg :=
  match s with
  | d :: c :: r =>
      if negb (bool_decide (d = Byte.x2d)) then NotFlag
      else if bool_decide (c = Byte.x2d) then (if decide (r = []) then EndFlags else split_name r)
      else split_name (c :: r)
  | _ => NotFlag
  end.

Definition invalid_boolean (value name : bytes) (err : goerr) : goerr :=
  EWrap "invalid boolean value %q for -%s: %v" [AStr value; AStr name] err.

Definition invalid_value (value name : bytes) (err : goerr) : goerr :=
  EWrap "invalid value %q for flag -%s: %v" [AStr value; AStr name] err.

Definition ErrHelp : goerr := EMsg "flag: help requested" [].

(** [FlagSet.Parse] with [ContinueOnError]: the values of the flags and the
    arguments that are left. *)
Fixpoint parse_flags (args : list bytes) (vals : flag_values) : (flag_values * list bytes) + goerr :=
  match args with
  | [] => inl (vals, [])
  | s :: rest =>
      match classify s with
      | NotFlag => inl (vals, args)
      | EndFlags => inl (vals, rest)
      | BadSyntax => inr (EMsg "bad flag syntax: %s" [AStr s])
      | FlagArg name value =>
          match vals !! name with
          | None =>
              if decide (name = str "help" ∨ name = str "h") then inr ErrHelp
              else inr (EMsg "flag provided but not defined: -%s" [AStr name])
          | Some old =>
              if is_bool_flag old then
                match value with
                | None => parse_flags rest (<[name := VBool true]> vals)
                | Some s =>
                    match set_value old s with
                    | inl v => parse_flags rest (<[name := v]> vals)
                    | inr err => inr (invalid_boolean s name err)
                    end
                end
              else
                match value, rest with
                | Some s, _ =>
                    match set_value old s with
                    | inl v => parse_flags rest (<[name := v]> vals)
                    | inr err => inr (invalid_value s name err)
                    end
                | None, s :: rest =>
                    match set_value old s with
                    | inl v => parse_flags rest (<[name := v]> vals)
                    | inr err => inr (invalid_value s name err)
                    end
                | None, [] => inr (EMsg "flag needs an argument: -%s" [AStr name])
                end
          end
      end
  end.

(** ** Laws *)

Lemma any_digit_val c : is_digit c → any_digit c = Some (Z_of_byte c - 48) ∧ digit_val c = Some (Z_of_byte c - 48).
Proof.
  unfold is_digit. intros Hc. unfold any_digit, digit_val, between.
  change (Z_of_byte Byte.x30) with 48. change (Z_of_byte Byte.x39) with 57.
  rewrite decide_True by lia. by rewrite (proj2 (Z.leb_le 48 _)), (proj2 (Z.leb_le _ 57)) by lia.
Qed.

Lemma digit_not_underscore c : is_digit c → c ≠ Byte.x5f.
Proof. intros Hc ->. destruct Hc as [_ Hc]. by vm_compute in Hc. Qed.

Lemma parse_base_digits s n m :
  Forall is_digit s → 0 ≤ n < 2 ^ 64 → parse_digits n s = Some m → parse_base 10 n s = inl m.
Proof.
  revert n. induction s as [|c s IH]; intros n Hd Hn Hp; simpl in *; [congruence|].
  apply Forall_cons in Hd as [Hc Hd]. destruct (any_digit_val c Hc) as [-> Ev]. rewrite Ev in Hp.
  rewrite decide_False by by apply digit_not_underscore. unfold is_digit in Hc.
  destruct (Z.ltb_spec (n * 10 + (Z_of_byte c - 48)) (2 ^ 64)); [|done].
  destruct (Z.leb_spec 10 (Z_of_byte c - 48)); [lia|].
  change ((2 ^ 64 - 1) / 10 + 1) with 1844674407370955162.
  destruct (Z.leb_spec 1844674407370955162 n); [lia|].
  rewrite (u64_id (n * 10)) by (unfold is_u64; lia). rewrite u64_id by (unfold is_u64; lia).
  destruct (Z.ltb_spec (n * 10 + (Z_of_byte c - 48)) (n * 10)); [lia|]. apply IH; [done|lia|done].
Qed.


Lemma ParseUint0_FormatUint z : is_u64 z → ParseUint0 (FormatUint z) = inl z.
Proof.
  intros Hz. pose proof (ParseUint_FormatUint z Hz) as Hp. pose proof (FormatUint_digits z) as Hd.
  destruct (decide (z = 0)) as [->|Hne]; [by rewrite FormatUint_0|]. unfold is_u64 in Hz.
  unfold ParseUint0. rewrite decide_False by apply FormatUint_nonempty.
  assert (base_prefix (FormatUint z) = (10, FormatUint z)) as ->.
  { destruct (FormatUint z) as [|c s] eqn:E; [done|].
    assert (c ≠ Byte.x30) as Hc by (eapply (FormatUint_head z); [lia|done]).
    unfold base_prefix. rewrite bool_decide_eq_false_2 by done. by destruct s. }
  rewrite (parse_base_digits _ 0 z); [|done|lia|].
  - rewrite (bool_decide_eq_false_2 (Byte.x5f ∈ FormatUint z)); [done|].
    apply digits_not_in; [done|right; by vm_compute].
  - unfold ParseUint in Hp. by destruct (FormatUint z).
Qed.

Lemma ParseInt0_Itoa z : is_i64 z → ParseInt0 (Itoa z) = inl z.
Proof.
  unfold is_i64. intros Hz. unfold Itoa. destruct (Z.ltb_spec z 0) as [Hneg|Hpos].
  - unfold ParseInt0. simpl. rewrite ParseUint0_FormatUint by (unfold is_u64; lia).
    simpl. destruct (Z.ltb_spec (2 ^ 63) (- z)); [lia|]. f_equal. lia.
  - pose proof (ParseUint0_FormatUint z ltac:(unfold is_u64; lia)) as Hp.
    pose proof (FormatUint_digits z) as Hd. unfold ParseInt0.
    destruct (FormatUint z) as [|c s] eqn:E; [by destruct (FormatUint_nonempty z)|].
    apply Forall_cons in Hd as [Hc _].
    rewrite (bool_decide_eq_false_2 (c = Byte.x2d)) by (intros ->; destruct Hc as [Hc _]; vm_compute in Hc; by apply Hc).
    rewrite (bool_decide_eq_false_2 (c = Byte.x2b)) by (intros ->; destruct Hc as [Hc _]; vm_compute in Hc; by apply Hc).
    cbn [orb negb andb]. rewrite Hp. by destruct (Z.leb_spec (2 ^ 63) z); [lia|].
Qed.

(** ** Writing flags *)

(** A value in text. *)
Definition show_value (v : flag_value) : bytes :=
  match v with
  | VString s => s
  | VInt i => Itoa i
  | VUint64 u => FormatUint u
  | VBool b => str (if b then "true" else "false")
  end.

Definition value_ok (v : flag_value) : Prop :=
  match v with VInt i => is_i64 i | VUint64 u => is_u64 u | _ => True end.

Definition same_kind (v w : flag_value) : bool :=
  match v, w with
  | VString _, VString _ | VInt _, VInt _ | VUint64 _, VUint64 _ | VBool _, VBool _ => true
  | _, _ => false
  end.

Lemma set_show_value old v : same_kind old v = true → value_ok v → set_value old (show_value v) = inl v.
Proof.
  destruct old, v; simpl; try done; intros _ Hv.
  - by rewrite ParseInt0_Itoa.
  - by rewrite ParseUint0_FormatUint.
  - by destruct b0.
Qed.

Definition name_ok (name : bytes) : Prop := Byte.x3d ∉ name ∧ ∃ c r, name = c :: r ∧ c ≠ Byte.x2d.

(** The ways to give a flag its value on a command line. *)
Inductive shown (name : bytes) : flag_value → list bytes → Prop :=
| shown_apart dashes v : dashes = str "-" ∨ dashes = str "--" → is_bool_flag v = false →
    shown name v [dashes ++ name; show_value v]
| shown_joined dashes v : dashes = str "-" ∨ dashes = str "--" →
    shown name v [dashes ++ name ++ str "=" ++ show_value v]
| shown_switch dashes : dashes = str "-" ∨ dashes = str "--" →
    shown name (VBool true) [dashes ++ name].

(** A command line that sets flags one after the other. *)
Inductive shown_all : list (bytes * flag_value) → list bytes → Prop :=
| shown_nil : shown_all [] []
| shown_cons name v args settings args' :
    shown name v args → shown_all settings args' → shown_all ((name, v) :: settings) (args ++ args').

Definition set_flags (settings : list (bytes * flag_value)) (vals : flag_values) : flag_values :=
  foldl (λ vals '(name, v), <[name := v]> vals) vals settings.

(** Every flag exists with the kind of its value. *)
Definition settings_ok (vals : flag_values) (settings : list (bytes * flag_value)) : Prop :=
  Forall (λ '(name, v), name_ok name ∧ value_ok v ∧ ∃ old, vals !! name = Some old ∧ same_kind old v = true) settings.

Lemma classify_name dashes name : dashes = str "-" ∨ dashes = str "--" → name_ok name →
  classify (dashes ++ name) = FlagArg name None.
Proof.
  intros Hd (He & c & r & -> & Hc).
  assert (split_name (c :: r) = FlagArg (c :: r) None) as Hs.
  { unfold split_name. rewrite decide_False by (intros [?|?]; [done|subst; by apply He, list_elem_of_here]).
    by rewrite IndexByte_None. }
  destruct Hd as [->| ->]; simpl; [|done]. by rewrite bool_decide_eq_false_2.
Qed.

Lemma classify_joined dashes name value : dashes = str "-" ∨ dashes = str "--" → name_ok name →
  classify (dashes ++ name ++ str "=" ++ value) = FlagArg name (Some value).
Proof.
  intros Hd (He & c & r & -> & Hc).
  assert (split_name ((c :: r) ++ str "=" ++ value) = FlagArg (c :: r) (Some value)) as Hs.
  { change (str "=" ++ value) with (Byte.x3d :: value). unfold split_name. cbn [app].
    rewrite decide_False by (intros [?|?]; [done|subst; by apply He, list_elem_of_here]).
    rewrite !app_comm_cons, IndexByte_app by done. destruct (Z.ltb_spec (zlen (c :: r)) 0); [lia|].
    rewrite Nat2Z.id, take_app_length. do 2 f_equal.
    rewrite (cons_middle Byte.x3d (c :: r)), app_assoc. apply zdrop_app_exact. rewrite length_app. simpl. lia. }
  destruct Hd as [->| ->]; simpl; [|done]. by rewrite bool_decide_eq_false_2.
Qed.

(** One flag is read back. *)
Lemma parse_shown name v args rest vals old :
  shown name v args → name_ok name → value_ok v → vals !! name = Some old → same_kind old v = true →
  parse_flags (args ++ rest) vals = parse_flags rest (<[name := v]> vals).
Proof.
  intros Hs Hn Hv Hl Hk. pose proof (set_show_value old v Hk Hv) as Hset.
  destruct Hs as [dashes v Hd Hb|dashes v Hd|dashes Hd]; cbn [app parse_flags].
  - rewrite classify_name, Hl, Hset by done. by destruct old, v.
  - rewrite classify_joined, Hl, Hset by done. by destruct (is_bool_flag old).
  - rewrite classify_name, Hl by done. by destruct old.
Qed.

Lemma parse_shown_all settings args rest : shown_all settings args → ∀ vals,
  settings_ok vals settings → parse_flags (args ++ rest) vals = parse_flags rest (set_flags settings vals).
Proof.
  induction 1 as [|name v args settings args' Hs Hall IH]; intros vals Hok; [done|].
  apply Forall_cons in Hok as [(Hn & Hv & old & Hl & Hk) Hok].
  rewrite <-app_assoc, (parse_shown name v args _ vals old) by done. simpl. apply IH.
  eapply Forall_impl; [exact Hok|]. intros [name' v'] (Hn' & Hv' & old' & Hl' & Hk').
  split_and!; [done|done|]. destruct (decide (name = name')) as [->|Hne].
  - exists v. rewrite lookup_insert_eq. split; [done|]. rewrite Hl in Hl'. simplify_eq. by destruct old', v, v'.
  - exists old'. by rewrite lookup_insert_ne.
Qed.
