(* ===== verification/CLIMain.v ===== *)
(** * The command line of the client: main in cmd/cli/main.go

    The flag sets of the three commands, the choice of the command, and the exit
    status; package flag is GoFlag.v, the commands themselves are CLI.v. *)

From S2P Require Import Prelude GoNum GoNet GoFlag Path OS Snappy Segment Log RaftFSM ConsumerGroup Broker BrokerAPI TLS CLI.

(** ** Flag sets *)

Definition flag_set (l : list (string * flag_value)) : flag_values := list_to_map (prod_map str id <$> l).

Definition tls_flags : list (string * flag_value) :=
  [("cert", VString []); ("key", VString []); ("ca", VString [])].

Definition produce_flags : flag_values := flag_set
  ([("addr", VString (str "localhost:9080")); ("topic", VString (str "default"));
    ("partition", VInt (-1)); ("msg", VString [])] ++ tls_flags).

Definition consume_flags : flag_values := flag_set
  ([("addr", VString (str "localhost:9080")); ("topic", VString (str "default"));
    ("partition", VInt 0); ("offset", VUint64 0)] ++ tls_flags).

Definition consume_group_flags : flag_values := flag_set
  ([("addr", VString (str "localhost:9080")); ("group", VString []); ("topic", VString (str "default"));
    ("partition", VInt 0); ("follow", VBool false)] ++ tls_flags).

(** The values that the command reads through the pointers of its flags. *)
Definition string_flag (vals : flag_values) (name : string) : bytes :=
  match vals !! str name with Some (VString s) => s | _ => [] end.
Definition int_flag (vals : flag_values) (name : string) : Z :=
  match vals !! str name with Some (VInt i) => i | _ => 0 end.
Definition uint64_flag (vals : flag_values) (name : string) : Z :=
  match vals !! str name with Some (VUint64 u) => u | _ => 0 end.
Definition bool_flag (vals : flag_values) (name : string) : bool :=
  match vals !! str name with Some (VBool b) => b | _ => false end.

Definition flags_of (vals : flag_values) : cli_flags :=
  mkFlags (string_flag vals "addr") (string_flag vals "topic") (int_flag vals "partition") (string_flag vals "msg")
    (uint64_flag vals "offset") (string_flag vals "group") (bool_flag vals "follow")
    (string_flag vals "cert") (string_flag vals "key") (string_flag vals "ca").

(** ** main *)

Section main.
Context {S : Type} `{BC : BrokerClient S} `{TL : TLSLib S} (grpc_Dial : bytes → dial_option → GoM S unit).

Abbreviation M := (GoM (S * list bytes)).

Definition quoted (s : string) : bytes := Byte.x22 :: str s ++ [Byte.x22].

Definition usage : list bytes := [
  str "Usage:";
  [];
  str "  elog produce --addr localhost:9080 --topic default --partition 0 --msg " ++ quoted "hello";
  str "  elog consume --addr localhost:9080 --topic default --partition 0 --offset 0";
  str "  elog consume-group --addr localhost:9080 --group group1 --topic default --partition 0 --follow";
  [];
  str "TLS options:";
  [];
  str "  --cert <client certificate>";
  str "  --key  <client private key>";
  str "  --ca   <CA certificate>"].

Fixpoint print_lines (lines : list bytes) : M unit :=
  match lines with
  | [] => mret tt
  | line :: lines => print_line line;; print_lines lines
  end.

Definition printUsage : M unit := print_lines usage.

(** A command with its arguments; [k] bounds the rounds of consume-group, and
    true says that it is still running after them. *)
Definition produce_command (args : list bytes) : M bool :=
  match parse_flags args produce_flags with
  | inr err => throw err
  | inl (vals, _) => produce grpc_Dial (flags_of vals);; mret false
  end.

Definition consume_command (args : list bytes) : M bool :=
  match parse_flags args consume_flags with
  | inr err => throw err
  | inl (vals, _) => consume grpc_Dial (flags_of vals);; mret false
  end.

Definition consume_group_command (k : nat) (args : list bytes) : M bool :=
  match parse_flags args consume_group_flags with
  | inr err => throw err
  | inl (vals, _) => consumeGroup grpc_Dial (flags_of vals) k
  end.

(** How the process ends: its exit status with the error on stderr, or it is
    still running. *)
Inductive cli_end : Type :=
| StillRunning
| ExitOK
| ExitUsage
| ExitError (err : goerr).

Definition cli_main (k : nat) (os_Args : list bytes) : M cli_end :=
  match os_Args with
  | _ :: command :: args =>
      let finish (m : M bool) : M cli_end :=
        r ← attempt m;
        mret (match r with inl true => StillRunning | inl false => ExitOK | inr err => ExitError err end) in
      if decide (command = str "produce") then finish (produce_command args)
      else if decide (command = str "consume") then finish (consume_command args)
      else if decide (command = str "consume-group") then finish (consume_group_command k args)
      else printUsage;; mret ExitUsage
  | _ => printUsage;; mret ExitUsage
  end.
End main.

(** ** Command lines *)

Inductive cli_command : Type := CmdProduce | CmdConsume | CmdConsumeGroup.

Definition command_name (c : cli_command) : bytes :=
  str match c with CmdProduce => "produce" | CmdConsume => "consume" | CmdConsumeGroup => "consume-group" end.

Definition command_flags (c : cli_command) : flag_values :=
  match c with CmdProduce => produce_flags | CmdConsume => consume_flags | CmdConsumeGroup => consume_group_flags end.

(** Nothing that Parse would take for a flag. *)
Definition no_flags (rest : list bytes) : Prop := rest = [] ∨ ∃ a l, rest = a :: l ∧ classify a = NotFlag.

(** What a command line can say, whatever the code keeps it in. *)
Inductive setting : Type :=
| SetAddr (addr : bytes)
| SetTopic (topic : bytes)
| SetPartition (partition : Z)
| SetMsg (msg : bytes)
| SetOffset (offset : Z)
| SetGroup (group : bytes)
| SetFollow (follow : bool)
| SetCert (file : bytes)
| SetKey (file : bytes)
| SetCA (file : bytes).

(** How it is written. *)
Definition written (x : setting) : bytes * flag_value :=
  match x with
  | SetAddr a => (str "addr", VString a)
  | SetTopic t => (str "topic", VString t)
  | SetPartition p => (str "partition", VInt p)
  | SetMsg m => (str "msg", VString m)
  | SetOffset o => (str "offset", VUint64 o)
  | SetGroup g => (str "group", VString g)
  | SetFollow b => (str "follow", VBool b)
  | SetCert f => (str "cert", VString f)
  | SetKey f => (str "key", VString f)
  | SetCA f => (str "ca", VString f)
  end.

(** Which command takes it. *)
Definition takes (c : cli_command) (x : setting) : Prop :=
  match x with
  | SetMsg _ => c = CmdProduce
  | SetOffset o => c = CmdConsume ∧ is_u64 o
  | SetGroup _ | SetFollow _ => c = CmdConsumeGroup
  | SetPartition p => is_i64 p
  | _ => True
  end.

(** The documented defaults. *)
Definition defaults (c : cli_command) : cli_flags := {|
  f_addr := str "localhost:9080";
  f_topic := str "default";
  f_partition := match c with CmdProduce => -1 | _ => 0 end;
  f_msg := [];
  f_offset := 0;
  f_group := [];
  f_follow := false;
  f_cert := [];
  f_key := [];
  f_ca := []
|}.

(** What it changes. *)
Definition apply_setting (f : cli_flags) (x : setting) : cli_flags :=
  let '(mkFlags addr topic partition msg offset group follow cert key ca) := f in
  match x with
  | SetAddr v => mkFlags v topic partition msg offset group follow cert key ca
  | SetTopic v => mkFlags addr v partition msg offset group follow cert key ca
  | SetPartition v => mkFlags addr topic v msg offset group follow cert key ca
  | SetMsg v => mkFlags addr topic partition v offset group follow cert key ca
  | SetOffset v => mkFlags addr topic partition msg v group follow cert key ca
  | SetGroup v => mkFlags addr topic partition msg offset v follow cert key ca
  | SetFollow v => mkFlags addr topic partition msg offset group v cert key ca
  | SetCert v => mkFlags addr topic partition msg offset group follow v key ca
  | SetKey v => mkFlags addr topic partition msg offset group follow cert v ca
  | SetCA v => mkFlags addr topic partition msg offset group follow cert key v
  end.

Lemma written_ok c x : takes c x →
  let '(name, v) := written x in
  name_ok name ∧ value_ok v ∧ ∃ old, command_flags c !! name = Some old ∧ same_kind old v = true.
Proof.
  intros Hx.
  assert (name_ok (written x).1) as Hn.
  { destruct x; (split; [apply (bool_decide_unpack _); by vm_compute|by eexists _, _]). }
  destruct x, c; simpl in Hx, Hn |- *; try discriminate Hx; try (destruct Hx as [Hc ?]; try discriminate Hc);
    (split_and!; [exact Hn|done|by eexists; split; [by vm_compute|]]).
Qed.

Lemma flags_of_set vals x : flags_of (<[(written x).1 := (written x).2]> vals) = apply_setting (flags_of vals) x.
Proof.
  destruct x; unfold flags_of, string_flag, int_flag, uint64_flag, bool_flag; simpl written; cbn [fst snd apply_setting];
    rewrite ?lookup_insert_eq; f_equal; rewrite ?lookup_insert_ne by discriminate; reflexivity.
Qed.

(** The flags that the command gets. *)
Lemma flags_of_settings settings vals :
  flags_of (set_flags (written <$> settings) vals) = foldl apply_setting (flags_of vals) settings.
Proof.
  revert vals. induction settings as [|x settings IH]; intros vals; [done|].
  cbn [foldl]. rewrite <- flags_of_set, <- IH. unfold set_flags. rewrite fmap_cons. cbn [foldl]. by destruct (written x).
Qed.

Lemma flags_of_defaults c : flags_of (command_flags c) = defaults c.
Proof. by destruct c; vm_compute. Qed.

Section theorems.
Context {S : Type} `{BC : BrokerClient S} `{TL : TLSLib S} (grpc_Dial : bytes → dial_option → GoM S unit).

Definition run_command (k : nat) (c : cli_command) (f : cli_flags) : GoM (S * list bytes) bool :=
  match c with
  | CmdProduce => produce grpc_Dial f;; mret false
  | CmdConsume => consume grpc_Dial f;; mret false
  | CmdConsumeGroup => consumeGroup grpc_Dial f k
  end.

Lemma parse_no_flags rest vals : no_flags rest → parse_flags rest vals = inl (vals, rest).
Proof. intros [->|(a & l & -> & Ha)]; [done|]. simpl. by rewrite Ha. Qed.

(** C20. The command line reaches its command.  Give any of the three commands
    any of its flags, in any order, with one dash or two, with "=" or the value
    in the next argument, a switch with or without its value: main runs the
    command with exactly those values, the last one if a flag is given twice,
    and the documented defaults for the other flags; whatever follows the first
    argument that is no flag is dropped without an error.  The exit status is
    that of the command. *)
Theorem command_line_reaches_command (c : cli_command) (settings : list setting) args rest (elog : bytes) (k : nat) st :
  shown_all (written <$> settings) args → Forall (takes c) settings → no_flags rest →
  cli_main grpc_Dial k (elog :: command_name c :: args ++ rest) st =
  match run_command k c (foldl apply_setting (defaults c) settings) st with
  | (Ok true, st') => (Ok StillRunning, st')
  | (Ok false, st') => (Ok ExitOK, st')
  | (Err err, st') => (Ok (ExitError err), st')
  | (Panic, st') => (Panic, st')
  end.
Proof.
  intros Hs Hc Hr. rewrite <- flags_of_defaults, <- flags_of_settings.
  assert (parse_flags (args ++ rest) (command_flags c) = inl (set_flags (written <$> settings) (command_flags c), rest)) as Hp.
  { rewrite (parse_shown_all _ args rest Hs); [by apply parse_no_flags|].
    apply Forall_fmap. eapply Forall_impl; [exact Hc|]. intros x. apply written_ok. }
  assert (∀ m : GoM (S * list bytes) bool,
    (r ← attempt m; mret (match r with inl true => StillRunning | inl false => ExitOK | inr err => ExitError err end)) st =
    match m st with
    | (Ok true, st') => (Ok StillRunning, st') | (Ok false, st') => (Ok ExitOK, st')
    | (Err err, st') => (Ok (ExitError err), st') | (Panic, st') => (Panic, st') end) as Hfin.
  { intros m. unfold mbind, gom_bind, attempt. by destruct (m st) as [[[]| |] st']. }
  destruct c; cbn [cli_main command_name command_flags run_command] in *.
  - rewrite decide_True by done. unfold produce_command. rewrite Hp. apply Hfin.
  - rewrite decide_False, decide_True by done. unfold consume_command. rewrite Hp. apply Hfin.
  - rewrite !decide_False, decide_True by done. unfold consume_group_command. rewrite Hp. apply Hfin.
Qed.
End theorems.

(** A broker that knows nothing; the state is what was read and dialled. *)
#[local] Instance ex_client : BrokerClient (list bytes) := {|
  rpc_Produce _ := mret 7; rpc_Consume _ := throw EOF; rpc_CommitOffset _ := mret tt; rpc_FetchOffset _ := mret 0 |}.
#[local] Instance ex_tls : TLSLib (list bytes) := {|
  Certificate := unit; CertPool := unit;
  tls_LoadX509KeyPair c k := modify_st (λ s, s ++ [c; k]);
  tls_ReadFile f := modify_st (λ s, s ++ [f]);; mret [];
  x509_Pool _ := Some tt |}.

(** [elog produce -topic orders --msg=hello --key k.pem -cert c.pem --ca=ca.pem now]
    reads the three files, dials the default address and prints the offset. *)
Lemma command_line_reaches_command_witness :
  let args := str <$> ["-topic"; "orders"; "--msg=hello"; "--key"; "k.pem"; "-cert"; "c.pem"; "--ca=ca.pem"] in
  cli_main (λ address _, modify_st (λ s, s ++ [address])) 0 (str "elog" :: str "produce" :: args ++ [str "now"]) ([], []) =
  (Ok ExitOK, (str <$> ["c.pem"; "k.pem"; "ca.pem"; "localhost:9080"], [str "7"])).
Proof.
  intros args.
  set (settings := [SetTopic (str "orders"); SetMsg (str "hello"); SetKey (str "k.pem"); SetCert (str "c.pem"); SetCA (str "ca.pem")]).
  refine (eq_trans (command_line_reaches_command (λ address _, modify_st (λ s, s ++ [address])) CmdProduce settings args [str "now"]
    (str "elog") 0 ([], []) _ _ _) _).
  - apply (shown_cons _ _ [str "-topic"; str "orders"]); [exact (shown_apart _ (str "-") (VString (str "orders")) (or_introl eq_refl) eq_refl)|].
    apply (shown_cons _ _ [str "--msg=hello"]); [exact (shown_joined _ (str "--") (VString (str "hello")) (or_intror eq_refl))|].
    apply (shown_cons _ _ [str "--key"; str "k.pem"]); [exact (shown_apart _ (str "--") (VString (str "k.pem")) (or_intror eq_refl) eq_refl)|].
    apply (shown_cons _ _ [str "-cert"; str "c.pem"]); [exact (shown_apart _ (str "-") (VString (str "c.pem")) (or_introl eq_refl) eq_refl)|].
    apply (shown_cons _ _ [str "--ca=ca.pem"] [] []); [exact (shown_joined _ (str "--") (VString (str "ca.pem")) (or_intror eq_refl))|constructor].
  - repeat constructor.
  - right. by exists (str "now"), [].
  - by vm_compute.
Defined.
