(* ===== verification/APIProps.v ===== *)
(** * Properties of the interfaces and of the command line client

    Consumer groups through the gRPC methods, the consumer loop of the client
    on a broker, what the HTTP handlers answer, joining a cluster, and the gRPC
    address. *)

From S2P Require Import Prelude GoNum GoNet Path OS Snappy Segment SegmentRep SegmentRead SegmentWrite SegmentOpen.
From S2P Require Import Log LogRep LogView LogWrite LogOpen LogMessages Frame LogFrame.
From S2P Require Import RaftFSM RaftSpec RaftProps ConsumerGroup ConsumerGroupProps.
From S2P Require Import Broker BrokerRep BrokerRun BrokerSpec BrokerPublish BrokerProps BrokerAPI BrokerAPIRun TLS CLI.

(** ** Messages of a partition are numbered *)

Definition numbered (base : Z) (msgs : list Message) : Prop :=
  0 ≤ base ∧ base + zlen msgs < 2 ^ 64 ∧ ∀ k m, msgs !! k = Some m → Offset m = base + Z.of_nat k.

(** What a consumer at offset [c] gets in [k] rounds. *)
Definition delivered (base : Z) (msgs : list Message) (c : Z) (k : nat) : list Message :=
  if c <? base then [] else take k (drop (Z.to_nat (c - base)) msgs).

Lemma delivered_step base msgs c k m :
  base ≤ c → msgs !! Z.to_nat (c - base) = Some m → delivered base msgs c (S k) = m :: delivered base msgs (c + 1) k.
Proof.
  intros Hc Hm. unfold delivered. destruct (Z.ltb_spec c base), (Z.ltb_spec (c + 1) base); try lia.
  rewrite (drop_S msgs m) by done. cbn [take]. by replace (Z.to_nat (c + 1 - base)) with (S (Z.to_nat (c - base))) by lia.
Qed.

Lemma delivered_stuck base msgs c k : c < base ∨ base + zlen msgs ≤ c → delivered base msgs c k = [].
Proof.
  unfold delivered. intros H. destruct (Z.ltb_spec c base); [done|]. rewrite drop_ge by lia. apply take_nil.
Qed.

(** The lines that print messages. *)
Definition printed (msgs : list Message) : list bytes :=
  mjoin ((λ m, [str "key: " ++ Key m; str "value: " ++ Value m]) <$> msgs).

Section props.
Context {D T R : Type} `{SN : Snappy} `{!SnappyLaws SN} `{RF : Raft R}.
Context `{BT : Bolt D T} `{BV : BoltView D T} `{!BoltLaws D T}.

Lemma Writable_numbered w l base msgs : Writable w l base msgs → numbered base msgs.
Proof.
  intros (gs & [V _ _ _] & -> & ->). pose proof (lv_base_range _ _ _ V). pose proof (lv_next _ _ _ V).
  pose proof (lv_consecutive _ _ _ V) as Hc. split_and!; [lia|rewrite length_fmap; lia|].
  intros k m. rewrite list_lookup_fmap. intros (e & He & ->)%fmap_Some_1. by apply Hc.
Qed.

Lemma stored_numbered w dir c x : stored_at w dir c x → numbered x.1 x.2.
Proof.
  intros [[_ ->]|(l & _ & _ & _ & W)]; [|by eapply Writable_numbered].
  by split_and!.
Qed.

Lemma node_numbered (n : node D R) C t i : node_ok n C → plain t → partition_id i → numbered (C t i).1 (C t i).2.
Proof.
  intros B Ht Hi. destruct (b_logs (n_broker n) !! t) as [ps|] eqn:Hps.
  - destruct (bo_topics _ _ _ B _ _ Hps) as [_ Hlen]. unfold partition_id in Hi.
    destruct (lookup_lt_is_Some_2 ps (Z.to_nat i)) as [p Hp]; [lia|].
    destruct (bo_open _ _ _ B t i p) as (l & _ & _ & _ & W); [apply lookup_partition_Some; naive_solver lia|].
    by eapply Writable_numbered.
  - eapply stored_numbered. by apply B.
Qed.

(** ** The consumer loop *)

(** A group that follows a partition. *)
Record following (f : cli_flags) (p : Z) : Prop := {
  fw_follow : f_follow f = true;
  fw_topic : plain (defaultTopic (f_topic f));
  fw_commit : commit_ok (f_group f) (defaultTopic (f_topic f)) p 0
}.

Lemma fw_commit_at f p o : following f p → is_u64 o → commit_ok (f_group f) (defaultTopic (f_topic f)) p o.
Proof. intros [_ _ (?&?&?&?&?&?)] Ho. by split_and!. Qed.

Definition group_offset (f : cli_flags) (p : Z) (n : node D R) : Z :=
  store_FetchOffset (f_group f) (defaultTopic (f_topic f)) p (n_groups n).

Lemma outside_run {A} (m : GoM (node D R) A) n r n' out : m n = (r, n') → outside m (n, out) = (r, (n', out)).
Proof. intros H. unfold outside, zoom. simpl. by rewrite H. Qed.

Lemma attempt_outside {A} (m : GoM (node D R) A) n a n' out :
  m n = (Ok a, n') → attempt (outside m) (n, out) = (Ok (inl a), (n', out)).
Proof. intros H. apply attempt_Ok. by apply outside_run. Qed.

Lemma attempt_outside_err {A} (m : GoM (node D R) A) n e n' out :
  m n = (Err e, n') → attempt (outside m) (n, out) = (Ok (inr e), (n', out)).
Proof. intros H. unfold attempt. by rewrite (outside_run _ _ _ _ out H). Qed.

(** A round at an offset that has a message, and at one that has none. *)
Lemma consume_round_run f p (n : node D R) C out :
  following f p → node_inv n C →
  let x := C (defaultTopic (f_topic f)) p in
  let c := group_offset f p n in
  ∃ n', node_inv n' C ∧
    match read_at x.1 x.2 c with
    | Ok m => consume_round f p (n, out) = (Ok true, (n', out ++ [str "key: " ++ Key m; str "value: " ++ Value m])) ∧
              group_offset f p n' = c + 1
    | _ => consume_round f p (n, out) = (Ok true, (n', out)) ∧ group_offset f p n' = c
    end.
Proof.
  intros F I x c. pose proof F as [Hfollow Ht (Hg & _ & _ & Hi & _)]. pose proof I as [B _].
  unfold consume_round. rewrite Hfollow.
  pose proof (FetchOffset_run (mkFetchOffset (f_group f) (f_topic f) p) n Hg Hi) as Hf.
  change (store_FetchOffset _ _ _ _) with c in Hf.
  rewrite (run_bind _ _ _ _ _ (attempt_outside _ _ _ _ out Hf)).
  destruct (Consume_run (mkConsume (f_topic f) (Some p) c) n C B Ht Hi) as (n1 & Hc & B1 & Hrest & _).
  simpl in Hc. fold x in Hc. pose proof (node_inv_rest _ _ _ I B1 Hrest) as I1.
  assert (Hoff : group_offset f p n1 = c) by (unfold group_offset; by rewrite (proj1 Hrest)).
  destruct (read_at_cases x.1 x.2 c) as [(m & Hm & Hle & E)|(e & E & _)]; rewrite E in *.
  - rewrite (run_bind _ _ _ _ _ (attempt_outside _ _ _ _ out Hc)). cbn [consume_response cs_Key cs_Value cs_Offset outcome_map].
    destruct (node_numbered n C _ p B Ht Hi) as (H0 & H64 & Hnum). fold x in H0, H64, Hnum.
    pose proof (Hnum _ _ Hm) as Ho. apply lookup_lt_Some in Hm.
    assert (Hcm : Offset m + 1 = c + 1) by lia.
    assert (Hu : u64 (Offset m + 1) = c + 1) by (rewrite Hcm; unfold u64; apply Z.mod_small; lia).
    destruct (CommitOffset_run (mkCommitOffset (f_group f) (f_topic f) p (u64 (Offset m + 1))) n1 C I1 Ht) as (n2 & Hcom & I2 & Hg2 & _).
    { rewrite Hu. apply fw_commit_at; [done|]. unfold is_u64. cbn [cm_Offset]. lia. }
    exists n2. split; [done|]. split.
    + erewrite run_bind by reflexivity. cbn [fst snd].
      change (out ++ [str "key: " ++ Key m; str "value: " ++ Value m]) with (out ++ ([str "key: " ++ Key m] ++ [str "value: " ++ Value m])).
      rewrite (app_assoc out).
      rewrite (run_bind _ _ _ _ _ (attempt_outside _ _ _ _ _ Hcom)). done.
    + unfold group_offset. rewrite Hg2. unfold store_FetchOffset, commit_cache. simpl. by rewrite lookup_insert_eq, Hu.
  - exists n1. split; [done|]. split; [|done].
    by rewrite (run_bind _ _ _ _ _ (attempt_outside_err _ _ _ _ out Hc)).
Qed.

(** C5.  A consumer group that follows a partition.  After any number of rounds,
    the client has printed exactly the messages from the committed offset on,
    each once and in order, as many as there have been rounds or messages, and
    the committed offset is past the last one printed; it never stops.  A group
    whose offset has been removed by retention prints nothing, however long it
    runs and whatever is published: it has no way to move its offset. *)
Theorem consume_group_delivers f p (n : node D R) C k out :
  following f p → node_inv n C →
  let x := C (defaultTopic (f_topic f)) p in
  let ms := delivered x.1 x.2 (group_offset f p n) k in
  ∃ n', consume_rounds f p k (n, out) = (Ok true, (n', out ++ printed ms)) ∧
    node_inv n' C ∧ group_offset f p n' = group_offset f p n + zlen ms.
Proof.
  intros F. revert n out. induction k as [|k IH]; intros n out I x ms.
  - exists n. assert (ms = []) as -> by (unfold ms, delivered; by case_match). split_and!; [|done|simpl; lia].
    unfold printed. simpl. by rewrite app_nil_r.
  - destruct (consume_round_run f p n C out F I) as (n1 & I1 & Hround). fold x in Hround.
    destruct (read_at_cases x.1 x.2 (group_offset f p n)) as [(m & Hm & Hle & E)|(e & E & Hout)]; rewrite E in Hround;
      destruct Hround as [Hrun Hoff].
    + destruct (IH n1 (out ++ [str "key: " ++ Key m; str "value: " ++ Value m]) I1) as (n2 & Hrun2 & I2 & Hoff2). fold x in Hrun2, Hoff2.
      exists n2. unfold ms. rewrite (delivered_step _ _ _ _ _ Hle Hm). rewrite Hoff in Hrun2, Hoff2. split_and!; [|done|].
      * cbn [consume_rounds]. rewrite (run_bind _ _ _ _ _ Hrun). cbn [negb]. rewrite Hrun2.
        unfold printed. cbn. by rewrite <-app_assoc.
      * rewrite Hoff2. simpl. lia.
    + destruct (IH n1 out I1) as (n2 & Hrun2 & I2 & Hoff2). fold x in Hrun2, Hoff2. rewrite Hoff in Hrun2, Hoff2.
      exists n2. unfold ms. rewrite (delivered_stuck _ _ _ (S k) Hout). rewrite (delivered_stuck _ _ _ k Hout) in Hrun2, Hoff2. split_and!; [|done|simpl in *; lia].
      cbn [consume_rounds]. rewrite (run_bind _ _ _ _ _ Hrun). done.
Qed.

(** C37.  Committing an offset through the gRPC interface: the group fetches it
    afterwards, the offsets of all other groups, topics and partitions stay, no
    message changes, and the lag gauge of the group shows the offset of the
    newest message minus the committed one, or 0 when that is negative: exactly
    up to [2 ^ 53], and the nearest float above. *)
Theorem commit_offset_correct req (n : node D R) C :
  let g := cm_GroupId req in
  let t := defaultTopic (cm_Topic req) in
  let i := cm_Partition req in
  let o := cm_Offset req in
  node_inv n C → plain t → commit_ok g t i o →
  ∃ n', CommitOffset req n = (Ok tt, n') ∧ node_inv n' C ∧
    FetchOffset (mkFetchOffset g t i) n' = (Ok o, n') ∧
    (∃ v, consumerGroupLag (n_metrics n') !! (g, t, Itoa i) = Some v ∧ shown_as (Z.max 0 (latest_in C t i - o)) v) ∧
    ∀ g' t' i', g' ≠ [] → key_args g' (defaultTopic t') i' → partition_id i' → (g', defaultTopic t', i') ≠ (g, t, i) →
      (FetchOffset (mkFetchOffset g' t' i') n').1 = (FetchOffset (mkFetchOffset g' t' i') n).1.
Proof.
  intros g t i o I Ht Hc. destruct (CommitOffset_run req n C I Ht Hc) as (n' & Hrun & I' & Hg & _ & _ & Hm).
  pose proof Hc as (Hg0 & Hgn & Htn & Hi & _). fold g t i o in Hrun, Hg, Hm.
  exists n'. split_and!; [done|done| | |].
  - rewrite FetchOffset_run by done. simpl. unfold t at 1. rewrite defaultTopic_idem. fold t. rewrite Hg.
    unfold store_FetchOffset, commit_cache. simpl. by rewrite lookup_insert_eq.
  - rewrite Hm. unfold set_gauge. cbn [consumerGroupLag]. rewrite lookup_insert_eq, lag_of_max.
    eexists. split; [done|]. apply float64_shown. lia.
  - intros g' t' i' Hg' Hk Hi' Hne. rewrite !FetchOffset_run by done. simpl. rewrite Hg.
    unfold store_FetchOffset, commit_cache. simpl. rewrite lookup_insert_ne; [done|]. intros He.
    apply offsetKey_inj in He as (E1 & E2 & E3); [by rewrite E1, E2, E3 in Hne| |done].
    split_and!; [done|done|]. unfold is_i32, partition_id in *. lia.
Qed.

(** ** HTTP *)

(** POST /produce without a partition: the message is stored in the
    partition its key hashes to, or the next in turn, at the offset in the
    response; but the response names partition 0 whatever partition it is. *)
Theorem produce_reports_partition_zero `{!RaftLaws R} (n : node D R) C r r' es query topic key value :
  node_ok n C → n_raft n = Some r → raft_IsLeader r = true →
  let t := defaultTopic topic in
  let i := chosen (n_broker n) t key None in
  plain t → zlen t < 2 ^ 16 → kv_ok key value →
  raft_Apply (single_frame t i key value) r = (r', entry_frames es, None) →
  entries_ok (node_mode n) C es →
  ∃ o now n',
    handleProduce (mkRequest MethodPost query (inl (mkProduce topic None key value))) n =
      (Ok (http_OK (JObject [("offset"%string, JInt o); ("topic"%string, JStr t); ("partition"%string, JInt 0)])), n') ∧
    messagesProducedTotal (n_metrics n') = messagesProducedTotal (n_metrics n) + 1 ∧
    (Read topic i o n').1 = Ok (mkMessage o now key value).
Proof.
  intros B Hr Hlead t i Ht Hlen Hkv Ha Hes.
  assert (Hidem : defaultTopic t = t) by apply defaultTopic_idem.
  destruct (Publish_stored n C r r' es t key value None B Hr Hlead) as (before & t' & now & n' & _ & _ & Hpub & B' & Hm & _ & Hread);
    rewrite ?Hidem; [done..|].
  rewrite Hidem in Hpub, Hread. fold i in Hpub, Hread. cbv zeta in Hpub, Hread.
  exists (next_offset (apply_cmds before C) t i), now, (with_metrics (add_produced 1 (n_metrics n')) n').
  unfold handleProduce. rewrite bool_decide_eq_true_2 by done. cbn [negb Body pr_Topic pr_Key pr_Value pr_Partition]. fold t.
  rewrite (run_bind _ _ _ _ _ (attempt_Ok _ _ _ _ Hpub)). split_and!; [done|simpl; by rewrite Hm|].
  assert (Hi : partition_id i) by by apply chosen_id.
  rewrite <-Hread, !(Read_value topic i _ _ (apply_cmds es C)) by done. rewrite (Read_value t i _ _ (apply_cmds es C)) by (rewrite ?Hidem; done).
  by rewrite Hidem.
Qed.
End props.

(** ** Joining a cluster *)

Section join.
Context {N : Type} (http_Post : bytes → join_request → N → N * ((Z * bytes) + goerr)).

(** The answers of the first [k] posts, each with the state it leaves. *)
Fixpoint answers (url : bytes) (body : join_request) (k : nat) (net : N) : list (N * ((Z * bytes) + goerr)) :=
  match k with
  | O => []
  | S k => http_Post url body net :: answers url body k (http_Post url body net).1
  end.

(** A post that was accepted: its status is 2xx. *)
Definition accepted (x : N * ((Z * bytes) + goerr)) : Prop :=
  match x.2 with inl (code, _) => 200 ≤ code < 300 | inr _ => False end.

#[local] Instance accepted_dec x : Decision (accepted x).
Proof. unfold accepted. destruct x as [? [[]|]]; apply _. Defined.

Definition refusal (x : N * ((Z * bytes) + goerr)) : goerr :=
  match x.2 with inl (_, status) => EMsg "join request returned status %s" [AStr status] | inr err => err end.

Lemma join_attempts_run url body k lastErr net :
  join_attempts http_Post url body k lastErr net =
  match list_find accepted (answers url body k net) with
  | Some (_, x) => (Ok (inl tt), x.1)
  | None =>
      match last (answers url body k net) with
      | Some x => (Ok (inr (refusal x)), x.1)
      | None => (Ok (inr lastErr), net)
      end
  end.
Proof.
  revert lastErr net. induction k as [|k IH]; intros lastErr net; [done|]. cbn [join_attempts answers].
  erewrite run_bind by reflexivity. destruct (http_Post url body net) as [net' r] eqn:Hpost. erewrite run_bind by reflexivity.
  cbn [list_find]. destruct r as [[code status]|err]; cbn [fst].
  - destruct (decide (accepted (net', inl (code, status)))) as [[H1 H2]|Hn]; unfold accepted in *; simpl in *.
    + destruct (Z.leb_spec 200 code), (Z.ltb_spec code 300); (done || lia).
    + destruct (Z.leb_spec 200 code), (Z.ltb_spec code 300); cbn [andb]; try lia; rewrite IH;
        destruct (list_find _ _) as [[]|]; simpl; try done; by rewrite last_cons; destruct (last _).
  - rewrite decide_False by (unfold accepted; simpl; tauto). rewrite IH. destruct (list_find _ _) as [[]|]; simpl; try done.
    rewrite last_cons. by destruct (last _).
Qed.

(** Joining makes at most five posts.  It succeeds with the first one that
    gets a 2xx answer, and posts nothing after it; when none does it fails, and
    its error wraps the reason of the last. *)
Theorem join_peer_correct id addr peer net :
  let posts := answers (str "http://" ++ peer ++ str "/join") (mkJoinRequest id addr) 5 net in
  joinPeer http_Post id addr peer net =
  match list_find accepted posts, last posts with
  | Some (_, x), _ => (Ok tt, x.1)
  | None, Some x => (Err (EWrap "failed to join peer %s after 5 attempts: %w" [AStr peer] (refusal x)), x.1)
  | None, None => (Panic, net)
  end.
Proof.
  intros posts. unfold joinPeer. cbv zeta.
  pose proof (join_attempts_run (str "http://" ++ peer ++ str "/join") (mkJoinRequest id addr) 5 EOF net) as Hrun.
  fold posts in Hrun. destruct (list_find accepted posts) as [[j x]|].
  - by rewrite (run_bind _ _ _ _ _ Hrun).
  - assert (is_Some (last posts)) as [x Hx] by (apply last_is_Some; done).
    rewrite Hx in *. by rewrite (run_bind _ _ _ _ _ Hrun).
Qed.
End join.

(** ** The gRPC address *)

(** The gRPC server listens on the HTTP port plus 1000 of the same host,
    which may be a name, an IPv4 address or an IPv6 address; a port for which
    the sum is not a port is refused. *)
Theorem grpc_address_correct host port :
  host_ok host → 0 ≤ port < 2 ^ 63 →
  grpcAddress (JoinHostPort host (Itoa port)) =
  if port + 1000 <=? 65535 then inl (JoinHostPort host (Itoa (port + 1000)))
  else inr (EMsg "HTTP port %d is too high for gRPC port offset" [AInt port]).
Proof.
  intros Hh Hp. unfold grpcAddress. rewrite SplitHostPort_JoinHostPort by (done || apply Itoa_digits; lia).
  rewrite Atoi_Itoa by (unfold is_i64; lia). destruct (Z.ltb_spec (65535 - 1000) port), (Z.leb_spec (port + 1000) 65535); (done || lia).
Qed.

(** ** Witnesses *)

#[local] Existing Instances rle_snappy rle_laws solo_raft solo_laws.

Definition ex_flags : cli_flags := mkFlags (str "localhost:9081") [] 1 [] 0 (str "g") true [] [] [].

Lemma ex_following : following ex_flags 1.
Proof.
  split; [reflexivity|exact ex_plain|].
  refine (conj _ (conj _ (conj _ (conj _ (conj _ _))))); [discriminate| | |ex_side..].
  all: apply ContainsNUL_false; reflexivity.
Qed.

Lemma ex_api : ∃ n : node buckets solo,
  node_inv n (apply_cmds [(CmdBatch (str "default") 1 ex_records, 5)] no_messages) ∧ n_groups n = ex_group.
Proof.
  destruct (ex_stored ex_group ex_db) as (n & _ & B & _ & Hg & Hd). exists n. split; [|exact Hg].
  split; [exact B|]. rewrite Hg, Hd. split; [exact ex_agrees|]. intros [].
Qed.

Lemma consume_group_delivers_witness :
  ∃ n n' : node buckets solo,
    consume_rounds ex_flags 1 7 (n, []) = (Ok true, (n', [str "key: a"; str "value: 1"; str "key: "; str "value: 2"])) ∧
    group_offset ex_flags 1 n' = 2.
Proof.
  destruct ex_api as (n & I & Hg). exists n.
  destruct (consume_group_delivers ex_flags 1 n _ 7 [] ex_following I) as (n' & Hrun & _ & Hoff).
  assert (H0 : group_offset ex_flags 1 n = 0) by (unfold group_offset; rewrite Hg; vm_compute; reflexivity).
  rewrite H0 in Hrun, Hoff. exists n'. split; [exact Hrun|]. exact Hoff.
Defined.

Lemma commit_offset_correct_witness :
  ∃ n n' : node buckets solo,
    CommitOffset (mkCommitOffset (str "g") [] 1 0) n = (Ok tt, n') ∧
    FetchOffset (mkFetchOffset (str "g") (str "default") 1) n' = (Ok 0, n') ∧
    consumerGroupLag (n_metrics n') !! (str "g", str "default", str "1") = Some 1.
Proof.
  destruct ex_api as (n & I & _). exists n.
  destruct (commit_offset_correct (mkCommitOffset (str "g") [] 1 0) n _ I ex_plain) as (n' & Hrun & _ & Hf & Hl & _).
  - exact (fw_commit _ _ ex_following).
  - exists n'. split; [exact Hrun|]. split; [exact Hf|]. destruct Hl as (v & Hl & Hv & _).
    rewrite Hv in Hl by by vm_compute. exact Hl.
Defined.

Lemma produce_reports_partition_zero_witness :
  ∃ o now n',
    handleProduce (mkRequest MethodPost [] (inl (mkProduce [] None (str "b") (str "v")))) (ex_node false) =
      (Ok (http_OK (JObject [("offset"%string, JInt o); ("topic"%string, JStr (str "default")); ("partition"%string, JInt 0)])), n') ∧
    (Read [] (fnv32a (str "b") `mod` 3) o n').1 = Ok (mkMessage o now (str "b") (str "v")) ∧
    fnv32a (str "b") `mod` 3 = 1.
Proof.
  destruct (produce_reports_partition_zero (ex_node false) no_messages (mkSolo 5 false) (mkSolo 6 false)
    [(CmdSingle (str "default") (fnv32a (str "b") `mod` 3) (str "b") (str "v"), 5)] [] [] (str "b") (str "v"))
    as (o & now & n' & Hrun & _ & Hread).
  - apply ex_node_ok.
  - reflexivity.
  - reflexivity.
  - exact ex_plain.
  - reflexivity.
  - split; reflexivity.
  - reflexivity.
  - split; [|exact I]. apply ex_cmd_ok; ex_side.
  - exists o, now, n'. split; [exact Hrun|]. split; [exact Hread|]. reflexivity.
Defined.

Lemma grpc_address_correct_witness :
  grpcAddress (str "localhost:8081") = inl (str "localhost:9081") ∧ grpcAddress (str "[::1]:7") = inl (str "[::1]:1007").
Proof.
  split.
  - etransitivity; [apply (grpc_address_correct (str "localhost") 8081)|vm_compute; reflexivity].
    + split; apply (bool_decide_unpack _); vm_compute; exact I.
    + split; [discriminate|reflexivity].
  - etransitivity; [apply (grpc_address_correct (str "::1") 7)|vm_compute; reflexivity].
    + split; apply (bool_decide_unpack _); vm_compute; exact I.
    + split; [discriminate|reflexivity].
Defined.
